(* ===== verification/_CoqProject ===== *)
-Q . S2P
Prelude.v
GoLib.v
Glob.v
Engine.v
Scan.v
MemStore.v
FakeEngine.v
Disk.v
Json.v
Base64.v
Crypto.v
Wal.v
Snapshot.v
DiskStore.v
DiskEngine.v
Batching.v
StoreLife.v
Durability.v
RaftNode.v
RaftLeader.v
RaftApply.v
RaftLog.v
RaftCommit.v
RaftApplied.v
RaftCluster.v
RaftSafety.v
RaftMatching.v
RaftConsensus.v
RaftHazards.v
RaftLoop.v
RaftDuplicate.v
RaftEngine.v
RaftStore.v
Api.v
ApiTypes.v
Standalone.v
Oversize.v
Linearizability.v
Transport.v
ChaosFaults.v
ChaosOracles.v
RaftOracles.v
ChaosCluster.v
ServerMain.v
Client.v
Logger.v
Shutdown.v
Metrics.v
