(* ===== verification/Prelude.v ===== *)
(** * kv-store: a verification development

    The program is a key-value server written in Go (src/): a REST API over a
    storage engine, which is either a durable local store or a raft node that
    replicates the commands to such a store on every machine.

    ** The parts and how they meet

    A request enters pkg/api, which calls the interface [Engine] of
    pkg/storage/engine.go.  The interface is implemented by the memory store
    (memstore.go), by the durable store (wal.go, batcher.go, snapshot.go), which
    is a memory store behind a write-ahead log and a snapshot file, by the test
    double (fake.go), and by [raft.Node] (pkg/raft), whose apply loop executes
    the committed log on a durable store.  cmd/server wires them; pkg/client
    follows redirects to the leader; pkg/chaos and pkg/linearizability test the
    cluster.

    ** Which file models what

    - Prelude (this file), GoLib, Json, Base64: errors and results, bytes and
      strings, machine integers, and the standard library as far as the sources
      use it.
    - Engine: the interface as a class of operations, its documented behaviour
      as a class of laws on the map a reader sees; Glob and Scan: patterns and
      pagination of [Scan].
    - MemStore (memstore.go), FakeEngine (fake.go): the operations one by one;
      both are instances of the two classes.
    - Disk: system calls on a file system with volatile and durable contents and
      directory entries, failing calls and crashes, and [atomicWriteFile] of
      snapshot.go.
    - Crypto (crypto.go), Wal (wal.go), Snapshot (snapshot.go), DiskStore (the
      writes of the store and its goroutines as events), DiskEngine (its public
      methods as an [Engine]), Batching (the batch loop of batcher.go with its
      timer and the time its writes take), StoreLife (callers, the three goroutines and [Close] with their
      locks and channels), Durability (what survives a crash).
    - RaftNode (types.go, node.go, follower.go, the receiving side of
      snapshot.go, the accessors), RaftLeader (election.go, commit.go,
      replication in leader.go, the sending side of snapshot.go), RaftApply
      (proposals in leader.go, apply.go): a function per critical section, and
      whole calls as their composition.
    - RaftLog, RaftCommit, RaftApplied, RaftDuplicate: theorems on single nodes.
    - RaftCluster: a step relation of a cluster over a network that loses,
      delays, reorders and duplicates, with crashes and failing disks.  A step
      that breaks a rule Raft's safety rests on is labelled with a hazard.
      RaftSafety, RaftMatching, RaftConsensus: the invariants of elections, of
      logs and of commits in executions without hazards; RaftHazards: executions
      with one hazard.
    - RaftLoop: [Loop], [Stop] and [Close] of a node (election.go, types.go) with
      the election timer, the ticker and the clock, and the cluster of nodes
      with such loops.
    - RaftStore (persistence.go), RaftEngine (a node as an [Engine]), Transport
      (transport.go, transport_mem.go, transport_http.go).
    - Api (handlers.go, middleware.go, server.go, the counters of metrics.go),
      ApiTypes (the types of its responses), Metrics (the page of metrics.go),
      Client (pkg/client), Logger (pkg/util).
    - ServerMain (cmd/server): configuration, key, start, routes, snapshot
      bridge and compactor; Shutdown: main from its select to the exit.
    - Standalone, Oversize: the server over the durable store as one program.
    - Linearizability (checker.go), ChaosFaults (faults.go, transport.go),
      ChaosOracles (oracles.go), ChaosCluster (cluster.go), RaftOracles (the
      oracles on executions of the cluster).

    ** How state and effects are modelled

    A mutex-protected body is a function on the state it protects; a call that
    unlocks in the middle is split there.  A Go [(T, error)] is [res T].  Every
    reading of the clock, every random draw and every order in which Go ranges
    over a map is an argument.  Code on files is in the monad [Disk.IO]: each
    call consumes an outcome of a script, and every intermediate file system is
    kept, because the process may die there.  AES-GCM is the record
    [Crypto.AEAD] with the laws [AEAD_laws] of its documentation, and the
    network of the HTTP transport is a function.

    ** What the theorems show

    - Storage: the memory store refines an ideal timed map; pages of a scan are
      complete; the glob matcher decides the textbook definition; a file is
      replaced atomically; replay re-executes the log, sealed or not.  While no
      system call fails, a crash at any of them loses no acknowledged write of
      the durable store: it reopens, except that a record torn by the crash may
      have to be cut off first ([Durability.recovers]).  A clean close is read
      back, with U+FFFD for what is no UTF-8 ([Snapshot.snapshot_data]).  No batch
      grows past its limit, and none of its requests waits longer, from when the
      loop receives it, than the flush interval, the loop's delay and the time of
      the write; every admitted request is answered before the store counts as
      closed, and [Close] returns; snapshots, old snapshots and sealed blobs
      round-trip.
    - Raft, in every execution of the cluster without hazards: at most one leader
      per term, log matching, leader completeness, and state machine safety.
      The hazards are steps the code can make ([RaftCluster.hazard]); for each of
      five of them an execution that meets only that one ends with two nodes that
      have committed different entries at one index, and with another two leaders
      are elected in one term.
    - Raft, a node: a successful AppendEntries makes the logs agree; the commit
      rule; each committed entry is applied once and in order; saved state
      survives crashes; replication to a peer terminates; a leader cut off from
      its majority steps down; repeated delivery changes nothing; the HTTP
      transport does what the in-process one does.
    - Raft in time: the loops of the nodes refine the cluster, so what holds of
      its executions holds of theirs; elections of a node are the minimal timeout
      apart; a node that hears of nobody for the maximal timeout campaigns.
    - The server: the API acts on the visible map as documented over any lawful
      engine; responses have the types of their routes; over the durable store,
      killing the process between requests and restarting it cannot be told from
      a store in memory; ending on a signal executes what is held and keeps the
      data as a close does; a lone node is transparent and a follower
      refuses writes; the client reaches the leader; metrics add up; log lines
      cannot be forged; keys are accepted or refused as stated; probes and
      routes; snapshots bring a follower up to date; a restart converges for
      overwriting commands.
    - The test tools: what the checker and the log oracles decide, that the
      workload records histories the checker's theorem applies to, and that the
      raft oracles report nothing on executions without hazards, provided that
      no node's term changes between the two calls the election oracle makes of
      it; otherwise that oracle may give a false alarm.
    - Theorems that are not guarantees but executions in which one fails
      (increments repeated by a restart or a racing snapshot, a vote repeated
      after an unread state file, binary values changed by JSON, a write that is
      acknowledged and makes the log unreadable, a torn record on which opening is
      refused, a new log whose name is lost, and others) stand beside the theorem
      whose limit they mark.

    ** Bounds and fuel

    Parsers recurse on fuel of twice the input length and one, which
    [Json.jsize_print] shows to be enough for every printed value.
    [RaftLeader.replicateToPeer] takes fuel and is shown to end within seven
    rounds.  The client's ten requests are net/http's limit.  [int64], [uint64]
    and [uint32] arithmetic wraps where the source computes with them; raft
    terms and indices are unbounded, as counters that do not reach 2^63.

    ** What is not modelled

    What the process runs in: listening, TLS and the delivery of signals are
    those of Go's library ([Shutdown.main_stop] takes what they return);
    the creation of the data directory itself, and permissions; HTTP headers other
    than Content-Type and Location; the nesting limit of the JSON decoder; the
    timeout of the client.  [RaftLeader.replicateToPeer] is one goroutine without
    the others' steps in between (RaftCluster interleaves its critical sections);
    the log oracles of the chaos harness are given each node as seen once.  The timers of the batch loop
    and of the election loop are modelled; the tickers of the snapshot, expiry and
    compaction loops and the timeouts of RPCs may come at any time.  The capacity
    of the batch channel is not modelled, as a caller waits for its answer
    anyway.  Of the log output, the format of a line (Logger) and the lines of
    main's exit are modelled, those of other parts are not.  In the chaos harness
    the durable stores of the nodes and the log lines of a test are left out.
    Commit safety is proved for executions in which no log is compacted: the
    steps that move the base of a log are labelled [Rebase] and excluded by
    [no_hazard]; the base is covered by the theorems on single handlers (RaftLog)
    and by the snapshot bridge (ServerMain). *)

From stdpp Require Export base tactics numbers option list fin_maps gmap strings sorting.
From Stdlib Require Export Ascii ZArith Lia.

#[export] Set Warnings "-clear-no-such-hyp".

(** The development's hint database: lemmas that close the routine goals. *)
Create HintDb kv.
Create Rewrite HintDb zlen.

Declare Scope kv_scope.
Delimit Scope kv_scope with kv.
Open Scope kv_scope.
Open Scope Z_scope.

(** ** Errors and results

    A Go [error] value the sources compare with [errors.Is] / [errors.As] has
    its own constructor; every other error is an [ErrMsg] carrying the text
    that identifies it.  [res] is a Go [(T, error)] pair of which one side is
    meaningful. *)

Inductive go_error : Type :=
| ErrNotFound
| ErrClosed
| ErrNotNumeric
| ErrOverflow
| ErrInvalidCursor
| ErrDecrypt
| NotLeaderError (LeaderAddr : string)
| ErrUnexpectedEOF
| ErrEOF
| ErrMsg (msg : string).

Global Instance go_error_eq_dec : EqDecision go_error.
Proof. solve_decision. Defined.

Inductive res (A : Type) : Type :=
| Ok (a : A)
| Err (e : go_error).
Arguments Ok {A} a.
Arguments Err {A} e.

Global Instance res_eq_dec `{EqDecision A} : EqDecision (res A).
Proof. solve_decision. Defined.

Definition res_bind {A B} (r : res A) (f : A → res B) : res B :=
  match r with Ok a => f a | Err e => Err e end.

Notation "'let!' p ':=' e1 'in' e2" := (res_bind e1 (λ x, match x with p => e2 end))
  (at level 10, p pattern, e1 at level 200, e2 at level 200) : kv_scope.

Definition is_ok {A} (r : res A) : bool :=
  match r with Ok _ => true | Err _ => false end.

(** ** Bytes: a Go [byte] is an [ascii], a Go [[]byte] a list of them *)

Abbreviation bytes := (list ascii).

Definition byte_of_Z (z : Z) : ascii := ascii_of_N (Z.to_N (z mod 256)).
Definition Z_of_byte (b : ascii) : Z := Z.of_N (N_of_ascii b).

Definition bytes_of_string (s : string) : bytes := String.list_ascii_of_string s.
Definition string_of_bytes (l : bytes) : string := String.string_of_list_ascii l.

(** Go's [len] of a slice and of a string (its number of bytes). *)
Definition zlen {A} (l : list A) : Z := Z.of_nat (length l).
Definition slen (s : string) : Z := zlen (bytes_of_string s).

Lemma bytes_of_string_of_bytes l : bytes_of_string (string_of_bytes l) = l.
Proof. apply String.list_ascii_of_string_of_list_ascii. Qed.

Lemma string_of_bytes_of_string s : string_of_bytes (bytes_of_string s) = s.
Proof. apply String.string_of_list_ascii_of_string. Qed.

Global Instance bytes_of_string_inj : Inj (=) (=) bytes_of_string.
Proof.
  intros s1 s2 H. rewrite <- (string_of_bytes_of_string s1), H.
  apply string_of_bytes_of_string.
Qed.

Lemma Z_of_byte_range b : 0 <= Z_of_byte b < 256.
Proof. unfold Z_of_byte. pose proof (N_ascii_bounded b). lia. Qed.

Lemma Z_of_byte_of_Z z : Z_of_byte (byte_of_Z z) = z mod 256.
Proof.
  unfold Z_of_byte, byte_of_Z. pose proof (Z.mod_pos_bound z 256).
  rewrite N_ascii_embedding by lia. lia.
Qed.

Lemma byte_of_Z_of_byte b : byte_of_Z (Z_of_byte b) = b.
Proof.
  unfold byte_of_Z. pose proof (Z_of_byte_range b).
  rewrite Z.mod_small by lia. unfold Z_of_byte. rewrite N2Z.id.
  apply ascii_N_embedding.
Qed.

Global Instance Z_of_byte_inj : Inj (=) (=) Z_of_byte.
Proof. intros a b H. rewrite <- (byte_of_Z_of_byte a), H. apply byte_of_Z_of_byte. Qed.

Lemma zlen_nonneg {A} (l : list A) : 0 <= zlen l.
Proof. unfold zlen. lia. Qed.

Lemma zlen_app {A} (l1 l2 : list A) : zlen (l1 ++ l2) = zlen l1 + zlen l2.
Proof. unfold zlen. rewrite length_app. lia. Qed.

Lemma zlen_cons {A} (x : A) l : zlen (x :: l) = 1 + zlen l.
Proof. unfold zlen. simpl. lia. Qed.

Lemma zlen_nil {A} : zlen (@nil A) = 0.
Proof. done. Qed.

Lemma zlen_0_inv {A} (l : list A) : zlen l = 0 → l = [].
Proof. destruct l; [done|]. rewrite zlen_cons. pose proof (zlen_nonneg l). lia. Qed.

Lemma zlen_take {A} (l : list A) (n : nat) : zlen (take n l) = Z.min (Z.of_nat n) (zlen l).
Proof. unfold zlen. rewrite length_take. lia. Qed.

Lemma zlen_drop {A} (l : list A) (n : nat) : zlen (drop n l) = Z.max 0 (zlen l - Z.of_nat n).
Proof. unfold zlen. rewrite length_drop. lia. Qed.

Global Hint Rewrite @zlen_app @zlen_cons @zlen_nil @zlen_take @zlen_drop : zlen.

(** [zlia]: normalise slice lengths, then linear arithmetic. *)
Ltac zlia :=
  autorewrite with zlen in *;
  repeat match goal with
  | |- context [zlen ?l] => assert_fails (assert (0 <= zlen l) by assumption); pose proof (zlen_nonneg l)
  | _ : context [zlen ?l] |- _ => assert_fails (assert (0 <= zlen l) by assumption); pose proof (zlen_nonneg l)
  end;
  lia.

(** ** Lists *)

Lemma filter_id {A} (P : A → Prop) `{!∀ x, Decision (P x)} (l : list A) :
  (∀ x, x ∈ l → P x) → filter P l = l.
Proof.
  induction l as [|x l IH]; intros Hl; [done|]. rewrite filter_cons, decide_True.
  - f_equal. apply IH. intros y Hy. apply Hl. by right.
  - apply Hl. by left.
Qed.

Lemma filter_none {A} (P : A → Prop) `{!∀ x, Decision (P x)} (l : list A) :
  (∀ x, x ∈ l → ¬ P x) → filter P l = [].
Proof.
  induction l as [|x l IH]; intros Hl; [done|]. rewrite filter_cons, decide_False.
  - apply IH. intros y Hy. apply Hl. by right.
  - apply Hl. by left.
Qed.

(** ** Go's fixed-width integers *)

Definition maxInt64 : Z := 2 ^ 63 - 1.
Definition minInt64 : Z := - 2 ^ 63.
Definition in_int64 (z : Z) : Prop := minInt64 <= z <= maxInt64.
Definition u64 (z : Z) : Z := z mod 2 ^ 64.
Definition u32 (z : Z) : Z := z mod 2 ^ 32.

(** The conversion [int64(x)] of an unsigned 64-bit [x] (two's complement). *)
Definition i64_of_u64 (z : Z) : Z := if decide (z < 2 ^ 63) then z else z - 2 ^ 64.

Lemma i64_u64 z : in_int64 z → i64_of_u64 (u64 z) = z.
Proof.
  unfold in_int64, i64_of_u64, u64, minInt64, maxInt64. intros H.
  case_decide as Hd.
  - destruct (decide (0 <= z)).
    + rewrite Z.mod_small; lia.
    + rewrite <- (Z.mod_unique z (2^64) (-1) (z + 2^64)) in Hd; lia.
  - destruct (decide (0 <= z)).
    + rewrite Z.mod_small in Hd; lia.
    + rewrite <- (Z.mod_unique z (2^64) (-1) (z + 2^64)); lia.
Qed.

Lemma u64_u64 z : u64 (u64 z) = u64 z.
Proof. unfold u64. by rewrite Z.mod_mod. Qed.

Lemma u64_i64 z : 0 <= z < 2 ^ 64 → in_int64 (i64_of_u64 z) ∧ u64 (i64_of_u64 z) = z.
Proof.
  unfold in_int64, i64_of_u64, u64, minInt64, maxInt64. intros H. case_decide.
  - split; [lia|]. apply Z.mod_small. lia.
  - split; [lia|]. symmetry. apply (Z.mod_unique _ _ (-1)); lia.
Qed.

(** ** Strings: Go compares them byte by byte, which is [String.le] *)

Definition str_le (s1 s2 : string) : bool := String.leb s1 s2.
Definition str_lt (s1 s2 : string) : bool := String.ltb s1 s2.

Lemma str_le_spec s1 s2 : str_le s1 s2 = true ↔ String.le s1 s2.
Proof. unfold str_le, String.le. by rewrite Is_true_true. Qed.

Lemma str_lt_spec s1 s2 : str_lt s1 s2 = true ↔ ¬ String.le s2 s1.
Proof.
  unfold str_lt, String.le, String.ltb, String.leb.
  rewrite (String.compare_antisym s1 s2).
  destruct (String.compare s2 s1) eqn:E; simpl; naive_solver.
Qed.

Lemma string_append_assoc a b c :
  String.append (String.append a b) c = String.append a (String.append b c).
Proof.
  induction a as [|x a IH]; [done|].
  change (String x (String.append (String.append a b) c) = String x (String.append a (String.append b c))).
  by rewrite IH.
Qed.

Lemma string_eqb_spec (s1 s2 : string) : String.eqb s1 s2 = true ↔ s1 = s2.
Proof. apply String.eqb_eq. Qed.

(** ** Tactics of the development *)

(** Split every [if] and [match] of the goal on the value it inspects. *)
Ltac split_match :=
  repeat match goal with
  | |- context [match ?x with _ => _ end] => destruct x eqn:?; simplify_eq/=
  end.

(** Turn the boolean tests of the code into propositions for [lia]. *)
Ltac bool_prop :=
  repeat match goal with
  | H : _ && _ = true |- _ => apply andb_true_iff in H as [? ?]
  | H : _ || _ = false |- _ => apply orb_false_iff in H as [? ?]
  | H : negb _ = true |- _ => apply negb_true_iff in H
  | H : negb _ = false |- _ => apply negb_false_iff in H
  | H : (_ <=? _) = true |- _ => apply Z.leb_le in H
  | H : (_ <=? _) = false |- _ => apply Z.leb_gt in H
  | H : (_ <? _) = true |- _ => apply Z.ltb_lt in H
  | H : (_ <? _) = false |- _ => apply Z.ltb_ge in H
  | H : (_ =? _) = true |- _ => apply Z.eqb_eq in H
  | H : (_ =? _) = false |- _ => apply Z.eqb_neq in H
  | H : bool_decide _ = true |- _ => apply bool_decide_eq_true in H
  | H : bool_decide _ = false |- _ => apply bool_decide_eq_false in H
  end.
