(* ===== verification/GoLib.v ===== *)
(** * GoLib: the parts of Go's standard library the sources use

    [encoding/binary] big-endian integers, [strconv.ParseInt]/[FormatInt] in
    base 10, [io.ReadFull] on an in-memory reader and [sort] (on keys that are
    totally ordered, so that the result is unique).  Each is an executable
    function with the lemmas the components rely on. *)

From S2P Require Import Prelude.
From Stdlib Require Import DecimalString DecimalZ DecimalFacts DecimalPos DecimalN.

(** ** encoding/binary: big-endian unsigned integers *)

(** [PutUintN]: the [n] low-order bytes of [z], most significant first. *)
Fixpoint be_encode (n : nat) (z : Z) : bytes :=
  match n with
  | O => []
  | S n => be_encode n (z / 256) ++ [byte_of_Z z]
  end.

(** [UintN]: the number a big-endian byte string denotes. *)
Definition be_decode (l : bytes) : Z :=
  foldl (λ acc b, acc * 256 + Z_of_byte b) 0 l.

Lemma length_be_encode n z : length (be_encode n z) = n.
Proof. revert z. induction n; intros z; simpl; [done|]. rewrite length_app, IHn. simpl. lia. Qed.

Lemma zlen_be_encode n z : zlen (be_encode n z) = Z.of_nat n.
Proof. unfold zlen. by rewrite length_be_encode. Qed.
Global Hint Rewrite zlen_be_encode : zlen.

Lemma be_decode_snoc l b : be_decode (l ++ [b]) = be_decode l * 256 + Z_of_byte b.
Proof. unfold be_decode. by rewrite foldl_app. Qed.

Lemma be_decode_encode n z : be_decode (be_encode n z) = z mod 256 ^ Z.of_nat n.
Proof.
  revert z. induction n as [|n IH]; intros z; simpl be_encode.
  - change (256 ^ Z.of_nat 0) with 1. rewrite Z.mod_1_r. done.
  - rewrite be_decode_snoc, IH, Z_of_byte_of_Z.
    rewrite Nat2Z.inj_succ, Z.pow_succ_r by lia.
    rewrite Z.rem_mul_r by lia. lia.
Qed.

Lemma be_decode_range l : 0 <= be_decode l < 256 ^ zlen l.
Proof.
  induction l as [|b l IH] using rev_ind; [done|]. rewrite be_decode_snoc.
  pose proof (Z_of_byte_range b). pose proof (zlen_nonneg l).
  replace (zlen (l ++ [b])) with (Z.succ (zlen l)) by zlia. rewrite Z.pow_succ_r by done. lia.
Qed.

(** Every byte string is the encoding of the number it denotes. *)
Lemma be_encode_decode l : be_encode (length l) (be_decode l) = l.
Proof.
  induction l as [|b l IH] using rev_ind; [done|].
  rewrite length_app, Nat.add_comm. simpl. pose proof (Z_of_byte_range b).
  rewrite be_decode_snoc, Z.div_add_l, (Z.div_small (Z_of_byte b)), Z.add_0_r, IH by lia.
  do 2 f_equal. apply Z_of_byte_inj. rewrite Z_of_byte_of_Z, Z.add_comm, Z.mod_add by lia.
  by apply Z.mod_small.
Qed.

Global Arguments be_encode : simpl never.

(** A 32-bit length prefix and a 64-bit timestamp survive the round trip. *)
Lemma be32_roundtrip z : 0 <= z < 2 ^ 32 → be_decode (be_encode 4 z) = z.
Proof. intros H. rewrite be_decode_encode. apply Z.mod_small. done. Qed.

Lemma be64_roundtrip z : be_decode (be_encode 8 z) = u64 z.
Proof. by rewrite be_decode_encode. Qed.

(** ** io.ReadFull on an in-memory reader *)

(** [ReadFull(r, buf)] with [len(buf) = n]: all [n] bytes, or [io.EOF] when the
    reader is exhausted before the first byte, or [io.ErrUnexpectedEOF].  On a
    short read the bytes there were are consumed. *)
Definition ReadFull (n : nat) (r : bytes) : res bytes * bytes :=
  if decide (n = 0%nat) then (Ok [], r)
  else if decide (r = []) then (Err ErrEOF, [])
  else if decide (n ≤ length r)%nat then (Ok (take n r), drop n r)
  else (Err ErrUnexpectedEOF, []).

Lemma ReadFull_app n l r : length l = n → ReadFull n (l ++ r) = (Ok l, r).
Proof.
  intros <-. unfold ReadFull. case_decide as H0.
  - destruct l; [done|simpl in H0; lia].
  - rewrite decide_False by (destruct l; done).
    rewrite decide_True by (rewrite length_app; lia).
    by rewrite take_app_length, drop_app_length.
Qed.

Lemma ReadFull_short n r :
  (length r < n)%nat → ∃ e, ReadFull n r = (Err e, []) ∧ (e = ErrEOF ∨ e = ErrUnexpectedEOF).
Proof.
  intros H. unfold ReadFull. rewrite decide_False by lia.
  case_decide; [eauto|]. rewrite decide_False by lia. eauto.
Qed.

Lemma ReadFull_inv n r l r' : ReadFull n r = (Ok l, r') → r = l ++ r' ∧ length l = n.
Proof.
  unfold ReadFull. intros H. case_decide; [by simplify_eq|]. case_decide; [by simplify_eq|].
  case_decide; simplify_eq. rewrite take_drop, length_take. split; [done|lia].
Qed.

(** ** strconv *)

(** [FormatInt(v, 10)]. *)
Definition FormatInt (v : Z) : string := NilZero.string_of_int (Z.to_int v).

(** The unsigned digits of a base-10 literal; [None] on an empty string or on a
    character that is not a digit. *)
Definition parse_digits (s : string) : option Z :=
  match NilZero.uint_of_string s with
  | Some d => Some (Z.of_uint d)
  | None => None
  end.

(** The optional sign: whether it is a minus, and what follows it. *)
Definition split_sign (s : string) : bool * string :=
  match s with
  | String "-" s' => (true, s')
  | String "+" s' => (false, s')
  | _ => (false, s)
  end.

(** [ParseInt(s, 10, 64)], [None] standing for a [*NumError] (syntax or range):
    an optional sign, at least one digit, a value that fits an [int64].
    [strconv.Atoi] is the same function on a 64-bit platform. *)
Definition ParseInt (s : string) : option Z :=
  let (neg, digits) := split_sign s in
  match parse_digits digits with
  | None => None
  | Some un =>
      if negb neg && (2 ^ 63 <=? un) then None
      else if neg && (2 ^ 63 <? un) then None
      else Some (if neg then - un else un)
  end.

Lemma parse_digits_nonneg s v : parse_digits s = Some v → 0 <= v.
Proof.
  unfold parse_digits. destruct (NilZero.uint_of_string s) as [d|]; [|done].
  intros [= <-]. unfold Z.of_uint. lia.
Qed.

Lemma ParseInt_range s v : ParseInt s = Some v → in_int64 v.
Proof.
  unfold ParseInt. destruct (split_sign s) as [neg digits].
  destruct (parse_digits digits) as [un|] eqn:E; [|done].
  apply parse_digits_nonneg in E. unfold in_int64, minInt64, maxInt64.
  destruct neg; simpl.
  - destruct (2 ^ 63 <? un) eqn:E2; bool_prop; naive_solver lia.
  - destruct (2 ^ 63 <=? un) eqn:E2; bool_prop; naive_solver lia.
Qed.

(** Printing a natural number gives digits only, so no sign is read back. *)
Lemma split_sign_digits d : split_sign (NilZero.string_of_uint d) = (false, NilZero.string_of_uint d).
Proof. by destruct d. Qed.

Lemma parse_digits_string d : d ≠ Decimal.Nil →
  parse_digits (NilZero.string_of_uint d) = Some (Z.of_uint d).
Proof. intros H. unfold parse_digits. by rewrite NilZero.usu. Qed.

Lemma FormatInt_nonneg v : 0 <= v → ∃ d, d ≠ Decimal.Nil ∧ Z.of_uint d = v ∧
  FormatInt v = NilZero.string_of_uint d.
Proof.
  intros H. unfold FormatInt. pose proof (DecimalZ.of_to v) as Ho.
  destruct v as [|p|p]; simpl in *; [by exists (Decimal.D0 Decimal.Nil)| |lia].
  exists (Pos.to_uint p). split; [apply DecimalPos.Unsigned.to_uint_nonnil|]. done.
Qed.

Lemma FormatInt_neg v : v < 0 → ∃ d, d ≠ Decimal.Nil ∧ Z.of_uint d = - v ∧
  FormatInt v = String "-" (NilZero.string_of_uint d).
Proof.
  intros H. destruct v as [|p|p]; [lia|lia|].
  exists (Pos.to_uint p). split; [apply DecimalPos.Unsigned.to_uint_nonnil|].
  split; [|done]. pose proof (DecimalZ.of_to (Z.neg p)) as Ho. simpl in Ho.
  unfold Z.of_int in Ho. lia.
Qed.

Lemma ParseInt_FormatInt v : in_int64 v → ParseInt (FormatInt v) = Some v.
Proof.
  unfold in_int64, minInt64, maxInt64. intros Hr. unfold ParseInt.
  destruct (decide (0 <= v)) as [Hv|Hv].
  - destruct (FormatInt_nonneg v Hv) as (d & Hd & Hz & ->).
    rewrite split_sign_digits, parse_digits_string, Hz by done. simpl.
    destruct (2 ^ 63 <=? v) eqn:E; bool_prop; [lia|done].
  - destruct (FormatInt_neg v) as (d & Hd & Hz & ->); [lia|]. simpl.
    rewrite parse_digits_string, Hz by done.
    destruct (2 ^ 63 <? - v) eqn:E; bool_prop; [lia|]. f_equal. lia.
Qed.

Example ParseInt_ex : ParseInt "+007" = Some 7 ∧ ParseInt "-9223372036854775808" = Some minInt64 ∧
  ParseInt "9223372036854775808" = None ∧ ParseInt "" = None ∧ ParseInt "-" = None ∧
  ParseInt "1_0" = None ∧ FormatInt (-12) = "-12".
Proof. vm_compute. done. Qed.

(** ** sort

    [sort.Slice] / [sort.Ints] / [sort.Strings] on elements ordered by a key. *)
Section sort.
Context {A : Type} (R : relation A) `{!∀ x y, Decision (R x y)}.

Definition go_sort (l : list A) : list A := merge_sort R l.

Lemma go_sort_Permutation l : go_sort l ≡ₚ l.
Proof. apply merge_sort_Permutation. Qed.

Lemma go_sort_sorted `{!Transitive R, !Total R} l : StronglySorted R (go_sort l).
Proof. by apply StronglySorted_merge_sort. Qed.

(** Elements with distinct keys: any sorted permutation is the sort. *)
Lemma go_sort_unique `{!Transitive R, !Total R, !AntiSymm (=) R} l k :
  StronglySorted R k → k ≡ₚ l → go_sort l = k.
Proof.
  intros Hs Hp. eapply (StronglySorted_unique R); [by apply go_sort_sorted|done|].
  by rewrite go_sort_Permutation, Hp.
Qed.
End sort.
