(* ===== verification/Glob.v ===== *)
(** * Glob: [matchGlob] of pkg/storage/fake.go

    The iterative matcher with one backtracking point is translated as a loop
    on its four variables; it is proved to terminate and to decide the
    textbook recursive definition of a [*] glob. *)

From S2P Require Import Prelude.

(** ** The code *)

(** The loop of [matchGlob]: [pi] and [si] index the pattern and the subject,
    [star] is the last [*] seen ([None] for -1) and [mark] where its run ends.
    [None] is returned only when the fuel runs out. *)
Fixpoint matchGlob_loop (fuel : nat) (pattern s : bytes)
    (pi si : nat) (star : option nat) (mark : nat) : option bool :=
  match fuel with
  | O => None
  | S fuel =>
      match s !! si with
      | Some c =>
          if decide (pattern !! pi = Some c) then
            matchGlob_loop fuel pattern s (S pi) (S si) star mark
          else if decide (pattern !! pi = Some "*"%char) then
            matchGlob_loop fuel pattern s (S pi) si (Some pi) si
          else
            match star with
            | Some st => matchGlob_loop fuel pattern s (S st) (S mark) (Some st) (S mark)
            | None => Some false
            end
      | None => Some (bool_decide (Forall (.= "*"%char) (drop pi pattern)))
      end
  end.

(** Iterations the loop needs at most: [mark] moves right at most [len(s)]
    times, and between two moves [pi] and [si] only grow. *)
Definition matchGlob_fuel (pattern s : bytes) : nat :=
  S (S (length s) * S (length pattern + length s)).

Definition matchGlob (pattern s : string) : bool :=
  let p := bytes_of_string pattern in
  let b := bytes_of_string s in
  if decide (pattern = ""%string) then true
  else default false (matchGlob_loop (matchGlob_fuel p b) p b 0 0 None 0).

(** ** The specification: [*] stands for any run of characters *)

Fixpoint glob (p : bytes) : bytes → bool :=
  match p with
  | [] => λ s, bool_decide (s = [])
  | c :: p' =>
      if decide (c = "*"%char) then
        fix star (s : bytes) : bool :=
          glob p' s || match s with [] => false | _ :: s' => star s' end
      else λ s, match s with [] => false | d :: s' => bool_decide (c = d) && glob p' s' end
  end.

Lemma glob_star p s : glob ("*"%char :: p) s = true ↔ ∃ j, (j ≤ length s)%nat ∧ glob p (drop j s) = true.
Proof.
  simpl. induction s as [|c s IH].
  - rewrite orb_false_r. split; [by exists 0%nat|]. intros (j & _ & H). by rewrite drop_nil in H.
  - rewrite orb_true_iff, IH. split.
    + intros [H|(j & Hj & H)]; [exists 0%nat; split; [lia|done]|].
      exists (S j). simpl. split; [lia|done].
    + intros ([|j] & Hj & H); [by left|]. right. exists j. simpl in *. split; [lia|done].
Qed.

Lemma glob_lit c p d s : c ≠ "*"%char →
  glob (c :: p) (d :: s) = true ↔ c = d ∧ glob p s = true.
Proof. intros Hc. simpl. rewrite decide_False by done. by rewrite andb_true_iff, bool_decide_eq_true. Qed.

Lemma glob_lit_nil c p : c ≠ "*"%char → glob (c :: p) [] = false.
Proof. intros Hc. simpl. by rewrite decide_False. Qed.

Lemma glob_nil_r p : glob p [] = bool_decide (Forall (.= "*"%char) p).
Proof.
  induction p as [|c p IH]; [done|]. simpl. case_decide as Hc.
  - rewrite orb_false_r, IH. apply bool_decide_ext. rewrite Forall_cons. tauto.
  - symmetry. apply bool_decide_eq_false. rewrite Forall_cons. tauto.
Qed.

(** A run of literals at the front of the pattern matches exactly itself. *)
Lemma glob_literals lit p s : Forall (.≠ "*"%char) lit → glob (lit ++ p) s = true →
  ∃ s', s = lit ++ s' ∧ glob p s' = true.
Proof.
  intros Hl. revert s. induction Hl as [|c lit Hc Hl IH]; intros s H; [by exists s|].
  change ((c :: lit) ++ p) with (c :: (lit ++ p)) in H.
  destruct s as [|d s]; [by rewrite (glob_lit_nil c (lit ++ p)) in H|].
  apply (glob_lit c (lit ++ p)) in H as [-> H]; [|done].
  destruct (IH s H) as (s' & -> & H'). by exists s'.
Qed.

(** ** The loop invariant *)
Section invariant.
Context (pat s : bytes).

(** What the state [(pi, si, star, mark)] still has to decide: the rest of
    the pattern against the rest of the subject, or a longer run for the
    last star. *)
Definition pending (pi si : nat) (star : option nat) (mark : nat) : Prop :=
  glob (drop pi pat) (drop si s) = true ∨
  ∃ st, star = Some st ∧ ∃ j, (mark < j ≤ length s)%nat ∧ glob (drop (S st) pat) (drop j s) = true.

(** Between the last star and [pi] there are only literals, as many as the
    characters consumed since [mark]. *)
Definition loop_inv (pi si : nat) (star : option nat) (mark : nat) : Prop :=
  (pi ≤ length pat ∧ si ≤ length s ∧ mark ≤ si)%nat ∧
  match star with
  | None => True
  | Some st =>
      (S st + (si - mark) = pi)%nat ∧
      Forall (.≠ "*"%char) (take (si - mark) (drop (S st) pat))
  end.

Definition loop_measure (pi si mark : nat) : nat :=
  (length s - mark) * S (length pat + length s) + (length pat - pi) + (length s - si).

Lemma drop_cons {A} (l : list A) i x : l !! i = Some x → drop i l = x :: drop (S i) l.
Proof. apply drop_S. Qed.

(** A longer run for the last star pushes the literals after it further. *)
Lemma pending_literals st pi si mark j :
  loop_inv pi si (Some st) mark → (mark < j ≤ length s)%nat →
  glob (drop (S st) pat) (drop j s) = true →
  (j + (si - mark) ≤ length s)%nat ∧ glob (drop pi pat) (drop (j + (si - mark)) s) = true.
Proof.
  intros ((Hpi & Hsi & Hm) & Hst & Hlit) Hj H.
  rewrite <- (take_drop (si - mark) (drop (S st) pat)), drop_drop, Hst in H.
  destruct (glob_literals _ _ _ Hlit H) as (s' & Hs & H').
  assert (length (take (si - mark) (drop (S st) pat)) = si - mark)%nat as Hlen.
  { rewrite length_take, length_drop. lia. }
  assert (length (drop j s) = (si - mark) + length s')%nat as Hl.
  { by rewrite Hs, length_app, Hlen. }
  rewrite length_drop in Hl. rewrite <- drop_drop, Hs, drop_app_length' by done.
  split; [lia|done].
Qed.

Lemma no_match pi si c :
  s !! si = Some c → pat !! pi ≠ Some c → pat !! pi ≠ Some "*"%char →
  glob (drop pi pat) (drop si s) ≠ true.
Proof.
  intros Hs Hp1 Hp2. rewrite (drop_cons _ _ _ Hs).
  destruct (pat !! pi) as [d|] eqn:Hp.
  - rewrite (drop_cons _ _ _ Hp), glob_lit by congruence. naive_solver.
  - apply lookup_ge_None in Hp. by rewrite drop_ge.
Qed.

(** *** Each branch of the loop body preserves the invariant and what is pending *)

Lemma step_match pi si star mark c :
  c ≠ "*"%char → s !! si = Some c → pat !! pi = Some c → loop_inv pi si star mark →
  loop_inv (S pi) (S si) star mark ∧
  (pending pi si star mark ↔ pending (S pi) (S si) star mark).
Proof.
  intros Hc Hs Hp ((Hpi & Hsi & Hm) & Hst).
  pose proof (lookup_lt_Some _ _ _ Hs). pose proof (lookup_lt_Some _ _ _ Hp). split.
  - split; [lia|]. destruct star as [st|]; [|done]. destruct Hst as [Hst Hlit].
    split; [lia|]. replace (S si - mark)%nat with (S (si - mark)) by lia.
    rewrite (take_S_r _ _ c); [|rewrite lookup_drop, Hst; done].
    apply Forall_app. split; [done|]. by apply Forall_singleton.
  - unfold pending. rewrite (drop_cons _ _ _ Hs), (drop_cons _ _ _ Hp), glob_lit by done.
    naive_solver.
Qed.

Lemma step_star pi si star mark :
  pat !! pi = Some "*"%char → loop_inv pi si star mark →
  loop_inv (S pi) si (Some pi) si ∧
  (pending pi si star mark ↔ pending (S pi) si (Some pi) si).
Proof.
  intros Hp Hinv. pose proof Hinv as ((Hpi & Hsi & Hm) & Hst).
  pose proof (lookup_lt_Some _ _ _ Hp).
  assert (∀ k, (k ≤ length s)%nat → glob (drop pi pat) (drop k s) = true ↔
    ∃ j, (k ≤ j ≤ length s)%nat ∧ glob (drop (S pi) pat) (drop j s) = true) as Hstar.
  { intros k Hk. rewrite (drop_cons _ _ _ Hp), glob_star, length_drop.
    setoid_rewrite drop_drop. split.
    - intros (j & ? & ?). exists (k + j)%nat. split; [lia|done].
    - intros (j & ? & ?). exists (j - k)%nat. split; [lia|].
      by replace (k + (j - k))%nat with j by lia. }
  split.
  - split; [lia|]. rewrite Nat.sub_diag. split; [lia|constructor].
  - unfold pending. rewrite (Hstar si) by lia. split.
    + intros [(j & Hj & H')|(st & -> & j & Hj & H')].
      * destruct (decide (j = si)) as [->|]; [by left|].
        right. exists pi. split; [done|]. exists j. split; [lia|done].
      * destruct (pending_literals _ _ _ _ _ Hinv Hj H') as [Hle H''].
        apply Hstar in H'' as (k & Hk & H''); [|lia].
        right. exists pi. split; [done|]. exists k. split; [lia|done].
    + intros [H'|(st & [= <-] & j & Hj & H')]; left; [by exists si|].
      exists j. split; [lia|done].
Qed.

Lemma step_backtrack pi si st mark c :
  s !! si = Some c → pat !! pi ≠ Some c → pat !! pi ≠ Some "*"%char →
  loop_inv pi si (Some st) mark →
  loop_inv (S st) (S mark) (Some st) (S mark) ∧
  (pending pi si (Some st) mark ↔ pending (S st) (S mark) (Some st) (S mark)).
Proof.
  intros Hs Hp1 Hp2 ((Hpi & Hsi & Hm) & Hst & Hlit). pose proof (lookup_lt_Some _ _ _ Hs).
  split.
  - split; [lia|]. rewrite Nat.sub_diag. split; [lia|constructor].
  - assert (glob (drop pi pat) (drop si s) ≠ true) as Hno by by apply (no_match _ _ c).
    unfold pending. split.
    + intros [?|(? & [= <-] & j & Hj & H')]; [done|].
      destruct (decide (j = S mark)) as [->|]; [by left|].
      right. exists st. split; [done|]. exists j. split; [lia|done].
    + intros [H'|(? & [= <-] & j & Hj & H')]; right; exists st; (split; [done|]).
      * exists (S mark). split; [lia|done].
      * exists j. split; [lia|done].
Qed.
End invariant.

(** The loop returns, and returns whether something pending matches. *)
Lemma matchGlob_loop_correct pat s fuel pi si star mark :
  Forall (.≠ "*"%char) s → loop_inv pat s pi si star mark →
  (loop_measure pat s pi si mark < fuel)%nat →
  ∃ b, matchGlob_loop fuel pat s pi si star mark = Some b ∧
       (b = true ↔ pending pat s pi si star mark).
Proof.
  intros Hns. revert pi si star mark.
  induction fuel as [|fuel IH]; intros pi si star mark Hinv Hfuel; [lia|].
  pose proof Hinv as ((Hpi & Hsi & Hm) & Hst). simpl.
  destruct (s !! si) as [c|] eqn:Hs.
  - assert (c ≠ "*"%char) as Hc by by apply (Forall_lookup_1 _ _ _ _ Hns Hs).
    pose proof (lookup_lt_Some _ _ _ Hs).
    case_decide as Hp1; [|case_decide as Hp2; [|destruct star as [st|]]].
    + destruct (step_match pat s pi si star mark c) as [Hinv' Hpend]; try done.
      pose proof (lookup_lt_Some _ _ _ Hp1).
      setoid_rewrite Hpend. apply IH; [done|]. unfold loop_measure in *. lia.
    + destruct (step_star pat s pi si star mark) as [Hinv' Hpend]; try done.
      pose proof (lookup_lt_Some _ _ _ Hp2).
      setoid_rewrite Hpend. apply IH; [done|]. unfold loop_measure in *. nia.
    + destruct (step_backtrack pat s pi si st mark c) as [Hinv' Hpend]; try done.
      setoid_rewrite Hpend. apply IH; [done|]. unfold loop_measure in *. nia.
    + exists false. split; [done|]. split; [done|].
      intros [Hg|(? & ? & _)]; [|done]. by apply (no_match pat s pi si c) in Hg.
  - apply lookup_ge_None in Hs. eexists. split; [done|].
    rewrite <- glob_nil_r. unfold pending. rewrite (drop_ge s) by lia.
    split; [by left|]. intros [?|(st & -> & j & Hj & H)]; [done|].
    apply (pending_literals _ _ _ _ _ _ _ Hinv) in H; lia.
Qed.

(** C33 (glob matching): for a key without a star the backtracking loop returns
    within its fuel, and [matchGlob] decides the glob relation: a star of the
    pattern stands for any bytes, every other byte for itself, and the empty
    pattern matches everything. *)
Theorem matchGlob_correct pattern s :
  "*"%char ∉ bytes_of_string s →
  let p := bytes_of_string pattern in
  let b := bytes_of_string s in
  matchGlob_loop (matchGlob_fuel p b) p b 0 0 None 0 = Some (glob p b) ∧
  matchGlob pattern s = bool_decide (pattern = ""%string) || glob p b.
Proof.
  intros Hns p b.
  assert (matchGlob_loop (matchGlob_fuel p b) p b 0 0 None 0 = Some (glob p b)) as Hl.
  { destruct (matchGlob_loop_correct p b (matchGlob_fuel p b) 0 0 None 0) as (r & -> & Hb).
    - apply Forall_forall. intros x Hx ->. done.
    - split; [lia|done].
    - unfold loop_measure, matchGlob_fuel. nia.
    - f_equal. apply eq_bool_prop_intro. rewrite !Is_true_true, Hb.
      unfold pending. rewrite !drop_0. naive_solver. }
  split; [done|]. unfold matchGlob. fold p b. rewrite Hl. simpl. case_decide.
  - by rewrite bool_decide_true.
  - by rewrite bool_decide_false.
Qed.

Lemma matchGlob_correct_witness :
  matchGlob "user:*:a*" "user:12:abc" = true ∧ matchGlob "a*b" "ac" = false.
Proof.
  split.
  - apply (matchGlob_correct "user:*:a*" "user:12:abc"). vm_compute. set_solver.
  - apply (matchGlob_correct "a*b" "ac"). vm_compute. set_solver.
Defined.

(** A star in the key: a literal star in the key confuses the matcher: the
    pattern that matches everything refuses the key [*a]. *)
Theorem matchGlob_star_in_subject :
  matchGlob "*" "*a" = false ∧ glob (bytes_of_string "*") (bytes_of_string "*a") = true.
Proof. split; vm_compute; done. Qed.
