(* ===== verification/Engine.v ===== *)
(** * Engine: the storage contract of pkg/storage/engine.go

    The data of the contract ([Op], [Command], [KeyValue]), the operations of
    the [Engine] interface as a type class and the laws its comments promise
    as a second class, stated on the map a reader sees at a given time.  The
    stores discharge the laws; their clients are proved against them. *)

From S2P Require Import Prelude GoLib Glob.

(** [Op], a byte: the six operations, or any other value. *)
Inductive Op : Type := OpPut | OpDelete | OpClear | OpIncr | OpCAS | OpExpire | OpOther (code : Z).

Global Instance Op_eq_dec : EqDecision Op.
Proof. solve_decision. Defined.

(** [Command]: a mutation as the consensus log carries it. *)
Record Command : Type := mkCommand {
  cmd_Op : Op;
  cmd_Key : string;
  cmd_Old : string;
  cmd_Value : string;
  cmd_ExpiresAt : Z
}.

Global Instance Command_eq_dec : EqDecision Command.
Proof. solve_decision. Defined.

Record KeyValue : Type := mkKV { kv_Key : string; kv_Value : string }.

Global Instance KeyValue_eq_dec : EqDecision KeyValue.
Proof. solve_decision. Defined.

(** [NotLeaderError.Error]. *)
Definition NotLeaderError_Error (LeaderAddr : string) : string :=
  if decide (LeaderAddr = ""%string) then "no leader known"%string
  else String.append "not the leader; leader is " LeaderAddr.

(** ** The interface

    Every operation takes the clock reading [now] (Unix nanoseconds) its
    implementation obtains from [time.Now]. *)
Class Engine (S : Type) : Type := {
  eGet : Z → string → S → res string * S;
  ePut : Z → string → string → S → res unit * S;
  eDelete : Z → string → S → res unit * S;
  eClear : Z → S → res unit * S;
  eIncr : Z → string → S → res Z * S;
  eCAS : Z → string → string → string → S → res bool * S;
  eExpire : Z → string → Z → S → res unit * S;
  eScan : Z → string → Z → string → S → res (list KeyValue * string)
}.

(** ** What the comments promise, on the map visible to a reader *)

(** The increment of a stored value. *)
Definition incr_spec (cur : option string) : res Z :=
  match cur with
  | None => Ok 1
  | Some v =>
      match ParseInt v with
      | None => Err ErrNotNumeric
      | Some n => if decide (n = maxInt64) then Err ErrOverflow else Ok (n + 1)
      end
  end.

Definition kv_le (a b : KeyValue) : Prop := String.le (kv_Key a) (kv_Key b).
Global Instance kv_le_dec a b : Decision (kv_le a b).
Proof. unfold kv_le. apply _. Defined.
Global Instance kv_le_trans : Transitive kv_le.
Proof. intros a b c ??. unfold kv_le in *. by trans (kv_Key b). Qed.
Global Instance kv_le_total : Total kv_le.
Proof. intros a b. apply (total String.le). Qed.

(** Sorting pairs with distinct keys does not depend on the input order. *)
Lemma kv_sort_ext l1 l2 :
  (∀ x y, x ∈ l1 → y ∈ l1 → kv_Key x = kv_Key y → x = y) → l1 ≡ₚ l2 →
  go_sort kv_le l1 = go_sort kv_le l2.
Proof.
  intros Hinj Hp. apply (StronglySorted_unique_strong kv_le).
  - intros x y Hx Hy H1 H2. rewrite go_sort_Permutation in Hx, Hy. rewrite <- Hp in Hy.
    apply Hinj; [done..|]. by apply (anti_symm String.le).
  - apply go_sort_sorted; apply _.
  - apply go_sort_sorted; apply _.
  - by rewrite !go_sort_Permutation.
Qed.

(** The keys a scan may return: after the cursor and matching the pattern. *)
Definition scan_selects (cursor pattern key : string) : bool :=
  negb (negb (bool_decide (cursor = ""%string)) && str_le key cursor) && matchGlob pattern key.

Definition scan_all (cursor pattern : string) (m : gmap string string) : list KeyValue :=
  go_sort kv_le
    ((λ kv : string * string, mkKV kv.1 kv.2) <$>
       filter (λ kv : string * string, scan_selects cursor pattern kv.1 = true) (map_to_list m)).

(** The page cut from the sorted matches, with the cursor of the next one. *)
Definition scan_page (count : Z) (all : list KeyValue) : list KeyValue * string :=
  let items := if decide (zlen all > count) then take (Z.to_nat count) all else all in
  let next :=
    if decide (zlen items = count) then from_option kv_Key ""%string (last items) else ""%string in
  (items, next).

Definition scan_spec (cursor : string) (count : Z) (pattern : string)
    (m : gmap string string) : list KeyValue * string :=
  scan_page count (scan_all cursor pattern m).

(** ** The laws

    [view t s] is what a reader sees at time [t] when nothing is written in
    between: expired keys are gone. *)
Class EngineLaws (S : Type) `{Engine S} : Type := {
  view : Z → S → gmap string string;

  eGet_ok now k s : (eGet now k s).1 = from_option Ok (Err ErrNotFound) (view now s !! k);
  eGet_view now k s t : now <= t → view t (eGet now k s).2 = view t s;

  ePut_ok now k v s : (ePut now k v s).1 = Ok ();
  ePut_view now k v s t : view t (ePut now k v s).2 = <[k := v]> (view t s);

  eDelete_ok now k s : (eDelete now k s).1 = Ok ();
  eDelete_view now k s t : view t (eDelete now k s).2 = delete k (view t s);

  eClear_ok now s : (eClear now s).1 = Ok ();
  eClear_view now s t : view t (eClear now s).2 = ∅;

  eIncr_ok now k s : (eIncr now k s).1 = incr_spec (view now s !! k);
  eIncr_view now k s :
    view now (eIncr now k s).2 =
      match incr_spec (view now s !! k) with
      | Ok n => <[k := FormatInt n]> (view now s)
      | Err _ => view now s
      end;
  eIncr_frame now k s t k' : now <= t → k' ≠ k → view t (eIncr now k s).2 !! k' = view t s !! k';

  eCAS_ok now k old new s :
    (eCAS now k old new s).1 =
      match view now s !! k with
      | None => Err ErrNotFound
      | Some v => Ok (bool_decide (v = old))
      end;
  eCAS_view now k old new s t : now <= t →
    view t (eCAS now k old new s).2 =
      if decide (view now s !! k = Some old) then <[k := new]> (view t s) else view t s;

  eExpire_ok now k d s :
    (eExpire now k d s).1 =
      match view now s !! k with None => Err ErrNotFound | Some _ => Ok () end;
  eExpire_view now k d s t : now <= t → d ≠ 0 →
    view t (eExpire now k d s).2 =
      match view now s !! k with
      | None => view t s
      | Some v => if decide (d <= t) then delete k (view t s) else <[k := v]> (view t s)
      end;

  eScan_ok now cursor count pattern s : 0 < count →
    eScan now cursor count pattern s = Ok (scan_spec cursor count pattern (view now s))
}.
