(* ===== verification/Scan.v ===== *)
(** * Scan: pagination over the contract of [Engine.Scan]

    A client that follows the cursors from [""] until it gets [""] back sees
    every live key that matches the pattern exactly once, in key order.  The
    result is about [Engine.scan_spec], which every store's [Scan] is proved
    to compute, so it holds of each of them. *)

From S2P Require Import Prelude GoLib Glob Engine.

(** The client's loop; [None] only when the fuel runs out. *)
Fixpoint scan_pages (fuel : nat) (cursor : string) (count : Z) (pattern : string)
    (m : gmap string string) : option (list KeyValue) :=
  match fuel with
  | O => None
  | S fuel =>
      let (items, next) := scan_spec cursor count pattern m in
      if decide (next = ""%string) then Some items
      else (items ++.) <$> scan_pages fuel next count pattern m
  end.

(** ** [scan_all] is sorted, has distinct keys and lists the matching pairs *)
Section scan_all.
Context (pattern : string) (m : gmap string string).

Lemma elem_of_scan_all cursor kv :
  kv ∈ scan_all cursor pattern m ↔
    m !! kv_Key kv = Some (kv_Value kv) ∧ scan_selects cursor pattern (kv_Key kv) = true.
Proof.
  unfold scan_all. rewrite go_sort_Permutation, list_elem_of_fmap. split.
  - intros ([k v] & -> & [? ?%elem_of_map_to_list]%list_elem_of_filter). done.
  - intros [H1 H2]. exists (kv_Key kv, kv_Value kv). split; [by destruct kv|].
    apply list_elem_of_filter. split; [done|]. by apply elem_of_map_to_list.
Qed.

Lemma scan_all_sorted cursor : StronglySorted kv_le (scan_all cursor pattern m).
Proof. apply go_sort_sorted; apply _. Qed.

Lemma scan_all_keys_NoDup cursor : NoDup (kv_Key <$> scan_all cursor pattern m).
Proof.
  unfold scan_all. rewrite go_sort_Permutation.
  pose proof (NoDup_fst_map_to_list m) as Hnd.
  induction (map_to_list m) as [|kv l IH]; [constructor|].
  rewrite fmap_cons, NoDup_cons in Hnd. destruct Hnd as [Hni Hnd].
  rewrite filter_cons. case_decide; [|by apply IH].
  rewrite !fmap_cons. apply NoDup_cons. split; [|by apply IH]. simpl.
  intros (? & Hk & (kv' & -> & [_ ?]%list_elem_of_filter)%list_elem_of_fmap)%list_elem_of_fmap.
  apply Hni, list_elem_of_fmap. exists kv'. done.
Qed.

Lemma scan_selects_cursor c k : c ≠ ""%string →
  scan_selects c pattern k = scan_selects "" pattern k && negb (str_le k c).
Proof.
  intros Hc. unfold scan_selects. rewrite (bool_decide_false (c = _)) by done. simpl.
  apply andb_comm.
Qed.

(** Restricting to the keys after [c] is what passing [c] as cursor does. *)
Lemma scan_all_filter c : c ≠ ""%string →
  filter (λ kv, str_le (kv_Key kv) c = false) (scan_all "" pattern m) ≡ₚ scan_all c pattern m.
Proof.
  intros Hc. unfold scan_all. rewrite !go_sort_Permutation.
  induction (map_to_list m) as [|[k v] l IH]; [done|].
  rewrite !filter_cons, (scan_selects_cursor c) by done. simpl.
  destruct (scan_selects "" pattern k), (str_le k c) eqn:E; simpl;
    rewrite ?fmap_cons, ?filter_cons; simpl; rewrite ?E; simpl; by rewrite IH.
Qed.

(** In a sorted list the keys after an element's key are what follows it. *)
Lemma filter_after pre x R :
  StronglySorted kv_le (pre ++ x :: R) → NoDup (kv_Key <$> pre ++ x :: R) →
  filter (λ kv, str_le (kv_Key kv) (kv_Key x) = false) (pre ++ x :: R) = R.
Proof.
  intros Hs Hnd. rewrite filter_app, filter_cons.
  rewrite decide_False; [|rewrite not_false_iff_true; by apply str_le_spec].
  rewrite fmap_app, fmap_cons, NoDup_app, NoDup_cons in Hnd.
  destruct Hnd as (_ & _ & Hx & _).
  replace (filter _ pre) with (@nil KeyValue).
  - apply filter_id. intros y Hy. apply not_true_iff_false. intros Hle%str_le_spec.
    apply StronglySorted_app in Hs as (_ & _ & [Hall _]%StronglySorted_cons).
    eapply Forall_forall in Hall; [|done].
    apply Hx. rewrite list_elem_of_fmap. exists y. split; [|done].
    by apply (anti_symm String.le).
  - symmetry. apply filter_none. intros y Hy. apply not_false_iff_true, str_le_spec.
    apply (StronglySorted_app_1_elem_of kv_le _ _ y x) in Hs; [done|done|by left].
Qed.

Lemma scan_all_cursor pre x R :
  scan_all "" pattern m = pre ++ x :: R → kv_Key x ≠ ""%string →
  scan_all (kv_Key x) pattern m = R.
Proof.
  intros HL Hx. pose proof (scan_all_filter (kv_Key x) Hx) as HP.
  rewrite HL, filter_after in HP;
    [|rewrite <- HL; apply scan_all_sorted|rewrite <- HL; apply scan_all_keys_NoDup].
  eapply (StronglySorted_unique_strong kv_le);
    [|apply scan_all_sorted| |by rewrite HP].
  - intros y1 y2 Hy1 Hy2 H12 H21.
    assert (kv_Key y1 = kv_Key y2) as Hk by by apply (anti_symm String.le).
    apply elem_of_scan_all in Hy1 as [Hy1 _].
    rewrite HP in Hy2. apply elem_of_scan_all in Hy2 as [Hy2 _].
    rewrite Hk in Hy1. destruct y1, y2; simpl in *; congruence.
  - pose proof (scan_all_sorted "") as Hs. rewrite HL in Hs.
    by apply StronglySorted_app in Hs as (_ & _ & [_ ?]%StronglySorted_cons).
Qed.
End scan_all.

(** ** Following the cursors *)
Section pages.
Context (pattern : string) (m : gmap string string) (count : Z).
Context (Hcount : 0 < count) (Hne : m !! ""%string = None).

(** A page of the remaining matches [R]: it is complete, or it is full and its
    last key is the cursor of what is left. *)
Lemma scan_page_cases R : (∀ kv, kv ∈ R → kv_Key kv ≠ ""%string) →
  (scan_page count R = (R, ""%string)) ∨
  (∃ pre x R', R = pre ++ x :: R' ∧ scan_page count R = (pre ++ [x], kv_Key x)).
Proof.
  intros HR. unfold scan_page.
  destruct (decide (zlen R < count)) as [Hlt|Hge].
  { left. rewrite decide_False by lia. by rewrite decide_False by lia. }
  right. set (n := Z.to_nat (count - 1)).
  destruct (lookup_lt_is_Some_2 R n) as [x Hx]; [unfold zlen, n in *; lia|].
  exists (take n R), x, (drop (S n) R).
  assert (take n R ++ [x] = take (Z.to_nat count) R) as Ht.
  { rewrite <- (take_S_r _ _ _ Hx). f_equal. lia. }
  split; [by rewrite <- (drop_S _ _ _ Hx), take_drop|].
  assert ((if decide (zlen R > count) then take (Z.to_nat count) R else R) = take n R ++ [x]) as ->.
  { case_decide; [done|]. rewrite Ht, take_ge; [done|]. unfold zlen in *. lia. }
  rewrite decide_True.
  - by rewrite last_snoc.
  - rewrite Ht, zlen_take. lia.
Qed.

Lemma scan_pages_suffix fuel pre R cursor :
  scan_all "" pattern m = pre ++ R → scan_all cursor pattern m = R →
  (length R < fuel)%nat → scan_pages fuel cursor count pattern m = Some R.
Proof.
  revert pre R cursor. induction fuel as [|fuel IH]; intros pre R cursor HL HR Hf; [lia|].
  assert (∀ kv, kv ∈ R → kv_Key kv ≠ ""%string) as Hkey.
  { intros kv Hin Hk. rewrite <- HR in Hin. apply elem_of_scan_all in Hin as [Hin _].
    congruence. }
  cbn [scan_pages]. unfold scan_spec. rewrite HR.
  destruct (scan_page_cases R Hkey) as [->|(pre' & x & R' & -> & ->)].
  - by rewrite decide_True.
  - assert (kv_Key x ≠ ""%string) as Hx by (apply Hkey, elem_of_app; right; by left).
    rewrite decide_False by done.
    rewrite (IH (pre ++ pre' ++ [x]) R'); simpl.
    + by rewrite <- app_assoc.
    + by rewrite HL, <- !app_assoc.
    + apply (scan_all_cursor _ _ (pre ++ pre')); [|done]. by rewrite HL, <- app_assoc.
    + rewrite length_app in Hf. simpl in Hf. lia.
Qed.
End pages.

Lemma length_scan_all cursor pattern m : (length (scan_all cursor pattern m) ≤ size m)%nat.
Proof.
  unfold scan_all. rewrite go_sort_Permutation, length_fmap.
  etrans; [apply length_filter|]. by rewrite length_map_to_list.
Qed.

(** Paging from the empty cursor ends and lists every matching pair once. *)
Lemma scan_pages_complete pattern m count :
  0 < count → m !! ""%string = None →
  ∃ items, scan_pages (S (size m)) "" count pattern m = Some items ∧
    StronglySorted kv_le items ∧ NoDup (kv_Key <$> items) ∧
    ∀ k v, mkKV k v ∈ items ↔ m !! k = Some v ∧ matchGlob pattern k = true.
Proof.
  intros Hc Hne. exists (scan_all "" pattern m). split_and!.
  - apply (scan_pages_suffix pattern m count Hc Hne _ []); [done..|].
    pose proof (length_scan_all "" pattern m). lia.
  - apply scan_all_sorted.
  - apply scan_all_keys_NoDup.
  - intros k v. rewrite elem_of_scan_all. done.
Qed.
