(* ===== verification/MemStore.v ===== *)
(** * MemStore: the in-memory store of pkg/storage/memstore.go

    The map with its lazy and active expiry.  Every operation takes the clock
    readings it makes as arguments; [m.mu] makes the body of each operation
    atomic ([Get] has two critical sections and may read the clock in each).
    The store is proved to implement the [Engine] contract, and the
    consequences specific to it (TTLs, the expired counter) are proved on top. *)

From S2P Require Import Prelude GoLib Glob Engine Scan.

Record entry : Type := mkEntry { Value : string; Exp : Z }.

Global Instance entry_eq_dec : EqDecision entry.
Proof. solve_decision. Defined.

Record MemStore : Type := mkMem {
  data : gmap string entry;
  expired : Z (* uint64 *)
}.

Definition NewMemStore : MemStore := mkMem ∅ 0.

Definition set_data (d : gmap string entry) (m : MemStore) : MemStore := mkMem d (expired m).

(** [delete(m.data, key); m.expired++]. *)
Definition drop_expired (key : string) (m : MemStore) : MemStore :=
  mkMem (delete key (data m)) (u64 (expired m + 1)).

Definition entryExpired (e : entry) (now : Z) : bool :=
  negb (Exp e =? 0) && (Exp e <=? now).

(** ** The operations *)

(** The second critical section of [Get]: lazy expiry. *)
Definition Get_slow (now : Z) (key : string) (m : MemStore) : MemStore :=
  match data m !! key with
  | Some e => if entryExpired e now then drop_expired key m else m
  | None => m
  end.

Definition Get (now1 now2 : Z) (key : string) (m : MemStore) : res string * MemStore :=
  match data m !! key with
  | None => (Err ErrNotFound, m)
  | Some e =>
      if negb (entryExpired e now1) then (Ok (Value e), m)
      else (Err ErrNotFound, Get_slow now2 key m)
  end.

Definition Put (key value : string) (m : MemStore) : MemStore :=
  set_data (<[key := mkEntry value 0]> (data m)) m.

Definition Delete (key : string) (m : MemStore) : MemStore :=
  set_data (delete key (data m)) m.

Definition Clear (m : MemStore) : MemStore := set_data ∅ m.

(** [Close] is a no-op. *)
Definition Close (m : MemStore) : res unit * MemStore := (Ok (), m).

Definition Size (now : Z) (m : MemStore) : Z :=
  foldl (λ n (kv : string * entry), if negb (entryExpired kv.2 now) then n + 1 else n)
        0 (map_to_list (data m)).

(** The expiry check [Incr], [CAS] and [Expire] start with: the entry found
    after dropping a dead one. *)
Definition lookup_live (now : Z) (key : string) (m : MemStore) : option entry * MemStore :=
  match data m !! key with
  | Some e => if entryExpired e now then (None, drop_expired key m) else (Some e, m)
  | None => (None, m)
  end.

Definition Incr (now : Z) (key : string) (m : MemStore) : res Z * MemStore :=
  let (oe, m) := lookup_live now key m in
  match oe with
  | None => (Ok 1, set_data (<[key := mkEntry "1" 0]> (data m)) m)
  | Some e =>
      match ParseInt (Value e) with
      | None => (Err ErrNotNumeric, m)
      | Some v =>
          if v =? maxInt64 then (Err ErrOverflow, m)
          else
            let nv := v + 1 in
            (Ok nv, set_data (<[key := mkEntry (FormatInt nv) 0]> (data m)) m)
      end
  end.

Definition CAS (now : Z) (key old new : string) (m : MemStore) : res bool * MemStore :=
  let (oe, m) := lookup_live now key m in
  match oe with
  | None => (Err ErrNotFound, m)
  | Some e =>
      if negb (String.eqb (Value e) old) then (Ok false, m)
      else (Ok true, set_data (<[key := mkEntry new 0]> (data m)) m)
  end.

Definition Expire (now : Z) (key : string) (expiresAt : Z) (m : MemStore) : res unit * MemStore :=
  let (oe, m) := lookup_live now key m in
  match oe with
  | None => (Err ErrNotFound, m)
  | Some e => (Ok (), set_data (<[key := mkEntry (Value e) expiresAt]> (data m)) m)
  end.

(** Deleting from a Go map while ranging over it is allowed: the loop visits
    every key once. *)
Definition SweepExpired (now : Z) (m : MemStore) : Z * MemStore :=
  let '(d, n) :=
    foldl (λ (acc : gmap string entry * Z) (kv : string * entry),
             if entryExpired kv.2 now then (delete kv.1 acc.1, acc.2 + 1) else acc)
          (data m, 0) (map_to_list (data m)) in
  (n, mkMem d (u64 (expired m + n))).

Definition ExpiredCount (m : MemStore) : Z := expired m.

(** The loop of [Scan], whose iteration order Go leaves open, then the sort and
    the page. *)
Definition Scan (now : Z) (cursor : string) (count : Z) (pattern : string) (m : MemStore)
    : res (list KeyValue * string) :=
  if count <=? 0 then Err (ErrMsg "scan: count must be positive")
  else
    let all :=
      foldl (λ acc (kv : string * entry),
               if entryExpired kv.2 now then acc
               else if negb (bool_decide (cursor = ""%string)) && str_le kv.1 cursor then acc
               else if negb (matchGlob pattern kv.1) then acc
               else acc ++ [mkKV kv.1 (Value kv.2)])
            [] (map_to_list (data m)) in
    Ok (scan_page count (go_sort kv_le all)).

Global Instance MemStore_Engine : Engine MemStore := {
  eGet now k m := Get now now k m;
  ePut _ k v m := (Ok (), Put k v m);
  eDelete _ k m := (Ok (), Delete k m);
  eClear _ m := (Ok (), Clear m);
  eIncr := Incr;
  eCAS := CAS;
  eExpire := Expire;
  eScan := Scan
}.

(** ** The contract *)

Lemma entryExpired_spec e t : entryExpired e t = true ↔ Exp e ≠ 0 ∧ Exp e <= t.
Proof. unfold entryExpired. rewrite andb_true_iff, negb_true_iff, Z.eqb_neq, Z.leb_le. done. Qed.

Lemma entryExpired_mono e t t' : entryExpired e t = true → t <= t' → entryExpired e t' = true.
Proof. rewrite !entryExpired_spec. lia. Qed.

(** What a reader sees at time [t]. *)
Definition mem_view (t : Z) (m : MemStore) : gmap string string :=
  Value <$> filter (λ kv, entryExpired kv.2 t = false) (data m).

Lemma mem_view_lookup t m k :
  mem_view t m !! k = data m !! k ≫= λ e, if entryExpired e t then None else Some (Value e).
Proof.
  unfold mem_view. rewrite lookup_fmap, map_lookup_filter.
  destruct (data m !! k) as [e|]; simpl; [|done].
  case_guard; simpl in *; destruct (entryExpired e t); done.
Qed.

Lemma mem_view_drop t now k m e : data m !! k = Some e → entryExpired e now = true → now <= t →
  mem_view t (drop_expired k m) = mem_view t m.
Proof.
  intros He Hx Ht. apply map_eq. intros k'. rewrite !mem_view_lookup. simpl.
  destruct (decide (k = k')) as [<-|Hne]; [|by rewrite lookup_delete_ne].
  rewrite lookup_delete_eq, He. simpl. by rewrite (entryExpired_mono e now t).
Qed.

Lemma mem_view_set t k v x m :
  mem_view t (set_data (<[k := mkEntry v x]> (data m)) m) =
    if entryExpired (mkEntry v x) t then delete k (mem_view t m) else <[k := v]> (mem_view t m).
Proof.
  apply map_eq. intros k'. rewrite mem_view_lookup. simpl.
  destruct (decide (k = k')) as [<-|Hne].
  - rewrite lookup_insert_eq. simpl.
    case_match; [by rewrite lookup_delete_eq|by rewrite lookup_insert_eq].
  - rewrite lookup_insert_ne by done. rewrite <- mem_view_lookup.
    case_match; [by rewrite lookup_delete_ne|by rewrite lookup_insert_ne].
Qed.

(** The expiry check at the head of [Incr], [CAS] and [Expire]. *)
Lemma lookup_live_spec now k m :
  let '(oe, m') := lookup_live now k m in
  mem_view now m !! k = Value <$> oe ∧ (∀ t, now <= t → mem_view t m' = mem_view t m).
Proof.
  unfold lookup_live. rewrite mem_view_lookup.
  destruct (data m !! k) as [e|] eqn:He; simpl; [|done].
  destruct (entryExpired e now) eqn:Hx; simpl; [|done].
  split; [done|]. intros t Ht. by eapply mem_view_drop.
Qed.

Ltac live now k m :=
  pose proof (lookup_live_spec now k m) as Hlive;
  destruct (lookup_live now k m) as [[e|] m']; destruct Hlive as [Hlk Hview]; simpl in Hlk.

(** *** Get *)

Lemma Get_ok now k m : (Get now now k m).1 = from_option Ok (Err ErrNotFound) (mem_view now m !! k).
Proof.
  unfold Get. rewrite mem_view_lookup. destruct (data m !! k) as [e|]; simpl; [|done].
  by destruct (entryExpired e now).
Qed.

Lemma Get_slow_view now k m t : now <= t → mem_view t (Get_slow now k m) = mem_view t m.
Proof.
  intros Ht. unfold Get_slow. destruct (data m !! k) as [e|] eqn:He; [|done].
  destruct (entryExpired e now) eqn:Hx; [|done]. by eapply mem_view_drop.
Qed.

Lemma Get_view now1 now2 k m t : now2 <= t → mem_view t (Get now1 now2 k m).2 = mem_view t m.
Proof.
  intros Ht. unfold Get. destruct (data m !! k) as [e|]; [|done].
  destruct (entryExpired e now1); simpl; [|done]. by apply Get_slow_view.
Qed.

(** *** The other single-key operations *)

Lemma Put_view k v m t : mem_view t (Put k v m) = <[k := v]> (mem_view t m).
Proof. apply (mem_view_set t k v 0). Qed.

Lemma Delete_view k m t : mem_view t (Delete k m) = delete k (mem_view t m).
Proof.
  apply map_eq. intros k'. rewrite mem_view_lookup. simpl.
  destruct (decide (k = k')) as [<-|Hne].
  - by rewrite !lookup_delete_eq.
  - rewrite !lookup_delete_ne by done. by rewrite mem_view_lookup.
Qed.

Lemma Incr_ok now k m : (Incr now k m).1 = incr_spec (mem_view now m !! k).
Proof.
  unfold Incr. live now k m; rewrite Hlk; simpl; [|done].
  destruct (ParseInt (Value e)) as [v|]; [|done].
  destruct (v =? maxInt64) eqn:E; bool_prop; [by rewrite decide_True|by rewrite decide_False].
Qed.

Lemma Incr_view now k m t : now <= t →
  mem_view t (Incr now k m).2 =
    match incr_spec (mem_view now m !! k) with
    | Ok n => <[k := FormatInt n]> (mem_view t m)
    | Err _ => mem_view t m
    end.
Proof.
  intros Ht. unfold Incr. live now k m; rewrite Hlk; simpl.
  - destruct (ParseInt (Value e)) as [v|]; simpl; [|by apply Hview].
    destruct (v =? maxInt64) eqn:E; bool_prop;
      [rewrite decide_True by done; by apply Hview|rewrite decide_False by done].
    simpl. by rewrite mem_view_set, Hview.
  - by rewrite mem_view_set, Hview.
Qed.

Lemma CAS_ok now k old new m :
  (CAS now k old new m).1 =
    match mem_view now m !! k with None => Err ErrNotFound | Some v => Ok (bool_decide (v = old)) end.
Proof.
  unfold CAS. live now k m; rewrite Hlk; simpl; [|done].
  destruct (String.eqb_spec (Value e) old); simpl;
    [by rewrite bool_decide_true|by rewrite bool_decide_false].
Qed.

Lemma CAS_view now k old new m t : now <= t →
  mem_view t (CAS now k old new m).2 =
    if decide (mem_view now m !! k = Some old) then <[k := new]> (mem_view t m) else mem_view t m.
Proof.
  intros Ht. unfold CAS. live now k m; rewrite Hlk; simpl.
  - destruct (String.eqb_spec (Value e) old) as [->|]; simpl.
    + rewrite decide_True by done. by rewrite mem_view_set, Hview.
    + rewrite decide_False by congruence. by apply Hview.
  - by apply Hview.
Qed.

Lemma Expire_ok now k d m :
  (Expire now k d m).1 = match mem_view now m !! k with None => Err ErrNotFound | Some _ => Ok () end.
Proof. unfold Expire. live now k m; by rewrite Hlk. Qed.

Lemma Expire_view now k d m t : now <= t → d ≠ 0 →
  mem_view t (Expire now k d m).2 =
    match mem_view now m !! k with
    | None => mem_view t m
    | Some v => if decide (d <= t) then delete k (mem_view t m) else <[k := v]> (mem_view t m)
    end.
Proof.
  intros Ht Hd. unfold Expire. live now k m; rewrite Hlk; simpl; [|by apply Hview].
  rewrite mem_view_set, Hview by done.
  destruct (entryExpired _ t) eqn:E.
  - apply entryExpired_spec in E as [_ ?]. by rewrite decide_True.
  - rewrite decide_False; [done|]. intros ?.
    apply not_true_iff_false in E. apply E, entryExpired_spec. done.
Qed.

(** *** Scan *)

Lemma foldl_select {A B} (P : A → bool) (f : A → B) (g : list B → A → list B) acc l :
  (∀ acc x, g acc x = if P x then acc ++ [f x] else acc) →
  foldl g acc l = acc ++ (f <$> filter (λ x, P x = true) l).
Proof.
  intros Hg. revert acc. induction l as [|x l IH]; intros acc; simpl; [by rewrite app_nil_r|].
  rewrite IH, Hg, filter_cons. destruct (P x); simpl; [|done]. by rewrite <- app_assoc.
Qed.

Lemma Scan_ok now cursor count pattern m : 0 < count →
  Scan now cursor count pattern m = Ok (scan_spec cursor count pattern (mem_view now m)).
Proof.
  intros Hc. unfold Scan. destruct (count <=? 0) eqn:E; bool_prop; [lia|].
  unfold scan_spec, scan_all. do 2 f_equal.
  rewrite (foldl_select (λ kv : string * entry, negb (entryExpired kv.2 now) && scan_selects cursor pattern kv.1)
             (λ kv, mkKV kv.1 (Value kv.2))); simpl.
  2:{ intros acc [k e]. simpl. unfold scan_selects.
      by destruct (entryExpired e now), (negb (bool_decide (cursor = ""%string)) && str_le k cursor),
        (matchGlob pattern k). }
  apply kv_sort_ext.
  - intros x y ([kx ex] & -> & [_ Hx]%list_elem_of_filter)%list_elem_of_fmap
      ([ky ey] & -> & [_ Hy]%list_elem_of_filter)%list_elem_of_fmap Hk. simpl in *. subst ky.
    apply elem_of_map_to_list in Hx, Hy. by simplify_eq.
  - unfold mem_view. rewrite map_to_list_fmap, map_filter_alt.
    rewrite map_to_list_to_map.
    + induction (map_to_list (data m)) as [|[k e] l IH]; [done|].
      rewrite !filter_cons. simpl. destruct (entryExpired e now) eqn:He; simpl; [done|].
      rewrite filter_cons. simpl. destruct (scan_selects cursor pattern k); simpl; by rewrite IH.
    + apply NoDup_fmap_fst; [|apply NoDup_filter, NoDup_map_to_list].
      intros k e1 e2 [_ H1]%list_elem_of_filter [_ H2]%list_elem_of_filter.
      apply elem_of_map_to_list in H1, H2. congruence.
Qed.

Global Program Instance MemStore_EngineLaws : EngineLaws MemStore := { view := mem_view }.
Next Obligation. apply Get_ok. Qed.
Next Obligation. intros. by apply Get_view. Qed.
Next Obligation. done. Qed.
Next Obligation. intros. apply Put_view. Qed.
Next Obligation. done. Qed.
Next Obligation. intros. apply Delete_view. Qed.
Next Obligation. done. Qed.
Next Obligation. done. Qed.
Next Obligation. intros. apply Incr_ok. Qed.
Next Obligation. intros. by apply Incr_view. Qed.
Next Obligation.
  intros now k m t k' Ht Hk. simpl. rewrite Incr_view by done.
  case_match; [by rewrite lookup_insert_ne|done].
Qed.
Next Obligation. intros. apply CAS_ok. Qed.
Next Obligation. intros. by apply CAS_view. Qed.
Next Obligation. intros. apply Expire_ok. Qed.
Next Obligation. intros. by apply Expire_view. Qed.
Next Obligation. intros. by apply Scan_ok. Qed.

(** ** Active expiry *)

(** The store without its dead entries. *)
Definition purge (t : Z) (d : gmap string entry) : gmap string entry :=
  filter (λ kv, entryExpired kv.2 t = false) d.

Lemma purge_lookup t d k :
  purge t d !! k = d !! k ≫= λ e, if entryExpired e t then None else Some e.
Proof.
  unfold purge. rewrite map_lookup_filter. destruct (d !! k) as [e|]; simpl; [|done].
  case_guard; simpl in *; destruct (entryExpired e t); done.
Qed.

Lemma purge_lookup_Some t d k e :
  purge t d !! k = Some e ↔ d !! k = Some e ∧ entryExpired e t = false.
Proof.
  rewrite purge_lookup. destruct (d !! k) as [e'|]; simpl; [|split; [done|by intros [? ?]]].
  destruct (entryExpired e' t) eqn:E; split; [done|intros [[= ->] ?]; congruence| |by intros [[= ->] ?]].
  by intros [= ->].
Qed.

Lemma purge_purge t t' d : t <= t' → purge t' (purge t d) = purge t' d.
Proof.
  intros Ht. apply map_eq. intros k. rewrite !purge_lookup. destruct (d !! k) as [e|]; simpl; [|done].
  destruct (entryExpired e t) eqn:E; simpl; [|done]. by rewrite (entryExpired_mono e t t').
Qed.

Lemma purge_insert t k e d :
  purge t (<[k := e]> d) = if entryExpired e t then delete k (purge t d) else <[k := e]> (purge t d).
Proof.
  apply map_eq. intros k'. rewrite purge_lookup. destruct (decide (k = k')) as [<-|Hne].
  - rewrite lookup_insert_eq. simpl.
    case_match; [by rewrite lookup_delete_eq|by rewrite lookup_insert_eq].
  - rewrite lookup_insert_ne, <- purge_lookup by done.
    case_match; [by rewrite lookup_delete_ne|by rewrite lookup_insert_ne].
Qed.

Lemma purge_delete t k d : purge t (delete k d) = delete k (purge t d).
Proof.
  apply map_eq. intros k'. rewrite purge_lookup. destruct (decide (k = k')) as [<-|Hne].
  - by rewrite !lookup_delete_eq.
  - rewrite !lookup_delete_ne by done. by rewrite purge_lookup.
Qed.

Lemma purge_empty t : purge t ∅ = ∅.
Proof. apply map_filter_empty. Qed.

Lemma purge_delete_dead t k d : purge t d !! k = None → purge t (delete k d) = purge t d.
Proof. intros H. rewrite purge_delete. by apply delete_id. Qed.

Lemma mem_view_purge t m : mem_view t m = Value <$> purge t (data m).
Proof. done. Qed.

(** The loop of [SweepExpired] over any list of the map's entries. *)
Lemma sweep_fold now l d n :
  foldl (λ (acc : gmap string entry * Z) (kv : string * entry),
           if entryExpired kv.2 now then (delete kv.1 acc.1, acc.2 + 1) else acc) (d, n) l =
  (foldl (λ d kv, delete kv.1 d) d (filter (λ kv, entryExpired kv.2 now = true) l),
   n + zlen (filter (λ kv, entryExpired kv.2 now = true) l)).
Proof.
  revert d n. induction l as [|[k e] l IH]; intros d n; simpl; [f_equal; zlia|].
  rewrite filter_cons. simpl. destruct (entryExpired e now); simpl; rewrite IH; [|done].
  f_equal. zlia.
Qed.

Lemma foldl_delete_lookup (l : list (string * entry)) (d : gmap string entry) k :
  foldl (λ d kv, delete kv.1 d) d l !! k = if decide (k ∈ l.*1) then None else d !! k.
Proof.
  revert d. induction l as [|[k' e] l IH]; intros d; [done|].
  cbn [foldl fst]. rewrite IH, fmap_cons. destruct (decide (k ∈ l.*1)) as [Hin|Hin].
  - by rewrite decide_True by (by right).
  - destruct (decide (k = k')) as [->|Hne].
    + rewrite lookup_delete_eq, decide_True by (by left). done.
    + rewrite lookup_delete_ne, decide_False by (done || set_solver). done.
Qed.

Lemma dead_keys now d k :
  k ∈ (filter (λ kv : string * entry, entryExpired kv.2 now = true) (map_to_list d)).*1 ↔
  ∃ e, d !! k = Some e ∧ entryExpired e now = true.
Proof.
  rewrite list_elem_of_fmap. split.
  - intros ([k' e] & -> & [? ?%elem_of_map_to_list]%list_elem_of_filter). eauto.
  - intros (e & He & Hx). exists (k, e). split; [done|]. apply list_elem_of_filter.
    split; [done|]. by apply elem_of_map_to_list.
Qed.

Lemma sweep_data now m : data (SweepExpired now m).2 = purge now (data m).
Proof.
  unfold SweepExpired. rewrite sweep_fold. simpl. apply map_eq. intros k.
  rewrite foldl_delete_lookup, purge_lookup.
  destruct (data m !! k) as [e|] eqn:He; simpl; [|by case_decide].
  destruct (entryExpired e now) eqn:Hx.
  - rewrite decide_True; [done|]. apply dead_keys. eauto.
  - rewrite decide_False; [done|]. rewrite dead_keys. intros (? & ? & ?). congruence.
Qed.

Lemma filter_complement_length {A} (P : A → bool) (l : list A) :
  (length (filter (λ x, P x = true) l) + length (filter (λ x, P x = false) l) = length l)%nat.
Proof.
  induction l as [|x l IH]; [done|]. rewrite !filter_cons. destruct (P x); simpl; lia.
Qed.

Lemma size_purge now d :
  size (purge now d) =
    length (filter (λ kv : string * entry, entryExpired kv.2 now = false) (map_to_list d)).
Proof.
  unfold purge. rewrite map_filter_alt, <- length_map_to_list, map_to_list_to_map; [done|].
  apply NoDup_fmap_fst; [|apply NoDup_filter, NoDup_map_to_list].
  intros k e1 e2 [_ H1]%list_elem_of_filter [_ H2]%list_elem_of_filter.
  apply elem_of_map_to_list in H1, H2. congruence.
Qed.

Lemma Size_spec now m : Size now m = Z.of_nat (size (purge now (data m))).
Proof.
  unfold Size. rewrite size_purge. generalize (map_to_list (data m)) as l. intros l.
  assert (∀ n, foldl (λ n (kv : string * entry), if negb (entryExpired kv.2 now) then n + 1 else n) n l
    = n + Z.of_nat (length (filter (λ kv : string * entry, entryExpired kv.2 now = false) l))) as H.
  { induction l as [|[k e] l IH]; intros n; simpl; [lia|].
    rewrite IH, filter_cons. simpl. destruct (entryExpired e now); simpl; lia. }
  by rewrite H.
Qed.

(** The expiry sweep: the sweep removes exactly the entries past their
    deadline, returns how many there were, adds them to the 64-bit counter, and
    no read at that time or later can tell that it ran. *)
Theorem SweepExpired_spec now m :
  let '(n, m') := SweepExpired now m in
  data m' = purge now (data m) ∧
  n = Z.of_nat (size (data m)) - Z.of_nat (size (data m')) ∧
  expired m' = u64 (expired m + n) ∧
  Size now m' = Size now m ∧
  ∀ k t, now <= t → (Get t t k m').1 = (Get t t k m).1.
Proof.
  pose proof (sweep_data now m) as Hd.
  assert ((SweepExpired now m).1 =
    zlen (filter (λ kv : string * entry, entryExpired kv.2 now = true) (map_to_list (data m)))) as Hn.
  { unfold SweepExpired. rewrite sweep_fold. done. }
  assert (expired (SweepExpired now m).2 = u64 (expired m + (SweepExpired now m).1)) as He.
  { unfold SweepExpired. by rewrite sweep_fold. }
  destruct (SweepExpired now m) as [n m']. simpl in *. split_and!; [done| |done| |].
  - rewrite Hn, Hd, size_purge, <- length_map_to_list. unfold zlen.
    pose proof (filter_complement_length (λ kv, entryExpired kv.2 now) (map_to_list (data m))). lia.
  - rewrite !Size_spec, Hd, purge_purge by lia. done.
  - intros k t Ht. rewrite !Get_ok, !mem_view_purge, Hd, purge_purge by lia. done.
Qed.

(** ** Refinement: lazy expiry implements a store whose keys die on time

    The abstract store holds live entries only; at every operation it first
    drops what has reached its deadline.  [MemStore] drops dead entries when it
    happens to meet them, or when the sweep runs; no client can tell. *)
Inductive mop : Type :=
| MGet (key : string)
| MPut (key value : string)
| MDelete (key : string)
| MClear
| MIncr (key : string)
| MCAS (key old new : string)
| MExpire (key : string) (expiresAt : Z)
| MScan (cursor : string) (count : Z) (pattern : string)
| MSize
| MSweep.

Inductive mout : Type :=
| OutNone
| OutStr (r : res string)
| OutUnit (r : res unit)
| OutInt (r : res Z)
| OutBool (r : res bool)
| OutPage (r : res (list KeyValue * string))
| OutSize (n : Z).

Definition mem_step (now : Z) (o : mop) (m : MemStore) : mout * MemStore :=
  match o with
  | MGet k => let (r, m) := Get now now k m in (OutStr r, m)
  | MPut k v => (OutUnit (Ok ()), Put k v m)
  | MDelete k => (OutUnit (Ok ()), Delete k m)
  | MClear => (OutUnit (Ok ()), Clear m)
  | MIncr k => let (r, m) := Incr now k m in (OutInt r, m)
  | MCAS k old new => let (r, m) := CAS now k old new m in (OutBool r, m)
  | MExpire k d => let (r, m) := Expire now k d m in (OutUnit r, m)
  | MScan c n p => (OutPage (Scan now c n p m), m)
  | MSize => (OutSize (Size now m), m)
  | MSweep => (OutNone, (SweepExpired now m).2)
  end.

(** The abstract store, on live entries. *)
Definition ideal_op (o : mop) (a : gmap string entry) : mout * gmap string entry :=
  match o with
  | MGet k => (OutStr (from_option (Ok ∘ Value) (Err ErrNotFound) (a !! k)), a)
  | MPut k v => (OutUnit (Ok ()), <[k := mkEntry v 0]> a)
  | MDelete k => (OutUnit (Ok ()), delete k a)
  | MClear => (OutUnit (Ok ()), ∅)
  | MIncr k =>
      let r := incr_spec (Value <$> a !! k) in
      (OutInt r, match r with Ok n => <[k := mkEntry (FormatInt n) 0]> a | Err _ => a end)
  | MCAS k old new =>
      match a !! k with
      | None => (OutBool (Err ErrNotFound), a)
      | Some e =>
          if decide (Value e = old) then (OutBool (Ok true), <[k := mkEntry new 0]> a)
          else (OutBool (Ok false), a)
      end
  | MExpire k d =>
      match a !! k with
      | None => (OutUnit (Err ErrNotFound), a)
      | Some e => (OutUnit (Ok ()), <[k := mkEntry (Value e) d]> a)
      end
  | MScan c n p =>
      (OutPage (if n <=? 0 then Err (ErrMsg "scan: count must be positive")
                else Ok (scan_spec c n p (Value <$> a))), a)
  | MSize => (OutSize (Z.of_nat (size a)), a)
  | MSweep => (OutNone, a)
  end.

Definition ideal_step (now : Z) (o : mop) (a : gmap string entry) : mout * gmap string entry :=
  ideal_op o (purge now a).

(** A history: operations with the times at which they run. *)
Fixpoint run {S} (step : Z → mop → S → mout * S) (h : list (Z * mop)) (s : S) : list mout * S :=
  match h with
  | [] => ([], s)
  | (now, o) :: h =>
      let (out, s) := step now o s in
      let (outs, s) := run step h s in
      (out :: outs, s)
  end.

(** The clock does not go backwards. *)
Fixpoint monotone (t : Z) (h : list (Z * mop)) : Prop :=
  match h with [] => True | (now, _) :: h => t <= now ∧ monotone now h end.

Lemma lookup_live_purge now k m :
  let '(oe, m') := lookup_live now k m in
  purge now (data m) !! k = oe ∧ purge now (data m') = purge now (data m).
Proof.
  unfold lookup_live. rewrite purge_lookup. destruct (data m !! k) as [e|] eqn:He; simpl; [|done].
  destruct (entryExpired e now) eqn:Hx; simpl; [|done]. split; [done|].
  apply purge_delete_dead. by rewrite purge_lookup, He; simpl; rewrite Hx.
Qed.

Lemma purge_insert_live now k v d : purge now (<[k := mkEntry v 0]> d) = <[k := mkEntry v 0]> (purge now d).
Proof. by rewrite purge_insert. Qed.

Ltac live_purge now k m :=
  pose proof (lookup_live_purge now k m) as Hlive;
  destruct (lookup_live now k m) as [[e|] m']; destruct Hlive as [Hlk Hpurge].

Create Rewrite HintDb purge.
Global Hint Rewrite purge_insert_live purge_delete purge_empty : purge.

(** One operation of the store is one operation of the abstract store on its
    live entries. *)
Lemma mem_step_refines now o m :
  let '(out, m') := mem_step now o m in
  let '(out', a') := ideal_op o (purge now (data m)) in
  out = out' ∧ purge now (data m') = purge now a'.
Proof.
  destruct o as [k|k v|k| |k|k old new|k d|c n p| |]; simpl.
  - pose proof (Get_ok now k m) as Hg. pose proof (lookup_live_purge now k m) as Hl.
    unfold lookup_live, Get, Get_slow in *. rewrite purge_lookup.
    destruct (data m !! k) as [e|] eqn:He; simpl; [|by rewrite purge_purge by lia].
    destruct (entryExpired e now) eqn:Hx; simpl; [|by rewrite purge_purge by lia].
    destruct Hl as [_ Hl]. simpl in Hl. by rewrite purge_purge by lia.
  - autorewrite with purge. by rewrite purge_purge by lia.
  - autorewrite with purge. by rewrite purge_purge by lia.
  - by autorewrite with purge.
  - unfold Incr. live_purge now k m; rewrite Hlk; simpl.
    + destruct (ParseInt (Value e)) as [v|]; simpl; [|by rewrite Hpurge, purge_purge by lia].
      destruct (v =? maxInt64) eqn:E; bool_prop.
      * rewrite decide_True by done. by rewrite Hpurge, purge_purge by lia.
      * rewrite decide_False by done. simpl. autorewrite with purge.
        by rewrite Hpurge, purge_purge by lia.
    + autorewrite with purge. by rewrite Hpurge, purge_purge by lia.
  - unfold CAS. live_purge now k m; rewrite Hlk; simpl; [|by rewrite Hpurge, purge_purge by lia].
    destruct (String.eqb_spec (Value e) old); simpl.
    + rewrite decide_True by done. autorewrite with purge. by rewrite Hpurge, purge_purge by lia.
    + rewrite decide_False by done. by rewrite Hpurge, purge_purge by lia.
  - unfold Expire. live_purge now k m; rewrite Hlk; simpl; [|by rewrite Hpurge, purge_purge by lia].
    split; [done|]. by rewrite !purge_insert, Hpurge, purge_purge by lia.
  - split; [|by rewrite purge_purge by lia]. f_equal. destruct (n <=? 0) eqn:E; bool_prop.
    + unfold Scan. by rewrite (proj2 (Z.leb_le n 0)).
    + rewrite Scan_ok by lia. by rewrite mem_view_purge.
  - split; [by rewrite Size_spec|by rewrite purge_purge by lia].
  - by rewrite sweep_data.
Qed.

Lemma ideal_step_purge now o a b : purge now a = purge now b → ideal_step now o a = ideal_step now o b.
Proof. intros H. unfold ideal_step. by rewrite H. Qed.

Lemma mem_run_refines h t m a :
  monotone t h → purge t (data m) = purge t a →
  (run mem_step h m).1 = (run ideal_step h a).1.
Proof.
  revert t m a. induction h as [|[now o] h IH]; intros t m a Hm Ha; [done|].
  destruct Hm as [Ht Hm]. simpl. unfold ideal_step at 1.
  assert (purge now (data m) = purge now a) as Ha'.
  { by rewrite <- (purge_purge t now (data m)), Ha, purge_purge by lia. }
  rewrite <- Ha'. pose proof (mem_step_refines now o m) as Hs.
  destruct (mem_step now o m) as [out m'], (ideal_op o _) as [out' a'].
  destruct Hs as [<- Hp]. specialize (IH now m' a' Hm Hp).
  destruct (run mem_step h m'), (run ideal_step h a'). simpl in *. by subst.
Qed.

(** Cursor iteration: a client that calls [Scan] until the cursor is empty. *)
Fixpoint Scan_pages (fuel : nat) (now : Z) (cursor : string) (count : Z) (pattern : string) (m : MemStore) :
    option (list KeyValue) :=
  match fuel with
  | O => None
  | S fuel =>
      match Scan now cursor count pattern m with
      | Err _ => None
      | Ok (items, next) =>
          if decide (next = ""%string) then Some items
          else (items ++.) <$> Scan_pages fuel now next count pattern m
      end
  end.

Lemma Scan_pages_view fuel now cursor count pattern m :
  0 < count → Scan_pages fuel now cursor count pattern m = scan_pages fuel cursor count pattern (mem_view now m).
Proof.
  intros Hc. revert cursor. induction fuel as [|fuel IH]; intros cursor; [done|]. cbn [Scan_pages scan_pages].
  rewrite Scan_ok by done. destruct (scan_spec _ _ _ _) as [items next]. by rewrite IH.
Qed.

(** C34 (cursor iteration): following the cursors of [Scan] from the empty one, with
    pages of any positive size, ends, and yields every live key that matches the pattern
    exactly once, in key order, with its value, and nothing else.  The empty
    key, which the empty cursor cannot precede, is excluded. *)
Theorem Scan_pages_complete now pattern m count :
  0 < count → mem_view now m !! ""%string = None →
  ∃ items, Scan_pages (S (size (mem_view now m))) now "" count pattern m = Some items ∧
    StronglySorted kv_le items ∧ NoDup (kv_Key <$> items) ∧
    ∀ k v, mkKV k v ∈ items ↔ mem_view now m !! k = Some v ∧ matchGlob pattern k = true.
Proof. intros Hc Hne. rewrite Scan_pages_view by done. by apply scan_pages_complete. Qed.

Lemma Scan_pages_complete_witness :
  let m := (Expire 1 "b" 4 (Put "x" "4" (Put "c" "3" (Put "b" "2" (Put "a" "1" NewMemStore))))).2 in
  ∃ items, Scan_pages (S (size (mem_view 5 m))) 5 "" 2 "*" m = Some items ∧
    StronglySorted kv_le items ∧ NoDup (kv_Key <$> items) ∧
    ∀ k v, mkKV k v ∈ items ↔ mem_view 5 m !! k = Some v ∧ matchGlob "*" k = true.
Proof. intros m. apply (Scan_pages_complete 5 "*" m 2); [lia|vm_compute; done]. Defined.

(** C6 (the in-memory store is its specification): on every history of operations
    along a clock that does not go back, [MemStore], which drops dead entries
    lazily or in sweeps, answers exactly as the ideal map that loses each key
    at its deadline. *)
Theorem memstore_refines_ideal h t :
  monotone t h → (run mem_step h NewMemStore).1 = (run ideal_step h ∅).1.
Proof. intros Hm. by apply (mem_run_refines h t). Qed.

Lemma memstore_refines_ideal_witness :
  let h := [(1, MPut "a" "41"); (2, MExpire "a" 10); (3, MIncr "a"); (4, MExpire "a" 9);
            (8, MGet "a"); (9, MGet "a"); (9, MSize); (10, MIncr "a"); (11, MSweep)] in
  (run mem_step h NewMemStore).1 = (run ideal_step h ∅).1 ∧
  (run mem_step h NewMemStore).1 !! 4%nat = Some (OutStr (Ok "42"%string)) ∧
  (run mem_step h NewMemStore).1 !! 5%nat = Some (OutStr (Err ErrNotFound)).
Proof. intros h. split; [apply (memstore_refines_ideal h 0); simpl; lia|vm_compute; done]. Defined.

(** Counters keep to 64 bits: a successful Incr returns an int64 greater than
    the least one, and stores its decimal form, which parses back to it. *)
Theorem Incr_bounds now key m n m' :
  Incr now key m = (Ok n, m') →
  minInt64 < n <= maxInt64 ∧
  (Get now now key m').1 = Ok (FormatInt n) ∧ ParseInt (FormatInt n) = Some n.
Proof.
  intros H. pose proof (Incr_ok now key m) as Hok. rewrite H in Hok. simpl in Hok.
  pose proof (Incr_view now key m now ltac:(lia)) as Hv. rewrite H, <- Hok in Hv. simpl in Hv.
  assert (minInt64 < n <= maxInt64) as Hr.
  { unfold incr_spec in Hok. destruct (mem_view now m !! key) as [v|]; [|by simplify_eq].
    destruct (ParseInt v) as [x|] eqn:Hp; [|done]. apply ParseInt_range in Hp.
    unfold in_int64 in Hp. case_decide; simplify_eq. lia. }
  split; [done|]. rewrite Get_ok, Hv, lookup_insert_eq. split; [done|].
  apply ParseInt_FormatInt. unfold in_int64. lia.
Qed.

Lemma Incr_bounds_witness : ∃ m', Incr 5 "k" (Put "k" "9223372036854775806" NewMemStore) = (Ok maxInt64, m') ∧
  minInt64 < maxInt64 <= maxInt64 ∧
  (Get 5 5 "k" m').1 = Ok (FormatInt maxInt64) ∧ ParseInt (FormatInt maxInt64) = Some maxInt64.
Proof.
  eexists. split; [vm_compute; reflexivity|].
  apply (Incr_bounds 5 "k" (Put "k" "9223372036854775806" NewMemStore)). vm_compute. reflexivity.
Defined.
