(* ===== verification/FakeEngine.v ===== *)
(** * FakeEngine: the contract fake of pkg/storage/fake.go

    Two maps (values and deadlines) instead of one map of entries.  It meets
    the laws of the contract; where it differs from [MemStore], which its
    comment says it mirrors, the difference is proved. *)

From S2P Require Import Prelude GoLib Glob Engine MemStore.

Record FakeEngine : Type := mkFake {
  f_data : gmap string string;
  f_expires : gmap string Z;
  f_cleared : bool
}.

Definition NewFakeEngine : FakeEngine := mkFake ∅ ∅ false.

Definition expiredLocked (now : Z) (key : string) (f : FakeEngine) : bool :=
  match f_expires f !! key with
  | None => false
  | Some exp => exp <=? now
  end.

(** [delete(f.data, key); delete(f.expires, key)]. *)
Definition fake_remove (key : string) (f : FakeEngine) : FakeEngine :=
  mkFake (delete key (f_data f)) (delete key (f_expires f)) (f_cleared f).

(** The expiry check [Incr], [CAS] and [Expire] start with. *)
Definition fake_expire (now : Z) (key : string) (f : FakeEngine) : FakeEngine :=
  if expiredLocked now key f then fake_remove key f else f.

Definition fGet (now : Z) (key : string) (f : FakeEngine) : res string * FakeEngine :=
  if expiredLocked now key f then (Err ErrNotFound, fake_remove key f)
  else
    match f_data f !! key with
    | None => (Err ErrNotFound, f)
    | Some v => (Ok v, f)
    end.

Definition fPut (key value : string) (f : FakeEngine) : FakeEngine :=
  mkFake (<[key := value]> (f_data f)) (delete key (f_expires f)) (f_cleared f).

Definition fDelete (key : string) (f : FakeEngine) : FakeEngine := fake_remove key f.

Definition fClear (f : FakeEngine) : FakeEngine := mkFake ∅ ∅ true.

Definition WasCleared (f : FakeEngine) : bool := f_cleared f.

Definition fIncr (now : Z) (key : string) (f : FakeEngine) : res Z * FakeEngine :=
  let f := fake_expire now key f in
  match f_data f !! key with
  | None => (Ok 1, mkFake (<[key := "1"%string]> (f_data f)) (f_expires f) (f_cleared f))
  | Some cur =>
      match ParseInt cur with
      | None => (Err ErrNotNumeric, f)
      | Some v =>
          if v =? maxInt64 then (Err ErrOverflow, f)
          else (Ok (v + 1),
                mkFake (<[key := FormatInt (v + 1)]> (f_data f)) (f_expires f) (f_cleared f))
      end
  end.

Definition fCAS (now : Z) (key old new : string) (f : FakeEngine) : res bool * FakeEngine :=
  let f := fake_expire now key f in
  match f_data f !! key with
  | None => (Err ErrNotFound, f)
  | Some cur =>
      if negb (String.eqb cur old) then (Ok false, f)
      else (Ok true, mkFake (<[key := new]> (f_data f)) (delete key (f_expires f)) (f_cleared f))
  end.

Definition fExpire (now : Z) (key : string) (expiresAt : Z) (f : FakeEngine) : res unit * FakeEngine :=
  let f := fake_expire now key f in
  match f_data f !! key with
  | None => (Err ErrNotFound, f)
  | Some _ => (Ok (), mkFake (f_data f) (<[key := expiresAt]> (f_expires f)) (f_cleared f))
  end.

(** [fScan] collects and sorts the keys, cuts the page and looks the values up.
    [None] is the run-time panic of slicing with a negative [count], or of
    indexing the last item of an empty page. *)
Definition fScan (now : Z) (cursor : string) (count : Z) (pattern : string) (f : FakeEngine)
    : option (list KeyValue * string) :=
  let keys :=
    foldl (λ acc (kv : string * string),
             if expiredLocked now kv.1 f then acc
             else if negb (bool_decide (cursor = ""%string)) && str_le kv.1 cursor then acc
             else if negb (matchGlob pattern kv.1) then acc
             else acc ++ [kv.1])
          [] (map_to_list (f_data f)) in
  let keys := go_sort String.le keys in
  if decide (count < 0) then None
  else
    let keys := if decide (zlen keys > count) then take (Z.to_nat count) keys else keys in
    let items := (λ k, mkKV k (default ""%string (f_data f !! k))) <$> keys in
    if decide (zlen items = count) then
      match last items with
      | None => None
      | Some kv => Some (items, kv_Key kv)
      end
    else Some (items, ""%string).

Global Instance FakeEngine_Engine : Engine FakeEngine := {
  eGet := fGet;
  ePut _ k v f := (Ok (), fPut k v f);
  eDelete _ k f := (Ok (), fDelete k f);
  eClear _ f := (Ok (), fClear f);
  eIncr := fIncr;
  eCAS := fCAS;
  eExpire := fExpire;
  eScan now c n p f :=
    match fScan now c n p f with Some r => Ok r | None => Err (ErrMsg "panic") end
}.

(** ** The contract *)

(** What a reader sees at time [t]. *)
Definition fake_view (t : Z) (f : FakeEngine) : gmap string string :=
  filter (λ kv, expiredLocked t kv.1 f = false) (f_data f).

Lemma fake_view_lookup t f k :
  fake_view t f !! k = if expiredLocked t k f then None else f_data f !! k.
Proof.
  unfold fake_view. rewrite map_lookup_filter. destruct (f_data f !! k) as [v|]; simpl.
  - case_guard; simpl in *; destruct (expiredLocked t k f); done.
  - by destruct (expiredLocked t k f).
Qed.

Lemma expiredLocked_mono now t k f : expiredLocked now k f = true → now <= t → expiredLocked t k f = true.
Proof. unfold expiredLocked. destruct (f_expires f !! k); [|done]. rewrite !Z.leb_le. lia. Qed.

Lemma fake_view_remove t k f : fake_view t (fake_remove k f) = delete k (fake_view t f).
Proof.
  apply map_eq. intros k'. rewrite fake_view_lookup. unfold expiredLocked. simpl.
  destruct (decide (k = k')) as [<-|Hne].
  - by rewrite !lookup_delete_eq.
  - rewrite !lookup_delete_ne by done. by rewrite fake_view_lookup.
Qed.

Lemma fake_view_remove_dead now t k f : expiredLocked now k f = true → now <= t →
  fake_view t (fake_remove k f) = fake_view t f.
Proof.
  intros Hx Ht. rewrite fake_view_remove. apply delete_id.
  by rewrite fake_view_lookup, (expiredLocked_mono now t).
Qed.

Lemma fake_expire_spec now k f :
  f_data (fake_expire now k f) !! k = fake_view now f !! k ∧
  expiredLocked now k (fake_expire now k f) = false ∧
  ∀ t, now <= t → fake_view t (fake_expire now k f) = fake_view t f.
Proof.
  rewrite fake_view_lookup. unfold fake_expire. destruct (expiredLocked now k f) eqn:Hx.
  - split_and!; [apply lookup_delete_eq| |].
    + unfold expiredLocked. simpl. by rewrite lookup_delete_eq.
    + intros t Ht. by apply (fake_view_remove_dead now).
  - done.
Qed.

(** Writing a value, with no deadline or keeping the deadline there is. *)
Lemma fake_view_put t k v f c :
  fake_view t (mkFake (<[k := v]> (f_data f)) (delete k (f_expires f)) c) = <[k := v]> (fake_view t f).
Proof.
  apply map_eq. intros k'. rewrite fake_view_lookup. unfold expiredLocked. simpl.
  destruct (decide (k = k')) as [<-|Hne].
  - by rewrite lookup_delete_eq, !lookup_insert_eq.
  - rewrite lookup_delete_ne, !lookup_insert_ne by done. by rewrite fake_view_lookup.
Qed.

Lemma fake_view_overwrite t k v f c :
  fake_view t (mkFake (<[k := v]> (f_data f)) (f_expires f) c) =
    if expiredLocked t k f then fake_view t f else <[k := v]> (fake_view t f).
Proof.
  apply map_eq. intros k'. rewrite fake_view_lookup. unfold expiredLocked at 1. simpl.
  fold (expiredLocked t k' f). destruct (decide (k = k')) as [<-|Hne].
  - rewrite lookup_insert_eq. destruct (expiredLocked t k f) eqn:E.
    + by rewrite fake_view_lookup, E.
    + by rewrite lookup_insert_eq.
  - rewrite lookup_insert_ne by done.
    destruct (expiredLocked t k f); rewrite ?lookup_insert_ne by done; by rewrite fake_view_lookup.
Qed.

Lemma fake_view_deadline t k d v f c : f_data f !! k = Some v →
  fake_view t (mkFake (f_data f) (<[k := d]> (f_expires f)) c) =
    if decide (d <= t) then delete k (fake_view t f) else <[k := v]> (fake_view t f).
Proof.
  intros Hv. apply map_eq. intros k'. rewrite fake_view_lookup. unfold expiredLocked. simpl.
  destruct (decide (k = k')) as [<-|Hne].
  - rewrite lookup_insert_eq, Hv. case_decide as Hd.
    + by rewrite (proj2 (Z.leb_le d t)), lookup_delete_eq.
    + rewrite (proj2 (Z.leb_gt d t)) by lia. by rewrite lookup_insert_eq.
  - rewrite lookup_insert_ne by done. fold (expiredLocked t k' f). rewrite <- fake_view_lookup.
    case_decide; [by rewrite lookup_delete_ne|by rewrite lookup_insert_ne].
Qed.

Ltac fake_live now k f :=
  destruct (fake_expire_spec now k f) as (Hlk & Hex & Hview);
  destruct (f_data (fake_expire now k f) !! k) as [cur|] eqn:Hcur; rewrite <- Hlk; simpl.

Lemma fGet_ok now k f : (fGet now k f).1 = from_option Ok (Err ErrNotFound) (fake_view now f !! k).
Proof.
  unfold fGet. rewrite fake_view_lookup. destruct (expiredLocked now k f); [done|].
  by destruct (f_data f !! k).
Qed.

Lemma fGet_view now k f t : now <= t → fake_view t (fGet now k f).2 = fake_view t f.
Proof.
  intros Ht. unfold fGet. destruct (expiredLocked now k f) eqn:Hx.
  - by apply (fake_view_remove_dead now).
  - by destruct (f_data f !! k).
Qed.

Lemma fIncr_ok now k f : (fIncr now k f).1 = incr_spec (fake_view now f !! k).
Proof.
  unfold fIncr. fake_live now k f; [|done]. destruct (ParseInt cur) as [v|]; [|done].
  destruct (v =? maxInt64) eqn:E; bool_prop; [by rewrite decide_True|by rewrite decide_False].
Qed.

Lemma fIncr_view now k f :
  fake_view now (fIncr now k f).2 =
    match incr_spec (fake_view now f !! k) with
    | Ok n => <[k := FormatInt n]> (fake_view now f)
    | Err _ => fake_view now f
    end.
Proof.
  unfold fIncr. fake_live now k f.
  - destruct (ParseInt cur) as [v|]; simpl; [|by apply Hview].
    destruct (v =? maxInt64) eqn:E; bool_prop;
      [rewrite decide_True by done; by apply Hview|rewrite decide_False by done].
    simpl. by rewrite fake_view_overwrite, Hex, Hview by lia.
  - by rewrite fake_view_overwrite, Hex, Hview by lia.
Qed.

Lemma fIncr_frame now k f t k' : now <= t → k' ≠ k →
  fake_view t (fIncr now k f).2 !! k' = fake_view t f !! k'.
Proof.
  intros Ht Hk. destruct (fake_expire_spec now k f) as (_ & _ & Hview).
  rewrite <- (Hview t Ht). unfold fIncr.
  destruct (f_data (fake_expire now k f) !! k) as [cur|]; simpl.
  - destruct (ParseInt cur) as [v|]; [|done]. destruct (v =? maxInt64); [done|]. simpl.
    rewrite fake_view_overwrite. case_match; [done|]. by rewrite lookup_insert_ne.
  - rewrite fake_view_overwrite. case_match; [done|]. by rewrite lookup_insert_ne.
Qed.

Lemma fCAS_ok now k old new f :
  (fCAS now k old new f).1 =
    match fake_view now f !! k with None => Err ErrNotFound | Some v => Ok (bool_decide (v = old)) end.
Proof.
  unfold fCAS. fake_live now k f; [|done]. destruct (String.eqb_spec cur old); simpl;
    [by rewrite bool_decide_true|by rewrite bool_decide_false].
Qed.

Lemma fCAS_view now k old new f t : now <= t →
  fake_view t (fCAS now k old new f).2 =
    if decide (fake_view now f !! k = Some old) then <[k := new]> (fake_view t f) else fake_view t f.
Proof.
  intros Ht. unfold fCAS. fake_live now k f; [|by apply Hview].
  destruct (String.eqb_spec cur old) as [->|]; simpl.
  - rewrite decide_True by done. by rewrite fake_view_put, Hview.
  - rewrite decide_False by congruence. by apply Hview.
Qed.

Lemma fExpire_ok now k d f :
  (fExpire now k d f).1 = match fake_view now f !! k with None => Err ErrNotFound | Some _ => Ok () end.
Proof. unfold fExpire. by fake_live now k f. Qed.

Lemma fExpire_view now k d f t : now <= t →
  fake_view t (fExpire now k d f).2 =
    match fake_view now f !! k with
    | None => fake_view t f
    | Some v => if decide (d <= t) then delete k (fake_view t f) else <[k := v]> (fake_view t f)
    end.
Proof.
  intros Ht. unfold fExpire. fake_live now k f; [|by apply Hview].
  rewrite (fake_view_deadline _ _ _ cur), Hview by done. done.
Qed.

(** *** Scan: sorting the keys first and looking the values up afterwards *)

Lemma fake_scan_all now cursor pattern f :
  (λ k, mkKV k (default ""%string (f_data f !! k))) <$>
    go_sort String.le
      (foldl (λ acc (kv : string * string),
             if expiredLocked now kv.1 f then acc
             else if negb (bool_decide (cursor = ""%string)) && str_le kv.1 cursor then acc
             else if negb (matchGlob pattern kv.1) then acc
             else acc ++ [kv.1]) [] (map_to_list (f_data f)))
  = scan_all cursor pattern (fake_view now f).
Proof.
  rewrite (foldl_select (λ kv : string * string,
    negb (expiredLocked now kv.1 f) && scan_selects cursor pattern kv.1) fst).
  2:{ intros acc [k v]. simpl. unfold scan_selects.
      by destruct (expiredLocked now k f), (negb (bool_decide (cursor = ""%string)) && str_le k cursor),
        (matchGlob pattern k). }
  simpl. set (mk := λ k, mkKV k (default ""%string (f_data f !! k))).
  apply (StronglySorted_unique_strong kv_le).
  - intros x y (k & -> & _)%list_elem_of_fmap Hy H1 H2.
    unfold scan_all in Hy. rewrite go_sort_Permutation, list_elem_of_fmap in Hy.
    destruct Hy as ([k' v] & -> & [_ Hy]%list_elem_of_filter).
    apply elem_of_map_to_list in Hy. rewrite fake_view_lookup in Hy.
    assert (k = k') as <- by by apply (anti_symm String.le).
    destruct (expiredLocked now k f); [done|]. unfold mk. by rewrite Hy.
  - apply (StronglySorted_fmap mk String.le kv_le); [done|]. apply go_sort_sorted; apply _.
  - apply go_sort_sorted; apply _.
  - unfold scan_all. rewrite !go_sort_Permutation.
    unfold fake_view. rewrite map_filter_alt, map_to_list_to_map.
    + assert (∀ kv, kv ∈ map_to_list (f_data f) → mk kv.1 = mkKV kv.1 kv.2) as Hmk.
      { intros [k v] H%elem_of_map_to_list. unfold mk. simpl. by rewrite H. }
      induction (map_to_list (f_data f)) as [|[k v] l IH]; [done|].
      rewrite !filter_cons. simpl.
      assert (∀ kv, kv ∈ l → mk kv.1 = mkKV kv.1 kv.2) as Hmk' by (intros; apply Hmk; by right).
      destruct (expiredLocked now k f); simpl; [by apply IH|].
      rewrite filter_cons. simpl. destruct (scan_selects cursor pattern k); simpl; [|by apply IH].
      pose proof (Hmk (k, v) ltac:(by left)) as Hkv. simpl in Hkv. rewrite Hkv. by rewrite IH.
    + apply NoDup_fmap_fst; [|apply NoDup_filter, NoDup_map_to_list].
      intros k e1 e2 [_ H1]%list_elem_of_filter [_ H2]%list_elem_of_filter.
      apply elem_of_map_to_list in H1, H2. congruence.
Qed.

Lemma fScan_ok now cursor count pattern f : 0 < count →
  fScan now cursor count pattern f = Some (scan_spec cursor count pattern (fake_view now f)).
Proof.
  intros Hc. unfold fScan, scan_spec, scan_page. rewrite decide_False by lia.
  rewrite <- fake_scan_all. set (keys := go_sort String.le _). set (mk := λ k, mkKV k _).
  assert (zlen (mk <$> keys) = zlen keys) as Hlen by (unfold zlen; by rewrite length_fmap).
  rewrite Hlen.
  assert ((if decide (zlen keys > count) then take (Z.to_nat count) (mk <$> keys) else mk <$> keys)
    = mk <$> (if decide (zlen keys > count) then take (Z.to_nat count) keys else keys)) as ->.
  { case_decide; [by rewrite fmap_take|done]. }
  set (page := if decide (zlen keys > count) then _ else _).
  destruct (decide (zlen (mk <$> page) = count)) as [Hp|Hp]; [|done].
  destruct (last (mk <$> page)) as [kv|] eqn:Hl; [done|].
  apply last_None in Hl. rewrite Hl, zlen_nil in Hp. lia.
Qed.

Global Program Instance FakeEngine_EngineLaws : EngineLaws FakeEngine := { view := fake_view }.
Next Obligation. apply fGet_ok. Qed.
Next Obligation. intros. by apply fGet_view. Qed.
Next Obligation. done. Qed.
Next Obligation. intros. apply fake_view_put. Qed.
Next Obligation. done. Qed.
Next Obligation. intros. apply fake_view_remove. Qed.
Next Obligation. done. Qed.
Next Obligation. done. Qed.
Next Obligation. intros. apply fIncr_ok. Qed.
Next Obligation. intros. apply fIncr_view. Qed.
Next Obligation. intros. by apply fIncr_frame. Qed.
Next Obligation. intros. apply fCAS_ok. Qed.
Next Obligation. intros. by apply fCAS_view. Qed.
Next Obligation. intros. apply fExpire_ok. Qed.
Next Obligation. intros. by apply fExpire_view. Qed.
Next Obligation. intros. simpl. by rewrite fScan_ok. Qed.

(** ** The fake and the store

    Two engines that obey the laws and start from the same view give the same
    answers to the operations whose effect on later times the laws fix. *)
Section agreement.
Context `{EngineLaws S1} `{EngineLaws S2}.

(** The operations of the contract; [Incr] is left out of [agree_trace]
    below because the laws do not say what it does to a deadline. *)
Definition eng_step {S} `{Engine S} (now : Z) (o : mop) (s : S) : mout * S :=
  match o with
  | MGet k => (OutStr (eGet now k s).1, (eGet now k s).2)
  | MPut k v => (OutUnit (ePut now k v s).1, (ePut now k v s).2)
  | MDelete k => (OutUnit (eDelete now k s).1, (eDelete now k s).2)
  | MClear => (OutUnit (eClear now s).1, (eClear now s).2)
  | MIncr k => (OutInt (eIncr now k s).1, (eIncr now k s).2)
  | MCAS k old new => (OutBool (eCAS now k old new s).1, (eCAS now k old new s).2)
  | MExpire k d => (OutUnit (eExpire now k d s).1, (eExpire now k d s).2)
  | MScan c n p => (OutPage (eScan now c n p s), s)
  | MSize | MSweep => (OutNone, s)
  end.

(** The operations on which the contract determines every later answer. *)
Definition contract_op (o : mop) : bool :=
  match o with
  | MIncr _ => false
  | MExpire _ d => negb (d =? 0)
  | MScan _ n _ => 0 <? n
  | _ => true
  end.

Definition views_agree (now : Z) (s1 : S1) (s2 : S2) : Prop :=
  ∀ t, now <= t → view t s1 = view t s2.

Lemma eng_step_agree now o s1 s2 :
  contract_op o = true → views_agree now s1 s2 →
  (eng_step now o s1).1 = (eng_step now o s2).1 ∧
  views_agree now (eng_step now o s1).2 (eng_step now o s2).2.
Proof.
  intros Ho Hv. pose proof (Hv now ltac:(lia)) as Hnow.
  destruct o as [k|k v|k| |k|k old new|k d|c n p| |]; simpl in Ho |- *; bool_prop; try done.
  - split; [by rewrite !eGet_ok, Hnow|]. intros t Ht. rewrite !eGet_view by done. by apply Hv.
  - split; [by rewrite !ePut_ok|]. intros t Ht. by rewrite !ePut_view, Hv.
  - split; [by rewrite !eDelete_ok|]. intros t Ht. by rewrite !eDelete_view, Hv.
  - split; [by rewrite !eClear_ok|]. intros t Ht. by rewrite !eClear_view.
  - split; [by rewrite !eCAS_ok, Hnow|]. intros t Ht. by rewrite !eCAS_view, Hnow, Hv.
  - split; [by rewrite !eExpire_ok, Hnow|]. intros t Ht. by rewrite !eExpire_view, Hnow, Hv.
  - split; [|done]. by rewrite !eScan_ok, Hnow by done.
Qed.

Lemma run_agree h t s1 s2 :
  monotone t h → Forall (λ o, contract_op o.2 = true) h → views_agree t s1 s2 →
  (run eng_step h s1).1 = (run eng_step h s2).1.
Proof.
  revert t s1 s2. induction h as [|[now o] h IH]; intros t s1 s2 Hm Ho Hv; [done|].
  destruct Hm as [Ht Hm]. apply Forall_cons in Ho as [Ho Hos]. simpl in *.
  destruct (eng_step_agree now o s1 s2 Ho) as [Hout Hv'].
  { intros t' Ht'. apply Hv. lia. }
  destruct (eng_step now o s1) as [o1 s1'], (eng_step now o s2) as [o2 s2']. simpl in *.
  specialize (IH now s1' s2' Hm Hos Hv').
  destruct (run eng_step h s1'), (run eng_step h s2'). simpl in *. congruence.
Qed.
End agreement.

(** The test double: on every history of Get, Put, Delete, Clear, CAS,
    Expire and Scan (with a positive count and a non-zero deadline) along a
    clock that does not go back, [FakeEngine] gives the answers [MemStore]
    gives. *)
Theorem fake_agrees_with_memstore h t :
  monotone t h → Forall (λ o, contract_op o.2 = true) h →
  (run eng_step h NewFakeEngine).1 = (run eng_step h NewMemStore).1.
Proof. intros Hm Ho. by apply (run_agree h t). Qed.

Lemma fake_agrees_with_memstore_witness :
  let h := [(1, MPut "a" "x"); (2, MExpire "a" 5); (3, MCAS "a" "x" "y"); (6, MGet "a");
            (7, MExpire "a" 9); (9, MScan "" 10 "*")] in
  (run eng_step h NewFakeEngine).1 = (run eng_step h NewMemStore).1.
Proof.
  intros h. apply (fake_agrees_with_memstore h 0); [simpl; lia|].
  repeat (apply Forall_cons; split; [reflexivity|]). apply Forall_nil. done.
Defined.

(** The test double and Incr: the two engines differ after an Incr on a key
    with a deadline: [MemStore] removes the deadline, [FakeEngine] keeps it, so
    the key is gone at time 6 in one and holds 2 in the other. *)
Theorem fake_incr_keeps_deadline :
  let h := [(1, MPut "a" "1"); (2, MExpire "a" 5); (3, MIncr "a"); (6, MGet "a")] in
  (run eng_step h NewFakeEngine).1 !! 3%nat = Some (OutStr (Err ErrNotFound)) ∧
  (run eng_step h NewMemStore).1 !! 3%nat = Some (OutStr (Ok "2"%string)).
Proof. split; vm_compute; done. Qed.
