(* ===== verification/Disk.v ===== *)
(** * Disk: files, fsync, rename and crashes

    The operating-system calls of pkg/storage and pkg/raft/persistence.go on a
    file system that tells what has been written from what is durable.  Every
    call consumes one outcome of a script (success, or failure after some
    bytes), and the file system after every call is recorded: these are the
    points at which the process may be killed.  [atomicWriteFile] is translated
    on these calls and proved to replace a file atomically. *)

From S2P Require Import Prelude.

(** ** The file system *)

(** A rename that no fsync of the directory has made durable yet: its source,
    its target and the durable contents of the file it moves. *)
Record rename : Type := mkRename { r_from : string; r_to : string; r_bytes : bytes }.

(** [vol]: what the running process sees.  [dur]: the fsynced contents of the
    files.  [pend]: pending renames, oldest first.  [ents]: the names whose entry
    in the directory is durable; a new file gets one when the directory is
    synced, the fsync of the file alone does not give it one. *)
Record FS : Type := mkFS {
  vol : gmap string bytes;
  dur : gmap string bytes;
  pend : list rename;
  ents : gset string
}.

(** A file system on which everything is durable. *)
Definition at_rest (files : gmap string bytes) : FS := mkFS files files [] (dom files).

Definition apply_rename (d : gmap string bytes) (r : rename) : gmap string bytes :=
  <[r_to r := r_bytes r]> (delete (r_from r) d).

(** Contents a file may have after a crash: between the durable and the written
    bytes when the file only grew since its fsync; otherwise the durable bytes,
    or a prefix of the written ones. *)
Definition crash_content (d w c : option bytes) : Prop :=
  match d, w, c with
  | Some d, Some w, Some c =>
      if decide (d `prefix_of` w) then d `prefix_of` c ∧ c `prefix_of` w
      else c = d ∨ c `prefix_of` w
  | Some d, None, Some c => c = d
  | None, Some w, Some c => c `prefix_of` w
  | None, None, None => True
  | _, _, _ => False
  end.

Definition renamed (n : string) (f : FS) : Prop :=
  n ∈ (r_from <$> pend f) ∨ n ∈ (r_to <$> pend f).

(** The entry of [n] was never made durable, and is lost. *)
Definition lost_entry (f : FS) (n : string) (c : option bytes) : Prop := (n ∉ ents f) ∧ c = None.

(** The fsynced files whose entries survive. *)
Definition survives (f : FS) (d : gmap string bytes) : Prop :=
  ∀ n, d !! n = dur f !! n ∨ lost_entry f n (d !! n).

(** The file system found after the process is killed (or the machine crashes):
    the first [k] pending renames happened, and every other file has one of its
    possible contents, or has vanished if its entry was not durable. *)
Definition crash (f f' : FS) : Prop :=
  ∃ k d0, survives f d0 ∧
    let d := foldl apply_rename d0 (take k (pend f)) in
    (∀ n, renamed n f → vol f' !! n = d !! n) ∧
    (∀ n, ¬ renamed n f →
       crash_content (dur f !! n) (vol f !! n) (vol f' !! n) ∨ lost_entry f n (vol f' !! n)) ∧
    f' = at_rest (vol f').

(** ** System calls *)

(** What the environment makes of a call: it succeeds, or fails (a write fails
    after [n] bytes). *)
Inductive outcome : Type := Good | Bad (n : nat).

Record World : Type := mkWorld {
  fs : FS;
  script : list outcome; (* all calls succeed once it is used up *)
  hist : list FS         (* the file system after each call, latest first *)
}.

(** A computation on files that may return an error. *)
Definition IO (A : Type) : Type := World → res A * World.

Definition ret {A} (a : A) : IO A := λ w, (Ok a, w).
Definition throw {A} (e : go_error) : IO A := λ w, (Err e, w).
Definition bind {A B} (m : IO A) (k : A → IO B) : IO B := λ w,
  match m w with
  | (Ok a, w) => k a w
  | (Err e, w) => (Err e, w)
  end.
(** [finally m c]: run [c] whatever [m] did, and return what [m] returned
    (a [defer], or a cleanup before returning an error). *)
Definition finally {A B} (m : IO A) (c : IO B) : IO A := λ w,
  let (r, w) := m w in let (_, w) := c w in (r, w).
(** [on_error m c]: run [c] when [m] fails, and return [m]'s error. *)
Definition on_error {A B} (m : IO A) (c : IO B) : IO A := λ w,
  match m w with
  | (Ok a, w) => (Ok a, w)
  | (Err e, w) => let (_, w) := c w in (Err e, w)
  end.
(** [attempt m]: the result of [m] as a value, for code that inspects it. *)
Definition attempt {A} (m : IO A) : IO (res A) := λ w, let (r, w) := m w in (Ok r, w).

Notation "x <- m ;; k" := (bind m (λ x, k)) (at level 100, m at next level, right associativity) : kv_scope.
Notation "' p <- m ;; k" := (bind m (λ x, match x with p => k end))
  (at level 20, p pattern, m at level 99, k at level 200) : kv_scope.
Notation "m ;;; k" := (bind m (λ _, k)) (at level 100, right associativity) : kv_scope.

Definition next_outcome (l : list outcome) : outcome * list outcome :=
  match l with [] => (Good, []) | o :: rest => (o, rest) end.

(** One system call. *)
Definition call {A} (op : outcome → FS → res A * FS) : IO A := λ w,
  let (o, rest) := next_outcome (script w) in
  let (r, f) := op o (fs w) in
  (r, mkWorld f rest (f :: hist w)).

Definition on_good {A} (good : FS → res A * FS) (o : outcome) (f : FS) : res A * FS :=
  match o with Good => good f | Bad _ => (Err (ErrMsg "i/o error"), f) end.

Definition set_vol (v : gmap string bytes) (f : FS) : FS := mkFS v (dur f) (pend f) (ents f).

(** [os.OpenFile(name, O_CREATE|O_WRONLY|O_TRUNC)]. *)
Definition open_trunc (name : string) : IO unit :=
  call (on_good (λ f, (Ok (), set_vol (<[name := []]> (vol f)) f))).

(** [os.OpenFile(name, O_CREATE|O_RDWR|O_APPEND)]. *)
Definition open_append (name : string) : IO unit :=
  call (on_good (λ f, (Ok (), set_vol (<[name := default [] (vol f !! name)]> (vol f)) f))).

(** [f.Write(b)] on a file open for appending (or only written from its start). *)
Definition write (name : string) (b : bytes) : IO unit :=
  call (λ o f,
    let app b := set_vol (<[name := default [] (vol f !! name) ++ b]> (vol f)) f in
    match o with
    | Good => (Ok (), app b)
    | Bad n => (Err (ErrMsg "write error"), app (take n b))
    end).

(** [f.Sync()]: the contents, not the entry in the directory. *)
Definition set_dur (name : string) (f : FS) : FS :=
  mkFS (vol f) (<[name := default [] (vol f !! name)]> (dur f)) (pend f) (ents f).
Definition fsync (name : string) : IO unit := call (on_good (λ f, (Ok (), set_dur name f))).

(** [f.Close()]. *)
Definition close : IO unit := call (on_good (λ f, (Ok (), f))).

(** [os.Rename(from, to)]: it carries the durable contents of the file. *)
Definition rename_file (from to : string) : IO unit :=
  call (on_good (λ f,
    (Ok (), mkFS (<[to := default [] (vol f !! from)]> (delete from (vol f))) (dur f)
                 (pend f ++ [mkRename from to (default [] (dur f !! from))]) (ents f)))).

(** [os.Remove(name)]: fails when there is no such file. *)
Definition remove (name : string) : IO unit :=
  call (on_good (λ f,
    match vol f !! name with
    | None => (Err (ErrMsg "no such file"), f)
    | Some _ => (Ok (), mkFS (delete name (vol f)) (dur f) (pend f) (ents f ∖ {[name]}))
    end)).

(** [os.Truncate(name, 0)]. *)
Definition truncate (name : string) : IO unit :=
  call (on_good (λ f,
    match vol f !! name with
    | None => (Err (ErrMsg "no such file"), f)
    | Some _ => (Ok (), set_vol (<[name := []]> (vol f)) f)
    end)).

(** [os.Open(dir)] and [dir.Sync()]: the entries of all files, and the renames. *)
Definition open_dir : IO unit := call (on_good (λ f, (Ok (), f))).
Definition sync_entries (f : FS) : FS :=
  mkFS (vol f) (foldl apply_rename (dur f) (pend f)) [] (ents f ∪ dom (vol f)).
Definition sync_dir : IO unit := call (on_good (λ f, (Ok (), sync_entries f))).

(** [os.ReadFile(name)]: [None] when it does not exist. *)
Definition read_file (name : string) : IO (option bytes) :=
  call (on_good (λ f, (Ok (vol f !! name), f))).

(** [os.Stat(name)]: the size. *)
Definition stat (name : string) : IO Z :=
  call (on_good (λ f,
    match vol f !! name with
    | None => (Err (ErrMsg "no such file"), f)
    | Some b => (Ok (zlen b), f)
    end)).

(** ** [atomicWriteFile] of pkg/storage/snapshot.go *)

Definition tmp_of (path : string) : string := String.append path ".tmp".

Definition atomicWriteFile (path : string) (data : bytes) : IO unit :=
  let tmp := tmp_of path in
  open_trunc tmp ;;;
  finally
    (on_error (write tmp data) close ;;;
     on_error (fsync tmp) close ;;;
     close ;;;
     rename_file tmp path ;;;
     open_dir ;;;
     finally sync_dir close)
    (remove tmp).

(** ** A program logic for file code

    [triple P m Q I]: from a file system satisfying [P], whatever the outcomes
    of its calls, [m] ends with [Q], and the file system satisfies [I] after
    every call it makes. *)
Definition triple {A} (P : FS → Prop) (m : IO A) (Q : res A → FS → Prop) (I : FS → Prop) : Prop :=
  ∀ w, P (fs w) →
    let (r, w') := m w in
    Q r (fs w') ∧ ∃ new, hist w' = new ++ hist w ∧ Forall I new.

Section triple.
Context {A B : Type} (I : FS → Prop).

Lemma triple_ret (a : A) (Q : res A → FS → Prop) : triple (Q (Ok a)) (ret a) Q I.
Proof. intros w HP. split; [done|]. by exists []. Qed.

Lemma triple_throw e (Q : res A → FS → Prop) : triple (Q (Err e)) (throw e) Q I.
Proof. intros w HP. split; [done|]. by exists []. Qed.

Lemma triple_call op P (Q : res A → FS → Prop) :
  (∀ o f, P f → Q (op o f).1 (op o f).2 ∧ I (op o f).2) → triple P (call op) Q I.
Proof.
  intros H w HP. unfold call.
  destruct (next_outcome (script w)) as [o rest].
  specialize (H o (fs w) HP). destruct (op o (fs w)) as [r f]. simpl in *.
  split; [tauto|]. exists [f]. split; [done|]. apply Forall_singleton. tauto.
Qed.

Lemma triple_bind P R (m : IO A) (k : A → IO B) (Q : res B → FS → Prop) :
  triple P m R I → (∀ a, triple (R (Ok a)) (k a) Q I) → (∀ e f, R (Err e) f → Q (Err e) f) →
  triple P (bind m k) Q I.
Proof.
  intros Hm Hk He w HP. unfold bind. specialize (Hm w HP).
  destruct (m w) as [[a|e] w1]; destruct Hm as (HR & new1 & Hh1 & Hf1).
  - specialize (Hk a w1 HR). destruct (k a w1) as [r w2]. destruct Hk as (HQ & new2 & Hh2 & Hf2).
    split; [done|]. exists (new2 ++ new1). rewrite Hh2, Hh1, app_assoc. split; [done|].
    by apply Forall_app.
  - split; [by apply He|]. by exists new1.
Qed.

Lemma triple_finally P R (m : IO A) (c : IO B) (Q : res A → FS → Prop) :
  triple P m R I → (∀ r, triple (R r) c (λ _, Q r) I) → triple P (finally m c) Q I.
Proof.
  intros Hm Hc w HP. unfold finally. specialize (Hm w HP).
  destruct (m w) as [r w1]. destruct Hm as (HR & new1 & Hh1 & Hf1).
  specialize (Hc r w1 HR). destruct (c w1) as [r' w2]. destruct Hc as (HQ & new2 & Hh2 & Hf2).
  split; [done|]. exists (new2 ++ new1). rewrite Hh2, Hh1, app_assoc. split; [done|].
  by apply Forall_app.
Qed.

Lemma triple_on_error P R (m : IO A) (c : IO B) (Q : res A → FS → Prop) :
  triple P m R I → (∀ a f, R (Ok a) f → Q (Ok a) f) →
  (∀ e, triple (R (Err e)) c (λ _, Q (Err e)) I) → triple P (on_error m c) Q I.
Proof.
  intros Hm Ho Hc w HP. unfold on_error. specialize (Hm w HP).
  destruct (m w) as [[a|e] w1]; destruct Hm as (HR & new1 & Hh1 & Hf1).
  - split; [by apply Ho|]. by exists new1.
  - specialize (Hc e w1 HR). destruct (c w1) as [r' w2]. destruct Hc as (HQ & new2 & Hh2 & Hf2).
    split; [done|]. exists (new2 ++ new1). rewrite Hh2, Hh1, app_assoc. split; [done|].
    by apply Forall_app.
Qed.

Lemma triple_conseq P P' (m : IO A) (Q Q' : res A → FS → Prop) :
  (∀ f, P f → P' f) → triple P' m Q' I → (∀ r f, Q' r f → Q r f) → triple P m Q I.
Proof.
  intros HP Hm HQ w Hw. specialize (Hm w (HP _ Hw)). destruct (m w) as [r w'].
  destruct Hm as [? ?]. split; [by apply HQ|done].
Qed.
End triple.

(** *** Runs in which every call succeeds

    [gtriple P m Q I]: from a file system satisfying [P], when no call fails,
    [m] returns a value with [Q], and [I] holds after every call. *)
Definition gtriple {A} (P : FS → Prop) (m : IO A) (Q : A → FS → Prop) (I : FS → Prop) : Prop :=
  ∀ w, script w = [] → P (fs w) →
    ∃ a w', m w = (Ok a, w') ∧ script w' = [] ∧ Q a (fs w') ∧ ∃ new, hist w' = new ++ hist w ∧ Forall I new.

Section gtriple.
Context {A B : Type} (I : FS → Prop).

Lemma g_ret (a : A) (P : FS → Prop) (Q : A → FS → Prop) : (∀ f, P f → Q a f) → gtriple P (ret a) Q I.
Proof. intros H w Hs HP. exists a, w. split_and!; [done..|by apply H|]. by exists []. Qed.

Lemma g_call op P (Q : A → FS → Prop) :
  (∀ f, P f → ∃ a f', op Good f = (Ok a, f') ∧ Q a f' ∧ I f') → gtriple P (call op) Q I.
Proof.
  intros H w Hs HP. unfold call. rewrite Hs. simpl. destruct (H _ HP) as (a & f' & -> & HQ & HI).
  eexists a, _. split_and!; [done..|]. exists [f']. split; [done|]. by apply Forall_singleton.
Qed.

Lemma g_bind P R (m : IO A) (k : A → IO B) (Q : B → FS → Prop) :
  gtriple P m R I → (∀ a, gtriple (R a) (k a) Q I) → gtriple P (bind m k) Q I.
Proof.
  intros Hm Hk w Hs HP. unfold bind. destruct (Hm w Hs HP) as (a & w1 & -> & Hs1 & HR & new1 & Hh1 & Hf1).
  destruct (Hk a w1 Hs1 HR) as (b & w2 & -> & Hs2 & HQ & new2 & Hh2 & Hf2).
  exists b, w2. split_and!; [done..|]. exists (new2 ++ new1). rewrite Hh2, Hh1, app_assoc. split; [done|].
  by apply Forall_app.
Qed.

Lemma g_finally P R (m : IO A) (c : IO B) (Q : A → FS → Prop) :
  gtriple P m R I → (∀ a, gtriple (R a) c (λ _, Q a) I) → gtriple P (finally m c) Q I.
Proof.
  intros Hm Hc w Hs HP. unfold finally. destruct (Hm w Hs HP) as (a & w1 & -> & Hs1 & HR & new1 & Hh1 & Hf1).
  destruct (Hc a w1 Hs1 HR) as (b & w2 & -> & Hs2 & HQ & new2 & Hh2 & Hf2).
  exists a, w2. split_and!; [done..|]. exists (new2 ++ new1). rewrite Hh2, Hh1, app_assoc. split; [done|].
  by apply Forall_app.
Qed.

Lemma g_on_error P (m : IO A) (c : IO B) (Q : A → FS → Prop) : gtriple P m Q I → gtriple P (on_error m c) Q I.
Proof.
  intros Hm w Hs HP. unfold on_error. destruct (Hm w Hs HP) as (a & w1 & -> & H). by exists a, w1.
Qed.

Lemma g_attempt P (m : IO A) (Q : res A → FS → Prop) :
  gtriple P m (λ a, Q (Ok a)) I → gtriple P (attempt m) Q I.
Proof.
  intros Hm w Hs HP. unfold attempt. destruct (Hm w Hs HP) as (a & w1 & -> & H). by exists (Ok a), w1.
Qed.

Lemma g_conseq P P' (m : IO A) (Q Q' : A → FS → Prop) :
  (∀ f, P f → P' f) → gtriple P' m Q' I → (∀ a f, Q' a f → Q a f) → gtriple P m Q I.
Proof.
  intros HP Hm HQ w Hs Hw. destruct (Hm w Hs (HP _ Hw)) as (a & w' & ? & ? & ? & ?).
  exists a, w'. split_and!; [done..|by apply HQ|done].
Qed.

Lemma g_mono P (m : IO A) (Q : A → FS → Prop) (J : FS → Prop) :
  gtriple P m Q J → (∀ f, J f → I f) → gtriple P m Q I.
Proof.
  intros Hm HJ w Hs HP. destruct (Hm w Hs HP) as (a & w' & ? & ? & ? & new & ? & Hnew).
  exists a, w'. split_and!; [done..|]. exists new. split; [done|]. by eapply Forall_impl.
Qed.

Lemma g_exist {X} (P : X → FS → Prop) (m : IO A) (Q : A → FS → Prop) :
  (∀ x, gtriple (P x) m Q I) → gtriple (λ f, ∃ x, P x f) m Q I.
Proof. intros H w Hs [x HP]. by apply (H x). Qed.

Lemma g_pure P (φ : Prop) (m : IO A) (Q : A → FS → Prop) :
  (φ → gtriple P m Q I) → gtriple (λ f, φ ∧ P f) m Q I.
Proof. intros H w Hs [Hφ HP]. by apply H. Qed.

Lemma g_fix P (m : IO A) (Q : A → FS → Prop) :
  (∀ f0, P f0 → gtriple (.= f0) m Q I) → gtriple P m Q I.
Proof. intros H w Hs HP. by apply (H (fs w)). Qed.

Lemma g_pre P (φ : Prop) (m : IO A) (Q : A → FS → Prop) :
  (∀ f, P f → φ) → (φ → gtriple P m Q I) → gtriple P m Q I.
Proof. intros H Hm w Hs HP. apply Hm; [by eapply H|done..]. Qed.
End gtriple.

(** ** Replacing a file atomically *)
Section atomic_write.
Context (path : string) (data : bytes).
Let tmp := tmp_of path.

Lemma tmp_ne : tmp ≠ path.
Proof.
  unfold tmp, tmp_of. intros H. apply (f_equal String.length) in H.
  assert (∀ a b, String.length (String.append a b) = (String.length a + String.length b)%nat) as Happ.
  { intros a b. induction a as [|c a IH]; [done|]. simpl. f_equal. apply IH. }
  rewrite Happ in H. simpl in H. lia.
Qed.

(** What [path] may hold after a crash. *)
Definition may_hold (f : FS) (c : option bytes) : Prop :=
  ∃ k d0, survives f d0 ∧ foldl apply_rename d0 (take k (pend f)) !! path = c.

(** [path] is only ever written by renaming. *)
Definition settled (f : FS) : Prop := path ∈ (r_to <$> pend f) ∨ vol f !! path = dur f !! path.

Lemma apply_renames_lookup l (d1 d2 : gmap string bytes) :
  d1 !! path = d2 !! path → foldl apply_rename d1 l !! path = foldl apply_rename d2 l !! path.
Proof.
  revert d1 d2. induction l as [|r l IH]; intros d1 d2 H; [done|]. apply IH.
  unfold apply_rename. rewrite !lookup_insert, !lookup_delete. by repeat case_decide.
Qed.

(** Only the entry of [path] matters. *)
Lemma survives_path f g d0 :
  survives f d0 → dur f !! path = dur g !! path → (path ∈ ents g → path ∈ ents f) →
  ∃ d1, survives g d1 ∧ d1 !! path = d0 !! path.
Proof.
  intros Hs Hd He. exists (partial_alter (λ _, d0 !! path) path (dur g)). split; [|by rewrite lookup_partial_alter_eq].
  intros n. destruct (decide (n = path)) as [->|Hne]; [|left; by rewrite lookup_partial_alter_ne].
  rewrite lookup_partial_alter_eq. destruct (Hs path) as [->|[Hn ->]]; [by left|right]. split; [auto|done].
Qed.

Lemma may_hold_ext f g c :
  dur f !! path = dur g !! path → pend f = pend g → (path ∈ ents g → path ∈ ents f) → may_hold f c → may_hold g c.
Proof.
  intros Hd Hp He (k & d0 & Hs & <-). destruct (survives_path f g d0 Hs Hd He) as (d1 & H1 & H2).
  exists k, d1. split; [done|]. rewrite <- Hp. by apply apply_renames_lookup.
Qed.

Lemma survives_dur f : survives f (dur f).
Proof. intros n. by left. Qed.

Lemma crash_may_hold f g : settled f → crash f g → may_hold f (vol g !! path).
Proof.
  intros Hs (k & d0 & Hd0 & Hren & Hother & _).
  assert (renamed path f ∨ ¬ renamed path f) as [Hr|Hr].
  { unfold renamed.
    destruct (decide (path ∈ (r_from <$> pend f))), (decide (path ∈ (r_to <$> pend f))); tauto. }
  - exists k, d0. split; [done|]. symmetry. by apply Hren.
  - destruct Hs as [?|Hs]; [exfalso; apply Hr; by right|]. exists 0%nat. destruct (Hother path Hr) as [Hc|[He ->]].
    + exists (dur f). split; [apply survives_dur|]. cbn. rewrite Hs in Hc.
      destruct (dur f !! path) as [d|] eqn:Hd, (vol g !! path) as [c|]; simpl in *; rewrite ?Hd; try done.
      rewrite decide_True in Hc by done. f_equal. destruct Hc as [H1 H2]. by apply (anti_symm prefix).
    + exists (delete path (dur f)). split; [|by apply lookup_delete_eq].
      intros n. destruct (decide (n = path)) as [->|Hne]; [right; by rewrite lookup_delete_eq|left; by rewrite lookup_delete_ne].
Qed.

(** The state of [path], which only the rename and the directory fsync change. *)
Definition path_state (f : FS) := (vol f !! path, dur f !! path, pend f).

Context (f0 : FS).

Definition at_start (f : FS) : Prop := path_state f = path_state f0 ∧ (path ∈ ents f0 ↔ path ∈ ents f).
Definition renamed_to_data (f : FS) : Prop :=
  vol f !! path = Some data ∧ dur f !! path = dur f0 !! path ∧
  pend f = pend f0 ++ [mkRename tmp path data] ∧ (path ∈ ents f0 → path ∈ ents f).
Definition replaced (f : FS) : Prop :=
  vol f !! path = Some data ∧ dur f !! path = Some data ∧ pend f = [] ∧ path ∈ ents f.

(** Every crash point leaves an old or the new contents. *)
Definition old_or_new (f : FS) : Prop := at_start f ∨ renamed_to_data f ∨ replaced f.

Lemma old_or_new_may_hold f c : old_or_new f → may_hold f c → may_hold f0 c ∨ c = Some data.
Proof.
  intros [Hf|[(_ & Hd & Hp & He)|(_ & Hd & Hp & He)]] Hc.
  - destruct Hf as [[= _ Hd Hp] He]. left. apply (may_hold_ext f); try done. apply He.
  - destruct Hc as (k & d0 & Hs & <-). rewrite Hp, take_app, foldl_app.
    destruct (k - length (pend f0))%nat as [|j]; simpl.
    + left. destruct (survives_path f f0 d0 Hs Hd He) as (d1 & H1 & H2). exists k, d1. split; [done|].
      by apply apply_renames_lookup.
    + right. rewrite take_nil. simpl. unfold apply_rename at 1. simpl. by rewrite lookup_insert_eq.
  - destruct Hc as (k & d0 & Hs & <-). rewrite Hp, take_nil. right. cbn. by destruct (Hs path) as [->|[? _]].
Qed.

(** Files that are neither [path], nor its temporary file, nor being renamed. *)
Definition frame (f : FS) : Prop :=
  ∀ n, n ≠ path → n ≠ tmp → ¬ renamed n f0 →
    vol f !! n = vol f0 !! n ∧ dur f !! n = dur f0 !! n ∧ (n ∈ ents f0 → n ∈ ents f).

Definition crash_inv (f : FS) : Prop := old_or_new f ∧ frame f.

(** The assertions between the calls. *)
Definition writing (v d : option bytes → Prop) (f : FS) : Prop :=
  at_start f ∧ frame f ∧ v (vol f !! tmp) ∧ d (dur f !! tmp).

Let any (_ : option bytes) : Prop := True.

Lemma at_start_set f v : at_start f → v !! path = vol f !! path → at_start (set_vol v f).
Proof. intros [Hf He] Hv. split; [|done]. unfold path_state in *. simpl. by rewrite Hv. Qed.

Lemma frame_tmp f b : frame f → frame (set_vol (<[tmp := b]> (vol f)) f).
Proof. intros Hf n H1 H2 H3. simpl. rewrite lookup_insert_ne by done. by apply Hf. Qed.

Lemma writing_tmp f b v d : writing v d f → writing (.= Some b) d (set_vol (<[tmp := b]> (vol f)) f).
Proof.
  intros (Hs & Hf & _ & Hd). split_and!; [|by apply frame_tmp|by apply lookup_insert_eq|done].
  apply at_start_set; [done|]. apply lookup_insert_ne, tmp_ne.
Qed.

Lemma writing_inv v d f : writing v d f → crash_inv f.
Proof. intros (Hs & Hf & _). split; [by left|done]. Qed.

Lemma writing_any v d f : writing v d f → writing any any f.
Proof. intros (? & ? & _). done. Qed.

Lemma open_trunc_triple :
  triple (writing any any) (open_trunc tmp)
    (λ r f, match r with Ok _ => writing (.= Some []) any f | Err _ => writing any any f end) crash_inv.
Proof.
  apply triple_call. intros [|n] f Hf; simpl.
  - pose proof (writing_tmp f [] _ _ Hf). eauto using writing_inv.
  - eauto using writing_inv.
Qed.

Lemma write_triple :
  triple (writing (.= Some []) any) (write tmp data)
    (λ r f, match r with Ok _ => writing (.= Some data) any f | Err _ => writing any any f end) crash_inv.
Proof.
  apply triple_call. intros o f Hf. pose proof Hf as (_ & _ & Hv & _).
  destruct o as [|n]; simpl; rewrite Hv; simpl.
  - pose proof (writing_tmp f data _ _ Hf). eauto using writing_inv.
  - pose proof (writing_tmp f (take n data) _ _ Hf). eauto using writing_inv, writing_any.
Qed.

Lemma fsync_triple :
  triple (writing (.= Some data) any) (fsync tmp)
    (λ r f, match r with
            | Ok _ => writing (.= Some data) (.= Some data) f
            | Err _ => writing any any f
            end) crash_inv.
Proof.
  apply triple_call. intros o f Hf. destruct o as [|n]; simpl; [|eauto using writing_inv, writing_any].
  destruct Hf as (Hs & Hf & Hv & _).
  assert (writing (.= Some data) (.= Some data) (set_dur tmp f)) as Hw.
  { split_and!; [| |done|simpl; by rewrite lookup_insert_eq, Hv].
    - destruct Hs as [Hs He]. split; [|done]. unfold path_state in *. simpl. rewrite lookup_insert_ne by apply tmp_ne. done.
    - intros n H1 H2 H3. simpl. rewrite lookup_insert_ne by done. by apply Hf. }
  eauto using writing_inv.
Qed.

(** A call that does not touch the files. *)
Lemma idle_triple P : (∀ f, P f → crash_inv f) → triple P close (λ _, P) crash_inv.
Proof. intros HP. apply triple_call. intros [|n] f Hf; simpl; eauto. Qed.

Lemma frame_rename f : frame f → frame (mkFS (<[path := default [] (vol f !! tmp)]> (delete tmp (vol f)))
  (dur f) (pend f ++ [mkRename tmp path (default [] (dur f !! tmp))]) (ents f)).
Proof.
  intros Hf n H1 H2 H3. simpl. rewrite lookup_insert_ne, lookup_delete_ne by done. by apply Hf.
Qed.

Lemma rename_triple :
  triple (writing (.= Some data) (.= Some data)) (rename_file tmp path)
    (λ r f, match r with
            | Ok _ => renamed_to_data f ∧ frame f
            | Err _ => writing any any f
            end) crash_inv.
Proof.
  apply triple_call. intros o f Hf. destruct o as [|n]; simpl; [|eauto using writing_inv, writing_any].
  destruct Hf as (Hs & Hf & Hv & Hd). apply frame_rename in Hf. rewrite Hv, Hd in Hf |- *. simpl in *.
  destruct Hs as [[= _ Hdp Hp] He].
  assert (renamed_to_data (mkFS (<[path := data]> (delete tmp (vol f))) (dur f)
    (pend f ++ [mkRename tmp path data]) (ents f))) as Hr.
  { split_and!; simpl; [apply lookup_insert_eq|done|by rewrite Hp|apply He]. }
  split; [done|]. split; [by right; left|done].
Qed.

Lemma foldl_rename_frame l d n :
  n ∉ (r_from <$> l) → n ∉ (r_to <$> l) → foldl apply_rename d l !! n = d !! n.
Proof.
  revert d. induction l as [|r l IH]; intros d H1 H2; [done|]. csimpl in *.
  rewrite not_elem_of_cons in H1, H2. destruct H1, H2. rewrite IH by done.
  unfold apply_rename. rewrite lookup_insert_ne, lookup_delete_ne by congruence. done.
Qed.

Lemma sync_dir_triple :
  triple (λ f, renamed_to_data f ∧ frame f) sync_dir
    (λ r f, match r with Ok _ => replaced f | Err _ => renamed_to_data f end ∧ frame f) crash_inv.
Proof.
  apply triple_call. intros o f [Hr Hf]. destruct o as [|n]; simpl.
  2:{ split; [done|]. split; [by right; left|done]. }
  destruct Hr as (Hv & Hd & Hp & _).
  assert (replaced (sync_entries f)) as Hrep.
  { split_and!; simpl; [done| |done|].
    - rewrite Hp, foldl_app. apply lookup_insert_eq.
    - apply elem_of_union. right. by apply elem_of_dom_2 in Hv. }
  assert (frame (sync_entries f)) as Hfr.
  { intros n H1 H2 H3. simpl. destruct (Hf n H1 H2 H3) as (-> & <- & He). split; [done|]. split; [|set_solver].
    apply foldl_rename_frame; rewrite Hp, fmap_app, not_elem_of_app; simpl;
      rewrite list_elem_of_singleton; (split; [intros ?; apply H3; unfold renamed; tauto|done]). }
  split; [done|]. split; [by right; right|done].
Qed.

Definition write_post (r : res unit) (f : FS) : Prop :=
  crash_inv f ∧ (r = Ok () → replaced f).

(** Removing the temporary file changes nothing for [path]. *)
Lemma remove_triple r : triple (write_post r) (remove tmp) (λ _, write_post r) crash_inv.
Proof.
  apply triple_call. intros o f [[Ho Hf] Hr]. pose proof tmp_ne as Hne. fold tmp in Hne.
  destruct o as [|n]; simpl; [|done]. destruct (vol f !! tmp); simpl; [|done].
  set (g := mkFS _ _ _ _).
  assert (path ∈ ents f → path ∈ ents g) as He by (cbn; set_solver).
  assert (vol g !! path = vol f !! path) as Hv by (cbn; by rewrite lookup_delete_ne).
  assert (crash_inv g) as Hinv.
  { split.
    - destruct Ho as [[Ho He']|[(?&?&?&?)|(?&?&?&?)]]; [left|right; left|right; right].
      + split; [unfold path_state in *; by rewrite Hv|]. cbn. set_solver.
      + split_and!; try done; [by rewrite Hv|auto].
      + split_and!; try done; [by rewrite Hv|auto].
    - intros n H1 H2 H3. destruct (Hf n H1 H2 H3) as (? & ? & ?). cbn. rewrite lookup_delete_ne by done. set_solver. }
  split; [|done]. split; [done|]. intros ->. destruct (Hr eq_refl) as (H1 & H2 & H3 & H4).
  split_and!; [by rewrite Hv|done|done|auto].
Qed.

Lemma failed_post e f : writing any any f → write_post (Err e) f.
Proof. intros Hf. split; [by eapply writing_inv|done]. Qed.

Lemma renamed_inv f : renamed_to_data f ∧ frame f → crash_inv f.
Proof. intros [? ?]. split; [by right; left|done]. Qed.

Lemma replaced_post r f :
  match r with Ok _ => replaced f | Err _ => renamed_to_data f end ∧ frame f → write_post r f.
Proof.
  intros [H Hf]. destruct r as [[]|e].
  - split; [split; [by right; right|done]|done].
  - split; [split; [by right; left|done]|done].
Qed.

Lemma atomicWriteFile_triple :
  triple (writing any any) (atomicWriteFile path data) write_post crash_inv.
Proof.
  unfold atomicWriteFile. fold tmp.
  eapply triple_bind; [apply open_trunc_triple| |intros; by apply failed_post]. intros [].
  eapply triple_finally; [|apply remove_triple].
  eapply (triple_bind _ _ (λ r f, match r with Ok _ => writing (.= Some data) any f | Err _ => writing any any f end));
    [eapply triple_on_error; [apply write_triple|done|]|intros []|intros; by apply failed_post].
  { intros e. apply idle_triple, writing_inv. }
  eapply (triple_bind _ _ (λ r f, match r with Ok _ => writing (.= Some data) (.= Some data) f | Err _ => writing any any f end));
    [eapply triple_on_error; [apply fsync_triple|done|]|intros []|intros; by apply failed_post].
  { intros e. apply idle_triple, writing_inv. }
  eapply triple_bind; [apply idle_triple, writing_inv|intros []|intros e f Hf; eapply failed_post, writing_any, Hf].
  eapply triple_bind; [apply rename_triple|intros []|intros; by apply failed_post].
  eapply triple_bind; [apply (idle_triple _ renamed_inv)|intros []|].
  { eapply triple_finally; [apply sync_dir_triple|intros r].
    eapply triple_conseq; [intros f Hf; exact Hf|apply idle_triple|intros r' f; apply replaced_post].
    intros f Hf. by apply (replaced_post r). }
  intros e f Hf. apply (replaced_post (Err e)). done.
Qed.
End atomic_write.

(** What a crash during the replacement leaves. *)
Lemma crash_inv_crash path data f0 f g :
  settled path f0 → crash_inv path data f0 f → crash f g →
  may_hold path f0 (vol g !! path) ∨ vol g !! path = Some data.
Proof.
  intros Hs [Ho Hf] Hc. apply (old_or_new_may_hold path data f0 f); [done|]. apply crash_may_hold; [|done].
  destruct Ho as [[[= Hv Hd Hp] _]|[(Hv & _ & Hp & _)|(Hv & Hd & _)]].
  - unfold settled. by rewrite Hv, Hd, Hp.
  - left. rewrite Hp, fmap_app, elem_of_app. right. simpl. by left.
  - right. by rewrite Hv, Hd.
Qed.

(** Once replaced, the file survives every crash. *)
Lemma replaced_crash path data f g : replaced path data f → crash f g → vol g !! path = Some data.
Proof.
  intros (Hv & Hd & Hp & He) Hc. apply (crash_may_hold path) in Hc as (k & d0 & Hs & Hk); [|right; by rewrite Hv, Hd].
  rewrite Hp, take_nil in Hk. cbn in Hk. rewrite <- Hk. by destruct (Hs path) as [->|[? _]].
Qed.

(** When no call fails, the file is replaced. *)
Lemma atomicWriteFile_succeeds path data w :
  script w = [] → (atomicWriteFile path data w).1 = Ok () ∧ script (atomicWriteFile path data w).2 = [].
Proof.
  destruct w as [f sc h]. simpl. intros ->.
  unfold atomicWriteFile, finally, on_error, bind, open_trunc, write, fsync, close, rename_file, open_dir,
    sync_dir, remove, call, on_good. simpl. repeat case_match; simplify_eq/=; done.
Qed.

Lemma atomicWriteFile_good path data f0 :
  gtriple (.= f0) (atomicWriteFile path data) (λ _ f, replaced path data f ∧ frame path f0 f)
    (crash_inv path data f0).
Proof.
  intros w Hs Hf. pose proof (atomicWriteFile_triple path data f0 w) as Ht.
  destruct (atomicWriteFile_succeeds path data w Hs) as [Hr Hsc].
  destruct (atomicWriteFile path data w) as [r w']. simpl in *. subst r. exists (), w'.
  destruct Ht as (([_ Hfr] & Hrep) & Hnew); [by subst f0|]. by destruct (Hrep eq_refl).
Qed.

(** C8 (atomic replacement): whichever system calls of [atomicWriteFile] fail and
    wherever a crash strikes, the path holds one of the contents it could have
    held before the call or exactly the new data, never a mixture; when the call
    returns [nil] the new data is in place and survives every later crash; no
    file but the target and its temporary changes. *)
Theorem atomicWriteFile_crash_safe path data w :
  settled path (fs w) →
  let (r, w') := atomicWriteFile path data w in
  (∃ new, hist w' = new ++ hist w ∧
     Forall (λ f, ∀ g, crash f g →
       may_hold path (fs w) (vol g !! path) ∨ vol g !! path = Some data) new) ∧
  (r = Ok () → vol (fs w') !! path = Some data ∧
     ∀ g, crash (fs w') g → vol g !! path = Some data) ∧
  (∀ n, n ≠ path → n ≠ tmp_of path → ¬ renamed n (fs w) → vol (fs w') !! n = vol (fs w) !! n).
Proof.
  intros Hs. pose proof (atomicWriteFile_triple path data (fs w) w) as Ht.
  destruct (atomicWriteFile path data w) as [r w'].
  destruct Ht as ((Hinv & Hrep) & new & Hh & Hnew); [done|]. split_and!.
  - exists new. split; [done|]. eapply Forall_impl; [exact Hnew|]. intros f Hf g Hc.
    by apply (crash_inv_crash path data (fs w) f g).
  - intros Hr. split; [by apply Hrep|]. intros g. by apply (replaced_crash path data), Hrep.
  - intros n H1 H2 H3. destruct Hinv as [_ Hf]. by apply Hf.
Qed.

Lemma atomicWriteFile_crash_safe_witness :
  let old : gmap string bytes := {["snapshot.dat"%string := bytes_of_string "old"]} in
  let w := mkWorld (at_rest old) [Good; Good; Good; Good; Good; Good; Bad 0] [] in
  let data := bytes_of_string "new" in
  let (r, w') := atomicWriteFile "snapshot.dat" data w in
  (∃ new, hist w' = new ++ hist w ∧
     Forall (λ f, ∀ g, crash f g →
       may_hold "snapshot.dat" (fs w) (vol g !! "snapshot.dat"%string) ∨
       vol g !! "snapshot.dat"%string = Some data) new) ∧
  (r = Ok () → vol (fs w') !! "snapshot.dat"%string = Some data ∧
     ∀ g, crash (fs w') g → vol g !! "snapshot.dat"%string = Some data) ∧
  (∀ n, n ≠ "snapshot.dat"%string → n ≠ tmp_of "snapshot.dat" → ¬ renamed n (fs w) →
     vol (fs w') !! n = vol (fs w) !! n).
Proof. intros old w data. apply (atomicWriteFile_crash_safe "snapshot.dat" data w). right. reflexivity. Defined.
