(* ===== verification/Json.v ===== *)
(** * Json: encoding/json as the sources use it

    String literals with Go's escaping and its coercion of invalid UTF-8, the
    JSON grammar, and the compact printer of [json.Marshal].  Reading what was
    printed gives the value back, with every byte that is not UTF-8 replaced by
    U+FFFD.  The nesting limit of the decoder (10000) is left out. *)

From S2P Require Import Prelude GoLib.
From Stdlib Require Import DecimalString DecimalZ DecimalFacts DecimalPos DecimalN.

#[local] Set Warnings "-register-all".

(** ** unicode/utf8 *)

Definition between (lo hi : Z) (b : ascii) : bool := (lo <=? Z_of_byte b) && (Z_of_byte b <=? hi).
Definition cont (b : ascii) : bool := between 0x80 0xBF b.

(** [utf8.DecodeRune]: the size of the valid multi-byte sequence the bytes start
    with; [None] stands for [(RuneError, 1)]. *)
Definition rune_size (s : bytes) : option nat :=
  match s with
  | b0 :: b1 :: s =>
      if between 0xC2 0xDF b0 then if cont b1 then Some 2%nat else None
      else
        match s with
        | b2 :: s =>
            let lo := if Z_of_byte b0 =? 0xE0 then 0xA0 else 0x80 in
            let hi := if Z_of_byte b0 =? 0xED then 0x9F else 0xBF in
            if between 0xE0 0xEF b0 then if between lo hi b1 && cont b2 then Some 3%nat else None
            else
              match s with
              | b3 :: _ =>
                  let lo := if Z_of_byte b0 =? 0xF0 then 0x90 else 0x80 in
                  let hi := if Z_of_byte b0 =? 0xF4 then 0x8F else 0xBF in
                  if between 0xF0 0xF4 b0 then
                    if between lo hi b1 && cont b2 && cont b3 then Some 4%nat else None
                  else None
              | [] => None
              end
        | [] => None
        end
  | _ => None
  end.

(** U+FFFD. *)
Definition replacement : bytes := byte_of_Z <$> [0xEF; 0xBF; 0xBD].

(** [utf8.AppendRune] on a rune that is not a surrogate. *)
Definition append_rune (r : Z) : bytes :=
  byte_of_Z <$>
    (if r <? 0x80 then [r]
     else if r <? 0x800 then [0xC0 + r / 64; 0x80 + r mod 64]
     else if r <? 0x10000 then [0xE0 + r / 4096; 0x80 + r / 64 mod 64; 0x80 + r mod 64]
     else [0xF0 + r / 262144; 0x80 + r / 4096 mod 64; 0x80 + r / 64 mod 64; 0x80 + r mod 64]).

(** Bytes with every invalid one replaced by U+FFFD ([strings.ToValidUTF8] per
    byte): what a string becomes in a JSON document. *)
Fixpoint coerce_loop (fuel : nat) (s : bytes) : bytes :=
  match fuel, s with
  | S fuel, b :: s' =>
      if Z_of_byte b <? 0x80 then b :: coerce_loop fuel s'
      else
        match rune_size s with
        | None => replacement ++ coerce_loop fuel s'
        | Some n => take n s ++ coerce_loop fuel (drop n s)
        end
  | _, _ => []
  end.
Definition coerce (s : string) : string :=
  string_of_bytes (coerce_loop (String.length s) (bytes_of_string s)).

(** [utf8.ValidString]. *)
Fixpoint valid_loop (fuel : nat) (s : bytes) : bool :=
  match fuel, s with
  | S fuel, b :: s' =>
      if Z_of_byte b <? 0x80 then valid_loop fuel s'
      else match rune_size s with None => false | Some n => valid_loop fuel (drop n s) end
  | _, _ => true
  end.
Definition ValidString (s : string) : bool := valid_loop (String.length s) (bytes_of_string s).

(** ** String literals *)

Definition dquote : ascii := "034".
Definition backslash : ascii := "092".

Definition hex (d : Z) : ascii := byte_of_Z (if d <? 10 then 48 + d else 87 + d).

(** The escape [\u00xx]. *)
Definition u00 (b : ascii) : bytes :=
  [backslash; "u"%char; "0"%char; "0"%char; hex (Z_of_byte b / 16); hex (Z_of_byte b mod 16)].

(** The [htmlSafeSet] of encoding/json, on ASCII. *)
Definition html_safe (b : ascii) : bool :=
  (0x20 <=? Z_of_byte b) && negb (bool_decide (b ∈ [dquote; backslash; "<"%char; ">"%char; "&"%char])).

Definition escape (b : ascii) : bytes :=
  if html_safe b then [b]
  else if bool_decide (b = dquote) || bool_decide (b = backslash) then [backslash; b]
  else if Z_of_byte b =? 8 then [backslash; "b"%char]
  else if Z_of_byte b =? 12 then [backslash; "f"%char]
  else if Z_of_byte b =? 10 then [backslash; "n"%char]
  else if Z_of_byte b =? 13 then [backslash; "r"%char]
  else if Z_of_byte b =? 9 then [backslash; "t"%char]
  else u00 b.

(** U+2028 and U+2029, which encoding/json escapes for JavaScript. *)
Definition line_sep (b : Z) : bytes := byte_of_Z <$> [0xE2; 0x80; b].

(** [appendString] with [escapeHTML], without the quotes. *)
Fixpoint quote_loop (fuel : nat) (s : bytes) : bytes :=
  match fuel, s with
  | S fuel, b :: s' =>
      if Z_of_byte b <? 0x80 then escape b ++ quote_loop fuel s'
      else
        match rune_size s with
        | None => [backslash] ++ bytes_of_string "ufffd" ++ quote_loop fuel s'
        | Some n =>
            (if bool_decide (take n s = line_sep 0xA8) then [backslash] ++ bytes_of_string "u2028"
             else if bool_decide (take n s = line_sep 0xA9) then [backslash] ++ bytes_of_string "u2029"
             else take n s) ++ quote_loop fuel (drop n s)
        end
  | _, _ => []
  end.
Definition quote (s : string) : bytes :=
  [dquote] ++ quote_loop (String.length s) (bytes_of_string s) ++ [dquote].

Definition unhex (b : ascii) : option Z :=
  let z := Z_of_byte b in
  if between 48 57 b then Some (z - 48)
  else if between 97 102 b then Some (z - 87)
  else if between 65 70 b then Some (z - 55)
  else None.

(** [getu4] on what follows [\u]: the code unit and the rest. *)
Definition getu4 (s : bytes) : option (Z * bytes) :=
  match s with
  | a :: b :: c :: d :: s =>
      match unhex a, unhex b, unhex c, unhex d with
      | Some a, Some b, Some c, Some d => Some (((a * 16 + b) * 16 + c) * 16 + d, s)
      | _, _, _, _ => None
      end
  | _ => None
  end.

Definition surrogate (r : Z) : bool := (0xD800 <=? r) && (r <=? 0xDFFF).

(** A low surrogate escaped right after a high one ([utf16.DecodeRune]). *)
Definition low_surrogate (r : Z) (s : bytes) : option (Z * bytes) :=
  match s with
  | b :: u :: s =>
      if bool_decide (b = backslash) && bool_decide (u = "u"%char) then
        match getu4 s with
        | Some (r2, s) =>
            if (r <? 0xDC00) && (0xDC00 <=? r2) && (r2 <=? 0xDFFF)
            then Some ((r - 0xD800) * 1024 + (r2 - 0xDC00) + 0x10000, s) else None
        | None => None
        end
      else None
  | _ => None
  end.

(** The character an escape letter stands for. *)
Definition unescape (e : ascii) : option ascii :=
  if bool_decide (e ∈ [dquote; backslash; "/"%char]) then Some e
  else if bool_decide (e = "b"%char) then Some "008"%char
  else if bool_decide (e = "f"%char) then Some "012"%char
  else if bool_decide (e = "n"%char) then Some "010"%char
  else if bool_decide (e = "r"%char) then Some "013"%char
  else if bool_decide (e = "t"%char) then Some "009"%char
  else None.

(** [prepend l r]: [l] before the string that was read. *)
Definition prepend (l : bytes) (r : option (bytes * bytes)) : option (bytes * bytes) :=
  match r with Some (t, rest) => Some (l ++ t, rest) | None => None end.

(** The scanner and [unquote] on what follows the opening quote: the string and
    what follows the closing quote. *)
Fixpoint unquote_loop (fuel : nat) (s : bytes) : option (bytes * bytes) :=
  match fuel, s with
  | S fuel, b :: s' =>
      if bool_decide (b = dquote) then Some ([], s')
      else if bool_decide (b = backslash) then
        match s' with
        | [] => None
        | e :: s' =>
            if bool_decide (e = "u"%char) then
              match getu4 s' with
              | None => None
              | Some (r, s') =>
                  if surrogate r then
                    match low_surrogate r s' with
                    | Some (r, s') => prepend (append_rune r) (unquote_loop fuel s')
                    | None => prepend replacement (unquote_loop fuel s')
                    end
                  else prepend (append_rune r) (unquote_loop fuel s')
              end
            else
              match unescape e with
              | None => None
              | Some c => prepend [c] (unquote_loop fuel s')
              end
        end
      else if Z_of_byte b <? 0x20 then None
      else if Z_of_byte b <? 0x80 then prepend [b] (unquote_loop fuel s')
      else
        match rune_size s with
        | None => prepend replacement (unquote_loop fuel s')
        | Some n => prepend (take n s) (unquote_loop fuel (drop n s))
        end
  | _, _ => None
  end.

(** ** Reading back a literal *)

Lemma rune_size_spec s n : rune_size s = Some n →
  (2 <= n <= length s)%nat ∧ ∀ t, rune_size (take n s ++ t) = Some n.
Proof.
  destruct s as [|b0 [|b1 s]]; [done..|]. unfold rune_size at 1.
  destruct (between 0xC2 0xDF b0) eqn:E2.
  { destruct (cont b1) eqn:C1; [|done]. intros [= <-]. split; [simpl; lia|].
    intros t. simpl. by rewrite E2, C1. }
  destruct s as [|b2 s]; [done|]. cbn zeta. destruct (between 0xE0 0xEF b0) eqn:E3.
  { match goal with |- (if ?b then _ else _) = _ → _ => destruct b eqn:C end; [|done].
    intros [= <-]. split; [simpl; lia|]. intros t. simpl. by rewrite E2, E3, C. }
  destruct s as [|b3 s]; [done|]. destruct (between 0xF0 0xF4 b0) eqn:E4; [|done].
  match goal with |- (if ?b then _ else _) = _ → _ => destruct b eqn:C end; [|done].
  intros [= <-]. split; [simpl; lia|]. intros t. simpl. by rewrite E2, E3, E4, C.
Qed.

(** An escaped ASCII character is read back by one step of [unquote]. *)
Lemma unquote_escape f b t : Z_of_byte b < 0x80 →
  unquote_loop (S f) (escape b ++ t) = prepend [b] (unquote_loop f t).
Proof. intros H. by destruct b as [[] [] [] [] [] [] [] []]; try (vm_compute in H; discriminate). Qed.

Lemma escape_nonempty b : (1 <= length (escape b))%nat.
Proof. unfold escape, u00. by repeat case_match; simpl; lia. Qed.

Lemma unquote_high f b s : 0x80 <= Z_of_byte b →
  unquote_loop (S f) (b :: s) =
    match rune_size (b :: s) with
    | None => prepend replacement (unquote_loop f s)
    | Some n => prepend (take n (b :: s)) (unquote_loop f (drop n (b :: s)))
    end.
Proof.
  intros Hb. cbn [unquote_loop].
  rewrite bool_decide_false by (intros ->; vm_compute in Hb; done).
  rewrite bool_decide_false by (intros ->; vm_compute in Hb; done).
  by rewrite (proj2 (Z.ltb_ge _ _)), (proj2 (Z.ltb_ge _ _)) by lia.
Qed.

Lemma unquote_rune f s n t : rune_size s = Some n → (∃ b s', s = b :: s' ∧ 0x80 <= Z_of_byte b) →
  unquote_loop (S f) (take n s ++ t) = prepend (take n s) (unquote_loop f t).
Proof.
  intros Hn (b & s' & -> & Hb). destruct (rune_size_spec _ _ Hn) as [[H2 Hlen] Hn'].
  destruct n as [|n]; [lia|]. specialize (Hn' t). cbn [take app] in *. rewrite unquote_high, Hn' by done.
  cbn [length] in Hlen. cbn [take drop]. rewrite take_app_length', drop_app_length'; [done|..];
    rewrite length_take; lia.
Qed.

Lemma unquote_sep8 f t :
  unquote_loop (S f) (([backslash] ++ bytes_of_string "u2028") ++ t) = prepend (line_sep 0xA8) (unquote_loop f t).
Proof. reflexivity. Qed.

Lemma unquote_sep9 f t :
  unquote_loop (S f) (([backslash] ++ bytes_of_string "u2029") ++ t) = prepend (line_sep 0xA9) (unquote_loop f t).
Proof. reflexivity. Qed.

Lemma unquote_fffd f t :
  unquote_loop (S f) ([backslash] ++ bytes_of_string "ufffd" ++ t) = prepend replacement (unquote_loop f t).
Proof. reflexivity. Qed.

Lemma unquote_quote fuel fuel' s rest :
  (length s <= fuel)%nat → (length (quote_loop fuel s) < fuel')%nat →
  unquote_loop fuel' (quote_loop fuel s ++ dquote :: rest) = Some (coerce_loop fuel s, rest).
Proof.
  revert fuel' s. induction fuel as [|fuel IH]; intros fuel' s Hs Hf.
  { destruct s; [|simpl in *; lia]. destruct fuel'; [simpl in *; lia|done]. }
  destruct fuel' as [|fuel']; [lia|]. destruct s as [|b s]; [done|].
  cbn [quote_loop coerce_loop length] in *. destruct (Z_of_byte b <? 0x80) eqn:Hb; bool_prop.
  { rewrite length_app in Hf. pose proof (escape_nonempty b).
    rewrite <- app_assoc, unquote_escape, IH by (lia || done). done. }
  destruct (rune_size (b :: s)) as [n|] eqn:Hn.
  - destruct (rune_size_spec _ _ Hn) as [[H2 Hlen] _]. cbn [length] in Hlen.
    assert (length (drop n (b :: s)) <= fuel)%nat as Hd by (rewrite length_drop; simpl; lia).
    rewrite length_app in Hf. rewrite <- app_assoc.
    case_bool_decide as H8; [|case_bool_decide as H9]; rewrite ?H8, ?H9.
    + rewrite unquote_sep8, IH; [done|lia|]. rewrite length_app in Hf. cbn [length] in Hf. lia.
    + rewrite unquote_sep9, IH; [done|lia|]. rewrite length_app in Hf. cbn [length] in Hf. lia.
    + rewrite length_take in Hf. cbn [length] in Hf. by rewrite unquote_rune, IH by (eauto 6 || lia).
  - rewrite !length_app in Hf. cbn [length] in Hf.
    by rewrite <- !app_assoc, unquote_fffd, IH by lia.
Qed.

Lemma valid_coerce_loop fuel s :
  (length s <= fuel)%nat → valid_loop fuel s = true → coerce_loop fuel s = s.
Proof.
  revert s. induction fuel as [|fuel IH]; intros [|b s] Hs Hv;
    cbn [valid_loop coerce_loop length] in *; [done|lia|done|].
  destruct (Z_of_byte b <? 0x80); [by rewrite IH by (lia || done)|].
  destruct (rune_size (b :: s)) as [n|] eqn:Hn; [|done].
  destruct (rune_size_spec _ _ Hn) as [[H2 _] _].
  rewrite IH by (done || (rewrite length_drop; simpl; lia)). apply take_drop.
Qed.

Lemma length_bytes_of_string s : length (bytes_of_string s) = String.length s.
Proof. induction s as [|a s IH]; [done|]. simpl. by rewrite <- IH. Qed.

Lemma coerce_valid s : ValidString s = true → coerce s = s.
Proof.
  intros H. unfold coerce. rewrite valid_coerce_loop; [|by rewrite length_bytes_of_string|done].
  apply string_of_bytes_of_string.
Qed.

(** ** Values *)

Inductive json : Type :=
| JNull
| JBool (b : bool)
| JNum (lit : string)
| JStr (s : string)
| JArr (l : list json)
| JObj (l : list (string * json)).

(** The grammar of number literals ([isValidNumber]). *)
Definition digit (b : ascii) : bool := between 48 57 b.

Fixpoint skip_digits (s : bytes) : bytes :=
  match s with
  | b :: s' => if digit b then skip_digits s' else s
  | [] => []
  end.

Definition valid_exp (s : bytes) : bool :=
  match s with
  | [] => true
  | e :: s =>
      if bool_decide (e ∈ ["e"%char; "E"%char]) then
        let s := match s with
                 | b :: s' => if bool_decide (b ∈ ["+"%char; "-"%char]) then s' else s
                 | [] => []
                 end in
        match s with
        | b :: s => digit b && bool_decide (skip_digits s = [])
        | [] => false
        end
      else false
  end.

Definition valid_frac (s : bytes) : bool :=
  match s with
  | "."%char :: b :: s => digit b && valid_exp (skip_digits s)
  | "."%char :: [] => false
  | s => valid_exp s
  end.

Definition valid_number (s : bytes) : bool :=
  let s := match s with "-"%char :: s => s | s => s end in
  match s with
  | "0"%char :: s => valid_frac s
  | b :: s => digit b && valid_frac (skip_digits s)
  | [] => false
  end.

(** The characters of number literals; the scanner takes the longest run. *)
Definition num_char (b : ascii) : bool :=
  digit b || bool_decide (b ∈ ["+"%char; "-"%char; "."%char; "e"%char; "E"%char]).

Fixpoint span_num (s : bytes) : bytes * bytes :=
  match s with
  | b :: s' => if num_char b then let (l, r) := span_num s' in (b :: l, r) else ([], s)
  | [] => ([], [])
  end.

Definition space (b : ascii) : bool := bool_decide (b ∈ [" "%char; "009"%char; "010"%char; "013"%char]).

Fixpoint skip_ws (s : bytes) : bytes :=
  match s with
  | b :: s' => if space b then skip_ws s' else s
  | [] => []
  end.

(** [expect c s]: what follows the character [c], after white space. *)
Definition expect (c : ascii) (s : bytes) : option bytes :=
  match skip_ws s with
  | b :: s => if bool_decide (b = c) then Some s else None
  | [] => None
  end.

Definition parse_literal (s : bytes) : option (json * bytes) :=
  if bool_decide (take 4 s = bytes_of_string "null") then Some (JNull, drop 4 s)
  else if bool_decide (take 4 s = bytes_of_string "true") then Some (JBool true, drop 4 s)
  else if bool_decide (take 5 s = bytes_of_string "false") then Some (JBool false, drop 5 s)
  else
    let (lit, rest) := span_num s in
    if valid_number lit then Some (JNum (string_of_bytes lit), rest) else None.

(** The value parser; [parse_elems] and [parse_members] read what follows the
    bracket or the comma of a non-empty array or object. *)
Fixpoint parse_value (fuel : nat) (s : bytes) : option (json * bytes) :=
  match fuel with
  | O => None
  | S fuel =>
      match skip_ws s with
      | [] => None
      | b :: r =>
          if bool_decide (b = "{"%char) then
            match expect "}" r with
            | Some r => Some (JObj [], r)
            | None => '(l, r) ← parse_members fuel r; Some (JObj l, r)
            end
          else if bool_decide (b = "["%char) then
            match expect "]" r with
            | Some r => Some (JArr [], r)
            | None => '(l, r) ← parse_elems fuel r; Some (JArr l, r)
            end
          else if bool_decide (b = dquote) then
            '(t, r) ← unquote_loop (length r) r; Some (JStr (string_of_bytes t), r)
          else parse_literal (b :: r)
      end
  end
with parse_elems (fuel : nat) (s : bytes) : option (list json * bytes) :=
  match fuel with
  | O => None
  | S fuel =>
      '(v, r) ← parse_value fuel s;
      match expect "," r with
      | Some r => '(l, r) ← parse_elems fuel r; Some (v :: l, r)
      | None => r ← expect "]" r; Some ([v], r)
      end
  end
with parse_members (fuel : nat) (s : bytes) : option (list (string * json) * bytes) :=
  match fuel with
  | O => None
  | S fuel =>
      r ← expect dquote s;
      '(k, r) ← unquote_loop (length r) r;
      r ← expect ":" r;
      '(v, r) ← parse_value fuel r;
      match expect "," r with
      | Some r => '(l, r) ← parse_members fuel r; Some ((string_of_bytes k, v) :: l, r)
      | None => r ← expect "}" r; Some ([(string_of_bytes k, v)], r)
      end
  end.

(** [checkValid] and the decoder's reading of a whole document. *)
Definition parse (s : bytes) : option json :=
  match parse_value (S (2 * length s)) s with
  | Some (v, r) => if bool_decide (skip_ws r = []) then Some v else None
  | None => None
  end.

(** ** The printer of [json.Marshal] *)

Fixpoint sep_concat (l : list bytes) : bytes :=
  match l with
  | [] => []
  | [x] => x
  | x :: l => x ++ [","%char] ++ sep_concat l
  end.

Fixpoint print (j : json) : bytes :=
  match j with
  | JNull => bytes_of_string "null"
  | JBool true => bytes_of_string "true"
  | JBool false => bytes_of_string "false"
  | JNum lit => bytes_of_string lit
  | JStr s => quote s
  | JArr l => "["%char :: sep_concat (map print l) ++ ["]"%char]
  | JObj l =>
      "{"%char ::
        sep_concat (map (λ p : string * json, let (k, v) := p in quote k ++ [":"%char] ++ print v) l) ++
        ["}"%char]
  end.

(** The value with every string made valid UTF-8. *)
Fixpoint coerce_json (j : json) : json :=
  match j with
  | JStr s => JStr (coerce s)
  | JArr l => JArr (map coerce_json l)
  | JObj l => JObj (map (λ p : string * json, let (k, v) := p in (coerce k, coerce_json v)) l)
  | j => j
  end.

(** Values whose numbers are number literals. *)
Fixpoint json_wf (j : json) : Prop :=
  match j with
  | JNum lit => valid_number (bytes_of_string lit) = true ∧ forallb num_char (bytes_of_string lit) = true
  | JArr l => foldr (λ v P, json_wf v ∧ P) True l
  | JObj l => foldr (λ (p : string * json) P, let (_, v) := p in json_wf v ∧ P) True l
  | _ => True
  end.

Fixpoint jsize (j : json) : nat :=
  match j with
  | JArr l => S (foldr (λ v n, S (jsize v + n)) 0 l)
  | JObj l => S (foldr (λ (p : string * json) n, let (_, v) := p in S (jsize v + n)) 0 l)
  | _ => 1
  end%nat.

(** What may follow a value: nothing that continues a number. *)
Definition delim (r : bytes) : Prop := match r with [] => True | b :: _ => num_char b = false end.

Lemma quote_head s : ∃ t, quote s = dquote :: t.
Proof. unfold quote. simpl. eauto. Qed.

(** The first character of a printed value. *)
Definition value_head (b : ascii) : Prop := space b = false ∧ b ≠ "]"%char ∧ b ≠ "}"%char.

Lemma num_head b : num_char b = true → value_head b ∧ b ≠ "{"%char ∧ b ≠ "["%char ∧ b ≠ dquote.
Proof.
  intros H. destruct b as [[] [] [] [] [] [] [] []]; vm_compute in H; try discriminate;
    (split; [split; [vm_compute; done|done]|done]).
Qed.

Lemma valid_number_nonempty lit : valid_number lit = true → lit ≠ [].
Proof. by intros H ->. Qed.

Lemma print_head j : json_wf j → ∃ b t, print j = b :: t ∧ value_head b.
Proof.
  destruct j as [|[]|lit|s|l|l]; intros Hwf; try (eexists _, _; split; [reflexivity|by repeat split]).
  destruct Hwf as [Hv Hc]. simpl. destruct (bytes_of_string lit) as [|b t]; [done|].
  simpl in Hc. apply andb_true_iff in Hc as [Hb _]. exists b, t. split; [done|]. by apply num_head.
Qed.

Lemma skip_ws_head b t : space b = false → skip_ws (b :: t) = b :: t.
Proof. intros H. simpl. by rewrite H. Qed.

Lemma expect_ne c b t : space b = false → b ≠ c → expect c (b :: t) = None.
Proof. intros H Hne. unfold expect. rewrite skip_ws_head by done. by rewrite bool_decide_false. Qed.

Lemma expect_eq c t : space c = false → expect c (c :: t) = Some t.
Proof. intros H. unfold expect. rewrite skip_ws_head by done. by rewrite bool_decide_true. Qed.

Lemma span_num_app lit rest :
  forallb num_char lit = true → delim rest → span_num (lit ++ rest) = (lit, rest).
Proof.
  intros Hl Hd. induction lit as [|b lit IH]; simpl in *.
  - destruct rest as [|b r]; [done|]. simpl in *. by rewrite Hd.
  - apply andb_true_iff in Hl as [-> Hl]. by rewrite IH.
Qed.

(** A literal inside a document, after its opening quote. *)
Lemma unquote_literal s rest :
  let r := quote_loop (String.length s) (bytes_of_string s) ++ dquote :: rest in
  unquote_loop (length r) r = Some (bytes_of_string (coerce s), rest).
Proof.
  intros r. unfold r. rewrite unquote_quote.
  - unfold coerce. by rewrite bytes_of_string_of_bytes.
  - by rewrite length_bytes_of_string.
  - rewrite length_app. simpl. lia.
Qed.

Lemma quote_app s rest :
  quote s ++ rest = dquote :: quote_loop (String.length s) (bytes_of_string s) ++ dquote :: rest.
Proof. unfold quote. cbn [app]. by rewrite <- app_assoc. Qed.

Definition elems_size (l : list json) : nat := foldr (λ v n, S (jsize v + n))%nat 0%nat l.
Definition members_size (l : list (string * json)) : nat :=
  foldr (λ (p : string * json) n, let (_, v) := p in S (jsize v + n))%nat 0%nat l.
Definition elems_wf (l : list json) : Prop := foldr (λ v P, json_wf v ∧ P) True l.
Definition members_wf (l : list (string * json)) : Prop :=
  foldr (λ (p : string * json) P, let (_, v) := p in json_wf v ∧ P) True l.
Definition print_member (p : string * json) : bytes := let (k, v) := p in quote k ++ [":"%char] ++ print v.
Definition coerce_member (p : string * json) : string * json := let (k, v) := p in (coerce k, coerce_json v).

Lemma print_obj l : print (JObj l) = "{"%char :: sep_concat (map print_member l) ++ ["}"%char].
Proof. reflexivity. Qed.

Lemma coerce_obj l : coerce_json (JObj l) = JObj (map coerce_member l).
Proof. reflexivity. Qed.

Definition reads_value (fuel : nat) : Prop := ∀ j rest,
  (jsize j <= fuel)%nat → json_wf j → delim rest →
  parse_value fuel (print j ++ rest) = Some (coerce_json j, rest).
Definition reads_elems (fuel : nat) : Prop := ∀ v l rest,
  (elems_size (v :: l) <= fuel)%nat → elems_wf (v :: l) →
  parse_elems fuel (sep_concat (map print (v :: l)) ++ "]"%char :: rest) =
    Some (map coerce_json (v :: l), rest).
Definition reads_members (fuel : nat) : Prop := ∀ p l rest,
  (members_size (p :: l) <= fuel)%nat → members_wf (p :: l) →
  parse_members fuel (sep_concat (map print_member (p :: l)) ++ "}"%char :: rest) =
    Some (map coerce_member (p :: l), rest).

Lemma sep_concat_cons x y l rest :
  sep_concat (x :: y :: l) ++ rest = x ++ ","%char :: (sep_concat (y :: l) ++ rest).
Proof. cbn [sep_concat]. by rewrite <- !app_assoc. Qed.

Lemma reads_elems_step fuel : reads_value fuel → reads_elems fuel → reads_elems (S fuel).
Proof.
  intros Hv He v l rest Hs [Hw Hws]. cbn [elems_size foldr] in Hs. fold (elems_size l) in Hs.
  cbn [parse_elems map]. destruct l as [|v' l]; cbn [map].
  - cbn [sep_concat]. rewrite Hv by (done || lia). cbn [mbind option_bind].
    by rewrite expect_ne, expect_eq by done.
  - rewrite sep_concat_cons, Hv by (done || lia). cbn [mbind option_bind].
    rewrite expect_eq by done. change (print v' :: map print l) with (map print (v' :: l)).
    rewrite He by (done || lia). done.
Qed.

Lemma reads_members_step fuel : reads_value fuel → reads_members fuel → reads_members (S fuel).
Proof.
  intros Hv Hm [k v] l rest Hs [Hw Hws]. cbn [members_size foldr] in Hs. fold (members_size l) in Hs.
  assert (∀ t, parse_members (S fuel) (print_member (k, v) ++ t) =
    '(v, r) ← parse_value fuel (print v ++ t);
    match expect "," r with
    | Some r => '(l, r) ← parse_members fuel r; Some ((coerce k, v) :: l, r)
    | None => r ← expect "}" r; Some ([(coerce k, v)], r)
    end) as Hstep.
  { intros t. cbn [parse_members print_member]. rewrite <- !app_assoc, quote_app.
    rewrite expect_eq by done. cbn [mbind option_bind]. rewrite unquote_literal. cbn [mbind option_bind].
    cbn [app]. rewrite expect_eq by done. cbn [mbind option_bind].
    by rewrite string_of_bytes_of_string. }
  destruct l as [|p' l]; cbn [map].
  - cbn [sep_concat]. rewrite Hstep, Hv by (done || lia). cbn [mbind option_bind].
    by rewrite expect_ne, expect_eq by done.
  - rewrite sep_concat_cons, Hstep, Hv by (done || lia). cbn [mbind option_bind].
    rewrite expect_eq by done. change (print_member p' :: map print_member l) with (map print_member (p' :: l)).
    rewrite Hm by (done || lia). done.
Qed.

(** A printed non-empty list does not start with a closing bracket. *)
Lemma elems_head v l rest : json_wf v →
  ∃ b t, sep_concat (map print (v :: l)) ++ rest = b :: t ∧ value_head b.
Proof.
  intros Hw. destruct (print_head v Hw) as (b & t & Hp & Hb).
  destruct l as [|v' l]; cbn [map]; [cbn [sep_concat]|rewrite sep_concat_cons]; rewrite Hp; simpl; eauto.
Qed.

Lemma members_head p l rest : ∃ t, sep_concat (map print_member (p :: l)) ++ rest = dquote :: t.
Proof.
  destruct p as [k v].
  destruct l as [|p' l]; cbn [map]; [cbn [sep_concat]|rewrite sep_concat_cons];
    cbn [print_member]; rewrite <- !app_assoc, quote_app; eauto.
Qed.

Lemma reads_value_step fuel : reads_elems fuel → reads_members fuel → reads_value (S fuel).
Proof.
  intros He Hm j rest Hs Hw Hd. destruct j as [|[]|lit|s|l|l]; try reflexivity.
  - destruct Hw as [Hv Hc]. cbn [print coerce_json parse_value].
    destruct (bytes_of_string lit) as [|b t] eqn:Hl; [done|].
    pose proof Hc as Hb. simpl in Hb. apply andb_true_iff in Hb as [Hb _].
    apply num_head in Hb as ((Hsp & _) & H1 & H2 & H3). cbn [app].
    rewrite skip_ws_head, !bool_decide_false by done.
    unfold parse_literal. change (b :: t ++ rest) with ((b :: t) ++ rest).
    assert (∀ n c w, hd_error w = Some c → (0 < n)%nat → num_char c = false → take n ((b :: t) ++ rest) ≠ w) as Hne.
    { intros [|n] c w Hw Hn Hcn <-; [lia|]. injection Hw as ->. simpl in Hc. by rewrite Hcn in Hc. }
    rewrite !bool_decide_false by (eapply Hne; [reflexivity|lia|reflexivity]).
    rewrite span_num_app, Hv by done. by rewrite <- Hl, string_of_bytes_of_string.
  - cbn [print coerce_json parse_value]. rewrite quote_app, skip_ws_head by done.
    rewrite !bool_decide_false by done. rewrite bool_decide_true by done.
    by rewrite unquote_literal; cbn [mbind option_bind]; rewrite string_of_bytes_of_string.
  - cbn [print coerce_json parse_value app]. rewrite skip_ws_head by done.
    rewrite bool_decide_false, bool_decide_true by done. rewrite <- app_assoc.
    destruct l as [|v l]; [cbn [map sep_concat app]; by rewrite expect_eq|].
    destruct (elems_head v l ("]"%char :: rest)) as (b & t & Hbt & Hsp & Hb & _); [apply Hw|].
    cbn [app]. rewrite Hbt, expect_ne, <- Hbt by done. rewrite He; [done|cbn in *; lia|done].
  - rewrite print_obj, coerce_obj. cbn [parse_value app]. rewrite skip_ws_head by done.
    rewrite bool_decide_true by done. rewrite <- app_assoc.
    destruct l as [|p l]; [cbn [map sep_concat app]; by rewrite expect_eq|].
    destruct (members_head p l ("}"%char :: rest)) as (t & Ht).
    cbn [app]. rewrite Ht, expect_ne, <- Ht by done. rewrite Hm; [done|cbn in *; lia|done].
Qed.

Lemma reads_all fuel : reads_value fuel ∧ reads_elems fuel ∧ reads_members fuel.
Proof.
  induction fuel as [|fuel (Hv & He & Hm)].
  - split_and!; [intros []|intros ??|intros [] ?]; intros; simpl in *; lia.
  - split_and!; [by apply reads_value_step|by apply reads_elems_step|by apply reads_members_step].
Qed.

Section json_ind.
Context (P : json → Prop) (Hnull : P JNull) (Hbool : ∀ b, P (JBool b)) (Hnum : ∀ n, P (JNum n))
  (Hstr : ∀ s, P (JStr s)) (Harr : ∀ l, Forall P l → P (JArr l))
  (Hobj : ∀ l, Forall (λ p, P p.2) l → P (JObj l)).

Fixpoint json_nested_ind (j : json) : P j :=
  match j with
  | JNull => Hnull
  | JBool b => Hbool b
  | JNum n => Hnum n
  | JStr s => Hstr s
  | JArr l =>
      Harr l ((fix go l : Forall P l :=
        match l with
        | [] => Forall_nil_2 P
        | v :: l => Forall_cons_2 P v l (json_nested_ind v) (go l)
        end) l)
  | JObj l =>
      Hobj l ((fix go l : Forall (λ p, P p.2) l :=
        match l with
        | [] => Forall_nil_2 _
        | p :: l => Forall_cons_2 (λ p, P p.2) p l (json_nested_ind p.2) (go l)
        end) l)
  end.
End json_ind.

Lemma jsize_print j : json_wf j → (jsize j <= 2 * length (print j))%nat.
Proof.
  induction j as [|[]|lit|s|l IH|l IH] using json_nested_ind; intros Hw; try (simpl; lia).
  - destruct (print_head (JNum lit) Hw) as (b & t & -> & _). simpl. lia.
  - cbn [print jsize length]. rewrite length_app. simpl. fold (elems_size l). change (elems_wf l) in Hw.
    assert (elems_size l <= 2 * length (sep_concat (map print l)) + 1)%nat; [|lia].
    induction IH as [|v l Hv _ IHl]; [simpl; lia|]. destruct Hw as [Hwv Hwl].
    specialize (Hv Hwv). specialize (IHl Hwl). cbn [elems_size foldr map]. fold (elems_size l).
    destruct l as [|v' l]; [simpl; lia|]. cbn [map sep_concat] in *. rewrite !length_app in *. simpl in *. lia.
  - rewrite print_obj. cbn [jsize length]. rewrite length_app. cbn [length]. fold (members_size l).
    change (members_wf l) in Hw.
    assert (members_size l <= 2 * length (sep_concat (map print_member l)) + 1)%nat; [|lia].
    induction IH as [|[k v] l Hv _ IHl]; [simpl; lia|]. destruct Hw as [Hwv Hwl]. cbn [snd] in Hv.
    specialize (Hv Hwv). specialize (IHl Hwl). cbn [members_size foldr map]. fold (members_size l).
    destruct l as [|p' l]; cbn [map sep_concat print_member] in *; rewrite !length_app in *; cbn [length] in *; [simpl|]; lia.
Qed.

(** Reading a printed document, with white space after it ([Encoder.Encode]
    ends in a newline), gives the value with its strings made valid UTF-8. *)
Lemma parse_print j ws :
  json_wf j → skip_ws ws = [] → delim ws → parse (print j ++ ws) = Some (coerce_json j).
Proof.
  intros Hw Hws Hd. unfold parse. pose proof (jsize_print j Hw) as Hs.
  destruct (reads_all (S (2 * length (print j ++ ws)))) as (Hv & _). rewrite length_app in *.
  rewrite Hv by (done || lia). by rewrite Hws, bool_decide_true.
Qed.

(** Integers are printed as number literals. *)
Lemma skip_digits_string d : skip_digits (bytes_of_string (NilEmpty.string_of_uint d)) = [].
Proof. induction d; simpl; done. Qed.

Lemma num_chars_string d : forallb num_char (bytes_of_string (NilEmpty.string_of_uint d)) = true.
Proof. induction d; simpl; done. Qed.

(** Digits without a leading zero, or a lone zero. *)
Lemma valid_digits d : d ≠ Decimal.Nil → Decimal.unorm d = d →
  valid_number (bytes_of_string (NilZero.string_of_uint d)) = true ∧
  valid_number ("-"%char :: bytes_of_string (NilZero.string_of_uint d)) = true.
Proof.
  intros Hn Hu. destruct d as [|d|d|d|d|d|d|d|d|d|d]; [done|..]; cbn [NilZero.string_of_uint NilEmpty.string_of_uint].
  1:{ assert (∀ e e', Decimal.nzhead e ≠ Decimal.D0 e') as Hnz by (intros e; induction e; simpl; done).
      unfold Decimal.unorm in Hu. destruct (Decimal.nzhead _) eqn:E; try done; [|by apply Hnz in E].
      by injection Hu as <-. }
  all: pose proof (skip_digits_string d) as Hsk; unfold bytes_of_string in *; simpl; unfold valid_number; cbn; by rewrite Hsk.
Qed.

Lemma to_uint_unorm p : Decimal.unorm (Pos.to_uint p) = Pos.to_uint p.
Proof. rewrite <- DecimalPos.Unsigned.to_of, DecimalPos.Unsigned.of_to. done. Qed.

Lemma num_chars_digits d : forallb num_char (bytes_of_string (NilZero.string_of_uint d)) = true.
Proof. destruct d; apply num_chars_string || done. Qed.

Lemma FormatInt_wf v : json_wf (JNum (FormatInt v)).
Proof.
  destruct v as [|p|p]; [done|..]; unfold FormatInt; simpl;
    destruct (valid_digits (Pos.to_uint p) (DecimalPos.Unsigned.to_uint_nonnil p) (to_uint_unorm p)) as [H1 H2].
  - split; [done|]. apply num_chars_digits.
  - split; [done|]. simpl. apply num_chars_digits.
Qed.

(** ** Decoding into Go values ([json.Unmarshal])

    [None] stands for an [UnmarshalTypeError].  A [null] leaves a string, a
    number or a struct as it is and makes a map or a pointer nil. *)

(** [foldName]: letters in upper case; U+212A and U+017F fold to K and S. *)
Fixpoint fold_name (s : bytes) : bytes :=
  match s with
  | [] => []
  | b :: s' =>
      match s' with
      | c :: s'' =>
          match s'' with
          | d :: s3 =>
              if bool_decide ([b; c; d] = (byte_of_Z <$> [0xE2; 0x84; 0xAA])) then "K"%char :: fold_name s3
              else if bool_decide ([b; c] = (byte_of_Z <$> [0xC5; 0xBF])) then "S"%char :: fold_name s''
              else (if between 97 122 b then byte_of_Z (Z_of_byte b - 32) else b) :: fold_name s'
          | [] =>
              if bool_decide ([b; c] = (byte_of_Z <$> [0xC5; 0xBF])) then ["S"%char]
              else (if between 97 122 b then byte_of_Z (Z_of_byte b - 32) else b) :: fold_name s'
          end
      | [] => [if between 97 122 b then byte_of_Z (Z_of_byte b - 32) else b]
      end
  end.

(** The object key selects the struct field of that name. *)
Definition is_field (name key : string) : bool :=
  bool_decide (key = name) ||
  bool_decide (fold_name (bytes_of_string key) = fold_name (bytes_of_string name)).

Definition decode_string (cur : string) (j : json) : option string :=
  match j with JStr s => Some s | JNull => Some cur | _ => None end.

Definition decode_int (cur : Z) (j : json) : option Z :=
  match j with JNum lit => ParseInt lit | JNull => Some cur | _ => None end.

Definition decode_bool (cur : bool) (j : json) : option bool :=
  match j with JBool b => Some b | JNull => Some cur | _ => None end.

(** A struct: [set key v] decodes the member into the field it selects and
    ignores an unknown one. *)
Definition decode_struct {S : Type} (set : string → json → S → option S) (cur : S) (j : json) : option S :=
  match j with
  | JObj l => foldl (λ acc p, s ← acc; set p.1 p.2 s) (Some cur) l
  | JNull => Some cur
  | _ => None
  end.

(** A [map[string]A]; a nil map is [None]. *)
Definition decode_map {A : Type} (dec : json → option A) (cur : option (gmap string A)) (j : json)
    : option (option (gmap string A)) :=
  match j with
  | JObj l =>
      Some <$> foldl (λ acc p, m ← acc; v ← dec p.2; Some (<[p.1 := v]> m)) (Some (default ∅ cur)) l
  | JNull => Some None
  | _ => None
  end.

(** Decoding an object whose keys are distinct and whose members all decode. *)
Lemma decode_map_list {A : Type} (dec : json → option A) (enc : A → json) (l : list (string * A)) (m0 : gmap string A) :
  (∀ p, p ∈ l → dec (enc p.2) = Some p.2) →
  foldl (λ acc p, m ← acc; v ← dec p.2; Some (<[p.1 := v]> m)) (Some m0)
    ((λ p : string * A, (p.1, enc p.2)) <$> l) = Some (foldl (λ m p, <[p.1 := p.2]> m) m0 l).
Proof.
  revert m0. induction l as [|p l IH]; intros m0 Hl; [done|]. csimpl.
  rewrite Hl by by left. simpl. apply IH. intros q Hq. apply Hl. by right.
Qed.
