(* ===== verification/Base64.v ===== *)
(** * Base64: encoding/base64 as encoding/json uses it

    [json.Marshal] prints a [[]byte] as a string in the standard encoding with
    padding, and [json.Unmarshal] reads it back, ignoring line breaks. *)

From S2P Require Import Prelude.

(** The 64 characters of [StdEncoding]. *)
Definition b64_char (d : Z) : ascii :=
  byte_of_Z (if d <? 26 then 65 + d else if d <? 52 then 71 + d else if d <? 62 then d - 4
             else if d =? 62 then 43 else 47).

Definition b64_val (c : ascii) : option Z :=
  let z := Z_of_byte c in
  if (65 <=? z) && (z <=? 90) then Some (z - 65)
  else if (97 <=? z) && (z <=? 122) then Some (z - 71)
  else if (48 <=? z) && (z <=? 57) then Some (z + 4)
  else if z =? 43 then Some 62 else if z =? 47 then Some 63 else None.

Definition pad : ascii := "="%char.

Fixpoint b64_encode (s : bytes) : bytes :=
  match s with
  | [] => []
  | [x] => let a := Z_of_byte x in [b64_char (a / 4); b64_char (a mod 4 * 16); pad; pad]
  | [x; y] =>
      let a := Z_of_byte x in
      let b := Z_of_byte y in
      [b64_char (a / 4); b64_char (a mod 4 * 16 + b / 16); b64_char (b mod 16 * 4); pad]
  | x :: y :: z :: s =>
      let a := Z_of_byte x in
      let b := Z_of_byte y in
      let c := Z_of_byte z in
      b64_char (a / 4) :: b64_char (a mod 4 * 16 + b / 16) :: b64_char (b mod 16 * 4 + c / 64) ::
        b64_char (c mod 64) :: b64_encode s
  end.

(** Groups of four characters; only the last may be padded, and the bits a
    padded group does not need are ignored. *)
Fixpoint b64_groups (s : bytes) : option bytes :=
  match s with
  | [] => Some []
  | x :: y :: z :: w :: s =>
      a ← b64_val x;
      b ← b64_val y;
      if decide (z = pad ∧ w = pad ∧ s = []) then Some [byte_of_Z (a * 4 + b / 16)]
      else
        c ← b64_val z;
        if decide (w = pad ∧ s = [])
        then Some [byte_of_Z (a * 4 + b / 16); byte_of_Z (b mod 16 * 16 + c / 4)]
        else
          d ← b64_val w;
          r ← b64_groups s;
          Some (byte_of_Z (a * 4 + b / 16) :: byte_of_Z (b mod 16 * 16 + c / 4) ::
                byte_of_Z (c mod 4 * 64 + d) :: r)
  | _ => None
  end.

Definition line_break (c : ascii) : Prop := c = "010"%char ∨ c = "013"%char.

Global Instance line_break_dec c : Decision (line_break c).
Proof. unfold line_break. apply _. Defined.

Definition b64_decode (s : bytes) : option bytes := b64_groups (filter (λ c, ¬ line_break c) s).

(** ** Round trip *)

Lemma b64_char_val d : 0 <= d < 64 → b64_val (b64_char d) = Some d ∧ b64_char d ≠ pad ∧ ¬ line_break (b64_char d).
Proof.
  intros Hd. assert (Hall : Forall (λ n, b64_val (b64_char (Z.of_nat n)) = Some (Z.of_nat n) ∧
    b64_char (Z.of_nat n) ≠ pad ∧ ¬ line_break (b64_char (Z.of_nat n))) (seq 0 64)).
  { apply (bool_decide_unpack (Forall _ _)). vm_compute. exact I. }
  rewrite Forall_seq in Hall. specialize (Hall (Z.to_nat d)). rewrite Z2Nat.id in Hall by lia. apply Hall. lia.
Qed.

(** Three bytes at a time. *)
Lemma bytes3_ind (P : bytes → Prop) :
  P [] → (∀ x, P [x]) → (∀ x y, P [x; y]) → (∀ x y z s, P s → P (x :: y :: z :: s)) → ∀ s, P s.
Proof.
  intros H0 H1 H2 H3. fix IH 1. intros [|x [|y [|z s]]]; [done|apply H1|apply H2|apply H3, IH].
Qed.

(** The six-bit pieces put together again. *)
Lemma piece1 a b : 0 <= a < 256 → 0 <= b < 256 → a / 4 * 4 + (a mod 4 * 16 + b / 16) / 16 = a.
Proof. intros. Z.to_euclidean_division_equations. lia. Qed.
Lemma piece1' a : 0 <= a < 256 → a / 4 * 4 + (a mod 4 * 16) / 16 = a.
Proof. intros. Z.to_euclidean_division_equations. lia. Qed.
Lemma piece2 a b c : 0 <= a < 256 → 0 <= b < 256 → 0 <= c < 256 →
  (a mod 4 * 16 + b / 16) mod 16 * 16 + (b mod 16 * 4 + c / 64) / 4 = b.
Proof. intros. Z.to_euclidean_division_equations. lia. Qed.
Lemma piece2' a b : 0 <= a < 256 → 0 <= b < 256 →
  (a mod 4 * 16 + b / 16) mod 16 * 16 + (b mod 16 * 4) / 4 = b.
Proof. intros. Z.to_euclidean_division_equations. lia. Qed.
Lemma piece3 b c : 0 <= b < 256 → 0 <= c < 256 → (b mod 16 * 4 + c / 64) mod 4 * 64 + c mod 64 = c.
Proof. intros. Z.to_euclidean_division_equations. lia. Qed.

Lemma six a b : 0 <= a < 256 → 0 <= b < 256 →
  0 <= a / 4 < 64 ∧ 0 <= a mod 4 * 16 < 64 ∧ 0 <= a mod 4 * 16 + b / 16 < 64 ∧
  0 <= a mod 16 * 4 < 64 ∧ 0 <= a mod 16 * 4 + b / 64 < 64 ∧ 0 <= a mod 64 < 64.
Proof. intros. Z.to_euclidean_division_equations. lia. Qed.

Ltac b64_step :=
  repeat match goal with
  | |- context [b64_val (b64_char ?d)] => rewrite (proj1 (b64_char_val d ltac:(lia)))
  end.

Lemma b64_groups_encode s : b64_groups (b64_encode s) = Some s.
Proof.
  induction s as [|x|x y|x y z s IH] using bytes3_ind; [done|..];
    pose proof (Z_of_byte_range x) as Hx; try pose proof (Z_of_byte_range y) as Hy;
    try pose proof (Z_of_byte_range z) as Hz; cbn [b64_encode b64_groups].
  - pose proof (six _ _ Hx Hx). b64_step. cbn [mbind option_bind]. rewrite decide_True by done.
    by rewrite piece1', byte_of_Z_of_byte by done.
  - pose proof (six _ _ Hx Hy). pose proof (six _ _ Hy Hx). b64_step. cbn [mbind option_bind].
    rewrite decide_False; [|intros (E & _); revert E; apply b64_char_val; lia].
    b64_step. cbn [mbind option_bind]. rewrite decide_True by done.
    by rewrite piece1, piece2', !byte_of_Z_of_byte by done.
  - pose proof (six _ _ Hx Hy). pose proof (six _ _ Hy Hz). pose proof (six _ _ Hz Hz).
    b64_step. cbn [mbind option_bind].
    rewrite decide_False; [|intros (_ & E & _); revert E; apply b64_char_val; lia].
    b64_step. cbn [mbind option_bind].
    rewrite decide_False; [|intros (E & _); revert E; apply b64_char_val; lia].
    b64_step. cbn [mbind option_bind]. rewrite IH. cbn [mbind option_bind].
    by rewrite piece1, piece2, piece3, !byte_of_Z_of_byte by done.
Qed.

Lemma b64_encode_chars s : Forall (λ c, ¬ line_break c ∧ Z_of_byte c < 128) (b64_encode s).
Proof.
  assert (Hchar : ∀ d, 0 <= d < 64 → ¬ line_break (b64_char d) ∧ Z_of_byte (b64_char d) < 128).
  { intros d Hd. split; [by apply b64_char_val|]. unfold b64_char. rewrite Z_of_byte_of_Z.
    repeat case_match; rewrite Z.mod_small; lia. }
  assert (Hpad : ¬ line_break pad ∧ Z_of_byte pad < 128) by (split; [intros [|]; done|done]).
  induction s as [|x|x y|x y z s IH] using bytes3_ind; [constructor|..];
    pose proof (Z_of_byte_range x) as Hx; try pose proof (Z_of_byte_range y) as Hy;
    try pose proof (Z_of_byte_range z) as Hz; pose proof (six _ _ Hx Hx); try pose proof (six _ _ Hx Hy);
    try pose proof (six _ _ Hy Hy); try pose proof (six _ _ Hy Hz); try pose proof (six _ _ Hz Hz);
    cbn [b64_encode]; repeat apply Forall_cons_2; first [done|apply Hchar; lia|apply Forall_nil_2].
Qed.

Lemma b64_roundtrip s : b64_decode (b64_encode s) = Some s.
Proof.
  unfold b64_decode. rewrite filter_id; [apply b64_groups_encode|].
  pose proof (b64_encode_chars s) as Hc. rewrite Forall_forall in Hc. naive_solver.
Qed.
