(* ===== verification/Crypto.v ===== *)
(** * Crypto: sealing of blobs at rest, pkg/storage/crypto.go

    AES-256-GCM itself ([crypto/aes], [crypto/cipher]) is a parameter: an AEAD
    is a pair of functions, and what [cipher.AEAD] documents about them (opening
    what was sealed under the same nonce gives the plaintext back, sealing adds
    16 bytes) is the record [AEAD_laws].  The source's own framing, nonce first,
    is modelled and proved to round-trip. *)

From S2P Require Import Prelude.

Definition AtRestKeySize : Z := 32.
Definition atRestNonceSize : nat := 12.
Definition walEncryptedMagic : ascii := byte_of_Z 0xF0.
Definition snapshotMagic : bytes := bytes_of_string "KVES".

(** [cipher.AEAD] with no additional data. *)
Record AEAD : Type := mkAEAD {
  Seal : bytes → bytes → bytes;         (* nonce, plaintext *)
  Open : bytes → bytes → option bytes   (* nonce, sealed *)
}.

Record AEAD_laws (a : AEAD) : Prop := {
  open_seal nonce plain : length nonce = atRestNonceSize → Open a nonce (Seal a nonce plain) = Some plain;
  seal_overhead nonce plain : zlen (Seal a nonce plain) = zlen plain + 16
}.

(** [atRestCipher]: the AEAD built from the key. *)
Record atRestCipher : Type := mkCipher { aead : AEAD }.

(** [newAtRestCipher]; [gcm key] stands for [cipher.NewGCM(aes.NewCipher(key))],
    which succeeds on a 32-byte key. *)
Definition newAtRestCipher (gcm : bytes → AEAD) (key : bytes) : res atRestCipher :=
  if negb (zlen key =? AtRestKeySize) then Err (ErrMsg "encryption key must be 32 bytes")
  else Ok (mkCipher (gcm key)).

(** [Encrypt]; [nonce] is what [rand.Read] returns ([None]: it fails). *)
Definition Encrypt (c : atRestCipher) (nonce : option bytes) (plain : bytes) : res bytes :=
  match nonce with
  | None => Err (ErrMsg "random nonce")
  | Some nonce => Ok (nonce ++ Seal (aead c) nonce plain)
  end.

Definition Decrypt (c : atRestCipher) (sealed : bytes) : res bytes :=
  if decide (length sealed < atRestNonceSize)%nat then Err ErrDecrypt
  else
    match Open (aead c) (take atRestNonceSize sealed) (drop atRestNonceSize sealed) with
    | None => Err ErrDecrypt
    | Some plain => Ok plain
    end.

(** The random source hands out nonces of the size [Encrypt] asks for. *)
Definition nonce_ok (nonce : option bytes) : Prop :=
  match nonce with None => True | Some n => length n = atRestNonceSize end.

Lemma Decrypt_Encrypt c nonce plain sealed :
  AEAD_laws (aead c) → nonce_ok nonce → Encrypt c nonce plain = Ok sealed →
  Decrypt c sealed = Ok plain ∧ zlen sealed = zlen plain + 28.
Proof.
  intros Hlaws Hn. destruct nonce as [n|]; [|done]. simpl in *. intros [= <-].
  unfold Decrypt. rewrite length_app, Hn. rewrite decide_False by lia.
  rewrite <- Hn, take_app_length, drop_app_length, (open_seal _ Hlaws) by done.
  split; [done|]. rewrite zlen_app, (seal_overhead _ Hlaws). unfold zlen at 1. rewrite Hn.
  unfold atRestNonceSize. lia.
Qed.

(** A concrete AEAD, for evaluation: the tag is the nonce and four zero bytes. *)
Definition toy_aead : AEAD := mkAEAD
  (λ nonce plain, plain ++ take 12 (nonce ++ replicate 12 "000"%char) ++ replicate 4 "000"%char)
  (λ nonce sealed,
     let n := (length sealed - 16)%nat in
     if decide (drop n sealed = take 12 (nonce ++ replicate 12 "000"%char) ++ replicate 4 "000"%char)
     then Some (take n sealed) else None).

Lemma toy_aead_laws : AEAD_laws toy_aead.
Proof.
  assert (∀ nonce : bytes, length (take 12 (nonce ++ replicate 12 "000"%char)
    ++ replicate 4 "000"%char) = 16%nat) as Hlen.
  { intros nonce. rewrite length_app, length_take, length_app, !length_replicate. lia. }
  split; intros nonce plain; cbn [Seal Open toy_aead].
  - intros _. rewrite length_app, Hlen, Nat.add_sub, drop_app_length, take_app_length.
    by rewrite decide_True.
  - unfold zlen. rewrite length_app, Hlen. lia.
Qed.

(** Encryption at rest: for an AEAD whose [Open] inverts [Seal] and whose
    tag is sixteen bytes, a 32-byte key gives a cipher that decrypts what it
    encrypted; the blob carries its nonce in front and is 28 bytes longer than
    the plaintext. *)
Theorem at_rest_roundtrip gcm key c nonce plain sealed :
  (∀ k, zlen k = AtRestKeySize → AEAD_laws (gcm k)) →
  newAtRestCipher gcm key = Ok c → length nonce = atRestNonceSize →
  Encrypt c (Some nonce) plain = Ok sealed →
  Decrypt c sealed = Ok plain ∧ take atRestNonceSize sealed = nonce ∧ zlen sealed = zlen plain + 28.
Proof.
  intros Hgcm Hc Hn He. unfold newAtRestCipher in Hc.
  destruct (zlen key =? AtRestKeySize) eqn:Hk; simpl in Hc; [|done]. injection Hc as <-. bool_prop.
  destruct (Decrypt_Encrypt (mkCipher (gcm key)) (Some nonce) plain sealed (Hgcm key Hk) Hn He) as [Hd Hz].
  split_and!; [done| |done]. simpl in He. injection He as <-. by rewrite <- Hn, take_app_length.
Qed.

Lemma at_rest_roundtrip_witness :
  let key := replicate 32 "k"%char in
  let nonce := replicate 12 "n"%char in
  let plain := bytes_of_string "secret" in
  let sealed := nonce ++ Seal toy_aead nonce plain in
  Decrypt (mkCipher toy_aead) sealed = Ok plain ∧ take atRestNonceSize sealed = nonce ∧
  zlen sealed = zlen plain + 28.
Proof.
  intros key nonce plain sealed.
  apply (at_rest_roundtrip (λ _, toy_aead) key (mkCipher toy_aead) nonce plain sealed).
  - intros _ _. apply toy_aead_laws.
  - reflexivity.
  - reflexivity.
  - reflexivity.
Defined.
