(* ===== verification/Wal.v ===== *)
(** * Wal: the write-ahead log of pkg/storage/wal.go

    The record format, appending (in clear and sealed), and the replay of a log
    into a [MemStore], with the bounds checks of [readString].  Replaying what
    was appended is proved to re-execute the operations in order; a torn tail is
    proved to be reported, never misread. *)

From S2P Require Import Prelude GoLib Engine MemStore Disk Crypto.

Definition opPut : Z := 1.
Definition opDelete : Z := 2.
Definition opClear : Z := 3.
Definition opIncr : Z := 4.
Definition opCAS : Z := 5.
Definition opExpire : Z := 6.

Definition maxRecordField : Z := 2 ^ 20.

(** ** The log and appending to it *)

Record WAL : Type := mkWAL { w_path : string; w_cipher : option atRestCipher }.

(** [append(BigEndian.AppendUint32(buf, uint32(len(s))), s...)]. *)
Definition put_field (s : string) : bytes := be_encode 4 (u32 (slen s)) ++ bytes_of_string s.

Global Arguments put_field : simpl never.

(** A computation that touches no file. *)
Definition lift {A} (r : res A) : IO A := λ w, (r, w).

(** [rand.Read]: [rnd] is the random source, read once between two file calls. *)
Definition rand_nonce (rnd : nat → option bytes) : IO (option bytes) :=
  λ w, (Ok (rnd (length (hist w))), w).

(** The methods that write; [rnd] supplies the nonces. *)
Section WAL_methods.
Context (rnd : nat → option bytes).

Definition append (w : WAL) (b : bytes) : IO unit :=
  match w_cipher w with
  | Some c =>
      nonce <- rand_nonce rnd ;;
      sealed <- lift (Encrypt c nonce b) ;;
      write (w_path w) (be_encode 4 (u32 (zlen sealed))) ;;;
      write (w_path w) sealed
  | None => write (w_path w) b
  end.

Definition AppendPut (w : WAL) (key value : string) : IO unit :=
  append w (byte_of_Z opPut :: put_field key ++ put_field value).
Definition AppendDelete (w : WAL) (key : string) : IO unit :=
  append w (byte_of_Z opDelete :: put_field key).
Definition AppendClear (w : WAL) : IO unit := append w [byte_of_Z opClear].
Definition AppendIncr (w : WAL) (key : string) : IO unit :=
  append w (byte_of_Z opIncr :: put_field key).
Definition AppendCAS (w : WAL) (key old new : string) : IO unit :=
  append w (byte_of_Z opCAS :: put_field key ++ put_field old ++ put_field new).
Definition AppendExpire (w : WAL) (key : string) (expiresAt : Z) : IO unit :=
  append w (byte_of_Z opExpire :: put_field key ++ be_encode 8 (u64 expiresAt)).
End WAL_methods.

Definition OpenWAL (path : string) : IO WAL :=
  open_append path ;;;
  ret (mkWAL path None).

Definition OpenWALEncrypted (path : string) (c : atRestCipher) : IO WAL :=
  OpenWAL path ;;;
  size <- on_error (stat path) close ;;
  if size =? 0 then
    on_error (write path [walEncryptedMagic]) close ;;;
    on_error (fsync path) close ;;;
    ret (mkWAL path (Some c))
  else
    content <- on_error (read_file path) close ;;
    match content with
    | Some (first :: _) =>
        if negb (bool_decide (first = walEncryptedMagic)) then
          on_error (throw (ErrMsg "existing wal is not encrypted")) close
        else ret (mkWAL path (Some c))
    | _ => on_error (throw ErrEOF) close
    end.

Definition Sync (w : WAL) : IO unit := fsync (w_path w).
Definition Close (w : WAL) : IO unit := close.

Definition Truncate (w : WAL) : IO unit :=
  truncate (w_path w) ;;;
  match w_cipher w with
  | Some _ => write (w_path w) [walEncryptedMagic] ;;; fsync (w_path w)
  | None => ret ()
  end.

(** ** Decoding *)

(** [readString]: the length prefix is checked against [maxRecordField] and
    against the bytes that remain before anything is allocated.  The result is
    the string with the number of bytes consumed, and the reader after it. *)
Definition readString (r : bytes) (remaining : Z) : res (string * Z) * bytes :=
  match ReadFull 4 r with
  | (Err e, r) => (Err e, r)
  | (Ok lenBuf, r) =>
      let length := be_decode lenBuf in
      if maxRecordField <? length then (Err (ErrMsg "wal record field exceeds bound"), r)
      else if remaining - 4 <? length then (Err ErrUnexpectedEOF, r)
      else
        match ReadFull (Z.to_nat length) r with
        | (Err e, r) => (Err e, r)
        | (Ok buf, r) => (Ok (string_of_bytes buf, 4 + length), r)
        end
  end.

(** The errors replay tolerates, because the operation changed nothing then. *)
Definition tolerated (tol : list go_error) {A} (r : res A) : bool :=
  match r with Ok _ => true | Err e => bool_decide (e ∈ tol) end.

(** [applyRecord]: one record whose op byte was read; [now] is the clock reading
    of the store operation.  Returns the field bytes consumed, the reader and
    the store. *)
Definition applyRecord (now : Z) (op : ascii) (r : bytes) (remaining : Z) (m : MemStore)
    : res Z * bytes * MemStore :=
  let c := Z_of_byte op in
  if c =? opPut then
    match readString r remaining with
    | (Err _, r) => (Err (ErrMsg "read wal put key"), r, m)
    | (Ok (key, n1), r) =>
        match readString r (remaining - n1) with
        | (Err _, r) => (Err (ErrMsg "read wal put value"), r, m)
        | (Ok (value, n2), r) => (Ok (n1 + n2), r, Put key value m)
        end
    end
  else if c =? opDelete then
    match readString r remaining with
    | (Err _, r) => (Err (ErrMsg "read wal delete key"), r, m)
    | (Ok (key, n), r) => (Ok n, r, Delete key m)
    end
  else if c =? opClear then (Ok 0, r, Clear m)
  else if c =? opIncr then
    match readString r remaining with
    | (Err _, r) => (Err (ErrMsg "read wal incr key"), r, m)
    | (Ok (key, n), r) =>
        let (res, m) := Incr now key m in
        if tolerated [ErrNotNumeric; ErrOverflow] res then (Ok n, r, m)
        else (Err (ErrMsg "replay wal incr"), r, m)
    end
  else if c =? opCAS then
    match readString r remaining with
    | (Err _, r) => (Err (ErrMsg "read wal cas key"), r, m)
    | (Ok (key, n1), r) =>
        match readString r (remaining - n1) with
        | (Err _, r) => (Err (ErrMsg "read wal cas old"), r, m)
        | (Ok (old, n2), r) =>
            match readString r (remaining - n1 - n2) with
            | (Err _, r) => (Err (ErrMsg "read wal cas new"), r, m)
            | (Ok (new, n3), r) =>
                let (res, m) := CAS now key old new m in
                if tolerated [ErrNotFound] res then (Ok (n1 + n2 + n3), r, m)
                else (Err (ErrMsg "replay wal cas"), r, m)
            end
        end
    end
  else if c =? opExpire then
    match readString r remaining with
    | (Err _, r) => (Err (ErrMsg "read wal expire key"), r, m)
    | (Ok (key, n1), r) =>
        if remaining - n1 <? 8 then (Err (ErrMsg "read wal expire ts"), r, m)
        else
          match ReadFull 8 r with
          | (Err _, r) => (Err (ErrMsg "read wal expire ts"), r, m)
          | (Ok tsBuf, r) =>
              let expiresAt := i64_of_u64 (be_decode tsBuf) in
              let (res, m) := Expire now key expiresAt m in
              if tolerated [ErrNotFound] res then (Ok (n1 + 8), r, m)
              else (Err (ErrMsg "replay wal expire"), r, m)
          end
    end
  else (Err (ErrMsg "corrupted wal: unknown op code"), r, m).

(** The record loop shared by [replayPlain] and the inner loop of
    [replayEncrypted].  [clk] gives the clock reading of each record in turn;
    the third component counts the records read.  [ErrMsg "fuel"] is returned
    only when the fuel runs out. *)
Fixpoint replay_records (fuel : nat) (clk : nat → Z) (i : nat) (r : bytes) (remaining : Z) (m : MemStore)
    : res unit * nat * MemStore :=
  match fuel with
  | O => (Err (ErrMsg "fuel"), i, m)
  | S fuel =>
      if 0 <? remaining then
        match r with
        | [] => (Ok (), i, m)
        | op :: r =>
            match applyRecord (clk i) op r (remaining - 1) m with
            | (Err e, _, m) => (Err e, S i, m)
            | (Ok consumed, r, m) => replay_records fuel clk (S i) r (remaining - 1 - consumed) m
            end
        end
      else (Ok (), i, m)
  end.

(** [replayPlain] on the contents of the open log and the size [Stat] reported. *)
Definition replayPlain (clk : nat → Z) (content : bytes) (size : Z) (m : MemStore)
    : res unit * nat * MemStore :=
  replay_records (S (length content)) clk 0 content size m.

(** The blob loop of [replayEncrypted]. *)
Fixpoint replay_blobs (fuel : nat) (c : atRestCipher) (clk : nat → Z) (i : nat) (r : bytes) (m : MemStore)
    : res unit * nat * MemStore :=
  match fuel with
  | O => (Err (ErrMsg "fuel"), i, m)
  | S fuel =>
      match ReadFull 4 r with
      | (Err _, _) => (Ok (), i, m)
      | (Ok lenBuf, r) =>
          let sealedLen := be_decode lenBuf in
          if maxRecordField * 2 + 64 <? sealedLen then
            (Err (ErrMsg "encrypted wal record exceeds bound"), i, m)
          else
            match ReadFull (Z.to_nat sealedLen) r with
            | (Err ErrEOF, _) => (Ok (), i, m)
            | (Err _, _) => (Err (ErrMsg "read encrypted wal record"), i, m)
            | (Ok sealed, r) =>
                match Decrypt c sealed with
                | Err _ => (Err (ErrMsg "decrypt wal record"), i, m)
                | Ok plain =>
                    match replay_records (S (length plain)) clk i plain (zlen plain) m with
                    | (Err e, i, m) => (Err e, i, m)
                    | (Ok _, i, m) => replay_blobs fuel c clk i r m
                    end
                end
            end
      end
  end.

Definition replayEncrypted (c : atRestCipher) (clk : nat → Z) (content : bytes) (m : MemStore)
    : res unit * nat * MemStore :=
  match content with
  | [] => (Ok (), 0%nat, m)
  | magic :: r =>
      if negb (bool_decide (magic = walEncryptedMagic)) then
        (Err (ErrMsg "encrypted wal missing header magic"), 0%nat, m)
      else replay_blobs (S (length r)) c clk 0 r m
  end.

(** [Replay]: the error and the store as it was left; a failed [Open] or [Stat]
    leaves it alone. *)
Definition Replay (clk : nat → Z) (w : WAL) (m : MemStore) : IO (res unit * MemStore) :=
  opened <- attempt (read_file (w_path w)) ;;
  match opened with
  | Ok (Some content) =>
      finally
        (match w_cipher w with
         | Some c =>
             let '(r, _, m) := replayEncrypted c clk content m in ret (r, m)
         | None =>
             st <- attempt (stat (w_path w)) ;;
             match st with
             | Err _ => ret (Err (ErrMsg "stat wal for replay"), m)
             | Ok size => let '(r, _, m) := replayPlain clk content size m in ret (r, m)
             end
         end)
        close
  | _ => ret (Err (ErrMsg "open wal for replay"), m)
  end.

(** ** Records, as a specification of the format *)

Inductive record : Type :=
| RPut (key value : string)
| RDelete (key : string)
| RClear
| RIncr (key : string)
| RCAS (key old new : string)
| RExpire (key : string) (expiresAt : Z).

(** The buffer the [Append...] method of the record builds: the op code, then
    the fields. *)
Definition code (r : record) : Z :=
  match r with
  | RPut _ _ => opPut
  | RDelete _ => opDelete
  | RClear => opClear
  | RIncr _ => opIncr
  | RCAS _ _ _ => opCAS
  | RExpire _ _ => opExpire
  end.

Definition fields (r : record) : bytes :=
  match r with
  | RPut k v => put_field k ++ put_field v
  | RDelete k | RIncr k => put_field k
  | RClear => []
  | RCAS k old new => put_field k ++ put_field old ++ put_field new
  | RExpire k d => put_field k ++ be_encode 8 (u64 d)
  end.

Definition encode (r : record) : bytes := byte_of_Z (code r) :: fields r.

Definition encode_all (rs : list record) : bytes := concat (encode <$> rs).

Definition field_ok (s : string) : Prop := slen s <= maxRecordField.

Definition record_ok (r : record) : Prop :=
  match r with
  | RPut k v => field_ok k ∧ field_ok v
  | RDelete k | RIncr k => field_ok k
  | RClear => True
  | RCAS k old new => field_ok k ∧ field_ok old ∧ field_ok new
  | RExpire k d => field_ok k ∧ in_int64 d
  end.

(** The store operation a record stands for, run again at time [now]. *)
Definition redo (now : Z) (r : record) (m : MemStore) : MemStore :=
  match r with
  | RPut k v => Put k v m
  | RDelete k => Delete k m
  | RClear => Clear m
  | RIncr k => (Incr now k m).2
  | RCAS k old new => (CAS now k old new m).2
  | RExpire k d => (Expire now k d m).2
  end.

(** All records in order, the [i]-th at time [clk i]. *)
Fixpoint redo_all (clk : nat → Z) (i : nat) (rs : list record) (m : MemStore) : MemStore :=
  match rs with
  | [] => m
  | r :: rs => redo_all clk (S i) rs (redo (clk i) r m)
  end.

Lemma redo_all_app clk i rs1 rs2 m :
  redo_all clk i (rs1 ++ rs2) m = redo_all clk (i + length rs1) rs2 (redo_all clk i rs1 m).
Proof.
  revert i m. induction rs1 as [|r rs1 IH]; intros i m; simpl; [by rewrite Nat.add_0_r|].
  by rewrite IH, Nat.add_succ_r.
Qed.

(** ** Fields *)

Lemma zlen_put_field s : zlen (put_field s) = 4 + slen s.
Proof. unfold put_field. rewrite zlen_app, zlen_be_encode. done. Qed.
Global Hint Rewrite zlen_put_field : zlen.

Lemma slen_nonneg s : 0 <= slen s.
Proof. apply zlen_nonneg. Qed.

(** Every string of the context has a non-negative length. *)
Ltac slens :=
  repeat match goal with
  | s : string |- _ => assert_fails (assert (0 <= slen s) by assumption); pose proof (slen_nonneg s)
  end.

Lemma readString_field s rest remaining :
  field_ok s → 4 + slen s <= remaining →
  readString (put_field s ++ rest) remaining = (Ok (s, 4 + slen s), rest).
Proof.
  unfold field_ok, maxRecordField. intros Hs Hr. pose proof (slen_nonneg s).
  unfold readString, put_field. rewrite <- app_assoc, ReadFull_app by apply length_be_encode.
  unfold u32. rewrite Z.mod_small by lia. rewrite be32_roundtrip by lia.
  rewrite (proj2 (Z.ltb_ge _ _)) by (unfold maxRecordField; lia).
  rewrite (proj2 (Z.ltb_ge _ _)) by lia.
  rewrite ReadFull_app by (unfold slen, zlen; lia). by rewrite string_of_bytes_of_string.
Qed.

Lemma readString_inv r remaining s n r' :
  readString r remaining = (Ok (s, n), r') →
  r = put_field s ++ r' ∧ n = 4 + slen s ∧ field_ok s ∧ n <= remaining.
Proof.
  unfold readString. destruct (ReadFull 4 r) as [[lenBuf|e] r1] eqn:E1; [|done].
  apply ReadFull_inv in E1 as [-> H4].
  destruct (maxRecordField <? be_decode lenBuf) eqn:Hmax; [done|].
  destruct (remaining - 4 <? be_decode lenBuf) eqn:Hrem; [done|].
  destruct (ReadFull _ r1) as [[buf|e] r2] eqn:E2; [|done].
  apply ReadFull_inv in E2 as [-> Hlen]. intros [= <- <- <-]. bool_prop.
  pose proof (be_decode_range lenBuf) as Hb.
  assert (slen (string_of_bytes buf) = be_decode lenBuf) as Hs.
  { unfold slen. rewrite bytes_of_string_of_bytes. unfold zlen. lia. }
  unfold put_field, field_ok. rewrite Hs, bytes_of_string_of_bytes. unfold u32.
  rewrite Z.mod_small by (unfold zlen in Hb; rewrite H4 in Hb; simpl in Hb; lia).
  rewrite <- H4 at 1. rewrite be_encode_decode, <- app_assoc. split_and!; [done..|lia|lia].
Qed.

(** ** One record *)

Lemma Incr_tolerated now k m : tolerated [ErrNotNumeric; ErrOverflow] (Incr now k m).1 = true.
Proof.
  rewrite Incr_ok. unfold incr_spec. split_match; try done; by apply bool_decide_eq_true; set_solver.
Qed.

Lemma CAS_tolerated now k old new m : tolerated [ErrNotFound] (CAS now k old new m).1 = true.
Proof. rewrite CAS_ok. by split_match. Qed.

Lemma Expire_tolerated now k d m : tolerated [ErrNotFound] (Expire now k d m).1 = true.
Proof. rewrite Expire_ok. by split_match. Qed.

(** Evaluate the switch of [applyRecord] on a known op code. *)
Ltac eval_op :=
  unfold applyRecord;
  match goal with
  | |- context [Z_of_byte ?b] => let v := eval vm_compute in (Z_of_byte b) in change (Z_of_byte b) with v
  end;
  cbn [Z.eqb Pos.eqb opPut opDelete opClear opIncr opCAS opExpire].

(** Run a store operation whose error, if any, replay tolerates. *)
Ltac tolerate H op :=
  pose proof H as Htol; destruct op as [res mi] eqn:Hop; simpl in Htol; rewrite Htol.

Lemma applyRecord_encode now r rest remaining m :
  record_ok r → zlen (fields r) <= remaining →
  applyRecord now (byte_of_Z (code r)) (fields r ++ rest) remaining m =
    (Ok (zlen (fields r)), rest, redo now r m).
Proof.
  destruct r as [k v|k| |k|k old new|k d]; intros Hok Hrem; slens;
    cbn [code fields record_ok redo] in *; eval_op;
    autorewrite with zlen in Hrem |- *; rewrite <- ?app_assoc.
  - destruct Hok. rewrite readString_field by (done || lia). cbn iota beta.
    by rewrite readString_field by (done || lia).
  - by rewrite readString_field by (done || lia).
  - done.
  - rewrite readString_field by (done || lia). tolerate (Incr_tolerated now k m) (Incr now k m). done.
  - destruct Hok as (? & ? & ?).
    do 3 (rewrite readString_field by (done || lia); cbn iota beta).
    tolerate (CAS_tolerated now k old new m) (CAS now k old new m). do 3 f_equal. lia.
  - destruct Hok. rewrite readString_field by (done || lia). cbn iota beta.
    rewrite (proj2 (Z.ltb_ge _ _)) by lia. rewrite ReadFull_app by apply length_be_encode.
    rewrite be64_roundtrip, u64_u64, i64_u64 by done. tolerate (Expire_tolerated now k d m) (Expire now k d m). done.
Qed.

Lemma op_of_code op c : Z_of_byte op = c → op = byte_of_Z c.
Proof. intros <-. by rewrite byte_of_Z_of_byte. Qed.

(** One case of the switch. *)
Ltac op_case :=
  match goal with
  | |- context [Z_of_byte ?op =? ?c] =>
      destruct (Z_of_byte op =? c) eqn:Hop; [apply Z.eqb_eq, op_of_code in Hop as ->|clear Hop]
  end.

(** A field that was read. *)
Ltac read_field k :=
  match goal with
  | |- context [readString ?r ?n] =>
      let R := fresh in
      destruct (readString r n) as [[[k ?]|?] ?] eqn:R; [apply readString_inv in R as (-> & -> & ? & _)|done]
  end.

Ltac record_read rc :=
  intros [= <- <- <-]; exists rc; cbn [record_ok encode code fields redo app];
  rewrite <- ?app_assoc; split_and!; first [done | zlia].

(** What [applyRecord] accepts is one record, and it executes it. *)
Lemma applyRecord_inv now op r m consumed r' m' :
  applyRecord now op r (zlen r) m = (Ok consumed, r', m') →
  ∃ rc, record_ok rc ∧ op :: r = encode rc ++ r' ∧ m' = redo now rc m ∧ consumed = zlen r - zlen r'.
Proof.
  unfold applyRecord, encode.
  op_case; [read_field k; read_field v; record_read (RPut k v)|].
  op_case; [read_field k; record_read (RDelete k)|].
  op_case; [record_read RClear|].
  op_case.
  { read_field k. tolerate (Incr_tolerated now k m) (Incr now k m).
    replace mi with (Incr now k m).2 by by rewrite Hop. record_read (RIncr k). }
  op_case.
  { read_field k. read_field old. read_field new. tolerate (CAS_tolerated now k old new m) (CAS now k old new m).
    replace mi with (CAS now k old new m).2 by by rewrite Hop. record_read (RCAS k old new). }
  op_case; [|done]. read_field k. destruct (_ <? 8); [done|].
  destruct (ReadFull 8 _) as [[ts|?] r2] eqn:R2; [|done]. apply ReadFull_inv in R2 as [-> H8].
  pose proof (be_decode_range ts) as Hts. unfold zlen in Hts. rewrite H8 in Hts.
  destruct (u64_i64 (be_decode ts) Hts) as [Hi64 Hu]. set (d := i64_of_u64 (be_decode ts)) in *.
  tolerate (Expire_tolerated now k d m) (Expire now k d m).
  replace mi with (Expire now k d m).2 by by rewrite Hop.
  assert (be_encode 8 (u64 d) = ts) as Hd by (rewrite Hu, <- H8; apply be_encode_decode).
  intros [= <- <- <-]. exists (RExpire k d). cbn [record_ok encode code fields redo app].
  rewrite Hd, <- app_assoc. split_and!; [done..|]. assert (zlen ts = 8) by (unfold zlen; lia). zlia.
Qed.

(** A record that is refused leaves the store alone. *)
Lemma applyRecord_err now op r remaining m e r' m' :
  applyRecord now op r remaining m = (Err e, r', m') → m' = m ∧ e ≠ ErrMsg "fuel".
Proof.
  unfold applyRecord. intros H.
  repeat match type of H with
  | (let (_, _) := readString ?r ?n in _) = _ => destruct (readString r n) as [[[? ?]|?] ?]
  | (let (_, _) := ReadFull ?n ?r in _) = _ => destruct (ReadFull n r) as [[?|?] ?]
  | (if ?b then _ else _) = _ => destruct b
  | (let (_, _) := Incr ?n ?k ?m in _) = _ =>
      pose proof (Incr_tolerated n k m) as Ht; destruct (Incr n k m); simpl in Ht; rewrite Ht in H
  | (let (_, _) := CAS ?n ?k ?o ?w ?m in _) = _ =>
      pose proof (CAS_tolerated n k o w m) as Ht; destruct (CAS n k o w m); simpl in Ht; rewrite Ht in H
  | (let (_, _) := Expire ?n ?k ?d ?m in _) = _ =>
      pose proof (Expire_tolerated n k d m) as Ht; destruct (Expire n k d m); simpl in Ht; rewrite Ht in H
  end; by simplify_eq.
Qed.

(** ** The record loop *)

Lemma encode_all_cons r rs : encode_all (r :: rs) = encode r ++ encode_all rs.
Proof. done. Qed.

Lemma encode_all_one r : encode_all [r] ++ [] = encode r.
Proof. unfold encode_all. cbn [fmap list_fmap concat]. by rewrite !app_nil_r. Qed.

Lemma encode_all_app rs1 rs2 : encode_all (rs1 ++ rs2) = encode_all rs1 ++ encode_all rs2.
Proof. unfold encode_all. by rewrite fmap_app, concat_app. Qed.

Lemma replay_records_encode fuel clk i rs tail m :
  Forall record_ok rs →
  replay_records (length rs + fuel) clk i (encode_all rs ++ tail) (zlen (encode_all rs ++ tail)) m =
    replay_records fuel clk (i + length rs) tail (zlen tail) (redo_all clk i rs m).
Proof.
  intros Hok. revert i m. induction Hok as [|r rs Hr _ IH]; intros i m.
  - simpl. by rewrite Nat.add_0_r.
  - rewrite encode_all_cons, <- app_assoc. unfold encode. cbn [replay_records length Nat.add app].
    rewrite zlen_cons, (proj2 (Z.ltb_lt _ _)) by zlia.
    rewrite Z.add_simpl_l, applyRecord_encode; [|done|zlia].
    rewrite zlen_app, Z.add_simpl_l, IH. simpl. by rewrite Nat.add_succ_r.
Qed.

(** The tail at which the loop stops does not start with a record. *)
Definition no_record (tail : bytes) : Prop := ∀ r t, record_ok r → tail ≠ encode r ++ t.

Lemma replay_records_spec fuel clk i r m :
  (length r < fuel)%nat →
  ∃ rs tail, r = encode_all rs ++ tail ∧ Forall record_ok rs ∧ no_record tail ∧
    ∃ n res, replay_records fuel clk i r (zlen r) m = (res, n, redo_all clk i rs m) ∧
      (tail = [] → res = Ok () ∧ n = (i + length rs)%nat) ∧
      (tail ≠ [] → ∃ e, res = Err e ∧ e ≠ ErrMsg "fuel").
Proof.
  revert i r m. induction fuel as [|fuel IH]; intros i r m Hf; [lia|].
  destruct r as [|op r].
  { exists [], []. split_and!; [done..|by intros []|]. exists i, (Ok ()). split_and!; [done| |done].
    intros _. simpl. split; [done|lia]. }
  cbn [replay_records].
  rewrite zlen_cons, (proj2 (Z.ltb_lt _ _)), Z.add_simpl_l by zlia.
  destruct (applyRecord (clk i) op r (zlen r) m) as [[[consumed|e] r'] m'] eqn:Ha.
  - apply applyRecord_inv in Ha as (rc & Hrc & Heq & -> & ->).
    assert (length r' < fuel)%nat as Hlt.
    { apply (f_equal length) in Heq. unfold encode in Heq. simpl in *. rewrite length_app in Heq. lia. }
    replace (zlen r - (zlen r - zlen r')) with (zlen r') by lia.
    destruct (IH (S i) r' (redo (clk i) rc m) Hlt) as (rs & tail & -> & Hrs & Ht & n & res & Hrun & H1 & H2).
    exists (rc :: rs), tail. split_and!.
    + rewrite Heq, encode_all_cons. by rewrite app_assoc.
    + by constructor.
    + done.
    + exists n, res. split_and!; [done| |done]. intros Hn. destruct (H1 Hn). split; [done|simpl; lia].
  - assert (no_record (op :: r)) as Hno.
    { intros rc t Hrc [= -> ->]. rewrite applyRecord_encode in Ha; [done..|zlia]. }
    apply applyRecord_err in Ha as [-> He]. exists [], (op :: r). split_and!; [done..|].
    exists (S i), (Err e). split_and!; [done..|]. eauto.
Qed.

(** Records are self-delimiting: an encoding followed by anything is read back
    with the same rest. *)
Lemma encode_app_inv r1 r2 t1 t2 :
  record_ok r1 → record_ok r2 → encode r1 ++ t1 = encode r2 ++ t2 → t1 = t2.
Proof.
  intros H1 H2 [= Hc Hf].
  pose proof (applyRecord_encode 0 r1 t1 (zlen (fields r1 ++ t1)) NewMemStore H1 ltac:(zlia)) as E1.
  pose proof (applyRecord_encode 0 r2 t2 (zlen (fields r2 ++ t2)) NewMemStore H2 ltac:(zlia)) as E2.
  rewrite Hc, Hf in E1. congruence.
Qed.

Lemma torn_no_record r n :
  record_ok r → (n < length (encode r))%nat → no_record (take n (encode r)).
Proof.
  intros Hr Hn rc t Hrc Heq.
  assert (encode r ++ [] = encode rc ++ (t ++ drop n (encode r))) as H.
  { by rewrite app_nil_r, app_assoc, <- Heq, take_drop. }
  apply encode_app_inv in H; [|done..]. symmetry in H. apply app_nil in H as [_ H].
  apply (f_equal length) in H. rewrite length_drop in H. simpl in *. lia.
Qed.

Lemma length_encode_all rs : (length rs <= length (encode_all rs))%nat.
Proof. induction rs as [|r rs IH]; [done|]. rewrite encode_all_cons, length_app. simpl. lia. Qed.

Lemma replay_torn fuel clk i rs tail m :
  Forall record_ok rs → tail ≠ [] → no_record tail → (length (encode_all rs ++ tail) < fuel)%nat →
  ∃ n e, replay_records fuel clk i (encode_all rs ++ tail) (zlen (encode_all rs ++ tail)) m =
    (Err e, n, redo_all clk i rs m) ∧ e ≠ ErrMsg "fuel".
Proof.
  intros Hrs Hne Hno Hf.
  pose proof (length_encode_all rs) as Hlen.
  rewrite length_app in Hf.
  replace fuel with (length rs + (fuel - length rs))%nat by lia. rewrite replay_records_encode by done.
  destruct (replay_records_spec (fuel - length rs) clk (i + length rs) tail (redo_all clk i rs m))
    as (rs' & tail' & Heq & Hrs' & _ & n & res & Hrun & _ & Herr); [lia|].
  destruct rs' as [|r' rs'].
  - simpl in Heq. subst tail'. destruct (Herr Hne) as (e & -> & He). eauto.
  - exfalso. apply Forall_cons in Hrs' as [Hr' _]. rewrite encode_all_cons, <- app_assoc in Heq.
    by apply (Hno r' (encode_all rs' ++ tail')).
Qed.

(** ** Sealed records *)

(** What [append] writes for a record under a cipher. *)
Definition blob (c : atRestCipher) (p : bytes * record) : bytes :=
  let sealed := p.1 ++ Seal (aead c) p.1 (encode p.2) in
  be_encode 4 (u32 (zlen sealed)) ++ sealed.

(** A sealed record that replay accepts: it fits the bound replay checks. *)
Definition blob_ok (p : bytes * record) : Prop :=
  length p.1 = atRestNonceSize ∧ record_ok p.2 ∧ zlen (encode p.2) + 28 <= maxRecordField * 2 + 64.

Section sealed.
Context (c : atRestCipher) (Hlaws : AEAD_laws (aead c)).

Lemma sealed_len p : blob_ok p →
  zlen (p.1 ++ Seal (aead c) p.1 (encode p.2)) = zlen (encode p.2) + 28 ∧
  Decrypt c (p.1 ++ Seal (aead c) p.1 (encode p.2)) = Ok (encode p.2).
Proof. intros (Hn & _). by destruct (Decrypt_Encrypt c (Some p.1) (encode p.2) _ Hlaws Hn eq_refl). Qed.

Lemma blob_header p : blob_ok p →
  be_decode (be_encode 4 (u32 (zlen (p.1 ++ Seal (aead c) p.1 (encode p.2))))) = zlen (encode p.2) + 28.
Proof.
  intros Hp. destruct (sealed_len p Hp) as [-> _]. destruct Hp as (_ & _ & Hb).
  assert (0 <= zlen (encode p.2) + 28 < 2 ^ 32) as Hr by (unfold maxRecordField in Hb; zlia).
  unfold u32. rewrite Z.mod_small by done. by apply be32_roundtrip.
Qed.

Lemma length_blob p : blob_ok p → zlen (blob c p) = zlen (encode p.2) + 32.
Proof.
  intros Hp. unfold blob. rewrite zlen_app, zlen_be_encode. destruct (sealed_len p Hp) as [-> _]. lia.
Qed.

Lemma replay_blob fuel clk i p rest m : blob_ok p →
  replay_blobs (S fuel) c clk i (blob c p ++ rest) m =
    replay_blobs fuel c clk (S i) rest (redo (clk i) p.2 m).
Proof.
  intros Hp. cbn [replay_blobs]. unfold blob. rewrite <- app_assoc, ReadFull_app by apply length_be_encode.
  cbn iota beta zeta. rewrite blob_header by done.
  destruct (sealed_len p Hp) as [Hlen Hdec]. destruct Hp as (_ & Hok & Hb).
  rewrite (proj2 (Z.ltb_ge _ _)) by lia. rewrite ReadFull_app by (unfold zlen in *; lia).
  cbn iota beta. rewrite Hdec.
  pose proof (replay_records_encode (length (encode p.2)) clk i [p.2] [] m) as Hr.
  rewrite encode_all_one in Hr. cbn [length Nat.add] in Hr.
  rewrite Hr, Nat.add_1_r by by constructor. done.
Qed.

(** The bytes a crash in the middle of [append] leaves of a sealed record: a
    torn header, or a header without a body, is skipped; a torn body is
    reported. *)
Lemma replay_torn_blob fuel clk i p n m :
  blob_ok p → (n < length (blob c p))%nat →
  replay_blobs (S fuel) c clk i (take n (blob c p)) m =
    (if decide (n <= 4)%nat then Ok () else Err (ErrMsg "read encrypted wal record"), i, m).
Proof.
  intros Hp Hn. pose proof (length_blob p Hp) as Hlen. cbn [replay_blobs].
  destruct (decide (n < 4)%nat) as [Hlt|Hge].
  { destruct (ReadFull_short 4 (take n (blob c p))) as (e & -> & _); [rewrite length_take; lia|].
    rewrite decide_True by lia. done. }
  destruct (sealed_len p Hp) as [Hsl _]. pose proof (blob_header p Hp) as Hh. destruct Hp as (_ & _ & Hb).
  unfold blob in *. set (hd := be_encode 4 _) in *. set (sealed := p.1 ++ _) in *.
  assert (length hd = 4%nat) as Hhd by apply length_be_encode.
  rewrite take_app, take_ge, ReadFull_app by lia. cbn iota beta zeta. rewrite Hh.
  rewrite (proj2 (Z.ltb_ge _ _)) by lia. rewrite Hhd, length_app, Hhd in *.
  unfold ReadFull. rewrite decide_False by (unfold zlen in *; lia).
  case_decide as Hnil.
  - apply (f_equal length) in Hnil. rewrite length_take in Hnil. simpl in Hnil.
    rewrite decide_True; [done|]. unfold zlen in *. lia.
  - rewrite decide_False by (rewrite length_take; unfold zlen in *; lia).
    rewrite decide_False; [done|]. intros ?. apply Hnil. by replace (n - 4)%nat with 0%nat by lia.
Qed.

Lemma replay_blobs_encode fuel clk i ps rest m :
  Forall blob_ok ps →
  replay_blobs (length ps + fuel) c clk i (concat (blob c <$> ps) ++ rest) m =
    replay_blobs fuel c clk (i + length ps) rest (redo_all clk i ps.*2 m).
Proof.
  intros Hok. revert i m. induction Hok as [|p ps Hp _ IH]; intros i m.
  - simpl. by rewrite Nat.add_0_r.
  - cbn [length Nat.add fmap list_fmap concat]. rewrite <- app_assoc, replay_blob, IH by done.
    by rewrite Nat.add_succ_r.
Qed.

Lemma length_blobs ps : (length ps <= length (concat (blob c <$> ps)))%nat.
Proof.
  induction ps as [|p ps IH]; [done|]. cbn [fmap list_fmap concat length]. rewrite length_app.
  assert (4 <= length (blob c p))%nat; [|lia]. unfold blob. rewrite length_app, length_be_encode. lia.
Qed.
End sealed.

(** The loop on sealed records ends on every input. *)
Lemma replay_blobs_total fuel c clk i r m :
  (length r < fuel)%nat → (replay_blobs fuel c clk i r m).1.1 ≠ Err (ErrMsg "fuel").
Proof.
  revert i r m. induction fuel as [|fuel IH]; intros i r m Hf; [lia|]. cbn [replay_blobs].
  destruct (ReadFull 4 r) as [[hd|e] r1] eqn:E1; [|done]. apply ReadFull_inv in E1 as [-> H4].
  destruct (_ <? _); [done|]. destruct (ReadFull _ r1) as [[sealed|[]] r2] eqn:E2; try done.
  apply ReadFull_inv in E2 as [-> _]. destruct (Decrypt c sealed) as [plain|]; [|done].
  destruct (replay_records_spec (S (length plain)) clk i plain m)
    as (rs & tail & _ & _ & _ & n & res & -> & Hok & Herr); [lia|].
  destruct (decide (tail = [])) as [Ht|Ht].
  - destruct (Hok Ht) as [-> _]. apply IH. rewrite !length_app in Hf. lia.
  - destruct (Herr Ht) as (e & -> & He). simpl. congruence.
Qed.

(** ** Replay at another time

    Replay runs [Incr], [CAS] and [Expire] again with the clock of the
    recovery.  Until a deadline has passed this makes no difference. *)

(** No deadline of the store falls before or on [T]. *)
Definition live_until (T : Z) (m : MemStore) : Prop :=
  ∀ k e, data m !! k = Some e → entryExpired e T = false.

Definition deadline_after (T : Z) (r : record) : Prop :=
  match r with RExpire _ d => d = 0 ∨ T < d | _ => True end.

Lemma entryExpired_before e t T : entryExpired e T = false → t <= T → entryExpired e t = false.
Proof.
  intros H Ht. destruct (entryExpired e t) eqn:E; [|done].
  by rewrite (entryExpired_mono e t T) in H.
Qed.

Lemma lookup_live_before T t k m : live_until T m → t <= T → lookup_live t k m = (data m !! k, m).
Proof.
  intros Hm Ht. unfold lookup_live. destruct (data m !! k) as [e|] eqn:E; [|done].
  by rewrite (entryExpired_before e t T) by eauto.
Qed.

Lemma live_until_insert T k v d m :
  live_until T m → d = 0 ∨ T < d → live_until T (set_data (<[k := mkEntry v d]> (data m)) m).
Proof.
  intros Hm Hd k' e. simpl. intros [[<- <-]|[_ H]]%lookup_insert_Some; [|by eapply Hm].
  apply not_true_iff_false. rewrite entryExpired_spec. simpl. lia.
Qed.

Lemma redo_before T t1 t2 r m :
  live_until T m → deadline_after T r → t1 <= T → t2 <= T →
  redo t1 r m = redo t2 r m ∧ live_until T (redo t1 r m).
Proof.
  intros Hm Hr H1 H2. destruct r as [k v|k| |k|k old new|k d]; simpl in *;
    unfold Incr, CAS, Expire; rewrite ?(lookup_live_before T) by done; (split; [done|]).
  - by apply live_until_insert; auto.
  - intros k' e. simpl. intros [_ H]%lookup_delete_Some. by eapply Hm.
  - by intros k' e.
  - split_match; try done; by apply live_until_insert; auto.
  - split_match; try done; by apply live_until_insert; auto.
  - split_match; try done; by apply live_until_insert; auto.
Qed.

Lemma redo_all_before T clk1 clk2 i rs m :
  live_until T m → Forall (deadline_after T) rs → (∀ j, clk1 j <= T) → (∀ j, clk2 j <= T) →
  redo_all clk1 i rs m = redo_all clk2 i rs m.
Proof.
  intros Hm Hrs H1 H2. revert i m Hm. induction Hrs as [|r rs Hr _ IH]; intros i m Hm; [done|]. simpl.
  destruct (redo_before T (clk1 i) (clk2 i) r m) as [He Hl]; [done..|]. rewrite <- He. by apply IH.
Qed.

(** Whole logs. *)
Lemma replayPlain_run clk rs m :
  Forall record_ok rs → replayPlain clk (encode_all rs) (zlen (encode_all rs)) m = (Ok (), length rs, redo_all clk 0 rs m).
Proof.
  intros Hrs. unfold replayPlain. pose proof (length_encode_all rs) as Hlen.
  replace (S (length (encode_all rs))) with (length rs + S (length (encode_all rs) - length rs))%nat by lia.
  rewrite <- (app_nil_r (encode_all rs)) at 2 3. by rewrite replay_records_encode.
Qed.

Lemma replayEncrypted_eq c clk ps p n m :
  AEAD_laws (aead c) → Forall blob_ok ps → blob_ok p → (n < length (blob c p))%nat →
  replayEncrypted c clk (walEncryptedMagic :: concat (blob c <$> ps) ++ take n (blob c p)) m =
    (if decide (n <= 4)%nat then Ok () else Err (ErrMsg "read encrypted wal record"), length ps,
     redo_all clk 0 ps.*2 m).
Proof.
  intros Hl Hps Hp Hn. unfold replayEncrypted. rewrite bool_decide_true by done.
  cbn [negb]. set (rest := take n (blob c p)). set (body := _ ++ rest).
  assert (length ps <= length body)%nat by (unfold body; rewrite length_app; pose proof (length_blobs c ps); lia).
  replace (S (length body)) with (length ps + S (length body - length ps))%nat by lia.
  unfold body, rest. rewrite replay_blobs_encode, replay_torn_blob by done. done.
Qed.

(** ** The properties *)

(** C31 (replaying a plaintext log, on every input): whatever bytes the log file
    holds, replay executes the longest run of well-formed records it starts
    with, in order, and nothing else; it returns [nil] exactly when these
    records are the whole file, and it always returns. *)
Theorem replayPlain_spec clk content m :
  ∃ rs tail, content = encode_all rs ++ tail ∧ Forall record_ok rs ∧ no_record tail ∧
    let '(res, _, m') := replayPlain clk content (zlen content) m in
    m' = redo_all clk 0 rs m ∧ (tail = [] ↔ res = Ok ()) ∧ res ≠ Err (ErrMsg "fuel").
Proof.
  destruct (replay_records_spec (S (length content)) clk 0 content m)
    as (rs & tail & Heq & Hrs & Hno & n & res & Hrun & Hok & Herr); [lia|].
  exists rs, tail. split_and!; [done..|]. unfold replayPlain. rewrite Hrun. split; [done|].
  destruct (decide (tail = [])) as [Ht|Ht].
  - destruct (Hok Ht) as [-> _]. done.
  - destruct (Herr Ht) as (e & -> & He). split; [done|]. congruence.
Qed.

(** Crash in the middle of an append: a plaintext log that ends in a
    proper, non-empty part of a record is reported as an error, after exactly
    the complete records were executed. *)
Theorem replayPlain_torn clk rs r n m :
  Forall record_ok rs → record_ok r → (0 < n < length (encode r))%nat →
  let content := encode_all rs ++ take n (encode r) in
  ∃ e i, replayPlain clk content (zlen content) m = (Err e, i, redo_all clk 0 rs m) ∧ e ≠ ErrMsg "fuel".
Proof.
  intros Hrs Hr Hn content.
  destruct (replay_torn (S (length content)) clk 0 rs (take n (encode r)) m) as (i & e & He);
    [done| |apply torn_no_record; [done|lia]|unfold content; lia|eauto].
  intros H. apply (f_equal length) in H. rewrite length_take in H. simpl in *. lia.
Qed.

Lemma replayPlain_torn_witness :
  ∃ e i, replayPlain (λ _, 0) (encode_all [RPut "a" "1"; RIncr "a"] ++ take 7 (encode (RPut "b" "2")))
    (zlen (encode_all [RPut "a" "1"; RIncr "a"] ++ take 7 (encode (RPut "b" "2")))) NewMemStore =
    (Err e, i, redo_all (λ _, 0) 0 [RPut "a" "1"; RIncr "a"] NewMemStore) ∧ e ≠ ErrMsg "fuel".
Proof.
  apply (replayPlain_torn (λ _, 0) [RPut "a" "1"; RIncr "a"] (RPut "b" "2") 7 NewMemStore).
  - repeat constructor; vm_compute; discriminate.
  - split; vm_compute; discriminate.
  - vm_compute. lia.
Defined.

(** C32 (encrypted log): replaying a log of sealed records, of any keys and values
    that fit a record, is replaying the plaintext log of the same records: both
    return without an error after executing exactly these records in order.  The
    same holds when a crash left up to four bytes of a further record, its length
    prefix or a part of it, at the end: they are skipped. *)
Theorem replayEncrypted_intact c clk ps p n m :
  AEAD_laws (aead c) → Forall blob_ok ps → blob_ok p → (n <= 4)%nat →
  let log := encode_all ps.*2 in
  replayEncrypted c clk (walEncryptedMagic :: concat (blob c <$> ps) ++ take n (blob c p)) m =
    replayPlain clk log (zlen log) m ∧
  replayPlain clk log (zlen log) m = (Ok (), length ps, redo_all clk 0 ps.*2 m).
Proof.
  intros Hl Hps Hp Hn log.
  assert (Hrun : replayPlain clk log (zlen log) m = (Ok (), length ps, redo_all clk 0 ps.*2 m)).
  { unfold log. rewrite replayPlain_run, length_fmap; [done|]. apply Forall_fmap. eapply Forall_impl; [exact Hps|]. by intros q (_ & ? & _). }
  assert (n < length (blob c p))%nat by (pose proof (length_blob c Hl p Hp); unfold zlen in *; lia).
  split; [|done]. rewrite Hrun, replayEncrypted_eq by done. by rewrite decide_True.
Qed.

Lemma replayEncrypted_intact_witness :
  let c := mkCipher toy_aead in
  let nonce := replicate 12 "n"%char in
  let ps := [(nonce, RPut "a" "1"); (nonce, RIncr "a")] in
  let p := (nonce, RDelete "a") in
  replayEncrypted c (λ _, 0) (walEncryptedMagic :: concat (blob c <$> ps) ++ take 3 (blob c p)) NewMemStore =
    replayPlain (λ _, 0) (encode_all ps.*2) (zlen (encode_all ps.*2)) NewMemStore ∧
  replayPlain (λ _, 0) (encode_all ps.*2) (zlen (encode_all ps.*2)) NewMemStore = (Ok (), 2%nat, redo_all (λ _, 0) 0 ps.*2 NewMemStore).
Proof.
  intros c nonce ps p. apply (replayEncrypted_intact c (λ _, 0) ps p 3 NewMemStore).
  - apply toy_aead_laws.
  - repeat constructor; vm_compute; discriminate.
  - repeat constructor; vm_compute; discriminate.
  - lia.
Defined.

(** A torn sealed record: a log that ends in more than the length prefix of a
    record, but not all of it, is reported as an error, after exactly the complete
    records were executed. *)
Theorem replayEncrypted_torn c clk ps p n m :
  AEAD_laws (aead c) → Forall blob_ok ps → blob_ok p → (4 < n < length (blob c p))%nat →
  replayEncrypted c clk (walEncryptedMagic :: concat (blob c <$> ps) ++ take n (blob c p)) m =
    (Err (ErrMsg "read encrypted wal record"), length ps, redo_all clk 0 ps.*2 m).
Proof. intros Hl Hps Hp Hn. rewrite replayEncrypted_eq by (done || lia). by rewrite decide_False by lia. Qed.

Lemma replayEncrypted_torn_witness :
  let c := mkCipher toy_aead in
  let nonce := replicate 12 "n"%char in
  let ps := [(nonce, RPut "a" "1"); (nonce, RIncr "a")] in
  let p := (nonce, RDelete "a") in
  replayEncrypted c (λ _, 0) (walEncryptedMagic :: concat (blob c <$> ps) ++ take 20 (blob c p)) NewMemStore =
    (Err (ErrMsg "read encrypted wal record"), 2%nat, redo_all (λ _, 0) 0 ps.*2 NewMemStore).
Proof.
  intros c nonce ps p. apply (replayEncrypted_torn c (λ _, 0) ps p 20 NewMemStore).
  - apply toy_aead_laws.
  - repeat constructor; vm_compute; discriminate.
  - repeat constructor; vm_compute; discriminate.
  - vm_compute. lia.
Defined.

(** Expiry and replay: replaying a log after a deadline of the log has
    passed does not restore the acknowledged state.  Here a key is stored, given
    the deadline 100, and swapped at time 50, which removes the deadline; the
    swap was acknowledged and the key never expires, but replay at time 200
    finds the key expired when it reaches the swap, and the key is gone. *)
Theorem replay_forgets_acknowledged_cas :
  let log := [RPut "k" "v"; RExpire "k" 100; RCAS "k" "v" "w"] in
  let before := redo_all (λ _, 50) 0 log NewMemStore in
  let recovered := replayPlain (λ _, 200) (encode_all log) (zlen (encode_all log)) NewMemStore in
  (CAS 50 "k" "v" "w" (redo_all (λ _, 50) 0 (take 2 log) NewMemStore)).1 = Ok true ∧
  (Get 200 200 "k" before).1 = Ok "w"%string ∧
  recovered.1.1 = Ok () ∧ (Get 200 200 "k" recovered.2).1 = Err ErrNotFound.
Proof. vm_compute. done. Qed.
