(* ===== verification/Snapshot.v ===== *)
(** * Snapshot: the snapshot format of pkg/storage/snapshot.go

    The version-2 envelope as [json.Marshal] prints it and [decodeSnapshot],
    which also accepts the raw map of version 1. *)

From S2P Require Import Prelude GoLib Engine MemStore Json.

Definition snapshotVersion : Z := 2.

(** The envelope; a nil [Data] is [None]. *)
Record snapshotFile : Type := mkSnap { V : Z; Data : option (gmap string entry) }.

(** ** Marshal *)

Definition marshal_entry (e : entry) : json :=
  JObj (("value"%string, JStr (Value e)) ::
        if Exp e =? 0 then [] else [("exp"%string, JNum (FormatInt (Exp e)))]).

(** Maps are printed in the order of their keys. *)
Definition key_le {A} (p q : string * A) : Prop := String.le p.1 q.1.
Global Instance key_le_dec {A} (p q : string * A) : Decision (key_le p q).
Proof. unfold key_le. apply _. Defined.

Definition sorted_entries {A} (m : gmap string A) : list (string * A) :=
  go_sort key_le (map_to_list m).

Definition marshal_data (m : gmap string entry) : json :=
  JObj ((λ p : string * entry, (p.1, marshal_entry p.2)) <$> sorted_entries m).

Definition marshal_snapshot (s : snapshotFile) : bytes :=
  print (JObj [("v"%string, JNum (FormatInt (V s)));
               ("data"%string, match Data s with None => JNull | Some m => marshal_data m end)]).

(** ** Unmarshal *)

Definition set_entry (key : string) (j : json) (e : entry) : option entry :=
  if is_field "value" key then v ← decode_string (Value e) j; Some (mkEntry v (Exp e))
  else if is_field "exp" key then x ← decode_int (Exp e) j; Some (mkEntry (Value e) x)
  else Some e.

Definition unmarshal_entry (j : json) : option entry := decode_struct set_entry (mkEntry "" 0) j.

Definition set_snapshot (key : string) (j : json) (s : snapshotFile) : option snapshotFile :=
  if is_field "v" key then v ← decode_int (V s) j; Some (mkSnap v (Data s))
  else if is_field "data" key then d ← decode_map unmarshal_entry (Data s) j; Some (mkSnap (V s) d)
  else Some s.

Definition unmarshal_snapshot (data : bytes) : option snapshotFile :=
  j ← parse data; decode_struct set_snapshot (mkSnap 0 None) j.

(** [json.Unmarshal(data, &v1)] into a [map[string]string]. *)
Definition unmarshal_v1 (data : bytes) : option (option (gmap string string)) :=
  j ← parse data; decode_map (decode_string "") None j.

(** [decodeSnapshot(data, dst)] into a fresh map. *)
Definition decodeSnapshot (data : bytes) : res (gmap string entry) :=
  let v1 :=
    match unmarshal_v1 data with
    | None => Err (ErrMsg "unmarshal snapshot")
    | Some m => Ok ((λ v, mkEntry v 0) <$> default ∅ m)
    end in
  match unmarshal_snapshot data with
  | Some sf =>
      if (0 <? V sf) || bool_decide (is_Some (Data sf)) then Ok (default ∅ (Data sf)) else v1
  | None => v1
  end.

(** ** Round trips *)

(** What survives JSON: valid UTF-8 and [int64] deadlines. *)
Definition entry_ok (e : entry) : Prop := ValidString (Value e) = true ∧ in_int64 (Exp e).
Definition store_ok (m : gmap string entry) : Prop :=
  map_Forall (λ k e, ValidString k = true ∧ entry_ok e) m.

(** What a snapshot keeps of a store: JSON replaces what is no UTF-8 by U+FFFD, in
    values and in keys; of keys that become the same the last one wins. *)
Definition coerce_entry (e : entry) : entry := mkEntry (coerce (Value e)) (Exp e).
Definition snapshot_data (m : gmap string entry) : gmap string entry :=
  foldl (λ acc p, <[coerce p.1 := coerce_entry p.2]> acc) ∅ (sorted_entries m).

(** Deadlines have the type [int64]. *)
Definition exps_int64 (m : gmap string entry) : Prop := map_Forall (λ _ e, in_int64 (Exp e)) m.

Lemma marshal_entry_wf e : json_wf (marshal_entry e).
Proof.
  unfold marshal_entry. destruct (Exp e =? 0); cbn [json_wf foldr].
  - done.
  - split; [done|]. split; [apply FormatInt_wf|done].
Qed.

Lemma unmarshal_marshal_entry e : in_int64 (Exp e) → unmarshal_entry (marshal_entry e) = Some e.
Proof.
  intros Hx. destruct e as [v x]. unfold unmarshal_entry, marshal_entry. simpl in *.
  destruct (x =? 0) eqn:E; bool_prop; simpl; [by subst|].
  unfold set_entry. simpl. by rewrite ParseInt_FormatInt.
Qed.

Lemma sorted_entries_perm {A} (m : gmap string A) : sorted_entries m ≡ₚ map_to_list m.
Proof. apply go_sort_Permutation. Qed.

Lemma sorted_entries_fold {A} (m : gmap string A) :
  foldl (λ (acc : gmap string A) p, <[p.1 := p.2]> acc) ∅ (sorted_entries m) = m.
Proof.
  transitivity (list_to_map (reverse (sorted_entries m)) : gmap string A).
  - generalize (sorted_entries m). intros l. induction l as [|p l IH] using rev_ind; [done|].
    by rewrite foldl_app, reverse_snoc, IH.
  - rewrite <- (list_to_map_to_list m) at 2. apply list_to_map_proper.
    + rewrite reverse_Permutation, sorted_entries_perm. apply NoDup_fst_map_to_list.
    + by rewrite reverse_Permutation, sorted_entries_perm.
Qed.

Lemma marshal_data_wf m : json_wf (marshal_data m).
Proof.
  unfold marshal_data. cbn [json_wf]. induction (sorted_entries m) as [|p l IH]; [done|].
  csimpl. split; [apply marshal_entry_wf|done].
Qed.

Lemma coerce_marshal_entry e : coerce_json (marshal_entry e) = marshal_entry (coerce_entry e).
Proof. unfold marshal_entry, coerce_entry. cbn [Exp Value]. by destruct (Exp e =? 0). Qed.

Lemma coerce_marshal_data m :
  coerce_json (marshal_data m) =
  JObj ((λ p : string * entry, (p.1, marshal_entry p.2)) <$> ((λ p, (coerce p.1, coerce_entry p.2)) <$> sorted_entries m)).
Proof.
  unfold marshal_data. rewrite coerce_obj. f_equal.
  induction (sorted_entries m) as [|p l IH]; [done|]. cbn [fmap list_fmap map coerce_member fst snd].
  by rewrite coerce_marshal_entry, IH.
Qed.

Lemma decode_marshal_data m :
  exps_int64 m → decode_map unmarshal_entry None (coerce_json (marshal_data m)) = Some (Some (snapshot_data m)).
Proof.
  intros Hm. rewrite coerce_marshal_data. unfold decode_map. rewrite decode_map_list.
  - cbn [default fmap option_fmap option_map]. do 2 f_equal. unfold snapshot_data. generalize (∅ : gmap string entry).
    induction (sorted_entries m) as [|p l IH]; intros acc; [done|]. cbn. apply IH.
  - intros p (q & -> & Hq)%list_elem_of_fmap. apply unmarshal_marshal_entry. cbn.
    rewrite sorted_entries_perm in Hq. destruct q as [k e]. apply elem_of_map_to_list in Hq. by apply (Hm k e).
Qed.

Lemma unmarshal_marshal_snapshot m : exps_int64 m →
  unmarshal_snapshot (marshal_snapshot (mkSnap snapshotVersion (Some m))) = Some (mkSnap snapshotVersion (Some (snapshot_data m))).
Proof.
  intros Hm. unfold unmarshal_snapshot, marshal_snapshot. cbn [V Data].
  rewrite <- (app_nil_r (print _)), parse_print; [|split; [apply FormatInt_wf|]; split; [apply marshal_data_wf|done]|done..].
  cbn [mbind option_bind]. change (coerce_json (JObj [("v", JNum ?n); ("data", ?d)]))
    with (JObj [("v"%string, JNum n); ("data"%string, coerce_json d)]).
  unfold decode_struct. cbn [foldl fst snd].
  change (Some (mkSnap 0 None) ≫= _) with (Some (mkSnap snapshotVersion None)). cbn [mbind option_bind].
  change (set_snapshot "data" ?j (mkSnap ?v ?d)) with (d' ← decode_map unmarshal_entry d j; Some (mkSnap v d')).
  by rewrite decode_marshal_data.
Qed.

(** Every snapshot decodes. *)
Lemma snapshot_decodes m :
  exps_int64 m → decodeSnapshot (marshal_snapshot (mkSnap snapshotVersion (Some m))) = Ok (snapshot_data m).
Proof. intros Hm. unfold decodeSnapshot. by rewrite unmarshal_marshal_snapshot. Qed.

(** With valid keys only the values change, and valid data does not. *)
Lemma snapshot_data_values m :
  map_Forall (λ k _, ValidString k = true) m → snapshot_data m = coerce_entry <$> m.
Proof.
  intros Hm. rewrite <- (sorted_entries_fold m) at 2. unfold snapshot_data.
  assert (∀ p, p ∈ sorted_entries m → coerce p.1 = p.1) as Hl.
  { intros [k e]. rewrite sorted_entries_perm, elem_of_map_to_list. intros He. apply coerce_valid. by apply (Hm k e). }
  induction (sorted_entries m) as [|p l IH] using rev_ind; [cbn; by rewrite fmap_empty|].
  rewrite !foldl_app. cbn. rewrite IH, fmap_insert by (intros q Hq; apply Hl; set_solver).
  by rewrite Hl by set_solver.
Qed.

Lemma snapshot_data_valid m : store_ok m → snapshot_data m = m.
Proof.
  intros Hm. rewrite snapshot_data_values by (intros k e He; by destruct (Hm k e He)).
  apply map_eq. intros k. rewrite lookup_fmap. destruct (m !! k) as [[v x]|] eqn:E; [|done].
  destruct (Hm k _ E) as [_ [Hv _]]. cbn [Value] in Hv. change (Some (mkEntry (coerce v) x) = Some (mkEntry v x)). by rewrite coerce_valid.
Qed.

Lemma store_ok_exps m : store_ok m → exps_int64 m.
Proof. intros Hm k e He. by destruct (Hm k e He) as [_ [_ ?]]. Qed.

(** What decodes has [int64] deadlines. *)
Lemma foldl_option_inv {A B : Type} (P : A → Prop) (f : A → B → option A) l a :
  P a → (∀ a b a', P a → f a b = Some a' → P a') →
  ∀ a', foldl (λ acc b, a ← acc; f a b) (Some a) l = Some a' → P a'.
Proof.
  intros Ha Hf. induction l as [|b l IH] using rev_ind; intros a'; [by intros [= <-]|].
  rewrite foldl_app. cbn. destruct (foldl _ _ l) as [a1|]; [|done]. cbn. apply Hf. by apply IH.
Qed.

Lemma unmarshal_entry_int64 j e : unmarshal_entry j = Some e → in_int64 (Exp e).
Proof.
  unfold unmarshal_entry, decode_struct. destruct j as [| |lit| | |l]; try done; [by intros [= <-]|].
  revert e. apply (foldl_option_inv (λ e, in_int64 (Exp e)) (λ e p, set_entry p.1 p.2 e)); [done|].
  intros e [key j] e' He. unfold set_entry. cbn [fst snd]. destruct (is_field "value" key).
  { destruct (decode_string _ j); [|done]. by intros [= <-]. }
  destruct (is_field "exp" key); [|by intros [= <-]].
  destruct j as [| |lit| | |]; try done; cbn; [by intros [= <-]|].
  destruct (ParseInt lit) as [x|] eqn:Hx; [|done]. intros [= <-]. by apply ParseInt_range in Hx.
Qed.

Lemma decode_map_int64 cur j m :
  exps_int64 (default ∅ cur) → decode_map unmarshal_entry cur j = Some m → exps_int64 (default ∅ m).
Proof.
  intros Hc. unfold decode_map. destruct j as [| | | | |l]; try done; [by intros [= <-]|].
  destruct (foldl _ _ l) as [m'|] eqn:E; [|done]. intros [= <-]. revert m' E.
  apply (foldl_option_inv exps_int64 (λ m (p : string * json), v ← unmarshal_entry p.2; Some (<[p.1:=v]> m))); [done|].
  intros a [key j] a' Ha. cbn. destruct (unmarshal_entry j) as [e|] eqn:He; [|done]. intros [= <-].
  apply map_Forall_insert_2; [by apply unmarshal_entry_int64 in He|done].
Qed.

Lemma decodeSnapshot_int64 b m : decodeSnapshot b = Ok m → exps_int64 m.
Proof.
  unfold decodeSnapshot, unmarshal_snapshot.
  assert (∀ m, match unmarshal_v1 b with
               | None => Err (ErrMsg "unmarshal snapshot")
               | Some m => Ok ((λ v, mkEntry v 0) <$> default ∅ m)
               end = Ok m → exps_int64 m) as Hv1.
  { destruct (unmarshal_v1 b) as [v1|]; intros m'; intros [= <-]. by apply map_Forall_fmap. }
  destruct (parse b) as [j|]; [|apply Hv1]. cbn. destruct (decode_struct _ _ j) as [sf|] eqn:E; [|apply Hv1].
  destruct (_ || _); [|apply Hv1]. intros [= <-]. revert E. unfold decode_struct.
  destruct j as [| | | | |l]; try done; [by intros [= <-]|]. revert sf.
  apply (foldl_option_inv (λ sf, exps_int64 (default ∅ (Data sf))) (λ sf p, set_snapshot p.1 p.2 sf)); [done|].
  intros sf [key j] sf' Hsf. unfold set_snapshot. cbn [fst snd]. destruct (is_field "v" key).
  { destruct (decode_int _ j); [|done]. by intros [= <-]. }
  destruct (is_field "data" key); [|by intros [= <-]].
  destruct (decode_map _ _ j) as [d|] eqn:Hd; [|done]. intros [= <-]. by apply decode_map_int64 in Hd.
Qed.

(** Snapshot round trip: decoding the snapshot of a store whose keys and
    values are valid UTF-8 gives the store back, deadlines included. *)
Theorem snapshot_roundtrip m :
  store_ok m → decodeSnapshot (marshal_snapshot (mkSnap snapshotVersion (Some m))) = Ok m.
Proof. intros Hm. rewrite snapshot_decodes, snapshot_data_valid by (done || by apply store_ok_exps). done. Qed.

Lemma snapshot_roundtrip_witness :
  decodeSnapshot (marshal_snapshot (mkSnap snapshotVersion
    (Some {["a"%string := mkEntry "<1>" 0; "b"%string := mkEntry "x" 77]}))) =
  Ok {["a"%string := mkEntry "<1>" 0; "b"%string := mkEntry "x" 77]}.
Proof. apply snapshot_roundtrip. apply map_Forall_to_list. repeat constructor; vm_compute; discriminate. Defined.

(** ** Version 1 *)

(** What version 1 wrote: [json.Marshal] of a [map[string]string]. *)
Definition marshal_v1 (m : gmap string string) : bytes :=
  print (JObj ((λ p : string * string, (p.1, JStr p.2)) <$> sorted_entries m)).

(** A string member is an error for the envelope or an unknown field. *)
Lemma set_snapshot_string k v s : set_snapshot k (JStr v) s = None ∨ set_snapshot k (JStr v) s = Some s.
Proof. unfold set_snapshot. destruct (is_field "v" k); [by left|]. destruct (is_field "data" k); auto. Qed.

Lemma envelope_of_strings (l : list (string * string)) s :
  let r := foldl (λ acc p, s ← acc; set_snapshot p.1 p.2 s) (Some s)
             ((λ p : string * string, (p.1, JStr p.2)) <$> l) in
  r = None ∨ r = Some s.
Proof.
  assert (∀ l, foldl (λ acc p, s ← acc; set_snapshot p.1 p.2 s) None l = None) as Hnone.
  { intros l'. by induction l' as [|p l' IH]. }
  induction l as [|p l IH]; [by right|]. cbn [fmap list_fmap foldl mbind option_bind fst snd].
  destruct (set_snapshot_string p.1 p.2 s) as [->| ->]; [left; apply Hnone|done].
Qed.

Lemma parse_marshal_v1 (m : gmap string string) :
  map_Forall (λ k v, ValidString k = true ∧ ValidString v = true) m →
  parse (marshal_v1 m) = Some (JObj ((λ p : string * string, (p.1, JStr p.2)) <$> sorted_entries m)).
Proof.
  intros Hm. unfold marshal_v1. rewrite <- (app_nil_r (print _)), parse_print; [|..|done|done].
  - rewrite coerce_obj. do 2 f_equal.
    assert (∀ p, p ∈ sorted_entries m → ValidString p.1 = true ∧ ValidString p.2 = true) as Hl.
    { intros [k v]. rewrite sorted_entries_perm, elem_of_map_to_list. apply Hm. }
    induction (sorted_entries m) as [|p l IH]; [done|]. cbn [fmap list_fmap map coerce_member coerce_json].
    destruct (Hl p) as [Hk Hv]; [by left|]. rewrite !coerce_valid by done. f_equal.
    apply IH. intros q Hq. apply Hl. by right.
  - cbn [json_wf]. induction (sorted_entries m) as [|p l IH]; [done|]. by split.
Qed.

(** Migration of version 1: a snapshot written by version 1 (the raw
    [map[string]string]) is read as the same map without deadlines, whatever its
    keys: no such map is mistaken for a version-2 envelope. *)
Theorem v1_snapshot_migrates (m : gmap string string) :
  map_Forall (λ k v, ValidString k = true ∧ ValidString v = true) m →
  decodeSnapshot (marshal_v1 m) = Ok ((λ v, mkEntry v 0) <$> m).
Proof.
  intros Hm. unfold decodeSnapshot, unmarshal_snapshot, unmarshal_v1. rewrite parse_marshal_v1 by done.
  cbn [mbind option_bind]. unfold decode_map.
  rewrite (decode_map_list (decode_string "") JStr) by done.
  cbn [default]. rewrite sorted_entries_fold. unfold decode_struct.
  destruct (envelope_of_strings (sorted_entries m) (mkSnap 0 None)) as [-> | ->]; done.
Qed.

Lemma v1_snapshot_migrates_witness :
  decodeSnapshot (marshal_v1 {["v"%string := "2"%string; "data"%string := "x"%string]}) =
  Ok ((λ v, mkEntry v 0) <$> {["v"%string := "2"%string; "data"%string := "x"%string]}).
Proof. apply v1_snapshot_migrates. refine (bool_decide_eq_true_1 (map_Forall _ _) _). vm_compute. reflexivity. Defined.

(** Binary values: a value that is not valid UTF-8 does not survive a
    snapshot; the byte 0xFF comes back as the three bytes of U+FFFD. *)
Theorem snapshot_corrupts_binary :
  let v := string_of_bytes [byte_of_Z 0xFF] in
  decodeSnapshot (marshal_snapshot (mkSnap snapshotVersion (Some {["k"%string := mkEntry v 0]}))) =
    Ok {["k"%string := mkEntry (string_of_bytes replacement) 0]} ∧ string_of_bytes replacement ≠ v.
Proof. vm_compute. done. Qed.
