(* ===== verification/DiskStore.v ===== *)
(** * DiskStore: the durable store of pkg/storage (wal.go, batcher.go, snapshot.go)

    The store's goroutines as an event-driven machine: callers queue requests,
    the batch loop collects them, appends them to the log, syncs once and
    applies them; the snapshot loop compacts; the expiry loop sweeps.  Each
    handler is an [IO] computation on the files.  [snapMu] makes a flush and a
    compaction exclude each other, so the handlers do not interleave; a reader
    that runs while the log is being synced can only drop expired entries. *)

From S2P Require Import Prelude GoLib Engine MemStore Json Disk Crypto Wal Snapshot.

Definition snapshotThreshold : Z := 1024 * 1024.
Definition maxBatchSize : nat := 1000.

(** [batchRequest]; [req_id] identifies the caller blocked on [errChan]. *)
Record batchRequest : Type := mkReq {
  req_id : nat;
  req_op : Z;
  req_key : string;
  req_old : string;
  req_value : string;
  req_expiresAt : Z
}.

(** The [result any] of a request. *)
Inductive result : Type := RNil | RInt (n : Z) | RBool (b : bool).

(** [timer] tells whether the flush timer is armed; [batch] is the batch loop's
    local variable. *)
Record DiskStore : Type := mkDisk {
  mem : MemStore;
  wal : WAL;
  cipher : option atRestCipher;
  snapshotPath : string;
  walPath : string;
  batchChan : list batchRequest;
  batch : list batchRequest;
  timer : bool;
  closed : bool
}.

Definition set_mem (m : MemStore) (s : DiskStore) : DiskStore :=
  mkDisk m (wal s) (cipher s) (snapshotPath s) (walPath s) (batchChan s) (batch s) (timer s) (closed s).
Definition set_batch (b : list batchRequest) (t : bool) (s : DiskStore) : DiskStore :=
  mkDisk (mem s) (wal s) (cipher s) (snapshotPath s) (walPath s) (batchChan s) b t (closed s).
Definition set_chan (q : list batchRequest) (s : DiskStore) : DiskStore :=
  mkDisk (mem s) (wal s) (cipher s) (snapshotPath s) (walPath s) q (batch s) (timer s) (closed s).
Definition set_closed (s : DiskStore) : DiskStore :=
  mkDisk (mem s) (wal s) (cipher s) (snapshotPath s) (walPath s) (batchChan s) (batch s) (timer s) true.

(** What is sent on a request's [errChan], with [req.result]. *)
Definition reply : Type := batchRequest * res result.

(** ** The requests of the public operations *)

Definition Put_req (id : nat) (key value : string) : batchRequest := mkReq id opPut key "" value 0.
Definition Delete_req (id : nat) (key : string) : batchRequest := mkReq id opDelete key "" "" 0.
Definition Clear_req (id : nat) : batchRequest := mkReq id opClear "" "" "" 0.
Definition Incr_req (id : nat) (key : string) : batchRequest := mkReq id opIncr key "" "" 0.
Definition CAS_req (id : nat) (key old new : string) : batchRequest := mkReq id opCAS key old new 0.
Definition Expire_req (id : nat) (key : string) (expiresAt : Z) : batchRequest :=
  mkReq id opExpire key "" "" expiresAt.

(** [submit] up to the blocking receive: refused when closed, else queued. *)
Definition submit (req : batchRequest) (s : DiskStore) : option reply * DiskStore :=
  if closed s then (Some (req, Err ErrClosed), s)
  else (None, set_chan (batchChan s ++ [req]) s).

(** ** Writing *)

Section writing.
Context (rnd : nat → option bytes).

Definition append_request (w : WAL) (req : batchRequest) : IO unit :=
  if req_op req =? opPut then AppendPut rnd w (req_key req) (req_value req)
  else if req_op req =? opDelete then AppendDelete rnd w (req_key req)
  else if req_op req =? opClear then AppendClear rnd w
  else ret ().

(** The append loop; the first error ends it. *)
Fixpoint append_batch (w : WAL) (b : list batchRequest) : IO unit :=
  match b with
  | [] => ret ()
  | req :: b => append_request w req ;;; append_batch w b
  end.

Definition apply_request (m : MemStore) (req : batchRequest) : MemStore :=
  if req_op req =? opPut then Put (req_key req) (req_value req) m
  else if req_op req =? opDelete then Delete (req_key req) m
  else if req_op req =? opClear then Clear m
  else m.

(** [writeBatch]: the store and the replies. *)
Definition writeBatch (s : DiskStore) (b : list batchRequest) : IO (DiskStore * list reply) :=
  match b with
  | [] => ret (s, [])
  | _ =>
      finalErr <- attempt (append_batch (wal s) b ;;; Sync (wal s)) ;;
      match finalErr with
      | Ok _ => ret (set_mem (foldl apply_request (mem s) b) s, (λ req, (req, Ok RNil)) <$> b)
      | Err e => ret (s, (λ req, (req, Err e)) <$> b)
      end
  end.

(** [writeSingle]; [t1], [t2], [t3] are the clock readings it makes. *)
Definition writeSingle (t1 t2 t3 : Z) (s : DiskStore) (req : batchRequest) : IO (DiskStore * reply) :=
  let key := req_key req in
  if req_op req =? opIncr then
    logged <- attempt (AppendIncr rnd (wal s) key ;;; Sync (wal s)) ;;
    match logged with
    | Err e => ret (s, (req, Err e))
    | Ok _ =>
        let (v, m) := Incr t1 key (mem s) in
        ret (set_mem m s, (req, match v with Ok n => Ok (RInt n) | Err e => Err e end))
    end
  else if req_op req =? opCAS then
    let (cur, m) := Get t1 t2 key (mem s) in
    let s := set_mem m s in
    match cur with
    | Err e => ret (s, (req, Err e))
    | Ok cur =>
        if negb (String.eqb cur (req_old req)) then ret (s, (req, Ok (RBool false)))
        else
          logged <- attempt (AppendCAS rnd (wal s) key (req_old req) (req_value req) ;;; Sync (wal s)) ;;
          match logged with
          | Err e => ret (s, (req, Err e))
          | Ok _ => ret (set_mem (Put key (req_value req) (mem s)) s, (req, Ok (RBool true)))
          end
    end
  else if req_op req =? opExpire then
    let (cur, m) := Get t1 t2 key (mem s) in
    let s := set_mem m s in
    match cur with
    | Err e => ret (s, (req, Err e))
    | Ok _ =>
        logged <- attempt (AppendExpire rnd (wal s) key (req_expiresAt req) ;;; Sync (wal s)) ;;
        match logged with
        | Err e => ret (s, (req, Err e))
        | Ok _ =>
            let (r, m) := Expire t3 key (req_expiresAt req) (mem s) in
            ret (set_mem m s, (req, match r with Ok _ => Ok RNil | Err e => Err e end))
        end
    end
  else ret (s, (req, Err (ErrMsg "storage: unexpected single op"))).

(** ** The batch loop *)

(** Flush the pending batch and disarm the timer. *)
Definition flush (s : DiskStore) : IO (DiskStore * list reply) :=
  '(s, acks) <- writeBatch s (batch s) ;;
  ret (set_batch [] false s, acks).

(** [case req, ok := <-s.batchChan] with a request. *)
Definition batchLoop_recv (t1 t2 t3 : Z) (s : DiskStore) (req : batchRequest) : IO (DiskStore * list reply) :=
  if opIncr <=? req_op req then
    '(s, acks) <- flush s ;;
    '(s, ack) <- writeSingle t1 t2 t3 s req ;;
    ret (s, acks ++ [ack])
  else
    let s := set_batch (batch s ++ [req]) true s in
    if decide (maxBatchSize <= length (batch s))%nat then flush s else ret (s, []).

(** [case <-timerC], enabled when the timer is armed. *)
Definition batchLoop_timer (s : DiskStore) : IO (DiskStore * list reply) :=
  if timer s then flush s else ret (s, []).

(** [case req, ok := <-s.batchChan] when the channel is closed and drained. *)
Definition batchLoop_closed (s : DiskStore) : IO (DiskStore * list reply) := writeBatch s (batch s).
End writing.

(** ** Snapshots *)

Section snapshots.
Context (rnd : nat → option bytes).

Definition saveSnapshot (s : DiskStore) : IO unit :=
  let data := marshal_snapshot (mkSnap snapshotVersion (Some (MemStore.data (mem s)))) in
  data <- match cipher s with
          | Some c =>
              nonce <- rand_nonce rnd ;;
              sealed <- lift (Encrypt c nonce data) ;;
              ret (snapshotMagic ++ sealed)
          | None => ret data
          end ;;
  atomicWriteFile (snapshotPath s) data.

Definition compactLocked (s : DiskStore) : IO unit := saveSnapshot s ;;; Truncate (wal s).

(** [compact] and [Compact] both take [snapMu] around [compactLocked]. *)
Definition compact (s : DiskStore) : IO unit := compactLocked s.
Definition Compact (s : DiskStore) : IO unit := compactLocked s.

Definition compactIfNeeded (s : DiskStore) : IO unit :=
  size <- stat (walPath s) ;;
  if size <? snapshotThreshold then ret () else compact s.

Definition SerializeSnapshot (s : DiskStore) : bytes :=
  marshal_snapshot (mkSnap snapshotVersion (Some (MemStore.data (mem s)))).

(** [RestoreSnapshot]: the error, and the store, which is replaced even when
    saving fails. *)
Definition RestoreSnapshot (data : bytes) (s : DiskStore) : IO (res unit * DiskStore) :=
  match decodeSnapshot data with
  | Err e => ret (Err e, s)
  | Ok fresh =>
      let s := set_mem (set_data fresh (mem s)) s in
      r <- attempt (saveSnapshot s ;;; Truncate (wal s)) ;;
      ret (r, s)
  end.

(** [loadSnapshot]: the store with the data read. *)
Definition loadSnapshot (s : DiskStore) : IO DiskStore :=
  content <- read_file (snapshotPath s) ;;
  match content with
  | None => ret s
  | Some data =>
      let encrypted := bool_decide (take (length snapshotMagic) data = snapshotMagic) in
      plain <- (match encrypted, cipher s with
                | true, None => throw (ErrMsg "snapshot is encrypted at rest; provide ENCRYPTION_KEY or KEY_FILE")
                | true, Some c => lift (Decrypt c (drop (length snapshotMagic) data))
                | false, Some _ => throw (ErrMsg "existing snapshot is not encrypted")
                | false, None => ret data
                end) ;;
      fresh <- lift (decodeSnapshot plain) ;;
      ret (set_mem (set_data fresh (mem s)) s)
  end.

(** ** Opening and closing *)

(** [os.MkdirAll]. *)
Definition mkdir_all : IO unit := call (on_good (λ f, (Ok (), f))).

(** [filepath.Join] of a clean directory and a file name. *)
Definition path_join (dir name : string) : string := String.append dir (String "/" name).

Definition openDiskStore (clk : nat → Z) (dataDir : string) (cipher : option atRestCipher) : IO DiskStore :=
  mkdir_all ;;;
  let path := path_join dataDir "wal.log" in
  w <- match cipher with
       | Some c => OpenWALEncrypted path c
       | None => OpenWAL path
       end ;;
  let s := mkDisk NewMemStore w cipher (path_join dataDir "snapshot.dat") path [] [] false false in
  s <- on_error (loadSnapshot s) (Wal.Close w) ;;
  '(r, m) <- Replay clk (wal s) (mem s) ;;
  match r with
  | Err e => on_error (throw e) (Wal.Close w)
  | Ok _ => ret (set_mem m s)
  end.

Definition OpenDiskStore (clk : nat → Z) (dataDir : string) : IO DiskStore := openDiskStore clk dataDir None.

Definition OpenDiskStoreWithKey (gcm : bytes → AEAD) (clk : nat → Z) (dataDir : string) (key : bytes) : IO DiskStore :=
  c <- lift (newAtRestCipher gcm key) ;;
  openDiskStore clk dataDir (Some c).

(** The batch loop receiving what is left in the closed channel. *)
Fixpoint drain (t1 t2 t3 : Z) (q : list batchRequest) (s : DiskStore) : IO (DiskStore * list reply) :=
  match q with
  | [] => batchLoop_closed rnd s
  | req :: q =>
      '(s, acks1) <- batchLoop_recv rnd t1 t2 t3 s req ;;
      '(s, acks2) <- drain t1 t2 t3 q s ;;
      ret (s, acks1 ++ acks2)
  end.

(** The body of [Close] ([closeOnce] runs it once): no new requests, the queue
    is drained, the store is compacted and the log closed; the last error is
    returned. *)
Definition Close (t1 t2 t3 : Z) (s : DiskStore) : IO (DiskStore * list reply * res unit) :=
  '(s, acks) <- drain t1 t2 t3 (batchChan s) (set_chan [] (set_closed s)) ;;
  compacted <- attempt (compact s) ;;
  closedFile <- attempt (Wal.Close (wal s)) ;;
  ret (s, acks, match closedFile with Err e => Err e | Ok _ => compacted end).

(** ** The store as a machine *)

Inductive event : Type :=
| ESubmit (req : batchRequest)              (* a caller enters [submit] *)
| ERecv (t1 t2 t3 : Z)                      (* the batch loop receives a request *)
| ETimer                                    (* its flush timer fires *)
| ESnapshot                                 (* a tick of [snapshotLoop] *)
| EExpire (now : Z)                         (* a tick of [expireLoop] *)
| EGet (t1 t2 : Z) (key : string).          (* a reader *)

Definition step (s : DiskStore) (e : event) : IO (DiskStore * list reply) :=
  match e with
  | ESubmit req => let (r, s) := submit req s in ret (s, from_option (λ a, [a]) [] r)
  | ERecv t1 t2 t3 =>
      match batchChan s with
      | [] => ret (s, [])
      | req :: q => batchLoop_recv rnd t1 t2 t3 (set_chan q s) req
      end
  | ETimer => batchLoop_timer rnd s
  | ESnapshot => attempt (compactIfNeeded s) ;;; ret (s, [])
  | EExpire now => ret (set_mem (SweepExpired now (mem s)).2 s, [])
  | EGet t1 t2 key => ret (set_mem (Get t1 t2 key (mem s)).2 s, [])
  end.

Fixpoint steps (s : DiskStore) (es : list event) : IO (DiskStore * list reply) :=
  match es with
  | [] => ret (s, [])
  | e :: es =>
      '(s, acks1) <- step s e ;;
      '(s, acks2) <- steps s es ;;
      ret (s, acks1 ++ acks2)
  end.
End snapshots.
