(* ===== verification/DiskEngine.v ===== *)
(** * DiskEngine: the durable store as an engine (wal.go, the public methods)

    The public operations of [DiskStore] for a caller that waits for its reply
    while nobody else uses the store: the request is queued, the batch loop
    receives it and flushes, and the caller gets its reply; reads go to the
    memory.  The state is the store and the world its files live in. *)

From S2P Require Import Prelude GoLib Engine MemStore Disk Crypto Wal Snapshot DiskStore.

(** ** Reads *)

Definition DiskStore_Get (t1 t2 : Z) (key : string) (s : DiskStore) : res string * DiskStore :=
  let (r, m) := Get t1 t2 key (mem s) in (r, set_mem m s).
Definition DiskStore_Scan (now : Z) (cursor : string) (count : Z) (pattern : string) (s : DiskStore) :
    res (list KeyValue * string) :=
  Scan now cursor count pattern (mem s).
Definition DiskStore_Size (now : Z) (s : DiskStore) : Z := Size now (mem s).
Definition DiskStore_ExpiredCount (s : DiskStore) : Z := ExpiredCount (mem s).

Section engine.
Context (rnd : nat → option bytes).

(** ** Writes *)

Definition disk_call (now : Z) (req : batchRequest) (sw : DiskStore * World) : res result * (DiskStore * World) :=
  let (s, w) := sw in
  match submit req s with
  | (Some (_, r), s) => (r, (s, w))
  | (None, s) =>
      match steps rnd s [ERecv now now now; ETimer] w with
      | (Ok (s, acks), w) => (from_option snd (Err ErrClosed) (last acks), (s, w))
      | (Err e, w) => (Err e, (s, w))
      end
  end.

Definition disk_unit (now : Z) (req : batchRequest) (sw : DiskStore * World) : res unit * (DiskStore * World) :=
  let (r, sw) := disk_call now req sw in (let! _ := r in Ok (), sw).

(** The type assertions [res.(int64)] and [res.(bool)] hold of what the batch
    loop leaves in the request. *)
Definition disk_incr (now : Z) (key : string) (sw : DiskStore * World) : res Z * (DiskStore * World) :=
  let (r, sw) := disk_call now (Incr_req 0 key) sw in
  (let! v := r in match v with RInt n => Ok n | _ => Ok 0 end, sw).
Definition disk_cas (now : Z) (key old new : string) (sw : DiskStore * World) : res bool * (DiskStore * World) :=
  let (r, sw) := disk_call now (CAS_req 0 key old new) sw in
  (let! v := r in match v with RBool b => Ok b | _ => Ok false end, sw).

Global Instance DiskStore_Engine : Engine (DiskStore * World) := {
  eGet now k sw := let (r, s) := DiskStore_Get now now k sw.1 in (r, (s, sw.2));
  ePut now k v := disk_unit now (Put_req 0 k v);
  eDelete now k := disk_unit now (Delete_req 0 k);
  eClear now := disk_unit now (Clear_req 0);
  eIncr now k := disk_incr now k;
  eCAS now k old new := disk_cas now k old new;
  eExpire now k d := disk_unit now (Expire_req 0 k d);
  eScan now cursor count pattern sw := DiskStore_Scan now cursor count pattern sw.1
}.
End engine.
