(* ===== verification/Batching.v ===== *)
(** * Batching: the batch loop in time (batcher.go)

    [batchLoop] with its select: a request arrives, the flush timer fires, or
    the channel is closed.  The timer is a deadline, armed by the first request
    of a batch; a reply is sent once the write it waits for has ended.  Whatever
    the disk does, no batch grows past its limit, every request is answered once
    and in order, and none waits longer, from when the loop receives it, than the
    flush interval, the delay with which the loop runs and the time of its
    write. *)

From S2P Require Import Prelude GoLib Engine MemStore Disk Crypto Wal Snapshot DiskStore DiskEngine.

Definition flushInterval : Z := 10 * 1000000.

(** The loop's local variables: [batch] and whether [timer] is nil are in the
    store, [deadline] is when [timerC] fires. *)
Record Batcher : Type := mkBatcher { store : DiskStore; deadline : option Z }.

(** The cases of the select; [t1], [t2], [t3] are the clock readings of a write
    that is executed at once. *)
Inductive wakeup : Type :=
| Received (req : batchRequest) (t1 t2 t3 : Z)
| TimerFired
| Drained.

Definition due (now : Z) (b : Batcher) : bool :=
  if deadline b is Some d then d <=? now else false.

Section loop.
Context (rnd : nat → option bytes).

(** One iteration at time [now]; a timer that is not due does not wake the
    loop. *)
Definition batchLoop_select (now : Z) (wk : wakeup) (b : Batcher) : IO (Batcher * list reply) :=
  match wk with
  | Received req t1 t2 t3 =>
      '(s, acks) <- batchLoop_recv rnd t1 t2 t3 (store b) req ;;
      let armed := if timer (store b) then deadline b else Some (now + flushInterval) in
      ret (mkBatcher s (if timer s then armed else None), acks)
  | TimerFired =>
      if due now b then
        '(s, acks) <- batchLoop_timer rnd (store b) ;;
        ret (mkBatcher s None, acks)
      else ret (b, [])
  | Drained =>
      '(s, acks) <- batchLoop_closed rnd (store b) ;;
      ret (mkBatcher (set_batch [] false s) None, acks)
  end.

(** An iteration: when the select returns, its case, and how long [writeBatch] and
    [writeSingle] take in it (waiting for [snapMu], appending, the fsync). *)
Record iteration : Type := mkIter { woken : Z; wake : wakeup; writeBatch_took : Z; writeSingle_took : Z }.

Definition batch_written (it : iteration) : Z := woken it + writeBatch_took it.
Definition finished (it : iteration) : Z := batch_written it + writeSingle_took it.

(** The replies with the times they are sent: those of a batch when [writeBatch] is
    done, that of a request executed alone when [writeSingle] is, after it. *)
Definition sent (it : iteration) (acks : list reply) : list (Z * reply) :=
  (λ a : reply, (if opIncr <=? req_op a.1 then finished it else batch_written it, a)) <$> acks.

(** The loop for a sequence of iterations. *)
Fixpoint batchLoop (its : list iteration) (b : Batcher) : IO (Batcher * list (Z * reply)) :=
  match its with
  | [] => ret (b, [])
  | it :: its =>
      '(b, acks) <- batchLoop_select (woken it) (wake it) b ;;
      '(b, rest) <- batchLoop its b ;;
      ret (b, sent it acks ++ rest)
  end.

(** ** The writers answer whatever happens *)

(** [m] returns, and the result satisfies [P]. *)
Definition returns {A} (m : IO A) (P : A → Prop) : Prop := ∀ w, ∃ a w', m w = (Ok a, w') ∧ P a.

Lemma returns_ret {A} (a : A) P : P a → returns (ret a) P.
Proof. intros Hp w. by exists a, w. Qed.

Lemma returns_bind {A B} (m : IO A) (k : A → IO B) Q P :
  returns m Q → (∀ a, Q a → returns (k a) P) → returns (a <- m ;; k a) P.
Proof. intros Hm Hk w. destruct (Hm w) as (a & w1 & H1 & Ha). unfold bind. rewrite H1. by apply Hk. Qed.

Lemma returns_attempt {A} (m : IO A) : returns (attempt m) (λ _, True).
Proof. intros w. unfold attempt. destruct (m w) as [r w']. by exists r, w'. Qed.

Lemma returns_mono {A} (m : IO A) (P Q : A → Prop) : (∀ a, P a → Q a) → returns m P → returns m Q.
Proof. intros HPQ Hm w. destruct (Hm w) as (a & w' & ? & ?). exists a, w'. auto. Qed.

Lemma writeBatch_returns s l :
  returns (writeBatch rnd s l) (λ p, p.2.*1 = l ∧ ∃ m, p.1 = set_mem m s).
Proof.
  unfold writeBatch. destruct l as [|r l].
  - apply returns_ret. split; [done|]. exists (mem s). by destruct s.
  - eapply returns_bind; [apply returns_attempt|]. intros [u|e] _; apply returns_ret; cbn [fst snd].
    + split; [by rewrite <- list_fmap_compose, list_fmap_id|by eexists].
    + split; [by rewrite <- list_fmap_compose, list_fmap_id|]. exists (mem s). by destruct s.
Qed.

Lemma writeSingle_returns t1 t2 t3 s req :
  returns (writeSingle rnd t1 t2 t3 s req) (λ p, p.2.1 = req ∧ ∃ m, p.1 = set_mem m s).
Proof.
  assert (Hs : ∃ m, s = set_mem m s) by (exists (mem s); by destruct s).
  unfold writeSingle. repeat first
    [ apply returns_ret; (split; [done|]); first [done|by eexists]
    | eapply returns_bind; [apply returns_attempt|]; intros [u|e] _
    | case_match ].
Qed.

Lemma flush_returns s :
  returns (flush rnd s) (λ p, p.2.*1 = batch s ∧ ∃ m, p.1 = set_batch [] false (set_mem m s)).
Proof.
  unfold flush. eapply returns_bind; [apply writeBatch_returns|]. intros [s' acks] [Ha [m Hm]]. cbn in Ha, Hm. subst s'. apply returns_ret.
  split; [done|by exists m].
Qed.

Lemma recv_returns t1 t2 t3 s req :
  returns (batchLoop_recv rnd t1 t2 t3 s req) (λ p,
    if decide (req_op req < opIncr ∧ (S (length (batch s)) < maxBatchSize)%nat)
    then p = (set_batch (batch s ++ [req]) true s, [])
    else p.2.*1 = batch s ++ [req] ∧ ∃ m, p.1 = set_batch [] false (set_mem m s)).
Proof.
  unfold batchLoop_recv. destruct (Z.leb_spec opIncr (req_op req)) as [Hop|Hop].
  - eapply returns_mono; [intros p Hp; rewrite decide_False by lia; exact Hp|]. eapply returns_bind; [apply flush_returns|]. intros [s1 acks] [Ha [m Hm]]. cbn in Ha, Hm. subst s1.
    eapply returns_bind; [apply writeSingle_returns|]. intros [s2 ack] [Hreq [m2 Hm2]]. cbn in Hreq, Hm2. subst s2. apply returns_ret.
    cbn [fst snd]. split; [by rewrite fmap_app, Ha; cbn; rewrite Hreq|]. by exists m2.
  - cbn [batch set_batch]. rewrite length_app. cbn [length]. destruct (decide (maxBatchSize <= length (batch s) + 1)%nat).
    + eapply returns_mono; [intros p Hp; rewrite decide_False by lia; exact Hp|]. eapply returns_mono; [|apply flush_returns]. intros [s' acks] [Ha [m Hm]]. cbn in Ha, Hm. subst s'.
      split; [done|by exists m].
    + apply returns_ret. by rewrite decide_True by lia.
Qed.

(** ** Limits *)

(** [recv] are the pending requests with the times they were received: a batch
    is pending exactly when the timer is armed, for its first request. *)
Record pending (b : Batcher) (recv : list (Z * batchRequest)) : Prop := {
  pd_batch : batch (store b) = recv.*2;
  pd_size : (length recv < maxBatchSize)%nat;
  pd_timer : timer (store b) = bool_decide (recv ≠ []);
  pd_deadline : deadline b = (λ p, p.1 + flushInterval) <$> head recv;
  pd_sorted : match recv with [] => True | p :: _ => Forall (λ q, p.1 <= q.1) recv end
}.

(** A reply to a request received at [p.1] is sent in time. *)
Definition in_time (lag cost : Z) (p : Z * batchRequest) (q : Z * reply) : Prop :=
  q.2.1 = p.2 ∧ p.1 <= q.1 <= p.1 + flushInterval + lag + cost.

(** The requests an iteration brings. *)
Definition brings (it : iteration) : list (Z * batchRequest) :=
  if wake it is Received req _ _ _ then [(woken it, req)] else [].

(** The loop is not later than [lag] after its deadline. *)
Definition timely (lag now : Z) (b : Batcher) : Prop := if deadline b is Some d then now <= d + lag else True.

(** The writes of an iteration take at most [cost]. *)
Definition takes (cost : Z) (it : iteration) : Prop :=
  0 <= writeBatch_took it ∧ 0 <= writeSingle_took it ∧ writeBatch_took it + writeSingle_took it <= cost.

(** What an iteration leaves pending or answers. *)
Definition answered (lag cost : Z) (recv : list (Z * batchRequest)) (p : Batcher * list (Z * reply)) : Prop :=
  ∃ done_ left_, recv = done_ ++ left_ ∧ Forall2 (in_time lag cost) done_ p.2 ∧ pending p.1 left_.

Lemma all_in_time lag cost it recv acks :
  takes cost it → Forall (λ p, p.1 <= woken it <= p.1 + flushInterval + lag) recv → acks.*1 = recv.*2 →
  Forall2 (in_time lag cost) recv (sent it acks).
Proof.
  intros (H1 & H2 & H3). revert acks. induction recv as [|p recv IH]; intros [|a acks] Hr Ha; try done; cbn in *.
  apply Forall_cons in Hr as [Hp Hr]. injection Ha as Ha1 Ha2. constructor; [|by apply IH]. split; [done|]. cbn.
  unfold finished, batch_written. destruct (opIncr <=? _); lia.
Qed.

(** The pending requests are answered in time if the loop runs in time. *)
Lemma pending_in_time lag now b recv :
  0 <= lag → pending b recv → timely lag now b → Forall (λ p, p.1 <= now) recv →
  Forall (λ p, p.1 <= now <= p.1 + flushInterval + lag) recv.
Proof.
  intros Hlag [_ _ _ Hd Hs] Ht Hn. unfold timely in Ht. rewrite Hd in Ht. destruct recv as [|p recv]; [done|]. cbn in Ht.
  rewrite Forall_forall in Hs, Hn |- *. intros q Hq. specialize (Hs q Hq). specialize (Hn q Hq). cbn in *. lia.
Qed.

Lemma pending_none s : batch s = [] → timer s = false → pending (mkBatcher s None) [].
Proof. intros Hb Ht. split; try done. cbn. unfold maxBatchSize. lia. Qed.

Lemma select_answers lag cost it b recv :
  0 <= lag → takes cost it → pending b recv → timely lag (woken it) b → Forall (λ p, p.1 <= woken it) recv →
  returns (batchLoop_select (woken it) (wake it) b) (λ p, answered lag cost (recv ++ brings it) (p.1, sent it p.2)).
Proof.
  intros Hlag Hc Hp Ht Hn. pose proof (pending_in_time lag (woken it) b recv Hlag Hp Ht Hn) as Hin.
  unfold brings. set (now := woken it) in *.
  destruct (wake it) as [req t1 t2 t3| |]; cbn [batchLoop_select fst snd]; rewrite ?app_nil_r.
  - eapply returns_bind; [apply recv_returns|]. intros [s acks]. case_decide as Hop.
    + intros [= -> ->]. apply returns_ret. cbn. exists [], (recv ++ [(now, req)]). split_and!; [done|constructor|].
      destruct Hp as [Hb Hsz Htm Hd Hs]. split; cbn.
      * by rewrite Hb, fmap_app.
      * rewrite Hb, length_fmap in Hop. rewrite length_app. cbn. lia.
      * symmetry. apply bool_decide_eq_true. by destruct recv.
      * rewrite Htm, Hd. destruct recv; [done|]. by rewrite bool_decide_true.
      * destruct recv as [|q recv]; cbn; [by repeat constructor|]. apply Forall_cons in Hs as [? Hs]. apply Forall_cons in Hn as [? _].
        constructor; [done|]. apply Forall_app. split; [done|]. by repeat constructor.
    + intros [Ha [m Hm]]. cbn in Ha, Hm. subst s. apply returns_ret. cbn.
      exists (recv ++ [(now, req)]), []. rewrite app_nil_r. split_and!; [done| |by apply pending_none].
      apply all_in_time; [done| |by rewrite Ha, fmap_app, (pd_batch _ _ Hp)]. apply Forall_app. split; [done|].
      repeat constructor; cbn; unfold flushInterval; lia.
  - destruct (due now b).
    2: { apply returns_ret. exists [], recv. by split_and!; [|constructor|]. }
    unfold batchLoop_timer. destruct (timer (store b)) eqn:Htm.
    + eapply returns_bind; [apply flush_returns|]. intros [s acks] [Ha [m Hm]]. cbn in Ha, Hm. subst s. apply returns_ret. cbn.
      exists recv, []. rewrite app_nil_r. split_and!; [done| |by apply pending_none].
      by apply all_in_time; [..|rewrite Ha, (pd_batch _ _ Hp)].
    + eapply returns_bind; [by apply (returns_ret _ (λ p, p = (store b, [])))|]. intros p ->. apply returns_ret. cbn.
      assert (recv = []) as ->. { pose proof (pd_timer _ _ Hp) as Hx. rewrite Htm in Hx. by destruct recv. }
      exists [], []. split_and!; [done|constructor|]. apply pending_none; [apply (pd_batch _ _ Hp)|done].
  - unfold batchLoop_closed. eapply returns_bind; [apply writeBatch_returns|]. intros [s acks] [Ha [m Hm]]. cbn in Ha, Hm. subst s.
    apply returns_ret. cbn. exists recv, []. rewrite app_nil_r. split_and!; [done| |by apply pending_none].
    by apply all_in_time; [..|rewrite Ha, (pd_batch _ _ Hp)].
Qed.

(** An iteration starts after the one before has finished, at most [lag] after the
    deadline, and its writes take at most [cost]. *)
Fixpoint on_time (lag cost now : Z) (its : list iteration) (b : Batcher) (w : World) : Prop :=
  match its with
  | [] => True
  | it :: its =>
      now <= woken it ∧ timely lag (woken it) b ∧ takes cost it ∧
      match batchLoop_select (woken it) (wake it) b w with
      | (Ok (b, _), w) => on_time lag cost (finished it) its b w
      | _ => True
      end
  end.

Lemma batchLoop_answers lag cost now its b recv w :
  0 <= lag → pending b recv → Forall (λ p, p.1 <= now) recv → on_time lag cost now its b w →
  ∃ b' acks w', batchLoop its b w = (Ok (b', acks), w') ∧ answered lag cost (recv ++ concat (brings <$> its)) (b', acks).
Proof.
  intros Hlag. revert now b recv w. induction its as [|it its IH]; intros now b recv w Hp Hn Ht; cbn [batchLoop fmap list_fmap concat].
  { exists b, [], w. split; [done|]. exists [], recv. rewrite app_nil_r. by split_and!; [|constructor|]. }
  destruct Ht as (Hnt & Htm & Hc & Hrest).
  assert (Hn' : Forall (λ p, p.1 <= woken it) recv) by (eapply Forall_impl; [done|]; cbn; lia).
  destruct (select_answers lag cost it b recv Hlag Hc Hp Htm Hn' w) as ([b1 acks1] & w1 & H1 & done1 & left1 & E1 & F1 & P1).
  cbn in E1, F1, P1. unfold bind at 1. rewrite H1.
  assert (Hl : Forall (λ p, p.1 <= finished it) (recv ++ brings it)).
  { destruct Hc as (? & ? & _). unfold finished, batch_written. apply Forall_app. split.
    - eapply Forall_impl; [exact Hn'|]. cbn. lia.
    - unfold brings. destruct (wake it); repeat constructor. cbn. lia. }
  rewrite E1 in Hl. apply Forall_app in Hl as [_ Hl].
  rewrite H1 in Hrest. destruct (IH (finished it) b1 left1 w1 P1 Hl Hrest) as (b2 & acks2 & w2 & H2 & done2 & left2 & E2 & F2 & P2).
  unfold bind. rewrite H2. eexists _, _, _. split; [done|]. exists (done1 ++ done2), left2. cbn in E2, F2, P2.
  split_and!; [|by apply Forall2_app|done]. by rewrite app_assoc, E1, <- app_assoc, E2, app_assoc.
Qed.

Lemma drained_empty its it b w b' acks w' :
  last its = Some it → wake it = Drained → batchLoop its b w = (Ok (b', acks), w') → batch (store b') = [].
Proof.
  intros Hl Hd. revert b w acks Hl. induction its as [|it1 its IH]; intros b w acks Hl; [done|]. cbn [batchLoop]. unfold bind at 1.
  destruct (batchLoop_select (woken it1) (wake it1) b w) as [[[b1 acks1]|e] w1] eqn:E1; [|done].
  destruct its as [|it2 its].
  - injection Hl as ->. intros [= <- _ _]. revert E1. rewrite Hd. cbn [batchLoop_select]. unfold bind.
    destruct (batchLoop_closed rnd (store b) w) as [[[s acks2]|e] w2]; [|done]. by intros [= <- _ _].
  - rewrite last_cons_cons in Hl. unfold bind.
    destruct (batchLoop (it2 :: its) b1 w1) as [[[b2 acks2]|e] w2] eqn:E2; [|done]. intros [= <- _ <-]. by eapply IH.
Qed.
End loop.

(** C18 (limits of a batch): for every behaviour of the disk, errors included,
    and every sequence of iterations in which the loop runs at most [lag] after
    its deadline and the writes of an iteration take at most [cost]: the loop
    never stops with an error; the requests it has received are, in order, those
    it has answered, once each, and those pending; a reply, sent when its write
    has ended, is sent no later than the flush interval, [lag] and [cost] after
    the loop received its request; and between two iterations fewer than
    [maxBatchSize] requests are pending, the timer being armed exactly when there
    are some.  When the channel is closed and drained nothing is left pending. *)
Theorem batchLoop_limits rnd lag cost now its b w :
  0 <= lag → batch (store b) = [] → timer (store b) = false → deadline b = None → on_time rnd lag cost now its b w →
  ∃ b' acks w' done_ left_, batchLoop rnd its b w = (Ok (b', acks), w') ∧
    concat (brings <$> its) = done_ ++ left_ ∧
    Forall2 (in_time lag cost) done_ acks ∧
    batch (store b') = left_.*2 ∧ (length left_ < maxBatchSize)%nat ∧
    (timer (store b') = true ↔ left_ ≠ []) ∧
    (∀ it, last its = Some it → wake it = Drained → left_ = []).
Proof.
  intros Hlag Hb Ht Hd Ho. assert (Hp : pending b []) by (destruct b; cbn in *; subst; by apply pending_none).
  destruct (batchLoop_answers rnd lag cost now its b [] w Hlag Hp (Forall_nil_2 _) Ho) as (b' & acks & w' & Hr & done_ & left_ & E & F & P).
  exists b', acks, w', done_, left_. cbn in E, F, P. split_and!; try done; [apply P|apply P| |].
  - rewrite (pd_timer _ _ P). apply bool_decide_eq_true.
  - intros it Hl Hw. pose proof (drained_empty rnd its it b w b' acks w' Hl Hw Hr) as He. rewrite (pd_batch _ _ P) in He. by apply fmap_nil_inv in He.
Qed.

(** A batch of one request, flushed by the timer with an fsync of 3 ms, a request
    executed at once, and one more batch, on a disk whose second call fails. *)
Lemma batchLoop_limits_witness :
  let s := mkDisk NewMemStore (mkWAL "d/wal.log" None) None "d/snapshot.dat" "d/wal.log" [] [] false false in
  let its := [mkIter 0 (Received (Put_req 1 "a" "1") 0 0 0) 0 0; mkIter 10000000 TimerFired 3000000 0;
              mkIter 20000000 (Received (Incr_req 2 "a") 0 0 0) 0 1000000;
              mkIter 21000000 (Received (Put_req 3 "b" "2") 0 0 0) 0 0; mkIter 22000000 Drained 2000000 0] in
  ∃ b' acks w' done_ left_,
    batchLoop (λ _, None) its (mkBatcher s None) (mkWorld (at_rest {["d/wal.log"%string := []]}) [Good; Bad 0] []) = (Ok (b', acks), w') ∧
    concat (brings <$> its) = done_ ++ left_ ∧ Forall2 (in_time 5 3000000) done_ acks ∧ length acks = 3%nat.
Proof.
  intros s its. set (w := mkWorld _ _ _).
  destruct (batchLoop_limits (λ _, None) 5 3000000 0 its (mkBatcher s None) w) as (b' & acks & w' & done_ & left_ & Hr & Hc & Hf & _ & _ & _ & Hl).
  - lia.
  - reflexivity.
  - reflexivity.
  - reflexivity.
  - vm_compute. repeat split; discriminate.
  - exists b', acks, w', done_, left_. split; [exact Hr|]. split; [exact Hc|]. split; [exact Hf|].
    apply Forall2_length in Hf. rewrite <- Hf. rewrite (Hl _ eq_refl eq_refl), app_nil_r in Hc. rewrite <- Hc. reflexivity.
Defined.
