(* ===== verification/StoreLife.v ===== *)
(** * StoreLife: the goroutines of the durable store, from open to Close

    [OpenDiskStore] starts three goroutines, [batchLoop], [snapshotLoop] and
    [expireLoop]; callers come and go through [submit], which holds [closeMu]
    for reading until its request is answered; [Close] stops the goroutines one
    after the other and takes [closeMu] for writing in between.  An action is
    what one goroutine does between two points where it can block, and it is
    partial: [None] where the goroutine waits.  Every admitted request is
    answered, once and in order, before the store counts as closed, and Close
    returns. *)

From S2P Require Import Prelude GoLib Engine MemStore Disk Crypto Wal Snapshot DiskStore DiskEngine Batching.

Definition snapshotInterval : Z := 5 * 1000000000.
Definition expireInterval : Z := 1000000000.

(** How far [Close] has come: what it waits for, and what it returned. *)
Inductive closing : Type := NotClosing | WaitSnap | WaitExp | WaitLock | WaitBatch | Finished (r : res unit).

(** [lf_calls] counts the readers of [closeMu]; [lf_snapDone], [lf_expDone] and
    [lf_batchDone] are the channels the goroutines close when they return.
    [lf_admitted] and [lf_answered] are histories that no action reads. *)
Record Life : Type := mkLife {
  lf_store : DiskStore;
  lf_calls : nat;
  lf_snapDone : bool;
  lf_expDone : bool;
  lf_batchDone : bool;
  lf_close : closing;
  lf_admitted : list batchRequest;
  lf_answered : list reply
}.

(** The store as [openDiskStore] leaves it. *)
Definition opened (s : DiskStore) : Life := mkLife s 0 false false false NotClosing [] [].

Definition with_store (s : DiskStore) (lf : Life) : Life :=
  mkLife s (lf_calls lf) (lf_snapDone lf) (lf_expDone lf) (lf_batchDone lf) (lf_close lf) (lf_admitted lf) (lf_answered lf).
Definition with_close (c : closing) (lf : Life) : Life :=
  mkLife (lf_store lf) (lf_calls lf) (lf_snapDone lf) (lf_expDone lf) (lf_batchDone lf) c (lf_admitted lf) (lf_answered lf).
Definition with_done (sn ex ba : bool) (lf : Life) : Life :=
  mkLife (lf_store lf) (lf_calls lf) sn ex ba (lf_close lf) (lf_admitted lf) (lf_answered lf).

(** [close(s.stopSnap)] and [close(s.stopExp)] happened. *)
Definition stopSnap (lf : Life) : bool := match lf_close lf with NotClosing => false | _ => true end.
Definition stopExp (lf : Life) : bool := match lf_close lf with NotClosing | WaitSnap => false | _ => true end.

(** Callers receive on their [errChan] and release [closeMu]. *)
Definition answer (s : DiskStore) (acks : list reply) (lf : Life) : Life :=
  mkLife s (lf_calls lf - length acks) (lf_snapDone lf) (lf_expDone lf) (lf_batchDone lf) (lf_close lf)
    (lf_admitted lf) (lf_answered lf ++ acks).

Inductive act : Type :=
| ACall (req : batchRequest)         (* a caller enters [submit] *)
| ARecv (t1 t2 t3 : Z)               (* [batchLoop] receives a request *)
| AFlush                             (* its timer fires *)
| ADrained                           (* it finds the channel closed *)
| ASnapTick | ASnapStop              (* the cases of [snapshotLoop] *)
| AExpTick (now : Z) | AExpStop      (* the cases of [expireLoop] *)
| ARead (t1 t2 : Z) (key : string)   (* a reader *)
| AClose.                            (* [Close] is called, or goes on *)

Section life.
Context (rnd : nat → option bytes).

(** A caller that finds the store closed is refused.  One that arrives while
    [Close] waits for the lock waits behind it. *)
Definition act_call (req : batchRequest) (lf : Life) : option (IO (Life * list reply)) :=
  match lf_close lf with
  | WaitLock => None
  | _ =>
      Some (match submit req (lf_store lf) with
            | (Some r, s) => ret (with_store s lf, [r])
            | (None, s) =>
                ret (mkLife s (S (lf_calls lf)) (lf_snapDone lf) (lf_expDone lf) (lf_batchDone lf) (lf_close lf)
                       (lf_admitted lf ++ [req]) (lf_answered lf), [])
            end)
  end.

(** The cases of the select of [batchLoop]. *)
Definition act_batch (run : IO (DiskStore * list reply)) (lf : Life) : option (IO (Life * list reply)) :=
  if lf_batchDone lf then None
  else Some ('(s, acks) <- run ;; ret (answer s acks lf, acks)).

Definition act_recv (t1 t2 t3 : Z) (lf : Life) : option (IO (Life * list reply)) :=
  match batchChan (lf_store lf) with
  | [] => None
  | req :: q => act_batch (batchLoop_recv rnd t1 t2 t3 (set_chan q (lf_store lf)) req) lf
  end.

Definition act_flush (lf : Life) : option (IO (Life * list reply)) :=
  if timer (lf_store lf) then act_batch (batchLoop_timer rnd (lf_store lf)) lf else None.

Definition act_drained (lf : Life) : option (IO (Life * list reply)) :=
  match closed (lf_store lf), batchChan (lf_store lf), lf_batchDone lf with
  | true, [], false =>
      Some ('(s, acks) <- batchLoop_closed rnd (lf_store lf) ;;
            ret (with_done (lf_snapDone lf) (lf_expDone lf) true (answer s acks lf), acks))
  | _, _, _ => None
  end.

(** [snapshotLoop] and [expireLoop]: a tick, or the end. *)
Definition snapshotLoop (tick : bool) (lf : Life) : option (IO (Life * list reply)) :=
  if lf_snapDone lf then None
  else if tick then Some (attempt (compactIfNeeded rnd (lf_store lf)) ;;; ret (lf, []))
  else if stopSnap lf then Some (ret (with_done true (lf_expDone lf) (lf_batchDone lf) lf, []))
  else None.

Definition expireLoop (tick : option Z) (lf : Life) : option (IO (Life * list reply)) :=
  if lf_expDone lf then None
  else
    match tick with
    | Some now => Some (ret (with_store (set_mem (SweepExpired now (mem (lf_store lf))).2 (lf_store lf)) lf, []))
    | None => if stopExp lf then Some (ret (with_done (lf_snapDone lf) true (lf_batchDone lf) lf, [])) else None
    end.

(** The body of [Close], from one wait to the next. *)
Definition close_next (lf : Life) : option (IO (Life * list reply)) :=
  match lf_close lf with
  | NotClosing => Some (ret (with_close WaitSnap lf, []))
  | WaitSnap => if lf_snapDone lf then Some (ret (with_close WaitExp lf, [])) else None
  | WaitExp => if lf_expDone lf then Some (ret (with_close WaitLock lf, [])) else None
  | WaitLock =>
      if decide (lf_calls lf = 0%nat) then Some (ret (with_close WaitBatch (with_store (set_closed (lf_store lf)) lf), []))
      else None
  | WaitBatch =>
      if lf_batchDone lf then
        Some (compacted <- attempt (compact rnd (lf_store lf)) ;;
              closedFile <- attempt (Wal.Close (wal (lf_store lf))) ;;
              ret (with_close (Finished (match closedFile with Err e => Err e | Ok _ => compacted end)) lf, []))
      else None
  | Finished _ => None
  end.

Definition life_act (a : act) (lf : Life) : option (IO (Life * list reply)) :=
  match a with
  | ACall req => act_call req lf
  | ARecv t1 t2 t3 => act_recv t1 t2 t3 lf
  | AFlush => act_flush lf
  | ADrained => act_drained lf
  | ASnapTick => snapshotLoop true lf
  | ASnapStop => snapshotLoop false lf
  | AExpTick now => expireLoop (Some now) lf
  | AExpStop => expireLoop None lf
  | ARead t1 t2 key => Some (ret (with_store (set_mem (Get t1 t2 key (mem (lf_store lf))).2 (lf_store lf)) lf, []))
  | AClose => close_next lf
  end.

(** A sequence of actions: [None] when one of them has to wait. *)
Fixpoint life_run (acts : list act) (lf : Life) (w : World) : option (Life * World) :=
  match acts with
  | [] => Some (lf, w)
  | a :: acts =>
      match life_act a lf with
      | None => None
      | Some m => match m w with (Ok (lf, _), w) => life_run acts lf w | (Err _, _) => None end
      end
  end.

(** ** The invariant *)

Definition locked (c : closing) : bool := match c with WaitBatch | Finished _ => true | _ => false end.

Record life_ok (lf : Life) : Prop := {
  lo_history : lf_admitted lf = (lf_answered lf).*1 ++ batch (lf_store lf) ++ batchChan (lf_store lf);
  lo_calls : lf_calls lf = (length (batch (lf_store lf)) + length (batchChan (lf_store lf)))%nat;
  lo_timer : timer (lf_store lf) = bool_decide (batch (lf_store lf) ≠ []);
  lo_closed : closed (lf_store lf) = locked (lf_close lf);
  lo_drained : locked (lf_close lf) = true → lf_calls lf = 0%nat;
  lo_batch : match lf_close lf with Finished _ => lf_batchDone lf = true | WaitBatch => True | _ => lf_batchDone lf = false end;
  lo_snap : match lf_close lf with NotClosing => lf_snapDone lf = false | WaitSnap => True | _ => lf_snapDone lf = true end;
  lo_exp : match lf_close lf with NotClosing | WaitSnap => lf_expDone lf = false | WaitExp => True | _ => lf_expDone lf = true end
}.

Lemma life_ok_opened s : batch s = [] → batchChan s = [] → timer s = false → closed s = false → life_ok (opened s).
Proof. intros Hb Hc Ht Hcl. split; cbn; rewrite ?Hb, ?Hc; done. Qed.

(** ** Progress *)

(** The steps [Close] still has to make, and the work of the batch loop before
    the last caller releases the lock. *)
Definition rank (lf : Life) : nat :=
  match lf_close lf with
  | NotClosing => 8
  | WaitSnap => if lf_snapDone lf then 6 else 7
  | WaitExp => if lf_expDone lf then 4 else 5
  | WaitLock => 3
  | WaitBatch => if lf_batchDone lf then 1 else 2
  | Finished _ => 0
  end.
Definition work (lf : Life) : nat := (2 * length (batchChan (lf_store lf)) + length (batch (lf_store lf)))%nat.

(** The actions that do not depend on a caller, a reader or a ticker. *)
Definition driven (a : act) : bool :=
  match a with ARecv _ _ _ | AFlush | ADrained | ASnapStop | AExpStop | AClose => true | _ => false end.

(** Nothing sets [Close] back, and a driven action brings it forward. *)
Definition forward (a : act) (lf lf' : Life) : Prop :=
  (rank lf' <= rank lf)%nat ∧ ((rank lf <= 3)%nat → (work lf' <= work lf)%nat) ∧
  (driven a = true → (rank lf' + work lf' < rank lf + work lf)%nat).

Definition acted (a : act) (lf : Life) (p : Life * list reply) : Prop := life_ok p.1 ∧ forward a lf p.1.

(** Only the memory of the store changes. *)
Lemma memory_ok a m lf : life_ok lf → driven a = false → acted a lf (with_store (set_mem m (lf_store lf)) lf, []).
Proof. intros [] Ha. split; [by split|]. split; [done|]. split; [done|]. by rewrite Ha. Qed.

Lemma same_ok a lf acks : life_ok lf → driven a = false → acted a lf (lf, acks).
Proof. intros Hl Ha. split; [done|]. split; [done|]. split; [done|]. by rewrite Ha. Qed.

Lemma call_ok req lf m : life_ok lf → act_call req lf = Some m → returns m (acted (ACall req) lf).
Proof.
  intros Hl. pose proof Hl as [H1 H2 H3 H4 H5 H6 H7 H8]. unfold act_call, submit. destruct (closed (lf_store lf)) eqn:Hc.
  - intros Hm. assert (m = ret (with_store (lf_store lf) lf, [(req, Err ErrClosed)])) as -> by (destruct (lf_close lf); by inversion Hm).
    apply returns_ret. assert (with_store (lf_store lf) lf = lf) as -> by (by destruct lf). by apply (same_ok (ACall req)).
  - destruct (lf_close lf) eqn:E; try done; intros [= <-]; apply returns_ret; (split;
      [split; cbn; rewrite ?E; try done; [by rewrite H1, !app_assoc|rewrite H2, length_app; cbn; lia]
      |unfold forward, rank; cbn; rewrite E; split_and!; [done| |done]; repeat case_match; lia]).
Qed.

(** The batch loop answers the first of the requests in flight. *)
Lemma answer_ok a s acks q b lf lf' :
  life_ok lf → lf' = answer s acks lf →
  batch (lf_store lf) ++ batchChan (lf_store lf) = acks.*1 ++ b ++ q → batch s = b → batchChan s = q →
  timer s = bool_decide (b ≠ []) → closed s = closed (lf_store lf) →
  (2 * length q + length b < work lf)%nat → acted a lf (lf', acks).
Proof.
  intros [H1 H2 H3 H4 H5 H6 H7 H8] -> Hq Hb Hc Ht Hcl Hw. apply (f_equal length) in Hq as Hlen. rewrite !length_app, length_fmap in Hlen.
  split.
  - split; cbn; rewrite ?Hb, ?Hc, ?Hcl; try done.
    + by rewrite H1, Hq, fmap_app, <- app_assoc.
    + unfold reply in *. lia.
    + intros Hl. rewrite (H5 Hl). unfold reply in *. lia.
  - unfold forward. cbn [fst]. assert (rank (answer s acks lf) = rank lf) as -> by done.
    assert (work (answer s acks lf) < work lf)%nat by (unfold work at 1; cbn [lf_store answer]; by rewrite Hb, Hc).
    split_and!; [done|lia|lia].
Qed.

Lemma recv_ok t1 t2 t3 lf m : life_ok lf → act_recv t1 t2 t3 lf = Some m → returns m (acted (ARecv t1 t2 t3) lf).
Proof.
  intros Hl. unfold act_recv, act_batch. destruct (batchChan (lf_store lf)) as [|req q] eqn:Hq; [done|].
  destruct (lf_batchDone lf); [done|]. intros [= <-]. eapply returns_bind; [apply recv_returns|].
  intros [s acks]. cbn [fst snd]. case_decide.
  - intros [= -> ->]. apply returns_ret. eapply (answer_ok _ _ _ q (batch (lf_store lf) ++ [req])); try done; cbn.
    + by rewrite Hq, <- app_assoc.
    + by rewrite bool_decide_true by (by destruct (batch (lf_store lf))).
    + unfold work. rewrite Hq, length_app. cbn. lia.
  - intros [Ha [mm ->]]. apply returns_ret. eapply (answer_ok _ _ _ q []); try done; cbn.
    + rewrite Hq, Ha. cbn. by rewrite <- app_assoc.
    + unfold work. rewrite Hq. cbn. lia.
Qed.

Lemma flush_ok lf m : life_ok lf → act_flush lf = Some m → returns m (acted AFlush lf).
Proof.
  intros Hl. unfold act_flush, act_batch, batchLoop_timer. destruct (timer (lf_store lf)) eqn:Ht; [|done].
  destruct (lf_batchDone lf); [done|]. intros [= <-]. eapply returns_bind; [apply flush_returns|].
  intros [s acks] [Ha [mm Hm]]. cbn [fst snd] in Ha, Hm. subst s. apply returns_ret.
  eapply (answer_ok _ _ _ (batchChan (lf_store lf)) []); try done; cbn; [by rewrite Ha|].
  pose proof (lo_timer _ Hl) as Hx. rewrite Ht in Hx. symmetry in Hx. apply bool_decide_eq_true in Hx.
  unfold work. destruct (batch (lf_store lf)); [done|]. cbn. lia.
Qed.

(** A closed store has nothing in flight. *)
Lemma locked_empty lf : life_ok lf → locked (lf_close lf) = true → batch (lf_store lf) = [] ∧ batchChan (lf_store lf) = [].
Proof.
  intros Hl Hc. pose proof (lo_drained _ Hl Hc) as H0. rewrite (lo_calls _ Hl) in H0.
  destruct (batch (lf_store lf)), (batchChan (lf_store lf)); cbn in H0; (done || lia).
Qed.

Lemma drained_ok lf m : life_ok lf → act_drained lf = Some m → returns m (acted ADrained lf).
Proof.
  intros Hl. unfold act_drained, batchLoop_closed. destruct (closed (lf_store lf)) eqn:Hc; [|done].
  pose proof (lo_closed _ Hl) as Hk. rewrite Hc in Hk. destruct (locked_empty lf Hl (eq_sym Hk)) as [Hb Hq]. rewrite Hq, Hb.
  destruct (lf_batchDone lf) eqn:Hd; [done|]. intros [= <-].
  assert (Hcl : lf_close lf = WaitBatch).
  { pose proof (lo_batch _ Hl) as Hx. rewrite Hd in Hx. by destruct (lf_close lf). }
  apply returns_ret. pose proof Hl as [H1 H2 H3 H4 H5 H6 H7 H8]. rewrite Hcl in *. split.
  - split; cbn; rewrite ?Hcl; try done; [by rewrite app_nil_r|lia|intros _; rewrite H5 by done; done].
  - unfold forward, rank, work. cbn. rewrite Hcl, Hd. split_and!; [lia|done|intros _; lia].
Qed.

Lemma stop_ok a sn ex lf :
  life_ok lf → (sn = true → stopSnap lf = true) → (ex = true → stopExp lf = true) →
  (lf_snapDone lf = true → sn = true) → (lf_expDone lf = true → ex = true) →
  (lf_snapDone lf = false ∧ sn = true ∨ lf_expDone lf = false ∧ ex = true) →
  acted a lf (with_done sn ex (lf_batchDone lf) lf, []).
Proof.
  intros [H1 H2 H3 H4 H5 H6 H7 H8] Hs He Hs' He' Hd. unfold stopSnap, stopExp in *. split.
  - split; cbn; try done; destruct (lf_close lf); try done; destruct sn, ex; naive_solver.
  - assert (Hr : (rank (with_done sn ex (lf_batchDone lf) lf) < rank lf)%nat).
    { unfold rank. cbn. destruct (lf_close lf), sn, ex, (lf_snapDone lf), (lf_expDone lf); try lia; naive_solver. }
    unfold forward; cbn [fst]; split_and!; [lia|done|]; intros _; assert (work (with_done sn ex (lf_batchDone lf) lf) = work lf) by done; lia.
Qed.

Lemma close_ok lf m : life_ok lf → close_next lf = Some m → returns m (acted AClose lf).
Proof.
  intros Hl. pose proof Hl as [H1 H2 H3 H4 H5 H6 H7 H8]. unfold close_next. destruct (lf_close lf) eqn:Hc; cbn in H6, H7, H8.
  - intros [= <-]. apply returns_ret. split; [split; cbn; try done; by rewrite H4|].
    unfold forward, rank, work. cbn. rewrite Hc, H7. split_and!; [lia|lia|intros _; lia].
  - destruct (lf_snapDone lf) eqn:Hs; [|done]. intros [= <-]. apply returns_ret. split; [split; cbn; try done; by rewrite H4|].
    unfold forward, rank, work. cbn. rewrite Hc, Hs, H8. split_and!; [lia|lia|intros _; lia].
  - destruct (lf_expDone lf) eqn:Hs; [|done]. intros [= <-]. apply returns_ret. split; [split; cbn; try done; by rewrite H4|].
    unfold forward, rank, work. cbn. rewrite Hc, Hs. split_and!; [lia|lia|intros _; lia].
  - case_decide as H0; [|done]. intros [= <-]. apply returns_ret. split; [split; cbn; try done|].
    unfold forward, rank, work. cbn. rewrite Hc, H6. split_and!; [lia|lia|intros _; lia].
  - destruct (lf_batchDone lf) eqn:Hs; [|done]. intros [= <-]. eapply returns_bind; [apply returns_attempt|]. intros r1 _.
    eapply returns_bind; [apply returns_attempt|]. intros r2 _. apply returns_ret. split; [split; cbn; try done; auto|].
    unfold forward, rank, work. cbn. rewrite Hc, Hs. split_and!; [lia|lia|intros _; lia].
  - done.
Qed.

Lemma act_ok a lf m : life_ok lf → life_act a lf = Some m → returns m (acted a lf).
Proof.
  intros Hl. destruct a; cbn [life_act].
  - by apply call_ok.
  - by apply recv_ok.
  - by apply flush_ok.
  - by apply drained_ok.
  - unfold snapshotLoop. destruct (lf_snapDone lf); [done|]. intros [= <-].
    eapply returns_bind; [apply returns_attempt|]. intros _ _. by apply returns_ret, same_ok.
  - unfold snapshotLoop. destruct (lf_snapDone lf) eqn:Hs; [done|]. destruct (stopSnap lf) eqn:Hst; [|done]. intros [= <-].
    apply returns_ret, stop_ok; auto. intros He. pose proof (lo_exp _ Hl) as Hx. unfold stopExp. by destruct (lf_close lf); rewrite ?He in Hx.
  - unfold expireLoop. destruct (lf_expDone lf); [done|]. intros [= <-]. by apply returns_ret, memory_ok.
  - unfold expireLoop. destruct (lf_expDone lf) eqn:Hs; [done|]. destruct (stopExp lf) eqn:Hst; [|done]. intros [= <-].
    apply returns_ret, stop_ok; auto. intros _. unfold stopSnap, stopExp in *. by destruct (lf_close lf).
  - intros [= <-]. by apply returns_ret, memory_ok.
  - by apply close_ok.
Qed.

Lemma life_run_ok acts lf w lf' w' : life_ok lf → life_run acts lf w = Some (lf', w') → life_ok lf'.
Proof.
  revert lf w. induction acts as [|a acts IH]; intros lf w Hl; cbn [life_run]; [by intros [= <- _]|].
  destruct (life_act a lf) as [m|] eqn:Ha; [|done]. destruct (act_ok a lf m Hl Ha w) as ([lf1 acks] & w1 & -> & Hok & _).
  by apply IH.
Qed.

(** While [Close] runs, one of the goroutines it waits for can move. *)
Lemma close_unblocked lf :
  life_ok lf → stopSnap lf = true → (∀ r, lf_close lf ≠ Finished r) → ∃ a m, driven a = true ∧ life_act a lf = Some m.
Proof.
  intros Hl Hs Hf. destruct (lf_close lf) eqn:Hc; try by unfold stopSnap in Hs; rewrite Hc in Hs.
  - destruct (lf_snapDone lf) eqn:E.
    + exists AClose. eexists. split; [done|]. cbn. unfold close_next. by rewrite Hc, E.
    + exists ASnapStop. eexists. split; [done|]. cbn. unfold snapshotLoop. by rewrite E, Hs.
  - destruct (lf_expDone lf) eqn:E.
    + exists AClose. eexists. split; [done|]. cbn. unfold close_next. by rewrite Hc, E.
    + exists AExpStop. eexists. split; [done|]. cbn. unfold expireLoop, stopExp. by rewrite E, Hc.
  - pose proof (lo_batch _ Hl) as Hb. rewrite Hc in Hb. destruct (batchChan (lf_store lf)) as [|req q] eqn:Hq.
    + destruct (batch (lf_store lf)) as [|r b] eqn:Hba.
      * exists AClose. eexists. split; [done|]. cbn. unfold close_next. rewrite Hc, decide_True; [done|].
        by rewrite (lo_calls _ Hl), Hq, Hba.
      * exists AFlush. eexists. split; [done|]. cbn. unfold act_flush, act_batch.
        rewrite (lo_timer _ Hl), Hba, bool_decide_true, Hb by done. done.
    + exists (ARecv 0 0 0). eexists. split; [done|]. cbn. unfold act_recv, act_batch. by rewrite Hq, Hb.
  - destruct (lf_batchDone lf) eqn:E.
    + exists AClose. eexists. split; [done|]. cbn. unfold close_next. by rewrite Hc, E.
    + exists ADrained. eexists. split; [done|]. cbn. unfold act_drained. destruct (locked_empty lf Hl) as [_ Hq]; [by rewrite Hc|].
      by rewrite (lo_closed _ Hl), Hc, Hq, E.
  - by destruct (Hf r).
Qed.

Lemma close_finishes n lf w :
  life_ok lf → stopSnap lf = true → (rank lf + work lf <= n)%nat →
  ∃ more lf' w' r, forallb driven more = true ∧ (length more <= n)%nat ∧
    life_run more lf w = Some (lf', w') ∧ lf_close lf' = Finished r.
Proof.
  revert lf w. induction n as [|n IH]; intros lf w Hl Hs Hn.
  all: destruct (lf_close lf) as [| | | | |r] eqn:Hc; [by unfold stopSnap in Hs; rewrite Hc in Hs|..|by exists [], lf, w, r; cbn; split_and!; (lia || done)].
  all: destruct (close_unblocked lf Hl Hs) as (a & m & Ha & Hm); [congruence|].
  all: destruct (act_ok a lf m Hl Hm w) as ([lf1 acks] & w1 & Hw & Hok & Hr & _ & Hlt); cbn [fst] in *; specialize (Hlt Ha).
  all: try (exfalso; lia).
  all: assert (Hs1 : stopSnap lf1 = true) by (revert Hr; unfold rank, stopSnap; rewrite Hc; destruct (lf_close lf1); repeat case_match; (done || lia)).
  all: destruct (IH lf1 w1 Hok Hs1) as (more & lf' & w' & r & Hd & Hlen & Hrun & Hfin); [lia|].
  all: exists (a :: more), lf', w', r; cbn [forallb length life_run]; rewrite Ha, Hm, Hw; split_and!; (done || lia).
Qed.

End life.

(** ** What Close promises *)

(** What [openDiskStore] leaves: no request in flight. *)
Definition idle_store (s : DiskStore) : Prop := batch s = [] ∧ batchChan s = [] ∧ timer s = false ∧ closed s = false.

Lemma idle_life_ok rnd s acts w lf w' : idle_store s → life_run rnd acts (opened s) w = Some (lf, w') → life_ok lf.
Proof. intros (? & ? & ? & ?). apply life_run_ok. by apply life_ok_opened. Qed.

(** C14 (in-flight writes finish, new ones are refused): whatever the
    goroutines, the callers and the disk do, the requests admitted so far are,
    in order, those answered, once each, those in the batch and those in the
    channel.  From the moment the store counts as closed all of them are
    answered, and every later caller gets ErrClosed. *)
Theorem writers_answered_before_close rnd s acts w lf w' :
  idle_store s → life_run rnd acts (opened s) w = Some (lf, w') →
  lf_admitted lf = (lf_answered lf).*1 ++ batch (lf_store lf) ++ batchChan (lf_store lf) ∧
  (closed (lf_store lf) = true →
     lf_admitted lf = (lf_answered lf).*1 ∧
     ∀ req, act_call req lf = Some (ret (lf, [(req, Err ErrClosed)]))).
Proof.
  intros Hs Hr. pose proof (idle_life_ok _ _ _ _ _ _ Hs Hr) as Hl. split; [apply Hl|]. intros Hc.
  pose proof (lo_closed _ Hl) as Hk. rewrite Hc in Hk. destruct (locked_empty lf Hl (eq_sym Hk)) as [Hb Hq]. split.
  - by rewrite (lo_history _ Hl), Hb, Hq, !app_nil_r.
  - intros req. unfold act_call, submit. rewrite Hc. destruct lf as [? ? ? ? ? []]; done.
Qed.

(** C29 (close returns): once Close is called, whatever happened before, the
    goroutines it waits for can always move on by themselves: the store is
    closed within a number of their actions that is bounded by the requests in
    flight, errors of the disk included.  No caller, reader or ticker sets it
    back. *)
Theorem Close_returns rnd s acts w lf w' :
  idle_store s → life_run rnd acts (opened s) w = Some (lf, w') → stopSnap lf = true →
  (∃ more lf' w'' r, forallb driven more = true ∧ (length more <= rank lf + work lf)%nat ∧
     life_run rnd more lf w' = Some (lf', w'') ∧ lf_close lf' = Finished r) ∧
  (∀ a m, life_act rnd a lf = Some m →
     ∃ lf' acks w'', m w' = (Ok (lf', acks), w'') ∧ (rank lf' <= rank lf)%nat ∧ ((rank lf <= 3)%nat → (work lf' <= work lf)%nat)).
Proof.
  intros Hi Hr Hs. pose proof (idle_life_ok _ _ _ _ _ _ Hi Hr) as Hl. split; [by apply close_finishes|].
  intros a m Hm. destruct (act_ok rnd a lf m Hl Hm w') as ([lf' acks] & w'' & ? & _ & ? & ? & _). by exists lf', acks, w''.
Qed.

(** Close as one call: once the last caller released the lock, the rest
    of Close with the end of the batch loop is the operation [Close] of the
    store: the same error, the same store and the same files. *)
Theorem close_is_Close rnd s acts w lf w' t1 t2 t3 :
  idle_store s → life_run rnd acts (opened s) w = Some (lf, w') → lf_close lf = WaitLock → lf_calls lf = 0%nat →
  ∃ lf' w'' r, life_run rnd [AClose; ADrained; AClose] lf w' = Some (lf', w'') ∧ lf_close lf' = Finished r ∧
    DiskStore.Close rnd t1 t2 t3 (lf_store lf) w' = (Ok (lf_store lf', [], r), w'').
Proof.
  intros Hi Hr Hc H0. pose proof (idle_life_ok _ _ _ _ _ _ Hi Hr) as Hl.
  pose proof (lo_calls _ Hl) as Hn. rewrite H0 in Hn.
  destruct (batch (lf_store lf)) eqn:Hb, (batchChan (lf_store lf)) eqn:Hq; cbn in Hn; try lia.
  pose proof (lo_batch _ Hl) as Hd. rewrite Hc in Hd.
  destruct lf as [st ca sn ex ba cl ad an]; cbn in *; subst. destruct st; cbn in *; subst.
  set (s' := mkDisk mem wal cipher snapshotPath walPath [] [] timer true).
  destruct (compact rnd s' w') as [rc w1] eqn:E1. destruct (Wal.Close wal w1) as [rf w2] eqn:E2.
  eexists (mkLife s' 0 sn ex true (Finished (match rf with Err e => Err e | Ok _ => rc end)) ad (an ++ [])), w2, _.
  unfold close_next, DiskStore.Close, bind, attempt. rewrite decide_True by done. cbn -[compact Wal.Close].
  unfold set_closed, set_chan. cbn -[compact Wal.Close]. fold s'. by rewrite E1, E2.
Qed.

(** A store with a put in the batch and an increment in the channel when Close
    is called, on a disk whose third call fails. *)
Definition busy_store : DiskStore := mkDisk NewMemStore (mkWAL "d/wal.log" None) None "d/snapshot.dat" "d/wal.log" [] [] false false.
Definition busy_world : World := mkWorld (at_rest {["d/wal.log"%string := []]}) [Good; Good; Bad 0] [].
Definition busy_acts : list act :=
  [ACall (Put_req 1 "a" "1"); ARecv 0 0 0; ACall (Incr_req 2 "a"); AClose; ASnapTick; ASnapStop; AClose; AExpStop; AClose].
Definition close_acts : list act := [ARecv 1 1 1; AClose; ADrained; AClose].

Lemma writers_answered_before_close_witness :
  ∃ lf w', life_run (λ _, None) (busy_acts ++ close_acts) (opened busy_store) busy_world = Some (lf, w') ∧
    lf_admitted lf = (lf_answered lf).*1 ∧ length (lf_answered lf) = 2%nat.
Proof.
  destruct (life_run (λ _, None) (busy_acts ++ close_acts) (opened busy_store) busy_world) as [[lf w']|] eqn:E; [|by vm_compute in E].
  exists lf, w'. split; [reflexivity|].
  destruct (writers_answered_before_close (λ _, None) busy_store (busy_acts ++ close_acts) busy_world lf w') as [_ H].
  - repeat split.
  - exact E.
  - split; [apply H; vm_compute in E; by injection E as <- <-|vm_compute in E; by injection E as <- <-].
Defined.

Lemma Close_returns_witness :
  ∃ lf w' more lf' w'' r, life_run (λ _, None) busy_acts (opened busy_store) busy_world = Some (lf, w') ∧
    life_run (λ _, None) more lf w' = Some (lf', w'') ∧ lf_close lf' = Finished r.
Proof.
  destruct (life_run (λ _, None) busy_acts (opened busy_store) busy_world) as [[lf w']|] eqn:E; [|by vm_compute in E].
  destruct (Close_returns (λ _, None) busy_store busy_acts busy_world lf w') as [(more & lf' & w'' & r & _ & _ & H1 & H2) _].
  - repeat split.
  - exact E.
  - vm_compute in E. by injection E as <- <-.
  - exists lf, w', more, lf', w'', r. auto.
Defined.

Lemma close_is_Close_witness :
  ∃ lf w' s' r w'', life_run (λ _, None) (busy_acts ++ [ARecv 1 1 1]) (opened busy_store) busy_world = Some (lf, w') ∧
    DiskStore.Close (λ _, None) 1 1 1 (lf_store lf) w' = (Ok (s', [], r), w'').
Proof.
  destruct (life_run (λ _, None) (busy_acts ++ [ARecv 1 1 1]) (opened busy_store) busy_world) as [[lf w']|] eqn:E; [|by vm_compute in E].
  destruct (close_is_Close (λ _, None) busy_store (busy_acts ++ [ARecv 1 1 1]) busy_world lf w' 1 1 1) as (lf' & w'' & r & _ & _ & H).
  - repeat split.
  - exact E.
  - vm_compute in E. by injection E as <- <-.
  - vm_compute in E. by injection E as <- <-.
  - exists lf, w', (lf_store lf'), r, w''. auto.
Defined.
