(* ===== verification/Durability.v ===== *)
(** * Durability: what the durable store promises across crashes

    The log and the snapshot on disk are related to the memory state; every
    flush and every compaction is shown to keep the relation, at each point
    where the process may be killed; reopening the directory is shown to restore
    the related state. *)

From S2P Require Import Prelude GoLib Engine MemStore Json Disk Crypto Wal Snapshot DiskStore.

(** ** Executing records while no deadline has passed *)

(** The data after executing a record, and a list of them (at any time before
    the deadlines). *)
Definition redo_one (T : Z) (d : gmap string entry) (r : record) : gmap string entry :=
  data (redo T r (mkMem d 0)).
Definition redo_data (T : Z) (rs : list record) (d : gmap string entry) : gmap string entry :=
  foldl (redo_one T) d rs.

Lemma set_data_eta m : set_data (data m) m = m.
Proof. by destruct m. Qed.

(** Executing one record changes the data only, in a way that does not depend on
    the time or on the rest of the store. *)
Lemma redo_set_data T t r m :
  live_until T m → t <= T → redo t r m = set_data (redo_one T (data m) r) m.
Proof.
  intros Hm Ht. assert (live_until T (mkMem (data m) 0)) as Hm' by done. unfold redo_one.
  destruct r as [k v|k| |k|k old new|k d]; cbn [redo]; try done;
    unfold Incr, CAS, Expire; rewrite !(lookup_live_before T) by (done || lia); cbn [data];
    destruct (data m !! k) as [e|]; try done; cbn [snd].
  1: destruct (ParseInt (Value e)) as [v|]; [destruct (v =? maxInt64)|].
  all: try destruct (negb _); by destruct m.
Qed.

Lemma redo_one_live T d r :
  live_until T (mkMem d 0) → deadline_after T r → live_until T (mkMem (redo_one T d r) 0).
Proof. intros Hd Hr. by apply (redo_before T T T r (mkMem d 0)). Qed.

Lemma redo_data_live T rs d :
  live_until T (mkMem d 0) → Forall (deadline_after T) rs → live_until T (mkMem (redo_data T rs d) 0).
Proof.
  intros Hd Hrs. revert d Hd. induction Hrs as [|r rs Hr _ IH]; intros d Hd; [done|].
  simpl. by apply IH, redo_one_live.
Qed.

Lemma redo_all_data T clk i rs m :
  live_until T m → Forall (deadline_after T) rs → (∀ j, clk j <= T) →
  redo_all clk i rs m = set_data (redo_data T rs (data m)) m.
Proof.
  intros Hm Hrs Hclk. revert i m Hm. induction Hrs as [|r rs Hr _ IH]; intros i m Hm; simpl.
  - by rewrite set_data_eta.
  - rewrite (redo_set_data T) by done. rewrite IH; [done|]. by apply (redo_one_live T (data m)).
Qed.

(** ** Overwriting records, for which executing twice is executing once *)

Definition overwrites (r : record) : Prop :=
  match r with RPut _ _ | RDelete _ | RClear => True | _ => False end.

(** The effect of overwriting records on a key does not depend on what the key
    held, once some record of the list touches it. *)
Lemma redo_overwrites_key T rs k :
  Forall overwrites rs →
  (∀ d, redo_data T rs d !! k = d !! k) ∨ (∃ x, ∀ d, redo_data T rs d !! k = x).
Proof.
  intros Hrs. induction rs as [|r rs IH] using rev_ind; [by left|].
  apply Forall_app in Hrs as [Hrs Hr]. rewrite Forall_singleton in Hr.
  assert (∀ d, redo_data T (rs ++ [r]) d = redo_one T (redo_data T rs d) r) as Hsnoc.
  { intros d. unfold redo_data. by rewrite foldl_app. }
  destruct r as [k' v|k'| | | |]; try (exfalso; exact Hr).
  - destruct (decide (k' = k)) as [->|Hne].
    + right. exists (Some (mkEntry v 0)). intros d. rewrite Hsnoc. apply lookup_insert_eq.
    + destruct (IH Hrs) as [H|[x H]]; [left|right; exists x]; intros d; rewrite Hsnoc;
        (etransitivity; [by apply lookup_insert_ne|apply H]).
  - destruct (decide (k' = k)) as [->|Hne].
    + right. exists None. intros d. rewrite Hsnoc. apply lookup_delete_eq.
    + destruct (IH Hrs) as [H|[x H]]; [left|right; exists x]; intros d; rewrite Hsnoc;
        (etransitivity; [by apply lookup_delete_ne|apply H]).
  - right. exists None. intros d. rewrite Hsnoc. apply lookup_empty.
Qed.

Lemma redo_overwrites_idemp T rs d :
  Forall overwrites rs → redo_data T rs (redo_data T rs d) = redo_data T rs d.
Proof.
  intros Hrs. apply map_eq. intros k.
  destruct (redo_overwrites_key T rs k Hrs) as [H|[x H]]; by rewrite !H.
Qed.

(** ** The log file *)

(** The bytes of the log before its first record, and of a record (with the
    nonce it was sealed under). *)
Definition log_header (c : option atRestCipher) : bytes :=
  match c with None => [] | Some _ => [walEncryptedMagic] end.
Definition log_enc (c : option atRestCipher) (p : bytes * record) : bytes :=
  match c with None => encode p.2 | Some c => blob c p end.
Definition log_ok (c : option atRestCipher) (p : bytes * record) : Prop :=
  match c with None => record_ok p.2 | Some _ => blob_ok p end.
Definition log_body (c : option atRestCipher) (ps : list (bytes * record)) : bytes :=
  concat (log_enc c <$> ps).
Definition log_bytes (c : option atRestCipher) (ps : list (bytes * record)) : bytes :=
  log_header c ++ log_body c ps.

(** What [Replay] does with the contents of the log. *)
Definition replay (c : option atRestCipher) (clk : nat → Z) (content : bytes) (m : MemStore) : res unit * nat * MemStore :=
  match c with
  | None => replayPlain clk content (zlen content) m
  | Some c => replayEncrypted c clk content m
  end.

Lemma log_body_app c ps qs : log_body c (ps ++ qs) = log_body c ps ++ log_body c qs.
Proof. unfold log_body. by rewrite fmap_app, concat_app. Qed.

(** A prefix of a sequence of encodings: complete ones, then a part of one. *)
Lemma prefix_of_concat {A} (enc : A → bytes) (l : list A) (x : bytes) :
  x `prefix_of` concat (enc <$> l) →
  x = concat (enc <$> l) ∨
  ∃ k p n, l !! k = Some p ∧ (n < length (enc p))%nat ∧ x = concat (enc <$> take k l) ++ take n (enc p).
Proof.
  revert x. induction l as [|p l IH]; intros x Hx; [left; by apply prefix_nil_inv in Hx|].
  cbn [fmap list_fmap concat] in *. destruct (decide (length x < length (enc p))%nat) as [Hlt|Hge].
  - right. exists 0%nat, p, (length x). split_and!; [done..|]. simpl.
    destruct Hx as [y Hy]. transitivity (take (length x) (x ++ y)); [by rewrite take_app_length|].
    rewrite <- Hy. apply take_app_le. lia.
  - assert (∃ y, x = enc p ++ y ∧ y `prefix_of` concat (enc <$> l)) as (y & -> & Hy).
    { destruct Hx as [z Hz]. exists (drop (length (enc p)) x).
      assert (take (length (enc p)) x = enc p) as Ht.
      { rewrite <- (take_app_le x z), <- Hz by lia. by rewrite take_app_length. }
      assert (x = enc p ++ drop (length (enc p)) x) as Hx by (rewrite <- Ht at 1; by rewrite take_drop).
      split; [done|]. exists z. apply (app_inv_head (enc p)). by rewrite app_assoc, <- Hx. }
    destruct (IH y Hy) as [->|(k & q & n & Hk & Hn & ->)]; [by left|].
    right. exists (S k), q, n. split_and!; [done..|]. cbn [take fmap list_fmap concat]. by rewrite app_assoc.
Qed.

Section store.
Context (dir : string) (c : option atRestCipher) (rnd : nat → option bytes) (T : Z).
Context (Hlaws : match c with None => True | Some c => AEAD_laws (aead c) end).
Context (Hrnd : ∀ n, ∃ nonce, rnd n = Some nonce ∧ length nonce = atRestNonceSize).

Let wp := path_join dir "wal.log".
Let sp := path_join dir "snapshot.dat".
Definition w0 : WAL := mkWAL wp c.

(** Replaying complete records followed by a part of another one executes the
    complete ones; only such a fragment makes it fail. *)
Lemma replay_log clk ps frag m :
  Forall (log_ok c) ps → (frag = [] ∨ ∃ p n, log_ok c p ∧ (n < length (log_enc c p))%nat ∧ frag = take n (log_enc c p)) →
  ∃ r i, replay c clk (log_bytes c ps ++ frag) m = (r, i, redo_all clk 0 ps.*2 m) ∧
    (r = Ok () ∨ (frag ≠ [] ∧ ∃ e, r = Err e)).
Proof.
  intros Hps Hfrag. unfold replay, log_bytes, log_header, log_body, log_ok, log_enc in *. destruct c as [c'|].
  - assert (∃ p n, blob_ok p ∧ (n < length (blob c' p))%nat ∧ frag = take n (blob c' p)) as (p & n & Hp & Hn & ->).
    { destruct Hfrag as [->|?]; [|done]. exists (replicate 12 zero, RClear), 0%nat. split_and!; [|..|done].
      - split_and!; [done|done|]. vm_compute. done.
      - unfold blob. rewrite length_app, length_be_encode. lia. }
    pose proof (replayEncrypted_eq c' clk ps p n m Hlaws Hps Hp Hn) as Hi.
    rewrite <- app_assoc. cbn [app] in *. eexists _, _. split; [apply Hi|].
    case_decide; [by left|]. right. split; [|eauto].
    intros Hnil. apply (f_equal length) in Hnil. rewrite length_take in Hnil. simpl in Hnil. lia.
  - assert (concat ((λ p : bytes * record, encode p.2) <$> ps) = encode_all ps.*2) as ->.
    { unfold encode_all. by rewrite <- list_fmap_compose. }
    assert (Forall record_ok ps.*2) as Hrs by by apply Forall_fmap.
    cbn [app]. destruct (decide (frag = [])) as [->|Hne].
    + rewrite app_nil_r. exists (Ok ()). rewrite replayPlain_run by done. eauto.
    + destruct Hfrag as [?|(p & n & Hp & Hn & ->)]; [done|].
      destruct (replay_torn (S (length (encode_all ps.*2 ++ take n (encode p.2)))) clk 0 ps.*2 (take n (encode p.2)) m)
        as (i & e & He & _); [done|done|by apply torn_no_record|lia|].
      exists (Err e), i. split; [done|]. right. eauto.
Qed.
(** *** The two files *)

Lemma path_join_inj a b : path_join dir a = path_join dir b → a = b.
Proof. unfold path_join. intros H. by apply (inj (String.append dir)) in H as [= ]. Qed.

Lemma wp_sp : wp ≠ sp.
Proof. intros H. by apply path_join_inj in H. Qed.

Lemma tmp_sp : tmp_of sp = path_join dir "snapshot.dat.tmp".
Proof. unfold tmp_of, sp, path_join. by rewrite string_append_assoc. Qed.

Lemma wp_tmp : wp ≠ tmp_of sp.
Proof. rewrite tmp_sp. intros H. by apply path_join_inj in H. Qed.

(** The log holds [v], of which [d] is durable; the snapshot file is [sn]; both
    files have durable entries in the directory. *)
Record fstate (v d : bytes) (sn : option bytes) (f : FS) : Prop := {
  fs_pend : pend f = [];
  fs_vol : vol f !! wp = Some v;
  fs_dur : default [] (dur f !! wp) = d;
  fs_snap : vol f !! sp = sn;
  fs_snap_dur : dur f !! sp = sn;
  fs_ent : wp ∈ ents f;
  fs_snap_ent : is_Some sn → sp ∈ ents f
}.

(** The log found after a crash. *)
Definition crash_log (v d x : bytes) : Prop :=
  if decide (d `prefix_of` v) then d `prefix_of` x ∧ x `prefix_of` v else x = d ∨ x `prefix_of` v.

(** What a crash leaves of a log whose entry is durable. *)
Lemma crash_wp v d f g :
  ¬ renamed wp f → vol f !! wp = Some v → default [] (dur f !! wp) = d → wp ∈ ents f → crash f g →
  crash_log v d (default [] (vol g !! wp)) ∧ is_Some (vol g !! wp).
Proof.
  intros Hren Hv Hd He (k & d0 & _ & _ & Hc & _). destruct (Hc wp Hren) as [Hw|[? _]]; [|done].
  rewrite Hv in Hw. unfold crash_log. destruct (vol g !! wp) as [x|]; [|by destruct (dur f !! wp)]. split; [|done].
  destruct (dur f !! wp) as [d'|]; simpl in *; subst; [done|].
  rewrite decide_True by apply prefix_nil. split; [apply prefix_nil|done].
Qed.

Lemma fstate_renamed v d sn f n : fstate v d sn f → ¬ renamed n f.
Proof. intros [Hp _ _ _ _ _ _]. unfold renamed. rewrite Hp. simpl. set_solver. Qed.

Lemma fstate_settled v d sn f : fstate v d sn f → settled sp f.
Proof. intros []. right. congruence. Qed.

(** The snapshot may only be found as it is. *)
Lemma fstate_may_hold v d sn f x : fstate v d sn f → may_hold sp f x → x = sn.
Proof.
  intros [Hp _ _ _ Hsd _ He] (k & d0 & Hs & <-). rewrite Hp, take_nil. cbn.
  destruct (Hs sp) as [->|[Hn ->]]; [done|]. destruct sn; [|done]. destruct Hn. by apply He.
Qed.

Lemma crash_fstate v d sn f g : fstate v d sn f → crash f g →
  crash_log v d (default [] (vol g !! wp)) ∧ vol g !! sp = sn ∧ g = at_rest (vol g) ∧ is_Some (vol g !! wp).
Proof.
  intros Hf Hc. pose proof Hf as [_ Hv Hd _ _ He _].
  destruct (crash_wp v d f g (fstate_renamed _ _ _ _ _ Hf) Hv Hd He Hc) as [Hlog Hw]. split_and!; [done| | |done].
  - eapply fstate_may_hold; [done|]. apply crash_may_hold; [by eapply fstate_settled|done].
  - by destruct Hc as (k & d0 & _ & _ & _ & ?).
Qed.

Lemma fstate_write v d sn f b : fstate v d sn f →
  fstate (v ++ b) d sn (set_vol (<[wp := default [] (vol f !! wp) ++ b]> (vol f)) f).
Proof.
  intros [Hp Hv Hd Hs Hsd He Hse]. split; simpl; try done; [by rewrite lookup_insert_eq, Hv|].
  rewrite lookup_insert_ne by apply wp_sp. done.
Qed.

Lemma write_good v d sn b (I : FS → Prop) :
  (∀ f, fstate (v ++ b) d sn f → I f) →
  gtriple (fstate v d sn) (write wp b) (λ _, fstate (v ++ b) d sn) I.
Proof.
  intros HI. apply g_call. intros f Hf. eexists _, _. split; [done|].
  pose proof (fstate_write v d sn f b Hf). eauto.
Qed.

Lemma sync_good v d sn (I : FS → Prop) :
  (∀ f, fstate v v sn f → I f) → gtriple (fstate v d sn) (fsync wp) (λ _, fstate v v sn) I.
Proof.
  intros HI. apply g_call. intros f [Hp Hv Hd Hs Hsd He Hse]. eexists _, _. split; [done|].
  assert (fstate v v sn (set_dur wp f)).
  { split; simpl; try done; [by rewrite lookup_insert_eq, Hv|]. rewrite lookup_insert_ne by apply wp_sp. done. }
  eauto.
Qed.

(** *** Appending *)

Definition log_fits (r : record) : Prop :=
  record_ok r ∧ match c with None => True | Some _ => zlen (encode r) + 28 <= maxRecordField * 2 + 64 end.

Lemma log_fits_ok nonce r : log_fits r → length nonce = atRestNonceSize → log_ok c (nonce, r).
Proof. intros [Hr Hs] Hn. unfold log_ok. destruct c; [|done]. by split_and!. Qed.

(** Some sealing of the records. *)
Lemma log_sealing rs : Forall log_fits rs → ∃ ps, Forall (log_ok c) ps ∧ ps.*2 = rs.
Proof.
  intros Hrs. exists ((λ r, (replicate 12 zero, r)) <$> rs). split.
  - apply Forall_fmap. eapply Forall_impl; [done|]. intros r Hr. by apply log_fits_ok.
  - rewrite <- list_fmap_compose. apply list_fmap_id.
Qed.

(** The file while the records are being appended to a log holding [v]. *)
Definition appending (v d : bytes) (sn : option bytes) (rs : list record) (f : FS) : Prop :=
  ∃ ps x, Forall (log_ok c) ps ∧ ps.*2 = rs ∧ x `prefix_of` log_body c ps ∧ fstate (v ++ x) d sn f.

Definition appended (v d : bytes) (sn : option bytes) (rs : list record) (f : FS) : Prop :=
  ∃ ps, Forall (log_ok c) ps ∧ ps.*2 = rs ∧ fstate (v ++ log_body c ps) d sn f.

Lemma rand_good P (I : FS → Prop) :
  gtriple P (rand_nonce rnd) (λ n f, P f ∧ ∃ nonce, n = Some nonce ∧ length nonce = atRestNonceSize) I.
Proof.
  intros w Hs HP. eexists _, w. split_and!; [done..|apply Hrnd|]. by exists [].
Qed.

Lemma lift_good {A} P (a : A) (I : FS → Prop) : gtriple P (lift (Ok a)) (λ b f, b = a ∧ P f) I.
Proof. intros w Hs HP. eexists _, w. split_and!; [done..|]. by exists []. Qed.

Lemma append_good v d sn r :
  log_fits r → gtriple (fstate v d sn) (append rnd w0 (encode r)) (λ _, appended v d sn [r]) (appending v d sn [r]).
Proof.
  intros Hr. pose proof (log_fits_ok) as Hok. unfold appended, appending, append, log_body, log_enc. cbn [w_cipher w0 w_path].
  destruct c as [c'|].
  - eapply g_bind; [apply rand_good|]. intros n.
    apply g_pre with (φ := ∃ nonce, n = Some nonce ∧ length nonce = atRestNonceSize); [tauto|]. intros (nonce & -> & Hn).
    eapply g_bind; [eapply g_conseq; [intros f [Hf _]; exact Hf|apply lift_good|done]|]. intros sealed.
    apply g_pre with (φ := sealed = nonce ++ Seal (aead c') nonce (encode r)); [tauto|]. intros ->.
    set (sealed := nonce ++ _). set (hd := be_encode 4 _).
    assert (∀ x f, x `prefix_of` hd ++ sealed → fstate (v ++ x) d sn f → ∃ ps x, Forall blob_ok ps ∧ ps.*2 = [r] ∧
      x `prefix_of` concat (blob c' <$> ps) ∧ fstate (v ++ x) d sn f) as HI.
    { intros x f Hx Hf. exists [(nonce, r)], x. split_and!; [|done| |done].
      - constructor; [|done]. by apply Hok.
      - cbn [fmap list_fmap concat]. by rewrite app_nil_r. }
    eapply g_bind; [eapply g_conseq; [intros f [_ Hf]; exact Hf|apply (write_good v d sn hd)|done]|].
    { intros f. apply HI. by exists sealed. }
    intros []. eapply g_conseq; [done|apply (write_good (v ++ hd) d sn sealed)|].
    { intros f. rewrite <- app_assoc. by apply HI. }
    intros [] f. rewrite <- app_assoc. intros Hf. exists [(nonce, r)]. split_and!; [|done|].
    + constructor; [|done]. by apply Hok.
    + cbn [fmap list_fmap concat]. by rewrite app_nil_r.
  - assert (∀ f, fstate (v ++ encode r) d sn f → ∃ ps, Forall (log_ok None) ps ∧ ps.*2 = [r] ∧
      fstate (v ++ concat ((λ p, encode p.2) <$> ps)) d sn f) as HQ.
    { intros f Hf. exists [([], r)]. split_and!; [|done|].
      - constructor; [|done]. apply Hr.
      - cbn [fmap list_fmap concat]. by rewrite app_nil_r. }
    eapply g_conseq; [done|apply write_good|intros [] f; apply HQ].
    intros f Hf. destruct (HQ f Hf) as (ps & H1 & H2 & H3). eauto 10.
Qed.

Lemma appending_weaken v d sn rs1 rs2 f :
  Forall log_fits rs2 → appending v d sn rs1 f → appending v d sn (rs1 ++ rs2) f.
Proof.
  intros Hrs (ps & x & Hps & <- & Hx & Hf). destruct (log_sealing rs2 Hrs) as (qs & Hqs & <-).
  exists (ps ++ qs), x. split_and!; [by apply Forall_app|by rewrite fmap_app| |done].
  rewrite log_body_app. by apply prefix_app_r.
Qed.

Lemma appending_after v d sn ps rs f :
  Forall (log_ok c) ps → appending (v ++ log_body c ps) d sn rs f → appending v d sn (ps.*2 ++ rs) f.
Proof.
  intros Hps (qs & x & Hqs & <- & Hx & Hf). exists (ps ++ qs), (log_body c ps ++ x).
  split_and!; [by apply Forall_app|by rewrite fmap_app| |by rewrite app_assoc].
  rewrite log_body_app. by apply prefix_app.
Qed.

Lemma appended_appending v d sn rs f : appended v d sn rs f → appending v d sn rs f.
Proof. intros (ps & Hps & Hrs & Hf). by exists ps, (log_body c ps). Qed.

(** The record of a batched request. *)
Definition req_record (req : batchRequest) : record :=
  if req_op req =? opPut then RPut (req_key req) (req_value req)
  else if req_op req =? opDelete then RDelete (req_key req)
  else if req_op req =? opClear then RClear
  else if req_op req =? opIncr then RIncr (req_key req)
  else if req_op req =? opCAS then RCAS (req_key req) (req_old req) (req_value req)
  else RExpire (req_key req) (req_expiresAt req).

(** A request the public operations make. *)
Definition req_ok (req : batchRequest) : Prop :=
  opPut <= req_op req <= opExpire ∧ log_fits (req_record req) ∧ deadline_after T (req_record req).
Definition batched (req : batchRequest) : Prop := req_op req < opIncr.

Lemma append_request_good v d sn req :
  req_ok req → batched req →
  gtriple (fstate v d sn) (append_request rnd w0 req) (λ _, appended v d sn [req_record req])
    (appending v d sn [req_record req]).
Proof.
  intros (Hop & Hfit & _) Hb. unfold batched, req_record, append_request, opIncr, opPut, opDelete, opClear in *.
  destruct (req_op req =? 1) eqn:E1; bool_prop; [by apply (append_good v d sn (RPut _ _))|].
  destruct (req_op req =? 2) eqn:E2; bool_prop; [by apply (append_good v d sn (RDelete _))|].
  destruct (req_op req =? 3) eqn:E3; bool_prop; [by apply (append_good v d sn RClear)|lia].
Qed.

Lemma append_batch_good v d sn b :
  Forall req_ok b → Forall batched b →
  gtriple (fstate v d sn) (append_batch rnd w0 b) (λ _, appended v d sn (req_record <$> b))
    (appending v d sn (req_record <$> b)).
Proof.
  intros Hok Hb. revert v. induction b as [|req b IH]; intros v.
  { apply g_ret. intros f Hf. exists []. split_and!; [done..|]. unfold log_body. simpl. by rewrite app_nil_r. }
  apply Forall_cons in Hok as [Hreq Hok], Hb as [Hbr Hb]. cbn [append_batch fmap list_fmap].
  assert (Forall log_fits (req_record <$> b)) as Hfits.
  { apply Forall_fmap. eapply Forall_impl; [exact Hok|]. intros r Hr. apply Hr. }
  eapply g_bind.
  - eapply g_mono; [by apply append_request_good|]. intros f Hf.
    by apply (appending_weaken v d sn [req_record req] (req_record <$> b)).
  - intros []. apply g_exist. intros ps. apply g_pure. intros Hps. apply g_pure. intros Hrec.
    eapply g_mono; [eapply g_conseq; [done|by apply IH|]|].
    + intros [] f (qs & Hqs & <- & Hf). exists (ps ++ qs). split_and!.
      * by apply Forall_app.
      * by rewrite fmap_app, Hrec.
      * by rewrite log_body_app, app_assoc.
    + intros f Hf. apply (appending_after v d sn ps) in Hf; [|done]. by rewrite Hrec in Hf.
Qed.

(** The records are durable, or on their way. *)
Definition logged (v : bytes) (sn : option bytes) (rs : list record) (f : FS) : Prop :=
  ∃ ps, Forall (log_ok c) ps ∧ ps.*2 = rs ∧ fstate (v ++ log_body c ps) (v ++ log_body c ps) sn f.
Definition logging (v d : bytes) (sn : option bytes) (rs : list record) (f : FS) : Prop :=
  appending v d sn rs f ∨ logged v sn rs f.

Lemma log_sync_good v d sn rs (m : IO unit) :
  gtriple (fstate v d sn) m (λ _, appended v d sn rs) (appending v d sn rs) →
  gtriple (fstate v d sn) (m ;;; Sync w0) (λ _, logged v sn rs) (logging v d sn rs).
Proof.
  intros Hm. eapply g_bind; [eapply g_mono; [exact Hm|by left]|]. intros [].
  apply g_exist. intros ps. apply g_pure. intros Hps. apply g_pure. intros Hrec. unfold Sync. cbn [w_path w0].
  assert (∀ f, fstate (v ++ log_body c ps) (v ++ log_body c ps) sn f → logged v sn rs f) as Hl by by exists ps.
  eapply g_conseq; [done|apply sync_good|]; [|by intros [] f; apply Hl]. intros f Hf. right. by apply Hl.
Qed.

(** *** Recovery *)

(** The snapshot file stands for the data [d0]. *)
Definition snap_holds (sn : option bytes) (d0 : gmap string entry) : Prop :=
  match sn with
  | None => d0 = ∅
  | Some b =>
      match c with
      | None => take (length snapshotMagic) b ≠ snapshotMagic ∧ decodeSnapshot b = Ok d0
      | Some c =>
          take (length snapshotMagic) b = snapshotMagic ∧
          ∃ plain, Decrypt c (drop (length snapshotMagic) b) = Ok plain ∧ decodeSnapshot plain = Ok d0
      end
  end.

(** The log starts as this store's logs do. *)
Definition headed (content : bytes) : Prop :=
  match c with None => True | Some _ => content = [] ∨ hd_error content = Some walEncryptedMagic end.

Definition fresh_store (m : MemStore) : DiskStore := mkDisk m w0 c sp wp [] [] false false.

Lemma call_good {A} (op : outcome → FS → res A * FS) f h :
  call op (mkWorld f [] h) = let (r, f') := op Good f in (r, mkWorld f' [] (f' :: h)).
Proof. unfold call. simpl. done. Qed.

Lemma loadSnapshot_good m f h d0 :
  snap_holds (vol f !! sp) d0 →
  loadSnapshot (fresh_store m) (mkWorld f [] h) =
    (Ok (fresh_store (set_data (if vol f !! sp is Some _ then d0 else data m) m)), mkWorld f [] (f :: h)).
Proof.
  intros Hs. unfold loadSnapshot, bind, read_file. cbn [snapshotPath fresh_store]. rewrite call_good. cbn [on_good].
  destruct (vol f !! sp) as [b|]; cbn [snap_holds] in Hs.
  - cbn [cipher fresh_store]. destruct c as [c'|] eqn:Hc.
    + destruct Hs as [Hm (plain & Hd & Hp)]. rewrite bool_decide_true by done. unfold lift. by rewrite Hd, Hp.
    + destruct Hs as [Hm Hp]. rewrite bool_decide_false by done. unfold lift, ret. by rewrite Hp.
  - unfold ret. by rewrite set_data_eta.
Qed.

(** The log as opening it leaves it: an encrypted log is stamped. *)
Definition stamped (content : bytes) : bytes :=
  match c, content with Some _, [] => [walEncryptedMagic] | _, _ => content end.

Lemma open_wal_good f h :
  let content := default [] (vol f !! wp) in
  headed content →
  ∃ f' h', (match c with Some c => OpenWALEncrypted wp c | None => OpenWAL wp end) (mkWorld f [] h) =
      (Ok w0, mkWorld f' [] h') ∧
    vol f' !! wp = Some (stamped content) ∧ vol f' !! sp = vol f !! sp ∧
    pend f' = pend f ∧ dur f' !! sp = dur f !! sp ∧
    (default [] (dur f !! wp) = content → default [] (dur f' !! wp) = stamped content) ∧ ents f' = ents f.
Proof.
  intros content. unfold headed, stamped, w0.
  assert (vol (set_vol (<[wp := content]> (vol f)) f) !! sp = vol f !! sp) as Hsp.
  { simpl. by rewrite lookup_insert_ne by apply wp_sp. }
  destruct c as [c'|] eqn:Hc; intros Hh; unfold OpenWALEncrypted, OpenWAL, open_append, bind, ret; rewrite call_good; cbn [on_good].
  2:{ eexists _, _. split_and!; [done| |done..]. simpl. by rewrite lookup_insert_eq. }
  fold content. set (f1 := set_vol _ f). unfold on_error at 1, stat at 1. rewrite call_good. cbn [on_good].
  replace (vol f1 !! wp) with (Some content) by (simpl; by rewrite lookup_insert_eq).
  destruct content as [|b content'] eqn:Hcont.
  - change (zlen (@nil ascii) =? 0) with true. cbv beta iota. unfold on_error, write. rewrite call_good. unfold fsync. rewrite call_good. cbn [on_good].
    eexists _, _. split_and!; [done|..|done| | |done]; simpl.
    + by rewrite !lookup_insert_eq.
    + by rewrite !lookup_insert_ne by apply wp_sp.
    + by rewrite !lookup_insert_ne by apply wp_sp.
    + intros _. by rewrite !lookup_insert_eq.
  - rewrite (proj2 (Z.eqb_neq _ _)) by zlia. cbv beta iota. unfold on_error, read_file. rewrite call_good. cbn [on_good].
    replace (vol f1 !! wp) with (Some (b :: content')) by (simpl; by rewrite lookup_insert_eq).
    destruct Hh as [?|[= ->]]; [done|]. rewrite bool_decide_true by done. cbn [negb].
    eexists _, _. split_and!; [done| |done..]. simpl. by rewrite lookup_insert_eq.
Qed.

Lemma replay_stamped clk content m : replay c clk (stamped content) m = replay c clk content m.
Proof. unfold stamped, replay. by destruct c, content. Qed.

Lemma replay_good clk content m f h :
  vol f !! wp = Some content →
  ∃ h', Replay clk w0 m (mkWorld f [] h) = (Ok ((replay c clk content m).1.1, (replay c clk content m).2), mkWorld f [] h').
Proof.
  intros Hv. unfold Replay, bind, attempt, read_file, w0, replay. cbn [w_path w_cipher].
  rewrite call_good. cbn [on_good]. rewrite Hv. destruct c as [c'|] eqn:Hc; unfold finally.
  - destruct (replayEncrypted c' clk content m) as [[r i] m']. unfold ret, close. rewrite call_good. cbn. eauto.
  - unfold stat. rewrite call_good. cbn [on_good]. rewrite Hv.
    destruct (replayPlain clk content (zlen content) m) as [[r i] m']. unfold ret, close. rewrite call_good. cbn. eauto.
Qed.

(** Opening the directory, when no call fails: the snapshot, then the log. *)
Lemma open_good clk f h d0 :
  let content := default [] (vol f !! wp) in
  headed content → snap_holds (vol f !! sp) d0 →
  (openDiskStore clk dir c (mkWorld f [] h)).1 =
    match replay c clk content (mkMem d0 0) with
    | (Ok _, _, m) => Ok (fresh_store m)
    | (Err e, _, _) => Err e
    end.
Proof.
  intros content Hh Hs. unfold openDiskStore. fold wp sp. unfold bind at 1, mkdir_all. rewrite call_good. cbn [on_good].
  destruct (open_wal_good f (f :: h) Hh) as (f' & h' & Hopen & Hv & Hsp & _). unfold bind at 1. rewrite Hopen.
  fold (fresh_store NewMemStore). unfold bind at 1, on_error at 1. rewrite <- Hsp in Hs.
  rewrite (loadSnapshot_good _ _ _ d0) by done.
  assert (set_data (if vol f' !! sp is Some _ then d0 else data NewMemStore) NewMemStore = mkMem d0 0) as ->.
  { destruct (vol f' !! sp); [done|]. by cbn in Hs; subst. }
  unfold bind at 1. cbn [wal mem fresh_store].
  destruct (replay_good clk (stamped content) (mkMem d0 0) f' (f' :: h') Hv) as [h2 ->].
  rewrite replay_stamped. destruct (replay c clk content (mkMem d0 0)) as [[[u|e] i] m]; [done|].
  cbn [fst snd]. unfold on_error, throw, Wal.Close, close. by rewrite call_good.
Qed.

(** The log ends in a part of a record, after the records [ps]. *)
Definition torn_log (ps : list (bytes * record)) (g : FS) : Prop :=
  ∃ p n, log_ok c p ∧ (0 < n < length (log_enc c p))%nat ∧ vol g !! wp = Some (log_bytes c ps ++ take n (log_enc c p)).

(** The directory with the torn record cut off. *)
Definition cut_log (ps : list (bytes * record)) (g : FS) : FS := at_rest (<[wp := log_bytes c ps]> (vol g)).

(** Opening the directory (before [T], without I/O errors) succeeds and restores
    data satisfying [D]. *)
Definition reopens (g : FS) (D : gmap string entry → Prop) : Prop :=
  ∀ clk h, (∀ j, clk j <= T) → ∃ s', (openDiskStore clk dir c (mkWorld g [] h)).1 = Ok s' ∧ D (data (mem s')).

(** No data is lost: opening succeeds and restores data satisfying [D]; or the log
    ends in a torn record, then opening may be refused, restores such data if it
    is not, and succeeds and restores such data once that record is cut off. *)
Definition recovers (g : FS) (D : gmap string entry → Prop) : Prop :=
  reopens g D ∨
  ∃ ps, torn_log ps g ∧ reopens (cut_log ps g) D ∧
    ∀ clk h s', (∀ j, clk j <= T) → (openDiskStore clk dir c (mkWorld g [] h)).1 = Ok s' → D (data (mem s')).

Lemma reopens_mono g (D E : gmap string entry → Prop) : reopens g D → (∀ d, D d → E d) → reopens g E.
Proof. intros Hg H clk h Hclk. destruct (Hg clk h Hclk) as (s' & ? & ?). exists s'. auto. Qed.

Lemma recovers_mono g (D E : gmap string entry → Prop) : recovers g D → (∀ d, D d → E d) → recovers g E.
Proof.
  intros [Hg|(ps & Ht & Hg & Ho)] H; [left; by eapply reopens_mono|right]. exists ps. split; [done|].
  split; [by eapply reopens_mono|]. intros clk h s' Hclk Hs'. by eapply H, Ho.
Qed.

Lemma headed_log ps x : headed (log_bytes c ps ++ x).
Proof. unfold headed, log_bytes, log_header. destruct c; [|done]. by right. Qed.

(** The ways the log may end: after its last record, or in a part of one. *)
Definition fragment (frag : bytes) : Prop :=
  frag = [] ∨ ∃ p n, log_ok c p ∧ (n < length (log_enc c p))%nat ∧ frag = take n (log_enc c p).

Lemma reopens_log g ps d0 :
  default [] (vol g !! wp) = log_bytes c ps → Forall (log_ok c) ps → snap_holds (vol g !! sp) d0 →
  live_until T (mkMem d0 0) → Forall (deadline_after T) ps.*2 → reopens g (.= redo_data T ps.*2 d0).
Proof.
  intros Hv Hps Hs Hd Hdl clk h Hclk. rewrite <- (app_nil_r (log_bytes c ps)) in Hv.
  rewrite (open_good clk g h d0) by (rewrite ?Hv; done || apply headed_log). rewrite Hv.
  destruct (replay_log clk ps [] (mkMem d0 0) Hps (or_introl eq_refl)) as (r & i & -> & Hr).
  destruct Hr as [->|[? _]]; [|done]. eexists. split; [done|]. cbn [mem fresh_store]. by rewrite (redo_all_data T).
Qed.

Lemma recovers_log g ps frag d0 :
  default [] (vol g !! wp) = log_bytes c ps ++ frag → Forall (log_ok c) ps → fragment frag →
  snap_holds (vol g !! sp) d0 → live_until T (mkMem d0 0) → Forall (deadline_after T) ps.*2 →
  recovers g (.= redo_data T ps.*2 d0).
Proof.
  intros Hv Hps Hfrag Hs Hd Hdl. destruct Hfrag as [->|(p & n & Hp & Hn & ->)].
  { left. rewrite app_nil_r in Hv. by apply reopens_log. }
  destruct (decide (n = 0%nat)) as [->|]; [left; rewrite take_0, app_nil_r in Hv; by apply reopens_log|].
  right. exists ps. split_and!.
  - exists p, n. split_and!; [done|lia|done|]. destruct (vol g !! wp) as [x|]; simpl in *; [by rewrite Hv|].
    apply (f_equal length) in Hv. rewrite length_app, length_take in Hv. simpl in Hv. lia.
  - apply reopens_log; try done; cbn; [by rewrite lookup_insert_eq|]. by rewrite lookup_insert_ne by apply wp_sp.
  - intros clk h s' Hclk. rewrite (open_good clk g h d0) by (rewrite ?Hv; done || apply headed_log). rewrite Hv.
    destruct (replay_log clk ps (take n (log_enc c p)) (mkMem d0 0)) as (r & i & -> & Hr); [done|right; eauto|].
    destruct Hr as [->|(_ & e & ->)]; intros [= <-]. cbn [mem fresh_store]. by rewrite (redo_all_data T).
Qed.

(** A log of which nothing survived. *)
Lemma recovers_empty g d0 :
  default [] (vol g !! wp) = [] → snap_holds (vol g !! sp) d0 → recovers g (.= d0).
Proof.
  intros Hv Hs. left. intros clk h Hclk.
  rewrite (open_good clk g h d0); [|rewrite Hv; unfold headed; destruct c; auto|done].
  rewrite Hv. unfold replay. destruct c; by eexists.
Qed.

(** ** The invariant between memory and disk *)

(** A durable log that a compaction has superseded: executing it again changes
    nothing. *)
Definition stale (d : bytes) (d0 : gmap string entry) : Prop :=
  ∃ old, d = log_bytes c old ∧ Forall (log_ok c) old ∧ Forall (deadline_after T) old.*2 ∧
    redo_data T old.*2 d0 = d0 ∧ Forall overwrites old.*2.
Definition durable (ps : list (bytes * record)) (d : bytes) (d0 : gmap string entry) : Prop :=
  d = log_bytes c ps ∨ (log_bytes c ps = [] ∧ stale d d0).

Lemma prefix_fragment qs x :
  Forall (log_ok c) qs → x `prefix_of` log_body c qs →
  ∃ k frag, x = log_body c (take k qs) ++ frag ∧ fragment frag.
Proof.
  intros Hqs [->|(k & p & n & Hk & Hn & ->)]%prefix_of_concat.
  - exists (length qs), []. rewrite app_nil_r, firstn_all. split; [done|by left].
  - exists k, (take n (log_enc c p)). split; [done|]. right. exists p, n. split_and!; [|done..].
    by eapply (Forall_lookup_1 (log_ok c)).
Qed.

(** A crash while records are appended keeps the ones before, and some of the
    new ones. *)
Lemma crash_appending ps d sn d0 rs f g :
  appending (log_bytes c ps) d sn rs f → crash f g → durable ps d d0 → snap_holds sn d0 →
  Forall (log_ok c) ps → live_until T (mkMem d0 0) → Forall (deadline_after T) (ps.*2 ++ rs) →
  recovers g (λ D, ∃ k, D = redo_data T (ps.*2 ++ take k rs) d0).
Proof.
  intros (qs & x & Hqs & <- & Hx & Hf) Hc Hdur Hs Hps Hd Hdl.
  destruct (crash_fstate _ _ _ _ _ Hf Hc) as (Hlog & Hsn & _).
  apply Forall_app in Hdl as [Hdl1 Hdl2].
  assert (∀ y, y `prefix_of` x → default [] (vol g !! wp) = log_bytes c ps ++ y →
    recovers g (λ D, ∃ k, D = redo_data T (ps.*2 ++ take k qs.*2) d0)) as Hgood.
  { intros y Hy Hv. destruct (prefix_fragment qs y Hqs) as (k & frag & -> & Hfrag); [by trans x|].
    eapply recovers_mono; [apply (recovers_log g (ps ++ take k qs) frag d0)|]; try done.
    - rewrite Hv. unfold log_bytes. by rewrite log_body_app, !app_assoc.
    - apply Forall_app. split; [done|by apply Forall_take].
    - by rewrite Hsn.
    - rewrite fmap_app. apply Forall_app. split; [done|]. rewrite fmap_take. by apply Forall_take.
    - intros D ->. exists k. by rewrite fmap_app, fmap_take. }
  unfold crash_log in Hlog. destruct Hdur as [->|[Hnil (old & -> & Hold & Hodl & Hidem & _)]].
  - rewrite decide_True in Hlog by by exists x. destruct Hlog as [[y Hy] Hxv].
    apply (Hgood y); [|done]. rewrite Hy in Hxv. by apply prefix_app_inv in Hxv.
  - assert (default [] (vol g !! wp) = log_bytes c old ∨ default [] (vol g !! wp) `prefix_of` x) as [Hv|Hv].
    { rewrite Hnil in Hlog. cbn [app] in Hlog. case_decide; tauto. }
    + eapply recovers_mono; [apply (recovers_log g old [] d0)|]; rewrite ?app_nil_r, ?Hsn; try done; [by left|].
      intros D ->. exists 0%nat. rewrite Hidem, take_0, app_nil_r.
      assert (ps = []) as ->; [|done]. destruct ps as [|p ps']; [done|].
      exfalso. apply (f_equal length) in Hnil. unfold log_bytes, log_body in Hnil.
      rewrite length_app in Hnil. cbn [fmap list_fmap concat] in Hnil. rewrite length_app in Hnil.
      assert (0 < length (log_enc c p))%nat; [|simpl in *; lia]. unfold log_enc, blob. destruct c; [|simpl; lia].
      rewrite length_app, length_be_encode. lia.
    + apply (Hgood _ Hv). by rewrite Hnil.
Qed.

(** The store [s] and the files: the snapshot and the log yield the memory.
    [ow] asks that the log holds overwriting records only. *)
Record Inv (ow : bool) (s : DiskStore) (d0 : gmap string entry) (ps : list (bytes * record))
    (d : bytes) (sn : option bytes) (f : FS) : Prop := {
  inv_files : fstate (log_bytes c ps) d sn f;
  inv_durable : durable ps d d0;
  inv_snap : snap_holds sn d0;
  inv_log : Forall (log_ok c) ps;
  inv_deadlines : Forall (deadline_after T) ps.*2;
  inv_live : live_until T (mkMem d0 0);
  inv_mem : data (mem s) = redo_data T ps.*2 d0;
  inv_store : wal s = w0 ∧ cipher s = c ∧ snapshotPath s = sp ∧ walPath s = wp;
  inv_ow : ow = true → Forall overwrites ps.*2
}.
Definition consistent (ow : bool) (s : DiskStore) (f : FS) : Prop := ∃ d0 ps d sn, Inv ow s d0 ps d sn f.

(** The deadlines in memory are [int64]. *)
Lemma redo_one_int64 r d : record_ok r → exps_int64 d → exps_int64 (redo_one T d r).
Proof.
  intros Hr Hd. unfold redo_one.
  assert (∀ k, exps_int64 (data (lookup_live T k (mkMem d 0)).2)) as Hl.
  { intros k. unfold lookup_live. cbn [data]. destruct (d !! k) as [e|]; [|done].
    destruct (entryExpired e T); [|done]. by apply map_Forall_delete. }
  assert (∀ k v d, exps_int64 d → exps_int64 (<[k := mkEntry v 0]> d)) as Hi by (intros; by apply map_Forall_insert_2).
  destruct r as [k v|k| |k|k old new|k x]; cbn [redo]; [by apply Hi|by apply map_Forall_delete|done|..];
    unfold Incr, CAS, Expire; specialize (Hl k); destruct (lookup_live T k (mkMem d 0)) as [[e|] m]; cbn [snd] in Hl; try done.
  - destruct (ParseInt (Value e)) as [n|]; [|done]. destruct (n =? maxInt64); [done|]. by apply Hi.
  - by apply Hi.
  - destruct (negb _); [done|]. by apply Hi.
  - apply map_Forall_insert_2; [apply Hr|done].
Qed.

Lemma consistent_int64 ow s f : consistent ow s f → exps_int64 (data (mem s)).
Proof.
  intros (d0 & ps & d & sn & [_ _ Hs Hps _ _ -> _ _]).
  assert (exps_int64 d0) as Hd0.
  { unfold snap_holds in Hs. destruct sn as [b|]; [|by subst]. destruct c.
    - destruct Hs as (_ & plain & _ & ?). by eapply decodeSnapshot_int64.
    - by eapply decodeSnapshot_int64, Hs. }
  assert (Forall record_ok ps.*2) as Hrs.
  { apply Forall_fmap. eapply Forall_impl; [exact Hps|]. intros p. unfold log_ok, blob_ok. destruct c; tauto. }
  clear Hs. revert d0 Hd0. induction Hrs as [|r rs Hr _ IH]; intros d0 Hd0; [done|]. by apply IH, redo_one_int64.
Qed.

(** A crash now keeps the data of [s] and a part of the records [rs]. *)
Definition crash_keeps (s : DiskStore) (rs : list record) (f : FS) : Prop :=
  ∀ g, crash f g → recovers g (λ D, ∃ k, D = redo_data T (take k rs) (data (mem s))).

Lemma redo_data_app rs1 rs2 d : redo_data T (rs1 ++ rs2) d = redo_data T rs2 (redo_data T rs1 d).
Proof. apply foldl_app. Qed.

Lemma Inv_live ow s d0 ps d sn f : Inv ow s d0 ps d sn f → live_until T (mem s).
Proof.
  intros H. pose proof (redo_data_live T ps.*2 d0 (inv_live _ _ _ _ _ _ _ H) (inv_deadlines _ _ _ _ _ _ _ H)) as Hl.
  rewrite <- (inv_mem _ _ _ _ _ _ _ H) in Hl. exact Hl.
Qed.

Definition store_files (s : DiskStore) : Prop :=
  wal s = w0 ∧ cipher s = c ∧ snapshotPath s = sp ∧ walPath s = wp.

(** The records [rs] are durable, the memory is still that of [s]. *)
Definition ready (ow : bool) (s : DiskStore) (rs : list record) (f : FS) : Prop :=
  ∀ s', data (mem s') = redo_data T rs (data (mem s)) → store_files s' → consistent ow s' f.

(** Logging records that fit: whatever happens in between, a crash keeps a part
    of them; afterwards the store with the records executed is consistent. *)
Lemma log_good ow s d0 ps d sn rs (m : IO unit) :
  (∃ f, Inv ow s d0 ps d sn f) → Forall (deadline_after T) rs → (ow = true → Forall overwrites rs) →
  gtriple (fstate (log_bytes c ps) d sn) m (λ _, appended (log_bytes c ps) d sn rs) (appending (log_bytes c ps) d sn rs) →
  gtriple (fstate (log_bytes c ps) d sn) (m ;;; Sync (wal s))
    (λ _, ready ow s rs) (crash_keeps s rs).
Proof.
  intros [f0 Hinv] Hdl How Hm. destruct Hinv as [_ Hdur Hsn Hlog Hd Hl Hmem (-> & _) Hows].
  assert (∀ k, redo_data T (ps.*2 ++ take k rs) d0 = redo_data T (take k rs) (data (mem s))) as Hk.
  { intros k. by rewrite redo_data_app, Hmem. }
  assert (Forall (deadline_after T) (ps.*2 ++ rs)) as Hall by by apply Forall_app.
  eapply g_mono; [eapply g_conseq; [done|by apply (log_sync_good (log_bytes c ps) d sn rs)|]|].
  - intros [] f (qs & Hqs & <- & Hf) s' Hs' Hst. exists d0, (ps ++ qs), (log_bytes c (ps ++ qs)), sn.
    assert (log_bytes c ps ++ log_body c qs = log_bytes c (ps ++ qs)) as Heq.
    { unfold log_bytes. by rewrite log_body_app, app_assoc. }
    rewrite Heq in Hf. split; try done.
    + by left.
    + by apply Forall_app.
    + by rewrite fmap_app.
    + by rewrite Hs', fmap_app, redo_data_app, Hmem.
    + intros ->. rewrite fmap_app. apply Forall_app. auto.
  - intros f [Hf|(qs & Hqs & <- & Hf)] g Hg.
    + eapply recovers_mono; [by eapply (crash_appending ps d sn d0 rs)|]. intros D [k ->]. by exists k.
    + eapply recovers_mono; [eapply (crash_appending (ps ++ qs) (log_bytes c (ps ++ qs)) sn d0 [])|]; try done.
      * exists [], []. split_and!; [done..|]. unfold log_bytes in *. by rewrite log_body_app, app_nil_r, app_assoc.
      * by left.
      * by apply Forall_app.
      * by rewrite fmap_app, app_nil_r.
      * intros D [k ->]. exists (length qs.*2). by rewrite take_nil, app_nil_r, fmap_app, <- Hk, firstn_all.
Qed.

Lemma log_attempt_good ow s rs (m : IO unit) :
  Forall (deadline_after T) rs → (ow = true → Forall overwrites rs) →
  (∀ v d sn, gtriple (fstate v d sn) m (λ _, appended v d sn rs) (appending v d sn rs)) →
  gtriple (consistent ow s) (attempt (m ;;; Sync (wal s))) (λ r f, r = Ok () ∧ ready ow s rs f) (crash_keeps s rs).
Proof.
  intros Hdl How Hm. apply g_exist. intros d0. apply g_exist. intros ps. apply g_exist. intros d. apply g_exist. intros sn.
  apply g_pre with (φ := ∃ f, Inv ow s d0 ps d sn f); [eauto|]. intros Hinv.
  apply g_attempt. eapply (g_conseq _ _ (fstate (log_bytes c ps) d sn)); [by intros f []|by eapply log_good|].
  by intros [] f Hf.
Qed.

(** ** The handlers *)

(** The result of a request executed alone on the data [d]. *)
Definition seq_result (d : gmap string entry) (req : batchRequest) : res result :=
  let m := mkMem d 0 in
  if req_op req =? opIncr then
    match (Incr T (req_key req) m).1 with Ok n => Ok (RInt n) | Err e => Err e end
  else if req_op req =? opCAS then
    match (CAS T (req_key req) (req_old req) (req_value req) m).1 with Ok b => Ok (RBool b) | Err e => Err e end
  else if req_op req =? opExpire then
    match (Expire T (req_key req) (req_expiresAt req) m).1 with Ok _ => Ok RNil | Err e => Err e end
  else Ok RNil.

(** Requests executed one after the other: their results. *)
Fixpoint seq_replies (d : gmap string entry) (reqs : list batchRequest) : list reply :=
  match reqs with
  | [] => []
  | req :: reqs => (req, seq_result d req) :: seq_replies (redo_one T d (req_record req)) reqs
  end.

Definition same_but_mem (s s' : DiskStore) : Prop := s' = set_mem (mem s') s.

(** [s'] is [s] after the requests [reqs] were executed, and [acks] their replies. *)
Definition executed (ow : bool) (s : DiskStore) (reqs : list batchRequest) (s' : DiskStore) (acks : list reply) (f : FS) : Prop :=
  consistent ow s' f ∧ acks = seq_replies (data (mem s)) reqs ∧
  data (mem s') = redo_data T (req_record <$> reqs) (data (mem s)).

Lemma batched_result d req : batched req → seq_result d req = Ok RNil.
Proof.
  unfold batched, seq_result, opIncr, opCAS, opExpire. intros H.
  rewrite !(proj2 (Z.eqb_neq _ _)) by lia. done.
Qed.

Lemma batched_overwrites req : opPut <= req_op req → batched req → overwrites (req_record req).
Proof.
  unfold batched, req_record, opIncr, opPut, opDelete, opClear. intros H1 H2.
  destruct (req_op req =? 1) eqn:E1; [done|]. destruct (req_op req =? 2) eqn:E2; [done|].
  destruct (req_op req =? 3) eqn:E3; [done|]. bool_prop. lia.
Qed.

Lemma batched_replies d b : Forall batched b → seq_replies d b = (λ req, (req, Ok RNil)) <$> b.
Proof.
  intros Hb. revert d. induction Hb as [|req b Hr _ IH]; intros d; [done|]. cbn [seq_replies fmap list_fmap].
  by rewrite batched_result, IH.
Qed.

Lemma apply_batch_data b m :
  Forall req_ok b → Forall batched b → data (foldl apply_request m b) = redo_data T (req_record <$> b) (data m).
Proof.
  intros Hok Hb. revert m. induction b as [|req b IH]; intros m; [done|].
  apply Forall_cons in Hok as [Hreq Hok], Hb as [Hbr Hb]. cbn [foldl fmap list_fmap redo_data]. rewrite IH by done.
  unfold redo_data. cbn [foldl]. f_equal. destruct Hreq as [Hop _].
  unfold batched, apply_request, req_record, redo_one, opIncr, opPut, opDelete, opClear in *.
  destruct (req_op req =? 1) eqn:E1; [done|]. destruct (req_op req =? 2) eqn:E2; [done|].
  destruct (req_op req =? 3) eqn:E3; [done|]. bool_prop. lia.
Qed.

Lemma writeBatch_good ow s b :
  Forall req_ok b → Forall batched b →
  gtriple (consistent ow s) (writeBatch rnd s b)
    (λ p f, executed ow s b p.1 p.2 f ∧ same_but_mem s p.1) (crash_keeps s (req_record <$> b)).
Proof.
  intros Hok Hb. unfold writeBatch. destruct b as [|req b'] eqn:Hbeq.
  { apply g_ret. intros f Hf. split; [done|]. by destruct s. }
  rewrite <- Hbeq in *. clear Hbeq.
  apply g_pre with (φ := store_files s); [intros f (? & ? & ? & ? & []); done|]. intros Hst.
  assert (Forall (deadline_after T) (req_record <$> b)) as Hdl.
  { apply Forall_fmap. eapply Forall_impl; [exact Hok|]. intros r Hr. apply Hr. }
  assert (Forall overwrites (req_record <$> b)) as How.
  { apply Forall_fmap. apply Forall_forall. intros r Hr. rewrite Forall_forall in Hok, Hb.
    apply batched_overwrites; [apply Hok|apply Hb]; done. }
  eapply g_bind.
  - apply (log_attempt_good ow s (req_record <$> b)); [done..|]. intros v d sn.
    destruct Hst as [-> _]. by apply append_batch_good.
  - intros r. apply g_pure. intros ->. apply g_ret. intros f Hf. split; [split_and!|done]; cbn [fst snd].
    + apply Hf; [|done]. by apply apply_batch_data.
    + by rewrite batched_replies.
    + by apply apply_batch_data.
Qed.

(** Reading while no deadline has passed. *)
Lemma Get_before t1 t2 k m : live_until T m → t1 <= T →
  Get t1 t2 k m = (from_option (λ e, Ok (Value e)) (Err ErrNotFound) (data m !! k), m).
Proof.
  intros Hm Ht. unfold Get. destruct (data m !! k) as [e|] eqn:E; [|done].
  by rewrite (entryExpired_before e t1 T) by eauto.
Qed.

Lemma Incr_before t k m : live_until T m → t <= T → (Incr t k m).1 = (Incr T k (mkMem (data m) 0)).1.
Proof.
  intros Hm Ht. unfold Incr. rewrite (lookup_live_before T t), (lookup_live_before T T) by done. cbn [data].
  destruct (data m !! k) as [e|]; [|done]. destruct (ParseInt (Value e)); [|done]. by destruct (_ =? _).
Qed.

Lemma Expire_before t k d m : live_until T m → t <= T → (Expire t k d m).1 = (Expire T k d (mkMem (data m) 0)).1.
Proof.
  intros Hm Ht. unfold Expire. rewrite (lookup_live_before T t), (lookup_live_before T T) by done. cbn [data].
  by destruct (data m !! k).
Qed.

Lemma CAS_found k old new d e : live_until T (mkMem d 0) → d !! k = Some e →
  CAS T k old new (mkMem d 0) =
    if negb (String.eqb (Value e) old) then (Ok false, mkMem d 0) else (Ok true, mkMem (<[k := mkEntry new 0]> d) 0).
Proof. intros Hd He. unfold CAS. rewrite (lookup_live_before T T) by done. cbn [data]. by rewrite He. Qed.

(** A request that is answered without logging anything. *)
Lemma executed_nothing ow s req r f :
  consistent ow s f → seq_result (data (mem s)) req = r → redo_one T (data (mem s)) (req_record req) = data (mem s) →
  executed ow s [req] s [(req, r)] f ∧ same_but_mem s s.
Proof.
  intros Hf <- Hd. split; [split_and!|by destruct s]; [done..|]. unfold redo_data. cbn [fmap list_fmap foldl]. by rewrite Hd.
Qed.

(** A request that was logged: the memory then takes the effect of its record. *)
Lemma executed_logged ow s req m r f :
  store_files s → ready ow s [req_record req] f → seq_result (data (mem s)) req = r →
  data m = redo_one T (data (mem s)) (req_record req) →
  executed ow s [req] (set_mem m s) [(req, r)] f ∧ same_but_mem s (set_mem m s).
Proof. intros Hst Hf <- Hd. split; [split_and!|done]; [by apply Hf|done..]. Qed.

Section single.
Context (s : DiskStore) (req : batchRequest) (t1 t2 t3 : Z).
Context (Hfit : log_fits (req_record req)) (Hdl : deadline_after T (req_record req)).
Context (H1 : t1 <= T) (H3 : t3 <= T) (Hst : store_files s) (Hlive : live_until T (mem s)).

Let post (p : DiskStore * reply) (f : FS) : Prop := executed false s [req] p.1 [p.2] f ∧ same_but_mem s p.1.

Lemma log_request r : req_record req = r →
  gtriple (consistent false s) (attempt (append rnd (wal s) (encode r) ;;; Sync (wal s)))
    (λ r f, r = Ok () ∧ ready false s [req_record req] f) (crash_keeps s [req_record req]).
Proof.
  intros <-. apply log_attempt_good; [by constructor|done|]. intros v d sn.
  destruct Hst as [-> _]. by apply append_good.
Qed.

Lemma set_mem_same : set_mem (mem s) s = s.
Proof. by destruct s. Qed.

Lemma live_data : live_until T (mkMem (data (mem s)) 0).
Proof. exact Hlive. Qed.

Lemma writeSingle_incr : req_op req = opIncr →
  gtriple (consistent false s) (writeSingle rnd t1 t2 t3 s req) post (crash_keeps s [req_record req]).
Proof.
  intros Hc. assert (req_record req = RIncr (req_key req)) as Hrec by (unfold req_record; by rewrite Hc).
  unfold writeSingle. rewrite Hc. cbn [Z.eqb Pos.eqb opIncr].
  eapply g_bind; [exact (log_request _ Hrec)|]. intros r. apply g_pure. intros ->.
  pose proof (Incr_before t1 (req_key req) (mem s) Hlive H1) as Hres.
  pose proof (redo_set_data T t1 (RIncr (req_key req)) (mem s) Hlive H1) as Hdata. cbn [redo] in Hdata.
  destruct (Incr t1 (req_key req) (mem s)) as [v m]. cbn [fst snd] in *. subst m.
  apply g_ret. intros f Hf. apply executed_logged; [done..| |by rewrite Hrec].
  unfold seq_result. rewrite Hc. cbn [Z.eqb Pos.eqb opIncr]. by rewrite <- Hres.
Qed.

Lemma writeSingle_cas : req_op req = opCAS →
  gtriple (consistent false s) (writeSingle rnd t1 t2 t3 s req) post (crash_keeps s [req_record req]).
Proof.
  intros Hc. assert (req_record req = RCAS (req_key req) (req_old req) (req_value req)) as Hrec by (unfold req_record; by rewrite Hc).
  assert (∀ r d, CAS T (req_key req) (req_old req) (req_value req) (mkMem (data (mem s)) 0) = (r, mkMem d 0) →
    seq_result (data (mem s)) req = match r with Ok b => Ok (RBool b) | Err e => Err e end ∧
    redo_one T (data (mem s)) (req_record req) = d) as Hspec.
  { intros r d Hcas. unfold seq_result, redo_one. rewrite Hc, Hrec. cbn [Z.eqb Pos.eqb opIncr opCAS redo]. by rewrite Hcas. }
  unfold writeSingle. rewrite Hc. cbn [Z.eqb Pos.eqb opIncr opCAS]. rewrite Get_before, set_mem_same by done.
  destruct (data (mem s) !! req_key req) as [e|] eqn:He; cbn [from_option].
  - pose proof (CAS_found _ (req_old req) (req_value req) _ _ live_data He) as Hcas.
    destruct (negb (String.eqb (Value e) (req_old req))); apply Hspec in Hcas as [Hres Hdata].
    + apply g_ret. intros f Hf. by apply executed_nothing.
    + eapply g_bind; [exact (log_request _ Hrec)|]. intros r. apply g_pure. intros ->. apply g_ret. intros f Hf.
      by apply executed_logged.
  - assert (CAS T (req_key req) (req_old req) (req_value req) (mkMem (data (mem s)) 0) = (Err ErrNotFound, mkMem (data (mem s)) 0)) as Hcas.
    { unfold CAS. rewrite (lookup_live_before T T) by (done || apply live_data). cbn [data]. by rewrite He. }
    apply Hspec in Hcas as [Hres Hdata]. apply g_ret. intros f Hf. by apply executed_nothing.
Qed.

Lemma writeSingle_expire : req_op req = opExpire →
  gtriple (consistent false s) (writeSingle rnd t1 t2 t3 s req) post (crash_keeps s [req_record req]).
Proof.
  intros Hc. assert (req_record req = RExpire (req_key req) (req_expiresAt req)) as Hrec by (unfold req_record; by rewrite Hc).
  assert (seq_result (data (mem s)) req = match (Expire T (req_key req) (req_expiresAt req) (mkMem (data (mem s)) 0)).1 with
    Ok _ => Ok RNil | Err e => Err e end) as Hres by (unfold seq_result; by rewrite Hc).
  unfold writeSingle. rewrite Hc. cbn [Z.eqb Pos.eqb opIncr opCAS opExpire]. rewrite Get_before, set_mem_same by done.
  destruct (data (mem s) !! req_key req) as [e|] eqn:He; cbn [from_option].
  - eapply g_bind; [exact (log_request _ Hrec)|]. intros r. apply g_pure. intros ->.
    pose proof (Expire_before t3 (req_key req) (req_expiresAt req) (mem s) Hlive H3) as Hr.
    pose proof (redo_set_data T t3 (RExpire (req_key req) (req_expiresAt req)) (mem s) Hlive H3) as Hdata. cbn [redo] in Hdata.
    destruct (Expire t3 _ _ (mem s)) as [v m]. cbn [fst snd] in *. subst m.
    apply g_ret. intros f Hf. apply (executed_logged false s req _ _ f Hst Hf); [by rewrite Hres, <- Hr; destruct v|by rewrite Hrec].
  - assert (Expire T (req_key req) (req_expiresAt req) (mkMem (data (mem s)) 0) = (Err ErrNotFound, mkMem (data (mem s)) 0)) as Hx.
    { unfold Expire. rewrite (lookup_live_before T T) by (done || apply live_data). cbn [data]. by rewrite He. }
    apply g_ret. intros f Hf. apply (executed_nothing false s req (Err ErrNotFound) f Hf); [by rewrite Hres, Hx|].
    rewrite Hrec. unfold redo_one. cbn [redo]. by rewrite Hx.
Qed.
End single.

Lemma writeSingle_good s req t1 t2 t3 :
  req_ok req → ¬ batched req → t1 <= T → t3 <= T →
  gtriple (consistent false s) (writeSingle rnd t1 t2 t3 s req)
    (λ p f, executed false s [req] p.1 [p.2] f ∧ same_but_mem s p.1) (crash_keeps s [req_record req]).
Proof.
  intros (Hop & Hfit & Hdl) Hb H1 H3. unfold batched in Hb.
  apply g_pre with (φ := store_files s ∧ live_until T (mem s)).
  { intros f (d0 & ps & d & sn & Hinv). split; [by destruct Hinv|by eapply Inv_live]. }
  intros [Hst Hlive].
  assert (req_op req = opIncr ∨ req_op req = opCAS ∨ req_op req = opExpire) as [Hc|[Hc|Hc]].
  { unfold opIncr, opCAS, opExpire, opPut in *. lia. }
  - by apply writeSingle_incr.
  - by apply writeSingle_cas.
  - by apply writeSingle_expire.
Qed.

(** ** Compaction *)

Lemma log_bytes_nil ps : log_bytes c ps = [] → ps = [].
Proof.
  destruct ps as [|p ps]; [done|]. intros Hnil. exfalso. apply (f_equal length) in Hnil.
  unfold log_bytes, log_body in Hnil. rewrite length_app in Hnil. cbn [fmap list_fmap concat] in Hnil.
  rewrite length_app in Hnil. assert (0 < length (log_enc c p))%nat; [|simpl in *; lia].
  unfold log_enc, blob. destruct c; [|simpl; lia]. rewrite length_app, length_be_encode. lia.
Qed.

(** The files around the replacement of the snapshot. *)
Lemma fstate_replaced v d sn f0 f nb :
  fstate v d sn f0 → frame sp f0 f → replaced sp nb f → fstate v d (Some nb) f.
Proof.
  intros Hf0 Hfr (Hv & Hd & Hp & He). destruct (Hfr wp wp_sp wp_tmp (fstate_renamed _ _ _ _ _ Hf0)) as (H1 & H2 & H3).
  destruct Hf0. split; [done|congruence|congruence|done|done|auto|done].
Qed.

Lemma crash_log_during v d sn f0 nb f g :
  fstate v d sn f0 → crash_inv sp nb f0 f → crash f g → crash_log v d (default [] (vol g !! wp)).
Proof.
  intros Hf0 [Ho Hfr] Hg. destruct (Hfr wp wp_sp wp_tmp (fstate_renamed _ _ _ _ _ Hf0)) as (H1 & H2 & H3).
  destruct Hf0 as [Hp Hv Hd _ _ He _]. apply (crash_wp v d f g); [|congruence|congruence|auto|done].
  unfold renamed. destruct Ho as [[[= _ _ ->] _]|[(_ & _ & -> & _)|(_ & _ & -> & _)]].
  - rewrite Hp. simpl. set_solver.
  - rewrite Hp. simpl. rewrite !list_elem_of_singleton. intros [?|?]; [by apply wp_tmp|by apply wp_sp].
  - simpl. set_solver.
Qed.

(** What a crash leaves of a log at rest, with the snapshot it is found with. *)
Lemma recovers_rest g ps d d0 :
  crash_log (log_bytes c ps) d (default [] (vol g !! wp)) → durable ps d d0 → snap_holds (vol g !! sp) d0 →
  Forall (log_ok c) ps → live_until T (mkMem d0 0) → Forall (deadline_after T) ps.*2 →
  recovers g (.= redo_data T ps.*2 d0).
Proof.
  intros Hlog Hdur Hs Hps Hd Hdl. destruct Hdur as [->|[Hnil (old & -> & Hold & Hodl & Hidem & _)]].
  - unfold crash_log in Hlog. rewrite decide_True in Hlog by done. destruct Hlog as [H1 H2].
    apply (recovers_log g ps []); rewrite ?app_nil_r; try done; [by apply (anti_symm prefix)|by left].
  - pose proof (log_bytes_nil _ Hnil) as ->. rewrite Hnil in Hlog. unfold crash_log in Hlog.
    assert (default [] (vol g !! wp) = log_bytes c old ∨ default [] (vol g !! wp) = []) as [Hv|Hv].
    { case_decide; [right; apply prefix_nil_inv; tauto|]. destruct Hlog; [by left|right; by apply prefix_nil_inv]. }
    + rewrite <- Hidem. apply (recovers_log g old []); rewrite ?app_nil_r; try done. by left.
    + by apply recovers_empty.
Qed.

(** A crash between two events loses nothing. *)
Lemma consistent_keeps ow s f : consistent ow s f → crash_keeps s [] f.
Proof.
  intros (d0 & ps & d & sn & Hinv) g Hg. destruct Hinv as [Hf Hdur Hs Hps Hdl Hl Hmem _ _].
  destruct (crash_fstate _ _ _ _ _ Hf Hg) as (Hlog & Hsn & _). rewrite <- Hsn in Hs.
  eapply recovers_mono; [by apply (recovers_rest g ps d d0)|]. intros D ->. exists 0%nat. by rewrite Hmem.
Qed.

(** *** Reopening

    After a crash between two events the directory opens, and the store that
    is opened is in the same relation to its files. *)

Lemma open_run clk f h d0 m i :
  let content := default [] (vol f !! wp) in
  headed content → snap_holds (vol f !! sp) d0 → replay c clk content (mkMem d0 0) = (Ok (), i, m) →
  f = at_rest (vol f) → is_Some (vol f !! wp) →
  ∃ f' h', openDiskStore clk dir c (mkWorld f [] h) = (Ok (fresh_store m), mkWorld f' [] h') ∧
    fstate (stamped content) (stamped content) (vol f !! sp) f'.
Proof.
  intros content Hh Hs Hr Hf Hw. unfold openDiskStore. fold wp sp. unfold bind at 1, mkdir_all. rewrite call_good. cbn [on_good].
  destruct (open_wal_good f (f :: h) Hh) as (f' & h' & Hopen & Hv & Hsp & Hp' & Hds & Hdw & He). unfold bind at 1. rewrite Hopen.
  fold (fresh_store NewMemStore). unfold bind at 1, on_error at 1. rewrite <- Hsp in Hs.
  rewrite (loadSnapshot_good _ _ _ d0) by done.
  assert (set_data (if vol f' !! sp is Some _ then d0 else data NewMemStore) NewMemStore = mkMem d0 0) as ->.
  { destruct (vol f' !! sp); [done|]. by cbn in Hs; subst. }
  unfold bind at 1. cbn [wal mem fresh_store].
  destruct (replay_good clk (stamped content) (mkMem d0 0) f' (f' :: h') Hv) as [h2 ->].
  rewrite replay_stamped, Hr. eexists f', h2. split; [done|].
  assert (dur f = vol f ∧ pend f = [] ∧ ents f = dom (vol f)) as (Hd & Hp & Hen) by (by rewrite Hf).
  split; [by rewrite Hp'|done|apply Hdw; by rewrite Hd|done|by rewrite Hds, Hd|..]; rewrite He, Hen.
  - by apply elem_of_dom.
  - by apply elem_of_dom.
Qed.

Lemma headed_stamped content ps : content = log_bytes c ps ∨ content = [] ∧ ps = [] → headed content ∧ stamped content = log_bytes c ps.
Proof.
  unfold headed, stamped, log_bytes, log_header. intros [->|[-> ->]]; destruct c as [c'|]; cbn; (split; [|done || by destruct (log_body None ps)]).
  - by right.
  - done.
  - by left.
  - done.
Qed.

Lemma reopen_consistent ow s f g clk h :
  consistent ow s f → crash f g → (∀ j, clk j <= T) →
  ∃ s' w', openDiskStore clk dir c (mkWorld g [] h) = (Ok s', w') ∧ script w' = [] ∧ consistent ow s' (fs w') ∧
    data (mem s') = data (mem s) ∧ batch s' = [] ∧ batchChan s' = [] ∧ closed s' = false ∧ timer s' = false.
Proof.
  intros (d0 & ps & d & sn & Hinv) Hg Hclk. destruct Hinv as [Hf Hdur Hs Hps Hdl Hl Hmem _ Hov].
  destruct (crash_fstate _ _ _ _ _ Hf Hg) as (Hlog & Hsn & Hpg & Hwg).
  assert (∃ qs, Forall (log_ok c) qs ∧ Forall (deadline_after T) qs.*2 ∧ (ow = true → Forall overwrites qs.*2) ∧
    redo_data T qs.*2 d0 = data (mem s) ∧
    (default [] (vol g !! wp) = log_bytes c qs ∨ default [] (vol g !! wp) = [] ∧ qs = [])) as (qs & Q1 & Q2 & Q3 & Q4 & Q5).
  { unfold crash_log in Hlog. destruct Hdur as [->|[Hnil (old & -> & Hold & Hodl & Hidem & Hoo)]].
    - rewrite decide_True in Hlog by done. destruct Hlog. exists ps. split_and!; try done. left. by apply (anti_symm prefix).
    - pose proof (log_bytes_nil _ Hnil) as ->. rewrite Hnil in Hlog. cbn in Hmem.
      assert (default [] (vol g !! wp) = log_bytes c old ∨ default [] (vol g !! wp) = []) as [Hv|Hv].
      { case_decide; [right; apply prefix_nil_inv; tauto|]. destruct Hlog; [by left|right; by apply prefix_nil_inv]. }
      + exists old. split_and!; try done; [by rewrite Hmem|by left].
      + exists []. split_and!; try done. by right. }
  destruct (headed_stamped _ qs Q5) as [Hh Hst].
  assert (∃ i, replay c clk (default [] (vol g !! wp)) (mkMem d0 0) = (Ok (), i, redo_all clk 0 qs.*2 (mkMem d0 0))) as [i Hr].
  { destruct Q5 as [->|[-> ->]].
    - destruct (replay_log clk qs [] (mkMem d0 0) Q1 (or_introl eq_refl)) as (r & i & Hr & Ho). rewrite app_nil_r in Hr.
      exists i. rewrite Hr. by destruct Ho as [->|[? _]].
    - unfold replay. destruct c; by eexists. }
  rewrite <- Hsn in Hs. destruct (open_run clk g h d0 _ i Hh Hs Hr Hpg Hwg) as (f' & h' & Ho & Hf'). rewrite Hst in Hf'.
  eexists _, _. split; [exact Ho|]. cbn [mem fresh_store batch batchChan closed timer].
  assert (Hd : data (redo_all clk 0 qs.*2 (mkMem d0 0)) = data (mem s)) by by rewrite (redo_all_data T).
  split_and!; try done. exists d0, qs, (log_bytes c qs), (vol g !! sp). split; try done; [by left|].
  cbn [mem fresh_store]. by rewrite Hd.
Qed.

(** The store in memory, as the snapshot writes it. *)
Lemma save_holds nonce d : exps_int64 d → length nonce = atRestNonceSize →
  let json := marshal_snapshot (mkSnap snapshotVersion (Some d)) in
  snap_holds (Some (match c with
                    | None => json
                    | Some c => snapshotMagic ++ nonce ++ Seal (aead c) nonce json
                    end)) (snapshot_data d).
Proof.
  intros Hok Hn json. pose proof (snapshot_decodes d Hok) as Hdec. unfold snap_holds. destruct c as [c'|].
  - rewrite take_app_length, drop_app_length. split; [done|]. exists json. split; [|done].
    by destruct (Decrypt_Encrypt c' (Some nonce) json (nonce ++ Seal (aead c') nonce json)) as [-> _].
  - split; [|done]. unfold json, marshal_snapshot. rewrite print_obj. done.
Qed.

(** Writing the snapshot, whatever the log holds: the crash points are those of
    the replacement of the file. *)
Lemma saveSnapshot_run s v d sn :
  store_files s → exps_int64 (data (mem s)) → let D := snapshot_data (data (mem s)) in
  gtriple (fstate v d sn) (saveSnapshot rnd s)
    (λ _ f, ∃ nb, snap_holds (Some nb) D ∧ fstate v d (Some nb) f)
    (λ f, ∃ f0 nb, snap_holds (Some nb) D ∧ fstate v d sn f0 ∧ crash_inv sp nb f0 f).
Proof.
  intros (_ & Hci & Hsp' & _) Hexp D. pose proof (λ nonce, save_holds nonce (data (mem s)) Hexp) as Hh. cbn zeta in Hh.
  eapply (g_bind _ _ (λ nb f, snap_holds (Some nb) D ∧ fstate v d sn f)).
  2:{ intros nb. apply g_pure. intros Hnb. rewrite Hsp'. apply g_fix. intros f0 Hf0.
      eapply g_mono; [eapply g_conseq; [intros f Hf; exact Hf|apply atomicWriteFile_good|]|eauto].
      intros [] f [Hrep Hfr]. exists nb. split; [done|]. by apply (fstate_replaced _ _ sn f0 f). }
  rewrite Hci. clear Hci Hsp'. destruct c as [c'|] eqn:Hc.
  - eapply g_bind; [apply rand_good|]. intros n.
    apply g_pre with (φ := ∃ nonce, n = Some nonce ∧ length nonce = atRestNonceSize); [tauto|]. intros (nonce & -> & Hn).
    eapply g_bind; [apply lift_good|]. intros sealed. apply g_pure. intros ->.
    apply g_ret. intros f [Hf _]. split; [by apply Hh|done].
  - apply g_ret. intros f Hf. split; [|done]. by apply (Hh (replicate 12 zero)).
Qed.

Section compaction.
Context (s : DiskStore) (d0 : gmap string entry) (ps : list (bytes * record)) (d : bytes) (sn : option bytes) (fi : FS).
Context (Hinv : Inv true s d0 ps d sn fi) (Hutf : store_ok (data (mem s))).

Lemma snap_live : live_until T (mkMem (data (mem s)) 0).
Proof. exact (Inv_live _ _ _ _ _ _ _ Hinv). Qed.

(** Executing the log over the new snapshot changes nothing. *)
Lemma redo_again : redo_data T ps.*2 (data (mem s)) = data (mem s).
Proof.
  destruct Hinv as [_ _ _ _ _ _ Hmem _ How]. rewrite Hmem. by apply redo_overwrites_idemp, How.
Qed.

Lemma durable_again : durable ps d (data (mem s)).
Proof.
  destruct Hinv as [_ Hdur _ _ _ _ Hmem _ _]. destruct Hdur as [Hd|[Hnil Hst]]; [by left|right].
  split; [done|]. apply log_bytes_nil in Hnil as ->. by rewrite Hmem.
Qed.

(** Both snapshots go with the log. *)
Lemma recovers_either g :
  crash_log (log_bytes c ps) d (default [] (vol g !! wp)) →
  snap_holds (vol g !! sp) d0 ∨ snap_holds (vol g !! sp) (data (mem s)) → recovers g (.= data (mem s)).
Proof.
  intros Hlog Hs. destruct Hinv as [_ Hdur _ Hps Hdl Hl Hmem _ _]. destruct Hs as [Hs|Hs].
  - rewrite Hmem. by apply (recovers_rest g ps d d0).
  - rewrite <- redo_again. apply (recovers_rest g ps d); try done; [apply durable_again|apply snap_live].
Qed.

Lemma saveSnapshot_good :
  gtriple (fstate (log_bytes c ps) d sn) (saveSnapshot rnd s)
    (λ _ f, ∃ nb, snap_holds (Some nb) (data (mem s)) ∧ fstate (log_bytes c ps) d (Some nb) f) (crash_keeps s []).
Proof.
  assert (store_files s) as Hst by (by destruct Hinv). assert (snap_holds sn d0) as Hsn by (by destruct Hinv).
  pose proof (saveSnapshot_run s (log_bytes c ps) d sn Hst (store_ok_exps _ Hutf)) as Hrun. cbn zeta in Hrun.
  rewrite snapshot_data_valid in Hrun by done.
  eapply g_mono; [exact Hrun|]. intros f (f0 & nb & Hh & Hf0 & Hf) g Hg.
  eapply recovers_mono; [apply recovers_either|by intros D ->; exists 0%nat].
  - by eapply (crash_log_during _ _ sn f0 nb f g).
  - destruct (crash_inv_crash sp nb f0 f g (fstate_settled _ _ _ _ Hf0) Hf Hg) as [Hk|Hk]; [left|right; by rewrite Hk].
    by rewrite (fstate_may_hold _ _ _ _ _ Hf0 Hk).
Qed.

Lemma stale_now : stale d (data (mem s)).
Proof.
  pose proof Hinv as [_ Hdur _ Hps Hdl _ Hmem _ _]. destruct Hdur as [Hd|[Hnil Hst]].
  - exists ps. split_and!; [done..|apply redo_again|by apply Hinv].
  - apply log_bytes_nil in Hnil. rewrite Hnil in Hmem. by rewrite Hmem.
Qed.

(** The log is being emptied under the new snapshot. *)
Lemma crash_emptied v nb f :
  v = [] ∨ v = log_bytes c [] → snap_holds (Some nb) (data (mem s)) → fstate v d (Some nb) f → crash_keeps s [] f.
Proof.
  intros Hv Hnb Hf g Hg. destruct (crash_fstate _ _ _ _ _ Hf Hg) as (Hlog & Hsn & _). rewrite <- Hsn in Hnb.
  pose proof snap_live as Hl.
  assert (recovers g (.= data (mem s))) as Hrec; [|eapply recovers_mono; [exact Hrec|by intros D ->; exists 0%nat]].
  assert (default [] (vol g !! wp) = d ∨ default [] (vol g !! wp) `prefix_of` v) as [Hx|Hx].
  { unfold crash_log in Hlog. case_decide; tauto. }
  - destruct stale_now as (old & Hold & Hok & Hdl & Hidem & _). rewrite <- Hidem.
    apply (recovers_log g old []); rewrite ?app_nil_r; [congruence|done|by left|done..].
  - assert (default [] (vol g !! wp) = [] ∨ default [] (vol g !! wp) = log_bytes c []) as [H|H].
    { unfold log_bytes, log_body in *. cbn [fmap list_fmap concat] in *. rewrite app_nil_r in *.
      destruct Hv as [->| ->]; [left; by apply prefix_nil_inv|]. unfold log_header in *.
      destruct c; [|left; by apply prefix_nil_inv]. destruct Hx as [[|] Hx].
      - rewrite app_nil_r in Hx. by right.
      - left. destruct (default [] _) as [|? [|]]; [done|by simplify_eq/=..]. }
    + by apply recovers_empty.
    + apply (recovers_log g [] []); rewrite ?app_nil_r; [done|done|by left|done..].
Qed.

Lemma Truncate_good nb :
  snap_holds (Some nb) (data (mem s)) →
  gtriple (fstate (log_bytes c ps) d (Some nb)) (Truncate (wal s)) (λ _, consistent true s) (crash_keeps s []).
Proof.
  intros Hnb. assert (store_files s) as Hst by (by destruct Hinv).
  assert (∀ d' f, durable [] d' (data (mem s)) → fstate (log_bytes c []) d' (Some nb) f → consistent true s f) as Hdone.
  { intros d' f Hd' Hf. exists (data (mem s)), [], d', (Some nb). split; try done. apply snap_live. }
  unfold Truncate. replace (wal s) with w0 by (symmetry; apply Hst). cbn [w0 w_path w_cipher].
  eapply (g_bind _ _ (λ _, fstate [] d (Some nb))).
  - apply g_call. intros f Hf. pose proof Hf as [Hp Hv Hd Hs Hsd He Hse]. cbn [on_good]. rewrite Hv. eexists _, _. split; [done|].
    assert (fstate [] d (Some nb) (set_vol (<[wp:=[]]> (vol f)) f)) as Hf'.
    { split; simpl; try done; [by rewrite lookup_insert_eq|]. by rewrite lookup_insert_ne by apply wp_sp. }
    split; [done|]. apply (crash_emptied [] nb); auto.
  - intros []. assert (c = None ∨ ∃ c', c = Some c') as [Hc|[c' Hc]] by (destruct c; eauto); rewrite Hc.
    + assert (log_bytes c [] = []) as Hlb by (by rewrite Hc).
      apply g_ret. intros f Hf. apply (Hdone d); [right; split; [done|apply stale_now]|by rewrite Hlb].
    + assert (log_bytes c [] = [walEncryptedMagic]) as Hlb by (by rewrite Hc).
      eapply g_bind; [apply (write_good [] d (Some nb) [walEncryptedMagic])|].
      { intros f Hf. apply (crash_emptied [walEncryptedMagic] nb); auto. }
      intros []. assert (∀ f, fstate [walEncryptedMagic] [walEncryptedMagic] (Some nb) f → consistent true s f) as Hc'.
      { intros f Hf. rewrite <- Hlb in Hf. apply (Hdone (log_bytes c [])); [by left|done]. }
      eapply g_conseq; [intros f Hf; exact Hf|apply sync_good|intros [] f; apply Hc'].
      intros f Hf. eapply consistent_keeps, Hc', Hf.
Qed.

Lemma compact_good :
  gtriple (fstate (log_bytes c ps) d sn) (compact rnd s) (λ _, consistent true s) (crash_keeps s []).
Proof.
  unfold compact, compactLocked. eapply g_bind; [apply saveSnapshot_good|]. intros [].
  apply g_exist. intros nb. apply g_pure. intros Hnb. by apply Truncate_good.
Qed.
End compaction.

(** ** Runs of the store *)

Lemma crash_keeps_mono s rs rs' f : rs `prefix_of` rs' → crash_keeps s rs f → crash_keeps s rs' f.
Proof.
  intros [l ->] Hk g Hg. eapply recovers_mono; [by apply Hk|]. intros D [k ->].
  exists (Nat.min k (length rs)). f_equal. rewrite take_app_le by lia.
  destruct (decide (k <= length rs)%nat); [by rewrite Nat.min_l|]. rewrite Nat.min_r, !take_ge by lia. done.
Qed.

Lemma crash_keeps_after s s' rs1 rs2 f :
  data (mem s') = redo_data T rs1 (data (mem s)) → crash_keeps s' rs2 f → crash_keeps s (rs1 ++ rs2) f.
Proof.
  intros Hd Hk g Hg. eapply recovers_mono; [by apply Hk|]. intros D [k ->].
  exists (length rs1 + k)%nat. by rewrite take_app_add, redo_data_app, Hd.
Qed.

Lemma consistent_data ow s s' f :
  data (mem s') = data (mem s) → store_files s' → consistent ow s f → consistent ow s' f.
Proof.
  intros Hd Hst (d0 & ps & d & sn & [H1 H2 H3 H4 H5 H6 H7 _ H9]). exists d0, ps, d, sn.
  split; try done. congruence.
Qed.

Lemma consistent_live ow s f : consistent ow s f → live_until T (mem s) ∧ store_files s.
Proof. intros (d0 & ps & d & sn & Hinv). split; [by eapply Inv_live|by destruct Hinv]. Qed.

(** A request whose strings survive a snapshot. *)
Definition req_utf8 (req : batchRequest) : Prop :=
  ValidString (req_key req) = true ∧ ValidString (req_value req) = true.

(** In a run with compactions ([ow]) every request overwrites. *)
Definition req_run (ow : bool) (req : batchRequest) : Prop :=
  req_ok req ∧ (ow = true → batched req ∧ req_utf8 req).

Record held (ow : bool) (s : DiskStore) : Prop := {
  held_batch : Forall (req_run ow) (batch s) ∧ Forall batched (batch s);
  held_chan : Forall (req_run ow) (batchChan s);
  held_utf8 : ow = true → store_ok (data (mem s))
}.
Definition running (ow : bool) (s : DiskStore) : Prop := held ow s ∧ closed s = false.

Definition event_ok (ow : bool) (e : event) : Prop :=
  match e with
  | ESubmit req => req_run ow req
  | ERecv t1 t2 t3 => t1 <= T ∧ t3 <= T
  | ETimer => True
  | ESnapshot => ow = true
  | EExpire now => now <= T
  | EGet t1 t2 _ => t1 <= T
  end.

Definition submitted (e : event) : list batchRequest := match e with ESubmit req => [req] | _ => [] end.

(** The requests the store holds and has not answered. *)
Definition waiting (s : DiskStore) : list batchRequest := batch s ++ batchChan s.

(** [reqs] were executed and answered by the step from [s] to [s']. *)
Definition step_post (ow : bool) (s : DiskStore) (new : list batchRequest) (p : DiskStore * list reply) (f : FS) : Prop :=
  ∃ reqs, executed ow s reqs p.1 p.2 f ∧ reqs ++ waiting p.1 = waiting s ++ new ∧ running ow p.1.

Lemma redo_batched_utf8 rq d :
  opPut <= req_op rq → batched rq → req_utf8 rq → store_ok d → store_ok (redo_one T d (req_record rq)).
Proof.
  unfold batched, req_record, opIncr, opPut, opDelete, opClear. intros H1 H2 [Hk Hv] Hd.
  destruct (req_op rq =? 1) eqn:E1; [|destruct (req_op rq =? 2) eqn:E2; [|destruct (req_op rq =? 3) eqn:E3]];
    unfold redo_one; cbn.
  - by apply map_Forall_insert_2.
  - by apply map_Forall_delete.
  - apply map_Forall_empty.
  - bool_prop. lia.
Qed.

Lemma redo_batch_utf8 b d :
  Forall (req_run true) b → store_ok d → store_ok (redo_data T (req_record <$> b) d).
Proof.
  intros Hb. revert d. induction Hb as [|rq b Hr _ IH]; intros d Hd; [done|]. unfold redo_data. cbn [fmap list_fmap foldl].
  apply IH. destruct Hr as [[Hop _] Hu]. destruct (Hu eq_refl). by apply redo_batched_utf8; [apply Hop|..].
Qed.

Lemma flush_good ow s :
  held ow s →
  gtriple (consistent ow s) (flush rnd s)
    (λ p f, executed ow s (batch s) p.1 p.2 f ∧ p.1 = set_batch [] false (set_mem (mem p.1) s) ∧ held ow p.1)
    (crash_keeps s (req_record <$> batch s)).
Proof.
  intros [[Hrb Hb] Hch Hu]. unfold flush.
  assert (Forall req_ok (batch s)) as Hok by (eapply Forall_impl; [exact Hrb|]; by intros r []).
  eapply g_bind; [by apply writeBatch_good|]. intros [s' acks]. cbn [fst snd].
  apply g_ret. intros f [(Hcons & Hacks & Hdata) Hsame]. cbn [fst snd].
  rewrite Hsame in *. cbn [mem set_mem set_batch] in *. split; [|split; [done|]].
  - destruct (consistent_live _ _ _ Hcons) as [_ Hst]. split_and!; [|done..].
    by apply (consistent_data ow (set_mem (mem s') s)).
  - split; cbn; [done..|]. intros ->. rewrite Hdata. apply redo_batch_utf8; [done|]. by apply Hu.
Qed.

Lemma seq_replies_app d r1 r2 :
  seq_replies d (r1 ++ r2) = seq_replies d r1 ++ seq_replies (redo_data T (req_record <$> r1) d) r2.
Proof.
  revert d. induction r1 as [|r r1 IH]; intros d; [done|]. cbn [app seq_replies]. by rewrite IH.
Qed.

Lemma executed_app ow s s1 s2 r1 r2 a1 a2 f1 f2 :
  executed ow s r1 s1 a1 f1 → executed ow s1 r2 s2 a2 f2 → executed ow s (r1 ++ r2) s2 (a1 ++ a2) f2.
Proof.
  intros (_ & -> & H1) (Hc & -> & H2). split_and!; [done| |].
  - by rewrite seq_replies_app, H1.
  - by rewrite H2, H1, fmap_app, redo_data_app.
Qed.

Lemma executed_none ow s s' f :
  consistent ow s f → data (mem s') = data (mem s) → store_files s' → executed ow s [] s' [] f.
Proof. intros Hc Hd Hst. split_and!; [by apply (consistent_data ow s)|done..]. Qed.

Definition recv_post (ow : bool) (s : DiskStore) (req : batchRequest) (p : DiskStore * list reply) (f : FS) : Prop :=
  ∃ reqs, executed ow s reqs p.1 p.2 f ∧ reqs ++ batch p.1 = batch s ++ [req] ∧
    batchChan p.1 = batchChan s ∧ closed p.1 = closed s ∧ held ow p.1.

(** A request that joins the batch. *)
Lemma recv_batched ow s req t1 t2 t3 :
  held ow s → req_run ow req → batched req →
  gtriple (consistent ow s) (batchLoop_recv rnd t1 t2 t3 s req) (recv_post ow s req)
    (crash_keeps s (req_record <$> (batch s ++ [req]))).
Proof.
  intros Hrun Hreq Hb. unfold batchLoop_recv. rewrite (proj2 (Z.leb_gt _ _)) by exact Hb.
  set (s1 := set_batch (batch s ++ [req]) true s).
  assert (held ow s1) as Hrun1.
  { destruct Hrun as [[H1 H2] H3 H4]. split; [|done..]. by split; apply Forall_app; rewrite Forall_singleton. }
  apply g_pre with (φ := store_files s); [intros f Hf; by eapply consistent_live|]. intros Hst. case_decide.
  - eapply g_conseq; [|by apply (flush_good ow s1)|].
    + intros f Hf. by apply (consistent_data ow s).
    + intros [s' acks] f (He & Hs' & Hr). exists (batch s ++ [req]). cbn [fst snd] in *.
      split_and!; [done|by rewrite Hs', app_nil_r|by rewrite Hs'|by rewrite Hs'|done].
  - apply g_ret. intros f Hf. exists []. split_and!; [by apply executed_none|done..].
Qed.

(** A request that is executed alone, after the pending batch. *)
Lemma recv_single s req t1 t2 t3 :
  held false s → req_run false req → ¬ batched req → t1 <= T → t3 <= T →
  gtriple (consistent false s) (batchLoop_recv rnd t1 t2 t3 s req) (recv_post false s req)
    (crash_keeps s (req_record <$> (batch s ++ [req]))).
Proof.
  intros Hrun [Hok _] Hb H1 H3. unfold batchLoop_recv. unfold batched in Hb. rewrite (proj2 (Z.leb_le _ _)) by lia.
  eapply g_bind; [eapply g_mono; [by apply flush_good|]|].
  { intros f Hf. eapply crash_keeps_mono; [|exact Hf]. rewrite fmap_app. by eexists. }
  intros [s1 acks1]. cbn [fst snd]. apply g_fix. intros f1 (He & Hs1 & Hr1).
  eapply g_bind; [eapply g_mono; [eapply g_conseq; [|by apply (writeSingle_good s1 req t1 t2 t3)|]|]|].
  - intros f ->. apply He.
  - intros a f H. exact H.
  - intros f Hf. rewrite fmap_app. eapply (crash_keeps_after s s1); [apply He|exact Hf].
  - intros [s2 ack]. cbn [fst snd]. apply g_ret. intros f [He2 Hsame]. exists (batch s ++ [req]). cbn [fst snd].
    assert (batch s2 = [] ∧ batchChan s2 = batchChan s ∧ closed s2 = closed s ∧ held false s2) as (-> & -> & -> & Hr2).
    { rewrite Hsame, Hs1. cbn. split_and!; [done..|]. destruct Hr1 as [[??] H4 ?]. rewrite Hs1 in H4. by split. }
    split_and!; [by eapply executed_app|by rewrite app_nil_r|done..].
Qed.

Lemma recv_good ow s req t1 t2 t3 :
  held ow s → req_run ow req → t1 <= T → t3 <= T →
  gtriple (consistent ow s) (batchLoop_recv rnd t1 t2 t3 s req) (recv_post ow s req)
    (crash_keeps s (req_record <$> (batch s ++ [req]))).
Proof.
  intros Hrun Hreq H1 H3. destruct (decide (req_op req < opIncr)) as [Hb|Hb]; [by apply recv_batched|].
  destruct ow; [|by apply recv_single]. destruct Hreq as [_ Hreq]. destruct (Hreq eq_refl) as [? _]. done.
Qed.

(** Steps that execute nothing. *)
Lemma idle_step ow s s' new f :
  consistent ow s f → running ow s' → data (mem s') = data (mem s) → store_files s' →
  waiting s' = waiting s ++ new → step_post ow s new (s', []) f.
Proof. intros Hc Hr Hd Hst Hw. exists []. split_and!; [by apply executed_none|done..]. Qed.

Lemma running_mem ow s m : running ow s → data m = data (mem s) → running ow (set_mem m s).
Proof. intros [[H1 H2 H3] H4] Hd. split; [|done]. split; try done. cbn. by rewrite Hd. Qed.

Lemma sweep_before now m : live_until T m → now <= T → data (SweepExpired now m).2 = data m.
Proof.
  intros Hm Hn. rewrite sweep_data. apply map_eq. intros k. rewrite purge_lookup.
  destruct (data m !! k) as [e|] eqn:E; [|done]. simpl. by rewrite (entryExpired_before e now T) by eauto.
Qed.

Lemma snapshot_step_good s :
  running true s →
  gtriple (consistent true s) (attempt (compactIfNeeded rnd s) ;;; ret (s, [])) (step_post true s [])
    (crash_keeps s []).
Proof.
  intros Hrun. pose proof (held_utf8 _ _ (proj1 Hrun) eq_refl) as Hutf.
  assert (∀ f, consistent true s f → step_post true s [] (s, []) f) as Hidle.
  { intros f Hf. apply idle_step; try done; [by eapply consistent_live|by rewrite app_nil_r]. }
  eapply (g_bind _ _ (λ _, consistent true s)); [|intros r; by apply g_ret].
  apply g_attempt. apply g_exist. intros d0. apply g_exist. intros ps. apply g_exist. intros d. apply g_exist. intros sn.
  apply g_fix. intros f0 Hinv. unfold compactIfNeeded.
  eapply (g_bind _ _ (λ _, (.= f0))).
  - apply g_call. intros f ->. cbn [on_good]. destruct (inv_store _ _ _ _ _ _ _ Hinv) as (_ & _ & _ & ->).
    rewrite (fs_vol _ _ _ _ (inv_files _ _ _ _ _ _ _ Hinv)). eexists _, _. split_and!; [done..|].
    apply (consistent_keeps true). by exists d0, ps, d, sn.
  - intros size. destruct (size <? snapshotThreshold).
    + apply g_ret. intros f ->. by exists d0, ps, d, sn.
    + eapply g_conseq; [|by apply (compact_good s d0 ps d sn f0)|done]. intros f ->. by destruct Hinv.
Qed.

Lemma step_good ow s e :
  running ow s → event_ok ow e →
  gtriple (consistent ow s) (step rnd s e) (step_post ow s (submitted e))
    (crash_keeps s (req_record <$> (waiting s ++ submitted e))).
Proof.
  intros Hrun He. apply g_pre with (φ := live_until T (mem s) ∧ store_files s); [intros f; apply consistent_live|].
  intros [Hlive Hst]. destruct e as [req|t1 t2 t3| | |now|t1 t2 k]; cbn [step submitted event_ok] in *; rewrite ?app_nil_r.
  - unfold submit. rewrite (proj2 Hrun). apply g_ret. intros f Hf.
    apply idle_step; [done| |done|done|by unfold waiting; cbn; rewrite app_assoc].
    destruct Hrun as [[H1 H2 H3] H4]. split; [|done]. split; try done. cbn. apply Forall_app. by rewrite Forall_singleton.
  - destruct (batchChan s) as [|req q] eqn:Hq.
    { apply g_ret. intros f Hf. apply idle_step; try done. by rewrite app_nil_r. }
    destruct Hrun as [[H1 H2 H3] H4]. rewrite Hq in H2. apply Forall_cons in H2 as [Hreq Hq'].
    assert (held ow (set_chan q s)) as Hrun' by done. destruct He.
    eapply g_mono; [eapply g_conseq; [|by apply (recv_good ow (set_chan q s) req t1 t2 t3)|]|].
    + intros f Hf. by apply (consistent_data ow s).
    + intros [s' acks] f (reqs & Hex & Hb & Hc & Hcl & Hr). exists reqs. cbn [fst snd] in *.
      split_and!; [done| |split; [done|by rewrite Hcl]]. unfold waiting. rewrite Hq, Hc, app_nil_r, app_assoc, Hb. cbn. by rewrite <- app_assoc.
    + intros f Hf. unfold waiting. rewrite Hq. eapply crash_keeps_mono; [|exact Hf]. cbn [batch set_chan].
      exists (req_record <$> q). by rewrite <- fmap_app, <- app_assoc.
  - unfold batchLoop_timer. destruct (timer s).
    + eapply g_mono; [eapply g_conseq; [intros f Hf; exact Hf|apply flush_good, Hrun|]|].
      * intros [s' acks] f (Hex & Hs' & Hr). exists (batch s). cbn [fst snd] in *.
        split_and!; [done|by rewrite Hs', app_nil_r|split; [done|by rewrite Hs'; apply Hrun]].
      * intros f Hf. eapply crash_keeps_mono; [|exact Hf]. unfold waiting. rewrite fmap_app. by eexists.
    + apply g_ret. intros f Hf. apply idle_step; try done. by rewrite app_nil_r.
  - subst ow. eapply g_mono; [by apply snapshot_step_good|]. intros f Hf. eapply crash_keeps_mono; [|exact Hf]. apply prefix_nil.
  - apply g_ret. intros f Hf. pose proof (sweep_before now (mem s) Hlive He).
    apply idle_step; [done|by apply running_mem|done|done|by rewrite app_nil_r].
  - apply g_ret. intros f Hf. rewrite Get_before by done.
    apply idle_step; [done|by apply running_mem|done|done|by rewrite app_nil_r].
Qed.

Definition all_submitted (es : list event) : list batchRequest := concat (submitted <$> es).

Lemma steps_good ow s es :
  running ow s → Forall (event_ok ow) es →
  gtriple (consistent ow s) (steps rnd s es) (step_post ow s (all_submitted es)) (λ _, True).
Proof.
  intros Hrun Hes. revert s Hrun. induction Hes as [|e es He _ IH]; intros s Hrun.
  { apply g_ret. intros f Hf. apply idle_step; try done; [by eapply consistent_live|]. cbn. by rewrite app_nil_r. }
  cbn [steps]. eapply g_bind; [eapply g_mono; [by apply step_good|done]|]. intros [s1 acks1].
  apply g_fix. intros f1 (r1 & He1 & Hw1 & Hr1). cbn [fst snd] in *.
  eapply g_bind; [eapply g_conseq; [|by apply (IH s1)|]|].
  - intros f ->. apply He1.
  - intros a f H. exact H.
  - intros [s2 acks2]. apply g_ret. intros f (r2 & He2 & Hw2 & Hr2). cbn [fst snd] in *.
    exists (r1 ++ r2). cbn [fst snd]. split_and!; [by eapply executed_app| |done].
    unfold all_submitted. cbn [fmap list_fmap concat]. fold (all_submitted es).
    by rewrite <- app_assoc, Hw2, !app_assoc, Hw1.
Qed.

(** What a run promises: after the events [es], the event [e] runs.
    - Every request is answered exactly once, in the order of arrival, and the
      requests not answered are still held.
    - The answers and the memory are those of executing the answered requests
      one after the other.
    - Killed at any point during [e], the directory still holds the requests
      answered before [e] and some first ones of those held: reopening restores
      them, or the log ends in a torn record, on which opening may be refused,
      and they are restored once it is cut off (see [recovers]).
    - Killed after [e], reopening succeeds and restores exactly the answered
      requests. *)
Definition durable_run (s : DiskStore) (es : list event) (e : event) (w : World) : Prop :=
  ∃ s1 acks1 w1 s2 acks2 w2 points,
    steps rnd s es w = (Ok (s1, acks1), w1) ∧ step rnd s1 e w1 = (Ok (s2, acks2), w2) ∧
    (acks1 ++ acks2).*1 ++ waiting s2 = waiting s ++ all_submitted (es ++ [e]) ∧
    acks1 ++ acks2 = seq_replies (data (mem s)) (acks1 ++ acks2).*1 ∧
    data (mem s1) = redo_data T (req_record <$> acks1.*1) (data (mem s)) ∧
    data (mem s2) = redo_data T (req_record <$> (acks1 ++ acks2).*1) (data (mem s)) ∧
    hist w2 = points ++ hist w1 ∧
    Forall (λ f, ∀ g, crash f g → recovers g (λ D, ∃ k,
      D = redo_data T (take k (req_record <$> (waiting s1 ++ submitted e))) (data (mem s1)))) points ∧
    (∀ g, crash (fs w2) g → reopens g (.= data (mem s2))).

Lemma seq_replies_reqs d reqs : (seq_replies d reqs).*1 = reqs.
Proof. revert d. induction reqs as [|r reqs IH]; intros d; [done|]. cbn. by rewrite IH. Qed.

Lemma durable_run_holds ow s es e w :
  script w = [] → consistent ow s (fs w) → running ow s → Forall (event_ok ow) (es ++ [e]) →
  durable_run s es e w.
Proof.
  intros Hs Hc Hrun Hes. apply Forall_app in Hes as [Hes He]. rewrite Forall_singleton in He.
  destruct (steps_good ow s es Hrun Hes w Hs Hc) as ([s1 acks1] & w1 & Hrun1 & Hs1 & (r1 & He1 & Hw1 & Hr1) & _).
  cbn [fst snd] in *. destruct He1 as (Hc1 & -> & Hd1).
  destruct (step_good ow s1 e Hr1 He w1 Hs1 Hc1) as ([s2 acks2] & w2 & Hrun2 & Hs2 & (r2 & He2 & Hw2 & Hr2) & new & Hh & Hnew).
  cbn [fst snd] in *. destruct He2 as (Hc2 & -> & Hd2).
  exists s1, (seq_replies (data (mem s)) r1), w1, s2, (seq_replies (data (mem s1)) r2), w2, new.
  rewrite !fmap_app, !seq_replies_reqs. split_and!; try done.
  - unfold all_submitted. rewrite fmap_app, concat_app. cbn. rewrite app_nil_r.
    by rewrite <- app_assoc, Hw2, app_assoc, Hw1, <- app_assoc.
  - by rewrite seq_replies_app, Hd1.
  - by rewrite redo_data_app, Hd2, Hd1.
  - rewrite fmap_app in Hnew. exact Hnew.
  - intros g Hg clk h Hclk. destruct (reopen_consistent ow s2 (fs w2) g clk h Hc2 Hg Hclk) as (s' & w' & Ho & _ & _ & Hd & _).
    exists s'. by rewrite Ho.
Qed.

(** ** Closing *)

Lemma drain_good ow t1 t2 t3 q s :
  t1 <= T → t3 <= T → held ow s → Forall (req_run ow) q →
  gtriple (consistent ow s) (drain rnd t1 t2 t3 q s)
    (λ p f, executed ow s (batch s ++ q) p.1 p.2 f) (λ _, True).
Proof.
  intros H1 H3. revert s. induction q as [|req q IH]; intros s Hh Hq; cbn [drain].
  - rewrite app_nil_r. destruct Hh as [[Hrb Hb] _ _].
    eapply g_mono; [eapply g_conseq; [intros f Hf; exact Hf|apply writeBatch_good|]|done].
    + eapply Forall_impl; [exact Hrb|]. by intros r [].
    + done.
    + intros p f [Hex _]. exact Hex.
  - apply Forall_cons in Hq as [Hreq Hq].
    eapply g_bind; [eapply g_mono; [by apply recv_good|done]|]. intros [s1 acks1].
    apply g_fix. intros f1 (r1 & He1 & Hb1 & Hc1 & _ & Hh1). cbn [fst snd] in *.
    eapply g_bind; [eapply g_conseq; [|by apply (IH s1)|]|].
    + intros f ->. apply He1.
    + intros a f H. exact H.
    + intros [s2 acks2]. apply g_ret. intros f He2. cbn [fst snd] in *.
      replace (batch s ++ req :: q) with (r1 ++ (batch s1 ++ q)) by (rewrite app_assoc, Hb1, <- app_assoc; done).
      by eapply executed_app.
Qed.

Lemma Truncate_run s v d sn :
  store_files s → gtriple (fstate v d sn) (Truncate (wal s)) (λ _ f, ∃ d', fstate (log_bytes c []) d' sn f) (λ _, True).
Proof.
  intros [-> _]. unfold Truncate. cbn [w0 w_path w_cipher].
  eapply (g_bind _ _ (λ _, fstate [] d sn)).
  - apply g_call. intros f [Hp Hv Hd Hs Hsd He Hse]. cbn [on_good]. rewrite Hv. eexists _, _. split; [done|]. split; [|done].
    split; simpl; try done; [by rewrite lookup_insert_eq|]. by rewrite lookup_insert_ne by apply wp_sp.
  - intros []. assert (c = None ∨ ∃ c', c = Some c') as [Hc|[c' Hc]] by (destruct c; eauto); rewrite Hc.
    + apply g_ret. intros f Hf. exists d. exact Hf.
    + eapply g_bind; [by apply (write_good [] d sn [walEncryptedMagic])|]. intros [].
      eapply g_conseq; [intros f Hf; exact Hf|by apply sync_good|]. intros [] f Hf. eexists. exact Hf.
Qed.

(** The snapshot holds the memory and the log is empty. *)
Definition shut (s : DiskStore) (f : FS) : Prop :=
  ∃ nb d, snap_holds (Some nb) (snapshot_data (data (mem s))) ∧ fstate (log_bytes c []) d (Some nb) f.

Lemma compact_run s v d sn :
  store_files s → exps_int64 (data (mem s)) → gtriple (fstate v d sn) (compact rnd s) (λ _, shut s) (λ _, True).
Proof.
  intros Hst Hexp. unfold compact, compactLocked.
  eapply g_bind; [eapply g_mono; [by apply saveSnapshot_run|done]|].
  intros []. apply g_exist. intros nb. apply g_pure. intros Hnb.
  eapply g_conseq; [intros f Hf; exact Hf|by apply Truncate_run|]. intros [] f [d' Hf]. by exists nb, d'.
Qed.

(** Closing executes what is held, and reopening the directory (the process has
    ended, nothing is lost) restores the data as the snapshot keeps it: unchanged
    when it is valid UTF-8. *)
Definition close_keeps (t1 t2 t3 : Z) (s : DiskStore) (w : World) : Prop :=
  ∃ s' acks w', Close rnd t1 t2 t3 s w = (Ok (s', acks, Ok ()), w') ∧
    acks = seq_replies (data (mem s)) (waiting s) ∧
    data (mem s') = redo_data T (req_record <$> waiting s) (data (mem s)) ∧
    ∀ clk h, (∀ j, clk j <= T) →
      ∃ s2, (openDiskStore clk dir c (mkWorld (fs w') [] h)).1 = Ok s2 ∧
        data (mem s2) = snapshot_data (data (mem s')) ∧ (store_ok (data (mem s')) → data (mem s2) = data (mem s')).

Lemma close_keeps_holds t1 t2 t3 ow s w :
  script w = [] → consistent ow s (fs w) → held ow s → t1 <= T → t3 <= T → close_keeps t1 t2 t3 s w.
Proof.
  intros Hs Hc Hh H1 H3.
  assert (gtriple (consistent ow s) (Close rnd t1 t2 t3 s)
    (λ p f, p.2 = Ok () ∧ p.1.2 = seq_replies (data (mem s)) (waiting s) ∧
       data (mem p.1.1) = redo_data T (req_record <$> waiting s) (data (mem s)) ∧ shut p.1.1 f) (λ _, True)) as Hclose.
  { unfold Close. set (s0 := set_chan [] (set_closed s)).
    assert (held ow s0) as Hh0 by (destruct Hh as [? ? ?]; by split).
    apply g_pre with (φ := store_files s); [intros f Hf; by eapply consistent_live|]. intros Hst.
    eapply g_bind; [eapply g_conseq; [|by apply (drain_good ow t1 t2 t3 (batchChan s) s0); [..|apply Hh]|]|].
    - intros f Hf. by apply (consistent_data ow s).
    - intros a f H. exact H.
    - intros [s1 acks]. apply g_fix. intros f1 Hex. cbn [fst snd] in Hex. destruct Hex as (Hc1 & -> & Hd1).
      destruct (consistent_live _ _ _ Hc1) as [_ Hst1]. pose proof (consistent_int64 _ _ _ Hc1) as Hexp. destruct Hc1 as (d0 & ps & d & sn & Hinv).
      change (batch s0) with (batch s) in *. fold (waiting s) in *. change (data (mem s0)) with (data (mem s)) in *.
      eapply (g_bind _ _ (λ r f, r = Ok () ∧ shut s1 f)).
      + apply g_attempt. eapply g_conseq; [|by apply (compact_run s1 (log_bytes c ps) d sn)|by intros [] f Hf].
        intros f ->. by destruct Hinv.
      + intros r. apply g_pure. intros ->. eapply (g_bind _ _ (λ r f, r = Ok () ∧ shut s1 f)).
        * apply g_attempt. apply g_call. intros f Hf. by exists (), f.
        * intros r. apply g_pure. intros ->. apply g_ret. intros f Hf. done. }
  destruct (Hclose w Hs Hc) as ([[s' acks] r] & w' & Hrun & Hs' & Hpost & _).
  cbn [fst snd] in Hpost. destruct Hpost as (-> & -> & Hd & nb & d & Hnb & Hf). exists s', (seq_replies (data (mem s)) (waiting s)), w'. split_and!; [done..|].
  intros clk h Hclk. destruct Hf as [_ Hv _ Hsn _ _ _]. exists (fresh_store (mkMem (snapshot_data (data (mem s'))) 0)).
  split; [|split; [done|apply snapshot_data_valid]].
  rewrite (open_good clk (fs w') h (snapshot_data (data (mem s')))); [|rewrite Hv; cbn|by rewrite Hsn].
  - rewrite Hv. cbn. unfold replay, log_bytes, log_body. cbn. rewrite app_nil_r. by destruct c.
  - rewrite <- (app_nil_r (log_bytes c [])). apply headed_log.
Qed.
End store.



(** C15 (clean shutdown): when no system call fails, closing the store answers
    every held request as if executed in order, and reopening the directory
    restores the data as the snapshot keeps it: exactly the data the store had
    when its keys and values are valid UTF-8, and otherwise with what is no UTF-8
    replaced by U+FFFD ([snapshot_data]).  All operations, encrypted or not; the
    directory holds the memory ([consistent]), the held requests fit a log record,
    and clock readings are at most [T] and deadlines after [T] ([held]). *)
Theorem close_then_open dir c rnd T t1 t2 t3 ow s w :
  match c with None => True | Some c => AEAD_laws (aead c) end →
  (∀ n, ∃ nonce, rnd n = Some nonce ∧ length nonce = atRestNonceSize) →
  script w = [] → consistent dir c T ow s (fs w) → held c T ow s → t1 <= T → t3 <= T →
  close_keeps dir c rnd T t1 t2 t3 s w.
Proof. intros Hlaws Hrnd. apply (close_keeps_holds dir c rnd T Hlaws Hrnd). Qed.

Lemma close_then_open_witness :
  let s := set_chan [Put_req 1 "a" "41"; Incr_req 2 "a"] (fresh_store "d" (Some (mkCipher toy_aead)) NewMemStore) in
  let w := mkWorld (at_rest {["d/wal.log"%string := [walEncryptedMagic]]}) [] [] in
  close_keeps "d" (Some (mkCipher toy_aead)) (λ _, Some (replicate 12 zero)) 100 5 5 5 s w.
Proof.
  intros s w. apply (close_then_open "d" (Some (mkCipher toy_aead)) (λ _, Some (replicate 12 zero)) 100 5 5 5 false s w).
  - apply toy_aead_laws.
  - intros n. by exists (replicate 12 zero).
  - reflexivity.
  - exists ∅, [], [walEncryptedMagic], None. split; try done; by left.
  - split; try done. repeat constructor; vm_compute; discriminate || (intros; discriminate).
  - lia.
  - lia.
Defined.

(** ** What is not kept *)

Lemma crash_self f : pend f = [] → dur f = vol f → crash f (at_rest (vol f)).
Proof.
  intros Hp Hd. exists 0%nat, (dur f). rewrite Hp. simpl. split_and!; [apply survives_dur|..|done].
  - intros n [H|H]; rewrite Hp in H; simpl in H; set_solver.
  - intros n _. left. rewrite Hd. destruct (vol f !! n); simpl; [|done]. by rewrite decide_True.
Qed.

(** The directory after a crash that loses nothing, opened at time [t]. *)
Definition reopen (dir : string) (c : option atRestCipher) (t : Z) (f : FS) : res (gmap string entry) :=
  match (openDiskStore (λ _, t) dir c (mkWorld (at_rest (vol f)) [] [])).1 with
  | Ok s => Ok (data (mem s))
  | Err e => Err e
  end.

(** Compaction and increments: a crash between the two steps of a
    compaction, the snapshot being written and the log not yet truncated,
    executes the log again over the new snapshot: an acknowledged counter of 1
    is restored as 2. *)
Theorem compaction_crash_doubles_incr :
  let log := encode (RIncr "n") in
  let files : gmap string bytes := {["d/wal.log"%string := log]} in
  let s := fresh_store "d" None (mkMem {["n"%string := mkEntry "1" 0]} 0) in
  let (r, w) := saveSnapshot (λ _, None) s (mkWorld (at_rest files) [] []) in
  reopen "d" None 5 (at_rest files) = Ok {["n"%string := mkEntry "1" 0]} ∧
  r = Ok () ∧ crash (fs w) (at_rest (vol (fs w))) ∧
  reopen "d" None 5 (fs w) = Ok {["n"%string := mkEntry "2" 0]}.
Proof.
  intros log files s. destruct (saveSnapshot _ s _) as [r w] eqn:E.
  assert (pend (fs w) = [] ∧ dur (fs w) = vol (fs w) ∧ r = Ok () ∧
    reopen "d" None 5 (fs w) = Ok {["n"%string := mkEntry "2" 0]}) as (Hp & Hd & Hr & Ho).
  { replace w with (saveSnapshot (λ _, None) s (mkWorld (at_rest files) [] [])).2 by by rewrite E.
    replace r with (saveSnapshot (λ _, None) s (mkWorld (at_rest files) [] [])).1 by by rewrite E.
    split_and!; vm_compute; reflexivity. }
  split_and!; [vm_compute; reflexivity|done|by apply crash_self|done].
Qed.

(** A write error poisons the log: a write that fails after some bytes is
    reported, but its fragment stays in the log; the next write is acknowledged,
    and then the directory cannot be opened any more. *)
Theorem write_error_loses_later_writes :
  let files : gmap string bytes := {["d/wal.log"%string := []]} in
  let put id k := [ESubmit (Put_req id k "v"); ERecv 1 1 1; ETimer] in
  let (r, w) := steps (λ _, None) (fresh_store "d" None NewMemStore) (put 1%nat "a"%string ++ put 2%nat "b"%string)
    (mkWorld (at_rest files) [Bad 3] []) in
  match r with
  | Ok (_, acks) => acks.*2 = [Err (ErrMsg "write error"); Ok RNil]
  | Err _ => False
  end ∧ is_ok (reopen "d" None 5 (fs w)) = false.
Proof. vm_compute. done. Qed.

(** A skipped fragment poisons an encrypted log: a log that ends in a torn
    length prefix opens (the fragment is skipped but not removed); a write is
    then appended after the fragment and acknowledged, and the directory cannot
    be opened any more. *)
Theorem skipped_fragment_loses_later_writes :
  let c := Some (mkCipher toy_aead) in
  let files : gmap string bytes := {["d/wal.log"%string := [walEncryptedMagic; "000"%char; "000"%char]]} in
  let rnd := λ _ : nat, Some (replicate 12 "n"%char) in
  let (opened, w1) := openDiskStore (λ _, 0) "d" c (mkWorld (at_rest files) [] []) in
  match opened with
  | Err _ => False
  | Ok s =>
      let (r, w2) := steps rnd s [ESubmit (Put_req 1 "a" "v"); ERecv 1 1 1; ETimer] w1 in
      match r with Ok (_, acks) => acks.*2 = [Ok RNil] | Err _ => False end ∧
      is_ok (reopen "d" c 5 (fs w2)) = false
  end.
Proof. vm_compute. done. Qed.

(** What a crash may leave of a directory with one file. *)
Lemma crash_one f n d v x :
  vol f = {[n := v]} → dur f = {[n := d]} → pend f = [] → d `prefix_of` x → x `prefix_of` v → crash f (at_rest {[n := x]}).
Proof.
  intros Hv Hd Hp Hdx Hxv. exists 0%nat, (dur f). rewrite Hp. cbn. split_and!; [apply survives_dur|..|done].
  - intros n' [H|H]; rewrite Hp in H; set_solver.
  - intros n' _. left. rewrite Hv, Hd. destruct (decide (n' = n)) as [->|].
    + rewrite !lookup_singleton_eq. cbn. rewrite decide_True; [done|]. by trans x.
    + by rewrite !lookup_singleton_ne by congruence.
Qed.

(** A crash that tears a record keeps the directory from opening: after a write
    that was acknowledged, the process is killed while the next record is being
    written, of which 3 bytes survive.  Opening the directory fails (the
    acknowledged write is still in the log, before the torn record). *)
Theorem torn_append_refuses_open :
  let put id k := [ESubmit (Put_req id k "v"); ERecv 1 1 1; ETimer] in
  let log := encode (RPut "a" "v") in
  let s0 := fresh_store "d" None NewMemStore in
  let (r1, w1) := steps (λ _, None) s0 (put 1%nat "a"%string) (mkWorld (at_rest {["d/wal.log"%string := []]}) [] []) in
  match r1 with
  | Err _ => False
  | Ok (s1, acks) =>
      acks.*2 = [Ok RNil] ∧ reopen "d" None 5 (fs w1) = Ok {["a"%string := mkEntry "v" 0]} ∧
      ∃ f, f ∈ hist (steps (λ _, None) s1 (put 2%nat "b"%string) w1).2 ∧
        ∃ g, crash f g ∧ vol g !! "d/wal.log"%string = Some (log ++ take 3 (encode (RPut "b" "v"))) ∧
          is_ok (reopen "d" None 5 g) = false
  end.
Proof.
  set (log := encode (RPut "a" "v")). set (log2 := log ++ encode (RPut "b" "v")).
  set (f := mkFS {["d/wal.log"%string := log2]} {["d/wal.log"%string := log]} [] {["d/wal.log"%string]}).
  set (g := at_rest {["d/wal.log"%string := log ++ take 3 (encode (RPut "b" "v"))]}).
  assert (crash f g) as Hg.
  { apply (crash_one f _ log log2); [done..|by apply prefix_app_r|]. apply prefix_app. exists (drop 3 (encode (RPut "b" "v"))).
    by rewrite take_drop. }
  cbv zeta. destruct (steps _ _ _ _) as [r1 w1] eqn:E.
  replace r1 with (steps (λ _, None) (fresh_store "d" None NewMemStore) [ESubmit (Put_req 1 "a" "v"); ERecv 1 1 1; ETimer]
    (mkWorld (at_rest {["d/wal.log"%string := []]}) [] [])).1 by by rewrite E.
  replace w1 with (steps (λ _, None) (fresh_store "d" None NewMemStore) [ESubmit (Put_req 1 "a" "v"); ERecv 1 1 1; ETimer]
    (mkWorld (at_rest {["d/wal.log"%string := []]}) [] [])).2 by by rewrite E.
  clear E r1 w1. split_and!; [vm_compute; reflexivity..|]. exists f. split.
  - apply (list_elem_of_lookup_2 _ 1). vm_compute. reflexivity.
  - exists g. split_and!; [done|vm_compute; reflexivity..].
Qed.

(** A new log may vanish: [OpenWAL] creates the log and never syncs the
    directory, so the log's name in it need not be durable.  In an empty directory
    a write is acknowledged, its record synced; after a crash the directory may
    be empty, and opens as an empty store. *)
Theorem fresh_log_can_vanish :
  let (opened, w1) := openDiskStore (λ _, 0) "d" None (mkWorld (at_rest ∅) [] []) in
  match opened with
  | Err _ => False
  | Ok s =>
      let (r, w2) := steps (λ _, None) s [ESubmit (Put_req 1 "a" "v"); ERecv 1 1 1; ETimer] w1 in
      match r with Ok (_, acks) => acks.*2 = [Ok RNil] | Err _ => False end ∧
      reopen "d" None 5 (fs w2) = Ok {["a"%string := mkEntry "v" 0]} ∧
      crash (fs w2) (at_rest ∅) ∧ reopen "d" None 5 (at_rest ∅) = Ok ∅
  end.
Proof.
  set (log := encode (RPut "a" "v")).
  assert (crash (mkFS {["d/wal.log"%string := log]} {["d/wal.log"%string := log]} [] ∅) (at_rest ∅)) as Hg.
  { exists 0%nat, ∅. cbn. split_and!; [|..|done].
    - intros n. right. split; set_solver.
    - intros n [H|H]; set_solver.
    - intros n _. right. split; set_solver. }
  vm_compute. vm_compute in Hg. split_and!; done.
Qed.
