(* ===== verification/RaftNode.v ===== *)
(** * RaftNode: the state of a raft node and its inbound handlers

    pkg/raft/types.go, node.go, follower.go, commit.go and snapshot.go.  A
    handler runs under [n.mu] and is a function on the node; where the source
    releases the lock in the middle (to persist, to send an RPC, to restore a
    snapshot) the handler is split there.  Go's 64-bit [int] is [Z]: terms and
    indices are counters that do not reach 2^63. *)

From S2P Require Import Prelude GoLib Engine.

Inductive Role : Type := RoleFollower | RoleCandidate | RoleLeader.

Global Instance Role_eq_dec : EqDecision Role.
Proof. solve_decision. Defined.

Record Entry : Type := mkEntry { Term : Z; Cmd : Command }.

Global Instance Entry_eq_dec : EqDecision Entry.
Proof. solve_decision. Defined.

Record VoteRequest : Type := mkVoteReq {
  vq_Term : Z; vq_CandidateID : string; vq_LastLogIndex : Z; vq_LastLogTerm : Z
}.
Record VoteResponse : Type := mkVoteResp { vr_Term : Z; vr_VoteGranted : bool }.
Record AppendEntriesRequest : Type := mkAppendReq {
  aq_Term : Z; aq_LeaderID : string; aq_PrevLogIndex : Z; aq_PrevLogTerm : Z;
  aq_Entries : list Entry; aq_LeaderCommit : Z
}.
Record AppendEntriesResponse : Type := mkAppendResp { ar_Term : Z; ar_Success : bool }.
Record InstallSnapshotRequest : Type := mkInstallReq {
  iq_Term : Z; iq_LeaderID : string; iq_LastIncludedIndex : Z; iq_LastIncludedTerm : Z; iq_Data : bytes
}.
Record InstallSnapshotResponse : Type := mkInstallResp { ir_Term : Z; ir_Success : bool }.

Global Instance VoteRequest_eq_dec : EqDecision VoteRequest.
Proof. solve_decision. Defined.
Global Instance VoteResponse_eq_dec : EqDecision VoteResponse.
Proof. solve_decision. Defined.
Global Instance AppendEntriesRequest_eq_dec : EqDecision AppendEntriesRequest.
Proof. solve_decision. Defined.
Global Instance AppendEntriesResponse_eq_dec : EqDecision AppendEntriesResponse.
Proof. solve_decision. Defined.

(** [replicationState] of leader.go: a missing key of a Go map reads as zero. *)
Record replicationState : Type := mkRepl {
  nextIndex : gmap string Z;
  matchIndex : gmap string Z;
  inFlight : gmap string bool;
  backoff : gmap string Z
}.

Definition at0 (m : gmap string Z) (p : string) : Z := default 0 (m !! p).
Definition flying (st : replicationState) (p : string) : bool := default false (inFlight st !! p).

(** The shared state under [n.mu].  [n_resetElection] is the pending signal of
    the channel of that name; [n_hasStore], [n_hasSnapshotter] and [n_hasSink]
    tell whether the collaborators were wired. *)
Record Node : Type := mkNode {
  n_id : string;
  n_peers : list string;
  n_role : Role;
  n_term : Z;
  n_votedFor : option string;
  n_leaderID : option string;
  n_log : list Entry;
  n_commitIndex : Z;
  n_lastApplied : Z;
  n_lastQuorumAck : Z;
  n_repl : option replicationState;
  n_hasStore : bool;
  n_dirty : bool;
  n_lastIncludedIndex : Z;
  n_lastIncludedTerm : Z;
  n_hasSnapshotter : bool;
  n_hasSink : bool;
  n_resetElection : bool
}.

(** Assignments to groups of fields. *)
Definition set_vote (r : Role) (t : Z) (v l : option string) (d : bool) (n : Node) : Node :=
  mkNode (n_id n) (n_peers n) r t v l (n_log n) (n_commitIndex n) (n_lastApplied n) (n_lastQuorumAck n)
    (n_repl n) (n_hasStore n) d (n_lastIncludedIndex n) (n_lastIncludedTerm n) (n_hasSnapshotter n)
    (n_hasSink n) (n_resetElection n).
Definition set_log (l : list Entry) (n : Node) : Node :=
  mkNode (n_id n) (n_peers n) (n_role n) (n_term n) (n_votedFor n) (n_leaderID n) l (n_commitIndex n)
    (n_lastApplied n) (n_lastQuorumAck n) (n_repl n) (n_hasStore n) (n_dirty n) (n_lastIncludedIndex n)
    (n_lastIncludedTerm n) (n_hasSnapshotter n) (n_hasSink n) (n_resetElection n).
Definition set_commitIndex (c : Z) (n : Node) : Node :=
  mkNode (n_id n) (n_peers n) (n_role n) (n_term n) (n_votedFor n) (n_leaderID n) (n_log n) c
    (n_lastApplied n) (n_lastQuorumAck n) (n_repl n) (n_hasStore n) (n_dirty n) (n_lastIncludedIndex n)
    (n_lastIncludedTerm n) (n_hasSnapshotter n) (n_hasSink n) (n_resetElection n).
Definition set_lastApplied (a : Z) (n : Node) : Node :=
  mkNode (n_id n) (n_peers n) (n_role n) (n_term n) (n_votedFor n) (n_leaderID n) (n_log n) (n_commitIndex n)
    a (n_lastQuorumAck n) (n_repl n) (n_hasStore n) (n_dirty n) (n_lastIncludedIndex n)
    (n_lastIncludedTerm n) (n_hasSnapshotter n) (n_hasSink n) (n_resetElection n).
Definition set_quorumAck (t : Z) (n : Node) : Node :=
  mkNode (n_id n) (n_peers n) (n_role n) (n_term n) (n_votedFor n) (n_leaderID n) (n_log n) (n_commitIndex n)
    (n_lastApplied n) t (n_repl n) (n_hasStore n) (n_dirty n) (n_lastIncludedIndex n)
    (n_lastIncludedTerm n) (n_hasSnapshotter n) (n_hasSink n) (n_resetElection n).
Definition set_repl (r : replicationState) (n : Node) : Node :=
  mkNode (n_id n) (n_peers n) (n_role n) (n_term n) (n_votedFor n) (n_leaderID n) (n_log n) (n_commitIndex n)
    (n_lastApplied n) (n_lastQuorumAck n) (Some r) (n_hasStore n) (n_dirty n) (n_lastIncludedIndex n)
    (n_lastIncludedTerm n) (n_hasSnapshotter n) (n_hasSink n) (n_resetElection n).
Definition set_dirty (d : bool) (n : Node) : Node :=
  mkNode (n_id n) (n_peers n) (n_role n) (n_term n) (n_votedFor n) (n_leaderID n) (n_log n) (n_commitIndex n)
    (n_lastApplied n) (n_lastQuorumAck n) (n_repl n) (n_hasStore n) d (n_lastIncludedIndex n)
    (n_lastIncludedTerm n) (n_hasSnapshotter n) (n_hasSink n) (n_resetElection n).
Definition set_base (i t : Z) (n : Node) : Node :=
  mkNode (n_id n) (n_peers n) (n_role n) (n_term n) (n_votedFor n) (n_leaderID n) (n_log n) (n_commitIndex n)
    (n_lastApplied n) (n_lastQuorumAck n) (n_repl n) (n_hasStore n) (n_dirty n) i t (n_hasSnapshotter n)
    (n_hasSink n) (n_resetElection n).
Definition set_wiring (store snap sink : bool) (n : Node) : Node :=
  mkNode (n_id n) (n_peers n) (n_role n) (n_term n) (n_votedFor n) (n_leaderID n) (n_log n) (n_commitIndex n)
    (n_lastApplied n) (n_lastQuorumAck n) (n_repl n) store (n_dirty n) (n_lastIncludedIndex n)
    (n_lastIncludedTerm n) snap sink (n_resetElection n).
Definition resetElectionTimer (n : Node) : Node :=
  mkNode (n_id n) (n_peers n) (n_role n) (n_term n) (n_votedFor n) (n_leaderID n) (n_log n) (n_commitIndex n)
    (n_lastApplied n) (n_lastQuorumAck n) (n_repl n) (n_hasStore n) (n_dirty n) (n_lastIncludedIndex n)
    (n_lastIncludedTerm n) (n_hasSnapshotter n) (n_hasSink n) true.
(** The signal is received ([<-n.resetElection]). *)
Definition clear_reset (n : Node) : Node :=
  mkNode (n_id n) (n_peers n) (n_role n) (n_term n) (n_votedFor n) (n_leaderID n) (n_log n) (n_commitIndex n)
    (n_lastApplied n) (n_lastQuorumAck n) (n_repl n) (n_hasStore n) (n_dirty n) (n_lastIncludedIndex n)
    (n_lastIncludedTerm n) (n_hasSnapshotter n) (n_hasSink n) false.

(** ** types.go *)

Definition NewNode (id : string) (peers : list string) : Node :=
  let single := bool_decide (peers = []) in
  mkNode id peers (if single then RoleLeader else RoleFollower) 0 None
    (if single then Some id else None) [] 0 0 0 None false false 0 0 false false false.

Definition LeaderID (n : Node) : string * bool :=
  match n_leaderID n with
  | None => (""%string, false)
  | Some l => (l, bool_decide (n_role n = RoleLeader))
  end.

Definition HasLeader (n : Node) : bool := bool_decide (is_Some (n_leaderID n)).

Definition lastLogIndex (n : Node) : Z := n_lastIncludedIndex n + zlen (n_log n).

Definition lastLogTerm (n : Node) : Z :=
  match last (n_log n) with Some e => Term e | None => n_lastIncludedTerm n end.

Definition firstIndex (n : Node) : Z := n_lastIncludedIndex n + 1.

Definition logOffset (n : Node) (index : Z) : Z :=
  let off := index - n_lastIncludedIndex n - 1 in
  if (off <? 0) || (zlen (n_log n) <=? off) then -1 else off.

Definition entryAt (n : Node) (index : Z) : option Entry :=
  let off := logOffset n index in
  if 0 <=? off then n_log n !! Z.to_nat off else None.

Definition logTermAt (n : Node) (index : Z) : Z :=
  if index =? 0 then 0
  else if index =? n_lastIncludedIndex n then n_lastIncludedTerm n
  else match entryAt n index with Some e => Term e | None => -1 end.

Definition becomeCandidate (n : Node) : Node :=
  set_vote RoleCandidate (n_term n + 1) (Some (n_id n)) None true n.

Definition becomeLeader (n : Node) : Node :=
  set_vote RoleLeader (n_term n) (n_votedFor n) (Some (n_id n)) (n_dirty n) n.

Definition becomeFollower (term : Z) (leaderID : option string) (n : Node) : Node :=
  set_vote RoleFollower term None leaderID true n.

(** ** Durable state (persistence.go) *)

Record RaftState : Type := mkRaftState {
  rs_Term : Z;
  rs_VotedFor : option string;
  rs_Log : list Entry;
  rs_LastIncludedIndex : Z;
  rs_LastIncludedTerm : Z
}.

Global Instance RaftState_eq_dec : EqDecision RaftState.
Proof. solve_decision. Defined.

(** The [RaftState{}] literal. *)
Definition RaftState_zero : RaftState := mkRaftState 0 None [] 0 0.

Definition durable (n : Node) : RaftState :=
  mkRaftState (n_term n) (n_votedFor n) (n_log n) (n_lastIncludedIndex n) (n_lastIncludedTerm n).

(** What a call of [RaftStore.Save] did: it returned nil and the new state is
    on disk, or it returned an error and the disk holds the old state or, when
    the failure came after the rename, the new one. *)
Inductive save_outcome : Type := Saved | SaveFailed (landed : bool).

Definition Save_cell (o : save_outcome) (st d : RaftState) : bool * RaftState :=
  match o with
  | Saved => (true, st)
  | SaveFailed landed => (false, if landed then st else d)
  end.

(** [persist]: whether it returned nil, the node and the disk after it. *)
Definition persist (o : save_outcome) (n : Node) (d : RaftState) : bool * Node * RaftState :=
  if negb (n_hasStore n) || negb (n_dirty n) then (true, n, d)
  else
    let '(ok, d') := Save_cell o (durable n) d in
    (ok, if ok then set_dirty false n else n, d').

(** [SetRaftStore] with a store that holds [st]. *)
Definition SetRaftStore (st : RaftState) (n : Node) : Node :=
  let n := set_wiring true (n_hasSnapshotter n) (n_hasSink n) n in
  let n := set_vote (n_role n) (rs_Term st) (rs_VotedFor st) (n_leaderID n) (n_dirty n) n in
  let n := set_log (rs_Log st) n in
  let n := set_base (rs_LastIncludedIndex st) (rs_LastIncludedTerm st) n in
  let n := if n_commitIndex n <? rs_LastIncludedIndex st then set_commitIndex (rs_LastIncludedIndex st) n else n in
  if n_lastApplied n <? rs_LastIncludedIndex st then set_lastApplied (rs_LastIncludedIndex st) n else n.

(** ** node.go: RequestVote *)

Definition logFresh (req : VoteRequest) (n : Node) : bool :=
  (lastLogTerm n <? vq_LastLogTerm req)
  || ((vq_LastLogTerm req =? lastLogTerm n) && (lastLogIndex n <=? vq_LastLogIndex req)).

(** The part under the lock: the node, the response and whether the response
    waits for [persist]. *)
Definition vote_locked (req : VoteRequest) (n : Node) : Node * VoteResponse * bool :=
  if vq_Term req <? n_term n then (n, mkVoteResp (n_term n) false, false)
  else
    let n := if n_term n <? vq_Term req then becomeFollower (vq_Term req) None n else n in
    let notVotedYet :=
      match n_votedFor n with None => true | Some v => bool_decide (v = vq_CandidateID req) end in
    if notVotedYet && logFresh req n then
      let n := set_vote (n_role n) (n_term n) (Some (vq_CandidateID req)) (n_leaderID n) true n in
      let n := resetElectionTimer n in
      (n, mkVoteResp (n_term n) true, true)
    else (n, mkVoteResp (n_term n) false, false).

Definition HandleRequestVote (o : save_outcome) (req : VoteRequest) (n : Node) (d : RaftState) :
    VoteResponse * Node * RaftState :=
  let '(n, resp, wait) := vote_locked req n in
  if wait then
    let '(ok, n, d) := persist o n d in
    (if ok then resp else mkVoteResp (n_term n) false, n, d)
  else (resp, n, d).

(** ** follower.go *)

Definition checkPrevLog (prevLogIndex prevLogTerm : Z) (n : Node) : bool :=
  if lastLogIndex n <? prevLogIndex then false
  else if (0 <? prevLogIndex) && negb (logTermAt n prevLogIndex =? prevLogTerm) then false
  else true.

(** The loop of [mergeEntries], at the entry of raft index [idx]. *)
Fixpoint merge_loop (es : list Entry) (idx : Z) (changed : bool) (n : Node) : bool * Node :=
  match es with
  | [] => (changed, n)
  | e :: es' =>
      if idx <=? n_lastIncludedIndex n then merge_loop es' (idx + 1) changed n
      else if idx <=? lastLogIndex n then
        if logTermAt n idx =? Term e then merge_loop es' (idx + 1) changed n
        else
          let n := set_log (take (Z.to_nat (idx - n_lastIncludedIndex n - 1)) (n_log n)) n in
          (true, set_log (n_log n ++ e :: es') n)
      else (true, set_log (n_log n ++ e :: es') n)
  end.

(** The suffix beyond what the leader sent is dropped first. *)
Definition merge_cut (end_ : Z) (n : Node) : bool * Node :=
  if end_ <? lastLogIndex n then
    let keep := end_ - n_lastIncludedIndex n in
    let keep := if keep <? 0 then 0 else keep in
    (true, set_log (take (Z.to_nat keep) (n_log n)) n)
  else (false, n).

Definition mergeEntries (req : AppendEntriesRequest) (n : Node) : bool * Node :=
  let end_ := aq_PrevLogIndex req + zlen (aq_Entries req) in
  let '(changed, n) := merge_cut end_ n in
  merge_loop (aq_Entries req) (aq_PrevLogIndex req + 1) changed n.

(** ** node.go: AppendEntries *)

(** Becoming a follower of the sender, shared by the two inbound RPCs of a
    leader. *)
Definition follow (term : Z) (leader : string) (n : Node) : Node :=
  let n :=
    if (n_term n <? term) || negb (bool_decide (n_role n = RoleFollower))
    then becomeFollower term (Some leader) n
    else set_vote (n_role n) (n_term n) (n_votedFor n) (Some leader) (n_dirty n) n in
  resetElectionTimer n.

Definition advance_commit (leaderCommit : Z) (n : Node) : Node :=
  let last := lastLogIndex n in
  set_commitIndex (if leaderCommit <? last then leaderCommit else last) n.

Definition append_locked (req : AppendEntriesRequest) (n : Node) : Node * AppendEntriesResponse * bool :=
  if aq_Term req <? n_term n then (n, mkAppendResp (n_term n) false, false)
  else
    let n := follow (aq_Term req) (aq_LeaderID req) n in
    if negb (checkPrevLog (aq_PrevLogIndex req) (aq_PrevLogTerm req) n)
    then (n, mkAppendResp (n_term n) false, false)
    else
      let '(changed, n) := mergeEntries req n in
      let n := if changed then set_dirty true n else n in
      let '(changed, n) :=
        if n_commitIndex n <? aq_LeaderCommit req
        then (true, set_dirty true (advance_commit (aq_LeaderCommit req) n))
        else (changed, n) in
      (n, mkAppendResp (n_term n) true, changed).

Definition HandleAppendEntries (o : save_outcome) (req : AppendEntriesRequest) (n : Node) (d : RaftState) :
    AppendEntriesResponse * Node * RaftState :=
  let '(n, resp, changed) := append_locked req n in
  if changed then
    let '(ok, n, d) := persist o n d in
    (if ok then resp else mkAppendResp (n_term n) false, n, d)
  else (resp, n, d).

(** ** snapshot.go *)

Definition SetSnapshotter (n : Node) : Node := set_wiring (n_hasStore n) true (n_hasSink n) n.
Definition SetSnapshotSink (n : Node) : Node := set_wiring (n_hasStore n) (n_hasSnapshotter n) true n.

(** [commitIndex] and [lastApplied] are raised to a new base. *)
Definition raise_base (i : Z) (n : Node) : Node :=
  let n := if n_commitIndex n <? i then set_commitIndex i n else n in
  if n_lastApplied n <? i then set_lastApplied i n else n.

Definition CompactLog (lastIncludedIndex lastIncludedTerm : Z) (n : Node) : Node :=
  if lastIncludedIndex <=? n_lastIncludedIndex n then n
  else
    let '(term, n) :=
      if lastLogIndex n <=? lastIncludedIndex then (lastLogTerm n, set_log [] n)
      else (lastIncludedTerm,
            set_log (drop (Z.to_nat (lastIncludedIndex - n_lastIncludedIndex n)) (n_log n)) n) in
    set_dirty true (raise_base lastIncludedIndex (set_base lastIncludedIndex term n)).

(** A snapshot that advances the state machine becomes the base of the log. *)
Definition adopt_base (i t : Z) (n : Node) : Node :=
  let drop_ := i - n_lastIncludedIndex n in
  let drop_ := if zlen (n_log n) <? drop_ then zlen (n_log n) else drop_ in
  let n := set_log (drop (Z.to_nat drop_) (n_log n)) n in
  set_dirty true (raise_base i (set_base i t n)).

(** The first locked part of [HandleInstallSnapshot]: the node, the response,
    and [None] when the handler returns at once, otherwise whether the data
    goes to the sink before the state is persisted. *)
Definition install_locked (req : InstallSnapshotRequest) (n : Node) :
    Node * InstallSnapshotResponse * option bool :=
  if iq_Term req <? n_term n then (n, mkInstallResp (n_term n) false, None)
  else
    let n := follow (iq_Term req) (iq_LeaderID req) n in
    let installed := n_lastApplied n <? iq_LastIncludedIndex req in
    let n := if installed then adopt_base (iq_LastIncludedIndex req) (iq_LastIncludedTerm req) n else n in
    (n, mkInstallResp (n_term n) true, Some (installed && n_hasSink n)).

(** The whole handler, with the sink's [ApplySnapshot] as a function on the
    state machine [S] that returns its error (which is logged). *)
Definition HandleInstallSnapshot {S} (ApplySnapshot : bytes → S → res unit * S) (o : save_outcome)
    (req : InstallSnapshotRequest) (n : Node) (d : RaftState) (s : S) :
    InstallSnapshotResponse * Node * RaftState * S :=
  let '(n, resp, rest) := install_locked req n in
  match rest with
  | None => (resp, n, d, s)
  | Some restore =>
      let s := if restore then (ApplySnapshot (iq_Data req) s).2 else s in
      let '(_, n, d) := persist o n d in
      (resp, n, d, s)
  end.

(** ** Accessors (leader.go, apply.go) *)

Definition Leader (n : Node) : string := default ""%string (n_leaderID n).
Definition IsLeader (n : Node) : bool := bool_decide (n_role n = RoleLeader).
Definition Node_Term (n : Node) : Z := n_term n.
Definition LogEntry (n : Node) (i : Z) : option Entry := entryAt n i.
Definition ApplyIndex (n : Node) : Z := n_lastApplied n.
Definition SnapshotBase (n : Node) : Z := n_lastIncludedIndex n.
Definition LogTerm (n : Node) (i : Z) : Z := logTermAt n i.
Definition Flush (o : save_outcome) (n : Node) (d : RaftState) : bool * Node * RaftState := persist o n d.
