(* ===== verification/RaftLeader.v ===== *)
(** * RaftLeader: elections, replication, commit and apply

    The outbound half of pkg/raft: election.go, leader.go, commit.go, apply.go
    and the sending side of snapshot.go.  A call that releases [n.mu] to talk
    to a peer or to the disk is split at those points, and the whole call is
    the composition of its parts for a node nobody else touches meanwhile.
    Readings of the clock are arguments, in nanoseconds. *)

From S2P Require Import Prelude GoLib Engine RaftNode.

(** ** election.go *)

Definition electionTimeoutMin : Z := 500 * 1000000.
Definition electionTimeoutMax : Z := 1000 * 1000000.

(** [electionTimeout] for the value [r] drawn by [rand.IntN(spread)]. *)
Definition electionTimeout_spread : Z := (electionTimeoutMax - electionTimeoutMin) / 1000000.
Definition electionTimeout (r : Z) : Z := electionTimeoutMin + r * 1000000.

Definition majority (peers : list string) : Z := (zlen peers + 1) / 2 + 1.

(** [startElection] up to the first unlock. *)
Definition election_begin (n : Node) : Node * VoteRequest :=
  let n := becomeCandidate n in
  (n, mkVoteReq (n_term n) (n_id n) (lastLogIndex n) (lastLogTerm n)).

(** One iteration of the loop over the responses: [None] when the call
    returns because a peer has a higher term. *)
Definition election_response (resp : VoteResponse) (votes : Z) (n : Node) : option Z * Node :=
  if n_term n <? vr_Term resp then (None, becomeFollower (vr_Term resp) None n)
  else (Some (if vr_VoteGranted resp then votes + 1 else votes), n).

(** The tail of [startElection]. *)
Definition election_end (req : VoteRequest) (votes quorum : Z) (n : Node) : Node :=
  if (quorum <=? votes) && bool_decide (n_role n = RoleCandidate) && (n_term n =? vq_Term req)
  then becomeLeader n
  else becomeFollower (n_term n) None n.

(** The loop: the responses that arrive, in order; a peer that fails to
    answer contributes none. *)
Fixpoint election_tally (o : save_outcome) (req : VoteRequest) (quorum votes : Z)
    (resps : list VoteResponse) (n : Node) (d : RaftState) : Node * RaftState :=
  match resps with
  | [] => (election_end req votes quorum n, d)
  | resp :: resps =>
      match election_response resp votes n with
      | (None, n) => let '(_, n, d) := persist o n d in (n, d)
      | (Some votes, n) =>
          if quorum <=? votes then (election_end req votes quorum n, d)
          else election_tally o req quorum votes resps n d
      end
  end.

Definition startElection (o1 o2 : save_outcome) (resps : list VoteResponse) (n : Node) (d : RaftState) :
    Node * RaftState :=
  let quorum := majority (n_peers n) in
  let '(n, req) := election_begin n in
  let '(ok, n, d) := persist o1 n d in
  if ok then election_tally o2 req quorum 1 resps n d else (n, d).

(** The end of [sendHeartbeats], once every [replicateToPeer] returned;
    [acks] counts the node itself and the ones that returned true. *)
Definition heartbeat_end (now acks : Z) (n : Node) : Node :=
  if bool_decide (n_role n = RoleLeader) && (majority (n_peers n) <=? acks)
  then set_quorumAck now n else n.

(** The check of [Loop] after the heartbeats. *)
Definition quorum_check (now : Z) (n : Node) : Node :=
  if bool_decide (n_role n = RoleLeader) && (electionTimeoutMin <? now - n_lastQuorumAck n)
  then becomeFollower (n_term n) None n else n.

(** ** leader.go: replication state *)

Definition maxReplBackoff : Z := 64.

Definition replState_init (n : Node) : replicationState :=
  mkRepl (foldl (λ m p, <[p := lastLogIndex n + 1]> m) ∅ (n_peers n)) ∅ ∅ ∅.

(** [replState]: the state, and the node that holds it from now on. *)
Definition replState (n : Node) : replicationState * Node :=
  match n_repl n with
  | Some st => (st, n)
  | None => let st := replState_init n in (st, set_repl st n)
  end.

Definition set_flying (p : string) (b : bool) (st : replicationState) : replicationState :=
  mkRepl (nextIndex st) (matchIndex st) (<[p := b]> (inFlight st)) (backoff st).
Definition set_next (p : string) (i : Z) (st : replicationState) : replicationState :=
  mkRepl (<[p := i]> (nextIndex st)) (matchIndex st) (inFlight st) (backoff st).
Definition set_match (p : string) (i : Z) (st : replicationState) : replicationState :=
  mkRepl (nextIndex st) (<[p := i]> (matchIndex st)) (inFlight st) (backoff st).
Definition set_backoff (p : string) (b : Z) (st : replicationState) : replicationState :=
  mkRepl (nextIndex st) (matchIndex st) (inFlight st) (<[p := b]> (backoff st)).

(** ** commit.go *)

Definition commit_threshold (n : Node) (st : replicationState) : Z :=
  let match_ := lastLogIndex n :: ((λ p, at0 (matchIndex st) p) <$> n_peers n) in
  let sorted := go_sort Z.le match_ in
  default 0 (sorted !! Z.to_nat (zlen match_ - majority (n_peers n))).

Definition maybeCommit (n : Node) : Node :=
  if negb (bool_decide (n_role n = RoleLeader)) then n
  else
    let '(st, n) := replState n in
    let threshold := commit_threshold n st in
    if threshold <=? n_commitIndex n then n
    else if (0 <? threshold)
         && match entryAt n threshold with Some e => negb (Term e =? n_term n) | None => true end
    then n
    else set_commitIndex threshold n.

(** ** leader.go: replicateToPeer *)

Inductive repl_begin : Type :=
| ReplReturn (acked : bool)
| ReplInstall
| ReplSend (req : AppendEntriesRequest).

(** One iteration up to the call of the transport. *)
Definition replicate_begin (peer : string) (n : Node) : Node * repl_begin :=
  if negb (bool_decide (n_role n = RoleLeader)) then (n, ReplReturn false)
  else
    let '(st, n) := replState n in
    if flying st peer then (n, ReplReturn false)
    else
      let next := at0 (nextIndex st) peer in
      let next := if next <? 1 then 1 else next in
      if next <? firstIndex n then (n, ReplInstall)
      else
        let prevLogIndex := next - 1 in
        let prevLogTerm := logTermAt n prevLogIndex in
        let entries :=
          if next <=? lastLogIndex n then drop (Z.to_nat (next - firstIndex n)) (n_log n) else [] in
        let req :=
          mkAppendReq (n_term n) (n_id n) prevLogIndex prevLogTerm entries (n_commitIndex n) in
        (set_repl (set_flying peer true st) n, ReplSend req).

(** The same iteration after the transport returned ([None]: with an error);
    the result is what the call returns, or [None] when the loop continues. *)
Definition replicate_end (peer : string) (req : AppendEntriesRequest)
    (resp : option AppendEntriesResponse) (n : Node) : Node * option bool :=
  let '(st, n) := replState n in
  let st := set_flying peer false st in
  match resp with
  | None => (set_repl st n, Some false)
  | Some resp =>
      if n_term n <? ar_Term resp then (becomeFollower (ar_Term resp) None (set_repl st n), Some false)
      else if ar_Term resp <? n_term n then (set_repl st n, Some false)
      else if negb (ar_Success resp) then
        let step := at0 (backoff st) peer in
        let step := if step =? 0 then 1 else step in
        let st :=
          if step <? at0 (nextIndex st) peer then set_next peer (at0 (nextIndex st) peer - step) st
          else set_next peer 1 st in
        let st := if step <? maxReplBackoff then set_backoff peer (step * 2) st else st in
        (set_repl st n, if maxReplBackoff <=? step then Some false else None)
      else
        let st := set_backoff peer 0 st in
        let matched := aq_PrevLogIndex req + zlen (aq_Entries req) in
        let st := if at0 (matchIndex st) peer <? matched then set_match peer matched st else st in
        let st := if at0 (nextIndex st) peer <? matched + 1 then set_next peer (matched + 1) st else st in
        (maybeCommit (set_repl st n), Some true)
  end.

(** ** snapshot.go: the sending side *)

Record SnapshotMeta : Type := mkSnap {
  sn_LastIncludedIndex : Z; sn_LastIncludedTerm : Z; sn_Data : bytes
}.

(** Up to the first unlock: whether the call goes on. *)
Definition install_check (peer : string) (n : Node) : Node * bool :=
  if negb (bool_decide (n_role n = RoleLeader)) || negb (n_hasSnapshotter n) then (n, false)
  else let '(st, n) := replState n in (n, negb (flying st peer)).

(** From the snapshot to the call of the transport. *)
Definition install_begin (peer : string) (snap : SnapshotMeta) (n : Node) :
    Node * option InstallSnapshotRequest :=
  let '(st, n) := replState n in
  if flying st peer then (n, None)
  else
    let req := mkInstallReq (n_term n) (n_id n) (sn_LastIncludedIndex snap) (sn_LastIncludedTerm snap)
                 (sn_Data snap) in
    (set_repl (set_flying peer true st) n, Some req).

(** After the transport returned. *)
Definition install_end (peer : string) (snap : SnapshotMeta) (resp : option InstallSnapshotResponse)
    (n : Node) : Node * bool :=
  let '(st, n) := replState n in
  let st := set_flying peer false st in
  match resp with
  | None => (set_repl st n, false)
  | Some resp =>
      if n_term n <? ir_Term resp then (becomeFollower (ir_Term resp) None (set_repl st n), false)
      else if (ir_Term resp <? n_term n) || negb (ir_Success resp) then (set_repl st n, false)
      else
        let i := sn_LastIncludedIndex snap in
        let st := if at0 (matchIndex st) peer <? i then set_match peer i st else st in
        let st := if at0 (nextIndex st) peer <? i + 1 then set_next peer (i + 1) st else st in
        let st := set_backoff peer 0 st in
        (maybeCommit (set_repl st n), true)
  end.

(** A transport that answers, and a provider of snapshots. *)
Record Remote : Type := mkRemote {
  rm_AppendEntries : nat → string → AppendEntriesRequest → option AppendEntriesResponse;
  rm_InstallSnapshot : nat → string → InstallSnapshotRequest → option InstallSnapshotResponse;
  rm_Snapshot : option SnapshotMeta
}.

Definition installSnapshot (rm : Remote) (calls : nat) (peer : string) (n : Node) : Node * bool * nat :=
  let '(n, go) := install_check peer n in
  if negb go then (n, false, calls)
  else
    match rm_Snapshot rm with
    | None => (n, false, calls)
    | Some snap =>
        match install_begin peer snap n with
        | (n, None) => (n, false, calls)
        | (n, Some req) =>
            let '(n, b) := install_end peer snap (rm_InstallSnapshot rm calls peer req) n in
            (n, b, S calls)
        end
    end.

(** The whole loop: [None] when the fuel ran out, otherwise the node, what the
    call returned and the number of RPCs sent so far. *)
Fixpoint replicateToPeer (fuel : nat) (rm : Remote) (calls : nat) (peer : string) (n : Node) :
    option (Node * bool * nat) :=
  match fuel with
  | O => None
  | S fuel =>
      match replicate_begin peer n with
      | (n, ReplReturn b) => Some (n, b, calls)
      | (n, ReplInstall) => Some (installSnapshot rm calls peer n)
      | (n, ReplSend req) =>
          match replicate_end peer req (rm_AppendEntries rm calls peer req) n with
          | (n, Some b) => Some (n, b, S calls)
          | (n, None) => replicateToPeer fuel rm (S calls) peer n
          end
      end
  end.

(** ** election.go: heartbeats and the loop

    The goroutines of a round of heartbeats one after the other, in the order
    of the peers. *)
Fixpoint heartbeat_peers (fuel : nat) (rm : Remote) (calls : nat) (peers : list string) (acks : Z) (n : Node) :
    option (Node * Z * nat) :=
  match peers with
  | [] => Some (n, acks, calls)
  | peer :: peers =>
      match replicateToPeer fuel rm calls peer n with
      | None => None
      | Some (n, acked, calls) => heartbeat_peers fuel rm calls peers (if acked then acks + 1 else acks) n
      end
  end.

Definition sendHeartbeats (fuel : nat) (rm : Remote) (calls : nat) (now : Z) (n : Node) : option (Node * nat) :=
  if negb (bool_decide (n_role n = RoleLeader)) then Some (n, calls)
  else
    match heartbeat_peers fuel rm calls (n_peers n) 1 n with
    | None => None
    | Some (n, acks, calls) => Some (heartbeat_end now acks n, calls)
    end.

(** The two timer cases of [Loop]. *)
Definition Loop_election (o1 o2 : save_outcome) (resps : list VoteResponse) (n : Node) (d : RaftState) :
    Node * RaftState :=
  if bool_decide (n_role n = RoleLeader) then (n, d) else startElection o1 o2 resps n d.

Definition Loop_heartbeat (fuel : nat) (rm : Remote) (calls : nat) (now1 now2 : Z) (n : Node) : option (Node * nat) :=
  if negb (bool_decide (n_role n = RoleLeader)) then Some (n, calls)
  else
    match sendHeartbeats fuel rm calls now1 n with
    | None => None
    | Some (n, calls) => Some (quorum_check now2 n, calls)
    end.
