(* ===== verification/RaftApply.v ===== *)
(** * RaftApply: proposals and the apply loop

    The client side of leader.go ([propose], [proposeWait] and the [Engine]
    methods built on them) and apply.go, over any [Engine] as the state
    machine.  [proposeWait] and [applyLoop] are split where they release the
    locks, so that the steps of other goroutines can come in between. *)

From S2P Require Import Prelude GoLib Engine RaftNode RaftLeader.

(** The values an applied command may produce ([any]). *)
Inductive any : Type := ANil | AInt (v : Z) | ABool (b : bool).

Global Instance any_eq_dec : EqDecision any.
Proof. solve_decision. Defined.

(** A call that returns, or panics (a failed type assertion). *)
Inductive outcome (A : Type) : Type := Returns (r : res A) | Panics.
Arguments Returns {A} r.
Arguments Panics {A}.

Definition err_persist : go_error := ErrMsg "raft: could not persist log entry".
Definition err_no_apply_loop : go_error := ErrMsg "raft: apply loop not started".
Definition err_timeout : go_error := ErrMsg "raft: entry not applied within timeout".
Definition err_stopped : go_error := ErrMsg "raft: node stopped".
Definition err_no_result : go_error := ErrMsg "raft: no apply result recorded for index".

(** ** The tracker

    A channel is a number; [closed] holds the closed ones. *)
Record ApplyTracker : Type := mkTracker {
  waiters : gmap Z (list nat);
  results : gmap Z (res any);
  chans : nat;
  closed : list nat
}.

Definition newApplyTracker : ApplyTracker := mkTracker ∅ ∅ 0 [].

(** [StartApply]: the node's tracker is a fresh one; the loop is [applyLoop]. *)
Definition StartApply : ApplyTracker := newApplyTracker.

Definition WaitIndex (i : Z) (t : ApplyTracker) : nat * ApplyTracker :=
  let ch := chans t in
  (ch, mkTracker (<[i := default [] (waiters t !! i) ++ [ch]]> (waiters t)) (results t) (S ch) (closed t)).

Definition Result (i : Z) (t : ApplyTracker) : res any :=
  match results t !! i with None => Err err_no_result | Some r => r end.

Definition applied (i : Z) (r : res any) (t : ApplyTracker) : ApplyTracker :=
  mkTracker (delete i (waiters t)) (<[i := r]> (results t)) (chans t)
    (closed t ++ default [] (waiters t !! i)).

Section statemachine.
Context `{Engine SM}.

(** ** applyCmd *)
Definition applyCmd (now : Z) (cmd : Command) (s : SM) : res any * SM :=
  match cmd_Op cmd with
  | OpPut => let '(r, s) := ePut now (cmd_Key cmd) (cmd_Value cmd) s in (let! _ := r in Ok ANil, s)
  | OpDelete => let '(r, s) := eDelete now (cmd_Key cmd) s in (let! _ := r in Ok ANil, s)
  | OpClear => let '(r, s) := eClear now s in (let! _ := r in Ok ANil, s)
  | OpIncr => let '(r, s) := eIncr now (cmd_Key cmd) s in (let! v := r in Ok (AInt v), s)
  | OpCAS => let '(r, s) := eCAS now (cmd_Key cmd) (cmd_Old cmd) (cmd_Value cmd) s in
             (let! b := r in Ok (ABool b), s)
  | OpExpire => let '(r, s) := eExpire now (cmd_Key cmd) (cmd_ExpiresAt cmd) s in
                (let! _ := r in Ok ANil, s)
  | OpOther _ => (Err (ErrMsg "raft: unknown command op"), s)
  end.

(** ** propose *)

(** The error of a node that is not the leader. *)
Definition not_leader (n : Node) : go_error := NotLeaderError (default ""%string (n_leaderID n)).

(** The entry appended by the leader. *)
Definition append_entry (cmd : Command) (n : Node) : Node :=
  set_dirty true (set_log (n_log n ++ [mkEntry (n_term n) cmd]) n).

(** [propose]: the result, the node, the disk and the state machine, and
    whether replication to the peers was started. *)
Definition propose (now : Z) (o : save_outcome) (cmd : Command) (n : Node) (d : RaftState) (s : SM) :
    res unit * Node * RaftState * SM * bool :=
  if negb (bool_decide (n_role n = RoleLeader)) then (Err (not_leader n), n, d, s, false)
  else
    let n := append_entry cmd n in
    if bool_decide (n_peers n = []) then
      let n := set_commitIndex (lastLogIndex n) n in
      let '(r, s) := applyCmd now cmd s in
      (let! _ := r in Ok (), n, d, s, false)
    else
      let '(ok, n, d) := persist o n d in
      if ok then (Ok (), n, d, s, true) else (Err err_persist, n, d, s, false).

(** ** proposeWait *)

Inductive proposal : Type :=
| Done (r : res any)                 (* the call returned *)
| Waiting (idx : Z) (ch : nat).      (* blocked in the select *)

(** Up to the [select]; [tr] is [n.applyTr], [None] before [StartApply]. *)
Definition proposeWait_begin (now : Z) (o : save_outcome) (cmd : Command) (n : Node) (d : RaftState)
    (s : SM) (tr : option ApplyTracker) : proposal * Node * RaftState * SM * option ApplyTracker :=
  if negb (bool_decide (n_role n = RoleLeader)) then (Done (Err (not_leader n)), n, d, s, tr)
  else
    let n := append_entry cmd n in
    let idx := lastLogIndex n in
    if bool_decide (n_peers n = []) then
      let n := set_commitIndex idx n in
      let '(r, s) := applyCmd now cmd s in
      (Done r, n, d, s, tr)
    else
      match tr with
      | None => (Done (Err err_no_apply_loop), n, d, s, tr)
      | Some t =>
          let '(ch, t) := WaitIndex idx t in
          let '(ok, n, d) := persist o n d in
          if ok then (Waiting idx ch, n, d, s, Some t)
          else (Done (Err err_persist), n, d, s, Some t)
      end.

(** The cases of the [select]; [None]: that case is not ready. *)
Inductive select_case : Type := CaseApplied | CaseTimeout | CaseStopped.

Definition proposeWait_end (c : select_case) (idx : Z) (ch : nat) (t : ApplyTracker) : option (res any) :=
  match c with
  | CaseApplied => if decide (ch ∈ closed t) then Some (Result idx t) else None
  | CaseTimeout => Some (Err err_timeout)
  | CaseStopped => Some (Err err_stopped)
  end.

(** The type assertions of [Incr] and [CAS] on what [proposeWait] returned. *)
Definition Incr_return (r : res any) : outcome Z :=
  match r with
  | Err e => Returns (Err e)
  | Ok (AInt v) => Returns (Ok v)
  | Ok _ => Panics
  end.
Definition CAS_return (r : res any) : outcome bool :=
  match r with
  | Err e => Returns (Err e)
  | Ok (ABool b) => Returns (Ok b)
  | Ok _ => Panics
  end.
Definition Expire_return (r : res any) : outcome unit :=
  match r with Err e => Returns (Err e) | Ok _ => Returns (Ok ()) end.

Definition Put_cmd (k v : string) : Command := mkCommand OpPut k "" v 0.
Definition Delete_cmd (k : string) : Command := mkCommand OpDelete k "" "" 0.
Definition Clear_cmd : Command := mkCommand OpClear "" "" "" 0.
Definition Incr_cmd (k : string) : Command := mkCommand OpIncr k "" "" 0.
Definition CAS_cmd (k old new : string) : Command := mkCommand OpCAS k old new 0.
Definition Expire_cmd (k : string) (expiresAt : Z) : Command := mkCommand OpExpire k "" "" expiresAt.

(** ** applyLoop *)

(** The first locked part of an iteration: the index and the entry picked. *)
Definition apply_pick (n : Node) : option (Z * option Entry) :=
  if n_commitIndex n <=? n_lastApplied n then None
  else let idx := n_lastApplied n + 1 in Some (idx, entryAt n idx).

(** [lastApplied] after the store write. *)
Definition apply_finish (idx : Z) (n : Node) : Node :=
  if n_lastApplied n <? idx then set_lastApplied idx n else n.

(** The rest of the iteration, which holds [applyMu] throughout. *)
Definition apply_rest (now : Z) (idx : Z) (entry : option Entry) (n : Node) (s : SM) (t : ApplyTracker) :
    Node * SM * ApplyTracker :=
  if idx <=? n_lastApplied n then (n, s, applied idx (Ok ANil) t)
  else
    match entry with
    | None => (apply_finish idx n, s, applied idx (Ok ANil) t)
    | Some e =>
        let '(r, s) := applyCmd now (Cmd e) s in
        (apply_finish idx n, s, applied idx r t)
    end.

(** A whole iteration with nothing in between. *)
Definition apply_iter (now : Z) (n : Node) (s : SM) (t : ApplyTracker) : Node * SM * ApplyTracker :=
  match apply_pick n with
  | None => (n, s, t)
  | Some (idx, entry) => apply_rest now idx entry n s t
  end.

(** The loop for a clock reading per iteration. *)
Fixpoint applyLoop (clock : list Z) (n : Node) (s : SM) (t : ApplyTracker) : Node * SM * ApplyTracker :=
  match clock with
  | [] => (n, s, t)
  | now :: clock => let '(n, s, t) := apply_iter now n s t in applyLoop clock n s t
  end.
End statemachine.
