(* ===== verification/RaftLog.v ===== *)
(** * RaftLog: what the inbound handlers do to the log

    The lemmas on indices ([entryAt], [logTermAt]), the specification of
    [mergeEntries], and the theorems on AppendEntries, log compaction and
    snapshot installation. *)

From S2P Require Import Prelude GoLib Engine RaftNode RaftLeader.

(** ** Indices *)

Lemma entryAt_lookup n i :
  entryAt n i =
    if decide (n_lastIncludedIndex n < i) then n_log n !! Z.to_nat (i - n_lastIncludedIndex n - 1) else None.
Proof.
  unfold entryAt, logOffset. case_decide as Hi.
  - destruct (_ <? 0) eqn:E1; [lia|]. simpl.
    destruct (zlen _ <=? _) eqn:E2; simpl.
    + symmetry. apply lookup_ge_None. unfold zlen in E2. lia.
    + destruct (0 <=? _) eqn:E3; [done|lia].
  - destruct (_ <? 0) eqn:E1; [done|lia].
Qed.

Lemma entryAt_Some_range n i e :
  entryAt n i = Some e → n_lastIncludedIndex n < i <= lastLogIndex n.
Proof.
  rewrite entryAt_lookup. case_decide; [|done]. intros Hl%lookup_lt_Some.
  unfold lastLogIndex, zlen. lia.
Qed.

Lemma entryAt_is_Some n i : n_lastIncludedIndex n < i <= lastLogIndex n → is_Some (entryAt n i).
Proof.
  intros Hi. rewrite entryAt_lookup. rewrite decide_True by lia. apply lookup_lt_is_Some.
  unfold lastLogIndex, zlen in Hi. lia.
Qed.

Lemma entryAt_None n i : entryAt n i = None ↔ ¬ (n_lastIncludedIndex n < i <= lastLogIndex n).
Proof.
  split.
  - intros Hn Hr. destruct (entryAt_is_Some n i Hr). congruence.
  - intros Hr. destruct (entryAt n i) eqn:E; [|done]. destruct Hr. by eapply entryAt_Some_range.
Qed.

Lemma logTermAt_entry n i e :
  0 <= n_lastIncludedIndex n → entryAt n i = Some e → logTermAt n i = Term e.
Proof.
  intros H0 He. pose proof (entryAt_Some_range _ _ _ He). unfold logTermAt.
  rewrite He, (proj2 (Z.eqb_neq i 0)), (proj2 (Z.eqb_neq i (n_lastIncludedIndex n))) by lia. done.
Qed.

(** Only the log and the base matter to a lookup. *)
Lemma entryAt_ext n n' i :
  n_log n' = n_log n → n_lastIncludedIndex n' = n_lastIncludedIndex n → entryAt n' i = entryAt n i.
Proof. intros Hl Hb. by rewrite !entryAt_lookup, Hl, Hb. Qed.

Lemma lastLogIndex_ext n n' :
  n_log n' = n_log n → n_lastIncludedIndex n' = n_lastIncludedIndex n → lastLogIndex n' = lastLogIndex n.
Proof. unfold lastLogIndex. by intros -> ->. Qed.

Lemma entryAt_app_l n l i :
  i <= lastLogIndex n → entryAt (set_log (n_log n ++ l) n) i = entryAt n i.
Proof.
  intros Hi. rewrite !entryAt_lookup. simpl. case_decide; [|done].
  apply lookup_app_l. unfold lastLogIndex, zlen in Hi. lia.
Qed.

Lemma entryAt_app_r n l k :
  (k < length l)%nat →
  entryAt (set_log (n_log n ++ l) n) (lastLogIndex n + 1 + Z.of_nat k) = l !! k.
Proof.
  intros Hk. rewrite entryAt_lookup. unfold lastLogIndex, zlen. simpl.
  rewrite decide_True by lia. rewrite lookup_app_r by lia. f_equal. lia.
Qed.

(** Cutting the log after index [m]. *)
Lemma entryAt_take n m i :
  n_lastIncludedIndex n <= m → i <= m →
  entryAt (set_log (take (Z.to_nat (m - n_lastIncludedIndex n)) (n_log n)) n) i = entryAt n i.
Proof.
  intros Hm Hi. rewrite !entryAt_lookup. simpl. case_decide; [|done].
  apply lookup_take_lt. lia.
Qed.

Lemma lastLogIndex_take n m :
  n_lastIncludedIndex n <= m <= lastLogIndex n →
  lastLogIndex (set_log (take (Z.to_nat (m - n_lastIncludedIndex n)) (n_log n)) n) = m.
Proof. intros Hm. unfold lastLogIndex in *. simpl. zlia. Qed.

(** ** mergeEntries *)

(** What holds of the entry [e] sent for index [i] once it is merged: the log
    has an entry of its term there, which is [e] or was there before. *)
Definition merged (n n' : Node) (i : Z) (e : Entry) : Prop :=
  ∃ e', entryAt n' i = Some e' ∧ Term e' = Term e ∧ (e' = e ∨ entryAt n i = Some e').

(** Appending [e :: es] after index [idx - 1], the last one of [n]. *)
Lemma append_tail_spec n e es idx :
  idx = lastLogIndex n + 1 →
  let n' := set_log (n_log n ++ e :: es) n in
  (∀ i, i < idx → entryAt n' i = entryAt n i) ∧
  (∀ k x, (e :: es) !! k = Some x → entryAt n' (idx + Z.of_nat k) = Some x) ∧
  lastLogIndex n' = idx + zlen es.
Proof.
  intros -> n'. split_and!.
  - intros i Hi. apply entryAt_app_l. lia.
  - intros k x Hx. rewrite <- Hx. apply entryAt_app_r. by apply lookup_lt_Some in Hx.
  - unfold n', lastLogIndex. simpl. zlia.
Qed.

Lemma merge_loop_frame es idx ch n : (merge_loop es idx ch n).2 = set_log (n_log (merge_loop es idx ch n).2) n.
Proof.
  revert idx; induction es as [|e es IH]; intros idx; simpl; [by destruct n|].
  repeat case_match; simpl; try apply IH; try done.
Qed.

Lemma merge_loop_unchanged es idx ch n :
  (merge_loop es idx ch n).1 = false → ch = false ∧ (merge_loop es idx ch n).2 = n.
Proof.
  revert idx; induction es as [|e es IH]; intros idx; simpl; [done|].
  repeat case_match; simpl; try apply IH; try done.
Qed.

Lemma merge_loop_spec es idx ch n :
  0 <= n_lastIncludedIndex n → idx <= lastLogIndex n + 1 →
  lastLogIndex n <= Z.max (n_lastIncludedIndex n) (idx + zlen es - 1) →
  let n' := (merge_loop es idx ch n).2 in
  (∀ i, i < idx → entryAt n' i = entryAt n i) ∧
  (∀ k e, es !! k = Some e → n_lastIncludedIndex n < idx + Z.of_nat k → merged n n' (idx + Z.of_nat k) e) ∧
  lastLogIndex n' = Z.max (n_lastIncludedIndex n) (idx + zlen es - 1).
Proof.
  intros Hb. revert idx; induction es as [|e es IH]; intros idx Hidx Hlast; simpl.
  { split_and!; [done..|]. revert Hlast Hidx. unfold lastLogIndex. zlia. }
  rewrite zlen_cons in Hlast |- *.
  assert (Hskip : idx <= lastLogIndex n → merged n (merge_loop es (idx + 1) ch n).2 idx e ∨ idx <= n_lastIncludedIndex n →
    let n' := (merge_loop es (idx + 1) ch n).2 in
    (∀ i, i < idx → entryAt n' i = entryAt n i) ∧
    (∀ k x, (e :: es) !! k = Some x → n_lastIncludedIndex n < idx + Z.of_nat k → merged n n' (idx + Z.of_nat k) x) ∧
    lastLogIndex n' = Z.max (n_lastIncludedIndex n) (idx + (1 + zlen es) - 1)).
  { intros Hin Hm. destruct (IH (idx + 1)) as (H1 & H2 & H3); [lia|lia|]. split_and!.
    - intros i Hi. apply H1. lia.
    - intros [|k] x Hx Hk; simpl in Hx.
      + simplify_eq. rewrite Z.add_0_r in *. destruct Hm; [done|lia].
      + replace (idx + Z.of_nat (S k)) with (idx + 1 + Z.of_nat k) in * by lia. by apply H2.
    - rewrite H3. f_equal. lia. }
  destruct (idx <=? n_lastIncludedIndex n) eqn:E1.
  { apply Hskip; [|right; lia]. unfold lastLogIndex. zlia. }
  destruct (idx <=? lastLogIndex n) eqn:E2.
  - destruct (entryAt_is_Some n idx) as [x Hx]; [lia|].
    rewrite (logTermAt_entry _ _ _ Hb Hx). destruct (Term x =? Term e) eqn:E3.
    + apply Hskip; [lia|left]. exists x. split_and!; [|lia|by right].
      destruct (IH (idx + 1)) as (H1 & _); [lia|lia|]. rewrite H1 by lia. done.
    + simpl. replace (idx - n_lastIncludedIndex n - 1) with (idx - 1 - n_lastIncludedIndex n) by lia.
      set (m := set_log (take (Z.to_nat (idx - 1 - n_lastIncludedIndex n)) (n_log n)) n).
      assert (Hm : lastLogIndex m = idx - 1) by (apply lastLogIndex_take; lia).
      destruct (append_tail_spec m e es idx) as (H1 & H2 & H3); [lia|].
      split_and!.
      * intros i Hi. rewrite H1 by lia. apply entryAt_take; lia.
      * intros k y Hy _. exists y. split_and!; [by apply H2|done|by left].
      * etrans; [exact H3|]. zlia.
  - destruct (append_tail_spec n e es idx) as (H1 & H2 & H3); [lia|]. split_and!.
    + done.
    + intros k y Hy _. exists y. split_and!; [by apply H2|done|by left].
    + etrans; [exact H3|]. zlia.
Qed.

(** The first cut of [mergeEntries], after which the loop runs. *)
Lemma merge_cut_frame end_ n l : set_log l (merge_cut end_ n).2 = set_log l n.
Proof. unfold merge_cut. by destruct (_ <? _). Qed.

Lemma merge_cut_unchanged end_ n : (merge_cut end_ n).1 = false → (merge_cut end_ n).2 = n.
Proof. unfold merge_cut. by destruct (_ <? _). Qed.

Lemma merge_cut_spec n (end_ prev : Z) :
  0 <= n_lastIncludedIndex n → prev <= end_ → prev <= lastLogIndex n →
  let n1 := (merge_cut end_ n).2 in
  n_lastIncludedIndex n1 = n_lastIncludedIndex n ∧ prev <= lastLogIndex n1 ∧
  lastLogIndex n1 <= Z.max (n_lastIncludedIndex n) end_ ∧
  (∀ i, i <= end_ → entryAt n1 i = entryAt n i).
Proof.
  intros Hb Hp Hl n1. unfold n1, merge_cut.
  destruct (end_ <? lastLogIndex n) eqn:E1; cbn [snd]; [|split_and!; (done || lia)].
  set (m := Z.max (n_lastIncludedIndex n) end_).
  replace (if _ <? 0 then _ else _) with (m - n_lastIncludedIndex n)
    by (destruct (end_ - _ <? 0) eqn:E; lia).
  rewrite lastLogIndex_take; [|unfold m; unfold lastLogIndex in *; zlia].
  split_and!; [done|lia|lia|]. intros i Hi. apply entryAt_take; lia.
Qed.

Lemma mergeEntries_frame req n : (mergeEntries req n).2 = set_log (n_log (mergeEntries req n).2) n.
Proof.
  unfold mergeEntries. rewrite (surjective_pairing (merge_cut _ n)).
  rewrite merge_loop_frame at 1. apply merge_cut_frame.
Qed.

Lemma mergeEntries_unchanged req n : (mergeEntries req n).1 = false → (mergeEntries req n).2 = n.
Proof.
  unfold mergeEntries. rewrite (surjective_pairing (merge_cut _ n)).
  intros [? ->]%merge_loop_unchanged. by apply merge_cut_unchanged.
Qed.

Lemma mergeEntries_spec req n :
  0 <= n_lastIncludedIndex n → aq_PrevLogIndex req <= lastLogIndex n →
  let n' := (mergeEntries req n).2 in
  let prev := aq_PrevLogIndex req in
  (∀ i, i <= prev → entryAt n' i = entryAt n i) ∧
  (∀ k e, aq_Entries req !! k = Some e → n_lastIncludedIndex n < prev + 1 + Z.of_nat k →
     merged n n' (prev + 1 + Z.of_nat k) e) ∧
  lastLogIndex n' = Z.max (n_lastIncludedIndex n) (prev + zlen (aq_Entries req)).
Proof.
  intros Hb Hprev. unfold mergeEntries. pose proof (zlen_nonneg (aq_Entries req)).
  remember (aq_PrevLogIndex req + zlen (aq_Entries req)) as end_ eqn:Hend.
  destruct (merge_cut_spec n end_ (aq_PrevLogIndex req)) as (B1 & B2 & B3 & B4); [done|lia|done|].
  rewrite (surjective_pairing (merge_cut _ n)). set (n1 := (merge_cut end_ n).2) in *.
  destruct (merge_loop_spec (aq_Entries req) (aq_PrevLogIndex req + 1) (merge_cut end_ n).1 n1)
    as (H1 & H2 & H3); [rewrite B1; lia|lia|rewrite B1; lia|].
  rewrite B1 in H2, H3. split_and!.
  - intros i Hi. rewrite H1 by lia. apply B4. lia.
  - intros k e Hk Hlt. destruct (H2 k e Hk Hlt) as (e' & ? & ? & Hor). exists e'. split_and!; [done..|].
    destruct Hor as [->|Hold]; [by left|right]. rewrite <- Hold. symmetry. apply B4.
    apply lookup_lt_Some in Hk. unfold zlen in Hend. lia.
  - rewrite H3. f_equal. lia.
Qed.

(** ** AppendEntries *)

Lemma follow_frame t l n :
  n_log (follow t l n) = n_log n ∧ n_lastIncludedIndex (follow t l n) = n_lastIncludedIndex n ∧
  n_lastIncludedTerm (follow t l n) = n_lastIncludedTerm n ∧ n_commitIndex (follow t l n) = n_commitIndex n ∧
  n_lastApplied (follow t l n) = n_lastApplied n ∧ n_hasStore (follow t l n) = n_hasStore n ∧
  n_hasSink (follow t l n) = n_hasSink n ∧ n_id (follow t l n) = n_id n ∧ n_peers (follow t l n) = n_peers n.
Proof. unfold follow. by destruct (_ || _). Qed.

Lemma follow_vote t l n :
  n_term n <= t →
  n_term (follow t l n) = t ∧ n_role (follow t l n) = RoleFollower ∧ n_leaderID (follow t l n) = Some l.
Proof.
  intros Ht. unfold follow. destruct (n_term n <? t) eqn:E1; simpl; [done|].
  destruct (decide (n_role n = RoleFollower)) as [Hr|Hr].
  - rewrite bool_decide_true by done. simpl. split_and!; [lia|done..].
  - by rewrite bool_decide_false by done.
Qed.

Lemma logTermAt_ext n n' i :
  n_log n' = n_log n → n_lastIncludedIndex n' = n_lastIncludedIndex n →
  n_lastIncludedTerm n' = n_lastIncludedTerm n → logTermAt n' i = logTermAt n i.
Proof. intros Hl Hb Ht. unfold logTermAt. by rewrite (entryAt_ext n n') , Hb, Ht. Qed.

Lemma checkPrevLog_follow p q t l n : checkPrevLog p q (follow t l n) = checkPrevLog p q n.
Proof.
  destruct (follow_frame t l n) as (H1 & H2 & H3 & _). unfold checkPrevLog.
  by rewrite (lastLogIndex_ext n), (logTermAt_ext n).
Qed.

Lemma persist_ok o n d n' d' :
  persist o n d = (true, n', d') →
  (n' = n ∧ d' = d ∧ (n_hasStore n = true → n_dirty n = false)) ∨
  (n' = set_dirty false n ∧ d' = durable n ∧ n_hasStore n = true).
Proof.
  unfold persist. destruct (n_hasStore n), (n_dirty n); simpl; destruct o as [|[]]; simpl; naive_solver.
Qed.

Lemma persist_frame o n d : n_log (persist o n d).1.2 = n_log n ∧
  (persist o n d).1.2 = set_dirty (n_dirty (persist o n d).1.2) n.
Proof.
  unfold persist. destruct (_ || _) eqn:E; simpl; [by destruct n|].
  destruct o as [|[]]; simpl; by destruct n.
Qed.

(** The locked part, when it answers with success. *)
Lemma append_locked_success req n n' resp ch :
  append_locked req n = (n', resp, ch) → ar_Success resp = true →
  let m := follow (aq_Term req) (aq_LeaderID req) n in
  n_term n <= aq_Term req ∧ checkPrevLog (aq_PrevLogIndex req) (aq_PrevLogTerm req) n = true ∧
  n_log n' = n_log (mergeEntries req m).2 ∧
  n_lastIncludedIndex n' = n_lastIncludedIndex n ∧ n_hasStore n' = n_hasStore n ∧
  n_term n' = aq_Term req ∧ n_role n' = RoleFollower ∧ n_leaderID n' = Some (aq_LeaderID req) ∧
  n_commitIndex n' = (if n_commitIndex n <? aq_LeaderCommit req
                      then Z.min (aq_LeaderCommit req) (lastLogIndex n') else n_commitIndex n) ∧
  (if ch then n_dirty n' = true else n_log n' = n_log n).
Proof.
  unfold append_locked. destruct (aq_Term req <? n_term n) eqn:E1; [naive_solver|].
  rewrite checkPrevLog_follow. destruct (checkPrevLog _ _ n) eqn:E2; simpl; [|naive_solver].
  destruct (follow_frame (aq_Term req) (aq_LeaderID req) n) as (F1 & F2 & _ & F4 & _ & F6 & _).
  destruct (follow_vote (aq_Term req) (aq_LeaderID req) n) as (V1 & V2 & V3); [lia|].
  set (m := follow _ _ n) in *.
  pose proof (mergeEntries_frame req m) as Hfr. pose proof (mergeEntries_unchanged req m) as Hun.
  destruct (mergeEntries req m) as [c m2]. simpl in *. rewrite Hfr in *. clear Hfr.
  set (m3 := if c then _ else _).
  assert (Hm3 : n_log m3 = n_log m2 ∧ n_lastIncludedIndex m3 = n_lastIncludedIndex n ∧ n_hasStore m3 = n_hasStore n
    ∧ n_term m3 = aq_Term req ∧ n_role m3 = RoleFollower ∧ n_leaderID m3 = Some (aq_LeaderID req)
    ∧ n_commitIndex m3 = n_commitIndex n ∧ (if c then n_dirty m3 = true else n_log m3 = n_log n)).
  { unfold m3. destruct c; simpl; split_and!; try congruence.
    rewrite <- F1. trans (n_log (set_log (n_log m2) m)); [done|]. by rewrite Hun. }
  clearbody m3. destruct Hm3 as (L1 & L2 & L3 & L4 & L5 & L6 & L7 & L8). rewrite L7.
  destruct (n_commitIndex n <? _) eqn:E3; intros [= <- <- <-] _; split_and!; simpl; try (done || lia).
  change (lastLogIndex (set_dirty true (advance_commit (aq_LeaderCommit req) m3))) with (lastLogIndex m3).
  destruct (Z.ltb_spec (aq_LeaderCommit req) (lastLogIndex m3)); lia.
Qed.

(** The handler as a whole, when it answers with success. *)
Lemma HandleAppendEntries_success o req n d resp n' d' :
  HandleAppendEntries o req n d = (resp, n', d') → ar_Success resp = true →
  let m := follow (aq_Term req) (aq_LeaderID req) n in
  n_term n <= aq_Term req ∧ checkPrevLog (aq_PrevLogIndex req) (aq_PrevLogTerm req) n = true ∧
  n_log n' = n_log (mergeEntries req m).2 ∧ n_lastIncludedIndex n' = n_lastIncludedIndex n ∧
  n_term n' = aq_Term req ∧ n_role n' = RoleFollower ∧ n_leaderID n' = Some (aq_LeaderID req) ∧
  n_commitIndex n' = (if n_commitIndex n <? aq_LeaderCommit req
                      then Z.min (aq_LeaderCommit req) (lastLogIndex n') else n_commitIndex n) ∧
  (n_hasStore n = true → rs_Log d = n_log n → rs_LastIncludedIndex d = n_lastIncludedIndex n →
   rs_Log d' = n_log n' ∧ rs_LastIncludedIndex d' = n_lastIncludedIndex n').
Proof.
  unfold HandleAppendEntries. destruct (append_locked req n) as [[n1 r1] ch] eqn:E1.
  destruct ch.
  - destruct (persist o n1 d) as [[ok n2] d2] eqn:E2. intros [= <- <- <-] Hs. destruct ok; [|done].
    destruct (append_locked_success _ _ _ _ _ E1 Hs) as (H1 & H2 & H3 & H4 & H5 & H6 & H7 & H8 & H9 & H10).
    destruct (persist_ok _ _ _ _ _ E2) as [(-> & -> & Hd)|(-> & -> & Hst)].
    + split_and!; try done. intros Hst. rewrite Hd in H10; congruence.
    + split_and!; done.
  - intros [= <- <- <-] Hs.
    destruct (append_locked_success _ _ _ _ _ E1 Hs) as (H1 & H2 & H3 & H4 & H5 & H6 & H7 & H8 & H9 & H10).
    split_and!; try done. intros _ -> ->. done.
Qed.

Lemma checkPrevLog_true p q n :
  checkPrevLog p q n = true → p <= lastLogIndex n ∧ (0 < p → logTermAt n p = q).
Proof.
  unfold checkPrevLog. destruct (_ <? p) eqn:E1; [done|].
  destruct (0 <? p) eqn:E2, (logTermAt n p =? q) eqn:E3; simpl; intros; try done; split; lia.
Qed.

Lemma merged_ext n1 n1' n2 n2' i e :
  (∀ j, entryAt n1' j = entryAt n1 j) → (∀ j, entryAt n2' j = entryAt n2 j) →
  merged n1 n2 i e → merged n1' n2' i e.
Proof. intros H1 H2 (e' & ? & ? & ?). exists e'. by rewrite H1, H2. Qed.

(** The log of a node that merged the request. *)
Lemma append_log_spec req n n' :
  let prev := aq_PrevLogIndex req in
  0 <= n_lastIncludedIndex n → checkPrevLog prev (aq_PrevLogTerm req) n = true →
  n_log n' = n_log (mergeEntries req (follow (aq_Term req) (aq_LeaderID req) n)).2 →
  n_lastIncludedIndex n' = n_lastIncludedIndex n →
  (∀ i, i <= prev → entryAt n' i = entryAt n i) ∧
  (∀ k e, aq_Entries req !! k = Some e → n_lastIncludedIndex n < prev + 1 + Z.of_nat k →
     merged n n' (prev + 1 + Z.of_nat k) e) ∧
  lastLogIndex n' = Z.max (n_lastIncludedIndex n) (prev + zlen (aq_Entries req)).
Proof.
  intros prev Hb [Hp _]%checkPrevLog_true Hlog Hbase.
  destruct (follow_frame (aq_Term req) (aq_LeaderID req) n) as (F1 & F2 & _).
  set (m := follow _ _ n) in *. destruct (mergeEntries_spec req m) as (H1 & H2 & H3).
  { by rewrite F2. } { by rewrite (lastLogIndex_ext n). }
  assert (Hb' : n_lastIncludedIndex (mergeEntries req m).2 = n_lastIncludedIndex n)
    by (rewrite mergeEntries_frame; done).
  assert (He : ∀ i, entryAt n' i = entryAt (mergeEntries req m).2 i) by (intros; apply entryAt_ext; congruence).
  assert (Hm : ∀ i, entryAt m i = entryAt n i) by (intros; by apply entryAt_ext).
  split_and!.
  - intros i Hi. by rewrite He, H1, Hm.
  - intros k e Hk Hlt. rewrite <- F2 in Hlt. eapply merged_ext, H2; done.
  - rewrite (lastLogIndex_ext (mergeEntries req m).2), H3 by congruence. by rewrite F2.
Qed.

(** AppendEntries, follower side: a successful answer means that the
    request was not from an older term and that its previous entry was found
    in the log, and the node is then a follower of the sender in that term; up to the previous index the
    log is as before, after it there is for every entry sent an entry of the
    same term (the one sent, or the one that was already there), and the log
    ends with the last entry sent; the commit index is the leader's, capped by
    the end of the log; and if the disk held the log before, it holds the new
    log before the answer leaves. *)
Theorem append_success_spec o req n d resp n' d' :
  0 <= n_lastIncludedIndex n →
  HandleAppendEntries o req n d = (resp, n', d') → ar_Success resp = true →
  let prev := aq_PrevLogIndex req in
  n_term n <= aq_Term req ∧ n_term n' = aq_Term req ∧ n_role n' = RoleFollower ∧
  n_leaderID n' = Some (aq_LeaderID req) ∧
  (0 < prev → prev <= lastLogIndex n ∧ logTermAt n prev = aq_PrevLogTerm req) ∧
  (∀ i, i <= prev → entryAt n' i = entryAt n i) ∧
  (∀ k e, aq_Entries req !! k = Some e → n_lastIncludedIndex n < prev + 1 + Z.of_nat k →
     merged n n' (prev + 1 + Z.of_nat k) e) ∧
  lastLogIndex n' = Z.max (n_lastIncludedIndex n) (prev + zlen (aq_Entries req)) ∧
  n_commitIndex n' = (if n_commitIndex n <? aq_LeaderCommit req
                      then Z.min (aq_LeaderCommit req) (lastLogIndex n') else n_commitIndex n) ∧
  (n_hasStore n = true → rs_Log d = n_log n → rs_LastIncludedIndex d = n_lastIncludedIndex n →
   rs_Log d' = n_log n' ∧ rs_LastIncludedIndex d' = n_lastIncludedIndex n').
Proof.
  intros Hb Hh Hs prev.
  destruct (HandleAppendEntries_success _ _ _ _ _ _ _ Hh Hs) as (H1 & H2 & H3 & H4 & H5 & H6 & H7 & H8 & H9).
  destruct (append_log_spec req n n') as (L1 & L2 & L3); [done..|].
  split_and!; try done. intros Hp. destruct (checkPrevLog_true _ _ _ H2); auto.
Qed.

(** A concrete follower and request: entry 2 conflicts, entry 3 is new. *)
Definition demo_put (v : string) : Command := mkCommand OpPut "k" "" v 0.
Definition demo_follower (l : list Entry) : Node :=
  SetRaftStore (mkRaftState 1 None l 0 0) (NewNode "B" ["A"; "C"]).

Lemma append_success_spec_witness :
  let n := demo_follower [mkEntry 1 (demo_put "x"); mkEntry 1 (demo_put "y")] in
  let req := mkAppendReq 2 "A" 1 1 [mkEntry 2 (demo_put "z"); mkEntry 2 (demo_put "w")] 2 in
  let r := HandleAppendEntries Saved req n (durable n) in
  0 <= n_lastIncludedIndex n ∧ ar_Success r.1.1 = true ∧ lastLogIndex r.1.2 = 3 ∧ n_commitIndex r.1.2 = 2.
Proof.
  intros n req r.
  destruct (append_success_spec Saved req n (durable n) r.1.1 r.1.2 r.2)
    as (_ & _ & _ & _ & _ & _ & _ & H & H' & _); [vm_compute; congruence|vm_compute; reflexivity..|].
  split_and!; [vm_compute; congruence|vm_compute; reflexivity|rewrite H; vm_compute; reflexivity
              |rewrite H'; vm_compute; reflexivity].
Defined.

(** ** Agreement with the leader *)

(** Raft's Log Matching property between two nodes: entries of the same index
    and term are the same, and so is everything both retain before them. *)
Definition log_matching (a b : Node) : Prop :=
  ∀ i e e', entryAt a i = Some e → entryAt b i = Some e' → Term e = Term e' →
  ∀ j x y, j <= i → entryAt a j = Some x → entryAt b j = Some y → x = y.

(** The request a leader builds for a peer. *)
Lemma replicate_begin_send peer n n' req :
  replicate_begin peer n = (n', ReplSend req) →
  n_role n = RoleLeader ∧ aq_Term req = n_term n ∧ aq_LeaderID req = n_id n ∧
  n_lastIncludedIndex n <= aq_PrevLogIndex req ∧
  0 <= aq_PrevLogIndex req ∧
  aq_PrevLogTerm req = logTermAt n (aq_PrevLogIndex req) ∧
  aq_LeaderCommit req = n_commitIndex n ∧
  aq_Entries req = (if aq_PrevLogIndex req <? lastLogIndex n
                    then drop (Z.to_nat (aq_PrevLogIndex req - n_lastIncludedIndex n)) (n_log n) else []) ∧
  aq_PrevLogIndex req = Z.max 1 (at0 (nextIndex (replState n).1) peer) - 1.
Proof.
  unfold replicate_begin. destruct (decide (n_role n = RoleLeader)) as [Hr|Hr];
    [rewrite bool_decide_true by done|by rewrite bool_decide_false by done]. simpl.
  assert (Hst : ∃ st m, replState n = (st, m) ∧ n_log m = n_log n ∧ n_term m = n_term n ∧ n_id m = n_id n ∧
    n_lastIncludedIndex m = n_lastIncludedIndex n ∧ n_lastIncludedTerm m = n_lastIncludedTerm n ∧
    n_commitIndex m = n_commitIndex n).
  { unfold replState. destruct (n_repl n); repeat eexists. }
  destruct Hst as (st & m & -> & L1 & L2 & L3 & L4 & L5 & L6). simpl.
  destruct (flying st peer); [done|].
  set (next := if _ <? 1 then 1 else _).
  assert (Hnext : next = Z.max 1 (at0 (nextIndex st) peer)) by (unfold next; destruct (_ <? 1) eqn:?; lia).
  clearbody next. destruct (next <? firstIndex m) eqn:E; [done|]. unfold firstIndex in *. rewrite L4 in E.
  intros [= <- <-]. simpl. rewrite L2, L3, L6, (logTermAt_ext n), (lastLogIndex_ext n) by congruence.
  split_and!; try (done || lia). rewrite L1, L4.
  replace (next - (n_lastIncludedIndex n + 1)) with (next - 1 - n_lastIncludedIndex n) by lia.
  destruct (next <=? _) eqn:E1, (next - 1 <? _) eqn:E2; (done || lia).
Qed.

(** The entries of the request are the leader's. *)
Lemma request_entries ldr req k e :
  n_lastIncludedIndex ldr <= aq_PrevLogIndex req →
  aq_Entries req = (if aq_PrevLogIndex req <? lastLogIndex ldr
                    then drop (Z.to_nat (aq_PrevLogIndex req - n_lastIncludedIndex ldr)) (n_log ldr) else []) →
  entryAt ldr (aq_PrevLogIndex req + 1 + Z.of_nat k) = Some e ↔ aq_Entries req !! k = Some e.
Proof.
  intros Hb ->. rewrite entryAt_lookup. rewrite decide_True by lia.
  destruct (_ <? lastLogIndex ldr) eqn:E.
  - rewrite lookup_drop. f_equiv. f_equal. lia.
  - rewrite lookup_nil. rewrite lookup_ge_None_2; [done|]. unfold lastLogIndex, zlen in E. lia.
Qed.

(** Up to the previous index of an accepted request. *)
Lemma matched_below_prev n ldr prev i :
  0 <= n_lastIncludedIndex n → 0 <= n_lastIncludedIndex ldr → log_matching n ldr →
  Forall (λ e, 0 <= Term e) (n_log n) → prev <= lastLogIndex n → logTermAt n prev = logTermAt ldr prev →
  n_lastIncludedIndex n < i → n_lastIncludedIndex ldr < i → i <= prev →
  entryAt n i = entryAt ldr i.
Proof.
  intros Hbn Hbl Hlm Hpos Hp Ht Hn Hl Hle.
  destruct (entryAt_is_Some n prev) as [e He]; [lia|].
  rewrite (logTermAt_entry n prev e) in Ht by done.
  destruct (entryAt ldr prev) as [e'|] eqn:He'.
  - rewrite (logTermAt_entry ldr prev e') in Ht by done.
    destruct (entryAt_Some_range _ _ _ He').
    destruct (entryAt_is_Some n i) as [x Hx]; [lia|]. destruct (entryAt_is_Some ldr i) as [y Hy]; [lia|].
    rewrite Hx, Hy. f_equal. by eapply (Hlm prev).
  - exfalso. unfold logTermAt in Ht. rewrite He' in Ht.
    rewrite (proj2 (Z.eqb_neq prev 0)), (proj2 (Z.eqb_neq prev (n_lastIncludedIndex ldr))) in Ht by lia.
    rewrite entryAt_lookup in He. case_decide; [|done]. eapply Forall_lookup_1 in Hpos; [|done]. lia.
Qed.

(** After it, for the entries sent. *)
Lemma matched_after_prev n n' ldr req i :
  log_matching n ldr → n_lastIncludedIndex ldr <= aq_PrevLogIndex req →
  aq_Entries req = (if aq_PrevLogIndex req <? lastLogIndex ldr
                    then drop (Z.to_nat (aq_PrevLogIndex req - n_lastIncludedIndex ldr)) (n_log ldr) else []) →
  (∀ k e, aq_Entries req !! k = Some e → n_lastIncludedIndex n < aq_PrevLogIndex req + 1 + Z.of_nat k →
     merged n n' (aq_PrevLogIndex req + 1 + Z.of_nat k) e) →
  n_lastIncludedIndex n < i → aq_PrevLogIndex req < i <= aq_PrevLogIndex req + zlen (aq_Entries req) →
  entryAt n' i = entryAt ldr i.
Proof.
  intros Hlm Hb Hes Hm Hi Hr. set (k := Z.to_nat (i - aq_PrevLogIndex req - 1)).
  assert (Hik : i = aq_PrevLogIndex req + 1 + Z.of_nat k) by lia.
  destruct (lookup_lt_is_Some_2 (aq_Entries req) k) as [e He]; [unfold zlen in Hr; lia|].
  pose proof (proj2 (request_entries ldr req k e Hb Hes) He) as Hl. rewrite Hik, Hl.
  destruct (Hm k e He) as (e' & He' & Ht & Hor); [lia|]. rewrite He'. f_equal.
  destruct Hor as [->|Hold]; [done|]. by eapply (Hlm _ e' e).
Qed.

(** C26 (replication copies the leader's log): when a follower answers with
    success to a request its leader built, and the two logs satisfied the Log
    Matching property before, the follower's log agrees with the leader's at
    every index both retain (terms being non-negative), up to the last entry of the request; when the
    request starts inside the leader's log that is the whole of both logs. *)
Theorem append_success_matches_leader peer ldr ldr' req o n d resp n' d' :
  0 <= n_lastIncludedIndex n → 0 <= n_lastIncludedIndex ldr → log_matching n ldr →
  Forall (λ e, 0 <= Term e) (n_log n) →
  replicate_begin peer ldr = (ldr', ReplSend req) →
  HandleAppendEntries o req n d = (resp, n', d') → ar_Success resp = true →
  (∀ i, n_lastIncludedIndex n < i → n_lastIncludedIndex ldr < i →
     i <= aq_PrevLogIndex req + zlen (aq_Entries req) → entryAt n' i = entryAt ldr i) ∧
  (aq_PrevLogIndex req <= lastLogIndex ldr →
     ∀ i, n_lastIncludedIndex n < i → n_lastIncludedIndex ldr < i → entryAt n' i = entryAt ldr i).
Proof.
  intros Hbn Hbl Hlm Hpos Hreq Hh Hs.
  destruct (replicate_begin_send _ _ _ _ Hreq) as (_ & _ & _ & P1 & P2 & P3 & _ & P5 & _).
  destruct (HandleAppendEntries_success _ _ _ _ _ _ _ Hh Hs) as (_ & H2 & H3 & H4 & _).
  destruct (append_log_spec req n n') as (L1 & L2 & L3); [done..|].
  destruct (checkPrevLog_true _ _ _ H2) as [C1 C2].
  assert (Hmain : ∀ i, n_lastIncludedIndex n < i → n_lastIncludedIndex ldr < i →
     i <= aq_PrevLogIndex req + zlen (aq_Entries req) → entryAt n' i = entryAt ldr i).
  { intros i Hi1 Hi2 Hi3. destruct (decide (i <= aq_PrevLogIndex req)) as [Hle|Hgt].
    - rewrite L1 by done. apply (matched_below_prev n ldr (aq_PrevLogIndex req)); try done.
      rewrite <- P3. apply C2. lia.
    - apply (matched_after_prev n n' ldr req); try done. lia. }
  split; [exact Hmain|]. intros Hp i Hi1 Hi2.
  assert (Hlen : lastLogIndex ldr = aq_PrevLogIndex req + zlen (aq_Entries req)).
  { rewrite P5. destruct (_ <? _) eqn:E; [|rewrite zlen_nil; lia].
    rewrite zlen_drop. unfold lastLogIndex in *. lia. }
  destruct (decide (i <= aq_PrevLogIndex req + zlen (aq_Entries req))); [by apply Hmain|].
  rewrite (proj2 (entryAt_None ldr i)), (proj2 (entryAt_None n' i)); [done|rewrite L3; lia|lia].
Qed.

Definition demo_leader (t : Z) (l : list Entry) : Node :=
  becomeLeader (SetRaftStore (mkRaftState t (Some "A"%string) l 0 0) (NewNode "A" ["B"; "C"])).

Lemma append_success_matches_leader_witness :
  let n := demo_follower [mkEntry 1 (demo_put "x"); mkEntry 1 (demo_put "y")] in
  let ldr := set_repl (mkRepl {["B"%string := 2]} ∅ ∅ ∅)
    (demo_leader 2 [mkEntry 1 (demo_put "x"); mkEntry 2 (demo_put "z"); mkEntry 2 (demo_put "w")]) in
  ∃ req n' d', replicate_begin "B" ldr = ((replicate_begin "B" ldr).1, ReplSend req) ∧
    HandleAppendEntries Saved req n (durable n) = (mkAppendResp 2 true, n', d') ∧
    ∀ i, 0 < i → entryAt n' i = entryAt ldr i.
Proof.
  intros n ldr. eexists _, _, _. split; [vm_compute; reflexivity|]. split; [vm_compute; reflexivity|].
  intros i Hi.
  eapply (append_success_matches_leader "B" ldr _ _ Saved n (durable n)); [..|exact Hi|exact Hi].
  - vm_compute. congruence.
  - vm_compute. congruence.
  - intros i0 e e' He He' Ht j x y Hj Hx Hy.
    assert (i0 = 1) as ->.
    { pose proof (entryAt_Some_range _ _ _ He) as Hr.
      change (n_lastIncludedIndex n) with 0 in Hr. change (lastLogIndex n) with 2 in Hr.
      assert (i0 = 1 ∨ i0 = 2) as [->| ->] by lia; [done|].
      vm_compute in He, He'. simplify_eq. }
    pose proof (entryAt_Some_range _ _ _ Hx) as Hr. assert (j = 1) as ->.
    { change (n_lastIncludedIndex n) with 0 in Hr. lia. }
    vm_compute in Hx, Hy. congruence.
  - repeat constructor; vm_compute; congruence.
  - vm_compute. reflexivity.
  - vm_compute. reflexivity.
  - vm_compute. reflexivity.
  - vm_compute. congruence.
Defined.

(** A retried append is acknowledged without being durable: the first
    request fails to persist and is refused, as the comment says, "so the
    leader retries (and re-persists)"; the retry finds the entry already in
    memory, reports no change, skips [persist] and answers with success while
    the disk still holds the old log.  A restart then loses the entry. *)
Theorem append_retry_acks_undurable :
  let n := demo_follower [] in
  let req := mkAppendReq 1 "A" 0 0 [mkEntry 1 (demo_put "x")] 0 in
  ∃ n1 n2 d2,
    HandleAppendEntries (SaveFailed false) req n (durable n) = (mkAppendResp 1 false, n1, durable n) ∧
    HandleAppendEntries Saved req n1 (durable n) = (mkAppendResp 1 true, n2, d2) ∧
    lastLogIndex n2 = 1 ∧
    lastLogIndex (SetRaftStore d2 (NewNode "B" ["A"; "C"])) = 0.
Proof.
  intros n req. eexists _, _, _. split; [vm_compute; reflexivity|]. split; [vm_compute; reflexivity|].
  split; vm_compute; reflexivity.
Qed.

(** ** Log compaction *)

Lemma raise_base_frame i n :
  n_log (raise_base i n) = n_log n ∧ n_lastIncludedIndex (raise_base i n) = n_lastIncludedIndex n ∧
  n_lastIncludedTerm (raise_base i n) = n_lastIncludedTerm n ∧
  n_commitIndex (raise_base i n) = Z.max i (n_commitIndex n) ∧
  n_lastApplied (raise_base i n) = Z.max i (n_lastApplied n).
Proof.
  unfold raise_base. destruct (n_commitIndex n <? i) eqn:E1; simpl;
  destruct (n_lastApplied n <? i) eqn:E2; simpl; split_and!; (done || lia).
Qed.

(** Dropping the entries up to index [i]. *)
Lemma entryAt_drop n i t j :
  n_lastIncludedIndex n <= i → i < j →
  entryAt (set_base i t (set_log (drop (Z.to_nat (i - n_lastIncludedIndex n)) (n_log n)) n)) j = entryAt n j.
Proof.
  intros Hi Hj. rewrite !entryAt_lookup. simpl. rewrite !decide_True by lia.
  rewrite lookup_drop. f_equal. lia.
Qed.

Lemma drop_all_log n i :
  lastLogIndex n <= i → drop (Z.to_nat (i - n_lastIncludedIndex n)) (n_log n) = [].
Proof. intros Hi. apply drop_ge. unfold lastLogIndex, zlen in Hi. lia. Qed.

(** [CompactLog] in one piece: the entries up to the new base are dropped. *)
Lemma CompactLog_eq i t n :
  n_lastIncludedIndex n < i →
  CompactLog i t n =
    set_dirty true (raise_base i
      (set_base i (if lastLogIndex n <=? i then lastLogTerm n else t)
        (set_log (drop (Z.to_nat (i - n_lastIncludedIndex n)) (n_log n)) n))).
Proof.
  intros Hi. unfold CompactLog. destruct (i <=? n_lastIncludedIndex n) eqn:E1; [lia|].
  destruct (lastLogIndex n <=? i) eqn:E2; [|done]. by rewrite drop_all_log by lia.
Qed.

(** The last term is the term at the last index. *)
Lemma lastLogTerm_at n :
  0 <= n_lastIncludedIndex n → 0 < lastLogIndex n → lastLogTerm n = logTermAt n (lastLogIndex n).
Proof.
  intros Hb Hl. unfold lastLogTerm. destruct (last (n_log n)) as [e|] eqn:E.
  - symmetry. apply logTermAt_entry; [done|]. rewrite entryAt_lookup. unfold lastLogIndex, zlen.
    rewrite last_lookup in E. apply lookup_lt_Some in E as Hlt. rewrite decide_True by lia.
    rewrite <- E. f_equal. lia.
  - apply last_None in E. unfold lastLogIndex in *. rewrite E, zlen_nil, Z.add_0_r in *.
    unfold logTermAt. rewrite (proj2 (Z.eqb_neq _ 0)) by lia. by rewrite Z.eqb_refl.
Qed.

(** Terms of a node whose base moved up to [i]. *)
Lemma logTermAt_rebased n m i j :
  0 <= n_lastIncludedIndex n < i → n_lastIncludedIndex m = i → n_lastIncludedTerm m = logTermAt n i →
  (∀ j, i < j → entryAt m j = entryAt n j) → i <= j → logTermAt m j = logTermAt n j.
Proof.
  intros Hb Hi Ht He Hj. destruct (decide (j = i)) as [->|Hne].
  - rewrite <- Ht. unfold logTermAt at 1. rewrite (proj2 (Z.eqb_neq _ 0)) by lia.
    by rewrite Hi, Z.eqb_refl.
  - unfold logTermAt. rewrite He by lia.
    by rewrite (proj2 (Z.eqb_neq j 0)), (proj2 (Z.eqb_neq j (n_lastIncludedIndex m))),
      (proj2 (Z.eqb_neq j (n_lastIncludedIndex n))) by lia.
Qed.

(** Log compaction keeps what is retained: compacting up to an index
    inside the log, with the term of its entry, leaves the entry at every
    later index, the term at the new base, the last index and the last term
    as they were, and never moves the commit or the applied index back; an
    index at or below the current base changes nothing. *)
Theorem CompactLog_spec i t n :
  0 <= n_lastIncludedIndex n →
  let n' := CompactLog i t n in
  (i <= n_lastIncludedIndex n → n' = n) ∧
  (n_lastIncludedIndex n < i → i <= lastLogIndex n → t = logTermAt n i →
    n_lastIncludedIndex n' = i ∧ n_dirty n' = true ∧
    (∀ j, i < j → entryAt n' j = entryAt n j) ∧ (∀ j, i <= j → logTermAt n' j = logTermAt n j) ∧
    lastLogIndex n' = lastLogIndex n ∧ lastLogTerm n' = lastLogTerm n ∧
    n_commitIndex n' = Z.max i (n_commitIndex n) ∧ n_lastApplied n' = Z.max i (n_lastApplied n)).
Proof.
  intros Hb n'. unfold n'. split.
  { intros Hi. unfold CompactLog. by destruct (i <=? n_lastIncludedIndex n) eqn:E; [|lia]. }
  intros Hi Hl ->. rewrite CompactLog_eq by done.
  assert (Hlt : lastLogIndex n = i → lastLogTerm n = logTermAt n i) by (intros <-; apply lastLogTerm_at; lia).
  set (t' := if _ <=? i then _ else _).
  assert (Ht' : t' = logTermAt n i) by (unfold t'; destruct (_ <=? i) eqn:E; [apply Hlt; lia|done]).
  clearbody t'. set (m := set_base i t' _). destruct (raise_base_frame i m) as (R1 & R2 & R3 & R4 & R5).
  assert (Hent : ∀ j, i < j → entryAt (set_dirty true (raise_base i m)) j = entryAt n j).
  { intros j Hj. rewrite (entryAt_ext m) by done. unfold m. apply entryAt_drop; lia. }
  assert (Hterm : ∀ j, i <= j → logTermAt (set_dirty true (raise_base i m)) j = logTermAt n j).
  { intros j Hj. apply (logTermAt_rebased n _ i); try done. by rewrite <- Ht'. }
  assert (Hlast : lastLogIndex (set_dirty true (raise_base i m)) = lastLogIndex n).
  { rewrite (lastLogIndex_ext m) by done. unfold m, lastLogIndex. simpl. unfold lastLogIndex in Hl. zlia. }
  split_and!; try done.
  rewrite (lastLogTerm_at n), lastLogTerm_at, Hlast by (rewrite ?Hlast; simpl; rewrite ?R2; simpl; lia).
  apply Hterm. lia.
Qed.

Lemma CompactLog_spec_witness :
  let n := demo_follower [mkEntry 1 (demo_put "x"); mkEntry 1 (demo_put "y"); mkEntry 2 (demo_put "z")] in
  0 <= n_lastIncludedIndex n ∧ entryAt (CompactLog 2 1 n) 3 = entryAt n 3 ∧
  lastLogIndex (CompactLog 2 1 n) = 3 ∧ n_commitIndex (CompactLog 2 1 n) = 2.
Proof.
  intros n. destruct (CompactLog_spec 2 1 n) as [_ H]; [vm_compute; congruence|].
  destruct H as (_ & _ & H1 & _ & H2 & _ & H3 & _); [vm_compute; congruence..|vm_compute; reflexivity|].
  split_and!; [vm_compute; congruence|by apply H1|rewrite H2; vm_compute; reflexivity
              |rewrite H3; vm_compute; reflexivity].
Defined.

(** ** Snapshot installation *)

(** The log of a node that adopts the base [i]: [n.log[drop:]]. *)
Lemma install_drop n i :
  drop (Z.to_nat (if zlen (n_log n) <? i - n_lastIncludedIndex n then zlen (n_log n)
                  else i - n_lastIncludedIndex n)) (n_log n) =
  drop (Z.to_nat (i - n_lastIncludedIndex n)) (n_log n).
Proof.
  destruct (_ <? _) eqn:E; [|done]. unfold zlen in *. rewrite !drop_ge by lia. done.
Qed.

Lemma adopt_base_spec i t n :
  0 <= n_lastIncludedIndex n <= n_lastApplied n → n_lastApplied n < i →
  let n' := adopt_base i t n in
  n_lastIncludedIndex n' = i ∧ n_lastIncludedTerm n' = t ∧ (∀ j, i < j → entryAt n' j = entryAt n j) ∧
  n_commitIndex n' = Z.max i (n_commitIndex n) ∧ n_lastApplied n' = i ∧
  n_term n' = n_term n ∧ n_role n' = n_role n ∧ n_leaderID n' = n_leaderID n ∧ n_hasSink n' = n_hasSink n.
Proof.
  intros Hb Hi. unfold adopt_base. rewrite install_drop.
  set (m := set_base i t _). destruct (raise_base_frame i m) as (R1 & R2 & R3 & R4 & R5).
  simpl. rewrite R2, R3, R4, R5. split_and!; try done.
  - intros j Hj. rewrite (entryAt_ext m) by done. unfold m. apply entryAt_drop; lia.
  - unfold m. simpl. lia.
  - unfold raise_base. by destruct (_ <? _), (_ <? _).
  - unfold raise_base. by destruct (_ <? _), (_ <? _).
  - unfold raise_base. by destruct (_ <? _), (_ <? _).
  - unfold raise_base. by destruct (_ <? _), (_ <? _).
Qed.

(** [persist] changes nothing but the dirty flag. *)
Lemma persist_node o n d ok n' d' : persist o n d = (ok, n', d') → n' = set_dirty (n_dirty n') n.
Proof. intros E. pose proof (proj2 (persist_frame o n d)) as P. by rewrite E in P. Qed.

Section install.
Context {SM : Type} (ApplySnapshot : bytes → SM → res unit * SM).

Lemma HandleInstallSnapshot_cases o req n d s resp n' d' s' :
  0 <= n_lastIncludedIndex n <= n_lastApplied n →
  HandleInstallSnapshot ApplySnapshot o req n d s = (resp, n', d', s') →
  let i := iq_LastIncludedIndex req in
  (iq_Term req < n_term n → resp = mkInstallResp (n_term n) false ∧ n' = n ∧ d' = d ∧ s' = s) ∧
  (n_term n <= iq_Term req →
    resp = mkInstallResp (iq_Term req) true ∧
    n_term n' = iq_Term req ∧ n_role n' = RoleFollower ∧ n_leaderID n' = Some (iq_LeaderID req) ∧
    (i <= n_lastApplied n →
      n_log n' = n_log n ∧ n_lastIncludedIndex n' = n_lastIncludedIndex n ∧
      n_commitIndex n' = n_commitIndex n ∧ n_lastApplied n' = n_lastApplied n ∧ s' = s) ∧
    (n_lastApplied n < i →
      n_lastIncludedIndex n' = i ∧ n_lastIncludedTerm n' = iq_LastIncludedTerm req ∧
      (∀ j, i < j → entryAt n' j = entryAt n j) ∧
      n_commitIndex n' = Z.max i (n_commitIndex n) ∧ n_lastApplied n' = i ∧
      s' = (if n_hasSink n then (ApplySnapshot (iq_Data req) s).2 else s))).
Proof.
  intros Hwf. unfold HandleInstallSnapshot, install_locked.
  destruct (Z.ltb_spec (iq_Term req) (n_term n)) as [E|E].
  { intros [= <- <- <- <-]. split; [done|lia]. }
  destruct (follow_frame (iq_Term req) (iq_LeaderID req) n) as (F1 & F2 & F3 & F4 & F5 & F6 & F7 & _).
  destruct (follow_vote (iq_Term req) (iq_LeaderID req) n) as (V1 & V2 & V3); [lia|].
  set (m := follow _ _ n) in *. rewrite F5.
  destruct (Z.ltb_spec (n_lastApplied n) (iq_LastIncludedIndex req)) as [E1|E1]; cbn [andb].
  - destruct (adopt_base_spec (iq_LastIncludedIndex req) (iq_LastIncludedTerm req) m)
      as (A1 & A2 & A3 & A4 & A5 & A6 & A7 & A8 & A9); [lia..|].
    set (m1 := adopt_base _ _ m) in *. clearbody m1. clearbody m. rewrite A6, A9, F7, V1.
    destruct (persist o m1 d) as [[ok n2] d2] eqn:E2. intros [= <- <- <- <-].
    rewrite (persist_node _ _ _ _ _ _ E2). split; [lia|]. intros _. simpl.
    do 4 (split; [congruence|]). split; [lia|]. intros _. split_and!; try (done || congruence).
    intros j Hj. transitivity (entryAt m j); [by rewrite <- A3 by done; apply entryAt_ext|by apply entryAt_ext].
  - clearbody m. destruct (persist o m d) as [[ok n2] d2] eqn:E2. intros [= <- <- <- <-].
    rewrite (persist_node _ _ _ _ _ _ E2).
    split; [lia|]. intros _. split_and!; simpl; try (done || lia || congruence).
Qed.

(** C35 (snapshot installation): a snapshot from an older term is refused and
    changes nothing; otherwise the node follows the sender and acknowledges.
    If the snapshot does not go beyond what the node has applied, log, base,
    commit and applied index and the state machine stay as they are; if it
    does, the snapshot's index and term become the base, the entries after it
    are kept, commit and applied index rise to it and the data is handed to
    the state machine. *)
Theorem HandleInstallSnapshot_spec o req n d s resp n' d' s' :
  0 <= n_lastIncludedIndex n <= n_lastApplied n →
  HandleInstallSnapshot ApplySnapshot o req n d s = (resp, n', d', s') →
  let i := iq_LastIncludedIndex req in
  (iq_Term req < n_term n → resp = mkInstallResp (n_term n) false ∧ n' = n ∧ d' = d ∧ s' = s) ∧
  (n_term n <= iq_Term req →
    resp = mkInstallResp (iq_Term req) true ∧
    n_term n' = iq_Term req ∧ n_role n' = RoleFollower ∧ n_leaderID n' = Some (iq_LeaderID req) ∧
    (i <= n_lastApplied n →
      n_log n' = n_log n ∧ n_lastIncludedIndex n' = n_lastIncludedIndex n ∧
      n_commitIndex n' = n_commitIndex n ∧ n_lastApplied n' = n_lastApplied n ∧ s' = s) ∧
    (n_lastApplied n < i →
      n_lastIncludedIndex n' = i ∧ n_lastIncludedTerm n' = iq_LastIncludedTerm req ∧
      (∀ j, i < j → entryAt n' j = entryAt n j) ∧
      n_commitIndex n' = Z.max i (n_commitIndex n) ∧ n_lastApplied n' = i ∧
      s' = (if n_hasSink n then (ApplySnapshot (iq_Data req) s).2 else s))).
Proof. apply HandleInstallSnapshot_cases. Qed.
End install.

Lemma HandleInstallSnapshot_spec_witness :
  let apply := λ (data : bytes) (_ : bytes), (Ok () : res unit, data) in
  let n := SetSnapshotSink (demo_follower [mkEntry 1 (demo_put "x"); mkEntry 1 (demo_put "y"); mkEntry 2 (demo_put "z")]) in
  let req := mkInstallReq 2 "A" 2 1 (bytes_of_string "snap") in
  let r := HandleInstallSnapshot apply Saved req n (durable n) [] in
  0 <= n_lastIncludedIndex n <= n_lastApplied n ∧
  r.1.1.1 = mkInstallResp 2 true ∧ entryAt r.1.1.2 3 = entryAt n 3 ∧ r.2 = bytes_of_string "snap".
Proof.
  intros apply n req r.
  destruct (HandleInstallSnapshot_spec apply Saved req n (durable n) [] r.1.1.1 r.1.1.2 r.1.2 r.2) as [_ H];
    [vm_compute; split; congruence|vm_compute; reflexivity|].
  destruct H as (H1 & _ & _ & _ & _ & H2); [vm_compute; congruence|].
  destruct H2 as (_ & _ & H3 & _ & _ & H4); [vm_compute; congruence|].
  split_and!; [vm_compute; congruence|vm_compute; congruence|exact H1|by apply H3|rewrite H4; vm_compute; reflexivity].
Defined.
