(* ===== verification/RaftCommit.v ===== *)
(** * RaftCommit: the leader's bookkeeping

    [maybeCommit] commits exactly the highest index a majority has reached,
    if its entry is of the current term; [replicateToPeer] ends after at most
    seven RPCs; and what happens to both when the replication state of an
    earlier leadership is still there. *)

From S2P Require Import Prelude GoLib Engine MemStore RaftNode RaftLeader RaftApply RaftLog.

(** ** Order statistics of a sorted list *)

Lemma StronglySorted_app_le (l1 l2 : list Z) x y :
  StronglySorted Z.le (l1 ++ l2) → x ∈ l1 → y ∈ l2 → x <= y.
Proof.
  induction l1 as [|a l1 IH]; intros Hs Hx Hy; [by apply not_elem_of_nil in Hx|].
  simpl in Hs. apply StronglySorted_inv in Hs as [Hs Hf].
  apply elem_of_cons in Hx as [->|Hx]; [|by apply IH].
  rewrite Forall_forall in Hf. apply Hf. apply elem_of_app. by right.
Qed.

Lemma filter_all_length (P : Z → Prop) `{!∀ x, Decision (P x)} l :
  (∀ x, x ∈ l → P x) → length (filter P l) = length l.
Proof. intros Hl. by rewrite filter_id. Qed.

Lemma filter_none_length (P : Z → Prop) `{!∀ x, Decision (P x)} l :
  (∀ x, x ∈ l → ¬ P x) → length (filter P l) = 0%nat.
Proof.
  induction l as [|x l IH]; intros Hl; [done|]. rewrite filter_cons, decide_False by (apply Hl; left).
  apply IH. intros y Hy. apply Hl. by right.
Qed.

Lemma filter_length_le (P : Z → Prop) `{!∀ x, Decision (P x)} (l : list Z) : (length (filter P l) <= length l)%nat.
Proof. induction l as [|x l IH]; [done|]. rewrite filter_cons. case_decide; simpl; lia. Qed.

(** The element at position [N - q] of an ascending list is the highest bound
    that at least [q] elements reach. *)
Lemma sorted_quorum (l : list Z) (q : nat) t i :
  StronglySorted Z.le l → (0 < q <= length l)%nat → l !! (length l - q)%nat = Some t →
  i <= t ↔ (q <= length (filter (λ x, (i <= x)%Z) l))%nat.
Proof.
  intros Hs Hq Ht. apply list_elem_of_split_length in Ht as (l1 & l2 & -> & Hk).
  rewrite length_app in Hk, Hq. simpl in Hk, Hq. rewrite filter_app, length_app. split.
  - intros Hi. rewrite (filter_all_length _ (t :: l2)); [simpl; lia|].
    intros x Hx. trans t; [done|]. apply elem_of_cons in Hx as [->|Hx]; [done|].
    apply (StronglySorted_app_le (l1 ++ [t]) l2); [by rewrite <- app_assoc|set_solver|done].
  - intros Hc. destruct (decide (i <= t)) as [|Hn]; [done|exfalso].
    rewrite (filter_none_length _ l1) in Hc.
    + rewrite filter_cons, decide_False in Hc by done.
      pose proof (filter_length_le (λ x, i <= x) l2). simpl in Hc. lia.
    + intros x Hx Hix. assert (x <= t) by (eapply StronglySorted_app_le; [done|done|left]). lia.
Qed.

(** ** maybeCommit *)

(** The indices the leader knows to be replicated, its own log first. *)
Definition match_list (n : Node) (st : replicationState) : list Z :=
  lastLogIndex n :: ((λ p, at0 (matchIndex st) p) <$> n_peers n).

(** At least a majority of the cluster has reached index [i]. *)
Definition quorum_at (n : Node) (st : replicationState) (i : Z) : Prop :=
  majority (n_peers n) <= zlen (filter (λ x, i <= x) (match_list n st)).

Lemma majority_range peers : 0 < majority peers <= zlen peers + 1.
Proof.
  unfold majority. pose proof (zlen_nonneg peers). set (z := zlen peers) in *.
  Z.to_euclidean_division_equations. lia.
Qed.

Lemma commit_threshold_spec n st i : i <= commit_threshold n st ↔ quorum_at n st i.
Proof.
  unfold commit_threshold, quorum_at. fold (match_list n st). pose proof (majority_range (n_peers n)) as Hm.
  assert (Hlen : zlen (match_list n st) = zlen (n_peers n) + 1).
  { unfold match_list. rewrite zlen_cons. unfold zlen. rewrite length_fmap. lia. }
  assert (Hp : go_sort Z.le (match_list n st) ≡ₚ match_list n st) by apply go_sort_Permutation.
  assert (Hls : length (go_sort Z.le (match_list n st)) = length (match_list n st)) by by rewrite Hp.
  set (q := Z.to_nat (majority (n_peers n))).
  replace (Z.to_nat _) with (length (go_sort Z.le (match_list n st)) - q)%nat
    by (unfold zlen in *; lia).
  destruct (lookup_lt_is_Some_2 (go_sort Z.le (match_list n st))
    (length (go_sort Z.le (match_list n st)) - q)) as [t Ht]; [unfold zlen in *; lia|].
  rewrite Ht. simpl. rewrite (sorted_quorum (go_sort Z.le (match_list n st)) q t i);
    [|apply go_sort_sorted; apply _|unfold zlen in *; lia|done].
  rewrite Hp. unfold q, zlen. lia.
Qed.

Lemma replState_frame n : n_log (replState n).2 = n_log n ∧ n_term (replState n).2 = n_term n ∧
  n_lastIncludedIndex (replState n).2 = n_lastIncludedIndex n ∧ n_commitIndex (replState n).2 = n_commitIndex n ∧
  n_peers (replState n).2 = n_peers n ∧ n_role (replState n).2 = n_role n.
Proof. unfold replState. by destruct (n_repl n). Qed.

(** C10 (commit rule): on a leader there is one index [t] such that exactly the
    indices up to [t] have been reached by a majority (the leader's own log
    and the match indices counted), and [maybeCommit] moves the commit index
    to [t] when [t] is beyond it and the entry at [t] is of the current term,
    and leaves it alone otherwise; a node that is not the leader commits
    nothing. *)
Theorem maybeCommit_spec n :
  0 <= n_commitIndex n →
  (n_role n ≠ RoleLeader → maybeCommit n = n) ∧
  (n_role n = RoleLeader →
    ∃ t, (∀ i, quorum_at n (replState n).1 i ↔ i <= t) ∧
      let ready := n_commitIndex n < t ∧ ∃ e, entryAt n t = Some e ∧ Term e = n_term n in
      (ready → n_commitIndex (maybeCommit n) = t) ∧
      (¬ ready → n_commitIndex (maybeCommit n) = n_commitIndex n) ∧
      n_log (maybeCommit n) = n_log n ∧ n_term (maybeCommit n) = n_term n ∧ n_role (maybeCommit n) = n_role n).
Proof.
  intros Hc. unfold maybeCommit. split; intros Hr.
  { by rewrite bool_decide_false by done. }
  rewrite bool_decide_true by done. simpl. destruct (replState_frame n) as (F1 & F2 & F3 & F4 & F5 & F6).
  destruct (replState n) as [st m] eqn:E. simpl in *. exists (commit_threshold m st). split.
  { intros i. rewrite commit_threshold_spec. unfold quorum_at, match_list.
    by rewrite (lastLogIndex_ext n m), F5. }
  set (t := commit_threshold m st). rewrite F4, F2, (entryAt_ext n m) by done.
  destruct (Z.leb_spec t (n_commitIndex n)) as [Ht|Ht].
  { simpl. rewrite F1, F4, F2. split_and!; (lia || done). }
  destruct (0 <? t) eqn:E0; [simpl|lia]. destruct (entryAt n t) as [e|] eqn:Ee.
  - destruct (Z.eqb_spec (Term e) (n_term n)) as [Et|Et]; simpl; rewrite ?F1, ?F2, ?F4; split_and!; try done.
    + intros Hn. destruct Hn. eauto.
    + intros (_ & e' & [= <-] & ?). congruence.
  - simpl. rewrite F1, F2, F4. split_and!; try done. by intros (_ & ? & ? & _).
Qed.

Lemma maybeCommit_spec_witness :
  let n := set_repl (mkRepl ∅ {["B"%string := 2; "C"%string := 1]} ∅ ∅)
    (demo_leader 1 [mkEntry 1 (demo_put "x"); mkEntry 1 (demo_put "y"); mkEntry 1 (demo_put "z")]) in
  0 <= n_commitIndex n ∧ n_role n = RoleLeader ∧ n_commitIndex (maybeCommit n) = 2.
Proof.
  intros n. split; [vm_compute; congruence|]. split; [vm_compute; reflexivity|].
  destruct (maybeCommit_spec n) as [_ H]; [vm_compute; congruence|].
  destruct H as (t & Hq & Hready & _); [vm_compute; reflexivity|].
  assert (t = 2) as ->.
  { assert (2 <= t) by (apply Hq; vm_compute; congruence).
    assert (¬ 3 <= t) by (rewrite <- Hq; vm_compute; congruence). lia. }
  apply Hready. split; [vm_compute; congruence|]. eexists. split; vm_compute; reflexivity.
Defined.

(** ** replicateToPeer ends *)

(** The rewind step used for a peer. *)
Definition repl_step (n : Node) (peer : string) : Z :=
  let b := at0 (backoff (replState n).1) peer in if b =? 0 then 1 else b.

Lemma replicate_begin_step peer n n' req :
  replicate_begin peer n = (n', ReplSend req) → repl_step n' peer = repl_step n peer.
Proof.
  unfold replicate_begin, repl_step. destruct (negb _); [done|].
  destruct (replState n) as [st m]. simpl. destruct (flying st peer); [done|].
  destruct (_ <? firstIndex m); [done|]. by intros [= <- _].
Qed.

Lemma replicate_end_continue peer req resp n n' :
  replicate_end peer req resp n = (n', None) →
  repl_step n peer < maxReplBackoff ∧ repl_step n' peer = (if repl_step n peer * 2 =? 0 then 1 else repl_step n peer * 2).
Proof.
  unfold replicate_end, repl_step. destruct (replState n) as [st m]. simpl.
  destruct resp as [r|]; [|done]. destruct (_ <? ar_Term r); [done|]. destruct (ar_Term r <? _); [done|].
  destruct (ar_Success r); simpl; [done|].
  set (step := if _ =? 0 then 1 else _). destruct (Z.leb_spec maxReplBackoff step) as [|Hlt]; [done|].
  destruct (Z.ltb_spec step maxReplBackoff); [|lia]. intros [= <-]. split; [done|].
  simpl. unfold at0. by destruct (step <? _); simpl; rewrite lookup_insert_eq.
Qed.

Lemma installSnapshot_calls rm calls peer n :
  ∃ n' b calls', installSnapshot rm calls peer n = (n', b, calls') ∧ (calls' <= S calls)%nat.
Proof.
  unfold installSnapshot. destruct (install_check peer n) as [n1 []]; simpl; [|eauto 10 with lia].
  destruct (rm_Snapshot rm) as [snap|]; [|eauto 10 with lia].
  destruct (install_begin peer snap n1) as [n2 [req|]]; [|eauto 10 with lia].
  destruct (install_end peer snap _ n2) as [n3 b]. eauto 10.
Qed.

(** [k] doublings of the step reach the cap, so [k + 1] sends are enough. *)
Lemma replicateToPeer_bound rm peer k fuel calls n :
  0 < repl_step n peer → maxReplBackoff <= repl_step n peer * 2 ^ Z.of_nat k → (k < fuel)%nat →
  ∃ n' b calls', replicateToPeer fuel rm calls peer n = Some (n', b, calls') ∧ (calls' <= calls + k + 1)%nat.
Proof.
  revert fuel calls n; induction k as [|k IH]; intros [|fuel] calls n Hpos Hk Hf; try lia; simpl;
    (destruct (replicate_begin peer n) as [n1 [b| |req]] eqn:E1;
     [eexists _, _, _; split; [reflexivity|lia]
     |destruct (installSnapshot_calls rm calls peer n1) as (n' & b & c & -> & ?); eexists _, _, _;
      split; [reflexivity|lia]|];
     destruct (replicate_end peer req _ n1) as [n2 [b|]] eqn:E2;
     [eexists _, _, _; split; [reflexivity|lia]|];
     apply replicate_begin_step in E1; apply replicate_end_continue in E2 as [Hlt Hstep];
     rewrite E1 in Hlt, Hstep).
  - lia.
  - rewrite (proj2 (Z.eqb_neq _ 0)) in Hstep by lia.
    destruct (IH fuel (S calls) n2) as (n' & b & c & Heq & Hc); [lia| |lia|].
    + rewrite Hstep. rewrite Nat2Z.inj_succ, Z.pow_succ_r in Hk by lia. lia.
    + rewrite Heq. eexists _, _, _. split; [reflexivity|lia].
Qed.

(** C30 (replication to a peer terminates): whatever the peer answers, a call
    of [replicateToPeer] returns after at most seven RPCs, the rewind step
    doubling from 1 to its cap of 64. *)
Theorem replicateToPeer_terminates rm peer n calls :
  0 <= at0 (backoff (replState n).1) peer →
  ∃ n' b calls', replicateToPeer 7 rm calls peer n = Some (n', b, calls') ∧ (calls' <= calls + 7)%nat.
Proof.
  intros Hb. assert (Hs : 0 < repl_step n peer) by (unfold repl_step; destruct (_ =? 0) eqn:E; lia).
  destruct (replicateToPeer_bound rm peer 6 7 calls n) as (n' & b & c & Heq & Hc); [done| |lia|].
  { unfold maxReplBackoff. change (2 ^ Z.of_nat 6) with 64. lia. }
  exists n', b, c. split; [done|lia].
Qed.

(** A peer that always refuses is tried seven times. *)
Lemma replicateToPeer_terminates_witness :
  let n := demo_leader 1 (replicate 200 (mkEntry 1 (demo_put "x"))) in
  let rm := mkRemote (λ _ _ _, Some (mkAppendResp 1 false)) (λ _ _ _, None) None in
  0 <= at0 (backoff (replState n).1) "B" ∧
  ∃ n' b calls', replicateToPeer 7 rm 0 "B" n = Some (n', b, calls') ∧ (calls' <= 0 + 7)%nat.
Proof.
  intros n rm. split; [vm_compute; congruence|].
  apply (replicateToPeer_terminates rm "B" n 0). vm_compute. congruence.
Defined.

(** ** Replication state of an earlier leadership *)

(** The request of an iteration that sends one. *)
Definition sent (x : repl_begin) : AppendEntriesRequest :=
  match x with ReplSend req => req | _ => mkAppendReq 0 "" 0 0 [] 0 end.

Definition demo5 : Node :=
  becomeLeader (SetRaftStore
    (mkRaftState 1 (Some "A"%string)
       [mkEntry 1 (demo_put "e1"); mkEntry 1 (demo_put "e2"); mkEntry 1 (demo_put "e3")] 0 0)
    (NewNode "A" ["B"; "C"; "D"; "E"])).

(** Commit without a majority: the leader's bookkeeping survives the loss
    of leadership.  Leader A of five nodes has its three entries acknowledged
    by B in term 1; C, the leader of term 2, overwrites A's log from index 2;
    A is elected again in term 3, appends an entry at index 3 and gets it
    acknowledged by D.  [maybeCommit] counts B's acknowledgement of the old
    entry 3 and commits index 3, which A and D hold and no other node was
    ever sent. *)
Theorem stale_match_commits_unreplicated :
  let f2 := mkEntry 2 (demo_put "f2") in
  let g3 := mkEntry 3 (demo_put "g3") in
  let grant := mkVoteResp 3 true in
  (* term 1: B acknowledges A's log up to index 3 *)
  let '(a1, x1) := replicate_begin "B" demo5 in
  let '(a2, y1) := replicate_end "B" (sent x1) (Some (mkAppendResp 1 true)) a1 in
  (* term 2: C overwrites the log of A *)
  let '(r3, a3, d3) := HandleAppendEntries Saved (mkAppendReq 2 "C" 1 1 [f2] 0) a2 (durable a2) in
  (* term 3: A is leader again and appends g3 *)
  let '(a4, d4) := startElection Saved Saved [grant; grant] a3 d3 in
  let '(r5, a5, d5, _, _) := propose 0 Saved (demo_put "g3") a4 d4 NewMemStore in
  (* D refuses once and then takes g3 *)
  let '(a6, x6) := replicate_begin "D" a5 in
  let '(a7, y7) := replicate_end "D" (sent x6) (Some (mkAppendResp 3 false)) a6 in
  let '(a8, x8) := replicate_begin "D" a7 in
  let '(a9, y9) := replicate_end "D" (sent x8) (Some (mkAppendResp 3 true)) a8 in
  aq_PrevLogIndex (sent x1) = 3 ∧ y1 = Some true ∧ n_commitIndex a2 = 0 ∧
  r3 = mkAppendResp 2 true ∧ n_role a4 = RoleLeader ∧ n_term a4 = 3 ∧ r5 = Ok () ∧
  aq_Entries (sent x6) = [] ∧ y7 = None ∧ aq_Entries (sent x8) = [g3] ∧ y9 = Some true ∧
  (* index 3 is committed: the only request that carried g3 went to D *)
  n_commitIndex a9 = 3 ∧ entryAt a9 3 = Some g3 ∧ entryAt demo5 3 ≠ Some g3.
Proof. vm_compute. split_and!; congruence. Qed.

(** ** Heartbeats *)

(** What a call to an unreachable peer leaves alone. *)
Definition same_reign (n n' : Node) : Prop :=
  n_role n' = n_role n ∧ n_term n' = n_term n ∧ n_peers n' = n_peers n ∧ n_lastQuorumAck n' = n_lastQuorumAck n.

Lemma replState_reign n : same_reign n (replState n).2.
Proof. unfold replState, same_reign. by destruct (n_repl n). Qed.

Definition unreachable (rm : Remote) : Prop :=
  (∀ k p req, rm_AppendEntries rm k p req = None) ∧ (∀ k p req, rm_InstallSnapshot rm k p req = None).

Lemma installSnapshot_unreachable rm calls peer n : unreachable rm →
  ∃ n' calls', installSnapshot rm calls peer n = (n', false, calls') ∧ same_reign n n'.
Proof.
  intros [_ Hi]. unfold installSnapshot, install_check. pose proof (replState_reign n) as Hr.
  destruct (_ || _); simpl; [by eexists _, _|]. destruct (replState n) as [st m]. simpl in Hr |- *.
  destruct (flying st peer); simpl; [by eexists _, _|]. destruct (rm_Snapshot rm) as [snap|]; [|by eexists _, _].
  unfold install_begin. pose proof (replState_reign m) as Hr2. destruct (replState m) as [st2 m2]. simpl in Hr2.
  assert (Hm2 : same_reign n m2) by (unfold same_reign in *; intuition congruence).
  destruct (flying st2 peer); [by eexists _, _|]. rewrite Hi. unfold install_end. simpl. by eexists _, _.
Qed.

Lemma replicateToPeer_unreachable fuel rm calls peer n : unreachable rm →
  ∃ n' calls', replicateToPeer (S fuel) rm calls peer n = Some (n', false, calls') ∧ same_reign n n'.
Proof.
  intros Hu. pose proof (replState_reign n) as Hr. cbn [replicateToPeer]. unfold replicate_begin.
  destruct (negb _); [by eexists _, _|]. destruct (replState n) as [st m]. simpl in Hr.
  destruct (flying st peer); [by eexists _, _|]. destruct (_ <? firstIndex m).
  - destruct (installSnapshot_unreachable rm calls peer m Hu) as (n' & c' & -> & Hr'). eexists _, _. split; [done|].
    unfold same_reign in *. intuition congruence.
  - rewrite (proj1 Hu). unfold replicate_end. simpl. by eexists _, _.
Qed.

Lemma heartbeat_peers_unreachable fuel rm calls peers acks n : unreachable rm →
  ∃ n' calls', heartbeat_peers (S fuel) rm calls peers acks n = Some (n', acks, calls') ∧ same_reign n n'.
Proof.
  intros Hu. revert calls n. induction peers as [|p peers IH]; intros calls n; [by eexists _, _|]. cbn [heartbeat_peers].
  destruct (replicateToPeer_unreachable fuel rm calls p n Hu) as (n1 & c1 & -> & H1). cbn [mbind option_bind].
  destruct (IH c1 n1) as (n2 & c2 & -> & H2). eexists _, _. split; [done|]. unfold same_reign in *. intuition congruence.
Qed.

(** C28 (a leader without a quorum steps down): a leader none of whose peers can be
    reached ends its first heartbeat later than the minimal election timeout
    after the last acknowledgement of a majority as a follower that knows no
    leader; a heartbeat before that leaves it the leader. *)
Theorem partitioned_leader_steps_down fuel rm calls now1 now2 n :
  unreachable rm → n_role n = RoleLeader → n_peers n ≠ [] →
  ∃ n' calls', Loop_heartbeat (S fuel) rm calls now1 now2 n = Some (n', calls') ∧ n_term n' = n_term n ∧
    (electionTimeoutMin < now2 - n_lastQuorumAck n → n_role n' = RoleFollower ∧ n_leaderID n' = None) ∧
    (now2 - n_lastQuorumAck n <= electionTimeoutMin → n_role n' = RoleLeader).
Proof.
  intros Hu Hr Hp. unfold Loop_heartbeat, sendHeartbeats. rewrite bool_decide_true by done. simpl.
  destruct (heartbeat_peers_unreachable fuel rm calls (n_peers n) 1 n Hu) as (n1 & c1 & -> & (R1 & R2 & R3 & R4)).
  cbn [mbind option_bind]. eexists _, _. split; [reflexivity|].
  assert (heartbeat_end now1 1 n1 = n1) as ->.
  { unfold heartbeat_end, majority. rewrite R3. destruct (n_peers n) as [|p ps]; [done|]. rewrite zlen_cons.
    pose proof (zlen_nonneg ps). destruct (Z.leb_spec ((1 + zlen ps + 1) / 2 + 1) 1).
    - exfalso. Z.to_euclidean_division_equations. lia.
    - by rewrite andb_false_r. }
  unfold quorum_check. rewrite R1, R4, Hr, bool_decide_true by done. simpl.
  destruct (Z.ltb_spec electionTimeoutMin (now2 - n_lastQuorumAck n)); simpl; rewrite ?R2; split_and!; try done; try lia.
  intros _. congruence.
Qed.

Lemma partitioned_leader_steps_down_witness :
  let n := demo_leader 1 [] in
  let rm := mkRemote (λ _ _ _, None) (λ _ _ _, None) None in
  unreachable rm ∧ n_role n = RoleLeader ∧
  ∃ n' calls', Loop_heartbeat 1 rm 0 0 (electionTimeoutMin + 1) n = Some (n', calls') ∧ n_term n' = n_term n ∧
    (electionTimeoutMin < electionTimeoutMin + 1 - n_lastQuorumAck n → n_role n' = RoleFollower ∧ n_leaderID n' = None) ∧
    (electionTimeoutMin + 1 - n_lastQuorumAck n <= electionTimeoutMin → n_role n' = RoleLeader).
Proof.
  intros n rm. split; [done|]. split; [done|].
  apply (partitioned_leader_steps_down 0 rm 0 0 (electionTimeoutMin + 1) n); [done|done|vm_compute; congruence].
Defined.
