(* ===== verification/RaftApplied.v ===== *)
(** * RaftApplied: what clients and the state machine get

    The apply loop executes the committed entries in order, once each, and
    hands every waiter its result; [propose] acknowledges what is on the
    leader's disk; and the interleavings in which those guarantees fail. *)

From S2P Require Import Prelude GoLib Engine MemStore RaftNode RaftLeader RaftApply RaftLog.

Section statemachine.
Context `{Engine SM}.

(** ** The apply loop *)

(** The reference: the commands one after the other, each at its own time. *)
Fixpoint run_entries (clock : list Z) (es : list Entry) (s : SM) : list (res any) * SM :=
  match clock, es with
  | now :: clock, e :: es =>
      let '(r, s) := applyCmd now (Cmd e) s in
      let '(rs, s) := run_entries clock es s in
      (r :: rs, s)
  | _, _ => ([], s)
  end.

Lemma apply_iter_some now n s t e :
  n_lastApplied n < n_commitIndex n → entryAt n (n_lastApplied n + 1) = Some e →
  apply_iter now n s t =
    (set_lastApplied (n_lastApplied n + 1) n, (applyCmd now (Cmd e) s).2,
     applied (n_lastApplied n + 1) (applyCmd now (Cmd e) s).1 t).
Proof.
  intros Hlt He. unfold apply_iter, apply_pick. destruct (Z.leb_spec (n_commitIndex n) (n_lastApplied n)); [lia|].
  rewrite He. unfold apply_rest, apply_finish. destruct (Z.leb_spec (n_lastApplied n + 1) (n_lastApplied n)); [lia|].
  destruct (applyCmd now (Cmd e) s) as [r s']. by destruct (Z.ltb_spec (n_lastApplied n) (n_lastApplied n + 1)); [|lia].
Qed.

Lemma apply_idle clock n s t : n_commitIndex n <= n_lastApplied n → applyLoop clock n s t = (n, s, t).
Proof.
  intros Hle. induction clock as [|now clock IH]; simpl; [done|].
  unfold apply_iter at 1, apply_pick. by destruct (Z.leb_spec (n_commitIndex n) (n_lastApplied n)); [|lia].
Qed.

(** Applying an index leaves the results and the closed channels of the
    others alone. *)
Lemma applied_Result i r t j : Result j (applied i r t) = if decide (i = j) then r else Result j t.
Proof. unfold Result, applied. simpl. rewrite lookup_insert. by case_decide. Qed.

Lemma applied_waiters i r t j : i ≠ j → waiters (applied i r t) !! j = waiters t !! j.
Proof. intros. unfold applied. simpl. by apply lookup_delete_ne. Qed.

(** The loop on the entries from [lastApplied + 1] to the commit index. *)
Lemma applyLoop_run es clock n s t n' s' t' :
  zlen es = n_commitIndex n - n_lastApplied n → (length es <= length clock)%nat →
  (∀ k e, es !! k = Some e → entryAt n (n_lastApplied n + 1 + Z.of_nat k) = Some e) →
  applyLoop clock n s t = (n', s', t') →
  n' = set_lastApplied (n_commitIndex n) n ∧ s' = (run_entries clock es s).2 ∧
  (∀ j, j <= n_lastApplied n → Result j t' = Result j t) ∧
  (∀ ch, ch ∈ closed t → ch ∈ closed t') ∧
  (∀ k r, (run_entries clock es s).1 !! k = Some r →
     Result (n_lastApplied n + 1 + Z.of_nat k) t' = r ∧
     ∀ ch, ch ∈ default [] (waiters t !! (n_lastApplied n + 1 + Z.of_nat k)) → ch ∈ closed t').
Proof.
  revert clock n s t; induction es as [|e es IH]; intros clock n s t Hlen Hcl He.
  - rewrite zlen_nil in Hlen. rewrite apply_idle by lia. intros [= <- <- <-].
    assert (run_entries clock [] s = ([], s)) as -> by (by destruct clock).
    split_and!; try done. replace (n_commitIndex n) with (n_lastApplied n) by lia. by destruct n.
  - destruct clock as [|now clock]; [simpl in Hcl; lia|]. rewrite zlen_cons in Hlen. simpl in Hcl.
    pose proof (zlen_nonneg es) as Hnn. cbn [applyLoop run_entries].
    pose proof (He 0%nat e eq_refl) as He0. rewrite Z.add_0_r in He0.
    rewrite (apply_iter_some now n s t e) by (done || lia). cbn iota beta.
    destruct (applyCmd now (Cmd e) s) as [r s1]. cbn [fst snd]. set (t1 := applied _ r t).
    assert (Hw : ∀ j, n_lastApplied n + 1 ≠ j → waiters t1 !! j = waiters t !! j) by (intros; by apply applied_waiters).
    assert (Hr : ∀ j, Result j t1 = if decide (n_lastApplied n + 1 = j) then r else Result j t) by (intros; apply applied_Result).
    assert (Hc : ∀ ch, ch ∈ closed t ∨ ch ∈ default [] (waiters t !! (n_lastApplied n + 1)) → ch ∈ closed t1)
      by (intros ch; unfold t1, applied; simpl; set_solver).
    clearbody t1.
    intros Hloop. destruct (IH clock (set_lastApplied (n_lastApplied n + 1) n) s1 t1) as (H1 & H2 & H3 & H4 & H5);
      [simpl; lia|lia| |exact Hloop|].
    { intros k x Hk. simpl. rewrite (entryAt_ext n) by done.
      replace (n_lastApplied n + 1 + 1 + Z.of_nat k) with (n_lastApplied n + 1 + Z.of_nat (S k)) by lia.
      by apply He. }
    destruct (run_entries clock es s1) as [rs s2]. simpl in *. split_and!; try done.
    + intros j Hj. rewrite H3, Hr by lia. by rewrite decide_False by lia.
    + intros ch Hch. apply H4, Hc. by left.
    + intros [|k] r' Hk; simpl in Hk.
      * simplify_eq. rewrite Z.add_0_r. split.
        -- rewrite H3, Hr by lia. by rewrite decide_True.
        -- intros ch Hch. apply H4, Hc. by right.
      * replace (n_lastApplied n + 1 + Z.of_nat (S k)) with (n_lastApplied n + 1 + 1 + Z.of_nat k) by lia.
        destruct (H5 k r' Hk) as [H6 H7]. split; [done|]. intros ch Hch. apply H7.
        by rewrite Hw by lia.
Qed.

(** C11 (the apply loop): when the log holds every entry between the applied
    and the commit index, the loop executes exactly those entries on the
    state machine, in log order and once each, brings the applied index up to
    the commit index, records for every index the result of its own entry and
    wakes everyone who waits for it. *)
Theorem applyLoop_exactly_once es clock n s t n' s' t' :
  zlen es = n_commitIndex n - n_lastApplied n → (length es <= length clock)%nat →
  (∀ k e, es !! k = Some e → entryAt n (n_lastApplied n + 1 + Z.of_nat k) = Some e) →
  applyLoop clock n s t = (n', s', t') →
  n' = set_lastApplied (n_commitIndex n) n ∧ s' = (run_entries clock es s).2 ∧
  length (run_entries clock es s).1 = length es ∧
  (∀ k r, (run_entries clock es s).1 !! k = Some r →
     Result (n_lastApplied n + 1 + Z.of_nat k) t' = r ∧
     ∀ ch, ch ∈ default [] (waiters t !! (n_lastApplied n + 1 + Z.of_nat k)) → ch ∈ closed t').
Proof.
  intros Hlen Hcl He Hloop.
  destruct (applyLoop_run es clock n s t n' s' t' Hlen Hcl He Hloop) as (H1 & H2 & _ & _ & H5).
  split_and!; try done. clear -Hcl. revert clock s Hcl; induction es as [|e es IH]; intros [|now clock] s Hcl;
    simpl in *; try done; [lia|].
  destruct (applyCmd now (Cmd e) s) as [r s1]. specialize (IH clock s1).
  destruct (run_entries clock es s1) as [rs s2]. simpl in *. rewrite IH; lia.
Qed.

(** ** propose *)

(** Propose: a node that is not the leader changes nothing and names the
    leader it knows.  Alone in its cluster, the leader appends, commits and
    executes the command before it answers.  With peers it answers success
    exactly when the entry is in its own durable log (if it has a store); the
    command is then neither committed nor executed, so the acknowledgement
    precedes the majority commit the README promises. *)
Theorem propose_spec now o cmd n d (s : SM) r n' d' s' b :
  propose now o cmd n d s = (r, n', d', s', b) →
  (n_role n ≠ RoleLeader →
    r = Err (NotLeaderError (default ""%string (n_leaderID n))) ∧ n' = n ∧ d' = d ∧ s' = s ∧ b = false) ∧
  (n_role n = RoleLeader →
    entryAt n' (lastLogIndex n') = Some (mkEntry (n_term n) cmd) ∧ lastLogIndex n' = lastLogIndex n + 1 ∧
    (∀ i, i <= lastLogIndex n → entryAt n' i = entryAt n i) ∧
    (n_peers n = [] →
      n_commitIndex n' = lastLogIndex n' ∧ s' = (applyCmd now cmd s).2 ∧
      r = (match (applyCmd now cmd s).1 with Ok _ => Ok () | Err e => Err e end)) ∧
    (n_peers n ≠ [] →
      s' = s ∧ n_commitIndex n' = n_commitIndex n ∧ (r = Ok () ↔ b = true) ∧
      (r = Ok () → n_hasStore n = true → rs_Log d' = n_log n'))).
Proof.
  unfold propose. destruct (decide (n_role n = RoleLeader)) as [Hr|Hr].
  2: { rewrite bool_decide_false by done. simpl. intros [= <- <- <- <- <-]. split; [done|congruence]. }
  rewrite bool_decide_true by done. cbn [negb]. intros Hrun. split; [done|]. intros _.
  assert (Hn' : n_log n' = n_log n ++ [mkEntry (n_term n) cmd] ∧ n_lastIncludedIndex n' = n_lastIncludedIndex n).
  { revert Hrun. case_bool_decide; [destruct (applyCmd now cmd s); by intros [= <- <- <- <- <-]|].
    destruct (persist o _ d) as [[ok n2] d2] eqn:E. rewrite (persist_node _ _ _ _ _ _ E).
    destruct ok; by intros [= <- <- <- <- <-]. }
  destruct Hn' as [Hlog Hbase]. destruct (append_tail_spec n (mkEntry (n_term n) cmd) [] (lastLogIndex n + 1) eq_refl)
    as (A1 & A2 & A3). rewrite zlen_nil, Z.add_0_r in A3.
  assert (Hent : ∀ i, entryAt n' i = entryAt (set_log (n_log n ++ [mkEntry (n_term n) cmd]) n) i)
    by (intros; by apply entryAt_ext).
  assert (Hlast : lastLogIndex n' = lastLogIndex n + 1) by (rewrite <- A3; by apply lastLogIndex_ext).
  split_and!; try done.
  - rewrite Hlast, Hent. specialize (A2 0%nat _ eq_refl). by rewrite Z.add_0_r in A2.
  - intros i Hi. rewrite Hent. apply A1. lia.
  - intros Hp. revert Hrun. rewrite bool_decide_true by done. destruct (applyCmd now cmd s) as [[v|e] s1];
      by intros [= <- <- <- <- <-].
  - intros Hp. revert Hrun. rewrite bool_decide_false by done.
    destruct (persist o (append_entry cmd n) d) as [[ok n2] d2] eqn:E. pose proof (persist_node _ _ _ _ _ _ E) as Hn2.
    destruct ok; intros [= <- <- <- <- <-]; rewrite Hn2; split_and!; try done.
    intros _ Hst. apply persist_ok in E as [(_ & _ & Hd)|(_ & -> & _)]; [by specialize (Hd Hst)|done].
Qed.
End statemachine.

Lemma applyLoop_exactly_once_witness :
  let n := set_commitIndex 2 (demo_follower [mkEntry 1 (Incr_cmd "k"); mkEntry 1 (Incr_cmd "k")]) in
  let r := applyLoop [5; 6; 7] n NewMemStore newApplyTracker in
  n_lastApplied r.1.1 = 2 ∧ Result 2 r.2 = Ok (AInt 2).
Proof.
  intros n r.
  destruct (applyLoop_exactly_once (n_log n) [5; 6; 7] n NewMemStore newApplyTracker r.1.1 r.1.2 r.2)
    as (H1 & _ & _ & H2).
  - vm_compute. reflexivity.
  - vm_compute. lia.
  - intros [|[|k]] e He; [..|done]; vm_compute in He; simplify_eq; vm_compute; reflexivity.
  - vm_compute. reflexivity.
  - split; [rewrite H1; vm_compute; reflexivity|]. apply (H2 1%nat). vm_compute. reflexivity.
Defined.

Lemma propose_spec_witness :
  let n := demo_leader 1 [] in
  let r := propose 0 Saved (demo_put "x") n (durable n) NewMemStore in
  n_role n = RoleLeader ∧ n_peers n ≠ [] ∧ r.1.1.1.1 = Ok () ∧ n_commitIndex r.1.1.1.2 = 0 ∧ r.1.2 = NewMemStore.
Proof.
  intros n r.
  destruct (propose_spec 0 Saved (demo_put "x") n (durable n) NewMemStore
    r.1.1.1.1 r.1.1.1.2 r.1.1.2 r.1.2 r.2) as [_ H]; [vm_compute; reflexivity|].
  destruct H as (_ & _ & _ & _ & H); [vm_compute; reflexivity|].
  destruct H as (H1 & H2 & _ & _); [vm_compute; congruence|].
  split_and!; [vm_compute; reflexivity|vm_compute; congruence|vm_compute; reflexivity
              |rewrite H2; vm_compute; reflexivity|exact H1].
Defined.

(** ** Where the guarantees stop *)

(** Leader A proposes an increment of [k] and waits for index 1; before the
    entry is committed, C becomes leader and puts [other] at index 1, which
    is applied.  The node, its state machine, and what the waiting call gets. *)
Definition overwritten_incr (other : Command) : option (res any) * MemStore :=
  let n0 := demo_leader 1 [] in
  let '(p, n1, d1, s1, tr) :=
    proposeWait_begin 0 Saved (Incr_cmd "k") n0 (durable n0) NewMemStore (Some newApplyTracker) in
  let '(_, n2, _) := HandleAppendEntries Saved (mkAppendReq 2 "C" 0 0 [mkEntry 2 other] 1) n1 d1 in
  match p, tr with
  | Waiting idx ch, Some t1 =>
      let '(_, s, t2) := apply_iter 1 n2 s1 t1 in (proposeWait_end CaseApplied idx ch t2, s)
  | _, _ => (None, s1)
  end.

(** A waiter gets another entry's result: waiters are keyed by index
    only.  When the proposed entry is overwritten by a new leader's, the
    waiting [Incr] of [k] returns the result of whatever was applied at its
    index: success with the value of another key's counter, while [k] was
    never incremented; or, if the other entry produces no value, the type
    assertion panics. *)
Theorem incr_returns_anothers_result :
  (∃ r, (overwritten_incr (Incr_cmd "j")).1 = Some r ∧ Incr_return r = Returns (Ok 1) ∧
        (eGet 2 "k" (overwritten_incr (Incr_cmd "j")).2).1 = Err ErrNotFound) ∧
  (∃ r, (overwritten_incr (Put_cmd "j" "v")).1 = Some r ∧ Incr_return r = Panics).
Proof.
  split; eexists; (split; [vm_compute; reflexivity|]); [split|]; vm_compute; reflexivity.
Qed.

(** A delayed append loses a committed entry: a follower holds two
    entries and knows that both are committed; an older request of the same
    leader that carried only the first, delivered late, makes it drop the
    second (Raft removes entries only where they conflict).  Its commit index
    is past the end of its log, the apply loop marks index 2 as applied
    without executing anything, and when the leader sends the entry again it
    is never executed: the follower keeps the old value for good. *)
Theorem delayed_append_skips_committed :
  let n0 := demo_follower [] in
  let e1 := mkEntry 1 (demo_put "x") in
  let e2 := mkEntry 1 (demo_put "y") in
  let '(r1, n1, d1) := HandleAppendEntries Saved (mkAppendReq 1 "A" 0 0 [e1; e2] 2) n0 (durable n0) in
  let '(r2, n2, d2) := HandleAppendEntries Saved (mkAppendReq 1 "A" 0 0 [e1] 0) n1 d1 in
  let '(n3, s3, t3) := applyLoop [1; 2] n2 NewMemStore newApplyTracker in
  let '(r4, n4, d4) := HandleAppendEntries Saved (mkAppendReq 1 "A" 1 1 [e2] 2) n3 d2 in
  let '(n5, s5, t5) := applyLoop [3; 4; 5] n4 s3 t3 in
  ar_Success r1 = true ∧ n_log n1 = [e1; e2] ∧ n_commitIndex n1 = 2 ∧
  ar_Success r2 = true ∧ n_log n2 = [e1] ∧ rs_Log d2 = [e1] ∧ n_commitIndex n2 = 2 ∧
  n_lastApplied n3 = 2 ∧
  ar_Success r4 = true ∧ n_log n5 = [e1; e2] ∧ n_lastApplied n5 = 2 ∧ (eGet 6 "k" s5).1 = Ok "x"%string.
Proof. vm_compute. split_and!; reflexivity. Qed.

(** A restore undoes an applied entry: [HandleInstallSnapshot] raises
    [lastApplied] before it takes [applyMu] to restore the data.  The apply
    loop can run in that window: it executes entry 2, and then the data of
    the snapshot, taken at index 1, replaces the state machine.  Entry 2
    counts as applied and its effect is gone. *)
Theorem restore_undoes_applied_entry :
  let e1 := mkEntry 1 (demo_put "x") in
  let e2 := mkEntry 1 (demo_put "y") in
  let snapshot := (ePut 0 "k" "x" NewMemStore).2 in
  let ApplySnapshot := λ (_ : bytes) (_ : MemStore), (Ok () : res unit, snapshot) in
  let n0 := SetSnapshotSink (set_commitIndex 2 (demo_follower [e1; e2])) in
  let req := mkInstallReq 1 "A" 1 1 [] in
  let '(n1, resp, rest) := install_locked req n0 in
  let '(n2, s2, t2) := apply_iter 1 n1 NewMemStore newApplyTracker in
  let s3 := (ApplySnapshot (iq_Data req) s2).2 in
  rest = Some true ∧ n_lastApplied n2 = 2 ∧ (eGet 2 "k" s2).1 = Ok "y"%string ∧
  (eGet 2 "k" s3).1 = Ok "x"%string ∧ apply_pick n2 = None.
Proof. vm_compute. split_and!; reflexivity. Qed.
