(* ===== verification/RaftCluster.v ===== *)
(** * RaftCluster: a cluster of nodes as a transition system

    The nodes of RaftNode and RaftLeader, each with its disk, its election
    goroutine and its handlers waiting for [persist], connected by a network
    that may lose, delay, reorder and duplicate messages.  A step is one
    critical section of the code on one node: everything between a lock and
    its unlock.  Nodes crash at any step and come back from their disk. *)

From S2P Require Import Prelude GoLib Engine RaftNode RaftLeader RaftApply.

(** ** State *)

(** An election in progress ([startElection]): the request, whether the
    self-vote was persisted and the request sent, the votes counted and the
    peers whose response was read. *)
Record Election : Type := mkElection {
  el_req : VoteRequest;
  el_sent : bool;
  el_votes : Z;
  el_heard : list string
}.

(** Inbound handlers that wait for [persist] before they answer. *)
Inductive waiting : Type :=
| PVote (req : VoteRequest) (resp : VoteResponse)
| PAppend (req : AppendEntriesRequest) (resp : AppendEntriesResponse)
| PInstall (req : InstallSnapshotRequest) (resp : InstallSnapshotResponse).

Record Local : Type := mkLocal {
  l_node : Node;
  l_disk : RaftState;
  l_elec : option Election;
  l_waiting : list waiting
}.

Inductive msg : Type :=
| MVote (to : string) (req : VoteRequest)
| MVoteResp (from : string) (req : VoteRequest) (resp : VoteResponse)
| MAppend (to : string) (req : AppendEntriesRequest)
| MAppendResp (from : string) (req : AppendEntriesRequest) (resp : AppendEntriesResponse)
| MInstall (to : string) (req : InstallSnapshotRequest)
| MInstallResp (from : string) (req : InstallSnapshotRequest) (resp : InstallSnapshotResponse).

(** The cluster: the nodes, every message sent so far, and the history of the
    elections won (node and term), which no step reads. *)
Record Cluster : Type := mkCluster {
  c_local : string → Local;
  c_net : list msg;
  c_led : list (string * Z)
}.

Definition set_node (n : Node) (l : Local) : Local := mkLocal n (l_disk l) (l_elec l) (l_waiting l).
Definition set_elec (e : option Election) (l : Local) : Local := mkLocal (l_node l) (l_disk l) e (l_waiting l).
Definition set_waiting (w : list waiting) (l : Local) : Local := mkLocal (l_node l) (l_disk l) (l_elec l) w.

(** [persist] on a node of the cluster: whether it succeeded. *)
Definition persist_local (o : save_outcome) (l : Local) : bool * Local :=
  let '(ok, n, d) := persist o (l_node l) (l_disk l) in
  (ok, mkLocal n d (l_elec l) (l_waiting l)).

(** The answer of a handler once [persist] returned. *)
Definition answer (i : string) (w : waiting) (ok : bool) (n : Node) : msg :=
  match w with
  | PVote req resp => MVoteResp i req (if ok then resp else mkVoteResp (n_term n) false)
  | PAppend req resp => MAppendResp i req (if ok then resp else mkAppendResp (n_term n) false)
  | PInstall req resp => MInstallResp i req resp
  end.

Section cluster.
Context (members : list string).

Definition peers_of (i : string) : list string := filter (λ j, j ≠ i) members.

(** A node that starts, on an empty disk or after a crash. *)
Definition boot (i : string) (d : RaftState) : Local :=
  mkLocal (SetSnapshotSink (SetSnapshotter (SetRaftStore d (NewNode i (peers_of i))))) d None [].

Definition init : Cluster := mkCluster (λ i, boot i RaftState_zero) [] [].

Definition update (i : string) (l : Local) (ms : list msg) (c : Cluster) : Cluster :=
  mkCluster (λ j, if decide (j = i) then l else c_local c j) (ms ++ c_net c) (c_led c).

(** Steps the code can take and that break a rule of Raft.  To elections: a
    leader that lost its quorum clears its vote, the end of an old election
    clears the vote of a node that moved on, a deposed leader sends a snapshot
    under the term of its successor.  To the logs: the base of a log moves.  To
    what is committed: a request drops entries of its own term, entries
    of the term are acknowledged before they are saved, a node is elected with the match
    indices of an earlier leadership, a leader counts its own unsaved entries. *)
Inductive hazard : Type :=
| QuorumLoss | StaleTail | StaleInstall
| Rebase
| ShortAppend | UnsavedAck | StaleMatch | UnsavedCommit.
Global Instance hazard_eq_dec : EqDecision hazard.
Proof. solve_decision. Defined.

(** Which hazard the end of an election is. *)
Definition tail_hazard (req : VoteRequest) (n : Node) : option hazard :=
  if bool_decide (n_role n = RoleCandidate) && (n_term n =? vq_Term req) then None else Some StaleTail.

Definition elected_hazard (n : Node) : option hazard :=
  match n_repl n with
  | Some st => if existsb (λ p, 0 <? at0 (matchIndex st) p) (n_peers n) then Some StaleMatch else None
  | None => None
  end.

Definition quorum_hazard (now : Z) (n : Node) : option hazard :=
  if bool_decide (n_role n = RoleLeader) && (electionTimeoutMin <? now - n_lastQuorumAck n)
  then Some QuorumLoss else None.

(** The entries of [n] beyond the last one of the request. *)
Definition beyond (req : AppendEntriesRequest) (n : Node) : list Entry :=
  drop (Z.to_nat (aq_PrevLogIndex req + zlen (aq_Entries req) - n_lastIncludedIndex n)) (n_log n).

(** The disk [d] has the term of [n] and its log up to index [k]. *)
Definition saved (k : Z) (d : RaftState) (n : Node) : Prop :=
  rs_Term d = n_term n ∧ rs_LastIncludedIndex d = n_lastIncludedIndex n ∧
  take (Z.to_nat (k - n_lastIncludedIndex n)) (rs_Log d) = take (Z.to_nat (k - n_lastIncludedIndex n)) (n_log n).
Global Instance saved_decision k d n : Decision (saved k d n).
Proof. unfold saved. apply _. Defined.

(** [n'], [resp] and [wait] are what [append_locked] makes of [n]. *)
Definition append_hazard (req : AppendEntriesRequest) (d : RaftState) (n n' : Node) (resp : AppendEntriesResponse) (wait : bool) :
    option hazard :=
  if ar_Success resp then
    if existsb (λ e, Term e =? aq_Term req) (beyond req n) then Some ShortAppend
    else if negb wait && existsb (λ e, Term e =? aq_Term req) (n_log n') &&
            negb (bool_decide (saved (aq_PrevLogIndex req + zlen (aq_Entries req)) d n'))
    then Some UnsavedAck
    else None
  else None.

Definition base_hazard (n n' : Node) : option hazard :=
  if n_lastIncludedIndex n' =? n_lastIncludedIndex n then None else Some Rebase.

Definition commit_hazard (d : RaftState) (n n' : Node) : option hazard :=
  if (n_commitIndex n <? n_commitIndex n') && negb (bool_decide (saved (n_commitIndex n') d n))
  then Some UnsavedCommit else None.

Definition installed_hazard (resp : option InstallSnapshotResponse) : option hazard :=
  match resp with Some r => if ir_Success r then Some Rebase else None | None => None end.

Inductive step : option hazard → Cluster → Cluster → Prop :=
(* election.go *)
| S_start c i (l := c_local c i) n' req :
    i ∈ members → l_elec l = None → n_role (l_node l) ≠ RoleLeader →
    election_begin (l_node l) = (n', req) →
    step None c (update i (set_elec (Some (mkElection req false 1 [])) (set_node n' l)) [] c)
| S_campaign c i (l := c_local c i) e o ok l' :
    i ∈ members → l_elec l = Some e → el_sent e = false → persist_local o l = (ok, l') →
    step None c
      (if ok then update i (set_elec (Some (mkElection (el_req e) true (el_votes e) (el_heard e))) l')
                    (flip MVote (el_req e) <$> n_peers (l_node l)) c
       else update i (set_elec None l') [] c)
| S_tally c i (l := c_local c i) e p resp v n' :
    i ∈ members → l_elec l = Some e → el_sent e = true → p ∈ n_peers (l_node l) → p ∉ el_heard e →
    MVoteResp p (el_req e) resp ∈ c_net c →
    election_response resp (el_votes e) (l_node l) = (v, n') →
    step None c (update i
      (set_elec ((λ v, mkElection (el_req e) true v (p :: el_heard e)) <$> v) (set_node n' l)) [] c)
| S_elected c i (l := c_local c i) e (n' := election_end (el_req e) (el_votes e) (majority (n_peers (l_node l))) (l_node l)) :
    i ∈ members → l_elec l = Some e → el_sent e = true →
    majority (n_peers (l_node l)) <= el_votes e → n_role (l_node l) = RoleCandidate →
    n_term (l_node l) = vq_Term (el_req e) →
    step (elected_hazard (l_node l)) c
      (let c' := update i (set_elec None (set_node n' l)) [] c in
       mkCluster (c_local c') (c_net c') ((i, n_term (l_node l)) :: c_led c'))
| S_not_elected c i (l := c_local c i) e (n' := election_end (el_req e) (el_votes e) (majority (n_peers (l_node l))) (l_node l)) :
    i ∈ members → l_elec l = Some e → el_sent e = true →
    ¬ (majority (n_peers (l_node l)) <= el_votes e ∧ n_role (l_node l) = RoleCandidate ∧
       n_term (l_node l) = vq_Term (el_req e)) →
    step (tail_hazard (el_req e) (l_node l)) c (update i (set_elec None (set_node n' l)) [] c)
| S_heartbeat_end c i now acks :
    i ∈ members →
    step None c (update i (set_node (heartbeat_end now acks (l_node (c_local c i))) (c_local c i)) [] c)
| S_quorum_loss c i now :
    i ∈ members →
    step (quorum_hazard now (l_node (c_local c i))) c (update i (set_node (quorum_check now (l_node (c_local c i))) (c_local c i)) [] c)
(* node.go and the receiving side of snapshot.go *)
| S_vote c i (l := c_local c i) req n' resp wait :
    i ∈ members → MVote i req ∈ c_net c → vote_locked req (l_node l) = (n', resp, wait) →
    step None c
      (if wait : bool then update i (set_waiting (PVote req resp :: l_waiting l) (set_node n' l)) [] c
       else update i (set_node n' l) [MVoteResp i req resp] c)
| S_append c i (l := c_local c i) req n' resp wait :
    i ∈ members → MAppend i req ∈ c_net c → append_locked req (l_node l) = (n', resp, wait) →
    step (append_hazard req (l_disk l) (l_node l) n' resp wait) c
      (if wait : bool then update i (set_waiting (PAppend req resp :: l_waiting l) (set_node n' l)) [] c
       else update i (set_node n' l) [MAppendResp i req resp] c)
| S_install c i (l := c_local c i) req n' resp rest :
    i ∈ members → MInstall i req ∈ c_net c → install_locked req (l_node l) = (n', resp, rest) →
    step (base_hazard (l_node l) n') c
      (if rest is Some _ then update i (set_waiting (PInstall req resp :: l_waiting l) (set_node n' l)) [] c
       else update i (set_node n' l) [MInstallResp i req resp] c)
| S_answer c i (l := c_local c i) o ok l' ws1 w ws2 :
    i ∈ members → l_waiting l = ws1 ++ w :: ws2 → persist_local o l = (ok, l') →
    step None c (update i (set_waiting (ws1 ++ ws2) l') [answer i w ok (l_node l')] c)
(* leader.go and the sending side of snapshot.go *)
| S_replicate c i (l := c_local c i) p n' b :
    i ∈ members → p ∈ n_peers (l_node l) → replicate_begin p (l_node l) = (n', b) →
    step None c (update i (set_node n' l) (if b is ReplSend req then [MAppend p req] else []) c)
| S_replicated c i (l := c_local c i) p req resp :
    i ∈ members → (∀ r, resp = Some r → MAppendResp p req r ∈ c_net c) →
    step (commit_hazard (l_disk l) (l_node l) (replicate_end p req resp (l_node l)).1) c
      (update i (set_node (replicate_end p req resp (l_node l)).1 l) [] c)
| S_install_check c i (l := c_local c i) p :
    i ∈ members → step None c (update i (set_node (install_check p (l_node l)).1 l) [] c)
| S_install_begin c i (l := c_local c i) p snap n' r :
    i ∈ members → p ∈ n_peers (l_node l) → install_begin p snap (l_node l) = (n', r) →
    step (if bool_decide (n_role (l_node l) = RoleLeader) then None else Some StaleInstall) c
      (update i (set_node n' l) (if r is Some req then [MInstall p req] else []) c)
| S_installed c i (l := c_local c i) p snap req resp :
    i ∈ members → (∀ r, resp = Some r → MInstallResp p req r ∈ c_net c) →
    step (installed_hazard resp) c (update i (set_node (install_end p snap resp (l_node l)).1 l) [] c)
| S_propose c i (l := c_local c i) cmd :
    i ∈ members → n_role (l_node l) = RoleLeader →
    step None c (update i (set_node (append_entry cmd (l_node l)) l) [] c)
| S_compact c i (l := c_local c i) idx t :
    i ∈ members →
    step (base_hazard (l_node l) (CompactLog idx t (l_node l))) c
      (update i (set_node (CompactLog idx t (l_node l)) l) [] c)
| S_applied c i (l := c_local c i) idx :
    i ∈ members → idx <= n_commitIndex (l_node l) → step None c (update i (set_node (apply_finish idx (l_node l)) l) [] c)
(* persistence.go *)
| S_persist c i (l := c_local c i) o :
    i ∈ members → step None c (update i (persist_local o l).2 [] c)
| S_crash c i (l := c_local c i) :
    i ∈ members → step None c (update i (boot i (l_disk l)) [] c)
(* the reset case of [Loop] *)
| S_heard c i (l := c_local c i) :
    i ∈ members → step None c (update i (set_node (clear_reset (l_node l)) l) [] c).

(** Executions whose hazards are all allowed. *)
Inductive run (ok : option hazard → bool) : Cluster → Cluster → Prop :=
| run_refl c : run ok c c
| run_snoc c1 c2 c3 h : run ok c1 c2 → step h c2 c3 → ok h = true → run ok c1 c3.
End cluster.

(** The cases of a step, with the names the proofs use. *)
Ltac step_cases H :=
  destruct H as
    [c i l n' req Hi He Hr Hb|c i l e o ok l' Hi He Hs Hp|c i l e p resp v n' Hi He Hs Hp Hh' Hin Hr
    |c i l e n' Hi He Hs Hq Hr Ht|c i l e n' Hi He Hs Hn|c i now acks Hi|c i now Hi
    |c i l req n' resp wait Hi Hin Hv|c i l req n' resp wait Hi Hin Hv|c i l req n' resp rest Hi Hin Hv
    |c i l o ok l' ws1 w ws2 Hi Hw Hp|c i l p n' b Hi Hp Hb|c i l p req resp Hi Hin|c i l p Hi
    |c i l p snap n' r Hi Hp Hb|c i l p snap req resp Hi Hin|c i l cmd Hi Hr|c i l idx t Hi|c i l idx Hi Hidx
    |c i l o Hi|c i l Hi|c i l Hi].

(** Every execution, those that keep elections safe, those that also keep the
    logs whole, and those that keep all the rules. *)
Definition steps (members : list string) : Cluster → Cluster → Prop := run members (λ _, true).
Definition elections_ok (h : option hazard) : bool :=
  match h with Some (QuorumLoss | StaleTail | StaleInstall) => false | _ => true end.
Definition safe_steps (members : list string) : Cluster → Cluster → Prop := run members elections_ok.
Definition logs_ok (h : option hazard) : bool :=
  match h with Some Rebase => false | _ => elections_ok h end.
Definition no_hazard (h : option hazard) : bool := if h is None then true else false.
Definition only (h : hazard) (x : option hazard) : bool := if x is Some h' then bool_decide (h' = h) else true.

Lemma run_weaken members ok ok' c c' :
  (∀ h, ok h = true → ok' h = true) → run members ok c c' → run members ok' c c'.
Proof. intros Hok. induction 1; [constructor|]. econstructor; eauto. Qed.
