(* ===== verification/RaftSafety.v ===== *)
(** * RaftSafety: at most one leader per term

    Election safety of the cluster in every execution without the three
    hazards of RaftCluster, and executions with them that elect two leaders
    in one term.  The invariant is local to a node ([linv]), given the
    messages sent and the elections won so far; each kind of change a step
    can make to role, term, vote and disk is one lemma. *)

From S2P Require Import Prelude GoLib Engine RaftNode RaftLeader RaftApply RaftLog RaftCluster.

Section safety.
Context (members : list string).

(** ** Votes *)

(** [v] answered that it votes for [k] in term [t]. *)
Definition grants (net : list msg) (v : string) (t : Z) (k : string) : Prop :=
  ∃ req resp, MVoteResp v req resp ∈ net ∧ vr_VoteGranted resp = true ∧ vq_Term req = t ∧ vq_CandidateID req = k.

(** A handler of the node waits for its vote to be durable. *)
Definition pends (ws : list waiting) (t : Z) (k : string) : Prop :=
  ∃ req resp, PVote req resp ∈ ws ∧ vq_Term req = t ∧ vq_CandidateID req = k.

(** The elections [i] can win with the votes it has. *)
Definition backed (net : list msg) (i : string) (t : Z) (votes : Z) (heard : list string) : Prop :=
  ∃ G, NoDup G ∧ G ⊆ heard ∧ G ⊆ peers_of members i ∧ (∀ p, p ∈ G → grants net p t i) ∧ votes = 1 + zlen G.

(** What role, term, vote and disk of a node promise. *)
Record linv (net : list msg) (led : list (string * Z)) (i : string) (l : Local) : Prop := mk_linv {
  li_id : n_id (l_node l) = i;
  li_peers : n_peers (l_node l) = peers_of members i;
  li_store : n_hasStore (l_node l) = true;
  li_vote : n_role (l_node l) ≠ RoleFollower → n_votedFor (l_node l) = Some i;
  li_disk : rs_Term (l_disk l) <= n_term (l_node l);
  li_clean : n_dirty (l_node l) = false →
    rs_Term (l_disk l) = n_term (l_node l) ∧ rs_VotedFor (l_disk l) = n_votedFor (l_node l);
  li_grant : ∀ t k, grants net i t k ∨ pends (l_waiting l) t k →
    k ≠ i ∧ t <= n_term (l_node l) ∧
    (n_term (l_node l) = t → n_votedFor (l_node l) = Some k ∧ n_role (l_node l) = RoleFollower);
  li_durable : ∀ t k, grants net i t k →
    t <= rs_Term (l_disk l) ∧ (rs_Term (l_disk l) = t → rs_VotedFor (l_disk l) = Some k);
  li_once : ∀ t k k', grants net i t k ∨ pends (l_waiting l) t k →
    grants net i t k' ∨ pends (l_waiting l) t k' → k = k';
  li_elec : ∀ e, l_elec l = Some e →
    vq_CandidateID (el_req e) = i ∧ vq_Term (el_req e) <= n_term (l_node l) ∧
    (el_sent e = true → n_role (l_node l) = RoleCandidate → n_term (l_node l) = vq_Term (el_req e) →
       rs_Term (l_disk l) = n_term (l_node l) ∧ rs_VotedFor (l_disk l) = Some i) ∧
    backed net i (vq_Term (el_req e)) (el_votes e) (el_heard e);
  li_led : ∀ t, (i, t) ∈ led →
    t <= n_term (l_node l) ∧ (n_term (l_node l) = t → n_votedFor (l_node l) = Some i) ∧
    t <= rs_Term (l_disk l) ∧ (rs_Term (l_disk l) = t → rs_VotedFor (l_disk l) = Some i) ∧
    (∃ votes heard, backed net i t votes heard ∧ majority (peers_of members i) <= votes);
  li_free : ∀ t k, (i, t) ∈ led → ¬ (grants net i t k ∨ pends (l_waiting l) t k);
  li_cand : n_role (l_node l) = RoleCandidate → (i, n_term (l_node l)) ∉ led;
  li_lead : n_role (l_node l) = RoleLeader → (i, n_term (l_node l)) ∈ led
}.

Lemma grants_app ms net v t k : grants (ms ++ net) v t k ↔ grants ms v t k ∨ grants net v t k.
Proof.
  unfold grants. split.
  - intros (req & resp & [Hin|Hin]%elem_of_app & ?); [left|right]; eauto.
  - intros [(req & resp & Hin & ?)|(req & resp & Hin & ?)]; exists req, resp; (split; [|done]); set_solver.
Qed.

Lemma backed_mono net net' i t v h :
  (∀ p t k, grants net p t k → grants net' p t k) → backed net i t v h → backed net' i t v h.
Proof. intros Hm (G & ? & ? & ? & Hg & ?). exists G. split_and!; try done. intros p Hp. by apply Hm, Hg. Qed.

(** Messages and elections of other nodes do not matter to a node. *)
Lemma linv_frame net led net' led' j l :
  linv net led j l →
  (∀ p t k, grants net p t k → grants net' p t k) → (∀ t k, grants net' j t k → grants net j t k) →
  (∀ t, (j, t) ∈ led' ↔ (j, t) ∈ led) → linv net' led' j l.
Proof.
  intros [] Hm Hg Hl.
  assert (Hgp : ∀ t k, grants net' j t k ∨ pends (l_waiting l) t k → grants net j t k ∨ pends (l_waiting l) t k)
    by (intros t k [?|?]; auto).
  constructor; try done.
  - auto.
  - auto.
  - intros t k k' Hk Hk'. apply (li_once0 t k k'); auto.
  - intros e He. destruct (li_elec0 e He) as (? & ? & ? & ?). split_and!; try done. by eapply backed_mono.
  - intros t Ht%Hl. destruct (li_led0 t Ht) as (? & ? & ? & ? & v & h & Hb & ?). split_and!; try done.
    exists v, h. split; [by eapply backed_mono|done].
  - intros t k Ht%Hl Hk. apply (li_free0 t k); auto.
  - intros Hr. rewrite Hl. auto.
  - intros Hr. rewrite Hl. auto.
Qed.

(** ** Changes of one node *)

(** Role, term, vote and identity as they were, and no claim of cleanness. *)
Definition same_vote (n n' : Node) : Prop :=
  n_role n' = n_role n ∧ n_term n' = n_term n ∧ n_votedFor n' = n_votedFor n ∧
  n_id n' = n_id n ∧ n_peers n' = n_peers n ∧ n_hasStore n' = n_hasStore n ∧
  (n_dirty n' = false → n_dirty n = false).

Lemma linv_same net led i l n' :
  linv net led i l → same_vote (l_node l) n' → linv net led i (set_node n' l).
Proof.
  intros [] (Hr & Ht & Hv & Hi & Hp & Hs & Hd). constructor; simpl; rewrite ?Hr, ?Ht, ?Hv, ?Hi, ?Hp, ?Hs; auto.
Qed.

(** A follower of a later term, with no vote. *)
Definition raised (t : Z) (n n' : Node) : Prop :=
  n_term n < t ∧ n_role n' = RoleFollower ∧ n_term n' = t ∧ n_votedFor n' = None ∧
  n_id n' = n_id n ∧ n_peers n' = n_peers n ∧ n_hasStore n' = n_hasStore n ∧ n_dirty n' = true.

Lemma linv_raised net led i l t n' :
  linv net led i l → raised t (l_node l) n' → linv net led i (set_node n' l).
Proof.
  intros [] (Hlt & Hr & Ht & Hv & Hi & Hp & Hs & Hd).
  constructor; simpl; rewrite ?Hr, ?Ht, ?Hv, ?Hi, ?Hp, ?Hs, ?Hd; try done.
  - lia.
  - intros u k Hu. destruct (li_grant0 u k Hu) as (? & ? & _). split_and!; [done|lia|lia].
  - intros e He. destruct (li_elec0 e He) as (? & ? & _ & ?). split_and!; try done. lia.
  - intros u Hu. destruct (li_led0 u Hu) as (? & _ & ? & ? & ?). split_and!; try done; lia.
Qed.

(** A candidate that gives up in its own term. *)
Definition cleared (n n' : Node) : Prop :=
  n_role n = RoleCandidate ∧ n_role n' = RoleFollower ∧ n_term n' = n_term n ∧ n_votedFor n' = None ∧
  n_id n' = n_id n ∧ n_peers n' = n_peers n ∧ n_hasStore n' = n_hasStore n ∧ n_dirty n' = true.

Lemma linv_cleared net led i l n' :
  linv net led i l → cleared (l_node l) n' → linv net led i (set_node n' l).
Proof.
  intros [] (Hc & Hr & Ht & Hv & Hi & Hp & Hs & Hd).
  constructor; simpl; rewrite ?Hr, ?Ht, ?Hv, ?Hi, ?Hp, ?Hs, ?Hd; try done.
  - intros u k Hu. destruct (li_grant0 u k Hu) as (? & ? & Hf). split_and!; [done..|].
    intros He. destruct (Hf He). congruence.
  - intros e He. destruct (li_elec0 e He) as (? & ? & _ & ?). split_and!; done.
  - intros u Hu. destruct (li_led0 u Hu) as (? & _ & ? & ? & ?). split_and!; try done.
    intros <-. by destruct (li_cand0 Hc).
Qed.

(** A vote given to [k] in the current term. *)
Lemma linv_voted net led i l req resp k t n' :
  linv net led i l → vq_CandidateID req = k → k ≠ i → vq_Term req = t → n_term (l_node l) = t →
  (n_votedFor (l_node l) = None ∨ n_votedFor (l_node l) = Some k) →
  n_role n' = n_role (l_node l) → n_term n' = t → n_votedFor n' = Some k → n_id n' = n_id (l_node l) →
  n_peers n' = n_peers (l_node l) → n_hasStore n' = n_hasStore (l_node l) → n_dirty n' = true →
  linv net led i (set_waiting (PVote req resp :: l_waiting l) (set_node n' l)).
Proof.
  intros [] Hreqk Hk Hreqt Htl Hfree Hr Ht Hv Hi Hp Hs Hd.
  assert (Hfol : n_role (l_node l) = RoleFollower).
  { destruct (decide (n_role (l_node l) = RoleFollower)) as [|Hn]; [done|].
    pose proof (li_vote0 Hn) as Hvi. destruct Hfree; congruence. }
  assert (Hpend : ∀ u x, grants net i u x ∨ pends (PVote req resp :: l_waiting l) u x →
    (grants net i u x ∨ pends (l_waiting l) u x) ∨ (u = t ∧ x = k)).
  { intros u x [?|(rq & rs & [[= -> ->]|Hin]%elem_of_cons & <- & <-)]; [by left; left|by right|].
    left. right. unfold pends. eauto. }
  assert (Hsame : ∀ x, grants net i t x ∨ pends (l_waiting l) t x → x = k).
  { intros x Hx. destruct (li_grant0 _ _ Hx) as (? & ? & Hf). destruct (Hf Htl) as [Hvx _].
    destruct Hfree; congruence. }
  constructor; simpl; rewrite ?Hr, ?Ht, ?Hv, ?Hi, ?Hp, ?Hs, ?Hd; rewrite ?Htl in *; try done.
  - intros u x [Hu|[-> ->]]%Hpend; [|split_and!; (done || lia)].
    destruct (li_grant0 u x Hu) as (? & ? & Hf). split_and!; [done..|]. intros <-.
    split; [|done]. f_equal. symmetry. auto.
  - intros u x y [Hx|[-> ->]]%Hpend [Hy|[Hyu ->]]%Hpend; subst; try done.
    + by eapply li_once0.
    + by apply Hsame.
    + symmetry. by apply Hsame.
  - intros u Hu. destruct (li_led0 u Hu) as (? & Hvi & ? & ? & ?). split_and!; try done.
    intros <-. pose proof (Hvi eq_refl). destruct Hfree; congruence.
  - intros u x Hu [Hx|[-> ->]]%Hpend; [by eapply li_free0|].
    destruct (li_led0 _ Hu) as (_ & Hvi & _). pose proof (Hvi eq_refl). destruct Hfree; congruence.
Qed.

(** [persist]: on success the disk agrees with the node. *)
Lemma linv_persist net led i l o ok l' :
  linv net led i l → persist_local o l = (ok, l') →
  linv net led i l' ∧ l_elec l' = l_elec l ∧ l_waiting l' = l_waiting l ∧
  same_vote (l_node l') (l_node l) ∧ (ok = true → n_dirty (l_node l') = false).
Proof.
  intros Hinv. unfold persist_local, persist. pose proof (li_store _ _ _ _ Hinv) as Hst. rewrite Hst. simpl.
  destruct (n_dirty (l_node l)) eqn:Hd; simpl.
  2: { intros [= <- <-]. destruct l; simpl in *. split_and!; done. }
  destruct (Save_cell o (durable (l_node l)) (l_disk l)) as [ok' d'] eqn:E.
  assert (Hd' : d' = durable (l_node l) ∨ d' = l_disk l ∧ ok' = false).
  { destruct o as [|[]]; simpl in E; simplify_eq; auto. }
  set (n' := if ok' then _ else _).
  assert (Hsame : same_vote n' (l_node l) ∧ same_vote (l_node l) (set_dirty true n') ∧ (ok' = true → n_dirty n' = false)
    ∧ (ok' = false → n_dirty n' = true)).
  { unfold n'. destruct ok'; unfold same_vote; simpl; rewrite ?Hd; split_and!; try done; by destruct (l_node l). }
  clearbody n'. destruct Hsame as (Hsame & (S1 & S2 & S3 & S4 & S5 & S6 & _) & Hcl & Hcl'). simpl in *.
  intros [= <- <-]. simpl. split_and!; try done; [|apply Hsame..].
  destruct Hinv. constructor; simpl; rewrite ?S1, ?S2, ?S3, ?S4, ?S5, ?S6; try done;
    destruct Hd' as [->|[-> ->]]; simpl; try done; try lia.
  - by rewrite Hcl'.
  - intros t k Hg. destruct (li_grant0 t k (or_introl Hg)) as (? & ? & Hf). split; [done|].
    intros He. by destruct (Hf He).
  - intros e He. destruct (li_elec0 e He) as (? & ? & ? & ?). split_and!; try done.
    intros _ Hc _. split; [done|]. apply li_vote0. congruence.
  - intros t Ht. destruct (li_led0 t Ht) as (? & ? & ? & ? & ?). split_and!; done.
Qed.

(** A waiting handler answers: the vote is durable, or it is not granted. *)
Lemma linv_answer net led i l ws1 w ws2 ok :
  linv net led i l → l_waiting l = ws1 ++ w :: ws2 → (ok = true → n_dirty (l_node l) = false) →
  linv (answer i w ok (l_node l) :: net) led i (set_waiting (ws1 ++ ws2) l).
Proof.
  intros [] Hw Hcl.
  assert (Hsub : ∀ t k, pends (ws1 ++ ws2) t k → pends (l_waiting l) t k).
  { intros t k (rq & rs & Hin & ?). exists rq, rs. split; [|done]. rewrite Hw. set_solver. }
  assert (Hgr : ∀ t k, grants (answer i w ok (l_node l) :: net) i t k →
    grants net i t k ∨ (pends (l_waiting l) t k ∧ ok = true)).
  { intros t k [Hg|Hg]%(grants_app [_]); [right|by left].
    destruct Hg as (rq & rs & Hin%list_elem_of_singleton & Hgr & <- & <-).
    destruct w as [req resp| |]; simpl in Hin; simplify_eq. destruct ok; [|done]. split; [|done].
    exists req, resp. split; [rewrite Hw; set_solver|done]. }
  assert (Hgp : ∀ t k, grants (answer i w ok (l_node l) :: net) i t k ∨ pends (ws1 ++ ws2) t k →
    grants net i t k ∨ pends (l_waiting l) t k).
  { intros t k [[?|[? _]]%Hgr|?%Hsub]; auto. }
  assert (Hmono : ∀ p t k, grants net p t k → grants (answer i w ok (l_node l) :: net) p t k).
  { intros p t k Hg. apply (grants_app [_]). by right. }
  constructor; simpl; try done.
  - auto.
  - intros t k [Hg|[Hg Hok]]%Hgr; [auto|]. destruct (li_grant0 t k (or_intror Hg)) as (? & ? & Hf).
    destruct (li_clean0 (Hcl Hok)) as [-> ->]. split; [done|]. intros He. by destruct (Hf He).
  - intros t k k' Hk Hk'. apply (li_once0 t); auto.
  - intros e He. destruct (li_elec0 e He) as (? & ? & ? & ?). split_and!; try done. by eapply backed_mono.
  - intros t Ht. destruct (li_led0 t Ht) as (? & ? & ? & ? & v & h & Hb & ?). split_and!; try done.
    exists v, h. split; [by eapply backed_mono|done].
  - intros t k Ht Hk. apply (li_free0 t k); auto.
Qed.

(** The steps of an election. *)
Lemma linv_start net led i l n' req :
  linv net led i l → election_begin (l_node l) = (n', req) →
  linv net led i (set_elec (Some (mkElection req false 1 [])) (set_node n' l)).
Proof.
  intros [] [= <- <-]. constructor; simpl; try done.
  - congruence.
  - lia.
  - intros t k Hk. destruct (li_grant0 t k Hk) as (? & ? & _). split_and!; [done|lia|lia].
  - intros e [= <-]. simpl. split_and!; [done|lia|done|]. exists []. split_and!; try done; [constructor|set_solver..].
  - intros t Ht. destruct (li_led0 t Ht) as (? & _ & ? & ? & ?). split_and!; try done; lia.
  - intros _ Hin. destruct (li_led0 _ Hin) as (? & _). lia.
Qed.

Lemma linv_campaign net led i l e :
  linv net led i l → l_elec l = Some e → n_dirty (l_node l) = false →
  linv net led i (set_elec (Some (mkElection (el_req e) true (el_votes e) (el_heard e))) l).
Proof.
  intros [] He Hd. constructor; simpl; try done. intros e' [= <-]. simpl.
  destruct (li_elec0 e He) as (? & ? & _ & ?). split_and!; try done. intros _ Hc Ht.
  destruct (li_clean0 Hd) as [-> ->]. split; [done|]. apply li_vote0. congruence.
Qed.

Lemma linv_elec_none net led i l : linv net led i l → linv net led i (set_elec None l).
Proof. intros []. by constructor. Qed.

Lemma linv_counted net led i l e p v :
  linv net led i l → l_elec l = Some e → p ∈ peers_of members i → p ∉ el_heard e →
  (v = el_votes e ∨ v = el_votes e + 1 ∧ grants net p (vq_Term (el_req e)) i) → el_sent e = true →
  linv net led i (set_elec (Some (mkElection (el_req e) true v (p :: el_heard e))) l).
Proof.
  intros [] He Hp Hh Hv Hs. constructor; simpl; try done. intros e' [= <-]. simpl.
  destruct (li_elec0 e He) as (? & ? & Hd & G & G1 & G2 & G3 & G4 & G5). split_and!; try done.
  { intros _. by apply Hd. }
  destruct Hv as [->|[-> Hg]].
  - exists G. split_and!; try done. set_solver.
  - exists (p :: G). split_and!.
    + constructor; [|done]. intros Hin. by apply Hh, G2.
    + set_solver.
    + set_solver.
    + intros q [->|Hq]%elem_of_cons; [done|by apply G4].
    + rewrite zlen_cons. lia.
Qed.

Lemma linv_boot net led i l : members ≠ [] → peers_of members i ≠ [] →
  linv net led i l → linv net led i (boot members i (l_disk l)).
Proof.
  intros Hm Hp [].
  assert (Hn : n_role (l_node (boot members i (l_disk l))) = RoleFollower ∧
    n_term (l_node (boot members i (l_disk l))) = rs_Term (l_disk l) ∧
    n_votedFor (l_node (boot members i (l_disk l))) = rs_VotedFor (l_disk l) ∧
    n_id (l_node (boot members i (l_disk l))) = i ∧ n_peers (l_node (boot members i (l_disk l))) = peers_of members i ∧
    n_hasStore (l_node (boot members i (l_disk l))) = true).
  { unfold boot, SetRaftStore, NewNode. rewrite bool_decide_false by done.
    simpl. destruct (0 <? _); simpl; by destruct (0 <? _). }
  destruct Hn as (N1 & N2 & N3 & N4 & N5 & N6).
  assert (Hnp : ∀ t k, ¬ pends [] t k) by (intros t k (? & ? & ?%elem_of_nil & _); done).
  constructor; rewrite ?N1, ?N2, ?N3, ?N4, ?N5, ?N6; simpl; try done.
  - intros t k [Hg|Hg]; [|by destruct (Hnp t k)]. destruct (li_grant0 t k (or_introl Hg)) as (? & _ & _).
    destruct (li_durable0 t k Hg). split_and!; auto.
  - intros t k k' [Hk|Hk] [Hk'|Hk']; try (by destruct (Hnp _ _ Hk)); try (by destruct (Hnp _ _ Hk')).
    apply (li_once0 t); auto.
  - intros t Ht. destruct (li_led0 t Ht) as (? & ? & ? & ? & ?). split_and!; done.
  - intros t k Ht [Hk|Hk]; [|by destruct (Hnp t k)]. apply (li_free0 t k); auto.
Qed.

(** ** What each critical section does to the vote *)

Lemma same_vote_refl n : same_vote n n.
Proof. by unfold same_vote. Qed.

Lemma same_vote_trans n1 n2 n3 : same_vote n1 n2 → same_vote n2 n3 → same_vote n1 n3.
Proof. unfold same_vote. intros (?&?&?&?&?&?&?) (?&?&?&?&?&?&?). split_and!; try congruence. auto. Qed.

Lemma raised_same t n1 n2 n3 : raised t n1 n2 → same_vote n2 n3 → n_dirty n3 = true → raised t n1 n3.
Proof. unfold raised, same_vote. intros (?&?&?&?&?&?&?&?) (?&?&?&?&?&?&?) ?. split_and!; congruence. Qed.

Lemma becomeFollower_raised t l n : n_term n < t → raised t n (becomeFollower t l n).
Proof. done. Qed.

Lemma replState_view n : same_vote n (replState n).2.
Proof. unfold replState. by destruct (n_repl n). Qed.

Lemma maybeCommit_view n : same_vote n (maybeCommit n).
Proof.
  unfold maybeCommit. destruct (negb _); [apply same_vote_refl|]. pose proof (replState_view n) as Hv.
  destruct (replState n) as [st m]. simpl in Hv. destruct (_ <=? _); [done|]. by destruct (_ && _).
Qed.

Lemma replicate_begin_view p n n' b :
  replicate_begin p n = (n', b) →
  same_vote n n' ∧ (∀ req, b = ReplSend req → n_role n = RoleLeader ∧ aq_Term req = n_term n ∧ aq_LeaderID req = n_id n).
Proof.
  intros E. split.
  - revert E. unfold replicate_begin. destruct (negb _); [intros [= <- <-]; apply same_vote_refl|].
    pose proof (replState_view n) as Hv. destruct (replState n) as [st m]. simpl in Hv.
    destruct (flying st p); [by intros [= <- <-]|]. destruct (_ <? firstIndex m); by intros [= <- <-].
  - intros req ->. destruct (replicate_begin_send _ _ _ _ E) as (? & ? & ? & _). done.
Qed.

Lemma replicate_end_view p req resp n :
  same_vote n (replicate_end p req resp n).1 ∨ ∃ t, raised t n (replicate_end p req resp n).1.
Proof.
  unfold replicate_end. pose proof (replState_view n) as Hv. destruct (replState n) as [st m]. simpl in Hv.
  destruct resp as [r|]; [|by left]. destruct (Z.ltb_spec (n_term m) (ar_Term r)) as [Hlt|_].
  { right. exists (ar_Term r). destruct Hv as (?&?&?&?&?&?&?). unfold raised. simpl. split_and!; try done. congruence. }
  destruct (_ <? _); [by left|]. left. destruct (negb _); [done|].
  eapply same_vote_trans; [|apply maybeCommit_view]. done.
Qed.

Lemma install_end_view p snap resp n :
  same_vote n (install_end p snap resp n).1 ∨ ∃ t, raised t n (install_end p snap resp n).1.
Proof.
  unfold install_end. pose proof (replState_view n) as Hv. destruct (replState n) as [st m]. simpl in Hv.
  destruct resp as [r|]; [|by left]. destruct (Z.ltb_spec (n_term m) (ir_Term r)) as [Hlt|_].
  { right. exists (ir_Term r). destruct Hv as (?&?&?&?&?&?&?). unfold raised. simpl. split_and!; try done. congruence. }
  left. destruct (_ || _); [done|]. eapply same_vote_trans; [|apply maybeCommit_view]. done.
Qed.

Lemma install_check_view p n : same_vote n (install_check p n).1.
Proof.
  unfold install_check. destruct (_ || _); [apply same_vote_refl|]. pose proof (replState_view n) as Hv.
  by destruct (replState n) as [st m].
Qed.

Lemma install_begin_view p snap n n' r :
  install_begin p snap n = (n', r) →
  same_vote n n' ∧ (∀ req, r = Some req → iq_Term req = n_term n ∧ iq_LeaderID req = n_id n).
Proof.
  unfold install_begin. pose proof (replState_view n) as Hv. destruct (replState n) as [st m]. simpl in Hv.
  destruct (flying st p); intros [= <- <-]; split; try done. intros req [= <-]. simpl.
  by destruct Hv as (?&?&?&?&?&?&?).
Qed.

Lemma CompactLog_view i t n : same_vote n (CompactLog i t n).
Proof.
  unfold CompactLog, raise_base. destruct (_ <=? _); [apply same_vote_refl|].
  destruct (_ <=? _); simpl; destruct (_ <? _); simpl; destruct (_ <? _); done.
Qed.

Lemma apply_finish_view i n : same_vote n (apply_finish i n).
Proof. unfold apply_finish. by destruct (_ <? _). Qed.

Lemma heartbeat_end_view now acks n : same_vote n (heartbeat_end now acks n).
Proof. unfold heartbeat_end. by destruct (_ && _). Qed.

Lemma election_response_view resp v n v' n' :
  election_response resp v n = (v', n') →
  (same_vote n n' ∧ v' = Some (if vr_VoteGranted resp then v + 1 else v)) ∨ (v' = None ∧ ∃ t, raised t n n').
Proof.
  unfold election_response. destruct (Z.ltb_spec (n_term n) (vr_Term resp)); intros [= <- <-].
  - right. split; [done|]. eexists. by apply becomeFollower_raised.
  - left. split; [apply same_vote_refl|done].
Qed.

(** Following the sender of an inbound request of a leader. *)
Lemma follow_view t ldr n :
  n_term n <= t →
  raised t n (follow t ldr n) ∨
  n_term n = t ∧ (same_vote n (follow t ldr n) ∨ cleared n (follow t ldr n) ∨ n_role n = RoleLeader).
Proof.
  intros Ht. unfold follow. destruct (Z.ltb_spec (n_term n) t); simpl; [by left|].
  right. split; [lia|]. destruct (n_role n) eqn:Hr; simpl.
  - left. unfold same_vote. simpl. by rewrite Hr.
  - right. left. unfold cleared. simpl. split_and!; (done || lia).
  - by right; right.
Qed.

Lemma append_locked_view req n n' resp wait :
  append_locked req n = (n', resp, wait) →
  n' = n ∨ n_term n <= aq_Term req ∧ same_vote (follow (aq_Term req) (aq_LeaderID req) n) n'.
Proof.
  unfold append_locked. destruct (Z.ltb_spec (aq_Term req) (n_term n)); [intros [= <- <- <-]; by left|].
  intros E. right. split; [done|]. revert E. set (m := follow _ _ n). clearbody m.
  destruct (negb _); [intros [= <- <- <-]; apply same_vote_refl|].
  pose proof (mergeEntries_frame req m) as Hm. destruct (mergeEntries req m) as [ch m2]. simpl in Hm. rewrite Hm.
  destruct ch, (_ <? _); intros [= <- <- <-]; done.
Qed.

Lemma install_locked_view req n n' resp rest :
  install_locked req n = (n', resp, rest) →
  n' = n ∨ n_term n <= iq_Term req ∧ same_vote (follow (iq_Term req) (iq_LeaderID req) n) n'.
Proof.
  unfold install_locked. destruct (Z.ltb_spec (iq_Term req) (n_term n)); [intros [= <- <- <-]; by left|].
  intros E. right. split; [done|]. revert E. set (m := follow _ _ n). clearbody m.
  destruct (_ <? _); intros [= <- <- <-]; [|apply same_vote_refl].
  unfold adopt_base, raise_base. simpl. destruct (_ <? _); simpl; by destruct (_ <? _).
Qed.

(** ** The invariant of the cluster *)

(** Requests go to other nodes, and a leader's requests come from the winner
    of an election of that term. *)
Definition msg_ok (led : list (string * Z)) (m : msg) : Prop :=
  match m with
  | MVote to req => to ≠ vq_CandidateID req
  | MAppend to req => (aq_LeaderID req, aq_Term req) ∈ led ∧ to ≠ aq_LeaderID req
  | MInstall to req => (iq_LeaderID req, iq_Term req) ∈ led ∧ to ≠ iq_LeaderID req
  | _ => True
  end.

Definition led_unique (led : list (string * Z)) : Prop := ∀ a b t, (a, t) ∈ led → (b, t) ∈ led → a = b.

Record Inv (c : Cluster) : Prop := {
  inv_local : ∀ i, i ∈ members → linv (c_net c) (c_led c) i (c_local c i);
  inv_msgs : Forall (msg_ok (c_led c)) (c_net c);
  inv_members : ∀ a t, (a, t) ∈ c_led c → a ∈ members;
  inv_unique : led_unique (c_led c)
}.

Lemma peers_of_ne i p : p ∈ peers_of members i → p ≠ i.
Proof. unfold peers_of. by intros [? _]%list_elem_of_filter. Qed.

Lemma Inv_update c i l ms :
  Inv c → linv (ms ++ c_net c) (c_led c) i l →
  (∀ j t k, grants ms j t k → j = i) → Forall (msg_ok (c_led c)) ms → Inv (update i l ms c).
Proof.
  intros [] Hl Hg Hm. constructor; simpl; try done; [|by apply Forall_app].
  intros j Hj. case_decide as Hji; [by subst|]. eapply linv_frame; [by apply inv_local0|..|done].
  - intros p t k ?. apply grants_app. by right.
  - intros t k [Hgr|?]%grants_app; [|done]. by apply Hg in Hgr.
Qed.

(** The common case: the new messages carry no vote. *)
Lemma Inv_update_quiet c i l ms :
  Inv c → linv (c_net c) (c_led c) i l →
  (∀ j t k, ¬ grants ms j t k) → Forall (msg_ok (c_led c)) ms → Inv (update i l ms c).
Proof.
  intros Hc Hl Hg Hm. apply Inv_update; try done; [|by intros j t k ?%Hg].
  eapply linv_frame; [done|..|done].
  - intros p t k ?. apply grants_app. by right.
  - intros t k [Hgr|?]%grants_app; [by apply Hg in Hgr|done].
Qed.

Lemma grants_nil j t k : ¬ grants [] j t k.
Proof. intros (? & ? & ?%elem_of_nil & _). done. Qed.

Lemma Inv_update_nil c i l : Inv c → linv (c_net c) (c_led c) i l → Inv (update i l [] c).
Proof. intros. apply Inv_update_quiet; try done. intros. apply grants_nil. Qed.

(** A node that follows the sender of a leader's request. *)
Lemma linv_follow net led i l t ldr :
  linv net led i l → led_unique led → (ldr, t) ∈ led → ldr ≠ i → n_term (l_node l) <= t →
  linv net led i (set_node (follow t ldr (l_node l)) l).
Proof.
  intros Hl Hu Hled Hne Ht.
  destruct (follow_view t ldr (l_node l) Ht) as [Hr|[Heq [Hs|[Hc|Hr]]]].
  - by eapply linv_raised.
  - by apply linv_same.
  - by apply linv_cleared.
  - apply (li_lead _ _ _ _ Hl) in Hr. rewrite Heq in Hr. by destruct Hne; eapply Hu.
Qed.

Lemma linv_waiting net led i l w :
  linv net led i l → (∀ rq rs, w ≠ PVote rq rs) → linv net led i (set_waiting (w :: l_waiting l) l).
Proof.
  intros [] Hw.
  assert (Hp : ∀ t k, pends (w :: l_waiting l) t k → pends (l_waiting l) t k).
  { intros t k (rq & rs & [Heq|Hin]%elem_of_cons & ?); [by destruct (Hw rq rs)|]. exists rq, rs. done. }
  constructor; simpl; try done.
  - intros t k [?|?%Hp]; auto.
  - intros t k k' [?|?%Hp] [?|?%Hp]; apply (li_once0 t); auto.
  - intros t k Ht [?|?%Hp]; apply (li_free0 t k); auto.
Qed.

(** A vote request handled under the lock. *)
Lemma linv_vote_locked net led i l req n' resp wait :
  linv net led i l → vq_CandidateID req ≠ i → vote_locked req (l_node l) = (n', resp, wait) →
  if wait : bool then linv net led i (set_waiting (PVote req resp :: l_waiting l) (set_node n' l))
  else linv net led i (set_node n' l) ∧ vr_VoteGranted resp = false.
Proof.
  intros Hl Hk. unfold vote_locked. destruct (Z.ltb_spec (vq_Term req) (n_term (l_node l))) as [|Hge].
  { intros [= <- <- <-]. split; [|done]. by destruct l. }
  set (m := if _ <? _ then _ else _).
  assert (Hm : linv net led i (set_node m l) ∧ n_term m = vq_Term req).
  { unfold m. destruct (Z.ltb_spec (n_term (l_node l)) (vq_Term req)).
    - split; [|done]. by eapply linv_raised.
    - split; [by destruct l|lia]. }
  clearbody m. destruct Hm as [Hlm Htm]. destruct (_ && logFresh req m) eqn:Hv; intros [= <- <- <-].
  - apply andb_true_iff in Hv as [Hfree _].
    apply (linv_voted net led i (set_node m l) req _ (vq_CandidateID req) (vq_Term req)); try done.
    simpl. destruct (n_votedFor m) as [v|]; [right|by left]. f_equal. by apply bool_decide_eq_true in Hfree.
  - done.
Qed.

Lemma election_lost_view req votes quorum n :
  tail_hazard req n = None → ¬ (quorum <= votes ∧ n_role n = RoleCandidate ∧ n_term n = vq_Term req) →
  cleared n (election_end req votes quorum n).
Proof.
  unfold tail_hazard, election_end. destruct (bool_decide (n_role n = RoleCandidate)) eqn:Hr; [|done].
  apply bool_decide_eq_true in Hr. destruct (Z.eqb_spec (n_term n) (vq_Term req)) as [Ht|]; [|done].
  intros _ Hn. destruct (Z.leb_spec quorum votes); simpl; [by destruct Hn|]. done.
Qed.

(** ** Winning an election *)

Hypothesis members_NoDup : NoDup members.

Lemma peers_of_Permutation i : i ∈ members → i :: peers_of members i ≡ₚ members.
Proof.
  intros Hi. unfold peers_of. apply NoDup_Permutation; [|done|].
  - constructor; [|by apply NoDup_filter]. by intros [? _]%list_elem_of_filter.
  - intros j. rewrite elem_of_cons, list_elem_of_filter. destruct (decide (j = i)); naive_solver.
Qed.

Lemma majority_of i : i ∈ members → majority (peers_of members i) = zlen members / 2 + 1.
Proof.
  intros Hi. unfold majority. do 2 f_equal. pose proof (Permutation_length (peers_of_Permutation i Hi)) as Hl.
  simpl in Hl. unfold zlen. lia.
Qed.

(** Two majorities have a member in common. *)
Lemma quorums_meet Q1 Q2 :
  NoDup Q1 → NoDup Q2 → Q1 ⊆ members → Q2 ⊆ members →
  zlen members / 2 + 1 <= zlen Q1 → zlen members / 2 + 1 <= zlen Q2 → ∃ v, v ∈ Q1 ∧ v ∈ Q2.
Proof.
  intros N1 N2 S1 S2 L1 L2. destruct (decide (Exists (λ v, v ∈ Q2) Q1)) as [(v & ? & ?)%Exists_exists|Hno]; [eauto|].
  assert (Hnd : NoDup (Q1 ++ Q2)).
  { apply NoDup_app. split_and!; try done. intros v Hv Hv'. apply Hno, Exists_exists. eauto. }
  assert (Hle : (length (Q1 ++ Q2) <= length members)%nat).
  { apply submseteq_length, NoDup_submseteq; [done|]. set_solver. }
  rewrite length_app in Hle. unfold zlen in *. Z.to_euclidean_division_equations. lia.
Qed.

(** The voters of the winner: itself and the peers that granted it. *)
Lemma backed_quorum net i t votes heard :
  i ∈ members → backed net i t votes heard → majority (peers_of members i) <= votes →
  ∃ Q, NoDup Q ∧ Q ⊆ members ∧ zlen members / 2 + 1 <= zlen Q ∧ ∀ v, v ∈ Q → v = i ∨ grants net v t i.
Proof.
  intros Hi (G & G1 & _ & G3 & G4 & ->) Hq. rewrite majority_of in Hq by done. exists (i :: G). split_and!.
  - constructor; [|done]. by intros ?%G3%peers_of_ne.
  - intros v [->|Hv]%elem_of_cons; [done|]. by apply G3, list_elem_of_filter in Hv as [_ ?].
  - rewrite zlen_cons. lia.
  - intros v [->|Hv]%elem_of_cons; auto.
Qed.

(** Nobody else won an election in the term of a candidate with a majority. *)
Lemma elected_unique c i e b :
  Inv c → i ∈ members → l_elec (c_local c i) = Some e →
  majority (peers_of members i) <= el_votes e → n_role (l_node (c_local c i)) = RoleCandidate →
  n_term (l_node (c_local c i)) = vq_Term (el_req e) → (b, vq_Term (el_req e)) ∈ c_led c → b = i.
Proof.
  intros Hc Hi He Hq Hr Ht Hb. set (t := vq_Term (el_req e)) in *.
  destruct (decide (b = i)) as [|Hne]; [done|exfalso].
  pose proof (inv_local _ Hc i Hi) as Hli. pose proof (inv_members _ Hc _ _ Hb) as Hbm.
  pose proof (inv_local _ Hc b Hbm) as Hlb.
  destruct (li_elec _ _ _ _ Hli e He) as (_ & _ & _ & Hback).
  destruct (li_led _ _ _ _ Hlb t Hb) as (_ & _ & _ & _ & v & h & Hback' & Hq').
  destruct (backed_quorum _ _ _ _ _ Hi Hback Hq) as (Q1 & ? & ? & ? & HQ1).
  destruct (backed_quorum _ _ _ _ _ Hbm Hback' Hq') as (Q2 & ? & ? & ? & HQ2).
  destruct (quorums_meet Q1 Q2) as (x & Hx1 & Hx2); try done.
  destruct (HQ1 x Hx1) as [Hxi|Hg1], (HQ2 x Hx2) as [Hxb|Hg2].
  - congruence.
  - rewrite Hxi in Hg2. destruct (li_grant _ _ _ _ Hli t b (or_introl Hg2)) as (_ & _ & Hf).
    destruct (Hf Ht). congruence.
  - rewrite Hxb in Hg1. by apply (li_free _ _ _ _ Hlb t i Hb (or_introl Hg1)).
  - assert (Hxm : x ∈ members) by auto. pose proof (inv_local _ Hc x Hxm) as Hlx.
    by destruct Hne; apply (li_once _ _ _ _ Hlx t); left.
Qed.

Lemma linv_elected net led i l e t :
  linv net led i l → l_elec l = Some e → el_sent e = true → majority (peers_of members i) <= el_votes e →
  n_role (l_node l) = RoleCandidate → n_term (l_node l) = t → vq_Term (el_req e) = t →
  linv net ((i, t) :: led) i (set_elec None (set_node (becomeLeader (l_node l)) l)).
Proof.
  intros [] He Hs Hq Hr Ht Hreq. destruct (li_elec0 e He) as (_ & _ & Hd & Hb). rewrite Hreq in *.
  assert (Hvi : n_votedFor (l_node l) = Some i) by (apply li_vote0; congruence).
  destruct (Hd Hs Hr) as [Hd1 Hd2]; [done|]. rewrite Ht in Hd1.
  constructor; simpl; rewrite ?Hr in *; try done.
  - intros u k Hk. destruct (li_grant0 u k Hk) as (? & ? & Hf). split_and!; try done. intros Hu. by destruct (Hf Hu).
  - intros u [[= ->]|Hu]%elem_of_cons; [|by apply li_led0].
    rewrite Hd1, Hd2, Hvi. split_and!; try done; try lia. eauto.
  - intros u k [[= ->]|Hu]%elem_of_cons Hk; [|by apply (li_free0 u k)].
    destruct (li_grant0 _ _ Hk) as (_ & _ & Hf). by destruct (Hf Ht).
  - intros _. rewrite Ht. left.
Qed.

Lemma msg_ok_mono led a m : msg_ok led m → msg_ok (a :: led) m.
Proof. destruct m; simpl; try done; intros [? ?]; split; try done; by right. Qed.

Lemma Inv_elected c i e (l := c_local c i) :
  Inv c → i ∈ members → l_elec l = Some e → el_sent e = true → majority (peers_of members i) <= el_votes e →
  n_role (l_node l) = RoleCandidate → n_term (l_node l) = vq_Term (el_req e) →
  Inv (mkCluster (c_local (update i (set_elec None (set_node (becomeLeader (l_node l)) l)) [] c)) (c_net c)
         ((i, n_term (l_node l)) :: c_led c)).
Proof.
  intros Hc Hi He Hs Hq Hr Ht. pose proof Hc as [].
  assert (Huniq : ∀ b, (b, n_term (l_node l)) ∈ c_led c → b = i).
  { intros b Hb. rewrite Ht in Hb. by apply (elected_unique c i e b). }
  constructor; simpl.
  - intros j Hj. case_decide as Hji.
    + subst j. apply (linv_elected _ _ _ _ e); auto.
    + eapply linv_frame; [by apply inv_local0|done|done|]. intros u. rewrite elem_of_cons. naive_solver.
  - eapply Forall_impl; [done|]. intros m. apply msg_ok_mono.
  - intros a u [[= -> ->]|Hin]%elem_of_cons; eauto.
  - intros a b u [Ha|Ha]%elem_of_cons [Hb|Hb]%elem_of_cons.
    + congruence.
    + injection Ha as -> ->. symmetry. by apply Huniq.
    + injection Hb as -> ->. by apply Huniq.
    + by eapply inv_unique0.
Qed.

(** ** Every step keeps the invariant *)

Hypothesis members_two : (2 <= length members)%nat.

Lemma peers_of_not_nil i : peers_of members i ≠ [].
Proof.
  intros Hn. destruct members as [|a [|b ms]] eqn:Hm; simpl in members_two; try lia.
  assert (Hin : (if decide (i = a) then b else a) ∈ peers_of (a :: b :: ms) i).
  { apply NoDup_cons in members_NoDup as [Hab _]. apply list_elem_of_filter.
    case_decide; subst; split; try done; set_solver. }
  rewrite Hn in Hin. by apply elem_of_nil in Hin.
Qed.

Lemma linv_init i : i ∈ members → linv [] [] i (boot members i RaftState_zero).
Proof.
  intros Hi. assert (Hp := peers_of_not_nil i). unfold boot, SetRaftStore, NewNode.
  rewrite bool_decide_false by done. simpl.
  assert (Hnp : ∀ t k, ¬ (grants [] i t k ∨ pends [] t k)).
  { intros t k [H|(? & ? & H & _)]; [by apply grants_nil in H|by apply elem_of_nil in H]. }
  constructor; simpl; try done.
  - intros t k H. by apply Hnp in H.
  - intros t k H. by apply grants_nil in H.
  - intros t k k' H. by apply Hnp in H.
  - intros t H. by apply elem_of_nil in H.
Qed.

Lemma Inv_init : Inv (init members).
Proof.
  constructor; simpl; try done.
  - intros i Hi. by apply linv_init.
  - intros a t H. by apply elem_of_nil in H.
  - intros a b t H. by apply elem_of_nil in H.
Qed.

(** Steps that change one node and send no vote. *)
Lemma Inv_same_vote c i n' ms :
  Inv c → i ∈ members → same_vote (l_node (c_local c i)) n' →
  (∀ j t k, ¬ grants ms j t k) → Forall (msg_ok (c_led c)) ms →
  Inv (update i (set_node n' (c_local c i)) ms c).
Proof. intros Hc Hi Hs Hg Hm. apply Inv_update_quiet; try done. apply linv_same; [by apply inv_local|done]. Qed.

Lemma Inv_same_or_raised c i n' :
  Inv c → i ∈ members →
  same_vote (l_node (c_local c i)) n' ∨ (∃ t, raised t (l_node (c_local c i)) n') →
  Inv (update i (set_node n' (c_local c i)) [] c).
Proof.
  intros Hc Hi Hv. apply Inv_update_nil; [done|]. pose proof (inv_local _ Hc i Hi).
  destruct Hv as [?|[t ?]]; [by apply linv_same|by eapply linv_raised].
Qed.

Lemma grants_single_other m j t k : (∀ v rq rs, m ≠ MVoteResp v rq rs) → ¬ grants [m] j t k.
Proof. intros Hm (rq & rs & Hin%list_elem_of_singleton & _). by apply (Hm j rq rs). Qed.

(** The receiving side of a leader's request, up to its answer. *)
Lemma Inv_followed c i n' w (reply : bool) m :
  Inv c → i ∈ members →
  (n' = l_node (c_local c i) ∨ ∃ t ldr, (ldr, t) ∈ c_led c ∧ ldr ≠ i ∧ n_term (l_node (c_local c i)) <= t ∧
     same_vote (follow t ldr (l_node (c_local c i))) n') →
  (∀ rq rs, w ≠ PVote rq rs) → (∀ v rq rs, m ≠ MVoteResp v rq rs) → msg_ok (c_led c) m →
  Inv (if reply then update i (set_waiting (w :: l_waiting (c_local c i)) (set_node n' (c_local c i))) [] c
       else update i (set_node n' (c_local c i)) [m] c).
Proof.
  intros Hc Hi Hn Hw Hm Hok. pose proof (inv_local _ Hc i Hi) as Hl.
  assert (Hl' : linv (c_net c) (c_led c) i (set_node n' (c_local c i))).
  { destruct Hn as [->|(t & ldr & Hled & Hne & Ht & Hs)]; [by destruct (c_local c i)|].
    pose proof (linv_follow _ _ _ _ t ldr Hl (inv_unique _ Hc) Hled Hne Ht) as Hf.
    by apply (linv_same _ _ _ _ n' Hf). }
  destruct reply.
  - apply Inv_update_nil; [done|]. by apply (linv_waiting _ _ _ (set_node n' (c_local c i))).
  - apply Inv_update_quiet; try done; [|by constructor]. intros. by apply grants_single_other.
Qed.

Lemma Inv_vote c i req n' resp (wait : bool) :
  Inv c → i ∈ members → MVote i req ∈ c_net c → vote_locked req (l_node (c_local c i)) = (n', resp, wait) →
  Inv (if wait then update i (set_waiting (PVote req resp :: l_waiting (c_local c i)) (set_node n' (c_local c i))) [] c
       else update i (set_node n' (c_local c i)) [MVoteResp i req resp] c).
Proof.
  intros Hc Hi Hin Hv. pose proof (inv_msgs _ Hc) as Hm. rewrite Forall_forall in Hm.
  pose proof (Hm _ Hin) as Hne. simpl in Hne.
  pose proof (linv_vote_locked _ _ _ _ _ _ _ _ (inv_local _ Hc i Hi) (not_eq_sym Hne) Hv) as Hl.
  destruct wait; [by apply Inv_update_nil|]. destruct Hl as [Hl Hno].
  apply Inv_update_quiet; try done; [|by repeat constructor].
  intros j t k (rq & rs & Hin'%list_elem_of_singleton & Hg & _). simplify_eq. congruence.
Qed.

Lemma Inv_campaign c i e o ok l' :
  Inv c → i ∈ members → l_elec (c_local c i) = Some e → persist_local o (c_local c i) = (ok, l') →
  Inv (if ok : bool then update i (set_elec (Some (mkElection (el_req e) true (el_votes e) (el_heard e))) l')
             (flip MVote (el_req e) <$> n_peers (l_node (c_local c i))) c
       else update i (set_elec None l') [] c).
Proof.
  intros Hc Hi He Hp. pose proof (inv_local _ Hc i Hi) as Hl.
  destruct (linv_persist _ _ _ _ _ _ _ Hl Hp) as (Hl' & He' & _ & _ & Hd).
  destruct ok; [|apply Inv_update_nil; [done|by apply linv_elec_none]].
  apply Inv_update_quiet; [done|..].
  - apply linv_campaign; [done|congruence|auto].
  - intros j t k (rq & rs & (p & [=] & _)%list_elem_of_fmap & _).
  - apply Forall_fmap, Forall_forall. intros p Hin. simpl.
    destruct (li_elec _ _ _ _ Hl e He) as (-> & _). rewrite (li_peers _ _ _ _ Hl) in Hin. by apply peers_of_ne.
Qed.

Lemma Inv_tally c i e p resp v n' :
  Inv c → i ∈ members → l_elec (c_local c i) = Some e → el_sent e = true →
  p ∈ n_peers (l_node (c_local c i)) → p ∉ el_heard e → MVoteResp p (el_req e) resp ∈ c_net c →
  election_response resp (el_votes e) (l_node (c_local c i)) = (v, n') →
  Inv (update i (set_elec ((λ v, mkElection (el_req e) true v (p :: el_heard e)) <$> v)
                   (set_node n' (c_local c i))) [] c).
Proof.
  intros Hc Hi He Hs Hp Hh Hin Hr. pose proof (inv_local _ Hc i Hi) as Hl. apply Inv_update_nil; [done|].
  destruct (election_response_view _ _ _ _ _ Hr) as [[Hsame ->]|[-> [t Hra]]]; simpl.
  - apply (linv_counted _ _ _ (set_node n' (c_local c i)) e p); try done; [by apply linv_same|..].
    + by rewrite <- (li_peers _ _ _ _ Hl).
    + destruct (vr_VoteGranted resp) eqn:Hg; [right|by left]. split; [done|].
      exists (el_req e), resp. split_and!; try done. by destruct (li_elec _ _ _ _ Hl e He).
  - apply linv_elec_none. by eapply linv_raised.
Qed.

Lemma Inv_answer c i o ok l' ws1 w ws2 :
  Inv c → i ∈ members → l_waiting (c_local c i) = ws1 ++ w :: ws2 → persist_local o (c_local c i) = (ok, l') →
  Inv (update i (set_waiting (ws1 ++ ws2) l') [answer i w ok (l_node l')] c).
Proof.
  intros Hc Hi Hw Hp.
  destruct (linv_persist _ _ _ _ _ _ _ (inv_local _ Hc i Hi) Hp) as (Hl' & _ & Hw' & _ & Hd).
  apply Inv_update; [done|..].
  - apply (linv_answer _ _ _ _ ws1 w ws2); [done|congruence|done].
  - intros j t k (rq & rs & Hin%list_elem_of_singleton & _). destruct w; simpl in Hin; congruence.
  - constructor; [|done]. by destruct w.
Qed.

Lemma Inv_append c i req n' resp (wait : bool) :
  Inv c → i ∈ members → MAppend i req ∈ c_net c → append_locked req (l_node (c_local c i)) = (n', resp, wait) →
  Inv (if wait then update i (set_waiting (PAppend req resp :: l_waiting (c_local c i)) (set_node n' (c_local c i))) [] c
       else update i (set_node n' (c_local c i)) [MAppendResp i req resp] c).
Proof.
  intros Hc Hi Hin Hv. pose proof (proj1 (Forall_forall _ _) (inv_msgs _ Hc) _ Hin) as [Hled Hne].
  apply Inv_followed; try done. destruct (append_locked_view _ _ _ _ _ Hv) as [->|[? ?]]; [by left|right].
  exists (aq_Term req), (aq_LeaderID req). split_and!; done.
Qed.

Lemma Inv_install c i req n' resp rest :
  Inv c → i ∈ members → MInstall i req ∈ c_net c → install_locked req (l_node (c_local c i)) = (n', resp, rest) →
  Inv (if rest is Some _
       then update i (set_waiting (PInstall req resp :: l_waiting (c_local c i)) (set_node n' (c_local c i))) [] c
       else update i (set_node n' (c_local c i)) [MInstallResp i req resp] c).
Proof.
  intros Hc Hi Hin Hv. pose proof (proj1 (Forall_forall _ _) (inv_msgs _ Hc) _ Hin) as [Hled Hne].
  assert (Hf : n' = l_node (c_local c i) ∨ ∃ t ldr, (ldr, t) ∈ c_led c ∧ ldr ≠ i ∧
    n_term (l_node (c_local c i)) <= t ∧ same_vote (follow t ldr (l_node (c_local c i))) n').
  { destruct (install_locked_view _ _ _ _ _ Hv) as [->|[? ?]]; [by left|right].
    exists (iq_Term req), (iq_LeaderID req). split_and!; done. }
  pose proof (λ b, Inv_followed c i n' (PInstall req resp) b (MInstallResp i req resp) Hc Hi Hf) as Hfin.
  destruct rest; [by apply (Hfin true)|by apply (Hfin false)].
Qed.

(** The sender of a leader's request won its term. *)
Lemma leader_msg_ok c i p :
  Inv c → i ∈ members → p ∈ n_peers (l_node (c_local c i)) → n_role (l_node (c_local c i)) = RoleLeader →
  (n_id (l_node (c_local c i)), n_term (l_node (c_local c i))) ∈ c_led c ∧ p ≠ n_id (l_node (c_local c i)).
Proof.
  intros Hc Hi Hp Hr. pose proof (inv_local _ Hc i Hi) as Hl. rewrite (li_id _ _ _ _ Hl).
  split; [by apply (li_lead _ _ _ _ Hl)|]. rewrite (li_peers _ _ _ _ Hl) in Hp. by apply peers_of_ne.
Qed.

Lemma Inv_step c c' h : step members h c c' → elections_ok h = true → Inv c → Inv c'.
Proof.
  intros Hs Hh Hc. step_cases Hs; try subst l; pose proof (inv_local _ Hc i Hi) as Hl.
  - apply Inv_update_nil; [done|]. by apply linv_start.
  - by apply (Inv_campaign c i e o).
  - by apply (Inv_tally c i e p resp).
  - subst n'. unfold election_end. rewrite (li_peers _ _ _ _ Hl) in *.
    rewrite (proj2 (Z.leb_le _ _) Hq), bool_decide_true, (proj2 (Z.eqb_eq _ _) Ht) by done.
    by apply (Inv_elected c i e).
  - apply Inv_update_nil; [done|]. apply linv_elec_none, linv_cleared; [done|]. apply election_lost_view; [|done].
    unfold tail_hazard in *. by destruct (_ && _).
  - apply Inv_same_vote; try done; [apply heartbeat_end_view|intros; apply grants_nil].
  - unfold quorum_hazard, quorum_check in *. destruct (_ && _); [done|].
    apply Inv_same_or_raised; try done. left. apply same_vote_refl.
  - by apply Inv_vote.
  - by apply Inv_append.
  - by apply Inv_install.
  - by apply (Inv_answer c i o ok l' ws1 w ws2).
  - destruct (replicate_begin_view _ _ _ _ Hb) as [Hs Hreq].
    apply Inv_same_vote; try done; [destruct b; intros; try apply grants_nil; by apply grants_single_other|].
    destruct b as [| |req]; try done. constructor; [|done]. destruct (Hreq req eq_refl) as (Hr & Ht & Hid). simpl.
    rewrite Ht, Hid. by apply leader_msg_ok.
  - apply Inv_same_or_raised; try done. apply replicate_end_view.
  - apply Inv_same_or_raised; try done. left. apply install_check_view.
  - destruct (install_begin_view _ _ _ _ _ Hb) as [Hs Hreq].
    destruct (decide (n_role (l_node (c_local c i)) = RoleLeader)) as [Hr|Hr];
      [|by rewrite bool_decide_false in Hh by done].
    apply Inv_same_vote; try done; [destruct r; intros; try apply grants_nil; by apply grants_single_other|].
    destruct r as [req|]; try done. constructor; [|done]. destruct (Hreq req eq_refl) as (Ht & Hid). simpl.
    rewrite Ht, Hid. by apply leader_msg_ok.
  - apply Inv_same_or_raised; try done. apply install_end_view.
  - apply Inv_same_or_raised; try done. by left.
  - apply Inv_same_or_raised; try done. left. apply CompactLog_view.
  - apply Inv_same_or_raised; try done. left. apply apply_finish_view.
  - apply Inv_update_nil; [done|]. destruct (persist_local o (c_local c i)) as [ok l'] eqn:E. simpl.
    by destruct (linv_persist _ _ _ _ _ _ _ Hl E).
  - apply Inv_update_nil; [done|]. apply linv_boot; [|apply peers_of_not_nil|done].
    intros Hm. by rewrite Hm in Hi; apply elem_of_nil in Hi.
  - apply Inv_same_or_raised; try done. by left.
Qed.

Lemma Inv_safe_steps c c' : safe_steps members c c' → Inv c → Inv c'.
Proof. unfold safe_steps. induction 1; [done|]. intros. eapply Inv_step; eauto. Qed.

(** The elections won and the leaders of a safe execution. *)
Lemma leaders_unique c : safe_steps members (init members) c →
  ∀ a b, a ∈ members → b ∈ members →
    n_role (l_node (c_local c a)) = RoleLeader → n_role (l_node (c_local c b)) = RoleLeader →
    n_term (l_node (c_local c a)) = n_term (l_node (c_local c b)) → a = b.
Proof.
  intros Hs a b Ha Hb Hra Hrb Ht. pose proof (Inv_safe_steps _ _ Hs Inv_init) as Hc.
  pose proof (li_lead _ _ _ _ (inv_local _ Hc a Ha) Hra) as H1.
  pose proof (li_lead _ _ _ _ (inv_local _ Hc b Hb) Hrb) as H2. rewrite <- Ht in H2.
  by apply (inv_unique _ Hc _ _ _ H1 H2).
Qed.

(** C1 (election safety): in every execution of the cluster from the empty
    disks, with any delays, losses, duplications, failed writes and crashes,
    at most one node is elected in a term, and two nodes that are leaders of
    the same term are the same node, provided that no leader steps down for
    lack of a quorum, no election ends after its node left the candidacy, and
    no deposed leader sends a snapshot. *)
Theorem election_safety c :
  safe_steps members (init members) c →
  (∀ a b t, (a, t) ∈ c_led c → (b, t) ∈ c_led c → a = b) ∧
  (∀ a b, a ∈ members → b ∈ members →
     n_role (l_node (c_local c a)) = RoleLeader → n_role (l_node (c_local c b)) = RoleLeader →
     n_term (l_node (c_local c a)) = n_term (l_node (c_local c b)) → a = b).
Proof.
  intros Hs. split; [apply inv_unique, (Inv_safe_steps _ _ Hs Inv_init)|by apply leaders_unique].
Qed.
End safety.

(** ** Concrete executions

    A schedule names the next critical section; [exec] runs it, and is sound
    for [step]. *)

Inductive action : Type :=
| AStart (i : string)
| ACampaign (i : string)
| AEnd (i : string)
| AVote (i : string) (req : VoteRequest)
| AAnswer (i : string)
| ATally (i p : string) (resp : VoteResponse)
| AQuorum (i : string) (now : Z)
| APropose (i : string) (cmd : Command)
| APersist (i : string)
| AReplicate (i p : string)
| ADeliver (k : nat)                    (* the k-th newest message, of replication *)
| ALost (i p : string)                  (* a call that ends without a response *)
| ACrash (i : string).

Global Instance InstallSnapshotRequest_eq_dec : EqDecision InstallSnapshotRequest.
Proof. solve_decision. Defined.
Global Instance InstallSnapshotResponse_eq_dec : EqDecision InstallSnapshotResponse.
Proof. solve_decision. Defined.
Global Instance msg_eq_dec : EqDecision msg.
Proof. solve_decision. Defined.

Section exec.
Context (members : list string).

Definition exec_end (i : string) (c : Cluster) : option (option hazard * Cluster) :=
  let l := c_local c i in
  match l_elec l with
  | Some e =>
      let n' := election_end (el_req e) (el_votes e) (majority (n_peers (l_node l))) (l_node l) in
      let c' := update i (set_elec None (set_node n' l)) [] c in
      if decide (el_sent e = true) then
        if decide (majority (n_peers (l_node l)) <= el_votes e ∧ n_role (l_node l) = RoleCandidate ∧
                   n_term (l_node l) = vq_Term (el_req e))
        then Some (elected_hazard (l_node l), mkCluster (c_local c') (c_net c') ((i, n_term (l_node l)) :: c_led c'))
        else Some (tail_hazard (el_req e) (l_node l), c')
      else None
  | None => None
  end.

Definition exec_deliver (m : msg) (c : Cluster) : option (option hazard * Cluster) :=
  match m with
  | MAppend i req =>
      let l := c_local c i in
      if decide (i ∈ members) then
        let '(n', resp, wait) := append_locked req (l_node l) in
        Some (append_hazard req (l_disk l) (l_node l) n' resp wait,
              if wait : bool then update i (set_waiting (PAppend req resp :: l_waiting l) (set_node n' l)) [] c
              else update i (set_node n' l) [MAppendResp i req resp] c)
      else None
  | MAppendResp p req r =>
      let i := aq_LeaderID req in let l := c_local c i in
      let n' := (replicate_end p req (Some r) (l_node l)).1 in
      if decide (i ∈ members) then Some (commit_hazard (l_disk l) (l_node l) n', update i (set_node n' l) [] c) else None
  | _ => None
  end.

Definition exec (a : action) (c : Cluster) : option (option hazard * Cluster) :=
  match a with
  | AStart i =>
      let l := c_local c i in
      if decide (i ∈ members ∧ l_elec l = None ∧ n_role (l_node l) ≠ RoleLeader) then
        let '(n', req) := election_begin (l_node l) in
        Some (None, update i (set_elec (Some (mkElection req false 1 [])) (set_node n' l)) [] c)
      else None
  | ACampaign i =>
      let l := c_local c i in
      match l_elec l, persist_local Saved l with
      | Some e, (true, l') =>
          if decide (i ∈ members ∧ el_sent e = false) then
            Some (None, update i (set_elec (Some (mkElection (el_req e) true (el_votes e) (el_heard e))) l')
                          (flip MVote (el_req e) <$> n_peers (l_node l)) c)
          else None
      | _, _ => None
      end
  | AEnd i => if decide (i ∈ members) then exec_end i c else None
  | AVote i req =>
      let l := c_local c i in
      match vote_locked req (l_node l) with
      | (n', resp, true) =>
          if decide (i ∈ members ∧ MVote i req ∈ c_net c)
          then Some (None, update i (set_waiting (PVote req resp :: l_waiting l) (set_node n' l)) [] c)
          else None
      | _ => None
      end
  | AAnswer i =>
      let l := c_local c i in
      match l_waiting l, persist_local Saved l with
      | w :: ws, (ok, l') =>
          if decide (i ∈ members) then Some (None, update i (set_waiting ws l') [answer i w ok (l_node l')] c)
          else None
      | _, _ => None
      end
  | ATally i p resp =>
      let l := c_local c i in
      match l_elec l with
      | Some e =>
          if decide (i ∈ members ∧ el_sent e = true ∧ p ∈ n_peers (l_node l) ∧ (p ∉ el_heard e) ∧
                     MVoteResp p (el_req e) resp ∈ c_net c) then
            let '(v, n') := election_response resp (el_votes e) (l_node l) in
            Some (None, update i
              (set_elec ((λ v, mkElection (el_req e) true v (p :: el_heard e)) <$> v) (set_node n' l)) [] c)
          else None
      | None => None
      end
  | AQuorum i now =>
      if decide (i ∈ members)
      then Some (quorum_hazard now (l_node (c_local c i)), update i (set_node (quorum_check now (l_node (c_local c i))) (c_local c i)) [] c)
      else None
  | APropose i cmd =>
      let l := c_local c i in
      if decide (i ∈ members ∧ n_role (l_node l) = RoleLeader)
      then Some (None, update i (set_node (append_entry cmd (l_node l)) l) [] c)
      else None
  | APersist i =>
      if decide (i ∈ members) then Some (None, update i (persist_local Saved (c_local c i)).2 [] c) else None
  | AReplicate i p =>
      let l := c_local c i in
      if decide (i ∈ members ∧ p ∈ n_peers (l_node l)) then
        let '(n', b) := replicate_begin p (l_node l) in
        Some (None, update i (set_node n' l) (if b is ReplSend req then [MAppend p req] else []) c)
      else None
  | ADeliver k => match c_net c !! k with Some m => exec_deliver m c | None => None end
  | ALost i p =>
      let l := c_local c i in let req := mkAppendReq 0 i 0 0 [] 0 in
      let n' := (replicate_end p req None (l_node l)).1 in
      if decide (i ∈ members) then Some (commit_hazard (l_disk l) (l_node l) n', update i (set_node n' l) [] c) else None
  | ACrash i =>
      if decide (i ∈ members) then Some (None, update i (boot members i (l_disk (c_local c i))) [] c) else None
  end.

Lemma exec_deliver_sound m c h c' : m ∈ c_net c → exec_deliver m c = Some (h, c') → step members h c c'.
Proof.
  intros Hin. destruct m as [| |i req|p req r| |]; simpl; try done.
  - case_decide; [|done]. destruct (append_locked req _) as [[n' resp] wait] eqn:Ha. intros [= <- <-]. by eapply S_append.
  - case_decide; [|done]. intros [= <- <-]. apply (S_replicated members c (aq_LeaderID req) p req (Some r)); [done|]. by intros x [= <-].
Qed.

Lemma exec_sound a c h c' : exec a c = Some (h, c') → step members h c c'.
Proof.
  destruct a as [i|i|i|i req|i|i p resp|i now|i cmd|i|i p|k|i p|i]; simpl.
  - case_decide as Hd; [|done]. destruct Hd as (? & ? & ?). intros [= <- <-]. by eapply S_start.
  - destruct (l_elec _) as [e|] eqn:He; [|done]. destruct (persist_local Saved _) as [[] l'] eqn:Hp; [|done].
    case_decide as Hd; [|done]. destruct Hd. intros [= <- <-]. by apply (S_campaign members c i e Saved true l').
  - case_decide; [|done]. unfold exec_end. destruct (l_elec _) as [e|] eqn:He; [|done].
    case_decide; [|done]. case_decide as Hd; intros [= <- <-]; [|by apply S_not_elected].
    destruct Hd as (? & ? & ?). by apply S_elected.
  - destruct (vote_locked req _) as [[n' resp] []] eqn:Hv; [|done]. case_decide as Hd; [|done]. destruct Hd.
    intros [= <- <-]. by apply (S_vote members c i req n' resp true).
  - destruct (l_waiting _) as [|w ws] eqn:Hw; [done|]. destruct (persist_local Saved _) as [ok l'] eqn:Hp.
    case_decide; [|done]. intros [= <- <-]. by apply (S_answer members c i Saved ok l' [] w ws).
  - destruct (l_elec _) as [e|] eqn:He; [|done]. case_decide as Hd; [|done]. destruct Hd as (? & ? & ? & ? & ?).
    destruct (election_response resp _ _) as [v n'] eqn:Hr. intros [= <- <-]. by eapply S_tally.
  - case_decide; [|done]. intros [= <- <-]. by apply S_quorum_loss.
  - case_decide as Hd; [|done]. destruct Hd. intros [= <- <-]. by apply S_propose.
  - case_decide; [|done]. intros [= <- <-]. by apply S_persist.
  - case_decide as Hd; [|done]. destruct Hd. destruct (replicate_begin p _) as [n' b] eqn:Hb. intros [= <- <-]. by eapply S_replicate.
  - destruct (c_net c !! k) as [m|] eqn:Hm; [|done]. apply exec_deliver_sound. by eapply list_elem_of_lookup_2.
  - case_decide; [|done]. intros [= <- <-]. by apply (S_replicated members c i p _ None).
  - case_decide; [|done]. intros [= <- <-]. by apply S_crash.
Qed.

(** A whole schedule, whose steps all satisfy [ok]. *)
Fixpoint runs (ok : option hazard → bool) (sched : list action) (c : Cluster) : option Cluster :=
  match sched with
  | [] => Some c
  | a :: sched =>
      match exec a c with
      | Some (h, c') => if ok h then runs ok sched c' else None
      | None => None
      end
  end.

Lemma runs_run ok sched c0 c c' : runs ok sched c = Some c' → run members ok c0 c → run members ok c0 c'.
Proof.
  revert c; induction sched as [|a sched IH]; intros c; simpl; [by intros [= <-]|].
  destruct (exec a c) as [[h c1]|] eqn:E; [|done]. destruct (ok h) eqn:Hok; [|done]. intros Hr Hs.
  apply (IH c1 Hr). eapply run_snoc; [done|by apply exec_sound in E|done].
Qed.

Lemma runs_witness sched (P : Cluster → Prop) :
  match runs (λ _, true) sched (init members) with Some c => P c | None => False end →
  ∃ c, steps members (init members) c ∧ P c.
Proof.
  destruct (runs _ sched _) as [c|] eqn:E; [|done]. intros HP. exists c.
  split; [apply (runs_run _ _ _ _ _ E); constructor|done].
Qed.

End exec.

(** Names used by the executions below. *)
Definition abc : list string := ["A"; "B"; "C"]%string.
Definition ask (t : Z) (cand : string) : VoteRequest := mkVoteReq t cand 0 0.
Definition role_of (c : Cluster) (i : string) : Role := n_role (l_node (c_local c i)).
Definition term_of (c : Cluster) (i : string) : Z := n_term (l_node (c_local c i)).

(** A is elected in term 1 with the vote of C. *)
Definition election_of_A : list action :=
  [AStart "A"; ACampaign "A"; AVote "C" (ask 1 "A"); AAnswer "C"; ATally "A" "C" (mkVoteResp 1 true); AEnd "A"]%string.

(** An election of [i] with the votes of [vs], asked for with its last index and
    term; a call of [i] to [p] that stores entries there, and one that stores
    none, each with its answer. *)
Definition election_of (i : string) (t lastIndex lastTerm : Z) (vs : list string) : list action :=
  [AStart i; ACampaign i] ++
  (vs ≫= λ v, [AVote v (mkVoteReq t i lastIndex lastTerm); AAnswer v; ATally i v (mkVoteResp t true)]) ++ [AEnd i].
Definition push (i p : string) : list action := [AReplicate i p; ADeliver 0; AAnswer p; ADeliver 0].
Definition beat (i p : string) : list action := [AReplicate i p; ADeliver 0; ADeliver 0].
Definition put (k : string) : Command := mkCommand OpPut k "" "" 0.

(** A, elected, proposes an entry, stores it on B and commits it; the next call
    tells B. *)
Definition commit_by_A : list action :=
  election_of_A ++ beat "A" "B" ++ [APropose "A" (put "x"); APersist "A"] ++ push "A" "B" ++ beat "A" "B".

Lemma election_safety_witness :
  NoDup abc ∧ (2 <= length abc)%nat ∧
  ∃ c, safe_steps abc (init abc) c ∧ role_of c "A" = RoleLeader ∧
    (∀ b, b ∈ abc → role_of c b = RoleLeader → term_of c b = 1 → "A"%string = b).
Proof.
  assert (Hnd : NoDup abc) by (apply (bool_decide_unpack (NoDup abc)); vm_compute; exact I).
  split; [exact Hnd|]. split; [vm_compute; lia|].
  assert (HA : match runs abc elections_ok election_of_A (init abc) with
    | Some c => role_of c "A" = RoleLeader ∧ term_of c "A" = 1 | None => False end)
    by (vm_compute; split; reflexivity).
  destruct (runs abc elections_ok election_of_A (init abc)) as [c|] eqn:E; [|destruct HA].
  exists c. assert (Hs : safe_steps abc (init abc) c) by (apply (runs_run abc _ _ _ _ _ E); constructor).
  split; [exact Hs|]. destruct HA as [HA HT]. split; [exact HA|]. intros b Hb Hr Ht.
  destruct (election_safety abc Hnd ltac:(vm_compute; lia) c Hs) as [_ H].
  apply H; [vm_compute; left|exact Hb|exact HA|exact Hr|]. unfold term_of in *. congruence.
Defined.

(** C campaigns in term 1; A and B lose their elections of term 1 and campaign
    again in term 2; C votes for A, then the end of its own old election
    clears that vote, and C votes for B as well. *)
Definition stale_tail_schedule : list action :=
  [AStart "C"; ACampaign "C"; AStart "A"; ACampaign "A"; AEnd "A"; AStart "A"; ACampaign "A";
   AStart "B"; ACampaign "B"; AEnd "B"; AStart "B"; ACampaign "B";
   AVote "C" (ask 2 "A"); AAnswer "C"; ATally "A" "C" (mkVoteResp 2 true); AEnd "A";
   AEnd "C";
   AVote "C" (ask 2 "B"); AAnswer "C"; ATally "B" "C" (mkVoteResp 2 true); AEnd "B"]%string.

(** A and B campaign in term 1; A wins with the vote of C, steps down for lack
    of a quorum, and then votes for B, whose request was still on its way. *)
Definition quorum_loss_schedule : list action :=
  [AStart "B"; ACampaign "B"]%string ++ election_of_A ++
  [AQuorum "A" 1000000000; AVote "A" (ask 1 "B"); AAnswer "A"; ATally "B" "A" (mkVoteResp 1 true); AEnd "B"]%string.

(** Two leaders in one term: [becomeFollower] clears the vote also when
    the term stays the same.  In a cluster of three, the end of an election
    that its node has left behind makes the node vote twice, and two nodes
    are leaders of term 2 at the same time; and a leader that steps down for
    lack of a quorum votes for its rival, so that term 1 has two leaders. *)
Theorem two_leaders_in_one_term :
  (∃ c, steps abc (init abc) c ∧
     role_of c "A" = RoleLeader ∧ role_of c "B" = RoleLeader ∧ term_of c "A" = 2 ∧ term_of c "B" = 2) ∧
  (∃ c, steps abc (init abc) c ∧ ("A"%string, 1) ∈ c_led c ∧ ("B"%string, 1) ∈ c_led c ∧ role_of c "B" = RoleLeader).
Proof.
  split.
  - apply (runs_witness abc stale_tail_schedule). vm_compute. done.
  - apply (runs_witness abc quorum_loss_schedule). vm_compute. split_and!; [right; left|left|reflexivity].
Qed.
