(* ===== verification/RaftMatching.v ===== *)
(** * RaftMatching: the logs of a cluster agree

    Log matching as an invariant of the cluster, for every execution that
    keeps elections safe and whose logs are not rebased.  The history of a term
    is the log of its leader, which only grows while it leads; every log, in
    memory, on disk or in a request, is made of pieces of these histories. *)

From S2P Require Import Prelude GoLib Engine RaftNode RaftLeader RaftApply RaftLog RaftCluster RaftSafety.

(** ** Prefixes *)

Lemma take_prefix_of {A} (l1 l2 : list A) k : l1 `prefix_of` l2 → (k <= length l1)%nat → take k l1 = take k l2.
Proof. intros [m ->] Hk. by rewrite take_app_le. Qed.

Lemma take_mono_prefix {A} (l1 l2 : list A) k : l1 `prefix_of` l2 → take k l1 `prefix_of` take k l2.
Proof.
  intros [m ->]. destruct (decide (k <= length l1)%nat).
  - by rewrite take_app_le.
  - rewrite (take_ge l1), take_app_ge by lia. by eexists.
Qed.

Lemma take_take_le {A} (l : list A) j k : (j <= k)%nat → take j (take k l) = take j l.
Proof. intros Hjk. by rewrite take_take, Nat.min_l. Qed.

Lemma prefix_take_le {A} (l : list A) j k : (j <= k)%nat → take j l `prefix_of` take k l.
Proof. intros Hjk. rewrite <- (take_take_le l j k) by lia. apply prefix_take. Qed.

(** Two prefixes of one list, the shorter first. *)
Lemma prefixes_le {A} (l1 l2 l : list A) :
  l1 `prefix_of` l → l2 `prefix_of` l → (length l1 <= length l2)%nat → l1 `prefix_of` l2.
Proof.
  intros H1 H2 Hl. rewrite <- (firstn_all l1), (take_prefix_of l1 l), <- (take_prefix_of l2 l) by done.
  apply prefix_take.
Qed.

(** ** Pieces of histories *)

(** The term of the entry at raft index [k], as [logTermAt] of a log without
    base. *)
Definition term_at (l : list Entry) (k : Z) : Z :=
  if k =? 0 then 0 else match l !! Z.to_nat (k - 1) with Some e => Term e | None => -1 end.

Lemma entryAt_unbased n k : n_lastIncludedIndex n = 0 → 0 < k → entryAt n k = n_log n !! Z.to_nat (k - 1).
Proof. intros Hb Hk. rewrite entryAt_lookup, Hb, decide_True by done. f_equal. lia. Qed.

Lemma logTermAt_unbased n k : n_lastIncludedIndex n = 0 → 0 <= k → logTermAt n k = term_at (n_log n) k.
Proof.
  intros Hb Hk. unfold logTermAt, term_at. rewrite Hb. destruct (Z.eqb_spec k 0); [done|].
  by rewrite entryAt_unbased by lia.
Qed.

Section histories.
Context (L : Z → list Entry).

(** Up to each of its entries the log is the history of the entry's term. *)
Definition coherent (l : list Entry) : Prop := ∀ k e, l !! k = Some e → take (S k) l `prefix_of` L (Term e).

Lemma coherent_nil : coherent [].
Proof. by intros k e. Qed.

Lemma coherent_prefix l l' : l' `prefix_of` l → coherent l → coherent l'.
Proof.
  intros Hp Hl k e He. rewrite (take_prefix_of l' l); [|done|].
  - apply Hl. by eapply prefix_lookup_Some.
  - apply lookup_lt_Some in He. lia.
Qed.

Lemma coherent_agree l1 l2 k e1 e2 :
  coherent l1 → coherent l2 → l1 !! k = Some e1 → l2 !! k = Some e2 → Term e1 = Term e2 →
  take (S k) l1 = take (S k) l2.
Proof.
  intros H1 H2 E1 E2 Ht. pose proof (H1 k e1 E1) as P1. pose proof (H2 k e2 E2) as P2. rewrite Ht in P1.
  apply lookup_lt_Some in E1, E2. rewrite <- (take_take_le l1 (S k) (S k)) by lia.
  rewrite (take_prefix_of _ _ (S k) P1), <- (take_prefix_of _ _ (S k) P2); [|rewrite length_take; lia..].
  by rewrite take_take_le.
Qed.

(** The last entry decides the whole log. *)
Lemma coherent_last l e : coherent l → last l = Some e → l `prefix_of` L (Term e).
Proof.
  intros Hl He. rewrite last_lookup in He. pose proof (Hl _ _ He) as Hp. apply lookup_lt_Some in He.
  by rewrite take_ge in Hp by lia.
Qed.

(** What a request with the entries of [s] after index [prev] makes of a log
    that passes the check of the previous entry: it becomes [s]. *)
Lemma merge_coherent req n s :
  n_lastIncludedIndex n = 0 → coherent (n_log n) → coherent s → Forall (λ e, 0 <= Term e) (n_log n) →
  0 <= aq_PrevLogIndex req <= zlen s → aq_Entries req = drop (Z.to_nat (aq_PrevLogIndex req)) s →
  checkPrevLog (aq_PrevLogIndex req) (term_at s (aq_PrevLogIndex req)) n = true →
  n_log (mergeEntries req n).2 = s.
Proof.
  intros Hb Hn Hs Hpos Hprev He [Hlen Hterm]%checkPrevLog_true.
  set (prev := aq_PrevLogIndex req) in *.
  destruct (mergeEntries_spec req n) as (M1 & M2 & M3); [lia|done|]. fold prev in M1, M2, M3.
  set (n' := (mergeEntries req n).2) in *.
  assert (Hb' : n_lastIncludedIndex n' = 0) by (unfold n'; by rewrite mergeEntries_frame).
  assert (Hl' : length (n_log n') = length s).
  { unfold lastLogIndex in M3. rewrite Hb', Hb, He, zlen_drop in M3. unfold zlen in *. lia. }
  assert (Hbelow : take (Z.to_nat prev) (n_log n) = take (Z.to_nat prev) s).
  { destruct (decide (prev = 0)) as [->|Hp0]; [done|]. rewrite logTermAt_unbased in Hterm by lia.
    unfold term_at in Hterm. rewrite (proj2 (Z.eqb_neq prev 0) Hp0) in Hterm.
    unfold lastLogIndex in Hlen. rewrite Hb in Hlen. unfold zlen in Hprev, Hlen.
    destruct (lookup_lt_is_Some_2 (n_log n) (Z.to_nat (prev - 1))) as [x Hx]; [lia|].
    destruct (lookup_lt_is_Some_2 s (Z.to_nat (prev - 1))) as [y Hy]; [lia|].
    rewrite Hx, Hy in Hterm. pose proof (coherent_agree _ _ _ _ _ Hn Hs Hx Hy ltac:(lia)) as Hag.
    by replace (S (Z.to_nat (prev - 1))) with (Z.to_nat prev) in Hag by lia. }
  apply list_eq. intros j. destruct (decide (j < length s)%nat) as [Hj|Hj]; [|by rewrite !lookup_ge_None_2 by lia].
  destruct (decide (j < Z.to_nat prev)%nat) as [Hjp|Hjp].
  - specialize (M1 (Z.of_nat j + 1) ltac:(lia)). rewrite !entryAt_unbased in M1 by lia.
    replace (Z.to_nat (Z.of_nat j + 1 - 1)) with j in M1 by lia. rewrite M1.
    by rewrite <- (lookup_take_lt (n_log n) (Z.to_nat prev)), Hbelow, lookup_take_lt by done.
  - destruct (lookup_lt_is_Some_2 s j Hj) as [e Hse]. rewrite Hse.
    destruct (M2 (j - Z.to_nat prev)%nat e) as (e' & E1 & E2 & E3); [rewrite He, lookup_drop, <- Hse; f_equal; lia|lia|].
    rewrite entryAt_unbased in E1 by lia. replace (Z.to_nat _) with j in E1 by lia. rewrite E1. f_equal.
    destruct E3 as [->|E3]; [done|]. rewrite entryAt_unbased in E3 by lia. replace (Z.to_nat _) with j in E3 by lia.
    pose proof (coherent_agree _ _ _ _ _ Hn Hs E3 Hse E2) as Hag. apply (f_equal (.!! j)) in Hag.
    rewrite !lookup_take_lt in Hag by lia. congruence.
Qed.
End histories.

Lemma coherent_mono L L' l : (∀ t, L t `prefix_of` L' t) → coherent L l → coherent L' l.
Proof. intros HL Hl k e He. by trans (L (Term e)); [apply Hl|]. Qed.

Lemma coherent_snoc L l e : coherent L l → L (Term e) = l ++ [e] → coherent L (l ++ [e]).
Proof.
  intros Hl HL k x [Hx|[Hk Hx]]%lookup_app_Some.
  - apply lookup_lt_Some in Hx as Hlt. rewrite take_app_le by lia. by apply Hl.
  - apply list_lookup_singleton_Some in Hx as [Hk0 <-]. rewrite HL, take_ge; [done|]. rewrite length_app. simpl. lia.
Qed.

(** ** What the critical sections do to the log *)

(** The log and its base stay; [kept] also keeps what is committed and applied,
    and does not claim that more is saved. *)
Definition same_log (n n' : Node) : Prop :=
  n_log n' = n_log n ∧ n_lastIncludedIndex n' = n_lastIncludedIndex n.
Definition kept (n n' : Node) : Prop :=
  same_log n n' ∧ n_commitIndex n' = n_commitIndex n ∧ (n_dirty n' = false → n_dirty n = false) ∧
  n_lastIncludedTerm n' = n_lastIncludedTerm n ∧ n_lastApplied n <= n_lastApplied n'.

Lemma kept_refl n : kept n n.
Proof. done. Qed.

Lemma kept_log n n' : kept n n' → same_log n n'.
Proof. by intros [? _]. Qed.

Lemma replState_kept n : kept n (replState n).2.
Proof. unfold replState. by destruct (n_repl n). Qed.

Lemma maybeCommit_log n : same_log n (maybeCommit n).
Proof.
  unfold maybeCommit. destruct (negb _); [done|]. pose proof (replState_kept n) as [Hv _].
  destruct (replState n) as [st m]. simpl in Hv. destruct (_ <=? _); [done|]. by destruct (_ && _).
Qed.

Lemma replicate_begin_kept p n n' b : replicate_begin p n = (n', b) → kept n n'.
Proof.
  unfold replicate_begin. destruct (negb _); [intros [= <- <-]; apply kept_refl|].
  pose proof (replState_kept n) as Hv. destruct (replState n) as [st m]. simpl in Hv.
  destruct (flying st p); [by intros [= <- <-]|]. destruct (_ <? firstIndex m); by intros [= <- <-].
Qed.

Lemma same_log_trans n1 n2 n3 : same_log n1 n2 → same_log n2 n3 → same_log n1 n3.
Proof. unfold same_log. intros [-> ->] [-> ->]. done. Qed.

Lemma replicate_end_log p req resp n : same_log n (replicate_end p req resp n).1.
Proof.
  unfold replicate_end. pose proof (kept_log _ _ (replState_kept n)) as Hv. destruct (replState n) as [st m]. simpl in Hv.
  destruct resp as [r|]; [|done]. destruct (_ <? _); [done|]. destruct (_ <? _); [done|]. destruct (negb _); [done|].
  eapply same_log_trans; [|apply maybeCommit_log]. done.
Qed.

Lemma install_end_log p snap resp n : same_log n (install_end p snap resp n).1.
Proof.
  unfold install_end. pose proof (kept_log _ _ (replState_kept n)) as Hv. destruct (replState n) as [st m]. simpl in Hv.
  destruct resp as [r|]; [|done]. destruct (_ <? _); [done|]. destruct (_ || _); [done|].
  eapply same_log_trans; [|apply maybeCommit_log]. done.
Qed.

Lemma install_check_kept p n : kept n (install_check p n).1.
Proof.
  unfold install_check. destruct (_ || _); [apply kept_refl|]. pose proof (replState_kept n). by destruct (replState n).
Qed.

Lemma install_begin_kept p snap n n' r : install_begin p snap n = (n', r) → kept n n'.
Proof.
  unfold install_begin. pose proof (replState_kept n) as Hv. destruct (replState n) as [st m]. simpl in Hv.
  destruct (flying st p); by intros [= <- <-].
Qed.

Lemma heartbeat_end_kept now acks n : kept n (heartbeat_end now acks n).
Proof. unfold heartbeat_end. by destruct (_ && _). Qed.

Lemma apply_finish_kept i n : kept n (apply_finish i n).
Proof.
  unfold apply_finish. destruct (Z.ltb_spec (n_lastApplied n) i); [|done]. split_and!; try done. simpl. lia.
Qed.

Lemma election_response_kept resp v n v' n' : election_response resp v n = (v', n') → kept n n'.
Proof. unfold election_response. destruct (_ <? _); by intros [= <- <-]. Qed.

Lemma election_end_kept req v q n : kept n (election_end req v q n).
Proof. unfold election_end. by destruct (_ && _). Qed.

Lemma vote_locked_kept req n n' resp wait : vote_locked req n = (n', resp, wait) → kept n n'.
Proof.
  unfold vote_locked. destruct (_ <? _); [intros [= <- <- <-]; apply kept_refl|].
  destruct (_ <? _); destruct (_ && _); by intros [= <- <- <-].
Qed.

Lemma follow_kept t ldr n : kept n (follow t ldr n).
Proof. unfold follow. by destruct (_ || _). Qed.

Lemma CompactLog_unbased i t n : n_lastIncludedIndex (CompactLog i t n) = n_lastIncludedIndex n → CompactLog i t n = n.
Proof.
  unfold CompactLog. destruct (Z.leb_spec i (n_lastIncludedIndex n)); [done|]. intros Hb.
  destruct (_ <=? _); simpl in Hb; destruct (raise_base_frame i (set_base i (lastLogTerm n) (set_log [] n))) as (_ & H1 & _);
    match type of Hb with n_lastIncludedIndex (raise_base i ?m) = _ =>
      destruct (raise_base_frame i m) as (_ & H2 & _) end; rewrite H2 in Hb; simpl in Hb; lia.
Qed.

(** An installed snapshot whose index is the old base. *)
Lemma install_locked_log req n n' resp rest :
  install_locked req n = (n', resp, rest) → n_lastIncludedIndex n' = n_lastIncludedIndex n → same_log n n'.
Proof.
  unfold install_locked. destruct (_ <? _); [by intros [= <- <- <-]|].
  pose proof (kept_log _ _ (follow_kept (iq_Term req) (iq_LeaderID req) n)) as [F1 F2].
  set (f := follow _ _ n) in *. clearbody f. destruct (_ <? _); intros [= <- <- <-] Hb; [|done]. split; [|done]. revert Hb. unfold adopt_base.
  set (m := set_base _ _ _). pose proof (raise_base_frame (iq_LastIncludedIndex req) m) as (R1 & R2 & _).
  simpl. rewrite R1, R2. unfold m. simpl. rewrite F1, F2. intros ->.
  pose proof (zlen_nonneg (n_log n)). rewrite (proj2 (Z.ltb_ge _ _)) by lia. by rewrite Z.sub_diag.
Qed.

(** Whether a step of the node made it a leader, or lowered its term. *)
Definition settled (n n' : Node) : Prop :=
  n_term n <= n_term n' ∧ (n_role n' = RoleLeader → n_role n = RoleLeader ∧ n_term n' = n_term n).

Lemma settled_same n n' : same_vote n n' → settled n n'.
Proof. intros (Hr & Ht & _). unfold settled. rewrite Hr, Ht. split; [lia|done]. Qed.

Lemma settled_raised t n n' : raised t n n' → settled n n'.
Proof. intros (H1 & H2 & H3 & _). unfold settled. rewrite H2, H3. split; [lia|done]. Qed.

Lemma settled_cleared n n' : cleared n n' → settled n n'.
Proof. intros (_ & H2 & H3 & _). unfold settled. rewrite H2, H3. split; [lia|done]. Qed.

Lemma settled_same_or_raised n n' : same_vote n n' ∨ (∃ t, raised t n n') → settled n n'.
Proof. intros [?|[t ?]]; [by apply settled_same|by eapply settled_raised]. Qed.

Lemma follow_settled t ldr n : n_term n <= t → settled n (follow t ldr n).
Proof.
  intros Ht. destruct (follow_vote t ldr n Ht) as (H1 & H2 & _). unfold settled. rewrite H1, H2. split; [done|done].
Qed.

Lemma settled_trans n1 n2 n3 : settled n1 n2 → settled n2 n3 → settled n1 n3.
Proof.
  intros [H1 H2] [H3 H4]. split; [lia|]. intros Hr. destruct (H4 Hr) as [Hr2 E2]. destruct (H2 Hr2). split; [done|congruence].
Qed.

Lemma vote_locked_settled req n n' resp wait : vote_locked req n = (n', resp, wait) → settled n n'.
Proof.
  unfold vote_locked. destruct (Z.ltb_spec (vq_Term req) (n_term n)); [intros [= <- <- <-]; by apply settled_same|].
  destruct (Z.ltb_spec (n_term n) (vq_Term req)); destruct (_ && _); intros [= <- <- <-]; split; simpl; try done; lia.
Qed.

(** ** The invariant *)

Section matching.
Context (members : list string).

Definition led_in (led : list (string * Z)) (t : Z) : Prop := ∃ i, (i, t) ∈ led.

(** The history [L t] of a term, of which the first [B t] entries are what the
    leader had when it was elected. *)
Definition history_ok (L : Z → list Entry) (B : Z → nat) (t : Z) : Prop :=
  coherent L (L t) ∧ (B t <= length (L t))%nat ∧
  ∀ k e, L t !! k = Some e → if decide (k < B t)%nat then Term e < t else Term e = t.

(** A log of a node in memory or on disk, at term [t]. *)
Definition log_ok (L : Z → list Entry) (t : Z) (l : list Entry) : Prop :=
  0 <= t ∧ coherent L l ∧ Forall (λ e, Term e <= t) l.

Record node_ok (L : Z → list Entry) (n : Node) (d : RaftState) : Prop := mk_node_ok {
  no_base : n_lastIncludedIndex n = 0 ∧ rs_LastIncludedIndex d = 0;
  no_log : log_ok L (n_term n) (n_log n);
  no_disk : log_ok L (rs_Term d) (rs_Log d);
  no_lead : n_role n = RoleLeader → n_log n = L (n_term n)
}.

(** A request carries what follows [prev] in the history [s] its leader had; one
    beyond the end of the leader's log is refused by everybody. *)
Definition carries (L : Z → list Entry) (B : Z → nat) (req : AppendEntriesRequest) (s : list Entry) : Prop :=
  s `prefix_of` L (aq_Term req) ∧ (B (aq_Term req) <= length s)%nat ∧ 0 <= aq_PrevLogIndex req <= zlen s ∧
  aq_Entries req = drop (Z.to_nat (aq_PrevLogIndex req)) s ∧ aq_PrevLogTerm req = term_at s (aq_PrevLogIndex req).
Definition request_ok (L : Z → list Entry) (B : Z → nat) (m : msg) : Prop :=
  match m with
  | MAppend _ req => (0 < aq_PrevLogIndex req ∧ aq_PrevLogTerm req = -1) ∨ ∃ s, carries L B req s
  | _ => True
  end.

Record LInv (L : Z → list Entry) (B : Z → nat) (c : Cluster) : Prop := mk_LInv {
  lm_led : ∀ t, led_in (c_led c) t → 0 <= t;
  lm_fresh : ∀ t, L t ≠ [] → led_in (c_led c) t;
  lm_hist : ∀ t, history_ok L B t;
  lm_node : ∀ i, i ∈ members → node_ok L (l_node (c_local c i)) (l_disk (c_local c i));
  lm_msgs : Forall (request_ok L B) (c_net c)
}.

(** The entries of a log have the term of some leader. *)
Lemma coherent_led L B c l e : LInv L B c → coherent L l → e ∈ l → led_in (c_led c) (Term e).
Proof.
  intros HL Hl [k He]%list_elem_of_lookup. apply (lm_fresh _ _ _ HL). intros Hn.
  pose proof (Hl k e He) as Hp. rewrite Hn in Hp. apply prefix_nil_inv in Hp. by destruct l.
Qed.

Lemma coherent_pos L B c l : LInv L B c → coherent L l → Forall (λ e, 0 <= Term e) l.
Proof.
  intros HL Hl. apply Forall_forall. intros e He. by eapply (lm_led _ _ _ HL), coherent_led.
Qed.

(** *** Steps that leave the histories alone *)

Lemma LInv_update L B c i l ms :
  LInv L B c → node_ok L (l_node l) (l_disk l) → Forall (request_ok L B) ms → LInv L B (update i l ms c).
Proof.
  intros [] Hl Hms. split; simpl; try done; [|by apply Forall_app].
  intros j Hj. case_decide; [done|by apply lm_node0].
Qed.

Lemma log_ok_raise L t t' l : log_ok L t l → t <= t' → log_ok L t' l.
Proof.
  intros (H1 & H2 & H3) Ht. split_and!; [lia|done|]. eapply Forall_impl; [done|]. simpl. lia.
Qed.

Lemma node_ok_kept L n n' d : node_ok L n d → same_log n n' → settled n n' → node_ok L n' d.
Proof.
  intros [] [Hlog Hbase] [Ht Hr]. split; try done.
  - by rewrite Hbase.
  - rewrite Hlog. by eapply log_ok_raise.
  - intros Hl. destruct (Hr Hl) as [Hl' ->]. rewrite Hlog. auto.
Qed.

Lemma LInv_kept L B c i n' e w ms :
  LInv L B c → i ∈ members → same_log (l_node (c_local c i)) n' → settled (l_node (c_local c i)) n' →
  Forall (request_ok L B) ms →
  LInv L B (update i (mkLocal n' (l_disk (c_local c i)) e w) ms c).
Proof. intros HL Hi Hs Hr Hms. apply LInv_update; [done| |done]. eapply node_ok_kept; [by apply (lm_node _ _ _ HL)|done..]. Qed.

Lemma persist_local_view o l ok l' :
  persist_local o l = (ok, l') →
  l_elec l' = l_elec l ∧ l_waiting l' = l_waiting l ∧ (∃ d, l_node l' = set_dirty d (l_node l)) ∧
  (n_dirty (l_node l') = false → n_dirty (l_node l) = false ∨ l_disk l' = durable (l_node l)) ∧
  (l_disk l' = l_disk l ∨ l_disk l' = durable (l_node l)).
Proof.
  unfold persist_local, persist. destruct (negb _ || negb _) eqn:E.
  { intros [= <- <-]. destruct l as [n ? ? ?]. simpl. split_and!; try done; [by exists (n_dirty n); destruct n|by left|by left]. }
  destruct (Save_cell o (durable (l_node l)) (l_disk l)) as [ok' d'] eqn:Es.
  assert (Hd' : d' = l_disk l ∧ ok' = false ∨ d' = durable (l_node l)) by (destruct o as [|[]]; simpl in Es; simplify_eq; auto).
  intros [= <- <-]. simpl. split_and!; try done.
  - destruct ok'; [by exists false|]. exists (n_dirty (l_node l)). by destruct (l_node l).
  - intros Hc. destruct Hd' as [[_ ->]|Hd']; [by left|by right].
  - destruct Hd' as [[? _]|?]; auto.
Qed.

Lemma node_ok_persist L l o ok l' :
  node_ok L (l_node l) (l_disk l) → persist_local o l = (ok, l') → node_ok L (l_node l') (l_disk l').
Proof.
  intros [] Hp. destruct (persist_local_view _ _ _ _ Hp) as (_ & _ & (d & ->) & _ & Hd).
  split; simpl; try done; destruct Hd as [->| ->]; simpl; try done. by destruct no_base0.
Qed.

Lemma boot_node i d (n := l_node (boot members i d)) : peers_of members i ≠ [] →
  n_role n = RoleFollower ∧ n_term n = rs_Term d ∧ n_log n = rs_Log d ∧
  n_lastIncludedIndex n = rs_LastIncludedIndex d ∧ n_dirty n = false ∧
  n_commitIndex n = Z.max 0 (rs_LastIncludedIndex d) ∧ n_repl n = None.
Proof.
  intros Hp. unfold n, boot, SetRaftStore, NewNode. rewrite bool_decide_false by done. simpl.
  destruct (Z.ltb_spec 0 (rs_LastIncludedIndex d)); simpl; destruct (_ <? _); simpl; split_and!; (done || lia).
Qed.

Lemma node_ok_boot L i n d : peers_of members i ≠ [] → node_ok L n d →
  node_ok L (l_node (boot members i d)) (l_disk (boot members i d)).
Proof.
  intros Hp []. destruct (boot_node i d Hp) as (H1 & H2 & H3 & H4 & _).
  split; rewrite ?H1, ?H2, ?H3, ?H4; try done. by destruct no_base0.
Qed.

(** *** A request of the leader *)

Lemma replicate_carries L B c i p n' req :
  LInv L B c → i ∈ members → replicate_begin p (l_node (c_local c i)) = (n', ReplSend req) →
  request_ok L B (MAppend p req).
Proof.
  intros HL Hi Hb. destruct (lm_node _ _ _ HL i Hi) as [[Hbase _] (_ & Hcoh & _) _ Hlead].
  destruct (replicate_begin_send _ _ _ _ Hb) as (Hr & Ht & _ & _ & Hp0 & Hpt & _ & He & _).
  set (n := l_node (c_local c i)) in *. specialize (Hlead Hr). unfold lastLogIndex in He. rewrite Hbase in He.
  rewrite logTermAt_unbased in Hpt by done. simpl.
  destruct (decide (aq_PrevLogIndex req <= zlen (n_log n))) as [Hle|Hgt].
  - right. exists (n_log n). unfold carries. rewrite Ht, <- Hlead. split_and!; try done.
    + destruct (lm_hist _ _ _ HL (n_term n)) as (_ & HB & _). by rewrite Hlead.
    + rewrite He. destruct (Z.ltb_spec (aq_PrevLogIndex req) (0 + zlen (n_log n))); [f_equal; lia|].
      symmetry. apply drop_ge. unfold zlen in *. lia.
  - left. pose proof (zlen_nonneg (n_log n)). split; [lia|]. rewrite Hpt. unfold term_at.
    rewrite (proj2 (Z.eqb_neq _ 0)) by lia. rewrite lookup_ge_None_2; [done|]. unfold zlen in *. lia.
Qed.

(** A request that is accepted replaces the log by the history it carries. *)
Lemma append_takes L B c n n' req resp wait :
  LInv L B c → request_ok L B (MAppend (n_id n) req) → n_lastIncludedIndex n = 0 → coherent L (n_log n) →
  append_locked req n = (n', resp, wait) → ar_Success resp = true →
  ∃ s, carries L B req s ∧ n_log n' = s.
Proof.
  intros HL Hreq Hb Hcoh Ha Hok.
  destruct (append_locked_success _ _ _ _ _ Ha Hok) as (_ & Hchk & Hlog & _).
  destruct (follow_kept (aq_Term req) (aq_LeaderID req) n) as ((F1 & F2) & _).
  set (f := follow _ _ n) in *. clearbody f.
  pose proof (coherent_pos _ _ _ _ HL Hcoh) as Hpos. destruct Hreq as [[Hp Ht]|(s & Hs)].
  - exfalso. apply checkPrevLog_true in Hchk as [Hlen Hterm]. specialize (Hterm Hp). rewrite Ht in Hterm.
    rewrite logTermAt_unbased in Hterm by lia. unfold term_at in Hterm. rewrite (proj2 (Z.eqb_neq _ 0)) in Hterm by lia.
    unfold lastLogIndex, zlen in Hlen. rewrite Hb in Hlen.
    destruct (lookup_lt_is_Some_2 (n_log n) (Z.to_nat (aq_PrevLogIndex req - 1))) as [e He]; [lia|].
    rewrite He in Hterm. rewrite Forall_forall in Hpos. apply list_elem_of_lookup_2 in He. specialize (Hpos e He). lia.
  - exists s. split; [done|]. rewrite Hlog. destruct Hs as (Hs1 & _ & Hs3 & Hs4 & Hs5).
    apply (merge_coherent L); rewrite ?F1, ?F2; try done.
    + eapply coherent_prefix; [done|]. apply (lm_hist _ _ _ HL).
    + rewrite <- Hs5, <- Hchk. unfold checkPrevLog. by rewrite (lastLogIndex_ext n), (logTermAt_unbased f), (logTermAt_unbased n), F1 by (done || lia).
Qed.

Lemma node_ok_append L B c i n' req resp wait (n := l_node (c_local c i)) :
  LInv L B c → Inv members c → i ∈ members → MAppend i req ∈ c_net c →
  append_locked req n = (n', resp, wait) → node_ok L n' (l_disk (c_local c i)).
Proof.
  intros HL Hc Hi Hin Ha. pose proof (lm_node _ _ _ HL i Hi) as Hn. pose proof Hn as [[Hb _] (Ht0 & Hcoh & Hle) _ _].
  fold n in Hb, Ht0, Hcoh, Hle, Hn.
  assert (Hset : settled n n').
  { destruct (append_locked_view _ _ _ _ _ Ha) as [->|[Ht Hv]]; [by apply settled_same|].
    eapply settled_trans; [by apply follow_settled|by apply settled_same]. }
  destruct (ar_Success resp) eqn:Hok.
  - pose proof (proj1 (Forall_forall _ _) (lm_msgs _ _ _ HL) _ Hin) as Hreq.
    destruct (append_takes L B c n n' req resp wait HL) as (s & Hs & Hlog); try done.
    destruct (append_locked_success _ _ _ _ _ Ha Hok) as (_ & _ & _ & Hb' & _ & Ht' & Hr' & _).
    destruct Hs as (Hs1 & _). destruct (lm_hist _ _ _ HL (aq_Term req)) as (Hh & _ & Hterms).
    split; try apply Hn.
    + rewrite Hb'. by destruct Hn as [[] _ _ _].
    + rewrite Hlog, Ht'. split_and!; [destruct Hset; lia|by eapply coherent_prefix|].
      apply Forall_forall. intros e [k He]%list_elem_of_lookup.
      pose proof (Hterms k e ltac:(by eapply prefix_lookup_Some)) as Hk. case_decide; lia.
    + by rewrite Hr'.
  - apply (node_ok_kept L n); [done| |done]. revert Ha Hok. unfold append_locked.
    destruct (_ <? _); [by intros [= <- <- <-]|]. destruct (follow_kept (aq_Term req) (aq_LeaderID req) n) as (F & _).
    destruct (negb _); [by intros [= <- <- <-]|]. destruct (mergeEntries _ _) as [ch m]. destruct (_ <? _); by intros [= <- <- <-].
Qed.

(** *** Steps that write history *)

Lemma log_ok_mono L L' t l : (∀ u, L u `prefix_of` L' u) → log_ok L t l → log_ok L' t l.
Proof. intros HL (? & ? & ?). split_and!; try done. by eapply coherent_mono. Qed.

Lemma request_ok_grow L B L' B' led m :
  msg_ok led m → request_ok L B m → (∀ u, L u `prefix_of` L' u) → (∀ u, led_in led u → B' u = B u) →
  request_ok L' B' m.
Proof.
  intros Hm Hr HL HB. destruct m as [| |to req| | |]; try done. destruct Hm as [Hled _].
  destruct Hr as [?|(s & S1 & S2 & S3)]; [by left|]. right. exists s. split_and!; try apply S3.
  - by trans (L (aq_Term req)).
  - rewrite HB; [done|]. by eexists.
Qed.

Lemma node_ok_grow L L' n d :
  node_ok L n d → (∀ u, L u `prefix_of` L' u) → (n_role n = RoleLeader → L' (n_term n) = L (n_term n)) → node_ok L' n d.
Proof.
  intros [] HL Hlead. split; try done; [by eapply log_ok_mono..|]. intros Hr. rewrite Hlead by done. auto.
Qed.

(** The history of term [t] becomes [l]. *)
Definition set_hist {A} (L : Z → A) (t : Z) (l : A) : Z → A := λ u, if decide (u = t) then l else L u.

Lemma set_hist_eq {A} (L : Z → A) t l : set_hist L t l t = l.
Proof. unfold set_hist. by rewrite decide_True. Qed.
Lemma set_hist_ne {A} (L : Z → A) t l u : u ≠ t → set_hist L t l u = L u.
Proof. intros. unfold set_hist. by rewrite decide_False. Qed.

Lemma set_hist_grows (L : Z → list Entry) t l : L t `prefix_of` l → ∀ u, L u `prefix_of` set_hist L t l u.
Proof. intros Hl u. unfold set_hist. case_decide; [by subst|done]. Qed.

Hypothesis members_NoDup : NoDup members.
Hypothesis members_two : (2 <= length members)%nat.

Definition elect (i : string) (c : Cluster) : Cluster :=
  let l := c_local c i in
  mkCluster (c_local (update i (set_elec None (set_node (becomeLeader (l_node l)) l)) [] c)) (c_net c)
    ((i, n_term (l_node l)) :: c_led c).

(** Whoever wins an election wins a term nobody led. *)
Lemma elected_fresh c i e :
  Inv members c → i ∈ members → l_elec (c_local c i) = Some e →
  majority (peers_of members i) <= el_votes e → n_role (l_node (c_local c i)) = RoleCandidate →
  n_term (l_node (c_local c i)) = vq_Term (el_req e) → ¬ led_in (c_led c) (n_term (l_node (c_local c i))).
Proof.
  intros Hc Hi He Hq Hr Ht [b Hb]. assert (b = i) as ->.
  { rewrite Ht in Hb. by apply (elected_unique members members_NoDup c i e b). }
  by apply (li_cand _ _ _ _ _ (inv_local _ _ Hc i Hi) Hr).
Qed.

Lemma LInv_elected L B c i (n := l_node (c_local c i)) (t := n_term n) :
  LInv L B c → Inv members c → i ∈ members → ¬ led_in (c_led c) t →
  LInv (set_hist L t (n_log n)) (set_hist B t (length (n_log n))) (elect i c).
Proof.
  intros HL Hc Hi Hfresh. pose proof (lm_node _ _ _ HL i Hi) as Hn. fold n in Hn.
  destruct Hn as [Hbase (Ht0 & Hcoh & Hle) Hdisk _]. fold t in Ht0, Hle.
  assert (Hnil : L t = []) by (destruct (L t) eqn:E; [done|]; destruct Hfresh; apply (lm_fresh _ _ _ HL); by rewrite E).
  assert (Hgrow : ∀ u, L u `prefix_of` set_hist L t (n_log n) u) by (apply set_hist_grows; rewrite Hnil; apply prefix_nil).
  assert (HB : ∀ u, led_in (c_led c) u → set_hist B t (length (n_log n)) u = B u) by (intros u Hu; apply set_hist_ne; by intros ->).
  split; simpl.
  - intros u [j [[= -> ->]|Hj]%elem_of_cons]; [done|]. apply (lm_led _ _ _ HL). by exists j.
  - intros u. unfold set_hist. case_decide as Hu.
    + intros _. subst u. exists i. left.
    + intros Hne. destruct (lm_fresh _ _ _ HL u Hne) as [j ?]. exists j. by right.
  - intros u. unfold history_ok. destruct (decide (u = t)) as [->|Hu].
    + rewrite !set_hist_eq. split_and!; [by eapply coherent_mono|done|]. intros k e Hk.
      rewrite decide_True by by eapply lookup_lt_Some. apply list_elem_of_lookup_2 in Hk.
      rewrite Forall_forall in Hle. pose proof (Hle e Hk). assert (Term e ≠ t); [|lia]. intros Het.
      apply Hfresh. rewrite <- Het. by eapply coherent_led.
    + rewrite !set_hist_ne by done. destruct (lm_hist _ _ _ HL u) as (H1 & H2 & H3). split_and!; [by eapply coherent_mono|done..].
  - intros j Hj. case_decide as Hji.
    + subst j. simpl. split; simpl; try done; [by eapply (log_ok_mono L)..|]. intros _. by rewrite set_hist_eq.
    + eapply node_ok_grow; [by apply (lm_node _ _ _ HL)|done|]. intros Hr. apply set_hist_ne. intros Heq.
      apply Hfresh. exists j. rewrite <- Heq. by apply (li_lead _ _ _ _ _ (inv_local _ _ Hc j Hj)).
  - apply Forall_forall. intros m Hm. pose proof (proj1 (Forall_forall _ _) (inv_msgs _ _ Hc) m Hm).
    pose proof (proj1 (Forall_forall _ _) (lm_msgs _ _ _ HL) m Hm). by eapply request_ok_grow.
Qed.

Lemma LInv_propose L B c i cmd (n := l_node (c_local c i)) (t := n_term n) :
  LInv L B c → Inv members c → i ∈ members → n_role n = RoleLeader →
  LInv (set_hist L t (L t ++ [mkEntry t cmd])) B (update i (set_node (append_entry cmd n) (c_local c i)) [] c).
Proof.
  intros HL Hc Hi Hr. pose proof (lm_node _ _ _ HL i Hi) as Hn. fold n in Hn.
  destruct Hn as [Hbase (Ht0 & Hcoh & Hle) Hdisk Hlead]. specialize (Hlead Hr). fold t in Hlead, Ht0, Hle.
  pose proof (li_lead _ _ _ _ _ (inv_local _ _ Hc i Hi) Hr) as Hled. fold n t in Hled.
  set (e := mkEntry t cmd). set (L' := set_hist L t (L t ++ [e])).
  assert (Hgrow : ∀ u, L u `prefix_of` L' u) by (apply set_hist_grows; by eexists).
  assert (Hnew : coherent L' (L t ++ [e])).
  { apply coherent_snoc; [eapply coherent_mono; [done|]; by rewrite <- Hlead|]. apply set_hist_eq. }
  split; simpl.
  - apply (lm_led _ _ _ HL).
  - intros u Hne. destruct (decide (u = t)) as [->|Hu]; [by exists i|]. apply (lm_fresh _ _ _ HL).
    unfold L' in Hne. by rewrite set_hist_ne in Hne.
  - intros u. destruct (lm_hist _ _ _ HL u) as (H1 & H2 & H3). unfold history_ok. destruct (decide (u = t)) as [->|Hu].
    + unfold L' at 2 3 4. rewrite !set_hist_eq. split_and!; [done|rewrite length_app; lia|].
      intros k x [Hx|[Hk Hx]]%lookup_app_Some; [by apply H3|].
      apply list_lookup_singleton_Some in Hx as [? <-]. rewrite decide_False by lia. done.
    + unfold L' at 2 3 4. rewrite !set_hist_ne by done. split_and!; [by eapply coherent_mono|done..].
  - intros j Hj. case_decide as Hji.
    + subst j. simpl. split; simpl; try done; [|by eapply log_ok_mono|].
      * rewrite Hlead. split_and!; [done..|]. apply Forall_app. split; [by rewrite <- Hlead|]. by repeat constructor.
      * intros _. unfold L'. fold n t e. by rewrite set_hist_eq, Hlead.
    + eapply node_ok_grow; [by apply (lm_node _ _ _ HL)|done|]. intros Hrj. apply set_hist_ne. intros Heq.
      pose proof (li_lead _ _ _ _ _ (inv_local _ _ Hc j Hj) Hrj) as Hledj. rewrite Heq in Hledj.
      by apply Hji, (inv_unique _ _ Hc _ _ _ Hledj Hled).
  - apply Forall_forall. intros m Hm. pose proof (proj1 (Forall_forall _ _) (inv_msgs _ _ Hc) m Hm).
    pose proof (proj1 (Forall_forall _ _) (lm_msgs _ _ _ HL) m Hm). by eapply request_ok_grow.
Qed.

(** ** Every step keeps the invariant *)

Lemma LInv_init : LInv (λ _, []) (λ _, O) (init members).
Proof.
  assert (Hnil : ∀ t, 0 <= t → log_ok (λ _, []) t []) by (intros t Ht; split_and!; [done|apply coherent_nil|constructor]).
  split; simpl; [|done| | |done].
  - intros t [i Hi]. by apply elem_of_nil in Hi.
  - intros t. split_and!; [apply coherent_nil|done|]. intros k e Hk. by rewrite lookup_nil in Hk.
  - intros i Hi. destruct (boot_node i RaftState_zero (peers_of_not_nil members members_NoDup members_two i)) as (H1 & H2 & H3 & H4 & _).
    split; rewrite ?H1, ?H2, ?H3, ?H4; try done; by apply Hnil.
Qed.

Lemma LInv_step L B c c' h :
  step members h c c' → logs_ok h = true → Inv members c → LInv L B c → ∃ L' B', LInv L' B' c'.
Proof.
  intros Hs Hh Hc HL. step_cases Hs; try subst l; pose proof (inv_local _ _ Hc i Hi) as Hl.
  4: { exists (set_hist L (n_term (l_node (c_local c i))) (n_log (l_node (c_local c i)))),
         (set_hist B (n_term (l_node (c_local c i))) (length (n_log (l_node (c_local c i))))).
       subst n'. unfold election_end. rewrite (li_peers _ _ _ _ _ Hl) in *.
       rewrite (proj2 (Z.leb_le _ _) Hq), bool_decide_true, (proj2 (Z.eqb_eq _ _) Ht) by done.
       apply LInv_elected; try done. by eapply elected_fresh. }
  16: { eexists _, B. by apply LInv_propose. }
  all: exists L, B.
  - injection Hb as <- <-. apply LInv_kept; try done. split; simpl; [lia|done].
  - pose proof (node_ok_persist L _ _ _ _ (lm_node _ _ _ HL i Hi) Hp) as Hok.
    destruct ok; apply LInv_update; try done. by apply Forall_fmap, Forall_forall.
  - apply LInv_kept; try done; [by eapply kept_log, election_response_kept|].
    destruct (election_response_view _ _ _ _ _ Hr) as [[? _]|[_ [t ?]]]; [by apply settled_same|by eapply settled_raised].
  - apply LInv_kept; try done; [apply kept_log, election_end_kept|]. apply settled_cleared, election_lost_view; [|done].
    unfold tail_hazard in *. by destruct (_ && _).
  - apply LInv_kept; try done; [apply kept_log, heartbeat_end_kept|apply settled_same, heartbeat_end_view].
  - unfold quorum_hazard, quorum_check in *. destruct (_ && _); [done|]. apply LInv_kept; done || by apply settled_same.
  - destruct wait; (apply LInv_kept; [done..|by eapply kept_log, vote_locked_kept|by eapply vote_locked_settled|by repeat constructor]).
  - pose proof (node_ok_append L B c i n' req resp wait HL Hc Hi Hin Hv) as Hok.
    destruct wait; apply LInv_update; try done; by repeat constructor.
  - assert (Hset : settled (l_node (c_local c i)) n').
    { destruct (install_locked_view _ _ _ _ _ Hv) as [->|[Ht Hf]]; [by apply settled_same|].
      eapply settled_trans; [by apply follow_settled|by apply settled_same]. }
    unfold base_hazard in Hh. destruct (Z.eqb_spec (n_lastIncludedIndex n') (n_lastIncludedIndex (l_node (c_local c i)))); [|done].
    destruct rest; (apply LInv_kept; [done..|by eapply install_locked_log|done|by repeat constructor]).
  - pose proof (node_ok_persist L _ _ _ _ (lm_node _ _ _ HL i Hi) Hp) as Hok. apply LInv_update; try done.
    constructor; [by destruct w|done].
  - apply LInv_kept; try done; [by eapply kept_log, replicate_begin_kept|apply settled_same; by eapply replicate_begin_view|].
    destruct b; try done. constructor; [|done]. by eapply replicate_carries.
  - apply LInv_kept; try done; [apply replicate_end_log|apply settled_same_or_raised, replicate_end_view].
  - apply LInv_kept; try done; [apply kept_log, install_check_kept|apply settled_same, install_check_view].
  - apply LInv_kept; try done; [by eapply kept_log, install_begin_kept|apply settled_same; by eapply install_begin_view|].
    destruct r; by repeat constructor.
  - apply LInv_kept; try done; [apply install_end_log|apply settled_same_or_raised, install_end_view].
  - unfold base_hazard in Hh. destruct (Z.eqb_spec (n_lastIncludedIndex (CompactLog idx t (l_node (c_local c i))))
      (n_lastIncludedIndex (l_node (c_local c i)))) as [Hb|]; [|done]. rewrite CompactLog_unbased by done.
    apply LInv_kept; done || by apply settled_same.
  - apply LInv_kept; try done; [apply kept_log, apply_finish_kept|apply settled_same, apply_finish_view].
  - destruct (persist_local o (c_local c i)) as [ok l'] eqn:Hp. apply LInv_update; try done.
    eapply (node_ok_persist L); [by apply (lm_node _ _ _ HL)|done].
  - apply LInv_update; try done. eapply node_ok_boot; [|by apply (lm_node _ _ _ HL)].
    by apply peers_of_not_nil.
  - apply LInv_kept; done || by apply settled_same.
Qed.

Lemma logs_elections h : logs_ok h = true → elections_ok h = true.
Proof. by destruct h as [[]|]. Qed.

Lemma LInv_run c : run members logs_ok (init members) c → Inv members c ∧ ∃ L B, LInv L B c.
Proof.
  intros Hr. remember (init members) as c0 eqn:E. induction Hr as [|c1 c2 c3 h _ IH Hs Hh].
  - subst. split; [by apply Inv_init|]. eexists _, _. apply LInv_init.
  - destruct (IH E) as (Hc & L & B & HL). split; [eapply Inv_step; [done..|by apply logs_elections|done]|].
    by eapply LInv_step.
Qed.

(** A log as a node holds it, in memory or after a restart. *)
Lemma coherent_matching L a b :
  n_lastIncludedIndex a = 0 → n_lastIncludedIndex b = 0 → coherent L (n_log a) → coherent L (n_log b) → log_matching a b.
Proof.
  intros Ha Hb Ca Cb i e e' Ei Ei' Ht j x y Hj Ex Ey.
  pose proof (entryAt_Some_range _ _ _ Ex). pose proof (entryAt_Some_range _ _ _ Ei).
  rewrite entryAt_unbased in Ei, Ei', Ex, Ey by lia.
  pose proof (coherent_agree L _ _ _ _ _ Ca Cb Ei Ei' Ht) as Hag. apply (f_equal (.!! Z.to_nat (j - 1))) in Hag.
  rewrite !lookup_take_lt in Hag by lia. congruence.
Qed.

(** C5 (log matching): in every execution of the cluster from the empty disks
    without the hazards of elections and without compaction, however messages
    are delayed, reordered, duplicated or lost, writes fail and nodes crash:
    when two logs hold entries of the same term at the same index, they hold the
    same entries up to there.  This holds of the logs in memory and of the logs
    the disks restore, and every entry has the term of an elected leader. *)
Theorem cluster_log_matching c :
  run members logs_ok (init members) c →
  ∀ a b, a ∈ members → b ∈ members →
    let memory i := l_node (c_local c i) in
    let disk i := l_node (boot members i (l_disk (c_local c i))) in
    log_matching (memory a) (memory b) ∧ log_matching (memory a) (disk b) ∧ log_matching (disk a) (disk b) ∧
    ∀ k e, entryAt (memory a) k = Some e ∨ entryAt (disk a) k = Some e → ∃ i, (i, Term e) ∈ c_led c.
Proof.
  intros Hr a b Ha Hb memory disk. destruct (LInv_run c Hr) as (_ & L & B & HL).
  assert (Hm : ∀ i, i ∈ members → n_lastIncludedIndex (memory i) = 0 ∧ coherent L (n_log (memory i)) ∧
    n_lastIncludedIndex (disk i) = 0 ∧ coherent L (n_log (disk i))).
  { intros i Hi. destruct (lm_node _ _ _ HL i Hi) as [[B1 B2] (_ & C1 & _) (_ & C2 & _) _].
    destruct (boot_node i (l_disk (c_local c i)) (peers_of_not_nil members members_NoDup members_two i)) as (_ & _ & Hl & Hb0 & _).
    unfold memory, disk. rewrite Hl, Hb0. done. }
  destruct (Hm a Ha) as (A1 & A2 & A3 & A4). destruct (Hm b Hb) as (B1 & B2 & B3 & B4).
  do 3 (split; [by apply (coherent_matching L)|]).
  intros k e [He|He]; pose proof (entryAt_Some_range _ _ _ He); rewrite entryAt_unbased in He by lia;
    apply list_elem_of_lookup_2 in He.
  - exact (coherent_led L B c _ e HL A2 He).
  - exact (coherent_led L B c _ e HL A4 He).
Qed.
End matching.

(** An execution in which B has A's entry. *)
Lemma cluster_log_matching_witness :
  ∃ c, run abc logs_ok (init abc) c ∧
    let memory i := l_node (c_local c i) in
    entryAt (memory "A"%string) 1 = Some (mkEntry 1 (put "x")) ∧
    entryAt (memory "B"%string) 1 = Some (mkEntry 1 (put "x")) ∧ log_matching (memory "A"%string) (memory "B"%string).
Proof.
  assert (HA : match runs abc logs_ok commit_by_A (init abc) with
    | Some c => entryAt (l_node (c_local c "A"%string)) 1 = Some (mkEntry 1 (put "x")) ∧
                entryAt (l_node (c_local c "B"%string)) 1 = Some (mkEntry 1 (put "x")) | None => False end)
    by (vm_compute; split; reflexivity).
  destruct (runs abc logs_ok commit_by_A (init abc)) as [c|] eqn:E; [|destruct HA].
  exists c. assert (Hr : run abc logs_ok (init abc) c) by (apply (runs_run abc _ _ _ _ _ E); constructor).
  split; [exact Hr|]. destruct HA as [HA HB]. split; [exact HA|]. split; [exact HB|].
  apply (cluster_log_matching abc ltac:(apply (bool_decide_unpack (NoDup abc)); vm_compute; exact I) ltac:(vm_compute; lia) c Hr
    "A"%string "B"%string); vm_compute; [left|right; left].
Defined.
