(* ===== verification/RaftConsensus.v ===== *)
(** * RaftConsensus: what is committed stays committed

    Leader completeness and state machine safety of the cluster, for the
    executions that keep all of Raft's rules.  An acknowledgement promises that
    the follower keeps the acknowledged part of the leader's history as long as
    the later leaders carry it; a vote promises that the candidate's log covers
    what the voter acknowledged; and two majorities meet. *)

From S2P Require Import Prelude GoLib Engine RaftNode RaftLeader RaftApply RaftLog RaftCommit RaftCluster RaftSafety RaftMatching.

(** ** Promises *)

(** What the promises are about: the messages sent, the elections won, the
    histories of the terms, and what leaders saved of their own. *)
Record Hist : Type := mkHist {
  h_net : list msg;
  h_led : list (string * Z);
  h_log : Z → list Entry;
  h_base : Z → nat;
  h_self : list (string * Z * nat)
}.

Definition led (H : Hist) (t : Z) : Prop := led_in (h_led H) t.

(** The history its leader started with. *)
Definition start (H : Hist) (t : Z) : list Entry := take (h_base H t) (h_log H t).

Definition ack_end (req : AppendEntriesRequest) : nat := Z.to_nat (aq_PrevLogIndex req + zlen (aq_Entries req)).

(** [p] acknowledged the first [m] entries of the history of [t]: in an answer,
    as the leader, or in a handler that waits for the disk. *)
Definition acked (H : Hist) (ws : list waiting) (p : string) (t : Z) (m : nat) : Prop :=
  (∃ req r, MAppendResp p req r ∈ h_net H ∧ ar_Success r = true ∧ aq_Term req = t ∧ (m <= ack_end req)%nat) ∨
  (∃ m', (p, t, m') ∈ h_self H ∧ (m <= m')%nat) ∨
  (∃ req r, PAppend req r ∈ ws ∧ ar_Success r = true ∧ aq_Term req = t ∧ (m <= ack_end req)%nat).

(** The leaders after [t], up to [T], started with the first [m] entries of [t]. *)
Definition carried (H : Hist) (t : Z) (m : nat) (T : Z) : Prop :=
  ∀ w, t < w <= T → led H w → take m (h_log H t) `prefix_of` start H w.

(** The log [l] of a node at term [T] keeps what the node acknowledged of the
    leader's own entries. *)
Definition keeps (H : Hist) (ws : list waiting) (p : string) (T : Z) (l : list Entry) : Prop :=
  ∀ t m, acked H ws p t m → (h_base H t < m)%nat → t <= T ∧ (carried H t m T → take m (h_log H t) `prefix_of` l).

Definition granted (H : Hist) (ws : list waiting) (p : string) (req : VoteRequest) : Prop :=
  (∃ r, MVoteResp p req r ∈ h_net H ∧ vr_VoteGranted r = true) ∨ (∃ r, PVote req r ∈ ws).

Definition last_term (l : list Entry) : Z := from_option Term 0 (last l).

(** [logFresh] for a log without base. *)
Definition fresh_for (req : VoteRequest) (l : list Entry) : Prop :=
  last_term l < vq_LastLogTerm req ∨ vq_LastLogTerm req = last_term l ∧ zlen l <= vq_LastLogIndex req.

(** What the voter [p] acknowledged of earlier terms is in a log that the
    candidate's covers. *)
Definition votes_well (H : Hist) (ws : list waiting) (p : string) : Prop :=
  ∀ req, granted H ws p req → ¬ led H (vq_Term req) →
    ∃ l, coherent (h_log H) l ∧ fresh_for req l ∧
      ∀ t m, acked H ws p t m → t < vq_Term req → (h_base H t < m)%nat → carried H t m (vq_Term req - 1) →
        take m (h_log H t) `prefix_of` l.

Local Abbreviation node c i := (l_node (c_local c i)).

Section consensus.
Context (members : list string).

Definition majority_set (Q : list string) : Prop :=
  NoDup Q ∧ Q ⊆ members ∧ zlen members / 2 + 1 <= zlen Q.

(** The first [m] entries of the history of [t], the last one of term [t], are
    saved by a majority. *)
Definition committed (H : Hist) (t : Z) (m : nat) : Prop :=
  (h_base H t < m <= length (h_log H t))%nat ∧
  ∃ Q, majority_set Q ∧ ∀ p, p ∈ Q → acked H [] p t m.

(** A node that committed [k] entries holds them. *)
Definition commits (H : Hist) (T k : Z) (l : list Entry) : Prop :=
  0 <= k ∧ (0 < k → ∃ t m, committed H t m ∧ t <= T ∧ k <= Z.of_nat m ∧ k <= zlen l ∧
                     take (Z.to_nat k) l `prefix_of` h_log H t).

Definition counts (H : Hist) (n : Node) : Prop :=
  n_role n = RoleLeader → ∀ st, n_repl n = Some st → ∀ p, p ∈ n_peers n →
    at0 (matchIndex st) p <= 0 ∨ acked H [] p (n_term n) (Z.to_nat (at0 (matchIndex st) p)).

Definition campaigns (e : option Election) (n : Node) : Prop :=
  ∀ x, e = Some x → n_role n = RoleCandidate → n_term n = vq_Term (el_req x) →
    vq_LastLogIndex (el_req x) = zlen (n_log n) ∧ vq_LastLogTerm (el_req x) = last_term (n_log n).

(** The vote requests of [i] that were sent. *)
Definition asked (H : Hist) (i : string) (d : RaftState) (e : option Election) : Prop :=
  ∀ to req, MVote to req ∈ h_net H → vq_CandidateID req = i →
    vq_Term req <= rs_Term d ∧ ∀ x, e = Some x → vq_Term (el_req x) = vq_Term req → req = el_req x.

Definition waits (H : Hist) (i : string) (w : waiting) : Prop :=
  match w with
  | PVote req _ => MVote i req ∈ h_net H
  | PAppend req r => ar_Success r = true →
      ar_Term r = aq_Term req ∧ led H (aq_Term req) ∧ ∃ s, carries (h_log H) (h_base H) req s
  | PInstall _ _ => True
  end.

Record slocal (H : Hist) (i : string) (l : Local) : Prop := mk_slocal {
  sl_base : n_lastIncludedTerm (l_node l) = 0 ∧ rs_LastIncludedTerm (l_disk l) = 0 ∧ 0 <= n_lastApplied (l_node l);
  sl_clean : n_dirty (l_node l) = false → rs_Log (l_disk l) = n_log (l_node l);
  sl_soft : keeps H (l_waiting l) i (n_term (l_node l)) (n_log (l_node l));
  sl_hard : keeps H [] i (rs_Term (l_disk l)) (rs_Log (l_disk l));
  sl_vote : votes_well H (l_waiting l) i;
  sl_cand : campaigns (l_elec l) (l_node l);
  sl_match : counts H (l_node l);
  sl_commit : commits H (n_term (l_node l)) (n_commitIndex (l_node l)) (n_log (l_node l));
  sl_wait : Forall (waits H i) (l_waiting l);
  sl_asked : asked H i (l_disk l) (l_elec l)
}.

(** The answers in the network, and the commit index of a request. *)
Definition sent_ok (H : Hist) (m : msg) : Prop :=
  match m with
  | MVoteResp p req _ => MVote p req ∈ h_net H
  | MAppendResp p req r => waits H p (PAppend req r)
  | MAppend _ req => 0 < aq_LeaderCommit req →
      ∃ t k, committed H t k ∧ t <= aq_Term req ∧ aq_LeaderCommit req <= Z.of_nat k
  | _ => True
  end.

(** The voters of the leader of [u]: what they acknowledged before is in the
    history it started with, if it is in those of the leaders in between. *)
Definition elected_well (H : Hist) (ws : string → list waiting) (u : Z) : Prop :=
  ∃ Q, majority_set Q ∧ ∀ p, p ∈ Q → ((p, u) ∈ h_led H ∨ ∃ k, grants (h_net H) p u k) ∧
    ∀ t m, acked H (ws p) p t m → t < u → (h_base H t < m)%nat → carried H t m (u - 1) →
      take m (h_log H t) `prefix_of` start H u.

Definition hist (c : Cluster) (L : Z → list Entry) (B : Z → nat) (S : list (string * Z * nat)) : Hist :=
  mkHist (c_net c) (c_led c) L B S.

Record SInv (L : Z → list Entry) (B : Z → nat) (S : list (string * Z * nat)) (c : Cluster) : Prop := mk_SInv {
  si_elections : Inv members c;
  si_logs : LInv members L B c;
  si_local : ∀ i, i ∈ members → slocal (hist c L B S) i (c_local c i);
  si_sent : Forall (sent_ok (hist c L B S)) (c_net c);
  si_self : ∀ p t m, (p, t, m) ∈ S → led (hist c L B S) t ∧ (m <= length (L t))%nat;
  si_elected : ∀ u, led (hist c L B S) u → elected_well (hist c L B S) (λ p, l_waiting (c_local c p)) u
}.

(** ** More history keeps the promises *)

Record grows (H H' : Hist) : Prop := mk_grows {
  g_net : ∀ m, m ∈ h_net H → m ∈ h_net H';
  g_led : ∀ a, a ∈ h_led H → a ∈ h_led H';
  g_log : ∀ t, h_log H t `prefix_of` h_log H' t;
  g_base : ∀ t, led H t → h_base H' t = h_base H t;
  g_self : ∀ a, a ∈ h_self H → a ∈ h_self H'
}.

(** Acknowledgements are of histories that exist. *)
Definition acks_ok (H : Hist) (ws : list waiting) (p : string) : Prop :=
  ∀ t m, acked H ws p t m → led H t ∧ (m <= length (h_log H t))%nat.

Lemma acked_nil H ws p t m : acked H [] p t m → acked H ws p t m.
Proof.
  intros [?|[?|(? & ? & Hin & _)]]; [by left|by right; left|by apply elem_of_nil in Hin].
Qed.

Lemma acks_ok_nil H ws p : acks_ok H ws p → acks_ok H [] p.
Proof. intros Ha t m Hm. by apply Ha, acked_nil. Qed.

Lemma carried_le H t m T T' : T <= T' → carried H t m T' → carried H t m T.
Proof. intros HT Hc w Hw. apply Hc. lia. Qed.

Lemma keeps_raise H ws p T T' l : T <= T' → keeps H ws p T l → keeps H ws p T' l.
Proof.
  intros HT Hk t m Ha Hb. destruct (Hk t m Ha Hb) as [Ht Hl]. split; [lia|]. intros Hc. by apply Hl, (carried_le _ _ _ _ T').
Qed.

Lemma keeps_extend H ws p T l l' : l `prefix_of` l' → keeps H ws p T l → keeps H ws p T l'.
Proof. intros Hl Hk t m Ha Hb. destruct (Hk t m Ha Hb) as [Ht Hp]. split; [done|]. intros Hc. trans l; auto. Qed.

Lemma keeps_sub H ws ws' p T l :
  (∀ t m, acked H ws' p t m → acked H ws p t m) → keeps H ws p T l → keeps H ws' p T l.
Proof. intros Hs Hk t m Ha. by apply Hk, Hs. Qed.

Section growth.
Context (H H' : Hist) (G : grows H H') (Hbase : ∀ t, (h_base H t <= length (h_log H t))%nat).

Lemma take_grow t m : (m <= length (h_log H t))%nat → take m (h_log H' t) = take m (h_log H t).
Proof. intros Hm. symmetry. by apply take_prefix_of; [apply (g_log _ _ G)|]. Qed.

Lemma led_grow t : led H t → led H' t.
Proof. intros [i Hi]. exists i. by apply (g_led _ _ G). Qed.

Lemma start_grow t : led H t → start H' t = start H t.
Proof. intros Ht. unfold start. rewrite (g_base _ _ G) by done. by apply take_grow. Qed.

Lemma carried_back t m T : (m <= length (h_log H t))%nat → carried H' t m T → carried H t m T.
Proof.
  intros Hm Hc w Hw Hl. specialize (Hc w Hw (led_grow w Hl)). by rewrite take_grow, start_grow in Hc.
Qed.

Lemma acked_grow ws p t m : acked H ws p t m → acked H' ws p t m.
Proof.
  intros [(req & r & Hin & Hr)|[(m' & Hin & Hm)|Hr]].
  - left. exists req, r. split; [by apply (g_net _ _ G)|done].
  - right. left. exists m'. split; [by apply (g_self _ _ G)|done].
  - by right; right.
Qed.

Lemma keeps_grow ws ws' p T l :
  (∀ t m, acked H' ws' p t m → acked H ws p t m) → acks_ok H ws p → keeps H ws p T l → keeps H' ws' p T l.
Proof.
  intros Hs Hok Hk t m Ha%Hs Hb. destruct (Hok t m Ha) as [Hled Hm]. rewrite (g_base _ _ G) in Hb by done.
  destruct (Hk t m Ha Hb) as [Ht Hl]. split; [done|].
  intros Hc%carried_back; [|done]. rewrite take_grow by done. auto.
Qed.

Lemma votes_grow ws ws' p :
  (∀ req t m, granted H ws p req → t < vq_Term req → acked H' ws' p t m → acked H ws p t m) → acks_ok H ws p →
  (∀ req, granted H' ws' p req → granted H ws p req) → votes_well H ws p → votes_well H' ws' p.
Proof.
  intros Hs Hok Hg Hv req Hr%Hg Hn. destruct (Hv req Hr) as (l & Hl & Hf & Hk).
  { intros Ht. by apply Hn, led_grow. }
  exists l. split_and!; [by eapply coherent_mono; [apply G|]|done|]. intros t m Ha Ht Hb Hc.
  apply (Hs req) in Ha; [|done..]. destruct (Hok t m Ha) as [Hled Hm]. rewrite (g_base _ _ G) in Hb by done.
  rewrite take_grow by done. apply Hk; [done..|]. by apply carried_back.
Qed.

Lemma committed_led t m : (∀ p, acks_ok H [] p) → committed H t m → led H t.
Proof.
  intros Hok (_ & Q & (_ & _ & HQ) & Ha). destruct Q as [|p Q].
  - rewrite zlen_nil in HQ. pose proof (zlen_nonneg members). pose proof (Z.div_pos (zlen members) 2). lia.
  - by apply (Hok p t m), Ha; left.
Qed.

Lemma committed_grow t m : (∀ p, acks_ok H [] p) → committed H t m → committed H' t m.
Proof.
  intros Hok Hc. pose proof (committed_led t m Hok Hc) as Hl. destruct Hc as (Hm & Q & HQ & Ha).
  split.
  - rewrite (g_base _ _ G) by done. pose proof (prefix_length _ _ (g_log _ _ G t)). lia.
  - exists Q. split; [done|]. intros p Hp. by apply acked_grow, Ha.
Qed.

Lemma commits_grow T k l : (∀ p, acks_ok H [] p) → commits H T k l → commits H' T k l.
Proof.
  intros Hok [H0 Hk]. split; [done|]. intros Hpos. destruct (Hk Hpos) as (t & m & Hc & Ht & Hm & Hl & Hp).
  exists t, m. split_and!; try done; [by apply committed_grow|]. trans (h_log H t); [done|apply G].
Qed.

Lemma counts_grow n : counts H n → counts H' n.
Proof. intros Hc Hr st Hst p Hp. destruct (Hc Hr st Hst p Hp); [by left|right]. by apply acked_grow. Qed.

Lemma carries_grow req s :
  led H (aq_Term req) → carries (h_log H) (h_base H) req s → carries (h_log H') (h_base H') req s.
Proof.
  intros Hl (S1 & S2 & S3). split_and!; try apply S3.
  - trans (h_log H (aq_Term req)); [done|apply G].
  - by rewrite (g_base _ _ G).
Qed.

Lemma waits_grow i w : waits H i w → waits H' i w.
Proof.
  destruct w as [req r|req r|req r]; simpl; [apply (g_net _ _ G)| |done].
  intros Hw Hr. destruct (Hw Hr) as (Ht & Hl & s & Hs). split_and!; [done|by apply led_grow|].
  exists s. by apply carries_grow.
Qed.

Lemma sent_ok_grow m : (∀ p, acks_ok H [] p) → sent_ok H m → sent_ok H' m.
Proof.
  intros Hok. destruct m as [|p req r|to req|p req r| |]; simpl; try done.
  - apply (g_net _ _ G).
  - intros Hs Hk. destruct (Hs Hk) as (t & k & Hc & ? & ?). exists t, k. split_and!; try done. by apply committed_grow.
  - apply (waits_grow p (PAppend req r)).
Qed.

Lemma elected_grow ws ws' u :
  (∀ p, p ∈ members → acks_ok H (ws p) p) →
  (∀ p t m, (p, u) ∈ h_led H ∨ (∃ k, grants (h_net H) p u k) → t < u → acked H' (ws' p) p t m → acked H (ws p) p t m) →
  led H u → elected_well H ws u → elected_well H' ws' u.
Proof.
  intros Hok Hs Hu (Q & HQ & Hp). exists Q. split; [done|]. intros p Hin. destruct (Hp p Hin) as [Hv Hk]. split.
  - destruct Hv as [?|(k & req & resp & ? & ?)]; [left; by apply (g_led _ _ G)|right; exists k, req, resp].
    split; [by apply (g_net _ _ G)|done].
  - intros t m Ha Ht Hb Hc. apply Hs in Ha; [|done..].
    destruct (Hok p (proj1 (proj2 HQ) p Hin) t m Ha) as [Hl Hm].
    rewrite (g_base _ _ G) in Hb by done. rewrite take_grow, start_grow by done.
    apply Hk; [done..|]. by apply carried_back.
Qed.

(** A node that neither changes nor sends. *)
Lemma slocal_grow j l :
  (∀ ws t m, acked H' ws j t m → acked H ws j t m) → (∀ ws req, granted H' ws j req → granted H ws j req) →
  (∀ to req, MVote to req ∈ h_net H' → vq_CandidateID req = j → MVote to req ∈ h_net H) →
  (∀ p, acks_ok H [] p) → acks_ok H (l_waiting l) j → slocal H j l → slocal H' j l.
Proof.
  intros Ha Hg Hm Hok Hok' []. split; try done.
  - eapply keeps_grow; [|done..]. auto.
  - eapply keeps_grow; [|by eapply acks_ok_nil|done]. auto.
  - eapply votes_grow; [|done| |done]; auto.
  - by apply counts_grow.
  - by apply commits_grow.
  - eapply Forall_impl; [done|]. apply waits_grow.
  - intros to req Hin Hi. apply (sl_asked0 to req); auto.
Qed.
End growth.

(** ** One node at a time *)

Lemma carries_end L B req s : carries L B req s → ack_end req = length s.
Proof.
  intros (_ & _ & Hp & He & _). unfold ack_end. rewrite He, zlen_drop. unfold zlen in *. lia.
Qed.

Lemma waits_ack H i req r :
  waits H i (PAppend req r) → ar_Success r = true → led H (aq_Term req) ∧ (ack_end req <= length (h_log H (aq_Term req)))%nat.
Proof.
  intros Hw Hr. destruct (Hw Hr) as (_ & Hl & s & Hs). split; [done|]. rewrite (carries_end _ _ _ _ Hs).
  destruct Hs as (Hs & _). by apply prefix_length.
Qed.

Lemma SInv_acks L B S c p ws :
  SInv L B S c → Forall (waits (hist c L B S) p) ws → acks_ok (hist c L B S) ws p.
Proof.
  intros HS Hw t m [(req & r & Hin & Hr & <- & Hm)|[(m' & Hin & Hm)|(req & r & Hin & Hr & <- & Hm)]].
  - pose proof (proj1 (Forall_forall _ _) (si_sent _ _ _ _ HS) _ Hin) as Hs.
    destruct (waits_ack _ p req r Hs Hr). split; [done|]. lia.
  - destruct (si_self _ _ _ _ HS _ _ _ Hin). split; [done|]. simpl. lia.
  - pose proof (proj1 (Forall_forall _ _) Hw _ Hin) as Hs. destruct (waits_ack _ p req r Hs Hr). split; [done|]. lia.
Qed.

Lemma SInv_acks_nil L B S c p : SInv L B S c → acks_ok (hist c L B S) [] p.
Proof. intros HS. by apply SInv_acks. Qed.

Lemma SInv_acks_node L B S c i : SInv L B S c → i ∈ members → acks_ok (hist c L B S) (l_waiting (c_local c i)) i.
Proof. intros HS Hi. apply SInv_acks; [done|]. by apply (sl_wait _ _ _ (si_local _ _ _ _ HS i Hi)). Qed.

Lemma SInv_bases L B S c : SInv L B S c → ∀ t, (B t <= length (L t))%nat.
Proof. intros HS t. apply (lm_hist _ _ _ _ (si_logs _ _ _ _ HS) t). Qed.

(** A message that tells of [i] only. *)
Definition mine (i : string) (m : msg) : Prop :=
  match m with
  | MAppendResp p _ _ | MVoteResp p _ _ => p = i
  | MVote _ req => vq_CandidateID req = i
  | _ => True
  end.

Section change.
Context (L : Z → list Entry) (B : Z → nat) (S : list (string * Z * nat)) (c : Cluster) (i : string).
Context (L' : Z → list Entry) (B' : Z → nat) (S' : list (string * Z * nat)) (c' : Cluster).
Let H := hist c L B S.
Let H' := hist c' L' B' S'.

Lemma SInv_change ms :
  SInv L B S c → i ∈ members → Inv members c' → LInv members L' B' c' → grows H H' →
  (∀ j, j ≠ i → c_local c' j = c_local c j) → c_net c' = ms ++ c_net c →
  Forall (mine i) ms → (∀ p t m, (p, t, m) ∈ S' → (p, t, m) ∈ S ∨ p = i ∧ led H' t ∧ (m <= length (L' t))%nat) →
  (∀ t m, acked H' (l_waiting (c_local c' i)) i t m →
     acked H (l_waiting (c_local c i)) i t m ∨ n_term (l_node (c_local c i)) <= t) →
  slocal H' i (c_local c' i) → Forall (sent_ok H') ms →
  (∀ u, led H' u → led H u ∨ elected_well H' (λ p, l_waiting (c_local c' p)) u) →
  SInv L' B' S' c'.
Proof.
  intros HS Hi Hc HL G Hloc Hnet Hmine Hself Hnew Hli Hms Hel.
  pose proof (SInv_bases _ _ _ _ HS) as Hbase. pose proof (λ p, SInv_acks_nil _ _ _ _ p HS) as Hok.
  rewrite Forall_forall in Hmine.
  assert (Hack : ∀ j, j ≠ i → ∀ ws t m, acked H' ws j t m → acked H ws j t m).
  { intros j Hj ws t m [(req & r & Hin & Hr)|[(m' & Hin & Hm)|Hr]]; [| |by right; right].
    - simpl in Hin. rewrite Hnet in Hin. apply elem_of_app in Hin as [Hin|Hin]; [by apply Hmine in Hin|].
      left. by exists req, r.
    - right. left. destruct (Hself _ _ _ Hin) as [?|[? _]]; [|done]. by exists m'. }
  assert (Hgr : ∀ j, j ≠ i → ∀ ws req, granted H' ws j req → granted H ws j req).
  { intros j Hj ws req [(r & Hin & Hr)|Hr]; [|by right]. simpl in Hin. rewrite Hnet in Hin.
    apply elem_of_app in Hin as [Hin|Hin]; [by apply Hmine in Hin|]. left. by exists r. }
  split; try done.
  - intros j Hj. destruct (decide (j = i)) as [->|Hji]; [done|]. rewrite Hloc by done.
    apply (slocal_grow H H' G Hbase); auto.
    + intros to req Hin Hq. simpl in Hin. rewrite Hnet in Hin. apply elem_of_app in Hin as [Hin|Hin]; [|done].
      apply Hmine in Hin. simpl in Hin. congruence.
    + by apply SInv_acks_node.
    + by apply (si_local _ _ _ _ HS).
  - fold H'. rewrite Hnet. apply Forall_app. split; [done|]. eapply Forall_impl; [apply (si_sent _ _ _ _ HS)|].
    intros m. by apply (sent_ok_grow H H' G).
  - intros p t m Hin. destruct (Hself _ _ _ Hin) as [Hold|(_ & ? & ?)]; [|done].
    destruct (si_self _ _ _ _ HS _ _ _ Hold) as [Hl Hm]. split; [by apply (led_grow H H' G)|].
    pose proof (prefix_length _ _ (g_log _ _ G t)). simpl in *. lia.
  - intros u Hu. destruct (Hel u Hu) as [Hold|?]; [|done].
    apply (elected_grow H H' G Hbase (λ p, l_waiting (c_local c p))); try done.
    + intros p Hp. by apply SInv_acks_node.
    + intros p t m Hv Ht Ha. destruct (decide (p = i)) as [->|Hp].
      * destruct (Hnew t m Ha) as [|Hle]; [done|]. exfalso.
        pose proof (inv_local _ _ (si_elections _ _ _ _ HS) i Hi) as Hl.
        destruct Hv as [Hv|[k Hv]].
        { destruct (li_led _ _ _ _ _ Hl u Hv) as (? & _). lia. }
        { destruct (li_grant _ _ _ _ _ Hl u k (or_introl Hv)) as (_ & ? & _). lia. }
      * rewrite Hloc in Ha by done. by apply Hack.
    + by apply (si_elected _ _ _ _ HS).
Qed.
End change.

(** ** Leader completeness *)

Hypothesis members_NoDup : NoDup members.
Hypothesis members_two : (2 <= length members)%nat.

Lemma leader_completeness L B S c t m u (H := hist c L B S) :
  SInv L B S c → committed H t m → t < u → led H u → take m (L t) `prefix_of` start H u.
Proof.
  intros HS Hc. induction (Z.lt_wf t u) as [u _ IH]. intros Htu Hu.
  destruct Hc as ((Hb & _) & Q & (N1 & S1 & M1) & Ha).
  destruct (si_elected _ _ _ _ HS u Hu) as (Q' & (N2 & S2 & M2) & Hp).
  destruct (quorums_meet members members_NoDup Q Q') as (p & Hp1 & Hp2); try done.
  destruct (Hp p Hp2) as [_ Hk]. apply Hk; [by apply acked_nil, Ha|done..|].
  intros w Hw Hl. apply IH; [lia|lia|done].
Qed.

(** ** Steps that change neither logs nor promises *)

Lemma SInv_update L B S c i l ms (H' := hist (update i l ms c) L B S) :
  SInv L B S c → i ∈ members → Inv members (update i l ms c) → LInv members L B (update i l ms c) →
  Forall (mine i) ms →
  (∀ t m, acked H' (l_waiting l) i t m →
     acked (hist c L B S) (l_waiting (c_local c i)) i t m ∨ n_term (l_node (c_local c i)) <= t) →
  slocal H' i l → Forall (sent_ok H') ms → SInv L B S (update i l ms c).
Proof.
  intros HS Hi Hc HL Hm Hnew Hl Hms.
  assert (Hi' : c_local (update i l ms c) i = l) by (simpl; by rewrite decide_True).
  apply (SInv_change L B S c i L B S (update i l ms c) ms); rewrite ?Hi'; try done.
  - split; simpl; try done. intros m Hin. apply elem_of_app. by right.
  - intros j Hj. simpl. by rewrite decide_False.
  - intros p t m Hin. by left.
  - intros u Hu. by left.
Qed.

(** The replication state is the same, or new and empty. *)
Definition same_match (n n' : Node) : Prop :=
  n_peers n' = n_peers n ∧
  (n_repl n' = n_repl n ∨ ∃ st', n_repl n' = Some st' ∧
     match n_repl n with Some st => matchIndex st' = matchIndex st | None => matchIndex st' = ∅ end).

Lemma counts_same H n n' : counts H n → settled n n' → same_match n n' → counts H n'.
Proof.
  intros Hc [_ Hr] [Hp Hm] Hl st' Hst p Hin. destruct (Hr Hl) as [Hl' ->]. rewrite Hp in Hin.
  destruct Hm as [Heq|(st2 & Heq & Hm)]; [apply (Hc Hl' st'); congruence|].
  assert (st2 = st') as -> by congruence. destruct (n_repl n) as [st|] eqn:E.
  - rewrite Hm. by apply (Hc Hl' st).
  - left. rewrite Hm. unfold at0. by rewrite lookup_empty.
Qed.

Lemma replState_match n : same_match n (replState n).2 ∧ n_repl (replState n).2 = Some (replState n).1 ∧
  n_peers (replState n).2 = n_peers n.
Proof.
  unfold replState. destruct (n_repl n) eqn:E; simpl; (split; [split; [done|]|done]); [by left|].
  right. eexists. split; [done|]. by rewrite E.
Qed.

Lemma replState_set n st : matchIndex st = matchIndex (replState n).1 → same_match n (set_repl st (replState n).2).
Proof.
  intros Hst. destruct (replState_match n) as ([Hp Hm] & Hr & _). split; [done|]. right. exists st. split; [done|].
  rewrite Hst. destruct (n_repl n) as [st0|] eqn:E; unfold replState; by rewrite E.
Qed.

Lemma replicate_begin_match p n n' b : replicate_begin p n = (n', b) → same_match n n'.
Proof.
  unfold replicate_begin. destruct (negb _); [intros [= <- <-]; split; [done|by left]|].
  pose proof (proj1 (replState_match n)) as Hv. pose proof (replState_set n) as Hs.
  destruct (replState n) as [st m]. simpl in Hv, Hs.
  destruct (flying st p); [by intros [= <- <-]|]. destruct (_ <? firstIndex m); intros [= <- <-]; [done|by apply Hs].
Qed.

Lemma install_check_match p n : same_match n (install_check p n).1.
Proof.
  unfold install_check. destruct (_ || _); [split; [done|by left]|].
  pose proof (proj1 (replState_match n)). by destruct (replState n).
Qed.

Lemma install_begin_match p snap n n' r : install_begin p snap n = (n', r) → same_match n n'.
Proof.
  unfold install_begin. pose proof (proj1 (replState_match n)) as Hv. pose proof (replState_set n) as Hs.
  destruct (replState n) as [st m]. simpl in Hv, Hs. destruct (flying st p); intros [= <- <-]; [done|by apply Hs].
Qed.

(** A critical section that leaves all the promises alone. *)
Definition quiet (n n' : Node) : Prop := kept n n' ∧ settled n n' ∧ same_match n n'.

Lemma slocal_kept H i l n' e' :
  slocal H i l → kept (l_node l) n' → settled (l_node l) n' → counts H n' → campaigns e' n' → asked H i (l_disk l) e' →
  slocal H i (mkLocal n' (l_disk l) e' (l_waiting l)).
Proof.
  intros [] ((K1 & K2) & K3 & K4 & K5 & K6) Hset Hcnt Hcamp Hask. pose proof Hset as [Ht _].
  split; simpl; try done; rewrite ?K1, ?K3, ?K5.
  - destruct sl_base0 as (? & ? & ?). split_and!; (done || lia).
  - auto.
  - by eapply keeps_raise.
  - destruct sl_commit0 as [H0 Hk]. split; [done|]. intros Hpos. destruct (Hk Hpos) as (t & m & ? & ? & Hrest).
    exists t, m. split_and!; try done; [lia|apply Hrest..].
Qed.

Lemma slocal_quiet H i l n' e' :
  slocal H i l → quiet (l_node l) n' → campaigns e' n' → asked H i (l_disk l) e' →
  slocal H i (mkLocal n' (l_disk l) e' (l_waiting l)).
Proof.
  intros Hl (Hk & Hset & Hm) Hcamp Hask. apply slocal_kept; try done. by eapply counts_same; [apply Hl|..].
Qed.

(** Steps that are quiet and send nothing that promises. *)
Definition plain (m : msg) : Prop :=
  match m with
  | MVote _ _ => False
  | MVoteResp _ _ r => vr_VoteGranted r = false
  | MAppendResp _ _ r => ar_Success r = false
  | _ => True
  end.

Lemma slocal_plain L B S c i l l0 ms (H := hist c L B S) (H' := hist (update i l0 ms c) L B S) :
  SInv L B S c → Forall plain ms → acks_ok H (l_waiting l) i → slocal H i l → slocal H' i l.
Proof.
  intros HS Hms Hok Hl. rewrite Forall_forall in Hms.
  apply (slocal_grow H H'); try done.
  - split; simpl; try done. intros m Hin. apply elem_of_app. by right.
  - apply (SInv_bases _ _ _ _ HS).
  - intros ws t m [(req & r & [Hin|Hin]%elem_of_app & Hr & ?)|Hr]; [|left; by exists req, r|by right].
    apply Hms in Hin. simpl in Hin. congruence.
  - intros ws req [(r & [Hin|Hin]%elem_of_app & Hr)|Hr]; [|left; by exists r|by right].
    apply Hms in Hin. simpl in Hin. congruence.
  - intros to req [Hin|Hin]%elem_of_app _; [|done]. by apply Hms in Hin.
  - intros p. by apply SInv_acks_nil.
Qed.

Lemma acked_plain L B S c i l0 ms ws p t m :
  Forall plain ms → acked (hist (update i l0 ms c) L B S) ws p t m → acked (hist c L B S) ws p t m.
Proof.
  rewrite Forall_forall. intros Hms [(req & r & [Hin|Hin]%elem_of_app & Hr & ?)|Hr]; [|left; by exists req, r|by right].
  apply Hms in Hin. simpl in Hin. congruence.
Qed.

Lemma SInv_quiet L B S c i n' e' ms (l' := mkLocal n' (l_disk (c_local c i)) e' (l_waiting (c_local c i))) :
  SInv L B S c → i ∈ members → Inv members (update i l' ms c) →
  quiet (l_node (c_local c i)) n' → campaigns e' n' → asked (hist c L B S) i (l_disk (c_local c i)) e' →
  Forall plain ms → Forall (mine i) ms → Forall (request_ok L B) ms →
  Forall (sent_ok (hist (update i l' ms c) L B S)) ms → SInv L B S (update i l' ms c).
Proof.
  intros HS Hi Hc Hq Hcamp Hask Hp Hm Hr Hs. pose proof (si_local _ _ _ _ HS i Hi) as Hl.
  apply SInv_update; try done.
  - apply LInv_kept; try done; [apply (si_logs _ _ _ _ HS)|apply kept_log; apply Hq|apply Hq].
  - intros t m Ha. left. by apply acked_plain in Ha.
  - apply (slocal_plain L B S c i l' l'); try done; [by apply SInv_acks_node|]. by apply slocal_quiet.
Qed.

(** ** Disks *)

Lemma slocal_persist H i l o ok l' :
  slocal H i l → rs_Term (l_disk l) <= n_term (l_node l) → persist_local o l = (ok, l') → slocal H i l'.
Proof.
  intros [] Hle Hp. destruct (persist_local_view _ _ _ _ Hp) as (He & Hw & (d & Hn) & Hcl & Hd).
  assert (Hdir : n_dirty (l_node l') = false → rs_Log (l_disk l') = n_log (l_node l)).
  { intros Hc. destruct (Hcl Hc) as [Hc'| ->]; [|done]. destruct Hd as [->| ->]; auto. }
  split; rewrite ?He, ?Hw; try done; try (rewrite Hn; simpl; done).
  - destruct sl_base0 as (? & ? & ?). rewrite Hn. split_and!; try done. by destruct Hd as [->| ->].
  - intros Hc. rewrite Hdir by done. by rewrite Hn.
  - destruct Hd as [->| ->]; [done|]. simpl. eapply keeps_sub; [|done]. intros t m. apply acked_nil.
  - intros to req Hin Hi. destruct (sl_asked0 to req Hin Hi) as [Ht Hx]. split; [|done].
    destruct Hd as [->| ->]; [done|]. simpl. lia.
Qed.

Lemma slocal_idle H i l : slocal H i l → slocal H i (set_elec None l).
Proof.
  intros []. split; try done. intros to req Hin Hq. destruct (sl_asked0 to req Hin Hq). split; [done|]. by intros x [=].
Qed.

Lemma SInv_persist L B S c i o ok l' l2 :
  SInv L B S c → i ∈ members → persist_local o (c_local c i) = (ok, l') → l2 = l' ∨ l2 = set_elec None l' →
  Inv members (update i l2 [] c) → SInv L B S (update i l2 [] c).
Proof.
  intros HS Hi Hp H2 Hc. pose proof (si_local _ _ _ _ HS i Hi) as Hl. pose proof (si_elections _ _ _ _ HS) as HI.
  pose proof (inv_local _ _ HI i Hi) as Hli.
  pose proof (slocal_persist _ _ _ _ _ _ Hl (li_disk _ _ _ _ _ Hli) Hp) as Hl'.
  destruct (persist_local_view _ _ _ _ Hp) as (_ & Hw & _).
  assert (Hl2 : slocal (hist c L B S) i l2) by (destruct H2 as [->| ->]; [done|by apply slocal_idle]).
  assert (Hw2 : l_waiting l2 = l_waiting (c_local c i)) by (by destruct H2 as [->| ->]).
  apply SInv_update; try done.
  - apply LInv_update; try done; [apply (si_logs _ _ _ _ HS)|].
    assert (node_ok L (l_node l') (l_disk l')) by (eapply node_ok_persist; [by apply (lm_node _ _ _ _ (si_logs _ _ _ _ HS))|done]).
    by destruct H2 as [->| ->].
  - intros t m Ha. left. rewrite Hw2 in Ha. by apply acked_plain in Ha.
Qed.

(** The acknowledgements and votes of a node that sends one of the answers that
    waited. *)
Section answered.
Context (L : Z → list Entry) (B : Z → nat) (S : list (string * Z * nat)) (c : Cluster) (i : string).
Context (l' : Local) (ws1 : list waiting) (w : waiting) (ws2 : list waiting) (ok : bool).
Let H := hist c L B S.
Let H' := hist (update i (set_waiting (ws1 ++ ws2) l') [answer i w ok (l_node l')] c) L B S.

Lemma answered_acks t m : acked H' (ws1 ++ ws2) i t m → acked H (ws1 ++ w :: ws2) i t m.
Proof.
  intros [(req & r & [Hin|Hin]%elem_of_cons & Hr & ? & ?)|[Hr|(req & r & Hin & Hr)]].
  - right. right. destruct w as [|rq rs|]; simpl in Hin; simplify_eq. destruct ok; [|done].
    exists rq, rs. split_and!; try done. set_solver.
  - left. by exists req, r.
  - by right; left.
  - right. right. exists req, r. split; [set_solver|done].
Qed.

Lemma refused_acks t m : ok = false → acked H' [] i t m → acked H [] i t m.
Proof.
  unfold H'. intros -> [(req & r & [Hin|Hin]%elem_of_cons & Hr & ? & ?)|Hr]; [|left; by exists req, r|by right].
  destruct w; simpl in Hin; by simplify_eq.
Qed.

Lemma answered_votes req : granted H' (ws1 ++ ws2) i req → granted H (ws1 ++ w :: ws2) i req.
Proof.
  intros [(r & [Hin|Hin]%elem_of_cons & Hr)|(r & Hin)].
  - right. destruct w as [rq rs| |]; simpl in Hin; simplify_eq. destruct ok; [|done]. exists rs. set_solver.
  - left. by exists r.
  - right. exists r. set_solver.
Qed.
End answered.

Lemma SInv_answer L B S c i o ok l' ws1 w ws2 (l2 := set_waiting (ws1 ++ ws2) l') (ms := [answer i w ok (l_node l')]) :
  SInv L B S c → i ∈ members → l_waiting (c_local c i) = ws1 ++ w :: ws2 →
  persist_local o (c_local c i) = (ok, l') → Inv members (update i l2 ms c) → SInv L B S (update i l2 ms c).
Proof.
  intros HS Hi Hw Hp Hc. set (H := hist c L B S). set (H' := hist (update i l2 ms c) L B S).
  pose proof (inv_local _ _ (si_elections _ _ _ _ HS) i Hi) as Hli.
  pose proof (si_local _ _ _ _ HS i Hi) as Hl0.
  pose proof (slocal_persist _ _ _ _ _ _ Hl0 (li_disk _ _ _ _ _ Hli) Hp) as Hl. fold H in Hl.
  destruct (persist_local_view _ _ _ _ Hp) as (He & Hw' & _).
  destruct (linv_persist _ _ _ _ _ _ _ _ Hli Hp) as (Hli' & _ & _ & _ & Hok).
  assert (G : grows H H') by (split; simpl; try done; intros m Hin; by right).
  pose proof (SInv_bases _ _ _ _ HS) as Hbase. pose proof (SInv_acks_node _ _ _ _ _ HS Hi) as Hacks.
  rewrite <- Hw' in Hacks.
  assert (Hwait : Forall (waits H i) (ws1 ++ w :: ws2)) by (rewrite <- Hw; apply Hl0).
  assert (Hww : waits H i w) by (apply Forall_app in Hwait as [_ Hx]; by apply Forall_cons in Hx as [? _]).
  assert (Hsub : ∀ t m, acked H' (ws1 ++ ws2) i t m → acked H (l_waiting l') i t m).
  { intros t m. rewrite Hw', Hw. apply answered_acks. }
  assert (Hgr : ∀ req, granted H' (ws1 ++ ws2) i req → granted H (l_waiting l') i req).
  { intros req. rewrite Hw', Hw. apply answered_votes. }
  apply SInv_update; try done.
  - apply LInv_update; [apply (si_logs _ _ _ _ HS)| |constructor; [by destruct w|done]].
    exact (node_ok_persist L _ _ _ _ (lm_node _ _ _ _ (si_logs _ _ _ _ HS) i Hi) Hp).
  - constructor; [by destruct w|done].
  - intros t m Ha. left. rewrite <- Hw'. by apply Hsub.
  - fold H'. destruct Hl. split; try done.
    + by eapply (keeps_grow H H').
    + simpl. destruct ok.
      * destruct (li_clean _ _ _ _ _ Hli' (Hok eq_refl)) as [-> _]. rewrite sl_clean0 by auto.
        eapply (keeps_grow H H' G Hbase (l_waiting l')); [|done..]. intros t m Ha. by apply Hsub, acked_nil.
      * eapply (keeps_grow H H' G Hbase []); [by intros t m; apply refused_acks|by eapply acks_ok_nil|done].
    + eapply (votes_grow H H' G Hbase); [|done..]. intros req t m _ _. apply Hsub.
    + by apply (counts_grow H H').
    + apply (commits_grow H H'); try done. intros p. by apply SInv_acks_nil.
    + eapply Forall_impl; [|apply (waits_grow H H' G)]. apply Forall_app in Hwait as [? Hx].
      apply Forall_cons in Hx as [_ ?]. by apply Forall_app.
    + intros to req [Hin|Hin]%elem_of_cons Hq; [by destruct w|]. by apply (sl_asked0 to).
  - constructor; [|done]. apply (waits_grow H H' G) in Hww. destruct w as [req r|req r|req r]; try done.
    simpl. intros Hr. destruct ok; [by apply Hww|done].
Qed.

Lemma votes_sub H ws ws' p :
  (∀ t m, acked H ws' p t m → acked H ws p t m) → (∀ req, granted H ws' p req → granted H ws p req) →
  votes_well H ws p → votes_well H ws' p.
Proof.
  intros Ha Hg Hv req Hr%Hg Hn. destruct (Hv req Hr Hn) as (l & ? & ? & Hk). exists l. split_and!; try done.
  intros t m Hm. by apply Hk, Ha.
Qed.

Lemma SInv_crash L B S c i (l' := boot members i (l_disk (c_local c i))) :
  SInv L B S c → i ∈ members → Inv members (update i l' [] c) → SInv L B S (update i l' [] c).
Proof.
  intros HS Hi Hc. pose proof (si_local _ _ _ _ HS i Hi) as Hl.
  pose proof (peers_of_not_nil members members_NoDup members_two i) as Hp.
  pose proof (lm_node _ _ _ _ (si_logs _ _ _ _ HS) i Hi) as Hn.
  destruct (boot_node members i (l_disk (c_local c i)) Hp) as (B1 & B2 & B3 & B4 & B5 & B6 & B7). fold l' in B1, B2, B3, B4, B5, B6, B7.
  assert (Hb : n_lastIncludedTerm (l_node l') = rs_LastIncludedTerm (l_disk (c_local c i)) ∧ 0 <= n_lastApplied (l_node l')).
  { unfold l', boot, SetRaftStore, NewNode. rewrite bool_decide_false by done. simpl.
    destruct (Z.ltb_spec 0 (rs_LastIncludedIndex (l_disk (c_local c i)))) as [H0|H0]; simpl;
      rewrite ?(proj2 (Z.ltb_lt _ _) H0), ?(proj2 (Z.ltb_ge _ _) H0); simpl; split; (done || lia). }
  apply SInv_update; try done.
  - apply LInv_update; try done; [apply (si_logs _ _ _ _ HS)|]. by eapply node_ok_boot.
  - intros t m Ha. left. apply acked_plain in Ha; [|done]. by apply acked_nil.
  - apply (slocal_plain L B S c i l' l'); try done; [by apply SInv_acks_nil|]. destruct Hl.
    split; rewrite ?B1, ?B2, ?B3, ?B4, ?B6; try done.
    + destruct sl_base0 as (_ & ? & _), Hb as [-> ?]. done.
    + apply (votes_sub _ (l_waiting (c_local c i))); [intros t m; apply acked_nil|intros req [?|(? & Hin)]|done]; [by left|].
      by apply elem_of_nil in Hin.
    + intros Hr. congruence.
    + destruct Hn as [[_ ->] _ _ _]. split; [lia|]. lia.
    + intros to req Hin Hq. destruct (sl_asked0 to req Hin Hq). split; [done|]. intros x Hx. discriminate Hx.
Qed.

(** ** Elections *)

Lemma lastLogTerm_unbased n : n_lastIncludedTerm n = 0 → lastLogTerm n = last_term (n_log n).
Proof. intros Hb. unfold lastLogTerm, last_term. by destruct (last (n_log n)). Qed.

Lemma logFresh_unbased req n :
  n_lastIncludedIndex n = 0 → n_lastIncludedTerm n = 0 → logFresh req n = true → fresh_for req (n_log n).
Proof.
  intros Hb Ht. unfold logFresh, fresh_for. rewrite lastLogTerm_unbased by done. unfold lastLogIndex. rewrite Hb.
  intros [Hl|[He Hi]%andb_true_iff]%orb_true_iff; [left; lia|right; split; lia].
Qed.

Lemma vote_locked_granted req n n' resp :
  vote_locked req n = (n', resp, true) → n_term n' = vq_Term req ∧ logFresh req n = true.
Proof.
  unfold vote_locked. destruct (Z.ltb_spec (vq_Term req) (n_term n)); [done|].
  destruct (Z.ltb_spec (n_term n) (vq_Term req)); destruct (_ && logFresh _ _) eqn:E; intros [= <- <-];
    apply andb_true_iff in E as [_ E]; split; simpl; (done || lia).
Qed.

Lemma vote_locked_refused req n n' resp : vote_locked req n = (n', resp, false) → vr_VoteGranted resp = false.
Proof. unfold vote_locked. destruct (_ <? _); [by intros [= <- <-]|]. destruct (_ && _); by intros [= <- <-]. Qed.

Lemma vote_locked_quiet req n n' resp wait : vote_locked req n = (n', resp, wait) → quiet n n'.
Proof.
  intros Hv. split_and!; [by eapply vote_locked_kept|by eapply vote_locked_settled|].
  revert Hv. unfold vote_locked. destruct (_ <? _); [intros [= <- <- <-]; split; [done|by left]|].
  destruct (_ <? _); destruct (_ && _); intros [= <- <- <-]; (split; [done|by left]).
Qed.

(** A node that is no new candidate keeps its campaign. *)
Definition not_new (n n' : Node) : Prop :=
  n_role n' = RoleCandidate → n_role n = RoleCandidate ∧ n_term n' = n_term n.

Lemma campaigns_kept e n n' : campaigns e n → same_log n n' → not_new n n' → campaigns e n'.
Proof. intros Hc [Hl _] Hn x Hx Hr Ht. destruct (Hn Hr) as [Hr' Ht']. rewrite Hl. apply Hc; congruence. Qed.

Lemma campaigns_none n : campaigns None n.
Proof. by intros x [=]. Qed.

Lemma asked_none H i d e : asked H i d e → asked H i d None.
Proof. intros Ha to req Hin Hq. destruct (Ha to req Hin Hq). done. Qed.

Lemma not_new_same n n' : same_vote n n' → not_new n n'.
Proof. intros (Hr & Ht & _). unfold not_new. by rewrite Hr, Ht. Qed.
Lemma not_new_raised t n n' : raised t n n' → not_new n n'.
Proof. intros (_ & Hr & _). unfold not_new. by rewrite Hr. Qed.
Lemma not_new_cleared n n' : cleared n n' → not_new n n'.
Proof. intros (_ & Hr & _). unfold not_new. by rewrite Hr. Qed.

Lemma vote_locked_not_new req n n' resp wait : vote_locked req n = (n', resp, wait) → not_new n n'.
Proof.
  unfold vote_locked. destruct (_ <? _); [intros [= <- <- <-]; done|].
  destruct (_ <? _); destruct (_ && _); by intros [= <- <- <-].
Qed.

Lemma SInv_voted L B S c i req n' resp (l' := set_waiting (PVote req resp :: l_waiting (c_local c i)) (set_node n' (c_local c i))) :
  SInv L B S c → i ∈ members → MVote i req ∈ c_net c → vote_locked req (l_node (c_local c i)) = (n', resp, true) →
  Inv members (update i l' [] c) → SInv L B S (update i l' [] c).
Proof.
  intros HS Hi Hin Hv Hc. set (H := hist c L B S). pose proof (si_local _ _ _ _ HS i Hi) as Hl.
  pose proof (vote_locked_quiet _ _ _ _ _ Hv) as Hq. destruct (vote_locked_granted _ _ _ _ Hv) as [Ht Hf].
  pose proof (lm_node _ _ _ _ (si_logs _ _ _ _ HS) i Hi) as [[Hb _] (_ & Hcoh & _) _ _].
  assert (Hsub : ∀ t m, acked H (PVote req resp :: l_waiting (c_local c i)) i t m → acked H (l_waiting (c_local c i)) i t m).
  { intros t m [?|[?|(rq & rs & [Hx|Hx]%elem_of_cons & Hr)]]; [by left|by right; left|done|]. right. right. by exists rq, rs. }
  assert (Hl1 : slocal H i (set_node n' (c_local c i))).
  { apply (slocal_quiet H i (c_local c i)); try done; [|apply Hl].
    eapply campaigns_kept; [apply Hl|apply kept_log, Hq|by eapply vote_locked_not_new]. }
  apply SInv_update; try done.
  - apply LInv_kept; try done; [apply (si_logs _ _ _ _ HS)|apply kept_log, Hq|apply Hq].
  - intros t m Ha. left. apply Hsub. by apply acked_plain in Ha.
  - apply (slocal_plain L B S c i l' l'); try done.
    { intros t m Ha%Hsub. by eapply SInv_acks_node. }
    destruct Hl1 as [? ? Hsoft ? Hvote ? ? ? Hwait ?]. split; try done.
    + by eapply keeps_sub.
    + intros rq Hg Hn. destruct (decide (rq = req)) as [->|Hne].
      * exists (n_log (l_node (c_local c i))). split_and!; [done|apply logFresh_unbased; try done; apply Hl|].
        intros t m Ha%Hsub Htu Hbm Hcar. destruct (Hsoft t m Ha Hbm) as [_ Hk]. simpl in Hk.
        rewrite (proj1 (proj1 (proj1 Hq))) in Hk. apply Hk. rewrite Ht. intros w Hw Hled.
        destruct (decide (w = vq_Term req)) as [->|]; [done|]. apply Hcar; [lia|done].
      * destruct (Hvote rq) as (l & ? & ? & Hk); [|done|].
        { destruct Hg as [?|(r & [Hx|Hx]%elem_of_cons)]; [by left|congruence|]. right. by exists r. }
        exists l. split_and!; try done. intros t m Ha%Hsub. by apply Hk.
    + constructor; [done|exact Hwait].
Qed.

Lemma SInv_refused L B S c i req n' resp (l' := set_node n' (c_local c i)) (ms := [MVoteResp i req resp]) :
  SInv L B S c → i ∈ members → MVote i req ∈ c_net c → vote_locked req (l_node (c_local c i)) = (n', resp, false) →
  Inv members (update i l' ms c) → SInv L B S (update i l' ms c).
Proof.
  intros HS Hi Hin Hv Hc. pose proof (si_local _ _ _ _ HS i Hi) as Hl.
  pose proof (vote_locked_quiet _ _ _ _ _ Hv) as Hq.
  apply SInv_quiet; try done.
  - eapply campaigns_kept; [apply Hl|apply kept_log, Hq|by eapply vote_locked_not_new].
  - apply Hl.
  - constructor; [by eapply vote_locked_refused|done].
  - by constructor.
  - by constructor.
  - constructor; [|done]. simpl. by right.
Qed.

Lemma SInv_start L B S c i n' req (l' := set_elec (Some (mkElection req false 1 [])) (set_node n' (c_local c i))) :
  SInv L B S c → i ∈ members → election_begin (l_node (c_local c i)) = (n', req) →
  Inv members (update i l' [] c) → SInv L B S (update i l' [] c).
Proof.
  intros HS Hi Hb Hc. pose proof (si_local _ _ _ _ HS i Hi) as Hl.
  pose proof (inv_local _ _ (si_elections _ _ _ _ HS) i Hi) as Hli.
  pose proof (lm_node _ _ _ _ (si_logs _ _ _ _ HS) i Hi) as [[Hbase _] _ _ _]. injection Hb as <- <-.
  apply SInv_quiet; try done.
  - split_and!; try done. split; simpl; [lia|done]. split; [done|by left].
  - intros x [= <-] _ _. simpl. unfold lastLogIndex, lastLogTerm, last_term. simpl. rewrite Hbase. split; [done|].
    destruct (sl_base _ _ _ Hl) as [Ht _]. rewrite Ht. by destruct (last _).
  - intros to rq Hin Hq. destruct (sl_asked _ _ _ Hl to rq Hin Hq) as [Ht _]. split; [done|].
    intros x [= <-] Heq. simpl in Heq. pose proof (li_disk _ _ _ _ _ Hli). lia.
Qed.

Lemma SInv_campaign L B S c i e o l' (e' := mkElection (el_req e) true (el_votes e) (el_heard e))
    (ms := flip MVote (el_req e) <$> n_peers (l_node (c_local c i))) :
  SInv L B S c → i ∈ members → l_elec (c_local c i) = Some e → persist_local o (c_local c i) = (true, l') →
  Inv members (update i (set_elec (Some e') l') ms c) → SInv L B S (update i (set_elec (Some e') l') ms c).
Proof.
  intros HS Hi He Hp Hc. set (H := hist c L B S). set (H' := hist (update i (set_elec (Some e') l') ms c) L B S).
  pose proof (inv_local _ _ (si_elections _ _ _ _ HS) i Hi) as Hli. pose proof (si_local _ _ _ _ HS i Hi) as Hl0.
  pose proof (slocal_persist _ _ _ _ _ _ Hl0 (li_disk _ _ _ _ _ Hli) Hp) as Hl. fold H in Hl.
  destruct (persist_local_view _ _ _ _ Hp) as (He' & Hw' & _).
  destruct (linv_persist _ _ _ _ _ _ _ _ Hli Hp) as (Hli' & _ & _ & _ & Hok).
  destruct (li_elec _ _ _ _ _ Hli' e ltac:(congruence)) as (Hcand & Hterm & _).
  assert (G : grows H H') by (split; simpl; try done; intros m Hin; apply elem_of_app; by right).
  pose proof (SInv_bases _ _ _ _ HS) as Hbase. pose proof (SInv_acks_node _ _ _ _ _ HS Hi) as Hacks. rewrite <- Hw' in Hacks.
  assert (Hms : ∀ m, m ∈ ms → ∃ p, m = MVote p (el_req e)) by (intros m (p & -> & _)%list_elem_of_fmap; by exists p).
  assert (Hack : ∀ ws t m, acked H' ws i t m → acked H ws i t m).
  { intros ws t m [(req & r & [Hin|Hin]%elem_of_app & Hr)|Hr]; [|left; by exists req, r|by right].
    by destruct (Hms _ Hin). }
  assert (Hgr : ∀ ws req, granted H' ws i req → granted H ws i req).
  { intros ws req [(r & [Hin|Hin]%elem_of_app & Hr)|Hr]; [|left; by exists r|by right]. by destruct (Hms _ Hin). }
  apply SInv_update; try done.
  - apply LInv_update; [apply (si_logs _ _ _ _ HS)| |apply Forall_forall; by intros m (p & ->)%Hms].
    exact (node_ok_persist L _ _ _ _ (lm_node _ _ _ _ (si_logs _ _ _ _ HS) i Hi) Hp).
  - apply Forall_forall. by intros m (p & ->)%Hms.
  - intros t m Ha. left. rewrite <- Hw'. by apply Hack.
  - fold H'. destruct Hl. split; try done.
    + by apply (keeps_grow H H' G Hbase (l_waiting l') _ i _ _ (Hack _)).
    + apply (keeps_grow H H' G Hbase [] [] i _ _ (Hack _)); [by eapply acks_ok_nil|done].
    + eapply (votes_grow H H'); try done; [|by apply Hgr]. intros rq t m _ _. apply Hack.
    + intros x [= <-]. apply (sl_cand0 e). congruence.
    + by apply (counts_grow H H').
    + apply (commits_grow H H'); try done. intros p. by apply SInv_acks_nil.
    + eapply Forall_impl; [done|apply (waits_grow H H' G)].
    + intros to req [(p & [= -> ->])%Hms|Hin]%elem_of_app Hq.
      * split; [simpl; by rewrite (proj1 (li_clean _ _ _ _ _ Hli' (Hok eq_refl)))|by intros x [= <-]].
      * destruct (sl_asked0 to req Hin Hq) as [? Hx]. split; [done|]. intros x [= <-]. apply (Hx e). congruence.
  - apply Forall_forall. by intros m (p & ->)%Hms.
Qed.

(** ** Appending *)

Lemma append_locked_refused req n n' resp wait :
  append_locked req n = (n', resp, wait) → ar_Success resp = false → wait = false ∧ quiet n n' ∧ not_new n n'.
Proof.
  unfold append_locked. destruct (Z.ltb_spec (aq_Term req) (n_term n)) as [Hlt|Hge].
  { intros [= <- <- <-] _. split; [done|]. split; [|done]. split; [done|].
    split; [by apply settled_same|]. split; [done|by left]. }
  pose proof (follow_kept (aq_Term req) (aq_LeaderID req) n) as Hk.
  pose proof (follow_settled (aq_Term req) (aq_LeaderID req) n Hge) as Hs.
  assert (Hm : same_match n (follow (aq_Term req) (aq_LeaderID req) n)).
  { unfold follow. destruct (_ || _); (split; [done|by left]). }
  assert (Hn : not_new n (follow (aq_Term req) (aq_LeaderID req) n)).
  { intros Hr. destruct (follow_vote (aq_Term req) (aq_LeaderID req) n Hge) as (_ & Hf & _). congruence. }
  set (f := follow _ _ n) in *. clearbody f. destruct (negb _); [by intros [= <- <- <-]|].
  destruct (mergeEntries req f) as [ch m]. destruct (_ <? _); by intros [= <- <- <-].
Qed.

Lemma append_locked_fields req n n' resp wait :
  append_locked req n = (n', resp, wait) →
  n_lastIncludedTerm n' = n_lastIncludedTerm n ∧ n_lastApplied n' = n_lastApplied n ∧
  (n_dirty n' = false → n_dirty n = false ∧ n_log n' = n_log n) ∧
  (ar_Success resp = true → ar_Term resp = aq_Term req).
Proof.
  unfold append_locked. destruct (Z.ltb_spec (aq_Term req) (n_term n)) as [Hlt|Hge]; [by intros [= <- <- <-]|].
  destruct (follow_vote (aq_Term req) (aq_LeaderID req) n Hge) as (Ht & _).
  destruct (follow_frame (aq_Term req) (aq_LeaderID req) n) as (F1 & _ & F3 & _ & F5 & _).
  destruct (follow_kept (aq_Term req) (aq_LeaderID req) n) as (_ & _ & Fd & _).
  set (f := follow _ _ n) in *. clearbody f. destruct (negb _); [intros [= <- <- <-]; split_and!; try done; intros Hd; auto|].
  pose proof (mergeEntries_frame req f) as Hm. pose proof (mergeEntries_unchanged req f) as Hu.
  destruct (mergeEntries req f) as [ch m]. simpl in Hm, Hu. rewrite Hm. rewrite Hm in Hu.
  destruct ch; destruct (_ <? _); intros [= <- <- <-]; simpl; split_and!; try done; intros Hd.
  split; [auto|]. pose proof (f_equal n_log (Hu eq_refl)) as Hx. simpl in Hx. congruence.
Qed.

Section append.
Context (L : Z → list Entry) (B : Z → nat) (S : list (string * Z * nat)) (c : Cluster) (HS : SInv L B S c).
Context (i : string) (Hi : i ∈ members) (req : AppendEntriesRequest) (s : list Entry) (Hs : carries L B req s).
Let H := hist c L B S.
Let n := l_node (c_local c i).
Let v := aq_Term req.
Context (Hv : n_term n <= v) (Hled : led H v).
Context (Hlong : ∀ k e, n_log n !! k = Some e → (length s <= k)%nat → Term e ≠ v).

Lemma start_carried : start H v `prefix_of` s.
Proof.
  destruct Hs as (H1 & H2 & _). unfold start. simpl. fold v in H1, H2. rewrite <- (take_prefix_of s (L v)) by done. apply prefix_take.
Qed.

(** Entries of the leader's own term are not dropped. *)
Lemma append_long m : (m <= length (L v))%nat → take m (L v) `prefix_of` n_log n → (m <= length s)%nat.
Proof.
  intros Hm Hp. destruct (decide (m <= length s)%nat) as [|Hgt]; [done|exfalso].
  destruct (lookup_lt_is_Some_2 (L v) (m - 1)) as [e He]; [lia|].
  apply (Hlong (m - 1) e); [|lia|].
  - eapply prefix_lookup_Some; [|done]. by rewrite lookup_take_lt by lia.
  - destruct (lm_hist _ _ _ _ (si_logs _ _ _ _ HS) v) as (_ & _ & Ht). specialize (Ht _ _ He).
    destruct Hs as (_ & HB & _). fold v in HB. rewrite decide_False in Ht by lia. done.
Qed.

Lemma append_keeps ws : keeps H ws i (n_term n) (n_log n) → acks_ok H ws i → keeps H ws i v s.
Proof.
  intros Hk Hok t m Ha Hb. destruct (Hk t m Ha Hb) as [Ht Hl], (Hok t m Ha) as [_ Hm]. simpl in Hm. split; [lia|]. intros Hcar.
  destruct (decide (t = v)) as [->|Hne].
  - apply (prefixes_le _ _ (L v)); [apply prefix_take|apply Hs|]. rewrite length_take.
    assert (m <= length s)%nat; [|lia]. apply append_long; [done|]. apply Hl. intros w Hw. lia.
  - trans (start H v); [|apply start_carried]. apply Hcar; [lia|done].
Qed.

Lemma append_commits k : commits H (n_term n) k (n_log n) → commits H v k s.
Proof.
  intros [H0 Hk]. split; [done|]. intros Hpos. destruct (Hk Hpos) as (t & m & Hc & Ht & Hm & Hlen & Hp).
  exists t, m. split; [done|]. split; [lia|]. split; [done|]. destruct Hc as [[Hb Hml] HQ] eqn:E. simpl in Hml.
  destruct (decide (t = v)) as [->|Hne].
  - assert (Z.to_nat k <= length s)%nat as Hks.
    { apply append_long; [lia|]. rewrite <- (take_prefix_of (take (Z.to_nat k) (n_log n)) (L v)), take_take_le;
        [apply prefix_take|done|done|]. rewrite length_take. unfold zlen in Hlen. lia. }
    split; [unfold zlen; lia|]. trans s; [apply prefix_take|apply Hs].
  - assert (take m (L t) `prefix_of` s) as Hts.
    { trans (start H v); [|apply start_carried]. apply (leader_completeness L B S c); try done. lia. }
    pose proof (prefix_length _ _ Hts) as Hle. rewrite length_take in Hle. split; [unfold zlen; lia|].
    rewrite <- (take_prefix_of (take m (L t)) s), take_take_le by (done || rewrite ?length_take; lia). apply prefix_take.
Qed.

(** The commit index a request brings. *)
Lemma append_raises k :
  (0 < k → ∃ t m, committed H t m ∧ t <= v ∧ k <= Z.of_nat m) → 0 <= k → k <= zlen s → commits H v k s.
Proof.
  intros Hc H0 Hk. split; [done|]. intros Hpos. destruct (Hc Hpos) as (t & m & Hcm & Ht & Hm). exists t, m. split_and!; try done.
  destruct (decide (t = v)) as [->|Hne]; [trans s; [apply prefix_take|apply Hs]|].
  assert (take m (L t) `prefix_of` s) as Hts.
  { trans (start H v); [|apply start_carried]. apply (leader_completeness L B S c); try done. lia. }
  destruct Hcm as [[_ Hml] _]. simpl in Hml.
  rewrite <- (take_prefix_of (take m (L t)) s), take_take_le by (done || rewrite ?length_take; lia). apply prefix_take.
Qed.
End append.

(** New acknowledgements that the log keeps. *)
Lemma keeps_more H H' ws ws' p T l :
  grows H H' → (∀ t, (h_base H t <= length (h_log H t))%nat) →
  (∀ t m, acked H' ws' p t m → (h_base H' t < m)%nat → acked H ws p t m ∨
     t <= T ∧ (m <= length (h_log H t))%nat ∧ take m (h_log H t) `prefix_of` l) →
  acks_ok H ws p → keeps H ws p T l → keeps H' ws' p T l.
Proof.
  intros G Hbase Hm Hok Hk t m Ha Hb. destruct (Hm t m Ha Hb) as [Hold|(Ht & Hlen & Hp)].
  - destruct (Hok t m Hold) as [Hled Hlen]. rewrite (g_base _ _ G) in Hb by done.
    destruct (Hk t m Hold Hb) as [Ht Hl]. split; [done|].
    intros Hc%(carried_back H H' G Hbase); [|done]. rewrite (take_grow H H' G) by done. auto.
  - split; [done|]. intros _. by rewrite (take_grow H H' G).
Qed.

Lemma not_short L B req n s :
  carries L B req s → n_lastIncludedIndex n = 0 → existsb (λ e, Term e =? aq_Term req) (beyond req n) = false →
  ∀ k e, n_log n !! k = Some e → (length s <= k)%nat → Term e ≠ aq_Term req.
Proof.
  intros Hs Hb Hex k e He Hk Ht. assert (existsb (λ e, Term e =? aq_Term req) (beyond req n) = true); [|congruence].
  apply existsb_exists. exists e. split; [|lia]. apply list_elem_of_In. unfold beyond. rewrite Hb, Z.sub_0_r.
  fold (ack_end req). rewrite (carries_end _ _ _ _ Hs). apply (list_elem_of_lookup_2 _ (k - length s)).
  rewrite lookup_drop, <- He. f_equal. lia.
Qed.

(** A history that goes beyond its start has an entry of its own term. *)
Lemma own_entry L B c req s m :
  LInv members L B c → carries L B req s → (B (aq_Term req) < m)%nat → (m <= length s)%nat →
  existsb (λ e, Term e =? aq_Term req) s = true.
Proof.
  intros HL (Hp & _) Hb Hm. destruct (lookup_lt_is_Some_2 s (m - 1)) as [e He]; [lia|].
  pose proof (proj2 (proj2 (lm_hist _ _ _ _ HL (aq_Term req))) _ _ (prefix_lookup_Some _ _ _ _ He Hp)) as Ht.
  rewrite decide_False in Ht by lia. apply existsb_exists. exists e. split; [|lia].
  apply list_elem_of_In. by eapply list_elem_of_lookup_2.
Qed.

(** What a successful append that is no hazard makes of the log: the entries of
    a history that reaches the request's end, saved if they are acknowledged at
    once, and committed as far as the node says. *)
Lemma appended_facts L B S c i req n' resp (wait : bool) (l := c_local c i) (H := hist c L B S) :
  SInv L B S c → i ∈ members → MAppend i req ∈ c_net c → append_locked req (l_node l) = (n', resp, wait) →
  ar_Success resp = true → append_hazard req (l_disk l) (l_node l) n' resp wait = None →
  ∃ s, carries L B req s ∧ n_log n' = s ∧ n_term (l_node l) <= aq_Term req ∧ led H (aq_Term req) ∧
    (∀ k e, n_log (l_node l) !! k = Some e → (length s <= k)%nat → Term e ≠ aq_Term req) ∧
    (wait = false → ∀ m, (B (aq_Term req) < m <= length s)%nat →
       rs_Term (l_disk l) = aq_Term req ∧ s `prefix_of` rs_Log (l_disk l)) ∧
    commits H (aq_Term req) (n_commitIndex n') s ∧ n_commitIndex (l_node l) <= n_commitIndex n'.
Proof.
  intros HS Hi Hin Ha Hok Hhz. pose proof (si_local _ _ _ _ HS i Hi) as Hl. pose proof (si_logs _ _ _ _ HS) as HL.
  pose proof (lm_node _ _ _ _ HL i Hi) as [[Hb _] (_ & Hcoh & _) _ _]. fold l in Hb.
  pose proof (proj1 (Forall_forall _ _) (lm_msgs _ _ _ _ HL) _ Hin) as Hreq.
  destruct (append_takes members L B c (l_node l) n' req resp wait HL Hreq Hb Hcoh Ha Hok) as (s & Hs & Hlog).
  destruct (append_locked_success _ _ _ _ _ Ha Hok) as (Hv & _ & _ & Hb' & _ & Ht' & _ & _ & Hcom & _).
  assert (Hled : led H (aq_Term req)).
  { destruct (proj1 (Forall_forall _ _) (inv_msgs _ _ (si_elections _ _ _ _ HS)) _ Hin) as [? _]. by eexists. }
  unfold append_hazard in Hhz. rewrite Hok in Hhz.
  destruct (existsb _ (beyond req (l_node l))) eqn:Hex; [done|]. pose proof (not_short _ _ _ _ _ Hs Hb Hex) as Hlong.
  pose proof (append_commits L B S c HS i req s Hs Hv Hled Hlong (n_commitIndex (l_node l)) (sl_commit _ _ _ Hl)) as Hold.
  exists s. split_and!; try done.
  - intros -> m [Hbm Hms]. rewrite Hlog, (own_entry L B c req s m) in Hhz by done. simpl in Hhz.
    destruct (bool_decide (saved _ _ n')) eqn:Hsv; [|done]. apply bool_decide_eq_true in Hsv as (Q1 & _ & Q3).
    rewrite Hb', Hb, Z.sub_0_r in Q3. fold (ack_end req) in Q3. rewrite (carries_end _ _ _ _ Hs), Hlog, firstn_all in Q3.
    split; [congruence|]. rewrite <- Q3. apply prefix_take.
  - rewrite Hcom. destruct (Z.ltb_spec (n_commitIndex (l_node l)) (aq_LeaderCommit req)) as [Hlt|]; [|done].
    pose proof (proj1 (Forall_forall _ _) (si_sent _ _ _ _ HS) _ Hin) as Hsent. simpl in Hsent.
    unfold lastLogIndex. rewrite Hb', Hb, Hlog. destruct Hold as [Hnn _]. pose proof (zlen_nonneg s).
    apply (append_raises L B S c HS req s Hs Hled); [|lia|lia].
    intros Hpos. destruct Hsent as (t & m & ? & ? & ?); [lia|]. exists t, m. split_and!; (done || lia).
  - rewrite Hcom. destruct (Z.ltb_spec (n_commitIndex (l_node l)) (aq_LeaderCommit req)); [|lia].
    unfold lastLogIndex. rewrite Hb', Hb, Hlog. pose proof (zlen_nonneg s). destruct Hold as [Hnn Hc].
    destruct (decide (0 < n_commitIndex (l_node l))) as [Hpos|]; [|lia]. destruct (Hc Hpos) as (_ & _ & _ & _ & _ & Hlen & _). lia.
Qed.

(** A successful append does not lower the commit index. *)
Lemma appended_commit L B S c i req n' resp wait (l := c_local c i) :
  SInv L B S c → i ∈ members → MAppend i req ∈ c_net c → append_locked req (l_node l) = (n', resp, wait) →
  ar_Success resp = true → append_hazard req (l_disk l) (l_node l) n' resp wait = None →
  n_commitIndex (l_node l) <= n_commitIndex n'.
Proof. intros HS Hi Hin Ha Hok Hhz. by destruct (appended_facts L B S c i req n' resp wait HS Hi Hin Ha Hok Hhz) as (s & ? & ? & ? & ? & ? & ? & ? & ?). Qed.

(** A node that granted a vote has reached its term. *)
Lemma granted_past L B S c i rq :
  SInv L B S c → i ∈ members → granted (hist c L B S) (l_waiting (c_local c i)) i rq → vq_Term rq <= n_term (node c i).
Proof.
  intros HS Hi Hg. pose proof (inv_local _ _ (si_elections _ _ _ _ HS) i Hi) as Hli.
  destruct (li_grant _ _ _ _ _ Hli (vq_Term rq) (vq_CandidateID rq)) as (_ & Hle & _); [|done].
  destruct Hg as [(r & Hx & Hr)|(r & Hx)]; [left; by exists rq, r|right; by exists rq, r].
Qed.

(** The acknowledgements and votes after an append: its own, waiting to be saved
    or sent, and the old ones. *)
Section appended.
Context (L : Z → list Entry) (B : Z → nat) (S : list (string * Z * nat)) (c : Cluster) (i : string).
Context (req : AppendEntriesRequest) (resp : AppendEntriesResponse) (wait : bool) (n' : Node).
Let l := c_local c i.
Let l' := if wait then set_waiting (PAppend req resp :: l_waiting l) (set_node n' l) else set_node n' l.
Let ms := if wait then [] else [MAppendResp i req resp].
Let H := hist c L B S.
Let H' := hist (update i l' ms c) L B S.

Lemma appended_acks s t m :
  carries L B req s →
  (acked H' (l_waiting l') i t m → acked H (l_waiting l) i t m ∨ t = aq_Term req ∧ (m <= length s)%nat) ∧
  (acked H' [] i t m → acked H [] i t m ∨ wait = false ∧ t = aq_Term req ∧ (m <= length s)%nat).
Proof.
  intros Hs. rewrite <- (carries_end _ _ _ _ Hs). unfold H', l', ms, acked. destruct wait; simpl.
  - split; [|by left]. intros [?|[?|(rq & rs & [[= -> ->]|Hx]%elem_of_cons & Hr & Hx2 & Hx3)]]; [by left; left|by left; right; left|by right|].
    left. right. right. by exists rq, rs.
  - split; (intros [(rq & rs & [[= -> ->]|Hx]%elem_of_cons & Hr & Hx2 & Hx3)|?]; [by right|left; left; by exists rq, rs|left; by right]).
Qed.

Lemma appended_votes rq : granted H' (l_waiting l') i rq → granted H (l_waiting l) i rq.
Proof.
  unfold H', l', ms. destruct wait; simpl; intros [(r & Hx & Hr)|(r & Hx)].
  - left. by exists r.
  - apply elem_of_cons in Hx as [?|Hx]; [done|]. right. by exists r.
  - apply elem_of_cons in Hx as [?|Hx]; [done|]. left. by exists r.
  - right. by exists r.
Qed.

Lemma appended_asked to rq : MVote to rq ∈ h_net H' → MVote to rq ∈ h_net H.
Proof. unfold H', ms. simpl. destruct wait; [done|]. by intros [?|?]%elem_of_cons. Qed.

Lemma appended_local : l_node l' = n' ∧ l_disk l' = l_disk l ∧ l_elec l' = l_elec l.
Proof. unfold l'. by destruct wait. Qed.

Lemma appended_grows : grows H H'.
Proof. split; simpl; try done. intros m Hm. apply elem_of_app. by right. Qed.
End appended.

Lemma carries_take L B req s m :
  carries L B req s → (m <= length s)%nat →
  (m <= length (L (aq_Term req)))%nat ∧ take m (L (aq_Term req)) `prefix_of` s.
Proof.
  intros (Hp & _) Hm. pose proof (prefix_length _ _ Hp). split; [lia|].
  rewrite <- (take_prefix_of s) by done. apply prefix_take.
Qed.

Lemma slocal_appended L B S c i req n' resp (wait : bool) (l := c_local c i) :
  SInv L B S c → i ∈ members → MAppend i req ∈ c_net c → append_locked req (l_node l) = (n', resp, wait) →
  ar_Success resp = true → append_hazard req (l_disk l) (l_node l) n' resp wait = None →
  let l' := if wait then set_waiting (PAppend req resp :: l_waiting l) (set_node n' l) else set_node n' l in
  let ms := if wait then [] else [MAppendResp i req resp] in
  let H' := hist (update i l' ms c) L B S in
  slocal H' i l' ∧ waits H' i (PAppend req resp).
Proof.
  intros HS Hi Hin Ha Hok Hhz l' ms H'. set (H := hist c L B S).
  destruct (appended_facts L B S c i req n' resp wait HS Hi Hin Ha Hok Hhz) as (s & Hs & Hlog & Hv & Hled & Hlong & Hsaved & Hcom & _).
  destruct (append_locked_success _ _ _ _ _ Ha Hok) as (_ & _ & _ & _ & _ & Ht' & Hr' & _).
  destruct (append_locked_fields _ _ _ _ _ Ha) as (Hbt & Hla & Hdir & Hrt). specialize (Hrt Hok).
  pose proof (appended_grows L B S c i req resp wait n') as G. fold l l' ms H H' in G.
  pose proof (λ t m, appended_acks L B S c i req resp wait n' s t m Hs) as Hnew.
  pose proof (SInv_bases _ _ _ _ HS) as Hbase. pose proof (SInv_acks_node _ _ _ _ _ HS Hi) as Hacks.
  assert (Hw' : waits H' i (PAppend req resp)).
  { intros _. split; [done|]. split; [by apply (led_grow H H' G)|]. exists s. by apply (carries_grow H H' G). }
  split; [|done]. destruct (appended_local L B S c i req resp wait n') as (Hn' & Hd' & He'). fold l l' in Hn', Hd', He'.
  destruct (si_local _ _ _ _ HS i Hi). fold l in sl_clean0. split; rewrite ?Hn', ?Hd', ?He', ?Hlog, ?Ht', ?Hbt, ?Hla; try done.
  - intros Hd. destruct (Hdir Hd) as [Hd0 Hls]. rewrite <- Hlog, Hls. by apply sl_clean0.
  - apply (keeps_more H H' (l_waiting l)); try done; [|by apply (append_keeps L B S c HS i req s Hs)].
    intros t m Hm _. destruct (proj1 (Hnew t m) Hm) as [?|[-> Hm2]]; [by left|right]. by split; [|apply carries_take with B].
  - apply (keeps_more H H' []); try done; [|by eapply acks_ok_nil].
    intros t m Hm Hbm. destruct (proj2 (Hnew t m) Hm) as [?|(Hwf & -> & Hm2)]; [by left|right].
    destruct (Hsaved Hwf m (conj Hbm Hm2)) as [Hdt Hdl]. destruct (carries_take _ _ _ _ m Hs Hm2) as [Hml Hp]. fold l in Hdt, Hdl. rewrite Hdt.
    split; [done|]. split; [done|]. by trans s.
  - apply (votes_grow H H' G Hbase (l_waiting l)); try done; [|apply (appended_votes L B S c i req resp wait n')].
    intros rq t m Hg Htm Hm. destruct (proj1 (Hnew t m) Hm) as [?|[-> _]]; [done|exfalso].
    pose proof (granted_past _ _ _ _ _ _ HS Hi Hg) as Hle. lia.
  - intros x _ Hr. congruence.
  - intros Hr. congruence.
  - apply (commits_grow H H' G); [intros p; by apply SInv_acks_nil|done].
  - assert (Hold : Forall (waits H' i) (l_waiting l)) by (eapply Forall_impl; [done|apply (waits_grow H H' G)]).
    unfold l'. destruct wait; [by constructor|done].
  - intros to rq Hx%appended_asked Hq. by apply (sl_asked0 to).
Qed.

Lemma SInv_appended L B S c i req n' resp (wait : bool) (l := c_local c i) :
  SInv L B S c → i ∈ members → MAppend i req ∈ c_net c → append_locked req (l_node l) = (n', resp, wait) →
  ar_Success resp = true → append_hazard req (l_disk l) (l_node l) n' resp wait = None →
  let l' := if wait then set_waiting (PAppend req resp :: l_waiting l) (set_node n' l) else set_node n' l in
  let ms := if wait then [] else [MAppendResp i req resp] in
  Inv members (update i l' ms c) → SInv L B S (update i l' ms c).
Proof.
  intros HS Hi Hin Ha Hok Hhz l' ms Hc.
  destruct (slocal_appended L B S c i req n' resp wait HS Hi Hin Ha Hok Hhz) as [Hl Hw].
  destruct (appended_facts L B S c i req n' resp wait HS Hi Hin Ha Hok Hhz) as (s & Hs & _ & Hv & _).
  apply SInv_update; try done.
  - apply LInv_update; [apply HS| |unfold ms; destruct wait; by repeat constructor].
    by destruct wait; apply (node_ok_append members L B c i n' req resp _ (si_logs _ _ _ _ HS) (si_elections _ _ _ _ HS) Hi Hin Ha).
  - unfold ms. destruct wait; by repeat constructor.
  - intros t m Hm. destruct (proj1 (appended_acks L B S c i req resp wait n' s t m Hs) Hm) as [?|[-> _]]; [by left|by right].
  - unfold ms. destruct wait; constructor; done.
Qed.

(** ** Proposing *)

Lemma SInv_proposed L B S c i cmd (n := l_node (c_local c i)) (t := n_term n)
    (c' := update i (set_node (append_entry cmd n) (c_local c i)) [] c) :
  SInv L B S c → i ∈ members → n_role n = RoleLeader → Inv members c' →
  SInv (set_hist L t (L t ++ [mkEntry t cmd])) B S c'.
Proof.
  intros HS Hi Hr Hc. set (L' := set_hist L t _). set (H := hist c L B S). set (H' := hist c' L' B S).
  pose proof (si_local _ _ _ _ HS i Hi) as Hl.
  assert (G : grows H H') by (split; simpl; try done; apply set_hist_grows; by eexists).
  pose proof (SInv_bases _ _ _ _ HS) as Hbase. pose proof (SInv_acks_node _ _ _ _ _ HS Hi) as Hacks.
  assert (Hi' : c_local c' i = set_node (append_entry cmd n) (c_local c i)) by (simpl; by rewrite decide_True).
  apply (SInv_change L B S c i L' B S c' []); rewrite ?Hi'; try done.
  - apply LInv_propose; try done; apply HS.
  - intros j Hj. simpl. by rewrite decide_False.
  - intros p u m Hin. by left.
  - intros u m Ha. by left.
  - destruct Hl. split; simpl; try done.
    + apply (keeps_grow H H' G Hbase (l_waiting (c_local c i))); try done. eapply keeps_extend; [by eexists|done].
    + apply (keeps_grow H H' G Hbase []); try done. by eapply acks_ok_nil.
    + by apply (votes_grow H H' G Hbase (l_waiting (c_local c i))).
    + intros x _ Hx. simpl in Hx. congruence.
    + apply (commits_grow H H' G); [intros p; by apply SInv_acks_nil|]. destruct sl_commit0 as [H0 Hk].
      split; [done|]. intros Hpos. destruct (Hk Hpos) as (u & m & ? & ? & ? & Hlen & ?). exists u, m. fold n in Hlen.
      rewrite zlen_app, take_app_le by (unfold zlen in *; lia). split_and!; try done. eapply Z.le_trans; [exact Hlen|]. unfold zlen. lia.
    + eapply Forall_impl; [done|apply (waits_grow H H' G)].
  - intros u Hu. by left.
Qed.

(** ** Winning an election *)

(** A candidate whose log is fresh for a voter carries what the voter keeps. *)
Lemma fresh_covers L B S c req l cl t m (H := hist c L B S) :
  SInv L B S c → coherent L l → coherent L cl → Forall (λ e, Term e <= vq_Term req) cl → ¬ led H (vq_Term req) →
  vq_LastLogIndex req = zlen cl → vq_LastLogTerm req = last_term cl → fresh_for req l →
  (B t < m <= length (L t))%nat → carried H t m (vq_Term req - 1) → take m (L t) `prefix_of` l → take m (L t) `prefix_of` cl.
Proof.
  intros HS Hl Hcl Hle Hnot Hidx Hterm Hf Hm Hcar Hp. pose proof (si_logs _ _ _ _ HS) as HL.
  destruct (lookup_lt_is_Some_2 (L t) (m - 1)%nat) as [e He]; [lia|].
  assert (Ht : Term e = t) by (pose proof (proj2 (proj2 (lm_hist _ _ _ _ HL t)) _ _ He) as Hx; by rewrite decide_False in Hx by lia).
  assert (Hel : l !! (m - 1)%nat = Some e) by (eapply prefix_lookup_Some; [|done]; rewrite lookup_take_lt; [done|lia]).
  destruct (last l) as [x|] eqn:Hx; [|apply last_None in Hx; by subst].
  pose proof (coherent_last _ _ _ Hl Hx) as Hlx.
  assert (Htx : t <= Term x).
  { pose proof (proj2 (proj2 (lm_hist _ _ _ _ HL (Term x))) (m - 1)%nat e) as Hh.
    specialize (Hh (prefix_lookup_Some _ _ _ _ Hel Hlx)). case_decide; lia. }
  assert (Hpos : 0 <= Term x).
  { apply (lm_led _ _ _ _ HL). eapply (coherent_led members L B c l); [done..|].
    rewrite last_lookup in Hx. by eapply list_elem_of_lookup_2. }
  unfold fresh_for, last_term at 1 2 in Hf. rewrite Hx, Hterm, Hidx in Hf. simpl in Hf.
  destruct (last cl) as [y|] eqn:Hy.
  - unfold last_term in Hf. rewrite Hy in Hf. simpl in Hf. pose proof (coherent_last _ _ _ Hcl Hy) as Hcy.
    destruct Hf as [Hlt|[Heq Hlen]].
    + trans (start H (Term y)).
      * rewrite last_lookup in Hy. assert (Hyin : y ∈ cl) by (by eapply list_elem_of_lookup_2).
        assert (Hled : led H (Term y)) by (by eapply (coherent_led members L B c cl)).
        pose proof (proj1 (Forall_forall _ _) Hle y Hyin) as Hyu. simpl in Hyu.
        apply Hcar; [|done]. assert (Term y ≠ vq_Term req) by congruence. lia.
      * rewrite last_lookup in Hy. pose proof (lookup_lt_Some _ _ _ Hy) as Hylen.
        pose proof (proj2 (proj2 (lm_hist _ _ _ _ HL (Term y))) _ _ (prefix_lookup_Some _ _ _ _ Hy Hcy)) as Hh.
        case_decide; [lia|]. unfold start. simpl. apply (prefixes_le _ _ (L (Term y))); [apply prefix_take|done|].
        rewrite length_take. lia.
    + trans l; [done|]. rewrite <- Heq in Hlx. apply (prefixes_le _ _ (L (Term y))); try done. unfold zlen in Hlen. lia.
  - apply last_None in Hy. subst cl. destruct Hf as [Hlt|[_ Hlen]]; [unfold last_term in Hlt; simpl in Hlt; lia|].
    apply lookup_lt_Some in Hel. unfold zlen in Hlen. simpl in Hlen. lia.
Qed.

(** The history that an election starts. *)
Section elected.
Context (L : Z → list Entry) (B : Z → nat) (S : list (string * Z * nat)) (c : Cluster) (i : string) (e : Election).
Let n := l_node (c_local c i).
Let t := n_term n.
Let L' := set_hist L t (n_log n).
Let B' := set_hist B t (length (n_log n)).
Let c' := elect i c.
Let H := hist c L B S.
Let H' := hist c' L' B' S.
Context (HS : SInv L B S c) (Hi : i ∈ members) (He : l_elec (c_local c i) = Some e).
Context (Hq : majority (peers_of members i) <= el_votes e) (Hr : n_role n = RoleCandidate) (Ht : t = vq_Term (el_req e)).

Lemma elected_new : ¬ led H t.
Proof.
  intros Hled. exact (elected_fresh members members_NoDup c i e (si_elections _ _ _ _ HS) Hi He Hq Hr Ht Hled).
Qed.

Lemma elected_grows : grows H H'.
Proof.
  split; simpl; try done; [intros a Ha; by right| |].
  - apply set_hist_grows. destruct (L t) eqn:E; [apply prefix_nil|]. destruct elected_new.
    apply (lm_fresh _ _ _ _ (si_logs _ _ _ _ HS)). by rewrite E.
  - intros u Hu. unfold B'. apply set_hist_ne. intros ->. by apply elected_new.
Qed.

(** What a voter acknowledged before is in the new leader's log. *)
Lemma voter_covered p u m :
  p ∈ members → p = i ∨ grants (c_net c) p t i → acked H (l_waiting (c_local c p)) p u m → u < t → (B u < m)%nat →
  carried H u m (t - 1) → take m (L u) `prefix_of` n_log n.
Proof.
  intros Hpm HQ Ha Hu Hm Hcar. pose proof (si_local _ _ _ _ HS i Hi) as Hl. destruct HQ as [->|(rq & rs & Hx & Hgr & Hrt & Hrc)].
  - destruct (sl_soft _ _ _ Hl u m Ha Hm) as [_ Hk]. apply Hk. intros w Hw Hled.
    assert (w ≠ t) by (intros ->; by apply elected_new). apply Hcar; [|done]. fold n t in Hw. lia.
  - destruct (SInv_acks_node _ _ _ _ _ HS Hpm u m Ha) as [_ Hmu].
    destruct (sl_vote _ _ _ (si_local _ _ _ _ HS p Hpm) rq) as (l & Hcoh & Hf & Hk); [left; by exists rs|rewrite Hrt; apply elected_new|].
    pose proof (proj1 (Forall_forall _ _) (si_sent _ _ _ _ HS) _ Hx) as Hask. simpl in Hask.
    destruct (sl_asked _ _ _ Hl p rq Hask Hrc) as [_ Hsame]. rewrite (Hsame e He) in * by congruence.
    destruct (sl_cand _ _ _ Hl e He Hr Ht) as [Hx1 Hx2].
    destruct (no_log _ _ _ (lm_node _ _ _ _ (si_logs _ _ _ _ HS) i Hi)) as (_ & Hcoh' & Hle).
    rewrite Hrt in Hk. apply (fresh_covers L B S c (el_req e) l (n_log n)); rewrite ?Hrt; try done; [apply elected_new|by apply Hk].
Qed.

Lemma elected_voters : elected_well H' (λ p, l_waiting (c_local c' p)) t.
Proof.
  pose proof (inv_local _ _ (si_elections _ _ _ _ HS) i Hi) as Hli.
  destruct (li_elec _ _ _ _ _ Hli e He) as (Hcid & _ & _ & Hback). rewrite <- Ht in Hback.
  destruct (backed_quorum members members_NoDup _ _ _ _ _ Hi Hback Hq) as (Q & Q1 & Q2 & Q3 & HQ).
  exists Q. split; [done|]. intros p Hp. split.
  { destruct (HQ p Hp) as [->|Hg]; [left; left|right; by exists i]. }
  intros u m Ha Hu Hm Hcar. assert (Hne : u ≠ t) by lia.
  assert (Hws : l_waiting (c_local c' p) = l_waiting (c_local c p)) by (simpl; case_decide; [by subst|done]).
  rewrite Hws in Ha. change (acked H (l_waiting (c_local c p)) p u m) in Ha.
  assert (Hpm : p ∈ members) by auto. destruct (SInv_acks_node _ _ _ _ _ HS Hpm u m Ha) as [_ Hmu].
  simpl in Hm. unfold B' in Hm. rewrite set_hist_ne in Hm by done.
  apply (carried_back H H' elected_grows (SInv_bases _ _ _ _ HS)) in Hcar; [|done].
  assert (start H' t = n_log n) as -> by (unfold start; simpl; unfold B', L'; rewrite !set_hist_eq; by apply take_ge).
  simpl. unfold L'. rewrite set_hist_ne by done. by apply (voter_covered p u m); auto.
Qed.
End elected.

(** A node that is elected has no match indices of an earlier leadership. *)
Lemma counts_elected H n : elected_hazard n = None → counts H (becomeLeader n).
Proof.
  intros Hz _ st Hst p Hp. left. unfold elected_hazard in Hz. simpl in Hst, Hp. rewrite Hst in Hz.
  destruct (existsb _ _) eqn:Hex; [done|]. destruct (Z.ltb_spec 0 (at0 (matchIndex st) p)); [|done].
  assert (existsb (λ p, 0 <? at0 (matchIndex st) p) (n_peers n) = true); [|congruence].
  apply existsb_exists. exists p. split; [by apply list_elem_of_In|lia].
Qed.

Lemma SInv_elected L B S c i e (n := l_node (c_local c i)) (t := n_term n) :
  SInv L B S c → i ∈ members → l_elec (c_local c i) = Some e → majority (peers_of members i) <= el_votes e →
  n_role n = RoleCandidate → t = vq_Term (el_req e) → elected_hazard n = None → Inv members (elect i c) →
  SInv (set_hist L t (n_log n)) (set_hist B t (length (n_log n))) S (elect i c).
Proof.
  intros HS Hi He Hq Hr Ht Hz Hc. set (L' := set_hist L t _). set (B' := set_hist B t _).
  set (c' := elect i c) in *. set (H := hist c L B S). set (H' := hist c' L' B' S).
  pose proof (elected_grows L B S c i e HS Hi He Hq Hr Ht) as G. fold n t L' B' c' H H' in G.
  pose proof (SInv_bases _ _ _ _ HS) as Hbase. pose proof (SInv_acks_node _ _ _ _ _ HS Hi) as Hacks.
  assert (Hi' : c_local c' i = set_elec None (set_node (becomeLeader n) (c_local c i))) by (simpl; by rewrite decide_True).
  apply (SInv_change L B S c i L' B' S c' []); rewrite ?Hi'; try done.
  - apply LInv_elected; try done; [apply HS..|exact (elected_new L B S c i e HS Hi He Hq Hr Ht)].
  - intros j Hj. simpl. by rewrite decide_False.
  - intros p u m Hin. by left.
  - intros u m Ha. by left.
  - destruct (si_local _ _ _ _ HS i Hi). split; simpl; try done.
    + by apply (keeps_grow H H' G Hbase (l_waiting (c_local c i))).
    + apply (keeps_grow H H' G Hbase []); try done. by eapply acks_ok_nil.
    + by apply (votes_grow H H' G Hbase (l_waiting (c_local c i))).
    + by apply counts_elected.
    + apply (commits_grow H H' G); [intros p; by apply SInv_acks_nil|done].
    + eapply Forall_impl; [done|apply (waits_grow H H' G)].
    + by eapply asked_none.
  - intros u [j [[= -> ->]|Hj]%elem_of_cons]; [right|left; by exists j].
    by apply (elected_voters L B S c i e).
Qed.

(** ** Counting acknowledgements *)

Lemma acked_le H ws p t m m' : (m' <= m)%nat → acked H ws p t m → acked H ws p t m'.
Proof.
  intros Hm [(req & r & ? & ? & ? & ?)|[(k & ? & ?)|(req & r & ? & ? & ? & ?)]].
  - left. exists req, r. split_and!; (done || lia).
  - right. left. exists k. split; (done || lia).
  - right. right. exists req, r. split_and!; (done || lia).
Qed.

(** The members that have reached [k], for the leader [i]. *)
Definition reached (i : string) (st : replicationState) (k : Z) : list string :=
  i :: filter (λ p, k <= at0 (matchIndex st) p) (peers_of members i).

Lemma length_filter_fmap {A} (f : A → Z) (k : Z) (l : list A) :
  length (filter (λ x, k <= x) (f <$> l)) = length (filter (λ a, k <= f a) l).
Proof.
  induction l as [|a l IH]; [done|]. rewrite fmap_cons. destruct (decide (k <= f a)).
  - rewrite !filter_cons_True by done. simpl. by rewrite IH.
  - by rewrite !filter_cons_False by done.
Qed.

Lemma reached_majority i st n k :
  i ∈ members → n_peers n = peers_of members i → k <= lastLogIndex n → quorum_at n st k → majority_set (reached i st k).
Proof.
  intros Hi Hp Hk Hq. unfold quorum_at, match_list in Hq. rewrite Hp, majority_of in Hq by done. split_and!.
  - constructor; [by intros [_ ?%peers_of_ne]%list_elem_of_filter|]. apply NoDup_filter. by apply NoDup_filter.
  - intros p [->|Hx]%elem_of_cons; [done|]. apply list_elem_of_filter in Hx as [_ Hx].
    by apply list_elem_of_filter in Hx as [_ ?].
  - rewrite filter_cons_True, zlen_cons in Hq by done. unfold reached. rewrite zlen_cons.
    unfold zlen in *. by rewrite length_filter_fmap in Hq.
Qed.

Lemma replicate_end_cases p req resp n (n' := (replicate_end p req resp n).1) (mi := matchIndex (replState n).1)
    (matched := aq_PrevLogIndex req + zlen (aq_Entries req)) :
  (kept n n' ∧ same_match n n') ∨
  ∃ r st, resp = Some r ∧ ar_Success r = true ∧ ar_Term r = n_term n ∧
    matchIndex st = (if at0 mi p <? matched then <[p := matched]> mi else mi) ∧
    n' = maybeCommit (set_repl st (replState n).2).
Proof.
  unfold n', mi, replicate_end. pose proof (replState_kept n) as Hk. pose proof (replState_view n) as Hv.
  pose proof (replState_set n) as Hs. destruct (replState n) as [st m]. simpl in Hk, Hv, Hs |- *.
  destruct resp as [r|]; [|left; split; [done|by apply Hs]].
  destruct (Z.ltb_spec (n_term m) (ar_Term r)) as [Hlt|Hge].
  { left. split; [|by destruct (Hs (set_flying p false st) eq_refl)]. destruct Hk as (? & ? & ? & ? & ?). done. }
  destruct (Z.ltb_spec (ar_Term r) (n_term m)) as [Hlt|Hge']; [left; split; [done|by apply Hs]|].
  destruct (ar_Success r) eqn:Hr; simpl.
  - right. exists r. eexists. split_and!; [done|done| | |reflexivity]; [destruct Hv as (_ & ? & _); lia|].
    fold matched. destruct (at0 (nextIndex _) p <? _); destruct (at0 (matchIndex st) p <? matched); done.
  - left. split; [done|]. apply Hs. destruct (_ <? maxReplBackoff); destruct (_ <? at0 _ _); done.
Qed.

Lemma maybeCommit_cases n st :
  n_repl n = Some st → 0 <= n_commitIndex n →
  maybeCommit n = n ∨
  ∃ k e, maybeCommit n = set_commitIndex k n ∧ n_role n = RoleLeader ∧ n_commitIndex n < k ∧ quorum_at n st k ∧
    entryAt n k = Some e ∧ Term e = n_term n.
Proof.
  intros Hst H0. unfold maybeCommit. destruct (negb _) eqn:Hr; [by left|]. apply negb_false_iff, bool_decide_eq_true in Hr.
  unfold replState. rewrite Hst. destruct (Z.leb_spec (commit_threshold n st) (n_commitIndex n)); [by left|].
  rewrite (proj2 (Z.ltb_lt 0 (commit_threshold n st))) by lia. simpl.
  destruct (entryAt n (commit_threshold n st)) as [e|] eqn:He; [|by left].
  destruct (Z.eqb_spec (Term e) (n_term n)); simpl; [right|by left].
  exists (commit_threshold n st), e. split_and!; try done. by apply commit_threshold_spec.
Qed.

(** An entry of the leader's term that a majority has reached is committed. *)
Lemma quorum_committed L B S c c' i n1 st k e (n := l_node (c_local c i)) (H := hist c L B S)
    (H' := hist c' L B ((i, n_term n, Z.to_nat k) :: S)) :
  SInv L B S c → i ∈ members → grows H H' → same_vote n n1 → counts H n1 → n_repl n1 = Some st → n_role n1 = RoleLeader →
  n_term n1 = n_term n → 0 < k <= lastLogIndex n1 → quorum_at n1 st k → L (n_term n) !! Z.to_nat (k - 1) = Some e →
  Term e = n_term n1 → committed H' (n_term n) (Z.to_nat k).
Proof.
  intros HS Hi G Hv Hcnt Hst Hr Ht Hk Hq He Het. pose proof (inv_local _ _ (si_elections _ _ _ _ HS) i Hi) as Hli.
  assert (Hp : n_peers n1 = peers_of members i).
  { destruct Hv as (_ & _ & _ & _ & -> & _). apply Hli. }
  split.
  - simpl. pose proof (lookup_lt_Some _ _ _ He).
    pose proof (proj2 (proj2 (lm_hist _ _ _ _ (si_logs _ _ _ _ HS) (n_term n))) _ _ He) as Hh. case_decide; lia.
  - exists (reached i st k). split; [apply (reached_majority i st n1); (done || lia)|].
    intros p [->|Hx]%elem_of_cons; [right; left; exists (Z.to_nat k); split; [left|lia]|].
    apply list_elem_of_filter in Hx as [Hkp Hx]. apply (acked_grow H H' G). rewrite <- Ht.
    destruct (Hcnt Hr st Hst p) as [?|Ha]; [by rewrite Hp|lia|]. eapply acked_le; [|exact Ha]. lia.
Qed.

(** The leader commits: it counts itself, and its log is saved. *)
Lemma SInv_commit L B S c i n1 st k e (n := l_node (c_local c i)) (H := hist c L B S)
    (c' := update i (set_node (set_commitIndex k n1) (c_local c i)) [] c) :
  SInv L B S c → i ∈ members → kept n n1 → same_vote n n1 → counts H n1 → n_repl n1 = Some st → saved k (l_disk (c_local c i)) n →
  n_role n1 = RoleLeader → n_commitIndex n1 < k → quorum_at n1 st k → entryAt n1 k = Some e → Term e = n_term n1 →
  Inv members c' → SInv L B ((i, n_term n, Z.to_nat k) :: S) c'.
Proof.
  intros HS Hi Hk Hv Hcnt Hst Hd Hr Hlt Hq He Het Hc. pose proof (settled_same _ _ Hv) as Hset.
  set (S' := _ :: S). set (H' := hist c' L B S').
  pose proof (si_local _ _ _ _ HS i Hi) as Hl. pose proof (si_elections _ _ _ _ HS) as HI. pose proof (si_logs _ _ _ _ HS) as HL.
  pose proof (inv_local _ _ HI i Hi) as Hli. destruct (proj2 Hset Hr) as [Hr0 Ht1].
  pose proof (lm_node _ _ _ _ HL i Hi) as Hn.
  pose proof (no_lead _ _ _ Hn Hr0) as HLt. fold n in HLt.
  pose proof (li_lead _ _ _ _ _ Hli Hr0) as Hled.
  assert (Hl1 : slocal H i (mkLocal n1 (l_disk (c_local c i)) (l_elec (c_local c i)) (l_waiting (c_local c i)))).
  { apply slocal_kept; try done; [|apply Hl]. eapply campaigns_kept; [apply Hl|apply kept_log, Hk|by apply not_new_same]. }
  assert (G : grows H H') by (split; simpl; try done; intros a Ha; by right).
  pose proof (SInv_bases _ _ _ _ HS) as Hbase. pose proof (SInv_acks_node _ _ _ _ _ HS Hi) as Hacks.
  assert (Hnew : ∀ ws t m, acked H' ws i t m → acked H ws i t m ∨ t = n_term n ∧ (m <= Z.to_nat k)%nat).
  { intros ws t m [?|[(m' & [Hx|Hx]%elem_of_cons & Hm)|?]]; [by left; left| |left; right; left; by exists m'|by left; right; right].
    injection Hx as -> ->. by right. }
  assert (Hi' : c_local c' i = set_node (set_commitIndex k n1) (c_local c i)) by (simpl; by rewrite decide_True).
  destruct Hk as ((Hlog & Hb1) & Hcom & Hdir & Hbt & Hla). destruct (no_base _ _ _ Hn) as [Hb0 _]. fold n in Hb0.
  destruct (sl_commit _ _ _ Hl) as [Hc0 _]. fold n in Hc0.
  destruct Hd as (Hdt & _ & Hdl). rewrite Hb0, Z.sub_0_r in Hdl. assert (Hkpos : 0 < k) by lia. rewrite entryAt_unbased in He by (congruence || done).
  rewrite Hlog in He. fold n in He. pose proof (lookup_lt_Some _ _ _ He) as Hklen.
  apply (SInv_change L B S c i L B S' c' []); rewrite ?Hi'; try done.
  - apply LInv_kept; done.
  - intros j Hj. simpl. by rewrite decide_False.
  - intros p u m [[= -> -> ->]|Hin]%elem_of_cons; [right|by left]. split_and!; [done|by exists i|rewrite <- HLt; lia].
  - intros u m Ha. destruct (Hnew _ _ _ Ha) as [?|[-> _]]; [by left|by right].
  - fold H'. destruct Hl1. simpl in *. split; simpl; try done.
    + apply (keeps_more H H' (l_waiting (c_local c i))); try done.
      intros u m Ha _. destruct (Hnew _ _ _ Ha) as [?|[-> Hm]]; [by left|right]. split_and!; [by rewrite Ht1|simpl; rewrite <- HLt; lia|].
      rewrite Hlog. fold n. rewrite HLt. apply prefix_take.
    + apply (keeps_more H H' []); try done; [|by eapply acks_ok_nil].
      intros u m Ha _. destruct (Hnew _ _ _ Ha) as [?|[-> Hm]]; [by left|right]. split_and!; [by rewrite Hdt|simpl; rewrite <- HLt; lia|].
      simpl. rewrite <- HLt. trans (take (Z.to_nat k) (rs_Log (l_disk (c_local c i)))); [|apply prefix_take].
      rewrite Hdl. apply (prefixes_le _ _ (n_log n)); [apply prefix_take..|rewrite !length_take; lia].
    + apply (votes_grow H H' G Hbase (l_waiting (c_local c i))); try done.
      intros rq u m Hg Hu Ha. destruct (Hnew _ _ _ Ha) as [?|[-> Hm]]; [done|exfalso].
      pose proof (granted_past _ _ _ _ _ _ HS Hi Hg) as Hle. fold n in Hle. lia.
    + exact (counts_grow H H' G n1 sl_match0).
    + split; [lia|]. intros _. exists (n_term n), (Z.to_nat k). rewrite Hlog. fold n.
      split_and!; [|lia|lia|unfold zlen; lia|rewrite HLt; apply prefix_take].
      apply (quorum_committed L B S c c' i n1 st k e); try done; [|fold n; by rewrite <- HLt].
      unfold lastLogIndex, zlen. rewrite Hlog, Hb1, Hb0. fold n. lia.
  - intros u Hu. by left.
Qed.

(** ** Every step keeps the promises *)

(** A quiet step that is no new candidacy. *)
Lemma SInv_calm L B S c i n' ms (l' := set_node n' (c_local c i)) :
  SInv L B S c → i ∈ members → Inv members (update i l' ms c) → quiet (l_node (c_local c i)) n' →
  not_new (l_node (c_local c i)) n' → Forall plain ms → Forall (mine i) ms → Forall (request_ok L B) ms →
  Forall (sent_ok (hist (update i l' ms c) L B S)) ms → SInv L B S (update i l' ms c).
Proof.
  intros HS Hi Hc Hq Hn Hms Hm Hr Hs. pose proof (si_local _ _ _ _ HS i Hi) as Hl.
  apply SInv_quiet; try done; [|apply Hl]. eapply campaigns_kept; [apply Hl|apply kept_log, Hq|done].
Qed.

Lemma quiet_same n n' : kept n n' → same_vote n n' → same_match n n' → quiet n n' ∧ not_new n n'.
Proof. intros. split; [split_and!; try done; by apply settled_same|by apply not_new_same]. Qed.

Lemma same_match_fields n n' : n_peers n' = n_peers n → n_repl n' = n_repl n → same_match n n'.
Proof. intros. split; [done|by left]. Qed.

Lemma SInv_matched L B S c i p req r st (n := l_node (c_local c i)) (n1 := set_repl st (replState n).2)
    (mi := matchIndex (replState n).1) (matched := aq_PrevLogIndex req + zlen (aq_Entries req)) :
  SInv L B S c → i ∈ members → MAppendResp p req r ∈ c_net c → ar_Success r = true → ar_Term r = n_term n →
  matchIndex st = (if at0 mi p <? matched then <[p := matched]> mi else mi) → counts (hist c L B S) n1.
Proof.
  intros HS Hi Hin Hok Ht Hmi Hr st' [= <-] q Hq. destruct (replState_match n) as (Hsm & Hrp & Hpe).
  destruct (replState_view n) as (V1 & V2 & _). simpl in Hr, Hq |- *. rewrite Hpe in Hq. rewrite V1 in Hr.
  rewrite V2, Hmi. assert (Hold : at0 mi q <= 0 ∨ acked (hist c L B S) [] q (n_term n) (Z.to_nat (at0 mi q))).
  { pose proof (counts_same _ _ _ (sl_match _ _ _ (si_local _ _ _ _ HS i Hi)) (settled_same _ _ (replState_view n)) Hsm) as Hcs.
    rewrite <- V2. apply Hcs; [by rewrite V1|done|by rewrite Hpe]. }
  destruct (at0 mi p <? matched); [|done]. destruct (decide (q = p)) as [->|Hne].
  - right. left. exists req, r. split_and!; try done.
    + pose proof (proj1 (Forall_forall _ _) (si_sent _ _ _ _ HS) _ Hin) as Hw. destruct (Hw Hok) as (Hx & _). congruence.
    + unfold at0. rewrite lookup_insert_eq. done.
  - unfold at0. rewrite lookup_insert_ne by done. done.
Qed.

Lemma SInv_replicated L B S c i p req resp (n := l_node (c_local c i)) (n' := (replicate_end p req resp n).1)
    (c' := update i (set_node n' (c_local c i)) [] c) :
  SInv L B S c → i ∈ members → (∀ r, resp = Some r → MAppendResp p req r ∈ c_net c) →
  commit_hazard (l_disk (c_local c i)) n n' = None →
  Inv members c' → ∃ S', S ⊆ S' ∧ SInv L B S' c'.
Proof.
  intros HS Hi Hin Hz Hc. pose proof (si_local _ _ _ _ HS i Hi) as Hl.
  pose proof (settled_same_or_raised _ _ (replicate_end_view p req resp n)) as Hset.
  assert (Hnn : not_new n n').
  { destruct (replicate_end_view p req resp n) as [?|[t ?]]; [by apply not_new_same|by eapply not_new_raised]. }
  destruct (replicate_end_cases p req resp n) as [[Hk Hm]|(r & st & Hr & Hok & Ht & Hmi & Hn')].
  { exists S. split; [done|]. apply SInv_calm; done. }
  pose proof (SInv_matched L B S c i p req r st HS Hi (Hin r Hr) Hok Ht Hmi) as Hcnt. fold n in Hcnt.
  fold n' in Hn'. set (n1 := set_repl st (replState n).2) in *.
  assert (Hk : kept n n1) by apply (replState_kept n). assert (Hv : same_vote n n1) by apply (replState_view n).
  pose proof (proj1 (proj2 Hk)) as Hcom.
  destruct (maybeCommit_cases n1 st eq_refl) as [Hsame|(k & e & Hraise & Hlead & Hlt & Hq & He & Het)].
  { rewrite Hcom. apply (sl_commit _ _ _ Hl). }
  - exists S. split; [done|]. unfold c' in *. rewrite Hn', Hsame in *. apply SInv_update; try done.
    + apply LInv_kept; try done; [apply HS|apply Hk|by apply settled_same].
    + intros t m Ha. left. by apply acked_plain in Ha.
    + eapply (slocal_plain L B S c i); try done; [by apply SInv_acks_node|]. apply slocal_kept; try done; [by apply settled_same| |apply Hl].
      eapply campaigns_kept; [apply Hl|apply Hk|by apply not_new_same].
  - exists ((i, n_term n, Z.to_nat k) :: S). split; [by intros x Hx; right|]. unfold c' in *. rewrite Hn', Hraise in *.
    apply (SInv_commit L B S c i n1 st k e); try done. unfold commit_hazard in Hz. simpl in Hz.
    rewrite Hcom in Hlt. rewrite (proj2 (Z.ltb_lt _ _) Hlt) in Hz. simpl in Hz.
    destruct (bool_decide (saved k (l_disk (c_local c i)) n)) eqn:Hsv; [|done]. by apply bool_decide_eq_true in Hsv.
Qed.

Lemma SInv_replicate L B S c i p n' b (ms := if b is ReplSend req then [MAppend p req] else []) :
  SInv L B S c → i ∈ members → replicate_begin p (l_node (c_local c i)) = (n', b) →
  Inv members (update i (set_node n' (c_local c i)) ms c) → SInv L B S (update i (set_node n' (c_local c i)) ms c).
Proof.
  intros HS Hi Hb Hc. pose proof (si_local _ _ _ _ HS i Hi) as Hl.
  destruct (quiet_same (l_node (c_local c i)) n') as [Hq Hn];
    [by eapply replicate_begin_kept|by eapply replicate_begin_view|by eapply replicate_begin_match|].
  apply SInv_calm; try done; unfold ms; destruct b as [|  |req]; try done; (constructor; [|done]); try done.
  - eapply replicate_carries; [apply HS|done|done].
  - destruct (replicate_begin_send _ _ _ _ Hb) as (_ & Ht & _ & _ & _ & _ & Hlc & _). simpl. rewrite Hlc, Ht. intros Hpos.
    destruct (sl_commit _ _ _ Hl) as [_ Hk]. destruct (Hk Hpos) as (t & m & Hcm & ? & ? & _). exists t, m.
    split_and!; try done. eapply (committed_grow (hist c L B S)); [|intros q; by apply SInv_acks_nil|done].
    split; simpl; try done. intros x Hx. by right.
Qed.

Lemma install_locked_quiet req n n' resp rest :
  install_locked req n = (n', resp, rest) → n_lastIncludedIndex n = 0 → n_lastIncludedIndex n' = 0 → 0 <= n_lastApplied n →
  quiet n n' ∧ not_new n n'.
Proof.
  unfold install_locked. destruct (Z.ltb_spec (iq_Term req) (n_term n)) as [Hlt|Hge].
  { intros [= <- _ _] _ _ _. apply quiet_same; try done. by apply same_match_fields. }
  pose proof (follow_kept (iq_Term req) (iq_LeaderID req) n) as Hk.
  pose proof (follow_settled (iq_Term req) (iq_LeaderID req) n Hge) as Hs.
  assert (Hm : same_match n (follow (iq_Term req) (iq_LeaderID req) n)).
  { unfold follow. destruct (_ || _); by apply same_match_fields. }
  assert (Hn : not_new n (follow (iq_Term req) (iq_LeaderID req) n)).
  { intros Hr. destruct (follow_vote (iq_Term req) (iq_LeaderID req) n Hge) as (_ & Hf & _). congruence. }
  set (f := follow _ _ n) in *. clearbody f. destruct (Z.ltb_spec (n_lastApplied f) (iq_LastIncludedIndex req)) as [Hlt|];
    intros [= <- _ _] Hb Hb' H0; [exfalso|done].
  revert Hb'. unfold adopt_base. simpl. rewrite (proj1 (proj2 (raise_base_frame _ _))). simpl.
  destruct Hk as (_ & _ & _ & _ & Hla). lia.
Qed.

Lemma slocal_installing H i l req r : slocal H i l → slocal H i (set_waiting (PInstall req r :: l_waiting l) l).
Proof.
  assert (Ha : ∀ t m, acked H (PInstall req r :: l_waiting l) i t m → acked H (l_waiting l) i t m).
  { intros t m [?|[?|(rq & rs & [Hx|Hx]%elem_of_cons & Hr)]]; [by left|by right; left|done|]. right. right. by exists rq, rs. }
  assert (Hg : ∀ rq, granted H (PInstall req r :: l_waiting l) i rq → granted H (l_waiting l) i rq).
  { intros rq [?|(rs & [Hx|Hx]%elem_of_cons)]; [by left|done|right; by exists rs]. }
  intros []. split; try done; simpl.
  - by eapply keeps_sub.
  - by eapply votes_sub.
  - by constructor.
Qed.

Lemma SInv_install L B S c i req n' resp (rest : option bool) (l := c_local c i)
    (c' := if rest is Some _ then update i (set_waiting (PInstall req resp :: l_waiting l) (set_node n' l)) [] c
           else update i (set_node n' l) [MInstallResp i req resp] c) :
  SInv L B S c → i ∈ members → install_locked req (l_node l) = (n', resp, rest) → base_hazard (l_node l) n' = None →
  Inv members c' → SInv L B S c'.
Proof.
  intros HS Hi Hv Hz Hc. pose proof (si_local _ _ _ _ HS i Hi) as Hl.
  pose proof (no_base _ _ _ (lm_node _ _ _ _ (si_logs _ _ _ _ HS) i Hi)) as [Hb _].
  unfold base_hazard in Hz. destruct (Z.eqb_spec (n_lastIncludedIndex n') (n_lastIncludedIndex (l_node l))) as [Hb'|]; [|done].
  destruct (install_locked_quiet _ _ _ _ _ Hv Hb) as [Hq Hn]; [by rewrite Hb'|apply Hl|].
  destruct rest as [b|]; unfold c' in *; [|apply SInv_calm; try done; by constructor].
  apply SInv_update; try done.
  - apply LInv_kept; try done; [apply HS|apply kept_log, Hq|apply Hq].
  - intros t m Ha. left. apply acked_plain in Ha; [|done].
    destruct Ha as [?|[?|(rq & rs & [Hx|Hx]%elem_of_cons & Hr)]]; [by left|by right; left|done|]. right. right. by exists rq, rs.
  - assert (Hl1 : slocal (hist c L B S) i (set_node n' l)).
    { apply slocal_quiet; try done; [|apply Hl]. eapply campaigns_kept; [apply Hl|apply kept_log, Hq|done]. }
    eapply (slocal_plain L B S c i); try done; [|exact (slocal_installing _ _ _ req resp Hl1)].
    apply SInv_acks; [done|]. simpl. constructor; [done|apply Hl].
Qed.

(** A node on an empty disk has promised nothing. *)
Lemma slocal_boot i (H := mkHist [] [] (λ _, []) (λ _, O) []) :
  peers_of members i ≠ [] → slocal H i (boot members i RaftState_zero).
Proof.
  intros Hp. destruct (boot_node members i RaftState_zero Hp) as (B1 & B2 & B3 & _ & _ & B6 & _).
  assert (Hrest : n_lastIncludedTerm (l_node (boot members i RaftState_zero)) = 0 ∧
    n_lastApplied (l_node (boot members i RaftState_zero)) = 0 ∧ l_disk (boot members i RaftState_zero) = RaftState_zero ∧
    l_elec (boot members i RaftState_zero) = None ∧ l_waiting (boot members i RaftState_zero) = []).
  { unfold boot, SetRaftStore, NewNode. by rewrite bool_decide_false by done. }
  destruct Hrest as (R1 & R2 & R3 & R4 & R5). set (l := boot _ _ _) in *. clearbody l.
  assert (Ha : ∀ t m, ¬ acked H [] i t m).
  { intros t m [(? & ? & Hx & _)|[(? & Hx & _)|(? & ? & Hx & _)]]; by apply elem_of_nil in Hx. }
  split; rewrite ?B1, ?B2, ?B3, ?B6, ?R1, ?R2, ?R3, ?R4, ?R5.
  - split_and!; done.
  - done.
  - intros t m Hx. by apply Ha in Hx.
  - intros t m Hx. by apply Ha in Hx.
  - intros rq [(? & Hx & _)|(? & Hx)]; by apply elem_of_nil in Hx.
  - apply campaigns_none.
  - intros Hr. congruence.
  - split; [done|]. simpl. lia.
  - constructor.
  - intros to rq Hx. by apply elem_of_nil in Hx.
Qed.

Lemma SInv_init : SInv (λ _, []) (λ _, O) [] (init members).
Proof.
  split; [by apply Inv_init|by apply LInv_init| | | |].
  - intros i Hi. by apply slocal_boot, peers_of_not_nil.
  - constructor.
  - intros p t m Hx. by apply elem_of_nil in Hx.
  - intros u [j Hj]. by apply elem_of_nil in Hj.
Qed.

Lemma election_end_match req v q n : same_match n (election_end req v q n).
Proof. unfold election_end. repeat case_match; by apply same_match_fields. Qed.

Lemma election_response_match resp v n v' n' : election_response resp v n = (v', n') → same_match n n'.
Proof. unfold election_response. destruct (_ <? _); intros [= _ <-]; by apply same_match_fields. Qed.

Lemma heartbeat_end_match now acks n : same_match n (heartbeat_end now acks n).
Proof. unfold heartbeat_end. destruct (_ && _); by apply same_match_fields. Qed.

Lemma apply_finish_match k n : same_match n (apply_finish k n).
Proof. unfold apply_finish. destruct (_ <? _); by apply same_match_fields. Qed.

Lemma install_end_quiet p snap resp n (n' := (install_end p snap resp n).1) :
  installed_hazard resp = None → quiet n n' ∧ not_new n n'.
Proof.
  intros Hz. pose proof (install_end_view p snap resp n) as Hv. fold n' in Hv.
  assert (Hkm : kept n n' ∧ same_match n n').
  { unfold n', install_end. pose proof (replState_kept n) as Hk. pose proof (replState_set n) as Hs.
    destruct (replState n) as [st m]. simpl in Hk, Hs |- *. destruct resp as [r|]; [|split; [done|by apply Hs]].
    destruct (_ <? ir_Term r); [split; [|by destruct (Hs (set_flying p false st) eq_refl)]; by destruct Hk as (? & ? & ? & ? & ?)|].
    unfold installed_hazard in Hz. destruct (ir_Success r); [done|]. rewrite orb_true_r. split; [done|by apply Hs]. }
  destruct Hkm. split; [split_and!; try done; by apply settled_same_or_raised|].
  destruct Hv as [?|[t ?]]; [by apply not_new_same|by eapply not_new_raised].
Qed.

Lemma SInv_tally L B S c i e p v n' resp (l := c_local c i)
    (l' := set_elec ((λ v, mkElection (el_req e) true v (p :: el_heard e)) <$> v) (set_node n' l)) :
  SInv L B S c → i ∈ members → l_elec l = Some e → election_response resp (el_votes e) (l_node l) = (v, n') →
  Inv members (update i l' [] c) → SInv L B S (update i l' [] c).
Proof.
  intros HS Hi He Hr Hc. pose proof (si_local _ _ _ _ HS i Hi) as Hl.
  pose proof (election_response_kept _ _ _ _ _ Hr) as Hk. pose proof (election_response_match _ _ _ _ _ Hr) as Hm.
  assert (Hset : settled (l_node l) n' ∧ not_new (l_node l) n').
  { destruct (election_response_view _ _ _ _ _ Hr) as [[? _]|[_ [t ?]]].
    - split; [by apply settled_same|by apply not_new_same].
    - split; [by eapply settled_raised|by eapply not_new_raised]. }
  apply SInv_quiet; try done.
  - split_and!; [done|apply Hset|done].
  - intros x (v' & _ & ->)%fmap_Some. exact (campaigns_kept _ _ _ (sl_cand _ _ _ Hl) (kept_log _ _ Hk) (proj2 Hset) e He).
  - intros to rq Hin Hq. destruct (sl_asked _ _ _ Hl to rq Hin Hq) as [Ht Hx]. split; [done|].
    intros x (v' & _ & ->)%fmap_Some. by apply (Hx e).
Qed.

(** What a step adds to the histories. *)
Definition later (c : Cluster) (L L' : Z → list Entry) (B B' : Z → nat) (S S' : list (string * Z * nat)) : Prop :=
  (∀ t, L t `prefix_of` L' t) ∧ (∀ t, led_in (c_led c) t → B' t = B t) ∧ S ⊆ S'.

Lemma SInv_step L B S c c' h :
  step members h c c' → h = None → SInv L B S c → ∃ L' B' S', later c L L' B B' S S' ∧ SInv L' B' S' c'.
Proof.
  intros Hs Hh HS. pose proof (si_elections _ _ _ _ HS) as HI.
  assert (Hc : Inv members c') by (eapply (Inv_step members members_NoDup members_two); [done| |done]; by subst).
  step_cases Hs; try subst l; pose proof (inv_local _ _ HI i Hi) as Hli; pose proof (si_local _ _ _ _ HS i Hi) as Hl.
  4: { pose proof (li_peers _ _ _ _ _ Hli) as Hpe. rewrite Hpe in Hq.
       pose proof (elected_grows L B S c i e HS Hi He Hq Hr Ht) as G.
       eexists _, _, S. split; [split_and!; [exact (g_log _ _ G)|exact (g_base _ _ G)|done]|].
       subst n'. revert Hc. unfold election_end. rewrite Hpe.
       rewrite (proj2 (Z.leb_le _ _) Hq), bool_decide_true, (proj2 (Z.eqb_eq _ _) Ht) by done. intros Hc.
       by apply (SInv_elected L B S c i e). }
  12: { destruct (SInv_replicated L B S c i p req resp) as (S' & HS' & Hx); try done. by exists L, B, S'. }
  15: { eexists _, B, S. split; [|by apply SInv_proposed]. split_and!; [|done|done]. apply set_hist_grows. by eexists. }
  all: exists L, B, S; split; [done|].
  - by apply SInv_start.
  - destruct ok; [by apply (SInv_campaign L B S c i e o)|]. by eapply SInv_persist; [..|right|].
  - by eapply (SInv_tally L B S c i e).
  - pose proof (election_lost_view _ _ _ _ Hh Hn) as Hcl.
    apply SInv_quiet; try done; [|eapply asked_none; apply Hl].
    split_and!; [apply election_end_kept|by apply settled_cleared|apply election_end_match].
  - destruct (quiet_same _ _ (heartbeat_end_kept now acks _) (heartbeat_end_view now acks _) (heartbeat_end_match now acks (l_node (c_local c i)))).
    by apply SInv_calm.
  - revert Hh Hc. unfold quorum_hazard, quorum_check. destruct (_ && _); [done|]. intros _ Hc.
    apply SInv_calm; try done. by apply quiet_same; [..|apply same_match_fields].
  - destruct wait; [by apply SInv_voted|by apply SInv_refused].
  - destruct (ar_Success resp) eqn:Hok.
    2: { destruct (append_locked_refused _ _ _ _ _ Hv Hok) as (-> & Hq & Hn).
         apply SInv_calm; try done; (constructor; [|done]); try done. simpl. intros Hx. congruence. }
    pose proof (SInv_appended L B S c i req n' resp wait HS Hi Hin Hv Hok Hh) as Ha. simpl in Ha.
    destruct wait; by apply Ha.
  - by apply (SInv_install L B S c i req n' resp rest).
  - by apply (SInv_answer L B S c i o ok l' ws1 w ws2).
  - by apply SInv_replicate.
  - destruct (quiet_same _ _ (install_check_kept p _) (install_check_view p _) (install_check_match p (l_node (c_local c i)))).
    by apply SInv_calm.
  - destruct (quiet_same _ _ (install_begin_kept _ _ _ _ _ Hb) (proj1 (install_begin_view _ _ _ _ _ Hb)) (install_begin_match _ _ _ _ _ Hb)).
    apply SInv_calm; try done; destruct r; by repeat constructor.
  - destruct (install_end_quiet p snap resp (l_node (c_local c i)) Hh). by apply SInv_calm.
  - revert Hh Hc. unfold base_hazard. destruct (Z.eqb_spec (n_lastIncludedIndex (CompactLog idx t (l_node (c_local c i))))
      (n_lastIncludedIndex (l_node (c_local c i)))) as [Hb|]; [|done]. rewrite CompactLog_unbased by done. intros _ Hc.
    apply SInv_calm; try done. by apply quiet_same; [..|apply same_match_fields].
  - destruct (quiet_same _ _ (apply_finish_kept idx _) (apply_finish_view idx _) (apply_finish_match idx (l_node (c_local c i)))).
    by apply SInv_calm.
  - destruct (persist_local o (c_local c i)) as [ok l'] eqn:Hp. by eapply SInv_persist; [..|left|].
  - by apply SInv_crash.
  - apply SInv_calm; try done. by apply quiet_same; [..|apply same_match_fields].
Qed.

Lemma step_mono c c' h : step members h c c' → c_net c ⊆ c_net c' ∧ c_led c ⊆ c_led c'.
Proof.
  intros Hs. assert (Hu : ∀ i l ms, c_net c ⊆ c_net (update i l ms c) ∧ c_led c ⊆ c_led (update i l ms c)).
  { intros i l ms. split; [|done]. intros m Hm. apply elem_of_app. by right. }
  destruct Hs; try apply Hu; repeat case_match; try apply Hu.
  split; [apply (Hu i (set_elec None (set_node n' l)) [])|]. intros a Ha. by right.
Qed.

Lemma grows_trans H1 H2 H3 : grows H1 H2 → grows H2 H3 → grows H1 H3.
Proof.
  intros G1 G2. split.
  - intros m Hm. by apply G2, G1.
  - intros a Ha. by apply G2, G1.
  - intros t. trans (h_log H2 t); [apply G1|apply G2].
  - intros t Ht. rewrite (g_base _ _ G2) by (by eapply led_grow). by apply G1.
  - intros a Ha. by apply G2, G1.
Qed.

Lemma SInv_run c c' L B S :
  run members no_hazard c c' → SInv L B S c →
  ∃ L' B' S', SInv L' B' S' c' ∧ grows (hist c L B S) (hist c' L' B' S').
Proof.
  intros Hr HS. induction Hr as [c|c1 c2 c3 h _ IH Hs Hh].
  - exists L, B, S. done.
  - destruct (IH HS) as (L1 & B1 & S1 & HS1 & G1). destruct h; [done|].
    destruct (SInv_step L1 B1 S1 c2 c3 None Hs eq_refl HS1) as (L2 & B2 & S2 & (A1 & A2 & A3) & HS2).
    exists L2, B2, S2. split; [done|]. eapply grows_trans; [done|]. destruct (step_mono _ _ _ Hs) as [M1 M2].
    split; simpl; auto.
Qed.

(** ** What is committed *)

(** What was committed before is in the history of every later term. *)
Lemma committed_in L B S c t m u :
  SInv L B S c → committed (hist c L B S) t m → t <= u → led (hist c L B S) u → take m (L t) `prefix_of` L u.
Proof.
  intros HS Hc Htu Hu. destruct (decide (t = u)) as [->|]; [apply prefix_take|].
  trans (start (hist c L B S) u); [|apply prefix_take]. apply (leader_completeness L B S c); try done. lia.
Qed.

Lemma committed_agree L B S c t m t' m' k :
  SInv L B S c → committed (hist c L B S) t m → committed (hist c L B S) t' m' → (k <= m)%nat → (k <= m')%nat →
  take k (L t) = take k (L t').
Proof.
  intros HS. assert (Hle : ∀ t m t' m', committed (hist c L B S) t m → committed (hist c L B S) t' m' →
    (k <= m)%nat → t <= t' → take k (L t) = take k (L t')).
  { intros u q u' q' Hc Hc' Hk Hu. pose proof (proj2 (proj1 Hc)) as Hlen. simpl in Hlen.
    pose proof (committed_in L B S c u q u' HS Hc Hu) as Hp.
    rewrite <- (take_take_le (L u) k q) by lia. apply take_prefix_of; [|rewrite length_take; lia].
    apply Hp, (committed_led _ _ _ (λ p, SInv_acks_nil _ _ _ _ p HS) Hc'). }
  intros Hc Hc' Hk Hk'. destruct (Z.le_ge_cases t t'); [by eapply Hle|symmetry; by eapply Hle].
Qed.

(** An entry a node has committed, in the later history [H]. *)
Lemma commits_entry H n k :
  commits H (n_term n) (n_commitIndex n) (n_log n) → n_lastIncludedIndex n = 0 → 0 < k <= n_commitIndex n →
  ∃ t m e, committed H t m ∧ t <= n_term n ∧ (Z.to_nat k <= m)%nat ∧
    entryAt n k = Some e ∧ take (Z.to_nat k) (h_log H t) !! Z.to_nat (k - 1) = Some e.
Proof.
  intros [_ Hc] Hb Hk. destruct Hc as (t & m & Hcm & Ht & Hm & Hl & Hp); [lia|].
  destruct (lookup_lt_is_Some_2 (n_log n) (Z.to_nat (k - 1))) as [e He]; [unfold zlen in Hl; lia|].
  exists t, m, e. split_and!; try done; [lia|rewrite entryAt_unbased; (done || lia)|].
  rewrite lookup_take_lt by lia. eapply prefix_lookup_Some; [|done]. rewrite lookup_take_lt; [done|lia].
Qed.

Lemma SInv_reach c : run members no_hazard (init members) c → ∃ L B S, SInv L B S c.
Proof. intros Hr. destruct (SInv_run _ _ _ _ _ Hr SInv_init) as (L & B & S & HS & _). by exists L, B, S. Qed.

(** What the nodes of [c1] committed, seen from [c2]. *)
Lemma commits_later c1 c2 :
  run members no_hazard (init members) c1 → run members no_hazard c1 c2 →
  ∃ L B S, SInv L B S c2 ∧ ∀ a, a ∈ members → n_lastIncludedIndex (node c1 a) = 0 ∧ 0 <= n_lastApplied (node c1 a) ∧
    commits (hist c2 L B S) (n_term (node c1 a)) (n_commitIndex (node c1 a)) (n_log (node c1 a)).
Proof.
  intros H1 H2. destruct (SInv_reach c1 H1) as (L1 & B1 & S1 & HS1).
  destruct (SInv_run _ _ _ _ _ H2 HS1) as (L & B & S & HS & G). exists L, B, S. split; [done|]. intros a Ha.
  pose proof (si_local _ _ _ _ HS1 a Ha) as Hl. split_and!; [apply (lm_node _ _ _ _ (si_logs _ _ _ _ HS1) a Ha)|apply Hl|].
  eapply commits_grow; [done|intros p; by apply SInv_acks_nil|apply Hl].
Qed.

(** What one node committed at some time and another at that time or later. *)
Lemma committed_same c1 c2 a b k :
  run members no_hazard (init members) c1 → run members no_hazard c1 c2 → a ∈ members → b ∈ members →
  0 < k <= n_commitIndex (node c1 a) → k <= n_commitIndex (node c2 b) →
  ∃ e, entryAt (node c1 a) k = Some e ∧ entryAt (node c2 b) k = Some e.
Proof.
  intros H1 H2 Ha Hb Hk Hk'. destruct (commits_later c1 c2 H1 H2) as (L & B & S & HS & Hc1).
  destruct (Hc1 a Ha) as (Ba & _ & Ca).
  destruct (commits_entry _ _ k Ca Ba Hk) as (t & m & e & Hcm & _ & Hm & He & Hx).
  destruct (commits_entry (hist c2 L B S) (node c2 b) k) as (t' & m' & e' & Hcm' & _ & Hm' & He' & Hx');
    [apply (si_local _ _ _ _ HS b Hb)|apply (lm_node _ _ _ _ (si_logs _ _ _ _ HS) b Hb)|lia|].
  simpl in Hx, Hx'. rewrite (committed_agree L B S c2 t m t' m' _ HS Hcm Hcm' Hm Hm') in Hx.
  exists e. split; [done|]. congruence.
Qed.

(** C2 (state machine safety): in every execution of the cluster from the empty
    disks that meets none of the hazards, however messages are delayed,
    reordered, duplicated or lost, writes fail and nodes crash: an entry that a
    node committed at some time is the entry that any node commits at that
    index at that time or later, and both nodes hold it; so the apply loops
    execute the same entry for an index, on every node and after every crash. *)
Theorem state_machine_safety c1 c2 a b :
  run members no_hazard (init members) c1 → run members no_hazard c1 c2 → a ∈ members → b ∈ members →
  (∀ k, 0 < k <= n_commitIndex (node c1 a) → k <= n_commitIndex (node c2 b) →
     ∃ e, entryAt (node c1 a) k = Some e ∧ entryAt (node c2 b) k = Some e) ∧
  (∀ k x y, apply_pick (node c1 a) = Some (k, x) → apply_pick (node c2 b) = Some (k, y) →
     ∃ e, x = Some e ∧ y = Some e).
Proof.
  intros H1 H2 Ha Hb. split; [intros; by apply committed_same|]. intros k x y. unfold apply_pick.
  destruct (commits_later c1 c2 H1 H2) as (L & B & S & _ & Hc1). destruct (Hc1 a Ha) as (_ & La & _).
  destruct (Z.leb_spec (n_commitIndex (node c1 a)) (n_lastApplied (node c1 a))); [done|].
  destruct (Z.leb_spec (n_commitIndex (node c2 b)) (n_lastApplied (node c2 b))); [done|].
  intros [= <- <-] [= Heq <-]. rewrite Heq. apply committed_same; (done || lia).
Qed.

(** C4 (leader completeness): in every execution that meets none of the
    hazards, an entry that a node committed at some time is in the log of every
    leader of that time or later whose term is not below the node's term, at the
    same index. *)
Theorem leaders_hold_committed c1 c2 a b k :
  run members no_hazard (init members) c1 → run members no_hazard c1 c2 → a ∈ members → b ∈ members →
  n_role (node c2 b) = RoleLeader → n_term (node c1 a) <= n_term (node c2 b) → 0 < k <= n_commitIndex (node c1 a) →
  ∃ e, entryAt (node c1 a) k = Some e ∧ entryAt (node c2 b) k = Some e.
Proof.
  intros H1 H2 Ha Hb Hr Ht Hk. destruct (commits_later c1 c2 H1 H2) as (L & B & S & HS & Hc1).
  destruct (Hc1 a Ha) as (Ba & La & Ca). destruct (commits_entry _ _ k Ca Ba Hk) as (t & m & e & Hcm & Hta & Hm & He & Hx).
  destruct (lm_node _ _ _ _ (si_logs _ _ _ _ HS) b Hb) as [[Bb _] _ _ Hlead]. exists e. split; [done|].
  rewrite entryAt_unbased, Hlead by (done || lia). simpl in Hx. rewrite lookup_take_lt in Hx by lia.
  eapply prefix_lookup_Some; [|apply (committed_in L B S c2 t m); try done; [lia|]].
  - rewrite lookup_take_lt; [done|lia].
  - exists b. by apply (li_lead _ _ _ _ _ (inv_local _ _ (si_elections _ _ _ _ HS) b Hb)).
Qed.
End consensus.

(** The execution of [commit_by_A], and one after it in which B, which learnt of the
    commit, is elected next. *)
Lemma handover_runs :
  ∃ c1 c2, run abc no_hazard (init abc) c1 ∧ run abc no_hazard c1 c2 ∧
    n_commitIndex (node c1 "A"%string) = 1 ∧ n_commitIndex (node c2 "B"%string) = 1 ∧
    n_term (node c1 "A"%string) = 1 ∧ n_role (node c2 "B"%string) = RoleLeader ∧ n_term (node c2 "B"%string) = 2.
Proof.
  assert (H1 : match runs abc no_hazard commit_by_A (init abc) with
    | Some c1 => n_commitIndex (node c1 "A"%string) = 1 ∧ n_term (node c1 "A"%string) = 1 ∧
        match runs abc no_hazard (election_of "B" 2 1 1 ["C"%string]) c1 with
        | Some c2 => n_commitIndex (node c2 "B"%string) = 1 ∧ n_role (node c2 "B"%string) = RoleLeader ∧ n_term (node c2 "B"%string) = 2
        | None => False end
    | None => False end) by (vm_compute; repeat split).
  destruct (runs abc no_hazard commit_by_A (init abc)) as [c1|] eqn:E1; [|destruct H1]. destruct H1 as (HA & HT & H2).
  destruct (runs abc no_hazard (election_of "B" 2 1 1 ["C"%string]) c1) as [c2|] eqn:E2; [|destruct H2].
  destruct H2 as (HB & HR & HT2). exists c1, c2. pose proof (runs_run abc _ _ _ _ _ E1 (run_refl _ _ _)) as R1.
  pose proof (runs_run abc _ _ _ _ _ E2 (run_refl _ _ _)) as R2. clear E1 E2.
  repeat (split; [assumption|]). assumption.
Qed.

Lemma state_machine_safety_witness :
  ∃ c1 c2 e, run abc no_hazard (init abc) c1 ∧ run abc no_hazard c1 c2 ∧
    entryAt (node c1 "A"%string) 1 = Some e ∧ entryAt (node c2 "B"%string) 1 = Some e.
Proof.
  destruct handover_runs as (c1 & c2 & H1 & H2 & HA & HB & _). exists c1, c2.
  destruct (state_machine_safety abc ltac:(apply (bool_decide_unpack (NoDup abc)); vm_compute; exact I) ltac:(vm_compute; lia)
    c1 c2 "A"%string "B"%string H1 H2 ltac:(vm_compute; left) ltac:(vm_compute; right; left)) as [Hs _].
  destruct (Hs 1) as (e & Ha & Hb); [lia|lia|]. exists e. split_and!; assumption.
Defined.

Lemma leaders_hold_committed_witness :
  ∃ c1 c2 e, run abc no_hazard (init abc) c1 ∧ run abc no_hazard c1 c2 ∧
    n_role (node c2 "B"%string) = RoleLeader ∧ entryAt (node c1 "A"%string) 1 = Some e ∧ entryAt (node c2 "B"%string) 1 = Some e.
Proof.
  destruct handover_runs as (c1 & c2 & H1 & H2 & HA & _ & HT & HR & HT2). exists c1, c2.
  destruct (leaders_hold_committed abc ltac:(apply (bool_decide_unpack (NoDup abc)); vm_compute; exact I) ltac:(vm_compute; lia)
    c1 c2 "A"%string "B"%string 1 H1 H2 ltac:(vm_compute; left) ltac:(vm_compute; right; left) HR) as (e & Ha & Hb); [lia|lia|].
  exists e. split_and!; assumption.
Defined.
