(* ===== verification/RaftHazards.v ===== *)
(** * RaftHazards: each broken rule loses committed entries

    [RaftConsensus] shows that executions that meet no hazard agree on what is
    committed.  Here is, for hazards the code can meet, an execution that meets
    only that one and after which two nodes have committed different entries at
    the same index. *)

From S2P Require Import Prelude GoLib Engine RaftNode RaftLeader RaftApply RaftLog RaftCommit RaftCluster RaftSafety.

(** Two nodes committed different entries at one index. *)
Definition diverged (members : list string) (c : Cluster) : Prop :=
  ∃ a b k e e', a ∈ members ∧ b ∈ members ∧
    0 < k <= n_commitIndex (l_node (c_local c a)) ∧ k <= n_commitIndex (l_node (c_local c b)) ∧
    entryAt (l_node (c_local c a)) k = Some e ∧ entryAt (l_node (c_local c b)) k = Some e' ∧ e ≠ e'.

Definition abcde : list string := ["A"; "B"; "C"; "D"; "E"]%string.

(** A and B both lead term 2 (see [stale_tail_schedule]); C stores the entry of
    A and then takes the entry of B, of the same index and term, for stored. *)
Definition tail_diverges : list action :=
  stale_tail_schedule ++ beat "A" "C" ++ beat "B" "C" ++
  [APropose "A" (put "x"); APersist "A"] ++ push "A" "C" ++ [APropose "B" (put "y"); APersist "B"] ++ beat "B" "C".

(** A's first request to B is delayed; the second stores two entries, which A
    commits; the first arrives and drops one of them, and B leads with C. *)
Definition short_append_diverges : list action :=
  election_of_A ++ beat "A" "B" ++
  [APropose "A" (put "x"); APersist "A"; AReplicate "A" "B"; ALost "A" "B"; APropose "A" (put "y"); APersist "A"] ++
  push "A" "B" ++ [ADeliver 2; AAnswer "B"] ++
  election_of "B" 2 1 1 ["C"%string] ++ [APropose "B" (put "z"); APersist "B"] ++ beat "B" "C" ++ beat "B" "C" ++ push "B" "C".

(** B acknowledges the retry of a request whose entry it has not saved yet, A
    commits the entry, B crashes and leads with C. *)
Definition unsaved_ack_diverges : list action :=
  election_of "A" 1 0 0 ["B"%string] ++ beat "A" "B" ++
  [APropose "A" (put "x"); APersist "A"; AReplicate "A" "B"; ADeliver 0; ALost "A" "B"] ++ beat "A" "B" ++ [ACrash "B"] ++
  election_of "B" 2 0 0 ["C"%string] ++ beat "B" "C" ++ [APropose "B" (put "y"); APersist "B"] ++ push "B" "C".

(** A commits an entry that B saved and A did not; A crashes and leads with C. *)
Definition unsaved_commit_diverges : list action :=
  election_of_A ++ beat "A" "B" ++ [APropose "A" (put "x")] ++ push "A" "B" ++ beat "A" "B" ++ [ACrash "A"] ++
  election_of "A" 2 0 0 ["C"%string] ++ beat "A" "C" ++ [APropose "A" (put "y"); APersist "A"] ++ push "A" "C".

(** In term 1 B acknowledges two entries of A, which C replaces on A in term 2.
    In term 3 A leads again, counts B for the second index, and commits with D;
    in term 4 C leads with B and E. *)
Definition stale_match_diverges : list action :=
  election_of "A" 1 0 0 ["B"; "D"]%string ++ beat "A" "B" ++
  [APropose "A" (put "x"); APropose "A" (put "y"); APersist "A"] ++ push "A" "B" ++
  [AStart "C"; ACampaign "C"; AEnd "C"] ++ election_of "C" 2 0 0 ["D"; "E"]%string ++ beat "C" "D" ++
  [APropose "C" (put "f"); APersist "C"] ++ push "C" "A" ++
  election_of "A" 3 1 2 ["D"; "E"]%string ++ [APropose "A" (put "g"); APersist "A"] ++ push "A" "D" ++ beat "C" "E" ++
  election_of "C" 4 1 2 ["B"; "E"]%string ++ [APropose "C" (put "h"); APersist "C"] ++ push "C" "E" ++ push "C" "B".

(** The entries at [k] that [a] and [b] have committed differ. *)
Definition differs (a b : string) (k : Z) (c : Cluster) : bool :=
  let na := l_node (c_local c a) in
  let nb := l_node (c_local c b) in
  (0 <? k) && (k <=? n_commitIndex na) && (k <=? n_commitIndex nb) &&
  match entryAt na k, entryAt nb k with Some e, Some e' => bool_decide (e ≠ e') | _, _ => false end.

Lemma runs_diverge members ok sched a b k :
  bool_decide (a ∈ members) && bool_decide (b ∈ members) && from_option (differs a b k) false (runs members ok sched (init members)) = true →
  ∃ c, run members ok (init members) c ∧ diverged members c.
Proof.
  intros [[Ha%bool_decide_eq_true Hb%bool_decide_eq_true]%andb_true_iff Hd]%andb_true_iff.
  destruct (runs members ok sched (init members)) as [c|] eqn:E; [|done]. exists c. split.
  { apply (runs_run _ _ _ _ _ _ E). constructor. }
  simpl in Hd. unfold differs in Hd. destruct (entryAt _ _) as [e|] eqn:Ea; [|by rewrite andb_false_r in Hd].
  destruct (entryAt (l_node (c_local c b)) k) as [e'|] eqn:Eb; [|by rewrite andb_false_r in Hd].
  apply andb_true_iff in Hd as [Hd He%bool_decide_eq_true]. exists a, b, k, e, e'. split_and!; (done || lia).
Qed.

(** Each hazard loses committed entries: for each of five hazards (a
    candidate whose old election clears its vote, a delayed request that
    drops entries, an acknowledgement or a commit of entries that are not
    saved, a leader elected with old match indices) there is an execution of a
    cluster of three or five nodes that meets only this hazard, and after
    which two nodes have committed different entries at the same index. *)
Theorem hazards_lose_commits :
  Forall (λ h, ∃ members c, NoDup members ∧ (3 <= length members)%nat ∧
      run members (only h) (init members) c ∧ diverged members c)
    [StaleTail; ShortAppend; UnsavedAck; UnsavedCommit; StaleMatch].
Proof.
  assert (N3 : NoDup abc ∧ (3 <= length abc)%nat) by (split; [by apply (bool_decide_unpack _)|simpl; lia]).
  assert (N5 : NoDup abcde ∧ (3 <= length abcde)%nat) by (split; [by apply (bool_decide_unpack _)|simpl; lia]).
  repeat constructor; [exists abc..|exists abcde].
  - destruct (runs_diverge abc (only StaleTail) tail_diverges "A" "B" 1 ltac:(by vm_compute)) as (c & ?). naive_solver.
  - destruct (runs_diverge abc (only ShortAppend) short_append_diverges "A" "B" 2 ltac:(by vm_compute)) as (c & ?). naive_solver.
  - destruct (runs_diverge abc (only UnsavedAck) unsaved_ack_diverges "A" "B" 1 ltac:(by vm_compute)) as (c & ?). naive_solver.
  - destruct (runs_diverge abc (only UnsavedCommit) unsaved_commit_diverges "A" "B" 1 ltac:(by vm_compute)) as (c & ?). naive_solver.
  - destruct (runs_diverge abcde (only StaleMatch) stale_match_diverges "A" "C" 2 ltac:(by vm_compute)) as (c & ?). naive_solver.
Qed.
