(* ===== verification/RaftLoop.v ===== *)
(** * RaftLoop: the timed election loop of a node

    [Node.Loop] of election.go with its election timer and its heartbeat
    ticker, [resetTimer], and [Node.Stop] and [Node.Close].  The goroutine is a
    state machine whose phases are the calls it can be in; the clock is part of
    the state, so that the distances between elections are statements about
    runs.  The cluster of RaftCluster, with such a loop on every node, is a
    transition system of its own that refines the cluster without clocks. *)

From S2P Require Import Prelude GoLib Engine RaftNode RaftLeader RaftApply RaftLog RaftCluster RaftSafety.

(** ** Timers

    Timers as of Go 1.23: what is in the channel is decided when it is read,
    so a timer is only the time at which it fires, unless it was stopped or its
    value was received. *)
Record Timer : Type := mkTimer { tm_at : option Z }.

Definition NewTimer (now d : Z) : Timer := mkTimer (Some (now + d)).
Definition Timer_ready (now : Z) (t : Timer) : bool := match tm_at t with Some a => a <=? now | None => false end.
Definition Timer_recv (t : Timer) : Timer := mkTimer None.
Definition Timer_Stop (t : Timer) : bool * Timer := (bool_decide (is_Some (tm_at t)), mkTimer None).
Definition Timer_Reset (now d : Z) (t : Timer) : Timer := mkTimer (Some (now + d)).

(** A ticker drops the ticks that nobody waited for. *)
Record Ticker : Type := mkTicker { tk_period : Z; tk_next : Z }.
Definition NewTicker (now d : Z) : Ticker := mkTicker d (now + d).
Definition Ticker_ready (now : Z) (t : Ticker) : bool := tk_next t <=? now.
Definition Ticker_recv (now : Z) (t : Ticker) : Ticker :=
  mkTicker (tk_period t) (tk_next t + tk_period t * (1 + (now - tk_next t) / tk_period t)).

Definition resetTimer (now d : Z) (t : Timer) : Timer :=
  let '(active, t) := Timer_Stop t in
  let t := if negb active then (if Timer_ready now t then Timer_recv t else t) else t in
  Timer_Reset now d t.

(** ** The goroutine *)

Definition heartbeatInterval : Z := 100 * 1000000.

(** Where the goroutine is: at the [select], in [startElection], in
    [sendHeartbeats], before the check for a quorum, or gone. *)
Inductive phase : Type := Selecting | Electing | Beating | Checking | Returned.

(** [lp_done] is the cancelled context, [lp_stop] the closed channel [n.stop]. *)
Record Loop : Type := mkLoop {
  lp_election : Timer;
  lp_heartbeat : Ticker;
  lp_phase : phase;
  lp_done : bool;
  lp_stop : bool
}.

Definition set_election (t : Timer) (lp : Loop) : Loop := mkLoop t (lp_heartbeat lp) (lp_phase lp) (lp_done lp) (lp_stop lp).
Definition set_heartbeat (t : Ticker) (lp : Loop) : Loop := mkLoop (lp_election lp) t (lp_phase lp) (lp_done lp) (lp_stop lp).
Definition set_phase (p : phase) (lp : Loop) : Loop := mkLoop (lp_election lp) (lp_heartbeat lp) p (lp_done lp) (lp_stop lp).

(** [Loop] up to its first [select]; [r] is drawn by [electionTimeout]. *)
Definition Loop_enter (now r : Z) : Loop :=
  mkLoop (NewTimer now (electionTimeout r)) (NewTicker now heartbeatInterval) Selecting false false.

Inductive loop_case : Type := CaseDone | CaseStop | CaseReset | CaseElection | CaseHeartbeat.

(** The cases of the [select] that can be taken. *)
Definition ready (now : Z) (n : Node) (lp : Loop) (c : loop_case) : bool :=
  match c with
  | CaseDone => lp_done lp
  | CaseStop => lp_stop lp
  | CaseReset => n_resetElection n
  | CaseElection => Timer_ready now (lp_election lp)
  | CaseHeartbeat => Ticker_ready now (lp_heartbeat lp)
  end.

(** A case of the [select], up to the call it makes.  Only this goroutine makes
    a node a leader, so the role read by the election case holds until
    [startElection] takes the lock, and the two sections are one. *)
Definition Loop_take (c : loop_case) (now r : Z) (lp : Loop) (l : Local) : Loop * Local :=
  match c with
  | CaseDone | CaseStop => (set_phase Returned lp, l)
  | CaseReset =>
      (set_election (resetTimer now (electionTimeout r) (lp_election lp)) lp, set_node (clear_reset (l_node l)) l)
  | CaseElection =>
      let lp := set_election (Timer_recv (lp_election lp)) lp in
      if bool_decide (n_role (l_node l) = RoleLeader) then
        (set_election (Timer_Reset now (electionTimeout r) (lp_election lp)) lp, l)
      else
        let '(n, req) := election_begin (l_node l) in
        (set_phase Electing lp, set_elec (Some (mkElection req false 1 [])) (set_node n l))
  | CaseHeartbeat =>
      let lp := set_heartbeat (Ticker_recv now (lp_heartbeat lp)) lp in
      if bool_decide (n_role (l_node l) = RoleLeader) then (set_phase Beating lp, l) else (lp, l)
  end.

(** [startElection] returned. *)
Definition Loop_elected (now r : Z) (lp : Loop) : Loop :=
  set_phase Selecting (set_election (Timer_Reset now (electionTimeout r) (lp_election lp)) lp).

(** ** Stop and Close

    [Stop] looks at the channel and then closes it; closing a closed channel
    panics ([None]). *)
Definition close_stop (lp : Loop) : option Loop :=
  if lp_stop lp then None
  else Some (mkLoop (lp_election lp) (lp_heartbeat lp) (lp_phase lp) (lp_done lp) true).
Definition Stop_rest (closed : bool) (lp : Loop) : option Loop := if closed then Some lp else close_stop lp.
Definition Stop (lp : Loop) : option Loop := Stop_rest (lp_stop lp) lp.

Definition Node_Close {S} (Close : S → res unit * S) (lp : Loop) (s : S) : option (res unit * Loop * S) :=
  match Stop lp with
  | None => None
  | Some lp => let '(r, s) := Close s in Some (r, lp, s)
  end.

(** ** The cluster with its loops

    [t_marks] is the history of the election timers, newest first: the node,
    the time, and whether an election started or the timer was set.  No step
    reads it. *)
Inductive mark : Type := Armed | Started.
Record Timed : Type := mkTimed {
  t_cluster : Cluster;
  t_now : Z;
  t_loop : string → Loop;
  t_marks : list (string * Z * mark)
}.

Definition at_node (i : string) (lp : Loop) (f : string → Loop) : string → Loop :=
  λ j, if decide (j = i) then lp else f j.

(** What an iteration leaves in the history. *)
Definition marks_of (i : string) (now : Z) (c : loop_case) (n : Node) : list (string * Z * mark) :=
  match c with
  | CaseReset => [(i, now, Armed)]
  | CaseElection => [(i, now, if bool_decide (n_role n = RoleLeader) then Armed else Started)]
  | _ => []
  end.

Definition drawn (r : Z) : Prop := 0 <= r < electionTimeout_spread.

(** What the other goroutines may do: anything the cluster does, but they start
    no election and do not receive from [n.resetElection]. *)
Definition not_loop (c c' : Cluster) : Prop :=
  ∀ i, (l_elec (c_local c i) = None → l_elec (c_local c' i) = None) ∧
       (n_resetElection (l_node (c_local c i)) = true → n_resetElection (l_node (c_local c' i)) = true).

Section timed.
Context (members : list string).

Inductive tstep : option hazard → Timed → Timed → Prop :=
| T_time T d :
    0 <= d → tstep None T (mkTimed (t_cluster T) (t_now T + d) (t_loop T) (t_marks T))
| T_other T h c' :
    step members h (t_cluster T) c' → not_loop (t_cluster T) c' →
    tstep h T (mkTimed c' (t_now T) (t_loop T) (t_marks T))
| T_take T i c r lp l' (l := c_local (t_cluster T) i) :
    i ∈ members → lp_phase (t_loop T i) = Selecting → ready (t_now T) (l_node l) (t_loop T i) c = true → drawn r →
    Loop_take c (t_now T) r (t_loop T i) l = (lp, l') →
    tstep None T (mkTimed (update i l' [] (t_cluster T)) (t_now T) (at_node i lp (t_loop T))
      (marks_of i (t_now T) c (l_node l) ++ t_marks T))
| T_elected T i r :
    i ∈ members → lp_phase (t_loop T i) = Electing → l_elec (c_local (t_cluster T) i) = None → drawn r →
    tstep None T (mkTimed (t_cluster T) (t_now T) (at_node i (Loop_elected (t_now T) r (t_loop T i)) (t_loop T))
      ((i, t_now T, Armed) :: t_marks T))
| T_beaten T i acks (l := c_local (t_cluster T) i) :
    i ∈ members → lp_phase (t_loop T i) = Beating →
    tstep None T (mkTimed (update i (set_node (heartbeat_end (t_now T) acks (l_node l)) l) [] (t_cluster T)) (t_now T)
      (at_node i (set_phase Checking (t_loop T i)) (t_loop T)) (t_marks T))
| T_checked T i (l := c_local (t_cluster T) i) :
    i ∈ members → lp_phase (t_loop T i) = Checking →
    tstep (quorum_hazard (t_now T) (l_node l)) T
      (mkTimed (update i (set_node (quorum_check (t_now T) (l_node l)) l) [] (t_cluster T)) (t_now T)
        (at_node i (set_phase Selecting (t_loop T i)) (t_loop T)) (t_marks T))
| T_stop T i lp :
    i ∈ members → Stop (t_loop T i) = Some lp →
    tstep None T (mkTimed (t_cluster T) (t_now T) (at_node i lp (t_loop T)) (t_marks T))
| T_restart T i r (l := c_local (t_cluster T) i) :
    i ∈ members → drawn r →
    tstep None T (mkTimed (update i (boot members i (l_disk l)) [] (t_cluster T)) (t_now T)
      (at_node i (Loop_enter (t_now T) r) (t_loop T)) ((i, t_now T, Armed) :: t_marks T)).

(** Every node enters its loop at time 0. *)
Definition tinit (r : string → Z) : Timed :=
  mkTimed (init members) 0 (λ i, Loop_enter 0 (r i)) ((λ i, (i, 0, Armed)) <$> members).

Inductive trun (ok : option hazard → bool) : Timed → Timed → Prop :=
| trun_refl T : trun ok T T
| trun_snoc T1 T2 T3 h : trun ok T1 T2 → tstep h T2 T3 → ok h = true → trun ok T1 T3.

(** ** The loops refine the cluster *)

(** An election is in progress only while the loop waits for it. *)
Definition elections_looped (T : Timed) : Prop :=
  ∀ i, i ∈ members → lp_phase (t_loop T i) ≠ Electing → l_elec (c_local (t_cluster T) i) = None.

Lemma set_node_same l : set_node (l_node l) l = l.
Proof. by destruct l. Qed.

(** A step of the loop that leaves the node alone is a round of heartbeats
    without a majority. *)
Lemma step_idle i c : i ∈ members → step members None c (update i (c_local c i) [] c).
Proof.
  intros Hi. pose proof (S_heartbeat_end members c i 0 0 Hi) as Hs. unfold heartbeat_end in Hs.
  assert ((majority (n_peers (l_node (c_local c i))) <=? 0) = false) as E.
  { apply Z.leb_gt. unfold majority. pose proof (zlen_nonneg (n_peers (l_node (c_local c i)))).
    Z.to_euclidean_division_equations. lia. }
  by rewrite E, andb_false_r, set_node_same in Hs.
Qed.

Lemma step_take i cs now r lp c lp' l' :
  i ∈ members → l_elec (c_local c i) = None → Loop_take cs now r lp (c_local c i) = (lp', l') →
  step members None c (update i l' [] c).
Proof.
  intros Hi He. destruct cs; simpl; try (intros [= <- <-]; by apply step_idle).
  - intros [= <- <-]. by apply S_heard.
  - case_bool_decide as Hr; [intros [= <- <-]; by apply step_idle|].
    intros [= <- <-]. by apply (S_start members c i).
  - case_bool_decide; intros [= <- <-]; by apply step_idle.
Qed.

Lemma tstep_cluster h T T' :
  elections_looped T → tstep h T T' → t_cluster T' = t_cluster T ∧ h = None ∨ step members h (t_cluster T) (t_cluster T').
Proof.
  intros Hl Hs. destruct Hs; simpl; auto; right.
  - eapply step_take; [done| |done]. apply Hl; congruence.
  - by apply S_heartbeat_end.
  - by apply S_quorum_loss.
  - by apply S_crash.
Qed.

Lemma at_node_same i lp f : at_node i lp f i = lp.
Proof. unfold at_node. by rewrite decide_True. Qed.
Lemma at_node_other i j lp f : j ≠ i → at_node i lp f j = f j.
Proof. intros. unfold at_node. by rewrite decide_False. Qed.
Lemma update_same i l ms c : c_local (update i l ms c) i = l.
Proof. simpl. by rewrite decide_True. Qed.
Lemma update_other i j l ms c : j ≠ i → c_local (update i l ms c) j = c_local c j.
Proof. intros. simpl. by rewrite decide_False. Qed.

Lemma Loop_take_elec c now r lp l lp' l' :
  Loop_take c now r lp l = (lp', l') → l_elec l = None → lp_phase lp = Selecting → lp_phase lp' ≠ Electing → l_elec l' = None.
Proof. destruct c; simpl; try case_bool_decide; by intros [= <- <-]. Qed.

Lemma elections_looped_step h T T' : elections_looped T → tstep h T T' → elections_looped T'.
Proof.
  intros Hl Hs. destruct Hs as [T d Hd|T h c' Hs Hn|T i c r lp l' l Hi Hp Hc Hr Ht|T i r Hi Hp He Hr|T i acks l Hi Hp
    |T i l Hi Hp|T i lp Hi Hp|T i r l Hi Hr]; intros j Hj; cbn [t_loop t_cluster].
  1: apply Hl, Hj.
  1: intros Hx; apply Hn; by apply Hl.
  all: destruct (decide (j = i)) as [->|Hne];
    [rewrite ?update_same, ?at_node_same|rewrite ?update_other, ?at_node_other by done; by apply Hl]; simpl; try done.
  - eapply Loop_take_elec; [done| |done]. apply Hl; congruence.
  - intros _. apply Hl; congruence.
  - intros _. apply Hl; congruence.
  - intros Hx. apply Hl; [done|]. revert Hp Hx. unfold Stop, Stop_rest, close_stop.
    destruct (lp_stop _); intros [= <-]; done.
Qed.

Lemma trun_looped ok r T : trun ok (tinit r) T → elections_looped T.
Proof.
  intros Hr. remember (tinit r) as T0 eqn:E. induction Hr as [|T1 T2 T3 h _ IH Hs _]; [by subst|].
  eapply elections_looped_step; [|done]. by apply IH.
Qed.

Lemma trun_cluster ok r T : trun ok (tinit r) T → run members ok (init members) (t_cluster T).
Proof.
  intros Hr. remember (tinit r) as T0 eqn:E. induction Hr as [|T1 T2 T3 h Hr IH Hs Hh]; [subst; constructor|].
  subst. destruct (tstep_cluster h T2 T3) as [[-> _]|Hs']; [by eapply trun_looped|done|by apply IH|].
  econstructor; [by apply IH|done|done].
Qed.

(** ** The distance between elections *)

(** Every election of a node is at least [electionTimeoutMin] later than
    everything its election timer went through before. *)
Fixpoint paced (ms : list (string * Z * mark)) : Prop :=
  match ms with
  | [] => True
  | (i, t, m) :: ms =>
      (m = Started → ∀ t' m', (i, t', m') ∈ ms → t' + electionTimeoutMin <= t) ∧ paced ms
  end.

(** The timer of a loop, against the history of its node. *)
Record timer_ok (i : string) (T : Timed) : Prop := {
  tok_past : ∀ t m, (i, t, m) ∈ t_marks T → t <= t_now T;
  tok_after : ∀ a t m, tm_at (lp_election (t_loop T i)) = Some a → (i, t, m) ∈ t_marks T → t + electionTimeoutMin <= a;
  tok_before : ∀ a, tm_at (lp_election (t_loop T i)) = Some a →
    ∃ t, (i, t, Armed) ∈ t_marks T ∧ a < t + electionTimeoutMax;
  tok_set : lp_phase (t_loop T i) ≠ Electing → is_Some (tm_at (lp_election (t_loop T i)));
  tok_period : tk_period (lp_heartbeat (t_loop T i)) = heartbeatInterval
}.

Record TInv (T : Timed) : Prop := {
  ti_paced : paced (t_marks T);
  ti_timer : ∀ i, i ∈ members → timer_ok i T
}.

Lemma drawn_bounds r : drawn r → electionTimeoutMin <= electionTimeout r < electionTimeoutMax.
Proof.
  unfold drawn. change electionTimeout_spread with 500. unfold electionTimeout, electionTimeoutMin, electionTimeoutMax. lia.
Qed.

(** The timer of [i] is set now. *)
Lemma timer_ok_armed i T c' lp r :
  timer_ok i T → drawn r → tm_at (lp_election lp) = Some (t_now T + electionTimeout r) →
  tk_period (lp_heartbeat lp) = heartbeatInterval →
  timer_ok i (mkTimed c' (t_now T) (at_node i lp (t_loop T)) ((i, t_now T, Armed) :: t_marks T)).
Proof.
  intros [H1 _ _ _ _] Hr Ha Hp. pose proof (drawn_bounds r Hr) as Hb.
  split; cbn [t_loop t_marks t_now]; rewrite ?at_node_same, ?Ha.
  - intros t m [[= -> ->]|Hm]%elem_of_cons; [lia|by eapply H1].
  - intros a t m [= <-] [[= -> ->]|Hm]%elem_of_cons; [lia|]. pose proof (H1 _ _ Hm). lia.
  - intros a [= <-]. exists (t_now T). split; [apply elem_of_cons; by left|lia].
  - done.
  - done.
Qed.

(** A step that leaves the timer of [i] and its history alone. *)
Lemma timer_ok_kept i T c' now' f ms :
  timer_ok i T → t_now T <= now' → lp_election (f i) = lp_election (t_loop T i) →
  tk_period (lp_heartbeat (f i)) = tk_period (lp_heartbeat (t_loop T i)) →
  (lp_phase (f i) ≠ Electing → lp_phase (t_loop T i) ≠ Electing) →
  (∀ t m, (i, t, m) ∈ ms ↔ (i, t, m) ∈ t_marks T) →
  timer_ok i (mkTimed c' now' f ms).
Proof.
  intros [H1 H2 H3 H4 H5] Hn He Hp Hph Hm. split; simpl; rewrite ?He, ?Hp.
  - intros t m ?%Hm. etrans; [by eapply H1|done].
  - intros a t m Ha ?%Hm. by eapply H2.
  - intros a Ha. destruct (H3 a Ha) as (t & Ht & ?). exists t. by rewrite Hm.
  - auto.
  - done.
Qed.

Lemma other_marks i j t now m m' (ms : list (string * Z * mark)) :
  j ≠ i → (j, t, m') ∈ (i, now, m) :: ms ↔ (j, t, m') ∈ ms.
Proof. intros Hne. rewrite elem_of_cons. split; [intros [[=]|]; done|by right]. Qed.

(** The timer of [i] fired and its node campaigns. *)
Lemma timer_ok_started i T c' lp :
  timer_ok i T → tm_at (lp_election lp) = None → lp_phase lp = Electing →
  tk_period (lp_heartbeat lp) = heartbeatInterval →
  timer_ok i (mkTimed c' (t_now T) (at_node i lp (t_loop T)) ((i, t_now T, Started) :: t_marks T)).
Proof.
  intros [H1 _ _ _ _] Ha Hph Hp. split; cbn [t_loop t_marks t_now]; rewrite ?at_node_same, ?Ha; try done.
  intros t m [[= -> ->]|Hm]%elem_of_cons; [lia|by eapply H1].
Qed.

Lemma fired_late i T : timer_ok i T → Timer_ready (t_now T) (lp_election (t_loop T i)) = true →
  ∀ t m, (i, t, m) ∈ t_marks T → t + electionTimeoutMin <= t_now T.
Proof.
  intros Ht. unfold Timer_ready. destruct (tm_at _) as [a|] eqn:Ha; [|done]. intros Hle%Z.leb_le t m Hm.
  pose proof (tok_after _ _ Ht a t m Ha Hm). lia.
Qed.

Lemma TInv_mark i T c' lp m :
  TInv T → (m = Started → ∀ t m', (i, t, m') ∈ t_marks T → t + electionTimeoutMin <= t_now T) →
  (timer_ok i T → timer_ok i (mkTimed c' (t_now T) (at_node i lp (t_loop T)) ((i, t_now T, m) :: t_marks T))) →
  TInv (mkTimed c' (t_now T) (at_node i lp (t_loop T)) ((i, t_now T, m) :: t_marks T)).
Proof.
  intros [HP HT] Hm Hi. split; simpl; [done|]. intros j Hj. destruct (decide (j = i)) as [->|Hne]; [by apply Hi, HT|].
  apply (timer_ok_kept j T); rewrite ?at_node_other by done; try done; [by apply HT|]. intros. by apply other_marks.
Qed.

Lemma TInv_quiet i T c' lp :
  TInv T → lp_election lp = lp_election (t_loop T i) →
  tk_period (lp_heartbeat lp) = tk_period (lp_heartbeat (t_loop T i)) →
  (lp_phase lp ≠ Electing → lp_phase (t_loop T i) ≠ Electing) →
  TInv (mkTimed c' (t_now T) (at_node i lp (t_loop T)) (t_marks T)).
Proof.
  intros [HP HT] He Hp Hph. split; [done|]. intros j Hj. apply (timer_ok_kept j T); try done; [by apply HT|..];
    (destruct (decide (j = i)) as [->|Hne]; [by rewrite at_node_same|by rewrite at_node_other]).
Qed.

Lemma resetTimer_at now d t : tm_at (resetTimer now d t) = Some (now + d).
Proof. done. Qed.

Lemma TInv_take T i c r lp l' (l := c_local (t_cluster T) i) :
  TInv T → i ∈ members → lp_phase (t_loop T i) = Selecting → ready (t_now T) (l_node l) (t_loop T i) c = true → drawn r →
  Loop_take c (t_now T) r (t_loop T i) l = (lp, l') →
  TInv (mkTimed (update i l' [] (t_cluster T)) (t_now T) (at_node i lp (t_loop T))
    (marks_of i (t_now T) c (l_node l) ++ t_marks T)).
Proof.
  intros HT Hi Hp Hc Hr Ht. pose proof (tok_period _ _ (ti_timer _ HT i Hi)) as Hper.
  assert (Hne : lp_phase (t_loop T i) ≠ Electing) by congruence.
  destruct c; simpl in Ht |- *.
  - injection Ht as <- <-. by apply TInv_quiet.
  - injection Ht as <- <-. by apply TInv_quiet.
  - injection Ht as <- <-. apply TInv_mark; try done. intros. by apply (timer_ok_armed _ _ _ _ r).
  - revert Ht. case_bool_decide; intros [= <- <-]; apply TInv_mark; try done.
    + intros. by apply (timer_ok_armed _ _ _ _ r).
    + intros _. by apply fired_late; [apply HT|].
    + intros. by apply timer_ok_started.
  - revert Ht. case_bool_decide; intros [= <- <-]; by apply TInv_quiet.
Qed.

Lemma TInv_step h T T' : TInv T → tstep h T T' → TInv T'.
Proof.
  intros HT Hs. destruct Hs as [T d Hd|T h c' Hs Hn|T i c r lp l' l Hi Hp Hc Hr Ht|T i r Hi Hp He Hr|T i acks l Hi Hp
    |T i l Hi Hp|T i lp Hi Hp|T i r l Hi Hr].
  - split; [apply HT|]. intros j Hj. apply (timer_ok_kept j T); try done; [by apply HT|lia].
  - split; [apply HT|]. intros j Hj. apply (timer_ok_kept j T); try done. by apply HT.
  - by eapply TInv_take.
  - apply TInv_mark; try done. intros. apply (timer_ok_armed _ _ _ _ r); try done. by apply HT.
  - apply TInv_quiet; try done. by rewrite Hp.
  - apply TInv_quiet; try done. by rewrite Hp.
  - revert Hp. unfold Stop, Stop_rest, close_stop. destruct (lp_stop _); intros [= <-]; by apply TInv_quiet.
  - apply TInv_mark; try done. intros. by apply (timer_ok_armed _ _ _ _ r).
Qed.

Lemma paced_armed ms : Forall (λ x, x.2 = Armed) ms → paced ms.
Proof. induction 1 as [|[[i t] m] ms Hm _ IH]; [done|]. simpl in *. split; [congruence|done]. Qed.

Lemma TInv_init r : (∀ i, drawn (r i)) → TInv (tinit r).
Proof.
  intros Hr. split; simpl.
  - apply paced_armed, Forall_fmap, Forall_true. done.
  - intros i Hi. pose proof (drawn_bounds _ (Hr i)) as Hb.
    assert (Hm : ∀ t m, (i, t, m) ∈ (λ i, (i, 0, Armed)) <$> members → t = 0).
    { intros t m (j & [= _ -> _] & _)%list_elem_of_fmap. done. }
    split; simpl; try done.
    + intros t m ->%Hm. done.
    + intros a t m [= <-] ->%Hm. lia.
    + intros a [= <-]. exists 0. split; [apply list_elem_of_fmap; by exists i|lia].
Qed.

Lemma TInv_run ok r T : (∀ i, drawn (r i)) → trun ok (tinit r) T → TInv T.
Proof.
  intros Hr Ht. remember (tinit r) as T0 eqn:E. induction Ht as [|T1 T2 T3 h _ IH Hs _]; [subst; by apply TInv_init|].
  eapply TInv_step; [by apply IH|done].
Qed.

Lemma paced_split ms ms1 i t ms2 t' m :
  paced ms → ms = ms1 ++ (i, t, Started) :: ms2 → (i, t', m) ∈ ms2 → t' + electionTimeoutMin <= t.
Proof.
  revert ms. induction ms1 as [|[[j u] v] ms1 IH]; simpl; intros ms Hp -> Hm; simpl in Hp.
  - by eapply (proj1 Hp).
  - by eapply IH; [apply Hp|..].
Qed.

End timed.

(** ** What the loop does *)

(** C9 (the timed loops refine the cluster): every execution of the cluster in
    which elections, quorum checks and restarts are driven by the loops of its
    nodes, with their timers and the clock, is an execution of the cluster of
    RaftCluster with the same hazards; what holds of the executions of the one
    holds of the other. *)
Theorem loops_refine_cluster members ok r T :
  trun members ok (tinit members r) T → run members ok (init members) (t_cluster T).
Proof. apply trun_cluster. Qed.

(** C17 (elections keep their distance): in every execution, whatever the
    other goroutines, the network and the crashes do, a node starts an election
    no earlier than the minimal election timeout after it last started one,
    after it last restarted, and after its loop last heard of a leader or of a
    vote. *)
Theorem elections_are_paced members ok r T ms1 i t ms2 t' m :
  (∀ i, drawn (r i)) → trun members ok (tinit members r) T →
  t_marks T = ms1 ++ (i, t, Started) :: ms2 → (i, t', m) ∈ ms2 → t' + electionTimeoutMin <= t.
Proof. intros Hr Ht Hm. eapply paced_split; [|exact Hm]. by eapply TInv_run. Qed.

(** One iteration of the loop, when it is at its [select] and the case can be
    taken. *)
Definition Loop_iter (c : loop_case) (now r : Z) (lp : Loop) (l : Local) : option (Loop * Local) :=
  match lp_phase lp with
  | Selecting => if ready now (l_node l) lp c then Some (Loop_take c now r lp l) else None
  | _ => None
  end.

(** The loop made of the node [l] a candidate of the next term. *)
Definition campaigns (l : Local) (x : Loop * Local) : Prop :=
  lp_phase x.1 = Electing ∧ n_role (l_node x.2) = RoleCandidate ∧ n_term (l_node x.2) = n_term (l_node l) + 1 ∧
  n_votedFor (l_node x.2) = Some (n_id (l_node l)) ∧ is_Some (l_elec x.2).

Lemma take_campaigns now r lp l : n_role (l_node l) ≠ RoleLeader → campaigns l (Loop_take CaseElection now r lp l).
Proof. intros Hr. simpl. rewrite bool_decide_false by done. by repeat split. Qed.

Lemma Ticker_recv_not_ready now t : 0 < tk_period t → Ticker_ready now t = true → Ticker_ready now (Ticker_recv now t) = false.
Proof.
  unfold Ticker_ready, Ticker_recv. simpl. intros Hp H%Z.leb_le. apply Z.leb_gt.
  pose proof (Z.mul_div_le (now - tk_next t) (tk_period t) Hp). pose proof (Z.mul_succ_div_gt (now - tk_next t) (tk_period t) Hp). lia.
Qed.

(** Nothing else wakes the loop of a follower: the election comes in the first
    or in the second iteration. *)
Lemma due_campaigns now lp l :
  lp_phase lp = Selecting → lp_done lp = false → lp_stop lp = false → n_resetElection (l_node l) = false →
  n_role (l_node l) ≠ RoleLeader → 0 < tk_period (lp_heartbeat lp) → Timer_ready now (lp_election lp) = true →
  (∀ r, ∃ x, Loop_iter CaseElection now r lp l = Some x) ∧
  ∀ c r x, Loop_iter c now r lp l = Some x →
    campaigns l x ∨ x.2 = l ∧ (∀ r, ∃ y, Loop_iter CaseElection now r x.1 l = Some y) ∧
      ∀ c r y, Loop_iter c now r x.1 l = Some y → campaigns l y.
Proof.
  intros Hp Hd Hs Hn Hr Hk He. unfold Loop_iter. rewrite Hp. split.
  { intros r. cbn [ready]. rewrite He. by eexists. }
  intros c r x. destruct c; cbn [ready]; rewrite ?Hd, ?Hs, ?Hn; try done.
  - rewrite He. intros [= <-]. left. by apply take_campaigns.
  - destruct (Ticker_ready now (lp_heartbeat lp)) eqn:Hb; [|done]. intros Hx. right. cbn in Hx.
    rewrite bool_decide_false in Hx by done. injection Hx as <-. cbn -[Loop_take Timer_ready Ticker_ready Ticker_recv]. rewrite Hp.
    split; [done|]. split; [intros r'; rewrite He; by eexists|].
    intros c' r' y. destruct c'; cbn [ready set_heartbeat lp_done lp_stop lp_election lp_heartbeat]; rewrite ?Hd, ?Hs, ?Hn, ?Ticker_recv_not_ready by done; try done.
    rewrite He. intros Hy. apply (inj Some) in Hy as <-. by apply take_campaigns.
Qed.

(** C27 (a silent follower campaigns): a node that is not the leader and whose
    election timer was set at least the maximal timeout ago and not since, with
    no leader heard of in between, has an election to start: its loop can take
    the election case, a heartbeat tick can delay that by one iteration and
    leaves the node as it is, and nothing else can happen instead. *)
Theorem silent_follower_campaigns members ok r T i (l := c_local (t_cluster T) i) (lp := t_loop T i) :
  (∀ i, drawn (r i)) → trun members ok (tinit members r) T → i ∈ members →
  lp_phase lp = Selecting → lp_done lp = false → lp_stop lp = false →
  n_resetElection (l_node l) = false → n_role (l_node l) ≠ RoleLeader →
  (∀ t m, (i, t, m) ∈ t_marks T → t + electionTimeoutMax <= t_now T) →
  (∀ r, ∃ x, Loop_iter CaseElection (t_now T) r lp l = Some x) ∧
  ∀ c r x, Loop_iter c (t_now T) r lp l = Some x →
    campaigns l x ∨ x.2 = l ∧ (∀ r, ∃ y, Loop_iter CaseElection (t_now T) r x.1 l = Some y) ∧
      ∀ c r y, Loop_iter c (t_now T) r x.1 l = Some y → campaigns l y.
Proof.
  intros Hr Ht Hi Hp Hd Hs Hn Hl Hm. pose proof (ti_timer _ _ (TInv_run _ _ _ _ Hr Ht) i Hi) as HT.
  apply due_campaigns; try done; [unfold lp; by rewrite (tok_period _ _ HT)|].
  destruct (tok_set _ _ HT) as [a Ha]; [unfold lp in Hp; congruence|]. unfold Timer_ready, lp. rewrite Ha.
  destruct (tok_before _ _ HT a Ha) as (t & Hin & Hlt). pose proof (Hm _ _ Hin). apply Z.leb_le. lia.
Qed.

(** The fields of a node that heard of a leader. *)
Lemma append_locked_heard req n n' resp wait :
  append_locked req n = (n', resp, wait) → n_term n <= aq_Term req →
  n_role n' = RoleFollower ∧ n_leaderID n' = Some (aq_LeaderID req) ∧ n_resetElection n' = true ∧ n_id n' = n_id n.
Proof.
  intros Ha Hle. revert Ha. unfold append_locked. rewrite (proj2 (Z.ltb_ge _ _) Hle).
  set (m := follow _ _ n). assert (Hm : n_role m = RoleFollower ∧ n_leaderID m = Some (aq_LeaderID req) ∧
    n_resetElection m = true ∧ n_id m = n_id n).
  { subst m. unfold follow. destruct (n_term n <? aq_Term req); [done|]. simpl. case_bool_decide; done. }
  clearbody m. destruct (checkPrevLog _ _ m); simpl; [|by intros [= <- _ _]].
  pose proof (mergeEntries_frame req m) as Hf. destruct (mergeEntries req m) as [ch k]. simpl in Hf. rewrite Hf.
  destruct ch; simpl; destruct (_ <? _); by intros [= <- _ _].
Qed.

(** A leader heard of defers the election, unless the timer already fired:
    an AppendEntries of the current or a later term leaves a reset for the loop;
    the iteration that takes it sets the timer to at least the minimal timeout
    from now.  Before the timer fires no iteration starts an election.  Once it
    fired, both cases can be taken, and the loop may pick the election: the node
    stands against the leader it follows. *)
Theorem heartbeat_defers_election now r req lp l n' resp wait :
  drawn r → n_term (l_node l) <= aq_Term req → append_locked req (l_node l) = (n', resp, wait) →
  lp_phase lp = Selecting → lp_done lp = false → lp_stop lp = false →
  let l' := set_node n' l in
  n_role n' = RoleFollower ∧ n_leaderID n' = Some (aq_LeaderID req) ∧
  (∃ lp' l'', Loop_iter CaseReset now r lp l' = Some (lp', l'') ∧
     ∀ now', now' < now + electionTimeoutMin → Timer_ready now' (lp_election lp') = false) ∧
  (Timer_ready now (lp_election lp) = false →
     ∀ c r x, Loop_iter c now r lp l' = Some x → l_elec x.2 = l_elec l ∧ n_term (l_node x.2) = n_term n') ∧
  (Timer_ready now (lp_election lp) = true → ∃ x, Loop_iter CaseElection now r lp l' = Some x ∧ campaigns l' x).
Proof.
  intros Hr Hle Ha Hp Hd Hs l'. destruct (append_locked_heard _ _ _ _ _ Ha Hle) as (H1 & H2 & H3 & _).
  pose proof (drawn_bounds r Hr) as Hb. unfold Loop_iter. rewrite Hp. cbn [ready l_node set_node l']. rewrite H3.
  split_and!; try done.
  - eexists _, _. split; [reflexivity|]. intros now' Hn. apply Z.leb_gt. lia.
  - intros He c r' x. destruct c; cbn [ready]; rewrite ?Hd, ?Hs, ?He; try done.
    + intros Hx. cbn in Hx. rewrite H3 in Hx. by injection Hx as <-.
    + cbn [l_node]. destruct (Ticker_ready _ _); [|done]. intros Hx. cbn in Hx. rewrite bool_decide_false in Hx by congruence.
      by injection Hx as <-.
  - intros He. rewrite He. eexists. split; [reflexivity|]. apply take_campaigns. simpl. congruence.
Qed.

(** Stop can be called again: [Stop] returns, the loop can then return, and a
    second [Stop] changes nothing.  [Stop] holds no lock: two calls that both
    find the channel open panic. *)
Theorem Stop_idempotent lp :
  (∃ lp', Stop lp = Some lp' ∧ lp_stop lp' = true ∧ Stop lp' = Some lp') ∧
  (lp_stop lp = false → (lp1 ← Stop_rest (lp_stop lp) lp; Stop_rest (lp_stop lp) lp1) = None).
Proof.
  unfold Stop, Stop_rest. split.
  - destruct (lp_stop lp) eqn:E; [exists lp; by rewrite E|]. unfold close_stop. rewrite E. by eexists.
  - intros ->. unfold close_stop. destruct (lp_stop lp) eqn:E; [done|]. done.
Qed.

(** ** Runs of the loops *)

Lemma trun_step members ok T1 T2 T3 : trun members ok T1 T2 → ok None = true → tstep members None T2 T3 → trun members ok T1 T3.
Proof. intros. by eapply trun_snoc. Qed.

(** Three nodes whose timers fire after the minimal timeout, [d] later. *)
Definition asleep (d : Z) : Timed :=
  let T := tinit abc (λ _, 0) in mkTimed (t_cluster T) (t_now T + d) (t_loop T) (t_marks T).

Lemma asleep_run d : 0 <= d → trun abc no_hazard (tinit abc (λ _, 0)) (asleep d).
Proof. intros Hd. eapply trun_step; [apply trun_refl|reflexivity|]. by apply T_time. Qed.

(** The loop of [i] takes a case. *)
Definition take_at (i : string) (c : loop_case) (r : Z) (T : Timed) : Timed :=
  let l := c_local (t_cluster T) i in let x := Loop_take c (t_now T) r (t_loop T i) l in
  mkTimed (update i x.2 [] (t_cluster T)) (t_now T) (at_node i x.1 (t_loop T)) (marks_of i (t_now T) c (l_node l) ++ t_marks T).

Lemma take_at_step members i c r T :
  i ∈ members → lp_phase (t_loop T i) = Selecting → ready (t_now T) (l_node (c_local (t_cluster T) i)) (t_loop T i) c = true →
  drawn r → tstep members None T (take_at i c r T).
Proof. intros Hi Hp Hc Hr. unfold take_at. eapply T_take; try done. by destruct (Loop_take _ _ _ _ _). Qed.

Definition first_candidate : Timed := take_at "A" CaseElection 0 (asleep electionTimeoutMin).

Lemma drawn_0 : drawn 0.
Proof. unfold drawn. change electionTimeout_spread with 500. lia. Qed.

Lemma first_candidate_run : trun abc no_hazard (tinit abc (λ _, 0)) first_candidate.
Proof.
  eapply trun_step; [by apply (asleep_run electionTimeoutMin)|reflexivity|].
  apply take_at_step; [by left|vm_compute; reflexivity..|apply drawn_0].
Qed.

Lemma loops_refine_cluster_witness :
  run abc no_hazard (init abc) (t_cluster first_candidate) ∧ n_role (l_node (c_local (t_cluster first_candidate) "A")) = RoleCandidate.
Proof. split; [apply (loops_refine_cluster abc no_hazard (λ _, 0) first_candidate), first_candidate_run|vm_compute; reflexivity]. Defined.

Lemma elections_are_paced_witness :
  t_marks first_candidate = [] ++ ("A", electionTimeoutMin, Started)%string :: t_marks (asleep 0) ∧ 0 + electionTimeoutMin <= electionTimeoutMin.
Proof.
  split; [reflexivity|].
  apply (elections_are_paced abc no_hazard (λ _, 0) first_candidate [] "A" electionTimeoutMin (t_marks (asleep 0)) 0 Armed).
  - intros _. apply drawn_0.
  - apply first_candidate_run.
  - reflexivity.
  - by left.
Defined.

Lemma silent_follower_campaigns_witness :
  let T := asleep electionTimeoutMax in let l := c_local (t_cluster T) "A" in
  ∃ x, Loop_iter CaseElection (t_now T) 0 (t_loop T "A") l = Some x ∧ campaigns l x.
Proof.
  intros T l. destruct (silent_follower_campaigns abc no_hazard (λ _, 0) T "A") as [H1 H2].
  - intros _. apply drawn_0.
  - by apply asleep_run.
  - by left.
  - reflexivity.
  - reflexivity.
  - reflexivity.
  - reflexivity.
  - vm_compute. discriminate.
  - intros t m Hm. simpl in Hm. rewrite !elem_of_cons in Hm. destruct Hm as [[= -> ->]|[[=]|[[=]|[]%elem_of_nil]]]. vm_compute. discriminate.
  - destruct (H1 0) as [x Hx]. exists x. split; [exact Hx|]. destruct (H2 CaseElection 0 x Hx) as [Hc|(He & _)]; [exact Hc|].
    exfalso. revert He Hx. vm_compute. intros He. intros [= <-]. discriminate.
Defined.

Lemma heartbeat_defers_election_witness :
  let l := boot abc "B" RaftState_zero in let req := mkAppendReq 1 "A" 0 0 [] 0 in
  let lp := Loop_enter 0 0 in let l' := set_node (append_locked req (l_node l)).1.1 l in
  (∃ x, Loop_iter CaseElection electionTimeoutMin 0 lp l' = Some x ∧ campaigns l' x) ∧ n_leaderID (l_node l') = Some "A"%string.
Proof.
  intros l req lp l'.
  destruct (heartbeat_defers_election electionTimeoutMin 0 req lp l (append_locked req (l_node l)).1.1
    (append_locked req (l_node l)).1.2 (append_locked req (l_node l)).2) as (_ & H2 & _ & _ & H5).
  - apply drawn_0.
  - vm_compute. discriminate.
  - vm_compute. reflexivity.
  - reflexivity.
  - reflexivity.
  - reflexivity.
  - split; [apply H5; reflexivity|exact H2].
Defined.
