(* ===== verification/RaftDuplicate.v ===== *)
(** * RaftDuplicate: messages delivered twice

    The comment of the fault transport says that a duplicate delivery is
    idempotent on the follower.  With a working disk that is so for each of the
    three RPCs: handling a request again right after it was handled changes
    neither the node, nor its disk, nor the state machine, and gives the same
    answer. *)

From S2P Require Import Prelude GoLib Engine RaftNode RaftLeader RaftLog.

(** ** RequestVote *)

Lemma logFresh_ext req n n' : n_log n' = n_log n → n_lastIncludedIndex n' = n_lastIncludedIndex n →
  n_lastIncludedTerm n' = n_lastIncludedTerm n → logFresh req n' = logFresh req n.
Proof. intros Hl Hi Ht. unfold logFresh, lastLogTerm, lastLogIndex. by rewrite Hl, Hi, Ht. Qed.

Lemma set_dirty_id n : set_dirty (n_dirty n) n = n.
Proof. by destruct n. Qed.

(** Persisting what is already on disk. *)
Lemma persist_again n d b n' d' : persist Saved n d = (b, n', d') →
  b = true ∧ persist Saved (set_dirty true n') d' = (true, if n_hasStore n then n' else set_dirty true n', d') ∨ n_dirty n = false.
Proof.
  destruct n as [id ps ro t v l lg ci la qa rp hs di li lt sn sk re]. unfold persist. simpl.
  destruct hs, di; simpl; intros [= <- <- <-]; naive_solver.
Qed.

Lemma vote_granted_again req n n' resp :
  vote_locked req n = (n', resp, true) →
  n_term n' = vq_Term req ∧ n_votedFor n' = Some (vq_CandidateID req) ∧ n_dirty n' = true ∧ n_resetElection n' = true ∧
  logFresh req n' = true ∧ resp = mkVoteResp (vq_Term req) true.
Proof.
  unfold vote_locked. destruct (Z.ltb_spec (vq_Term req) (n_term n)); [done|].
  set (m := if n_term n <? vq_Term req then _ else _).
  assert (Hm : n_term m = vq_Term req).
  { unfold m. destruct (Z.ltb_spec (n_term n) (vq_Term req)); simpl; lia. }
  clearbody m. destruct (_ && logFresh req m) eqn:E; [|done]. apply andb_true_iff in E as [_ E].
  intros [= <- <-]. split_and!; try done. simpl. by rewrite Hm.
Qed.

(** A granted vote is granted again. *)
Lemma vote_locked_again req n :
  n_term n = vq_Term req → n_votedFor n = Some (vq_CandidateID req) → n_resetElection n = true →
  logFresh req n = true → vote_locked req n = (set_dirty true n, mkVoteResp (vq_Term req) true, true).
Proof.
  intros Ht Hv Hr Hf. unfold vote_locked. rewrite Ht, Z.ltb_irrefl, Hv, Hf, bool_decide_true by done. simpl.
  rewrite Ht. destruct n. simpl in *. by subst.
Qed.

Lemma vote_refused_settled req n n' resp :
  vote_locked req n = (n', resp, false) → vote_locked req n' = (n', resp, false).
Proof.
  unfold vote_locked at 1. destruct (Z.ltb_spec (vq_Term req) (n_term n)) as [Hlt|Hge].
  { intros [= <- <-]. unfold vote_locked. by rewrite (proj2 (Z.ltb_lt _ _)). }
  set (m := if n_term n <? vq_Term req then _ else _).
  assert (Hm : n_term m = vq_Term req).
  { unfold m. destruct (Z.ltb_spec (n_term n) (vq_Term req)); simpl; lia. }
  clearbody m. destruct (_ && logFresh req m) eqn:E; [done|]. intros [= <- <-].
  unfold vote_locked. rewrite Hm, Z.ltb_irrefl. cbv zeta. by rewrite E, Hm.
Qed.

Lemma HandleRequestVote_twice req n d resp n' d' :
  HandleRequestVote Saved req n d = (resp, n', d') → HandleRequestVote Saved req n' d' = (resp, n', d').
Proof.
  unfold HandleRequestVote. destruct (vote_locked req n) as [[n1 r1] w] eqn:E. destruct w.
  - destruct (vote_granted_again _ _ _ _ E) as (Ht & Hv & Hd & Hr & Hf & ->).
    destruct (persist Saved n1 d) as [[ok n2] d2] eqn:Ep.
    destruct (persist_again _ _ _ _ _ Ep) as [[-> Hagain]|?]; [|congruence]. intros [= <- <- <-].
    destruct (persist_frame Saved n1 d) as [_ Hfr]. rewrite Ep in Hfr. cbn [fst snd] in Hfr.
    rewrite (vote_locked_again req n2); [|rewrite Hfr; done..].
    rewrite Hagain. destruct (n_hasStore n1) eqn:Hst; [done|]. unfold persist in Ep. rewrite Hst in Ep. simpl in Ep.
    simplify_eq. by rewrite <- Hd, set_dirty_id.
  - intros [= <- <- <-]. by rewrite (vote_refused_settled _ _ _ _ E).
Qed.

(** ** AppendEntries *)

Lemma merge_loop_stable es idx ch n : 0 <= n_lastIncludedIndex n →
  (∀ k e, es !! k = Some e → n_lastIncludedIndex n < idx + Z.of_nat k →
     ∃ e', entryAt n (idx + Z.of_nat k) = Some e' ∧ Term e' = Term e) →
  merge_loop es idx ch n = (ch, n).
Proof.
  intros Hb. revert idx. induction es as [|e es IH]; intros idx Hes; [done|]. cbn [merge_loop].
  assert (Hrest : merge_loop es (idx + 1) ch n = (ch, n)).
  { apply IH. intros k x Hx Hk. replace (idx + 1 + Z.of_nat k) with (idx + Z.of_nat (S k)) in * by lia. by apply Hes. }
  destruct (Z.leb_spec idx (n_lastIncludedIndex n)); [done|].
  destruct (Hes 0%nat e eq_refl) as (e' & He' & Ht); [lia|]. rewrite Z.add_0_r in He'.
  pose proof (entryAt_Some_range _ _ _ He'). rewrite (proj2 (Z.leb_le _ _)) by lia.
  by rewrite (logTermAt_entry _ _ _ Hb He'), Ht, Z.eqb_refl.
Qed.

Lemma merge_cut_stable end_ n : lastLogIndex n = Z.max (n_lastIncludedIndex n) end_ → (merge_cut end_ n).2 = n.
Proof.
  intros Hl. unfold merge_cut. destruct (Z.ltb_spec end_ (lastLogIndex n)) as [Hlt|]; simpl; [|done].
  assert (Hn : n_log n = []) by (apply zlen_0_inv; unfold lastLogIndex in *; lia).
  rewrite Hn, take_nil. destruct n. simpl in *. by subst.
Qed.

(** Merging a request again changes nothing, and reports a change only if the
    first merge did. *)
Lemma mergeEntries_again req n :
  0 <= n_lastIncludedIndex n → aq_PrevLogIndex req <= lastLogIndex n →
  let n' := (mergeEntries req n).2 in
  (mergeEntries req n').2 = n' ∧ ((mergeEntries req n).1 = false → (mergeEntries req n').1 = false).
Proof.
  intros Hb Hp n'. split; [|intros Hc; unfold n'; by rewrite (mergeEntries_unchanged _ _ Hc)].
  destruct (mergeEntries_spec req n Hb Hp) as (_ & Hm & Hl). fold n' in Hm, Hl.
  assert (Hb' : n_lastIncludedIndex n' = n_lastIncludedIndex n) by (unfold n'; rewrite mergeEntries_frame; done).
  unfold mergeEntries at 1. rewrite (surjective_pairing (merge_cut _ n')), merge_cut_stable by (rewrite Hb'; exact Hl).
  rewrite merge_loop_stable; [done|by rewrite Hb'|]. intros k e Hk Hlt. rewrite Hb' in Hlt.
  destruct (Hm k e Hk Hlt) as (e' & ? & ? & _). by exists e'.
Qed.

(** A node that already follows the sender. *)
Definition following (t : Z) (l : string) (n : Node) : Prop :=
  n_term n = t ∧ n_role n = RoleFollower ∧ n_leaderID n = Some l ∧ n_resetElection n = true.

Lemma follow_following t l n : n_term n <= t → following t l (follow t l n).
Proof.
  intros Ht. destruct (follow_vote t l n Ht) as (H1 & H2 & H3). split_and!; try done.
Qed.

Lemma follow_again t l n : following t l n → follow t l n = n.
Proof.
  intros (Ht & Hr & Hl & He). unfold follow. rewrite Ht, Z.ltb_irrefl, bool_decide_true by done. simpl.
  destruct n. simpl in *. by subst.
Qed.

(** The outcome of a request that passes the checks, as one update of the node
    [m] that follows the sender. *)
Definition commit_of (req : AppendEntriesRequest) (m : Node) : Z :=
  if n_commitIndex m <? aq_LeaderCommit req then Z.min (aq_LeaderCommit req) (lastLogIndex m) else n_commitIndex m.

Lemma append_locked_eq req n :
  n_term n <= aq_Term req → checkPrevLog (aq_PrevLogIndex req) (aq_PrevLogTerm req) n = true →
  let m := follow (aq_Term req) (aq_LeaderID req) n in
  let c := (mergeEntries req m).1 in
  let m2 := (mergeEntries req m).2 in
  let ch := c || (n_commitIndex m <? aq_LeaderCommit req) in
  append_locked req n =
    (set_dirty (n_dirty m || ch) (set_commitIndex (commit_of req m2) m2), mkAppendResp (aq_Term req) true, ch).
Proof.
  intros Ht Hc. unfold append_locked. rewrite (proj2 (Z.ltb_ge _ _)) by done.
  destruct (follow_following (aq_Term req) (aq_LeaderID req) n Ht) as (Ht' & _).
  cbv zeta. rewrite checkPrevLog_follow, Hc. cbn [negb]. revert Ht'. generalize (follow (aq_Term req) (aq_LeaderID req) n).
  intros m Ht'. pose proof (mergeEntries_frame req m) as Hfr. destruct (mergeEntries req m) as [b x]. cbn [fst snd] in *.
  rewrite Hfr. clear Hfr Hc Ht. unfold commit_of, advance_commit.
  destruct m as [id ps ro t v l lg ci la qa rp hs di li lt sn sk re]. simpl in *. subst t.
  assert (Hmin : ∀ a b, (if a <? b then a else b) = Z.min a b) by (intros a b'; destruct (Z.ltb_spec a b'); lia).
  rewrite !Hmin. destruct b; simpl; destruct (Z.ltb_spec ci (aq_LeaderCommit req)); simpl;
    by rewrite ?orb_true_r, ?orb_false_r.
Qed.

Lemma checkPrevLog_ext p q n n' :
  (∀ i, i <= p → entryAt n' i = entryAt n i) → n_lastIncludedIndex n' = n_lastIncludedIndex n →
  n_lastIncludedTerm n' = n_lastIncludedTerm n → p <= lastLogIndex n' →
  checkPrevLog p q n = true → checkPrevLog p q n' = true.
Proof.
  intros He Hi Ht Hl [_ Hq]%checkPrevLog_true. unfold checkPrevLog. rewrite (proj2 (Z.ltb_ge _ _)) by done.
  destruct (Z.ltb_spec 0 p) as [Hp|]; [|done]. specialize (Hq Hp). unfold logTermAt in *.
  rewrite He, Hi, Ht by lia. by rewrite Hq, Z.eqb_refl.
Qed.

(** The commit index and the dirty flag do not matter to a merge. *)
Definition touch (b : bool) (c : Z) (n : Node) : Node := set_dirty b (set_commitIndex c n).

Lemma merge_loop_touch es idx ch b c n :
  merge_loop es idx ch (touch b c n) = ((merge_loop es idx ch n).1, touch b c (merge_loop es idx ch n).2).
Proof.
  revert idx. induction es as [|e es IH]; intros idx; [done|]. cbn [merge_loop].
  change (n_lastIncludedIndex (touch b c n)) with (n_lastIncludedIndex n).
  change (lastLogIndex (touch b c n)) with (lastLogIndex n). change (logTermAt (touch b c n) idx) with (logTermAt n idx).
  rewrite IH. repeat case_match; done.
Qed.

Lemma mergeEntries_touch req b c n :
  mergeEntries req (touch b c n) = ((mergeEntries req n).1, touch b c (mergeEntries req n).2).
Proof.
  unfold mergeEntries. set (end_ := aq_PrevLogIndex req + _).
  assert (Hcut : merge_cut end_ (touch b c n) = ((merge_cut end_ n).1, touch b c (merge_cut end_ n).2)).
  { unfold merge_cut. change (lastLogIndex (touch b c n)) with (lastLogIndex n). by case_match. }
  rewrite Hcut, (surjective_pairing (merge_cut end_ n)). apply merge_loop_touch.
Qed.

(** A node that follows the sender and has merged the request, asked again. *)
Lemma append_locked_again req m b :
  0 <= n_lastIncludedIndex m → following (aq_Term req) (aq_LeaderID req) m →
  checkPrevLog (aq_PrevLogIndex req) (aq_PrevLogTerm req) m = true →
  let ch := (mergeEntries req m).1 || (n_commitIndex m <? aq_LeaderCommit req) in
  let m2 := (mergeEntries req m).2 in
  let n' := touch b (commit_of req m2) m2 in
  ∃ ch', append_locked req n' = (set_dirty (b || ch') n', mkAppendResp (aq_Term req) true, ch') ∧
    (ch' = true → ch = true).
Proof.
  intros Hb Hf Hc ch m2 n'. destruct (checkPrevLog_true _ _ _ Hc) as [Hp _].
  destruct (mergeEntries_again req m Hb Hp) as [Hm2 Hc2]. destruct (mergeEntries_spec req m Hb Hp) as (He & _ & Hl).
  pose proof (mergeEntries_frame req m) as Hfr. fold m2 in Hm2, Hc2, He, Hl, Hfr.
  pose proof (zlen_nonneg (aq_Entries req)) as Hlen.
  assert (Hf' : following (aq_Term req) (aq_LeaderID req) n').
  { unfold n', touch, following in *. rewrite Hfr. exact Hf. }
  rewrite append_locked_eq; [|by destruct Hf' as [-> _]|].
  2: { apply (checkPrevLog_ext _ _ m); [exact He|unfold n'; rewrite Hfr; done..| |done].
       change (lastLogIndex n') with (lastLogIndex m2). lia. }
  cbv zeta. rewrite (follow_again _ _ n' Hf'). unfold n' at 1 2 3 4 5 6 7. rewrite mergeEntries_touch. cbn [fst snd]. rewrite Hm2.
  assert (HC : commit_of req (touch b (commit_of req m2) m2) = commit_of req m2).
  { unfold commit_of, touch. cbn [n_commitIndex set_dirty set_commitIndex].
    change (lastLogIndex (set_dirty b (set_commitIndex ?c m2))) with (lastLogIndex m2). repeat case_match; lia. }
  rewrite HC. eexists. split; [reflexivity|]. intros [Hx|Hx]%orb_true_iff; unfold ch; apply orb_true_iff.
  - left. destruct (mergeEntries req m).1 eqn:E; [done|]. by rewrite Hc2 in Hx.
  - right. unfold touch in Hx. cbn [n_commitIndex set_dirty set_commitIndex] in Hx. unfold commit_of in Hx.
    assert (Hci : n_commitIndex m2 = n_commitIndex m) by by rewrite Hfr. rewrite Hci in Hx.
    destruct (n_commitIndex m <? aq_LeaderCommit req) eqn:E; [done|congruence].
Qed.

Lemma append_locked_cases req n :
  let m := follow (aq_Term req) (aq_LeaderID req) n in
  (aq_Term req < n_term n ∧ append_locked req n = (n, mkAppendResp (n_term n) false, false)) ∨
  (n_term n <= aq_Term req ∧ checkPrevLog (aq_PrevLogIndex req) (aq_PrevLogTerm req) n = false ∧
   append_locked req n = (m, mkAppendResp (n_term m) false, false)) ∨
  (n_term n <= aq_Term req ∧ checkPrevLog (aq_PrevLogIndex req) (aq_PrevLogTerm req) n = true).
Proof.
  intros m. destruct (Z.lt_ge_cases (aq_Term req) (n_term n)) as [Ht|Ht].
  - left. split; [done|]. unfold append_locked. by rewrite (proj2 (Z.ltb_lt _ _) Ht).
  - right. destruct (checkPrevLog (aq_PrevLogIndex req) (aq_PrevLogTerm req) n) eqn:Hc; [by right|left].
    split_and!; [done..|]. unfold append_locked. rewrite (proj2 (Z.ltb_ge _ _) Ht). cbv zeta.
    by rewrite checkPrevLog_follow, Hc.
Qed.

Lemma HandleAppendEntries_twice req n d resp n' d' :
  0 <= n_lastIncludedIndex n →
  HandleAppendEntries Saved req n d = (resp, n', d') → HandleAppendEntries Saved req n' d' = (resp, n', d').
Proof.
  intros Hb. unfold HandleAppendEntries. destruct (append_locked_cases req n) as [[Ht E]|[(Ht & Hc & E)|[Ht Hc]]].
  - rewrite E. intros [= <- <- <-]. by rewrite E.
  - rewrite E. intros [= <- <- <-].
    pose proof (follow_following (aq_Term req) (aq_LeaderID req) n Ht) as Hf.
    destruct (append_locked_cases req (follow (aq_Term req) (aq_LeaderID req) n)) as [[Ht' _]|[(_ & _ & E')|[_ Hc']]].
    + destruct Hf as [Hf _]. lia.
    + by rewrite E', (follow_again _ _ _ Hf).
    + rewrite checkPrevLog_follow in Hc'. congruence.
  - rewrite append_locked_eq by done. cbv zeta.
    pose proof (follow_following (aq_Term req) (aq_LeaderID req) n Ht) as Hf.
    assert (Hcm : checkPrevLog (aq_PrevLogIndex req) (aq_PrevLogTerm req) (follow (aq_Term req) (aq_LeaderID req) n) = true)
      by by rewrite checkPrevLog_follow.
    destruct (follow_frame (aq_Term req) (aq_LeaderID req) n) as (_ & F2 & _). rewrite <- F2 in Hb. clear F2 Hc Ht.
    revert Hb Hf Hcm. generalize (follow (aq_Term req) (aq_LeaderID req) n). intros m Hb Hf Hcm.
    pose proof (λ b, append_locked_again req m b Hb Hf Hcm) as Hagain. cbv zeta in Hagain.
    set (ch := (mergeEntries req m).1 || _) in *. set (m2 := (mergeEntries req m).2) in *. clearbody m2 ch.
    fold (touch (n_dirty m || ch) (commit_of req m2) m2). set (C := commit_of req m2) in *. clearbody C.
    destruct ch.
    + rewrite orb_true_r. destruct (persist Saved (touch true C m2) d) as [[ok n2] d2] eqn:Ep.
      assert (Hn2 : ok = true ∧ n2 = touch (negb (n_hasStore m2)) C m2 ∧
        persist Saved (touch true C m2) d2 = (true, n2, d2)).
      { unfold persist in *. simpl in *. destruct (n_hasStore m2) eqn:Hst; simpl in *; simplify_eq; simpl; rewrite ?Hst; done. }
      destruct Hn2 as (-> & -> & Hp2). intros [= <- <- <-].
      destruct (Hagain (negb (n_hasStore m2))) as (ch' & -> & _). destruct ch'.
      * rewrite orb_true_r. change (set_dirty true (touch ?b C m2)) with (touch true C m2). by rewrite Hp2.
      * by rewrite orb_false_r.
    + intros [= <- <- <-]. destruct (Hagain (n_dirty m || false)) as (ch' & -> & Hch).
      destruct ch'; [by specialize (Hch eq_refl)|]. by rewrite !orb_false_r.
Qed.

(** ** InstallSnapshot *)

Lemma persist_done n d b n' d' : persist Saved n d = (b, n', d') → persist Saved n' d' = (true, n', d').
Proof.
  destruct n as [id ps ro t v l lg ci la qa rp hs di li lt sn sk re]. unfold persist. simpl.
  destruct hs, di; simpl; intros [= <- <- <-]; done.
Qed.

Lemma adopt_base_frame i t n : n_lastApplied n < i →
  n_lastApplied (adopt_base i t n) = i ∧
  (∀ x l, following x l n → following x l (adopt_base i t n)).
Proof.
  intros Hi. unfold adopt_base, raise_base. cbn [n_commitIndex set_base set_log].
  destruct (n_commitIndex n <? i); cbn [n_lastApplied set_commitIndex set_base set_log];
    rewrite (proj2 (Z.ltb_lt _ _) Hi); done.
Qed.

Lemma HandleInstallSnapshot_twice {S} (Apply : bytes → S → res unit * S) req n d s resp n' d' s' :
  HandleInstallSnapshot Apply Saved req n d s = (resp, n', d', s') →
  HandleInstallSnapshot Apply Saved req n' d' s' = (resp, n', d', s').
Proof.
  unfold HandleInstallSnapshot, install_locked. destruct (Z.ltb_spec (iq_Term req) (n_term n)) as [Ht|Ht].
  { intros [= <- <- <- <-]. by rewrite (proj2 (Z.ltb_lt _ _) Ht). }
  pose proof (follow_following (iq_Term req) (iq_LeaderID req) n Ht) as Hf. revert Hf. cbv zeta.
  generalize (follow (iq_Term req) (iq_LeaderID req) n). intros m Hf.
  set (m' := if n_lastApplied m <? iq_LastIncludedIndex req then _ else m).
  assert (Hm' : following (iq_Term req) (iq_LeaderID req) m' ∧ iq_LastIncludedIndex req <= n_lastApplied m').
  { unfold m'. destruct (Z.ltb_spec (n_lastApplied m) (iq_LastIncludedIndex req)) as [Hi|Hi]; [|done].
    destruct (adopt_base_frame (iq_LastIncludedIndex req) (iq_LastIncludedTerm req) m Hi) as [-> Hfol].
    split; [by apply Hfol|lia]. }
  clearbody m'. destruct Hm' as [Hf' Hi]. destruct (persist Saved m' d) as [[ok n2] d2] eqn:Ep. intros [= <- <- <- <-].
  destruct (persist_frame Saved m' d) as [_ Hfr]. rewrite Ep in Hfr. cbn [fst snd] in Hfr.
  assert (Hf2 : following (iq_Term req) (iq_LeaderID req) n2) by by rewrite Hfr.
  assert (Hi2 : n_lastApplied n2 = n_lastApplied m') by by rewrite Hfr.
  pose proof (proj1 Hf2) as Ht2. pose proof (proj1 Hf') as Ht1. rewrite Ht2, Z.ltb_irrefl, (follow_again _ _ n2 Hf2), Hi2.
  rewrite (proj2 (Z.ltb_ge _ _) Hi). cbn [andb]. rewrite (persist_done _ _ _ _ _ Ep). by rewrite Ht1, Ht2.
Qed.

(** C23 (duplicate delivery): with a disk that works, a node that receives the same
    vote request, the same append or the same snapshot twice in a row is in the
    state of a node that received it once, its disk and its state machine
    included, and it gives the same answer both times. *)
Theorem duplicate_delivery_idempotent {S} (Apply : bytes → S → res unit * S) n d s :
  0 <= n_lastIncludedIndex n →
  (∀ req, let '(resp, n', d') := HandleRequestVote Saved req n d in
     HandleRequestVote Saved req n' d' = (resp, n', d')) ∧
  (∀ req, let '(resp, n', d') := HandleAppendEntries Saved req n d in
     HandleAppendEntries Saved req n' d' = (resp, n', d')) ∧
  (∀ req, let '(resp, n', d', s') := HandleInstallSnapshot Apply Saved req n d s in
     HandleInstallSnapshot Apply Saved req n' d' s' = (resp, n', d', s')).
Proof.
  intros Hb. split_and!; intros req.
  - destruct (HandleRequestVote Saved req n d) as [[resp n'] d'] eqn:E. by eapply HandleRequestVote_twice.
  - destruct (HandleAppendEntries Saved req n d) as [[resp n'] d'] eqn:E. by eapply HandleAppendEntries_twice.
  - destruct (HandleInstallSnapshot Apply Saved req n d s) as [[[resp n'] d'] s'] eqn:E.
    by eapply HandleInstallSnapshot_twice.
Qed.

Lemma duplicate_delivery_idempotent_witness :
  let n := NewNode "a" ["b"; "c"]%string in
  let req := mkAppendReq 1 "b" 0 0 [mkEntry 1 (mkCommand OpPut "k" "" "v" 0)] 1 in
  0 <= n_lastIncludedIndex n ∧
  let '(resp, n', d') := HandleAppendEntries Saved req n RaftState_zero in
  HandleAppendEntries Saved req n' d' = (resp, n', d').
Proof.
  intros n req. split; [vm_compute; congruence|].
  apply (duplicate_delivery_idempotent (S := unit) (λ _ s, (Ok (), s)) n RaftState_zero ()). vm_compute. congruence.
Defined.
