(* ===== verification/RaftEngine.v ===== *)
(** * RaftEngine: a raft node as the engine of the API, leader.go

    [raft.Node] implements [storage.Engine]: reads go to the local state
    machine, writes are proposed.  The operations are those of a node while
    its other goroutines do not run, so a write that waits for an entry to be
    applied runs into its timeout.  The engine is compared with the state
    machine it replicates. *)

From S2P Require Import Prelude GoLib Engine MemStore RaftNode RaftApply.

Section engine.
Context `{Engine SM}.

(** A node with its disk, its state machine and [n.applyTr]. *)
Record RaftEngine : Type := mkRaftEngine {
  re_node : Node;
  re_disk : RaftState;
  re_store : SM;
  re_tracker : option ApplyTracker
}.

Definition set_store (s : SM) (e : RaftEngine) : RaftEngine :=
  mkRaftEngine (re_node e) (re_disk e) s (re_tracker e).

(** [Put], [Delete] and [Clear]; [o] is what [RaftStore.Save] does. *)
Definition Node_propose (o : save_outcome) (now : Z) (cmd : Command) (e : RaftEngine) : res unit * RaftEngine :=
  let '(r, n, d, s, _) := propose now o cmd (re_node e) (re_disk e) (re_store e) in
  (r, mkRaftEngine n d s (re_tracker e)).

(** [Incr], [CAS] and [Expire] up to their type assertions. *)
Definition Node_proposeWait (o : save_outcome) (now : Z) (cmd : Command) (e : RaftEngine) : res any * RaftEngine :=
  let '(p, n, d, s, tr) := proposeWait_begin now o cmd (re_node e) (re_disk e) (re_store e) (re_tracker e) in
  (match p with
   | Done r => r
   | Waiting idx ch =>
       match tr with
       | Some t => default (Err err_timeout) (proposeWait_end CaseTimeout idx ch t)
       | None => Err err_timeout
       end
   end, mkRaftEngine n d s tr).

(** A panic of a type assertion is an error of the request. *)
Definition returned {A} (o : outcome A) : res A :=
  match o with Returns r => r | Panics => Err (ErrMsg "panic") end.

Global Instance Node_Engine : Engine RaftEngine := {
  eGet now k e := let (r, s) := eGet now k (re_store e) in (r, set_store s e);
  ePut now k v := Node_propose Saved now (Put_cmd k v);
  eDelete now k := Node_propose Saved now (Delete_cmd k);
  eClear now := Node_propose Saved now Clear_cmd;
  eIncr now k e := let (r, e) := Node_proposeWait Saved now (Incr_cmd k) e in (returned (Incr_return r), e);
  eCAS now k old new e := let (r, e) := Node_proposeWait Saved now (CAS_cmd k old new) e in (returned (CAS_return r), e);
  eExpire now k d e := let (r, e) := Node_proposeWait Saved now (Expire_cmd k d) e in (returned (Expire_return r), e);
  eScan now cursor count pattern e := eScan now cursor count pattern (re_store e)
}.

(** The node's state machine did what [x] did, and answered the same. *)
Definition as_store {A} (x : res A * SM) (y : res A * RaftEngine) : Prop :=
  y.1 = x.1 ∧ re_store y.2 = x.2 ∧ n_role (re_node y.2) = RoleLeader ∧ n_peers (re_node y.2) = [].

Lemma propose_alone now cmd e :
  n_role (re_node e) = RoleLeader → n_peers (re_node e) = [] →
  as_store (let (r, s) := applyCmd now cmd (re_store e) in (let! _ := r in Ok (), s)) (Node_propose Saved now cmd e).
Proof.
  intros Hr Hp. unfold Node_propose, propose. rewrite Hr, bool_decide_eq_true_2 by done. cbn [negb].
  rewrite bool_decide_eq_true_2 by exact Hp. by destruct (applyCmd now cmd (re_store e)).
Qed.

Lemma proposeWait_alone now cmd e :
  n_role (re_node e) = RoleLeader → n_peers (re_node e) = [] →
  as_store (applyCmd now cmd (re_store e)) (Node_proposeWait Saved now cmd e).
Proof.
  intros Hr Hp. unfold Node_proposeWait, proposeWait_begin. rewrite Hr, bool_decide_eq_true_2 by done. cbn [negb].
  rewrite bool_decide_eq_true_2 by exact Hp. by destruct (applyCmd now cmd (re_store e)).
Qed.

Lemma propose_refused now cmd e :
  n_role (re_node e) ≠ RoleLeader → Node_propose Saved now cmd e = (Err (not_leader (re_node e)), e).
Proof.
  intros Hr. unfold Node_propose, propose. rewrite bool_decide_eq_false_2 by done. by destruct e.
Qed.

Lemma proposeWait_refused now cmd e :
  n_role (re_node e) ≠ RoleLeader → Node_proposeWait Saved now cmd e = (Err (not_leader (re_node e)), e).
Proof.
  intros Hr. unfold Node_proposeWait, proposeWait_begin. rewrite bool_decide_eq_false_2 by done. by destruct e.
Qed.

(** C36 (a node as the storage engine): on a node alone in its cluster every
    operation returns what the state machine returns and leaves the state
    machine as the operation leaves it.  On a node that does not lead, reads
    and scans are the local ones and every write is refused with the address
    of the leader the node knows, changing nothing. *)
Theorem node_engine_spec now (e : RaftEngine) :
  let n := re_node e in
  let s := re_store e in
  (n_role n = RoleLeader → n_peers n = [] →
     (∀ k v, as_store (ePut now k v s) (ePut now k v e)) ∧ (∀ k, as_store (eDelete now k s) (eDelete now k e)) ∧
     as_store (eClear now s) (eClear now e) ∧ (∀ k, as_store (eIncr now k s) (eIncr now k e)) ∧
     (∀ k old new, as_store (eCAS now k old new s) (eCAS now k old new e)) ∧
     (∀ k d, as_store (eExpire now k d s) (eExpire now k d e))) ∧
  (n_role n ≠ RoleLeader →
     let err := NotLeaderError (Leader n) in
     (∀ k v, ePut now k v e = (Err err, e)) ∧ (∀ k, eDelete now k e = (Err err, e)) ∧ eClear now e = (Err err, e) ∧
     (∀ k, eIncr now k e = (Err err, e)) ∧ (∀ k old new, eCAS now k old new e = (Err err, e)) ∧
     (∀ k d, eExpire now k d e = (Err err, e))) ∧
  (∀ k, eGet now k e = ((eGet now k s).1, set_store (eGet now k s).2 e)) ∧
  (∀ cursor count pattern, eScan now cursor count pattern e = eScan now cursor count pattern s).
Proof.
  intros n s. split_and!.
  - intros Hr Hp.
    pose proof (λ cmd, propose_alone now cmd e Hr Hp) as H1. pose proof (λ cmd, proposeWait_alone now cmd e Hr Hp) as H2.
    split_and!; intros.
    + specialize (H1 (Put_cmd k v)). unfold applyCmd in H1. simpl in H1 |- *. fold s in H1. by destruct (ePut now k v s) as [[[]|]].
    + specialize (H1 (Delete_cmd k)). unfold applyCmd in H1. simpl in H1 |- *. fold s in H1. by destruct (eDelete now k s) as [[[]|]].
    + specialize (H1 Clear_cmd). unfold applyCmd in H1. simpl in H1 |- *. fold s in H1. by destruct (eClear now s) as [[[]|]].
    + specialize (H2 (Incr_cmd k)). unfold applyCmd in H2. simpl in H2 |- *. fold s in H2. destruct (Node_proposeWait _ _ _ e) as [r e'].
      destruct (eIncr now k s) as [[v|]]; destruct H2 as [Hr' Hrest]; simpl in Hr'; subst r; exact (conj eq_refl Hrest).
    + specialize (H2 (CAS_cmd k old new)). unfold applyCmd in H2. simpl in H2 |- *. fold s in H2. destruct (Node_proposeWait _ _ _ e) as [r e'].
      destruct (eCAS now k old new s) as [[v|]]; destruct H2 as [Hr' Hrest]; simpl in Hr'; subst r; exact (conj eq_refl Hrest).
    + specialize (H2 (Expire_cmd k d)). unfold applyCmd in H2. simpl in H2 |- *. fold s in H2. destruct (Node_proposeWait _ _ _ e) as [r e'].
      destruct (eExpire now k d s) as [[[]|]]; destruct H2 as [Hr' Hrest]; simpl in Hr'; subst r; exact (conj eq_refl Hrest).
  - intros Hr err. split_and!; intros; simpl; rewrite ?propose_refused, ?proposeWait_refused by done; done.
  - intros k. simpl. fold s. by destruct (eGet now k s).
  - done.
Qed.
End engine.
Arguments RaftEngine : clear implicits.

(** The apply loop on a node alone: a node without peers executes a command
    inside [propose] and raises the commit index but not the applied index, so
    an apply loop started on it executes the command a second time. *)
Theorem alone_applies_twice :
  let e := mkRaftEngine (NewNode "a" []) RaftState_zero NewMemStore (Some newApplyTracker) in
  let (r, e1) := eIncr 5 "n"%string e in
  let '(n2, s2, _) := applyLoop [6] (re_node e1) (re_store e1) newApplyTracker in
  r = Ok 1 ∧ (eGet 7 "n"%string (re_store e1)).1 = Ok "1"%string ∧ (eGet 7 "n"%string s2).1 = Ok "2"%string.
Proof. vm_compute. split_and!; reflexivity. Qed.
