(* ===== verification/RaftStore.v ===== *)
(** * RaftStore: the raft state on disk, pkg/raft/persistence.go

    The JSON of a [RaftState] as [json.Marshal] prints it and [json.Unmarshal]
    reads it, the file store and the encrypted store on the calls of Disk, and
    the proof that they implement the cell RaftNode's [persist] writes to: a
    save is all or nothing, and once it returned it survives every crash. *)

From S2P Require Import Prelude GoLib Engine Json Disk Crypto RaftNode.

(** ** Marshal *)

Definition Op_code (o : Op) : Z :=
  match o with
  | OpPut => 1 | OpDelete => 2 | OpClear => 3 | OpIncr => 4 | OpCAS => 5 | OpExpire => 6
  | OpOther c => c
  end.

Definition Op_of_code (c : Z) : Op :=
  if c =? 1 then OpPut else if c =? 2 then OpDelete else if c =? 3 then OpClear
  else if c =? 4 then OpIncr else if c =? 5 then OpCAS else if c =? 6 then OpExpire else OpOther c.

Definition jint (z : Z) : json := JNum (FormatInt z).

Definition marshal_command (c : Command) : json :=
  JObj [("Op"%string, jint (Op_code (cmd_Op c))); ("Key"%string, JStr (cmd_Key c));
        ("Old"%string, JStr (cmd_Old c)); ("Value"%string, JStr (cmd_Value c));
        ("ExpiresAt"%string, jint (cmd_ExpiresAt c))].

Definition marshal_log_entry (e : Entry) : json :=
  JObj [("Term"%string, jint (Term e)); ("Cmd"%string, marshal_command (Cmd e))].

(** [Log] is built with [append([]Entry(nil), ...)]: an empty one is nil. *)
Definition marshal_log (l : list Entry) : json :=
  match l with [] => JNull | _ => JArr (marshal_log_entry <$> l) end.

Definition marshal_state_json (st : RaftState) : json :=
  JObj [("Term"%string, jint (rs_Term st));
        ("VotedFor"%string, match rs_VotedFor st with None => JNull | Some v => JStr v end);
        ("Log"%string, marshal_log (rs_Log st));
        ("LastIncludedIndex"%string, jint (rs_LastIncludedIndex st));
        ("LastIncludedTerm"%string, jint (rs_LastIncludedTerm st))].

Definition marshal_state (st : RaftState) : bytes := print (marshal_state_json st).

(** ** Unmarshal *)

(** A [uint8]: no sign, at most 255. *)
Definition decode_uint8 (cur : Z) (j : json) : option Z :=
  match j with
  | JNum lit =>
      match bytes_of_string lit with
      | "-"%char :: _ => None
      | _ => v ← ParseInt lit; if v <=? 255 then Some v else None
      end
  | JNull => Some cur
  | _ => None
  end.

Definition set_command (key : string) (j : json) (c : Command) : option Command :=
  if is_field "Op" key then
    o ← decode_uint8 (Op_code (cmd_Op c)) j;
    Some (mkCommand (Op_of_code o) (cmd_Key c) (cmd_Old c) (cmd_Value c) (cmd_ExpiresAt c))
  else if is_field "Key" key then
    k ← decode_string (cmd_Key c) j; Some (mkCommand (cmd_Op c) k (cmd_Old c) (cmd_Value c) (cmd_ExpiresAt c))
  else if is_field "Old" key then
    o ← decode_string (cmd_Old c) j; Some (mkCommand (cmd_Op c) (cmd_Key c) o (cmd_Value c) (cmd_ExpiresAt c))
  else if is_field "Value" key then
    v ← decode_string (cmd_Value c) j; Some (mkCommand (cmd_Op c) (cmd_Key c) (cmd_Old c) v (cmd_ExpiresAt c))
  else if is_field "ExpiresAt" key then
    x ← decode_int (cmd_ExpiresAt c) j; Some (mkCommand (cmd_Op c) (cmd_Key c) (cmd_Old c) (cmd_Value c) x)
  else Some c.

Definition set_log_entry (key : string) (j : json) (e : Entry) : option Entry :=
  if is_field "Term" key then t ← decode_int (Term e) j; Some (mkEntry t (Cmd e))
  else if is_field "Cmd" key then c ← decode_struct set_command (Cmd e) j; Some (mkEntry (Term e) c)
  else Some e.

Definition zero_entry : Entry := mkEntry 0 (mkCommand (OpOther 0) "" "" "" 0).

(** A slice of structs: [null] makes it nil, and the elements are decoded into
    zero values. *)
Definition decode_log (j : json) : option (list Entry) :=
  match j with
  | JArr l => mapM (decode_struct set_log_entry zero_entry) l
  | JNull => Some []
  | _ => None
  end.

(** A [*string]. *)
Definition decode_string_ptr (cur : option string) (j : json) : option (option string) :=
  match j with
  | JNull => Some None
  | j => Some <$> decode_string (default ""%string cur) j
  end.

Definition set_state (key : string) (j : json) (st : RaftState) : option RaftState :=
  let '(mkRaftState t v l i it) := st in
  if is_field "Term" key then x ← decode_int t j; Some (mkRaftState x v l i it)
  else if is_field "VotedFor" key then x ← decode_string_ptr v j; Some (mkRaftState t x l i it)
  else if is_field "Log" key then x ← decode_log j; Some (mkRaftState t v x i it)
  else if is_field "LastIncludedIndex" key then x ← decode_int i j; Some (mkRaftState t v l x it)
  else if is_field "LastIncludedTerm" key then x ← decode_int it j; Some (mkRaftState t v l i x)
  else Some st.

Definition unmarshal_state (data : bytes) : res RaftState :=
  match j ← parse data; decode_struct set_state RaftState_zero j with
  | Some st => Ok st
  | None => Err (ErrMsg "unmarshal raft state")
  end.

(** ** The stores *)

(** The body both [Save] methods share: temp file, fsync, rename, fsync of the
    directory. *)
Definition save_file (path : string) (data : bytes) : IO unit :=
  let tmp := tmp_of path in
  open_trunc tmp ;;;
  on_error (write tmp data) (attempt close ;;; remove tmp) ;;;
  on_error (fsync tmp) (attempt close ;;; remove tmp) ;;;
  close ;;;
  rename_file tmp path ;;;
  open_dir ;;;
  finally sync_dir close.

Record fileRaftStore : Type := mkFileStore { fr_path : string }.
Record encryptedRaftStore : Type := mkEncStore { er_path : string; er_enc : atRestCipher }.

Definition NewFileRaftStore (path : string) : fileRaftStore := mkFileStore path.
Definition NewEncryptedFileRaftStore (path : string) (enc : atRestCipher) : encryptedRaftStore :=
  mkEncStore path enc.

Definition raftEncryptedMagic : ascii := byte_of_Z 0xE5.

Definition fileRaftStore_Save (s : fileRaftStore) (st : RaftState) : IO unit :=
  save_file (fr_path s) (marshal_state st).

(** What [Load] makes of the contents of the file. *)
Definition plain_state (c : option bytes) : res RaftState :=
  match c with None => Ok RaftState_zero | Some data => unmarshal_state data end.

Definition lift_res {A} (r : res A) : IO A := λ w, (r, w).

Definition fileRaftStore_Load (s : fileRaftStore) : IO RaftState :=
  c <- read_file (fr_path s) ;;
  lift_res (plain_state c).

(** [nonce] is what [rand.Read] hands to [Encrypt]. *)
Definition encryptedRaftStore_Save (s : encryptedRaftStore) (nonce : option bytes) (st : RaftState) : IO unit :=
  sealed <- lift_res (Encrypt (er_enc s) nonce (marshal_state st)) ;;
  save_file (er_path s) (raftEncryptedMagic :: sealed).

Definition sealed_state (enc : atRestCipher) (c : option bytes) : res RaftState :=
  match c with
  | None => Ok RaftState_zero
  | Some (b :: sealed) =>
      if decide (b = raftEncryptedMagic)
      then let! plain := Decrypt enc sealed in unmarshal_state plain
      else Err (ErrMsg "raft state file is not encrypted")
  | Some [] => Err (ErrMsg "raft state file is not encrypted")
  end.

Definition encryptedRaftStore_Load (s : encryptedRaftStore) : IO RaftState :=
  c <- read_file (er_path s) ;;
  lift_res (sealed_state (er_enc s) c).

(** ** Round trip of the state *)

Definition command_ok (c : Command) : Prop :=
  0 <= Op_code (cmd_Op c) <= 255 ∧ Op_of_code (Op_code (cmd_Op c)) = cmd_Op c ∧
  ValidString (cmd_Key c) = true ∧ ValidString (cmd_Old c) = true ∧ ValidString (cmd_Value c) = true ∧
  in_int64 (cmd_ExpiresAt c).

(** What survives JSON: valid UTF-8 and Go integers. *)
Definition state_ok (st : RaftState) : Prop :=
  in_int64 (rs_Term st) ∧ in_int64 (rs_LastIncludedIndex st) ∧ in_int64 (rs_LastIncludedTerm st) ∧
  (∀ v, rs_VotedFor st = Some v → ValidString v = true) ∧
  Forall (λ e, in_int64 (Term e) ∧ command_ok (Cmd e)) (rs_Log st).

Lemma decode_uint8_jint cur c : 0 <= c <= 255 → decode_uint8 cur (jint c) = Some c.
Proof.
  intros Hc.
  assert (Hall : Forall (λ n, decode_uint8 0 (jint (Z.of_nat n)) = Some (Z.of_nat n)) (seq 0 256)).
  { apply (bool_decide_unpack (Forall _ _)). vm_compute. exact I. }
  rewrite Forall_seq in Hall. specialize (Hall (Z.to_nat c)). rewrite Z2Nat.id in Hall by lia.
  rewrite <- Hall by lia. done.
Qed.

Lemma decode_int_jint cur z : in_int64 z → decode_int cur (jint z) = Some z.
Proof. intros Hz. simpl. by apply ParseInt_FormatInt. Qed.

Arguments jint : simpl never.
Arguments decode_int : simpl never.
Arguments decode_uint8 : simpl never.

Lemma unmarshal_command c c0 : command_ok c → decode_struct set_command c0 (marshal_command c) = Some c.
Proof.
  intros (Ho & Hoc & _ & _ & _ & Hx). destruct c as [o k old v x]. simpl in *.
  unfold set_command at 5. simpl. rewrite decode_uint8_jint by done. simpl.
  unfold set_command. simpl. rewrite decode_int_jint by done. simpl. by rewrite Hoc.
Qed.

Lemma unmarshal_log_entry e e0 :
  in_int64 (Term e) → command_ok (Cmd e) → decode_struct set_log_entry e0 (marshal_log_entry e) = Some e.
Proof.
  intros Ht Hc. destruct e as [t c]. simpl in *. unfold set_log_entry at 2. simpl.
  rewrite decode_int_jint by done. simpl. unfold set_log_entry. simpl.
  pose proof (unmarshal_command c (Cmd e0) Hc) as Hu. unfold decode_struct in Hu. simpl in Hu. by rewrite Hu.
Qed.

Lemma unmarshal_log l :
  Forall (λ e, in_int64 (Term e) ∧ command_ok (Cmd e)) l →
  decode_log (marshal_log l) = Some l.
Proof.
  intros Hl. destruct l as [|e l]; [done|]. unfold decode_log. apply mapM_Some.
  apply Forall2_fmap_l. apply Forall_Forall2_diag. eapply Forall_impl; [done|]. intros x [Hx1 Hx2].
  by apply unmarshal_log_entry.
Qed.

Lemma set_state_fields st0 st :
  state_ok st → decode_struct set_state st0 (marshal_state_json st) = Some st.
Proof.
  intros (Ht & Hi & Hit & _ & Hl). destruct st0 as [t0 v0 l0 i0 it0], st as [t v l i it].
  unfold decode_struct, marshal_state_json. cbn [foldl fst snd mbind option_bind rs_Term rs_VotedFor rs_Log
    rs_LastIncludedIndex rs_LastIncludedTerm] in *.
  change (set_state "Term" ?j (mkRaftState ?a ?b ?c ?d ?e))
    with (x ← decode_int a j; Some (mkRaftState x b c d e)).
  rewrite decode_int_jint by done. cbn [mbind option_bind].
  change (set_state "VotedFor" ?j (mkRaftState ?a ?b ?c ?d ?e))
    with (x ← decode_string_ptr b j; Some (mkRaftState a x c d e)).
  assert (decode_string_ptr v0 (match v with None => JNull | Some v => JStr v end) = Some v) as -> by by destruct v.
  cbn [mbind option_bind].
  change (set_state "Log" ?j (mkRaftState ?a ?b ?c ?d ?e)) with (x ← decode_log j; Some (mkRaftState a b x d e)).
  rewrite unmarshal_log by done. cbn [mbind option_bind].
  change (set_state "LastIncludedIndex" ?j (mkRaftState ?a ?b ?c ?d ?e))
    with (x ← decode_int d j; Some (mkRaftState a b c x e)).
  rewrite decode_int_jint by done. cbn [mbind option_bind].
  change (set_state "LastIncludedTerm" ?j (mkRaftState ?a ?b ?c ?d ?e))
    with (x ← decode_int e j; Some (mkRaftState a b c d x)).
  by rewrite decode_int_jint.
Qed.

Lemma jint_wf z : json_wf (jint z).
Proof. apply FormatInt_wf. Qed.

Lemma marshal_command_wf c : json_wf (marshal_command c).
Proof. unfold marshal_command. cbn [json_wf foldr]. split_and!; (done || apply jint_wf). Qed.

Lemma marshal_state_wf st : json_wf (marshal_state_json st).
Proof.
  unfold marshal_state_json. cbn [json_wf foldr]. split_and!; try apply jint_wf; try done.
  - by destruct (rs_VotedFor st).
  - unfold marshal_log. destruct (rs_Log st) as [|e l]; [done|]. cbn [json_wf]. generalize (e :: l). intros l'.
    induction l' as [|x l' IH]; [done|]. csimpl. split; [|done]. unfold marshal_log_entry. cbn [json_wf foldr].
    split; [apply jint_wf|]. split; [apply marshal_command_wf|done].
Qed.

Lemma coerce_log_entry e : command_ok (Cmd e) → coerce_json (marshal_log_entry e) = marshal_log_entry e.
Proof. intros (_ & _ & Hk & Ho & Hv & _). simpl. by rewrite !(coerce_valid _ Hk), !(coerce_valid _ Ho), !(coerce_valid _ Hv). Qed.

Lemma coerce_state st : state_ok st → coerce_json (marshal_state_json st) = marshal_state_json st.
Proof.
  intros (_ & _ & _ & Hv & Hl).
  assert (Hv' : coerce_json (match rs_VotedFor st with None => JNull | Some v => JStr v end) =
    match rs_VotedFor st with None => JNull | Some v => JStr v end).
  { destruct (rs_VotedFor st) as [v|]; [|done]. simpl. by rewrite coerce_valid by auto. }
  assert (Hl' : coerce_json (marshal_log (rs_Log st)) = marshal_log (rs_Log st)).
  { unfold marshal_log. destruct (rs_Log st) as [|e l]; [done|]. cbn [coerce_json]. f_equal.
    induction Hl as [|x l' [_ Hx] Hl' IH]; [done|]. cbn [fmap list_fmap map].
    by rewrite coerce_log_entry, IH. }
  unfold marshal_state_json. rewrite coerce_obj. cbn [map coerce_member]. by rewrite Hv', Hl'.
Qed.

Lemma unmarshal_marshal_state st : state_ok st → unmarshal_state (marshal_state st) = Ok st.
Proof.
  intros Hst. unfold unmarshal_state, marshal_state.
  rewrite <- (app_nil_r (print _)), parse_print by (done || apply marshal_state_wf).
  cbn [mbind option_bind]. rewrite coerce_state by done. by rewrite set_state_fields.
Qed.

(** ** Saving is atomic *)

Section save.
Context (path : string) (data : bytes) (f0 : FS).

Local Abbreviation tmp := (tmp_of path).
Local Abbreviation any := (λ _ : option bytes, True).

(** The cleanup after a failed write or fsync. *)
Lemma cleanup_triple e :
  triple (writing path f0 any any) (attempt close ;;; remove tmp) (λ _, write_post path data f0 (Err e))
    (crash_inv path data f0).
Proof.
  eapply (triple_bind _ _ (λ _, write_post path data f0 (Err e))).
  - intros w Hw. unfold attempt. pose proof (idle_triple path data f0 (writing path f0 any any)
      (λ f Hf, writing_inv path data f0 _ _ f Hf) w Hw) as Hc.
    destruct (close w) as [r w']. destruct Hc as [Hc ?]. split; [|done]. by apply failed_post.
  - intros _. apply remove_triple.
  - done.
Qed.

Lemma save_file_triple :
  triple (writing path f0 any any) (save_file path data) (write_post path data f0) (crash_inv path data f0).
Proof.
  unfold save_file.
  eapply triple_bind; [apply open_trunc_triple|intros []|intros; by apply failed_post].
  eapply (triple_bind _ _ (λ r f, match r with Ok _ => writing path f0 (.= Some data) any f
                                  | Err e => write_post path data f0 (Err e) f end));
    [eapply triple_on_error; [apply write_triple|done|]|intros []|done].
  { intros e. eapply triple_conseq; [|apply (cleanup_triple e)|done]. done. }
  eapply (triple_bind _ _ (λ r f, match r with Ok _ => writing path f0 (.= Some data) (.= Some data) f
                                  | Err e => write_post path data f0 (Err e) f end));
    [eapply triple_on_error; [apply fsync_triple|done|]|intros []|done].
  { intros e. eapply triple_conseq; [|apply (cleanup_triple e)|done]. done. }
  eapply triple_bind; [apply idle_triple, writing_inv|intros []|intros e f Hf; eapply failed_post, writing_any, Hf].
  eapply triple_bind; [apply rename_triple|intros []|intros; by apply failed_post].
  eapply triple_bind; [apply (idle_triple _ _ _ _ (renamed_inv path data f0))|intros []|].
  { eapply triple_finally; [apply sync_dir_triple|intros r].
    eapply triple_conseq; [intros f Hf; exact Hf|apply idle_triple|intros r' f; apply replaced_post].
    intros f Hf. by apply (replaced_post path data f0 r). }
  intros e f Hf. apply (replaced_post path data f0 (Err e)). done.
Qed.
End save.

Lemma save_file_crash_safe path data w :
  settled path (fs w) →
  let (r, w') := save_file path data w in
  (∃ new, hist w' = new ++ hist w ∧
     Forall (λ f, ∀ g, crash f g → may_hold path (fs w) (vol g !! path) ∨ vol g !! path = Some data) new) ∧
  (r = Ok () → ∀ g, crash (fs w') g → vol g !! path = Some data).
Proof.
  intros Hs. pose proof (save_file_triple path data (fs w) w) as Ht.
  destruct (save_file path data w) as [r w'].
  destruct Ht as ((Hinv & Hrep) & new & Hh & Hnew); [done|]. split.
  - exists new. split; [done|]. eapply Forall_impl; [exact Hnew|]. intros f Hf g Hc.
    by apply (crash_inv_crash path data (fs w) f g).
  - intros Hr g Hc. by eapply replaced_crash, Hc; apply Hrep.
Qed.

(** ** The interface *)

(** The two implementations of [RaftStore]. *)
Inductive RaftStore : Type := PlainStore (s : fileRaftStore) | SealedStore (s : encryptedRaftStore).

Definition store_path (s : RaftStore) : string :=
  match s with PlainStore s => fr_path s | SealedStore s => er_path s end.

Definition Save (s : RaftStore) (nonce : option bytes) (st : RaftState) : IO unit :=
  match s with
  | PlainStore s => fileRaftStore_Save s st
  | SealedStore s => encryptedRaftStore_Save s nonce st
  end.

Definition Load (s : RaftStore) : IO RaftState :=
  match s with PlainStore s => fileRaftStore_Load s | SealedStore s => encryptedRaftStore_Load s end.

(** What [Load] returns from a disk, when reading succeeds. *)
Definition stored (s : RaftStore) (f : FS) : res RaftState := (Load s (mkWorld f [] [])).1.

(** The cipher behaves as documented. *)
Definition store_ok (s : RaftStore) (nonce : option bytes) : Prop :=
  match s with PlainStore _ => True | SealedStore s => AEAD_laws (aead (er_enc s)) ∧ nonce_ok nonce end.

(** What a [Save] writes is what a [Load] reads. *)
Lemma Save_data s nonce st :
  store_ok s nonce → state_ok st →
  (∃ e, Save s nonce st = lift_res (Err e)) ∨
  ∃ data, Save s nonce st = save_file (store_path s) data ∧
    ∀ f, vol f !! store_path s = Some data → stored s f = Ok st.
Proof.
  intros Hs Hst. destruct s as [s|s]; simpl.
  - right. exists (marshal_state st). split; [done|]. intros f Hf. unfold stored, Load, fileRaftStore_Load, bind.
    simpl in *. rewrite Hf. by apply unmarshal_marshal_state.
  - destruct Hs as [Hlaws Hn]. destruct (Encrypt (er_enc s) nonce (marshal_state st)) as [sealed|e] eqn:E.
    2: { left. exists e. unfold encryptedRaftStore_Save, bind. by rewrite E. }
    right. exists (raftEncryptedMagic :: sealed). split.
    { unfold encryptedRaftStore_Save, bind. by rewrite E. }
    intros f Hf. unfold stored, Load, encryptedRaftStore_Load, bind. simpl in *. rewrite Hf.
    destruct (Decrypt_Encrypt _ _ _ _ Hlaws Hn E) as [Hd _]. unfold sealed_state, res_bind.
    rewrite decide_True by done. rewrite Hd. by apply unmarshal_marshal_state.
Qed.

Lemma durable_SetRaftStore st id peers : durable (SetRaftStore st (NewNode id peers)) = st.
Proof.
  unfold SetRaftStore. destruct st. simpl. destruct (0 <? _); simpl; destruct (0 <? _); done.
Qed.

(** C12 (the raft state survives crashes): saving a state whose strings are
    valid UTF-8, in the plain or in the encrypted store, is all or nothing: a
    crash at any point leaves a file that was there before or one from which
    [Load] returns the new state; once [Save] has returned nil every crash
    leaves the new state, and a node restarted on it has the term, the vote,
    the log and the base that were saved. *)
Theorem raft_state_survives s nonce st w :
  store_ok s nonce → state_ok st → settled (store_path s) (fs w) →
  let (r, w') := Save s nonce st w in
  (∃ new, hist w' = new ++ hist w ∧
     Forall (λ f, ∀ g, crash f g →
       may_hold (store_path s) (fs w) (vol g !! store_path s) ∨ stored s g = Ok st) new) ∧
  (r = Ok () → ∀ g id peers, crash (fs w') g →
     ∃ st', stored s g = Ok st' ∧ durable (SetRaftStore st' (NewNode id peers)) = st).
Proof.
  intros Hs Hst Hset. destruct (Save_data s nonce st Hs Hst) as [[e He]|(data & He & Hread)]; rewrite He.
  { simpl. split; [by exists []|done]. }
  pose proof (save_file_crash_safe (store_path s) data w Hset) as Hsafe.
  destruct (save_file (store_path s) data w) as [r w']. destruct Hsafe as [(new & Hh & Hnew) Hok]. split.
  - exists new. split; [done|]. eapply Forall_impl; [exact Hnew|]. intros f Hf g Hc. simpl in *.
    destruct (Hf g Hc); [by left|right]. by apply Hread.
  - intros Hr g id peers Hc. exists st. split; [by apply Hread, Hok|]. apply durable_SetRaftStore.
Qed.

Definition demo_state : RaftState :=
  mkRaftState 3 (Some "A"%string) [mkEntry 2 (mkCommand OpCAS "k" "old" "new" 0); mkEntry 3 (mkCommand OpExpire "k" "" "" 77)] 4 2.

Lemma raft_state_survives_witness :
  let s := SealedStore (NewEncryptedFileRaftStore "raft-state.json" (mkCipher toy_aead)) in
  let nonce := Some (replicate 12 "n"%char) in
  let w := mkWorld (at_rest ∅) [] [] in
  let (r, w') := Save s nonce demo_state w in
  r = Ok () ∧ ∀ g, crash (fs w') g →
    ∃ st', stored s g = Ok st' ∧ durable (SetRaftStore st' (NewNode "A" ["B"%string])) = demo_state.
Proof.
  intros s nonce w. assert (Hr : (Save s nonce demo_state w).1 = Ok ()) by (vm_compute; reflexivity).
  pose proof (raft_state_survives s nonce demo_state w) as H.
  destruct (Save s nonce demo_state w) as [r w']. simpl in Hr. split; [exact Hr|].
  destruct H as [_ H].
  - split; [apply toy_aead_laws|reflexivity].
  - repeat constructor; try (vm_compute; congruence). intros v [= <-]. reflexivity.
  - right. reflexivity.
  - intros g Hc. by apply H.
Defined.
