(* ===== verification/Api.v ===== *)
(** * Api: the REST layer, pkg/api

    Handlers, middleware and metrics over any [Engine].  A request carries
    what [net/http] parsed (method, path segments, query, body); a response is
    what the handler writes.  A handler runs at a clock reading and may panic
    ([None]). *)

From S2P Require Import Prelude GoLib Engine Json.

(** ** net/http, as far as the handlers use it *)

(** The body of a request: its bytes, and whether reading fails after them. *)
Record Body : Type := mkBody { b_data : bytes; b_fails : bool }.

Record Request : Type := mkRequest {
  rq_Method : string;
  rq_Path : list string;               (* the segments of the clean, decoded path; an empty one after a trailing slash *)
  rq_URI : string;                     (* RequestURI() *)
  rq_Query : list (string * string);
  rq_Body : Body
}.

Record Response : Type := mkResponse {
  rp_Status : Z;
  rp_ContentType : string;
  rp_Location : string;
  rp_Body : bytes
}.

(** [url.Values.Get]: the first value, or the empty string. *)
Fixpoint query_get (q : list (string * string)) (key : string) : string :=
  match q with
  | [] => ""
  | (k, v) :: q => if decide (k = key) then v else query_get q key
  end.

(** [io.ReadAll] of a body under [http.MaxBytesHandler(next, limit)]. *)
Inductive read_result : Type := ReadOk (b : bytes) | ReadTooLarge | ReadFailed.

Definition ReadAll (limit : Z) (b : Body) : read_result :=
  if limit <? zlen (b_data b) then ReadTooLarge
  else if b_fails b then ReadFailed
  else ReadOk (b_data b).

Definition newline : bytes := ["010"%char].

(** [http.Error]. *)
Definition http_Error (msg : string) (code : Z) : Response :=
  mkResponse code "text/plain; charset=utf-8" "" (bytes_of_string msg ++ newline).

(** [writeJSON]: [json.Encoder] prints the value and a newline; the members of
    a map come in the order of their keys. *)
Definition writeJSON (status : Z) (payload : json) : Response :=
  mkResponse status "application/json" "" (print payload ++ newline).

Definition json_error (msg : string) : json := JObj [("error"%string, JStr msg)].
Definition json_ok (key : string) : json := JObj [("key"%string, JStr key); ("ok"%string, JStr "true")].

(** [err.Error()]. *)
Definition Error (e : go_error) : string :=
  match e with
  | ErrNotFound => "key not found"
  | ErrClosed => "store closed"
  | ErrNotNumeric => "value is not a base-10 integer"
  | ErrOverflow => "value overflows int64"
  | ErrInvalidCursor => "invalid scan cursor"
  | ErrDecrypt => "at-rest decrypt failed: wrong key or corrupt data"
  | NotLeaderError a => NotLeaderError_Error a
  | ErrUnexpectedEOF => "unexpected EOF"
  | ErrEOF => "EOF"
  | ErrMsg m => m
  end.

(** ** metrics.go *)

Record Metrics : Type := mkMetrics {
  totalReq : Z;
  latencySumNs : Z;
  latencyCount : Z;
  totalKeys : Z;
  statuses : gmap Z Z
}.

Definition NewMetrics : Metrics := mkMetrics 0 0 0 0 ∅.

Definition Record_ (status d : Z) (m : Metrics) : Metrics :=
  mkMetrics (u64 (totalReq m + 1)) (u64 (latencySumNs m + u64 d)) (u64 (latencyCount m + 1)) (totalKeys m)
    (<[status := u64 (default 0 (statuses m !! status) + 1)]> (statuses m)).

Definition add_keys (d : Z) (m : Metrics) : Metrics :=
  mkMetrics (totalReq m) (latencySumNs m) (latencyCount m) (i64_of_u64 (u64 (totalKeys m + d))) (statuses m).
Definition IncrKeys : Metrics → Metrics := add_keys 1.
Definition DecrKeys : Metrics → Metrics := add_keys (-1).
Definition TotalKeys (m : Metrics) : Z := totalKeys m.

(** ** The server *)

Section api.
Context `{Engine SM}.

Record Server : Type := mkServer { engine : SM; metrics : Metrics }.

Definition NewServer (e : SM) : Server := mkServer e NewMetrics.
Definition set_engine (e : SM) (s : Server) : Server := mkServer e (metrics s).
Definition map_metrics (f : Metrics → Metrics) (s : Server) : Server := mkServer (engine s) (f (metrics s)).

Definition Handler : Type := Z → Request → Server → option Response * Server.

(** [handleWriteError]: the response when the error is a [NotLeaderError]. *)
Definition handleWriteError (r : Request) (e : go_error) : option Response :=
  match e with
  | NotLeaderError addr =>
      if decide (addr = ""%string) then Some (http_Error "no leader elected" 503)
      else Some (mkResponse 307 "" (String.append addr (rq_URI r)) [])
  | _ => None
  end.

(** An error nobody else handled. *)
Definition write_failed (r : Request) (e : go_error) : Response :=
  match handleWriteError r e with
  | Some resp => resp
  | None => writeJSON 500 (json_error (Error e))
  end.

Definition handleGet (key : string) : Handler := λ now r s,
  let '(v, e) := eGet now key (engine s) in
  let s := set_engine e s in
  match v with
  | Err ErrNotFound => (Some (http_Error "key not found" 404), s)
  | Err err => (Some (writeJSON 500 (json_error (Error err))), s)
  | Ok value => (Some (mkResponse 200 "text/plain" "" (bytes_of_string value)), s)
  end.

Definition maxBodyBytes : Z := 2 ^ 20.

Definition handlePut (key : string) : Handler := λ now r s,
  match ReadAll maxBodyBytes (rq_Body r) with
  | ReadTooLarge => (Some (http_Error "request body too large" 413), s)
  | ReadFailed => (Some (writeJSON 400 (json_error "failed to read body")), s)
  | ReadOk body =>
      let '(v, e) := eGet now key (engine s) in
      let s := set_engine e s in
      let s := match v with Err ErrNotFound => map_metrics IncrKeys s | _ => s end in
      let '(v, e) := ePut now key (string_of_bytes body) (engine s) in
      let s := set_engine e s in
      match v with
      | Err err => (Some (write_failed r err), s)
      | Ok _ => (Some (writeJSON 200 (json_ok key)), s)
      end
  end.

Definition handleDelete (key : string) : Handler := λ now r s,
  let '(v, e) := eGet now key (engine s) in
  let s := set_engine e s in
  let s := match v with Ok _ => map_metrics DecrKeys s | _ => s end in
  let '(v, e) := eDelete now key (engine s) in
  let s := set_engine e s in
  match v with
  | Err err => (Some (write_failed r err), s)
  | Ok _ => (Some (mkResponse 200 "" "" []), s)
  end.

(** Ten years, in nanoseconds. *)
Definition maxTTL : Z := 10 * 365 * 24 * 3600 * 1000000000.

Definition handleExpire (key : string) : Handler := λ now r s,
  let ttlStr := query_get (rq_Query r) "ttl" in
  if decide (ttlStr = ""%string) then (Some (writeJSON 400 (json_error "missing ttl query parameter")), s)
  else
    let bad := (Some (writeJSON 400 (json_error "ttl must be a positive duration in nanoseconds")), s) in
    match ParseInt ttlStr with
    | None => bad
    | Some ttl =>
        if (ttl <=? 0) || (maxTTL <? ttl) then bad
        else
          let '(v, e) := eExpire now key (i64_of_u64 (u64 (now + ttl))) (engine s) in
          let s := set_engine e s in
          match v with
          | Err ErrNotFound => (Some (http_Error "key not found" 404), s)
          | Err err => (Some (write_failed r err), s)
          | Ok _ => (Some (writeJSON 200 (json_ok key)), s)
          end
    end.

Definition handleIncr (key : string) : Handler := λ now r s,
  let '(v, e) := eIncr now key (engine s) in
  let s := set_engine e s in
  match v with
  | Err ErrNotNumeric => (Some (writeJSON 422 (json_error "value is not a base-10 integer")), s)
  | Err ErrOverflow => (Some (writeJSON 422 (json_error "value overflows int64")), s)
  | Err err => (Some (write_failed r err), s)
  | Ok value => (Some (writeJSON 200 (JObj [("key"%string, JStr key); ("value"%string, JNum (FormatInt value))])), s)
  end.

(** The anonymous request struct of [handleCAS]. *)
Definition set_cas (field : string) (j : json) (c : string * string) : option (string * string) :=
  if is_field "old" field then o ← decode_string c.1 j; Some (o, c.2)
  else if is_field "new" field then n ← decode_string c.2 j; Some (c.1, n)
  else Some c.

Definition unmarshal_cas (body : bytes) : option (string * string) :=
  j ← parse body; decode_struct set_cas (""%string, ""%string) j.

Definition handleCAS (key : string) : Handler := λ now r s,
  match ReadAll maxBodyBytes (rq_Body r) with
  | ReadTooLarge => (Some (http_Error "request body too large" 413), s)
  | ReadFailed => (Some (writeJSON 400 (json_error "failed to read body")), s)
  | ReadOk body =>
      match unmarshal_cas body with
      | None => (Some (writeJSON 400 (json_error "body must be JSON with old and new fields")), s)
      | Some (old, new) =>
          let '(v, e) := eCAS now key old new (engine s) in
          let s := set_engine e s in
          match v with
          | Err ErrNotFound => (Some (http_Error "key not found" 404), s)
          | Err err => (Some (write_failed r err), s)
          | Ok false => (Some (writeJSON 409 (json_error "cas mismatch")), s)
          | Ok true => (Some (writeJSON 200 (json_ok key)), s)
          end
      end
  end.

Definition defaultCount : Z := 100.
Definition maxCount : Z := 1000.
Definition maxCursorLen : Z := 4096.
Definition maxPatternLen : Z := 256.

Definition json_items (items : list KeyValue) : json :=
  JArr ((λ kv, JObj [("key"%string, JStr (kv_Key kv)); ("value"%string, JStr (kv_Value kv))]) <$> items).

(** The page size asked for: [None] for a bad one. *)
Definition scan_count (cs : string) : option Z :=
  if decide (cs = ""%string) then Some defaultCount
  else n ← ParseInt cs; if (n <? 1) || (maxCount <? n) then None else Some n.

Definition handleScan : Handler := λ now r s,
  let cursor := query_get (rq_Query r) "cursor" in
  if maxCursorLen <? slen cursor then (Some (writeJSON 400 (json_error "cursor too long")), s)
  else
    match scan_count (query_get (rq_Query r) "count") with
    | None => (Some (writeJSON 400 (json_error "count must be between 1 and 1000")), s)
    | Some count =>
        let pattern := query_get (rq_Query r) "pattern" in
        if maxPatternLen <? slen pattern then (Some (writeJSON 400 (json_error "pattern too long")), s)
        else
          match eScan now cursor count pattern (engine s) with
          | Err err => (Some (writeJSON 500 (json_error (Error err))), s)
          | Ok (items, next) =>
              (Some (writeJSON 200 (JObj [("cursor"%string, JStr next); ("items"%string, json_items items)])), s)
          end
    end.

(** ** middleware.go and server.go *)

(** The class [a-zA-Z0-9:] of [keyPattern]. *)
Definition key_char (b : ascii) : bool :=
  between 48 58 b || between 65 90 b || between 97 122 b.

Definition keyPattern_MatchString (key : string) : bool :=
  negb (bool_decide (key = ""%string)) && forallb key_char (bytes_of_string key).

Definition validateKey (next : string → Handler) (key : string) : Handler := λ now r s,
  if keyPattern_MatchString key then next key now r s
  else (Some (http_Error "key must contain only alphanumeric characters" 400), s).

(** [logRequests]: [Record] runs only when the handler returned; [d] is the
    time it took. *)
Definition logRequests (d : Z) (next : Handler) : Handler := λ now r s,
  match next now r s with
  | (Some resp, s) => (Some resp, map_metrics (Record_ (rp_Status resp) d) s)
  | (None, s) => (None, s)
  end.

Definition recoverPanic (next : Handler) : Handler := λ now r s,
  match next now r s with
  | (Some resp, s) => (Some resp, s)
  | (None, s) => (Some (http_Error "internal server error" 500), s)
  end.

(** [cors]: preflight requests are answered here; the headers it adds to every
    response are constant and not part of [Response]. *)
Definition cors (next : Handler) : Handler := λ now r s,
  if decide (rq_Method r = "OPTIONS"%string) then (Some (mkResponse 204 "" "" []), s)
  else next now r s.

(** The routes of [Server.Handler] for keys: the method patterns of a path, of
    which [GET] also serves [HEAD]; a wildcard needs a segment that is not empty.
    The last route, [GET /metrics], is in Metrics, whose [Full_Handler] serves all
    other paths as [Server_Handler] does. *)
Definition routes (path : list string) : list (string * Handler) :=
  match path with
  | ["kv"; ""] => []
  | ["kv"; key] =>
      [("GET", validateKey handleGet key); ("PUT", validateKey handlePut key);
       ("DELETE", validateKey handleDelete key)]
  | ["kv"; key; "expire"] => [("PUT", validateKey handleExpire key)]
  | ["kv"; key; "incr"] => [("POST", validateKey handleIncr key)]
  | ["kv"; key; "cas"] => [("PUT", validateKey handleCAS key)]
  | ["kv"] => [("GET", handleScan)]
  | _ => []
  end%string.

Fixpoint find_route (m : string) (l : list (string * Handler)) : option Handler :=
  match l with
  | [] => None
  | (m', h) :: l => if decide (m = m' ∨ m = "HEAD"%string ∧ m' = "GET"%string) then Some h else find_route m l
  end.

Definition mux : Handler := λ now r s,
  match routes (rq_Path r) with
  | [] => (Some (http_Error "404 page not found" 404), s)
  | l =>
      match find_route (rq_Method r) l with
      | Some h => h now r s
      | None => (Some (http_Error "Method Not Allowed" 405), s)
      end
  end.

Definition Server_Handler (d : Z) : Handler := cors (recoverPanic (logRequests d mux)).

(** ** What the routes do *)

(** A request that a key route serves. *)
Lemma Server_Handler_route d now r s h resp s' :
  rq_Method r ≠ "OPTIONS"%string → routes (rq_Path r) ≠ [] →
  find_route (rq_Method r) (routes (rq_Path r)) = Some h → h now r s = (Some resp, s') →
  Server_Handler d now r s = (Some resp, map_metrics (Record_ (rp_Status resp) d) s').
Proof.
  intros Hm Hr Hf Hh. unfold Server_Handler, cors, recoverPanic, logRequests, mux.
  rewrite decide_False by done. destruct (routes (rq_Path r)) as [|x l] eqn:E; [done|]. by rewrite Hf, Hh.
Qed.

(** Every handler answers. *)
Definition answers (h : Handler) : Prop := ∀ now r s, is_Some (h now r s).1.

Lemma validateKey_answers h key : (∀ k, answers (h k)) → answers (validateKey h key).
Proof. intros Hh now r s. unfold validateKey. case_match; [apply Hh|by eexists]. Qed.

Ltac answer := intros ???; repeat case_match; simplify_eq/=; by eexists.

Lemma handleGet_answers k : answers (handleGet k).
Proof. unfold handleGet. answer. Qed.
Lemma handlePut_answers k : answers (handlePut k).
Proof. unfold handlePut. answer. Qed.
Lemma handleDelete_answers k : answers (handleDelete k).
Proof. unfold handleDelete. answer. Qed.
Lemma handleExpire_answers k : answers (handleExpire k).
Proof. unfold handleExpire. answer. Qed.
Lemma handleIncr_answers k : answers (handleIncr k).
Proof. unfold handleIncr. answer. Qed.
Lemma handleCAS_answers k : answers (handleCAS k).
Proof. unfold handleCAS. answer. Qed.
Lemma handleScan_answers : answers handleScan.
Proof. unfold handleScan. answer. Qed.

Hint Resolve validateKey_answers handleGet_answers handlePut_answers handleDelete_answers
  handleExpire_answers handleIncr_answers handleCAS_answers handleScan_answers : kv.

Lemma routes_answer path : Forall (λ e, answers e.2) (routes path).
Proof. unfold routes. repeat case_match; repeat constructor; simpl; auto with kv. Qed.

Lemma find_route_answers m l h : Forall (λ e, answers e.2) l → find_route m l = Some h → answers h.
Proof.
  induction l as [|[m' h'] l IH]; intros Hl Hf; [done|]. apply Forall_cons in Hl as [Hh Hl]. simpl in Hf.
  case_decide; [by simplify_eq|by apply IH].
Qed.

Lemma mux_answers : answers mux.
Proof.
  intros now r s. unfold mux. pose proof (routes_answer (rq_Path r)) as Hr.
  destruct (routes (rq_Path r)) as [|x l]; [by eexists|].
  destruct (find_route (rq_Method r) (x :: l)) as [h|] eqn:Hf; [|by eexists].
  by eapply find_route_answers.
Qed.

(** The server's answer to a request is the router's, counted once. *)
Lemma Server_Handler_mux d now r s :
  rq_Method r ≠ "OPTIONS"%string →
  ∃ x s', mux now r s = (Some x, s') ∧ Server_Handler d now r s = (Some x, map_metrics (Record_ (rp_Status x) d) s').
Proof.
  intros Hm. destruct (mux_answers now r s) as [x Hx]. destruct (mux now r s) as [resp s'] eqn:E. simpl in Hx. subst resp.
  exists x, s'. split; [done|]. unfold Server_Handler, cors, recoverPanic, logRequests.
  rewrite decide_False by done. by rewrite E.
Qed.

(** No handler counts requests itself. *)
Definition counters (m : Metrics) : Z * Z * Z * gmap Z Z := (totalReq m, latencySumNs m, latencyCount m, statuses m).
Definition uncounted (h : Handler) : Prop := ∀ now r s, counters (metrics (h now r s).2) = counters (metrics s).

Lemma validateKey_uncounted h key : (∀ k, uncounted (h k)) → uncounted (validateKey h key).
Proof. intros Hh now r s. unfold validateKey. case_match; [apply Hh|done]. Qed.

Ltac uncount := intros ???; repeat case_match; simplify_eq/=; done.

Lemma handleGet_uncounted k : uncounted (handleGet k).
Proof. unfold handleGet. uncount. Qed.
Lemma handlePut_uncounted k : uncounted (handlePut k).
Proof. unfold handlePut. uncount. Qed.
Lemma handleDelete_uncounted k : uncounted (handleDelete k).
Proof. unfold handleDelete. uncount. Qed.
Lemma handleExpire_uncounted k : uncounted (handleExpire k).
Proof. unfold handleExpire. uncount. Qed.
Lemma handleIncr_uncounted k : uncounted (handleIncr k).
Proof. unfold handleIncr. uncount. Qed.
Lemma handleCAS_uncounted k : uncounted (handleCAS k).
Proof. unfold handleCAS. uncount. Qed.
Lemma handleScan_uncounted : uncounted handleScan.
Proof. unfold handleScan. uncount. Qed.

Hint Resolve validateKey_uncounted handleGet_uncounted handlePut_uncounted handleDelete_uncounted
  handleExpire_uncounted handleIncr_uncounted handleCAS_uncounted handleScan_uncounted : kv.

Lemma routes_uncounted path : Forall (λ e, uncounted e.2) (routes path).
Proof. unfold routes. repeat case_match; repeat constructor; simpl; auto with kv. Qed.

Lemma find_route_in m l h : find_route m l = Some h → ∃ m', (m', h) ∈ l.
Proof.
  induction l as [|[m' h'] l IH]; simpl; [done|]. case_decide.
  - intros [= ->]. exists m'. by left.
  - intros Hf. destruct (IH Hf) as [m'' ?]. exists m''. by right.
Qed.

Lemma mux_uncounted : uncounted mux.
Proof.
  intros now r s. unfold mux. pose proof (routes_uncounted (rq_Path r)) as Hr.
  destruct (routes (rq_Path r)) as [|x l]; [done|].
  destruct (find_route (rq_Method r) (x :: l)) as [h|] eqn:Hf; [|done].
  destruct (find_route_in _ _ _ Hf) as [m' Hin].
  rewrite Forall_forall in Hr. apply (Hr _ Hin).
Qed.

(** A route of a path is what the router serves. *)
Lemma mux_route now r s h :
  find_route (rq_Method r) (routes (rq_Path r)) = Some h → mux now r s = h now r s.
Proof. intros Hf. unfold mux. destruct (routes (rq_Path r)) as [|x l]; [done|]. by rewrite Hf. Qed.

(** The answer to a write another node has to take. *)
Definition redirected (r : Request) (leader : string) : Response :=
  if decide (leader = ""%string) then http_Error "no leader elected" 503
  else mkResponse 307 "" (String.append leader (rq_URI r)) [].

Lemma write_failed_redirects r a : write_failed r (NotLeaderError a) = redirected r a.
Proof. unfold write_failed, handleWriteError, redirected. by case_decide. Qed.

(** Refused writes, handler by handler. *)
Lemma handlePut_too_large key now r s :
  maxBodyBytes < zlen (b_data (rq_Body r)) → handlePut key now r s = (Some (http_Error "request body too large" 413), s).
Proof. intros Hbig%Z.ltb_lt. unfold handlePut, ReadAll. by rewrite Hbig. Qed.

Lemma handleCAS_too_large key now r s :
  maxBodyBytes < zlen (b_data (rq_Body r)) → handleCAS key now r s = (Some (http_Error "request body too large" 413), s).
Proof. intros Hbig%Z.ltb_lt. unfold handleCAS, ReadAll. by rewrite Hbig. Qed.

Lemma ReadAll_ok r b : rq_Body r = mkBody b false → zlen b <= maxBodyBytes → ReadAll maxBodyBytes (rq_Body r) = ReadOk b.
Proof. intros -> Hl. unfold ReadAll. cbn [b_data b_fails]. by destruct (Z.ltb_spec maxBodyBytes (zlen b)); [lia|]. Qed.

Lemma handlePut_redirects key now r s b leader x s' :
  handlePut key now r s = (Some x, s') → rq_Body r = mkBody b false → zlen b <= maxBodyBytes →
  (ePut now key (string_of_bytes b) (eGet now key (engine s)).2).1 = Err (NotLeaderError leader) → x = redirected r leader.
Proof.
  intros Hx Hb Hl He. unfold handlePut in Hx. rewrite (ReadAll_ok r b) in Hx by done.
  destruct (eGet now key (engine s)) as [v e1]. cbn [fst snd] in He.
  set (s1 := match v with Err ErrNotFound => _ | _ => _ end) in Hx.
  assert (Hs1 : engine s1 = e1) by (unfold s1; destruct v as [|[]]; done). rewrite Hs1 in Hx.
  destruct (ePut now key (string_of_bytes b) e1) as [v' e2]. cbn [fst] in He. subst v'.
  rewrite write_failed_redirects in Hx. by simplify_eq.
Qed.

Lemma handleDelete_redirects key now r s leader x s' :
  handleDelete key now r s = (Some x, s') →
  (eDelete now key (eGet now key (engine s)).2).1 = Err (NotLeaderError leader) → x = redirected r leader.
Proof.
  intros Hx He. unfold handleDelete in Hx. destruct (eGet now key (engine s)) as [v e1]. cbn [fst snd] in He.
  set (s1 := match v with Ok _ => _ | _ => _ end) in Hx.
  assert (Hs1 : engine s1 = e1) by (unfold s1; destruct v; done). rewrite Hs1 in Hx.
  destruct (eDelete now key e1) as [v' e2]. cbn [fst] in He. subst v'.
  rewrite write_failed_redirects in Hx. by simplify_eq.
Qed.

Lemma handleIncr_redirects key now r s leader x s' :
  handleIncr key now r s = (Some x, s') →
  (eIncr now key (engine s)).1 = Err (NotLeaderError leader) → x = redirected r leader.
Proof.
  intros Hx He. unfold handleIncr in Hx. destruct (eIncr now key (engine s)) as [v' e2]. cbn [fst] in He. subst v'.
  rewrite write_failed_redirects in Hx. by simplify_eq.
Qed.

Lemma handleCAS_redirects key now r s b old new leader x s' :
  handleCAS key now r s = (Some x, s') → rq_Body r = mkBody b false → zlen b <= maxBodyBytes →
  unmarshal_cas b = Some (old, new) →
  (eCAS now key old new (engine s)).1 = Err (NotLeaderError leader) → x = redirected r leader.
Proof.
  intros Hx Hb Hl Hc He. unfold handleCAS in Hx. rewrite (ReadAll_ok r b), Hc in Hx by done.
  destruct (eCAS now key old new (engine s)) as [v' e2]. cbn [fst] in He. subst v'.
  rewrite write_failed_redirects in Hx. by simplify_eq.
Qed.

(** The paths that carry a key. *)
Definition path_key (path : list string) : option string :=
  match path with
  | ["kv"; key] | ["kv"; key; "expire"] | ["kv"; key; "incr"] | ["kv"; key; "cas"] => Some key
  | _ => None
  end%string.

Lemma bad_key_refused path key m h now r s :
  path_key path = Some key → keyPattern_MatchString key = false → find_route m (routes path) = Some h →
  h now r s = (Some (http_Error "key must contain only alphanumeric characters" 400), s).
Proof.
  intros Hp Hk Hf. destruct (find_route_in _ _ _ Hf) as [m' Hin]. revert Hin.
  assert (Hv : ∀ g, validateKey g key now r s =
    (Some (http_Error "key must contain only alphanumeric characters" 400), s)).
  { intros g. unfold validateKey. by rewrite Hk. }
  unfold path_key in Hp. unfold routes. repeat case_match; simplify_eq/=;
    repeat setoid_rewrite elem_of_cons; rewrite ?elem_of_nil; naive_solver.
Qed.


Context `{!EngineLaws SM}.

Lemma handleGet_spec key now r s :
  let v := view now (engine s) !! key in
  let '(resp, s') := handleGet key now r s in
  resp = Some (match v with
               | Some x => mkResponse 200 "text/plain" "" (bytes_of_string x)
               | None => http_Error "key not found" 404
               end) ∧ view now (engine s') = view now (engine s).
Proof.
  simpl. unfold handleGet. pose proof (eGet_ok now key (engine s)) as H1.
  pose proof (eGet_view now key (engine s) now ltac:(lia)) as H2.
  destruct (eGet now key (engine s)) as [v e]. simpl in *. subst v.
  destruct (view now (engine s) !! key); simpl; (split; [done|exact H2]).
Qed.

Lemma handlePut_spec key now r s b :
  rq_Body r = mkBody b false → zlen b <= maxBodyBytes →
  let '(resp, s') := handlePut key now r s in
  resp = Some (writeJSON 200 (json_ok key)) ∧
  view now (engine s') = <[key := string_of_bytes b]> (view now (engine s)).
Proof.
  intros Hb Hl. unfold handlePut. rewrite Hb. unfold ReadAll. cbn [b_data b_fails].
  destruct (Z.ltb_spec maxBodyBytes (zlen b)); [lia|].
  pose proof (eGet_view now key (engine s) now ltac:(lia)) as H2.
  destruct (eGet now key (engine s)) as [v e]. cbn [fst snd] in H2.
  set (s1 := match v with Err ErrNotFound => _ | _ => _ end).
  assert (Hs1 : engine s1 = e) by (unfold s1; destruct v as [|[]]; done).
  pose proof (ePut_ok now key (string_of_bytes b) (engine s1)) as H3.
  pose proof (ePut_view now key (string_of_bytes b) (engine s1) now) as H4.
  destruct (ePut now key (string_of_bytes b) (engine s1)) as [v' e']. cbn [fst snd] in H3, H4. subst v'.
  split; [done|]. simpl. by rewrite H4, Hs1, H2.
Qed.

Lemma handleDelete_spec key now r s :
  let '(resp, s') := handleDelete key now r s in
  resp = Some (mkResponse 200 "" "" []) ∧ view now (engine s') = delete key (view now (engine s)).
Proof.
  unfold handleDelete. pose proof (eGet_view now key (engine s) now ltac:(lia)) as H2.
  destruct (eGet now key (engine s)) as [v e]. cbn [fst snd] in H2.
  set (s1 := match v with Ok _ => _ | _ => _ end).
  assert (Hs1 : engine s1 = e) by (unfold s1; destruct v; done).
  pose proof (eDelete_ok now key (engine s1)) as H3. pose proof (eDelete_view now key (engine s1) now) as H4.
  destruct (eDelete now key (engine s1)) as [v' e']. cbn [fst snd] in H3, H4. subst v'.
  split; [done|]. simpl. by rewrite H4, Hs1, H2.
Qed.

Lemma handleIncr_spec key now r s :
  let v := incr_spec (view now (engine s) !! key) in
  let '(resp, s') := handleIncr key now r s in
  resp = Some (match v with
               | Ok n => writeJSON 200 (JObj [("key"%string, JStr key); ("value"%string, JNum (FormatInt n))])
               | Err ErrNotNumeric => writeJSON 422 (json_error "value is not a base-10 integer")
               | Err _ => writeJSON 422 (json_error "value overflows int64")
               end) ∧
  view now (engine s') =
    match v with Ok n => <[key := FormatInt n]> (view now (engine s)) | Err _ => view now (engine s) end.
Proof.
  simpl. unfold handleIncr. pose proof (eIncr_ok now key (engine s)) as H1.
  pose proof (eIncr_view now key (engine s)) as H2. destruct (eIncr now key (engine s)) as [v e].
  cbn [fst snd] in H1, H2. subst v. revert H2. unfold incr_spec.
  destruct (view now (engine s) !! key) as [x|]; [|by intros; split].
  destruct (ParseInt x) as [n|]; [|by intros; split]. case_decide; by intros; split.
Qed.

Lemma handleCAS_spec key now r s b old new :
  rq_Body r = mkBody b false → zlen b <= maxBodyBytes → unmarshal_cas b = Some (old, new) →
  let cur := view now (engine s) !! key in
  let '(resp, s') := handleCAS key now r s in
  resp = Some (match cur with
               | None => http_Error "key not found" 404
               | Some x => if decide (x = old) then writeJSON 200 (json_ok key)
                           else writeJSON 409 (json_error "cas mismatch")
               end) ∧
  view now (engine s') = (if decide (cur = Some old) then <[key := new]> (view now (engine s)) else view now (engine s)).
Proof.
  intros Hb Hl Hc. simpl. unfold handleCAS. rewrite Hb. unfold ReadAll. cbn [b_data b_fails].
  destruct (Z.ltb_spec maxBodyBytes (zlen b)); [lia|]. rewrite Hc.
  pose proof (eCAS_ok now key old new (engine s)) as H1.
  pose proof (eCAS_view now key old new (engine s) now ltac:(lia)) as H2.
  destruct (eCAS now key old new (engine s)) as [v e]. cbn [fst snd] in H1, H2. subst v.
  destruct (view now (engine s) !! key) as [x|]; [|by split].
  destruct (decide (x = old)) as [->|Hne]; [rewrite bool_decide_true by done|rewrite bool_decide_false by done]; by split.
Qed.

Lemma handleExpire_spec key now r s ttl t :
  ParseInt (query_get (rq_Query r) "ttl") = Some ttl → 0 < ttl <= maxTTL → 0 <= now → in_int64 (now + ttl) →
  now <= t →
  let cur := view now (engine s) !! key in
  let '(resp, s') := handleExpire key now r s in
  resp = Some (match cur with
               | None => http_Error "key not found" 404
               | Some _ => writeJSON 200 (json_ok key)
               end) ∧
  view t (engine s') = match cur with
                       | None => view t (engine s)
                       | Some x => if decide (now + ttl <= t) then delete key (view t (engine s))
                                   else <[key := x]> (view t (engine s))
                       end.
Proof.
  intros Hp Httl Hnow Hr Ht. simpl. unfold handleExpire.
  destruct (decide (query_get (rq_Query r) "ttl" = ""%string)) as [E|_]; [by rewrite E in Hp|]. rewrite Hp.
  destruct (Z.leb_spec ttl 0), (Z.ltb_spec maxTTL ttl); try lia. simpl. rewrite i64_u64 by done.
  pose proof (eExpire_ok now key (now + ttl) (engine s)) as Hres.
  pose proof (eExpire_view now key (now + ttl) (engine s) t Ht ltac:(lia)) as Hview.
  destruct (eExpire now key (now + ttl) (engine s)) as [v e]. cbn [fst snd] in Hres, Hview. subst v.
  destruct (view now (engine s) !! key) as [x|]; by split.
Qed.

(** What holds of a handler's response and engine holds of the server's. *)
Lemma served_by d now r s key h (P : Response → SM → Prop) :
  keyPattern_MatchString key = true → rq_Method r ≠ "OPTIONS"%string → routes (rq_Path r) ≠ [] →
  find_route (rq_Method r) (routes (rq_Path r)) = Some (validateKey h key) →
  (let '(resp, s') := h key now r s in ∃ x, resp = Some x ∧ P x (engine s')) →
  let '(resp, s') := Server_Handler d now r s in ∃ x, resp = Some x ∧ P x (engine s').
Proof.
  intros Hk Hm Hr Hf Hh. destruct (h key now r s) as [resp s1] eqn:E. destruct Hh as (x & -> & HP).
  rewrite (Server_Handler_route d now r s (validateKey h key) x s1); try done.
  - by exists x.
  - unfold validateKey. by rewrite Hk.
Qed.

(** C13 (the REST API): over any engine that keeps its contract, requests on a
    valid key answer and act as documented on the visible map: GET returns the
    value or 404; PUT of up to 1 MB stores the body; DELETE removes the key;
    incr counts, with 422 for a value that is no integer or is the largest;
    cas swaps, or answers 409 or 404; expire makes the key disappear at the
    deadline and not before. *)
Theorem api_semantics d now r s key :
  keyPattern_MatchString key = true →
  let m := view now (engine s) in
  let run := Server_Handler d now r s in
  let post (P : Response → SM → Prop) := ∃ x, run.1 = Some x ∧ P x (engine run.2) in
  (rq_Method r = "GET"%string → rq_Path r = ["kv"; key]%string →
    post (λ x e, x = (match m !! key with
                      | Some v => mkResponse 200 "text/plain" "" (bytes_of_string v)
                      | None => http_Error "key not found" 404
                      end) ∧ view now e = m)) ∧
  (rq_Method r = "PUT"%string → rq_Path r = ["kv"; key]%string →
    ∀ b, rq_Body r = mkBody b false → zlen b <= maxBodyBytes →
    post (λ x e, x = writeJSON 200 (json_ok key) ∧ view now e = <[key := string_of_bytes b]> m)) ∧
  (rq_Method r = "DELETE"%string → rq_Path r = ["kv"; key]%string →
    post (λ x e, rp_Status x = 200 ∧ view now e = delete key m)) ∧
  (rq_Method r = "POST"%string → rq_Path r = ["kv"; key; "incr"]%string →
    post (λ x e, match incr_spec (m !! key) with
                 | Ok n => x = writeJSON 200 (JObj [("key"%string, JStr key); ("value"%string, JNum (FormatInt n))])
                           ∧ view now e = <[key := FormatInt n]> m
                 | Err _ => rp_Status x = 422 ∧ view now e = m
                 end)) ∧
  (rq_Method r = "PUT"%string → rq_Path r = ["kv"; key; "cas"]%string →
    ∀ b old new, rq_Body r = mkBody b false → zlen b <= maxBodyBytes → unmarshal_cas b = Some (old, new) →
    post (λ x e, rp_Status x = (match m !! key with
                                | None => 404
                                | Some v => if decide (v = old) then 200 else 409
                                end) ∧
                 view now e = (if decide (m !! key = Some old) then <[key := new]> m else m))) ∧
  (rq_Method r = "PUT"%string → rq_Path r = ["kv"; key; "expire"]%string →
    ∀ ttl t, ParseInt (query_get (rq_Query r) "ttl") = Some ttl → 0 < ttl <= maxTTL → 0 <= now →
    in_int64 (now + ttl) → now <= t →
    post (λ x e, match m !! key with
                 | None => rp_Status x = 404 ∧ view t e = view t (engine s)
                 | Some v => rp_Status x = 200 ∧
                     view t e = (if decide (now + ttl <= t) then delete key (view t (engine s))
                                 else <[key := v]> (view t (engine s)))
                 end)).
Proof.
  intros Hk m run post. destruct key as [|c key]; [discriminate Hk|].
  assert (Hserve : ∀ h P, rq_Method r ≠ "OPTIONS"%string → routes (rq_Path r) ≠ [] →
    find_route (rq_Method r) (routes (rq_Path r)) = Some (validateKey h (String c key)) →
    (let '(resp, s') := h (String c key) now r s in ∃ x, resp = Some x ∧ P x (engine s')) → post P).
  { intros h P H1 H2 H3 H4. pose proof (served_by d now r s (String c key) h P Hk H1 H2 H3 H4) as H5.
    unfold post, run. by destruct (Server_Handler d now r s). }
  split_and!; intros Hm Hp.
  - apply (Hserve handleGet); [by rewrite Hm|rewrite Hp; discriminate|rewrite Hp, Hm; reflexivity|].
    pose proof (handleGet_spec (String c key) now r s) as Hs. simpl in Hs. destruct (handleGet (String c key) now r s). naive_solver.
  - intros b Hb Hl. apply (Hserve handlePut); [by rewrite Hm|rewrite Hp; discriminate|rewrite Hp, Hm; reflexivity|].
    pose proof (handlePut_spec (String c key) now r s b Hb Hl) as Hs. destruct (handlePut (String c key) now r s). naive_solver.
  - apply (Hserve handleDelete); [by rewrite Hm|rewrite Hp; discriminate|rewrite Hp, Hm; reflexivity|].
    pose proof (handleDelete_spec (String c key) now r s) as Hs. destruct (handleDelete (String c key) now r s). naive_solver.
  - apply (Hserve handleIncr); [by rewrite Hm|rewrite Hp; discriminate|rewrite Hp, Hm; reflexivity|].
    pose proof (handleIncr_spec (String c key) now r s) as Hs. simpl in Hs. fold m in Hs.
    destruct (handleIncr (String c key) now r s) as [resp s']. destruct Hs as [-> Hv]. eexists. split; [done|].
    destruct (incr_spec (m !! (String c key))) as [n|e]; [by split|]. by destruct e.
  - intros b old new Hb Hl Hc. apply (Hserve handleCAS); [by rewrite Hm|rewrite Hp; discriminate|rewrite Hp, Hm; reflexivity|].
    pose proof (handleCAS_spec (String c key) now r s b old new Hb Hl Hc) as Hs. simpl in Hs. fold m in Hs.
    destruct (handleCAS (String c key) now r s) as [resp s']. destruct Hs as [-> Hv]. eexists. split; [done|]. split; [|done].
    destruct (m !! (String c key)) as [v|]; [|done]. destruct (decide (v = old)); reflexivity.
  - intros ttl t Ht Hr Hn Hi Hle. apply (Hserve handleExpire); [by rewrite Hm|rewrite Hp; discriminate|rewrite Hp, Hm; reflexivity|].
    pose proof (handleExpire_spec (String c key) now r s ttl t Ht Hr Hn Hi Hle) as Hs. simpl in Hs. fold m in Hs.
    destruct (handleExpire (String c key) now r s) as [resp s']. destruct Hs as [-> Hv]. eexists. split; [done|].
    destruct (m !! (String c key)); by split.
Qed.
End api.
Arguments Server : clear implicits.
Arguments Handler : clear implicits.

(** ** Witnesses, over [MemStore] *)
From S2P Require Import MemStore.


Lemma api_semantics_witness :
  let s := NewServer (Put "k" "41" NewMemStore) in
  let r := mkRequest "POST" ["kv"; "k"; "incr"]%string "/kv/k/incr" [] (mkBody [] false) in
  let run := Server_Handler 0 5 r s in
  keyPattern_MatchString "k" = true ∧
  ∃ x, run.1 = Some x ∧ rp_Status x = 200 ∧ view 5 (engine run.2) = <["k"%string := "42"%string]> (view 5 (engine s)).
Proof.
  intros s r run. split; [reflexivity|].
  destruct (api_semantics 0 5 r s "k" eq_refl) as (_ & _ & _ & Hincr & _).
  destruct (Hincr eq_refl eq_refl) as (x & Hx & Hpost). exists x. split; [exact Hx|].
  replace (incr_spec (view 5 (engine s) !! "k"%string)) with (Ok 42 : res Z) in Hpost by reflexivity.
  destruct Hpost as [-> Hv]. split; [reflexivity|exact Hv].
Defined.
