(* ===== verification/ApiTypes.v ===== *)
(** * ApiTypes: the shape of every response

    The responses of the routes of [Api] have types: a status the API documents, and
    for a JSON body the members of its route, or an error text.  The body is
    what [json.Encoder] prints, so that a client's decoder reads it back,
    whatever bytes keys and values hold. *)

From S2P Require Import Prelude GoLib Engine Json Api.

(** ** Shapes *)

Inductive member_type : Type := TString | TInteger | TItems.

Definition is_item (j : json) : bool :=
  match j with
  | JObj [(k, JStr _); (v, JStr _)] => bool_decide (k = "key"%string) && bool_decide (v = "value"%string)
  | _ => false
  end.

(** The text of an [int64] as [FormatInt] prints it: no fraction, no exponent, no
    leading zero. *)
Definition is_int64 (lit : string) : bool :=
  if ParseInt lit is Some n then bool_decide (lit = FormatInt n) else false.

Definition has_type (t : member_type) (j : json) : bool :=
  match t, j with
  | TString, JStr _ => true
  | TInteger, JNum lit => is_int64 lit
  | TItems, JArr l => forallb is_item l
  | _, _ => false
  end.

(** Exactly these members, in the order of their names. *)
Fixpoint has_members (ts : list (string * member_type)) (ms : list (string * json)) : bool :=
  match ts, ms with
  | [], [] => true
  | (k, t) :: ts, (k', j) :: ms => bool_decide (k = k') && has_type t j && has_members ts ms
  | _, _ => false
  end.

Definition typed (ts : list (string * member_type)) (j : json) : bool :=
  if j is JObj ms then has_members ts ms else false.

Definition ok_type : list (string * member_type) := [("key", TString); ("ok", TString)]%string.
Definition incr_type : list (string * member_type) := [("key", TString); ("value", TInteger)]%string.
Definition scan_type : list (string * member_type) := [("cursor", TString); ("items", TItems)]%string.
Definition error_type : list (string * member_type) := [("error", TString)]%string.

(** The JSON body of a success, by method and path; [None]: it is not JSON. *)
Definition success_type (method : string) (path : list string) : option (list (string * member_type)) :=
  match path with
  | ["kv"; _] => if decide (method = "PUT") then Some ok_type else None
  | ["kv"; _; "expire"] | ["kv"; _; "cas"] => Some ok_type
  | ["kv"; _; "incr"] => Some incr_type
  | ["kv"] => Some scan_type
  | _ => None
  end%string.

Definition api_statuses : list Z := [200; 204; 307; 400; 404; 405; 409; 413; 422; 500; 503].

Definition well_typed (t : option (list (string * member_type))) (x : Response) : Prop :=
  rp_Status x ∈ api_statuses ∧
  (rp_ContentType x = "application/json"%string →
    ∃ j, parse (rp_Body x) = Some j ∧
      if decide (rp_Status x = 200) then ∃ ts, t = Some ts ∧ typed ts j = true else typed error_type j = true) ∧
  (rp_ContentType x ≠ "application/json"%string → rp_Status x = 200 → t = None) ∧
  (rp_Location x ≠ ""%string → rp_Status x = 307).

(** ** Responses that have their type *)

Lemma writeJSON_typed t status j :
  status ∈ api_statuses → json_wf j →
  (if decide (status = 200) then ∃ ts, t = Some ts ∧ typed ts (coerce_json j) = true else typed error_type (coerce_json j) = true) →
  well_typed t (writeJSON status j).
Proof.
  intros Hs Hw Hj. split; [done|]. split; [|done]. intros _. exists (coerce_json j). split; [|done].
  by apply parse_print.
Qed.

Lemma json_error_typed t status msg :
  status ∈ api_statuses → status ≠ 200 → well_typed t (writeJSON status (json_error msg)).
Proof. intros Hs Hne. apply writeJSON_typed; [done|done|]. by rewrite decide_False. Qed.

Lemma json_ok_typed key : well_typed (Some ok_type) (writeJSON 200 (json_ok key)).
Proof. apply writeJSON_typed; [by left|done|]. simpl. by eexists. Qed.

Lemma http_Error_typed t msg status : status ∈ api_statuses → status ≠ 200 → well_typed t (http_Error msg status).
Proof. intros Hs Hne. split; [done|]. split; [done|]. by split. Qed.

Lemma text_typed kind body : kind ≠ "application/json"%string → well_typed None (mkResponse 200 kind "" body).
Proof. intros Hk. split; [by left|]. split; [done|]. by split. Qed.

Lemma empty_typed t : well_typed t (mkResponse 204 "" "" []).
Proof. split; [by apply (bool_decide_unpack _)|]. split; [done|]. by split. Qed.

Lemma write_failed_typed t r e : well_typed t (write_failed r e).
Proof.
  unfold write_failed, handleWriteError. destruct e; try (apply json_error_typed; [by apply (bool_decide_unpack _)|done]).
  case_decide; [apply http_Error_typed; [by apply (bool_decide_unpack _)|done]|].
  split; [by apply (bool_decide_unpack _)|]. split; [done|]. by split.
Qed.

Lemma items_typed items : json_wf (json_items items) ∧ has_type TItems (coerce_json (json_items items)) = true.
Proof.
  unfold json_items. simpl. induction items as [|kv items [IH1 IH2]]; [done|]. rewrite fmap_cons. simpl. split; [done|].
  exact IH2.
Qed.

#[local] Hint Resolve json_ok_typed write_failed_typed : kv.
#[local] Hint Extern 1 (well_typed _ (writeJSON _ (json_error _))) =>
  (apply json_error_typed; [by apply (bool_decide_unpack _)|done]) : kv.
#[local] Hint Extern 1 (well_typed _ (http_Error _ _)) =>
  (apply http_Error_typed; [by apply (bool_decide_unpack _)|done]) : kv.

Lemma is_int64_format n : in_int64 n → is_int64 (FormatInt n) = true.
Proof. intros Hn. unfold is_int64. rewrite ParseInt_FormatInt by done. by apply bool_decide_eq_true. Qed.

(** The counters of an engine are [int64], as the type of [Incr] says. *)
Definition int64_counters (SM : Type) `{Engine SM} : Prop :=
  ∀ now k (e : SM) v, (eIncr now k e).1 = Ok v → in_int64 v.

Lemma lawful_counters `{EngineLaws SM} : int64_counters SM.
Proof.
  intros now k e v. rewrite eIncr_ok. unfold incr_spec. destruct (view now e !! k) as [cur|]; [|by intros [= <-]].
  destruct (ParseInt cur) as [n|] eqn:Hn; [|done]. apply ParseInt_range in Hn. case_decide; [done|].
  intros [= <-]. unfold in_int64, maxInt64 in *. lia.
Qed.

Section types.
Context {SM : Type} `{Engine SM} (Hint : int64_counters SM).

Definition gives (t : option (list (string * member_type))) (h : Handler SM) : Prop :=
  ∀ now r s x s', h now r s = (Some x, s') → well_typed t x.

Ltac give := intros ??????; repeat case_match; simplify_eq/=; auto with kv.

Lemma handleGet_typed key : gives None (handleGet key).
Proof. unfold handleGet. give. by apply text_typed. Qed.
Lemma handlePut_typed key : gives (Some ok_type) (handlePut key).
Proof. unfold handlePut. give. Qed.
Lemma handleDelete_typed key : gives None (handleDelete key).
Proof. unfold handleDelete. give. all: (split; [by left|]; split; [done|]; by split). Qed.
Lemma handleExpire_typed key : gives (Some ok_type) (handleExpire key).
Proof. unfold handleExpire. give. Qed.
Lemma handleIncr_typed key : gives (Some incr_type) (handleIncr key).
Proof.
  unfold handleIncr. intros now r s x s'. pose proof (Hint now key (engine s)) as Hi.
  destruct (eIncr now key (engine s)) as [[v|e] m]; [|repeat case_match; intros ?; simplify_eq/=; auto with kv].
  intros [= <- <-]. apply writeJSON_typed; [by left|split; [done|]; split; [apply FormatInt_wf|done]|]. simpl. eexists. split; [done|].
  simpl. by rewrite is_int64_format by by apply Hi.
Qed.
Lemma handleCAS_typed key : gives (Some ok_type) (handleCAS key).
Proof. unfold handleCAS. give. Qed.
Lemma handleScan_typed : gives (Some scan_type) handleScan.
Proof.
  unfold handleScan. give. match goal with |- context [json_items ?l] => destruct (items_typed l) as [Hw Ht] end. apply writeJSON_typed; [by left|done|]. simpl in *.
  eexists. split; [done|]. simpl. by rewrite Ht.
Qed.

Lemma validateKey_typed t h key : (∀ k, gives t (h k)) → gives t (validateKey h key).
Proof. intros Hh now r s x s'. unfold validateKey. case_match; [apply Hh|]. intros [= <- <-]. auto with kv. Qed.

#[local] Hint Resolve handleGet_typed handlePut_typed handleDelete_typed handleExpire_typed handleIncr_typed
  handleCAS_typed handleScan_typed validateKey_typed : kv.

Lemma routes_typed path m h : find_route m (routes path) = Some h → gives (success_type m path) h.
Proof.
  unfold routes, success_type. intros Hf. repeat case_match; simplify_eq/=; auto with kv.
  all: repeat case_decide; simplify_eq/=; auto with kv; naive_solver.
Qed.

(** Every request of the routes of [Api] gets a response of its type. *)
Lemma Server_Handler_typed d now r s :
  ∃ x, (Server_Handler d now r s).1 = Some x ∧
    well_typed (if decide (rq_Method r = "OPTIONS"%string) then None else success_type (rq_Method r) (rq_Path r)) x.
Proof.
  case_decide as Hm.
  - exists (mkResponse 204 "" "" []). unfold Server_Handler, cors. rewrite decide_True by done. by split; [|apply empty_typed].
  - destruct (Server_Handler_mux d now r s Hm) as (x & s' & Hx & ->). exists x. split; [done|]. revert Hx. unfold mux.
    pose proof (routes_typed (rq_Path r) (rq_Method r)) as Ht. destruct (routes (rq_Path r)) as [|y l].
    { intros [= <- <-]. auto with kv. }
    destruct (find_route (rq_Method r) (y :: l)) as [h|]; [by apply (Ht h eq_refl)|]. intros [= <- <-]. auto with kv.
Qed.
End types.
