(* ===== verification/Standalone.v ===== *)
(** * Standalone: a server without peers, killed and restarted at will

    The composition of the REST layer with the durable store, as [main] runs it
    without PEERS.  The handlers do not distinguish engines that answer alike;
    the durable store answers like the store in memory, and does so again after
    the process was killed and the directory opened; so a client that talks to
    the server between its restarts sees one store in memory that never stops. *)

From S2P Require Import Prelude GoLib Engine MemStore Json Disk Crypto Wal Snapshot DiskStore DiskEngine Batching Durability Api.

(** ** Handlers over two engines *)

(** The writes that the handlers ask their engine for. *)
Definition put_writes (key : string) (r : Request) : list batchRequest :=
  if ReadAll maxBodyBytes (rq_Body r) is ReadOk b then [Put_req 0 key (string_of_bytes b)] else [].
Definition expire_writes (key : string) (now : Z) (r : Request) : list batchRequest :=
  match ParseInt (query_get (rq_Query r) "ttl") with
  | Some ttl => if (ttl <=? 0) || (maxTTL <? ttl) then [] else [Expire_req 0 key (i64_of_u64 (u64 (now + ttl)))]
  | None => []
  end.
Definition cas_writes (key : string) (r : Request) : list batchRequest :=
  match ReadAll maxBodyBytes (rq_Body r) with
  | ReadOk b => match unmarshal_cas b with Some (old, new) => [CAS_req 0 key old new] | None => [] end
  | _ => []
  end.

(** The writes of method [m] on [path]. *)
Definition writes (m : string) (path : list string) (now : Z) (r : Request) : list batchRequest :=
  match path with
  | ["kv"; key] => if decide (m = "PUT") then put_writes key r else if decide (m = "DELETE") then [Delete_req 0 key] else []
  | ["kv"; key; "expire"] => if decide (m = "PUT") then expire_writes key now r else []
  | ["kv"; key; "incr"] => if decide (m = "POST") then [Incr_req 0 key] else []
  | ["kv"; key; "cas"] => if decide (m = "PUT") then cas_writes key r else []
  | _ => []
  end%string.

Lemma writes_GET path now r : writes "GET" path now r = [].
Proof. unfold writes. by repeat case_match. Qed.

Section alike.
Context {E1 E2 : Type} `{Engine E1, Engine E2}.
(** Times and writes for which the engines are related. *)
Context (okt : Z → Prop) (okw : Z → batchRequest → Prop) (R : E1 → E2 → Prop).

Definition same {A} (p : A * E1) (q : A * E2) : Prop := ∃ v a b, p = (v, a) ∧ q = (v, b) ∧ R a b.

Record simulates : Prop := {
  sim_get now k a b : okt now → R a b → same (eGet now k a) (eGet now k b);
  sim_put now k v a b : okt now → okw now (Put_req 0 k v) → R a b → same (ePut now k v a) (ePut now k v b);
  sim_delete now k a b : okt now → okw now (Delete_req 0 k) → R a b → same (eDelete now k a) (eDelete now k b);
  sim_incr now k a b : okt now → okw now (Incr_req 0 k) → R a b → same (eIncr now k a) (eIncr now k b);
  sim_cas now k old new a b :
    okt now → okw now (CAS_req 0 k old new) → R a b → same (eCAS now k old new a) (eCAS now k old new b);
  sim_expire now k d a b : okt now → okw now (Expire_req 0 k d) → R a b → same (eExpire now k d a) (eExpire now k d b);
  sim_scan now cursor count pattern a b : okt now → R a b → eScan now cursor count pattern a = eScan now cursor count pattern b
}.
Context (Hsim : simulates).

Definition servers (s1 : Server E1) (s2 : Server E2) : Prop := R (engine s1) (engine s2) ∧ metrics s1 = metrics s2.

(** Two handlers that give the same response, as long as [ok] holds. *)
Definition alike (ok : Z → Request → Prop) (h1 : Handler E1) (h2 : Handler E2) : Prop :=
  ∀ now r s1 s2, ok now r → servers s1 s2 → (h1 now r s1).1 = (h2 now r s2).1 ∧ servers (h1 now r s1).2 (h2 now r s2).2.

Lemma handleGet_alike key : alike (λ now _, okt now) (handleGet key) (handleGet key).
Proof.
  intros now r s1 s2 Ht [HR Hm]. unfold handleGet.
  destruct (sim_get Hsim now key _ _ Ht HR) as (v & a & b & -> & -> & HR'). by repeat case_match.
Qed.

Lemma handlePut_alike key : alike (λ now r, okt now ∧ Forall (okw now) (put_writes key r)) (handlePut key) (handlePut key).
Proof.
  intros now r s1 s2 [Ht Hw] [HR Hm]. unfold handlePut, put_writes in *. destruct (ReadAll maxBodyBytes (rq_Body r)) as [body| |]; [|done..].
  rewrite Forall_singleton in Hw. destruct (sim_get Hsim now key _ _ Ht HR) as (v & a & b & -> & -> & HR').
  destruct (sim_put Hsim now key (string_of_bytes body) a b Ht Hw HR') as (u & a' & b' & Ha & Hb & HR2).
  assert (Hmet : metrics (match v with Err ErrNotFound => map_metrics IncrKeys (set_engine a s1) | _ => set_engine a s1 end) =
    metrics (match v with Err ErrNotFound => map_metrics IncrKeys (set_engine b s2) | _ => set_engine b s2 end)).
  { repeat case_match; cbn; congruence. }
  assert (He : engine (match v with Err ErrNotFound => map_metrics IncrKeys (set_engine a s1) | _ => set_engine a s1 end) = a ∧
    engine (match v with Err ErrNotFound => map_metrics IncrKeys (set_engine b s2) | _ => set_engine b s2 end) = b) by (by repeat case_match).
  destruct He as [-> ->]. cbv zeta. rewrite Ha, Hb. by destruct u.
Qed.

Lemma handleDelete_alike key : alike (λ now _, okt now ∧ Forall (okw now) [Delete_req 0 key]) (handleDelete key) (handleDelete key).
Proof.
  intros now r s1 s2 [Ht Hw] [HR Hm]. rewrite Forall_singleton in Hw. unfold handleDelete.
  destruct (sim_get Hsim now key _ _ Ht HR) as (v & a & b & -> & -> & HR').
  destruct (sim_delete Hsim now key a b Ht Hw HR') as (u & a' & b' & Ha & Hb & HR2). cbv zeta.
  destruct v as [v|e]; cbn [engine set_engine map_metrics]; rewrite Ha, Hb; destruct u; (split; [done|]); (split; [done|]); cbn; congruence.
Qed.

Lemma handleExpire_alike key :
  alike (λ now r, okt now ∧ Forall (okw now) (expire_writes key now r)) (handleExpire key) (handleExpire key).
Proof.
  intros now r s1 s2 [Ht Hw] [HR Hm]. unfold handleExpire, expire_writes in *. cbv zeta. case_decide; [done|].
  destruct (ParseInt _) as [ttl|]; [|done]. destruct (_ || _); [done|]. rewrite Forall_singleton in Hw.
  destruct (sim_expire Hsim now key _ _ _ Ht Hw HR) as (v & a & b & -> & -> & HR'). by repeat case_match.
Qed.

Lemma handleIncr_alike key : alike (λ now _, okt now ∧ Forall (okw now) [Incr_req 0 key]) (handleIncr key) (handleIncr key).
Proof.
  intros now r s1 s2 [Ht Hw] [HR Hm]. rewrite Forall_singleton in Hw. unfold handleIncr.
  destruct (sim_incr Hsim now key _ _ Ht Hw HR) as (v & a & b & -> & -> & HR'). by repeat case_match.
Qed.

Lemma handleCAS_alike key : alike (λ now r, okt now ∧ Forall (okw now) (cas_writes key r)) (handleCAS key) (handleCAS key).
Proof.
  intros now r s1 s2 [Ht Hw] [HR Hm]. unfold handleCAS, cas_writes in *. destruct (ReadAll maxBodyBytes (rq_Body r)) as [body| |]; [|done..].
  destruct (unmarshal_cas body) as [[old new]|]; [|done]. rewrite Forall_singleton in Hw.
  destruct (sim_cas Hsim now key old new _ _ Ht Hw HR) as (v & a & b & -> & -> & HR'). by repeat case_match.
Qed.

Lemma handleScan_alike : alike (λ now _, okt now) handleScan handleScan.
Proof.
  intros now r s1 s2 Ht [HR Hm]. unfold handleScan. cbv zeta. destruct (_ <? _); [done|]. destruct (scan_count _); [|done].
  destruct (_ <? _); [done|]. rewrite (sim_scan Hsim now _ _ _ _ _ Ht HR). by repeat case_match.
Qed.

Lemma validateKey_alike ok h1 h2 key : alike ok (h1 key) (h2 key) → alike ok (validateKey h1 key) (validateKey h2 key).
Proof. intros Hh now r s1 s2 Hok HR. unfold validateKey. destruct (keyPattern_MatchString key); [by apply Hh|done]. Qed.

(** ** Routes *)

Definition allowed (m : string) (path : list string) (now : Z) (r : Request) : Prop :=
  okt now ∧ Forall (okw now) (writes m path now r).

Lemma alike_weaken (ok ok' : Z → Request → Prop) h1 h2 : (∀ now r, ok' now r → ok now r) → alike ok h1 h2 → alike ok' h1 h2.
Proof. intros Hok Hh now r s1 s2 Ho. by apply Hh, Hok. Qed.

Definition entries_alike (path : list string) (e1 : string * Handler E1) (e2 : string * Handler E2) : Prop :=
  e1.1 = e2.1 ∧ alike (allowed e1.1 path) e1.2 e2.2.

Lemma routes_alike path : Forall2 (entries_alike path) (routes path) (routes path).
Proof.
  unfold routes. repeat case_match; subst; repeat first [apply Forall2_nil_2|apply Forall2_cons_2; [split; [done|]|]]; cbn [fst snd];
    try (apply validateKey_alike); (eapply alike_weaken;
    [|first [apply handleGet_alike|apply handlePut_alike|apply handleDelete_alike|apply handleExpire_alike
      |apply handleIncr_alike|apply handleCAS_alike|apply handleScan_alike]]); unfold allowed; cbn; tauto.
Qed.

Lemma find_route_alike path m l1 l2 :
  Forall2 (entries_alike path) l1 l2 →
  match find_route m l1, find_route m l2 with
  | Some h1, Some h2 => ∃ m', (m = m' ∨ m' = "GET"%string) ∧ alike (allowed m' path) h1 h2
  | None, None => True
  | _, _ => False
  end.
Proof.
  induction 1 as [|[m1 h1] [m2 h2] l1 l2 [Hm Hh] _ IH]; [done|]. cbn in Hm, Hh |- *. subst m2. case_decide as Hd; [|done].
  exists m1. split; [|done]. destruct Hd as [->|[_ ->]]; [by left|by right].
Qed.

(** The server gives the same response over both engines. *)
Lemma Server_Handler_alike d : alike (λ now r, allowed (rq_Method r) (rq_Path r) now r) (Server_Handler d) (Server_Handler d).
Proof.
  intros now r s1 s2 Ha HR. unfold Server_Handler, cors. case_decide; [done|].
  assert (Hmux : (mux now r s1).1 = (mux now r s2).1 ∧ servers (mux now r s1).2 (mux now r s2).2).
  { unfold mux. pose proof (routes_alike (rq_Path r)) as Hr. pose proof (find_route_alike _ (rq_Method r) _ _ Hr) as Hf.
    destruct Hr as [|e1 e2 l1 l2]; [done|].
    destruct (find_route _ (e1 :: l1)) as [h1|], (find_route _ (e2 :: l2)) as [h2|]; [|done..].
    destruct Hf as (m' & [ <- | -> ] & Hf); apply Hf; try done. split; [apply Ha|]. by rewrite writes_GET. }
  destruct (mux now r s1) as [x1 t1] eqn:X1, (mux now r s2) as [x2 t2] eqn:X2. cbn in Hmux. destruct Hmux as [-> [HR' Hm]].
  unfold recoverPanic, logRequests. rewrite X1, X2. destruct x2; (split; [done|]); split; cbn; congruence.
Qed.
End alike.

(** ** The durable store answers like the store in memory *)

Section standalone.
Context (dir : string) (c : option atRestCipher) (rnd : nat → option bytes) (T : Z) (ow : bool).
Context (Hlaws : match c with None => True | Some c => AEAD_laws (aead c) end).
Context (Hrnd : ∀ n, ∃ nonce, rnd n = Some nonce ∧ length nonce = atRestNonceSize).

(** No request is held. *)
Definition idle (s : DiskStore) : Prop := batch s = [] ∧ batchChan s = [] ∧ timer s = false ∧ closed s = false.

(** The files hold the data of [m], and so does the memory. *)
Definition backs (sw : DiskStore * World) (m : MemStore) : Prop :=
  script sw.2 = [] ∧ consistent dir c T ow sw.1 (fs sw.2) ∧ running c T ow sw.1 ∧ idle sw.1 ∧ data (mem sw.1) = data m.

(** A call answers its request, whatever the disk does. *)
Lemma disk_steps_return s req now :
  idle s → returns (steps rnd (set_chan [req] s) [ERecv now now now; ETimer]) (λ p, p.2.*1 = [req] ∧ idle p.1).
Proof.
  intros (Hb & Hq & Ht & Hc) w. destruct (recv_returns rnd now now now (set_chan [] s) req w) as ([s1 a1] & w1 & E1 & P1).
  cbn [steps step batchChan set_chan]. unfold bind at 1. change (set_chan [] (set_chan [req] s)) with (set_chan [] s). rewrite E1.
  cbn [batch set_chan] in P1. rewrite Hb in P1. case_decide as Hd.
  - injection P1 as -> ->. unfold batchLoop_timer. cbn [timer set_batch].
    destruct (flush_returns rnd (set_batch [req] true (set_chan [] s)) w1) as ([s2 a2] & w2 & E2 & Ha & m & Hm).
    unfold bind. cbn [app] in *. rewrite E2. eexists _, w2. split; [done|]. cbn in Ha, Hm |- *. subst s2. rewrite app_nil_r. by split_and!.
  - destruct P1 as [Ha [m Hm]]. cbn in Ha, Hm. subst s1. eexists _, w1. split; [done|]. cbn. rewrite app_nil_r. by split_and!.
Qed.

Lemma disk_call_good now req s w m :
  backs (s, w) m → req_run c T ow req → now <= T →
  ∃ s' w', disk_call rnd now req (s, w) = (seq_result T (data m) req, (s', w')) ∧
    ∀ m', data m' = redo_one T (data m) (req_record req) → backs (s', w') m'.
Proof.
  intros (Hs & Hc & Hr & Hi & Hd) Hreq Ht. cbn [fst snd] in *. pose proof Hi as (Hb & Hq & Htm & Hcl).
  unfold disk_call, submit. rewrite Hcl, Hq. cbn [app].
  assert (Hr' : running c T ow (set_chan [req] s)).
  { destruct Hr as [[H1 H2 H3] H4]. split; [|done]. split; try done. cbn. by rewrite Forall_singleton. }
  destruct (steps_good dir c rnd T Hlaws Hrnd ow (set_chan [req] s) [ERecv now now now; ETimer] Hr') with (w := w)
    as ([s' acks] & w' & Hrun & Hs' & (reqs & Hex & Hw & Hrun') & _); [by repeat constructor|done| |].
  { apply (consistent_data dir c T ow s); [done|exact (proj2 (consistent_live _ _ _ _ _ _ Hc))|done]. }
  destruct (disk_steps_return s req now Hi w) as ([s2 acks2] & w2 & Hrun2 & Ha & Hi2). rewrite Hrun in Hrun2. injection Hrun2 as <- <- <-.
  cbn [fst snd] in *. destruct Hex as (Hc' & Hacks & Hdata). rewrite Hacks, seq_replies_reqs in Ha. subst reqs. cbn in Hdata.
  rewrite Hrun, Hacks. cbn. rewrite Hd in Hdata |- *. exists s', w'. split; [done|]. intros m' Hm'. split_and!; try done.
  cbn. by rewrite Hdata, Hm'.
Qed.

Lemma backs_live sw m : backs sw m → live_until T m ∧ live_until T (mem sw.1).
Proof.
  intros (_ & Hc & _ & _ & Hd). destruct (consistent_live _ _ _ _ _ _ Hc) as [Hl _]. split; [|done].
  intros k e He. apply (Hl k e). by rewrite Hd.
Qed.

Lemma redo_effect now r m : live_until T m → now <= T → data (redo now r m) = redo_one T (data m) r.
Proof. intros Hl Ht. by rewrite (redo_set_data T). Qed.

Lemma CAS_before t k old new m : live_until T m → t <= T → (CAS t k old new m).1 = (CAS T k old new (mkMem (data m) 0)).1.
Proof.
  intros Hm Ht. unfold CAS. rewrite (lookup_live_before T t), (lookup_live_before T T) by done. cbn [data].
  destruct (data m !! k) as [e|]; [|done]. by destruct (negb _).
Qed.

(** A write: the call answers [f] of what the request yields, the memory [v]. *)
Lemma disk_write_same {A} now req sw m (f : res result → res A) (v : res A) m' :
  backs sw m → req_run c T ow req → now <= T →
  f (seq_result T (data m) req) = v → data m' = redo_one T (data m) (req_record req) →
  same backs (let (r, sw) := disk_call rnd now req sw in (f r, sw)) (v, m').
Proof.
  destruct sw as [s w]. intros Hb Hreq Ht Hf Hm'. destruct (disk_call_good now req s w m Hb Hreq Ht) as (s' & w' & -> & Hb').
  exists v, (s', w'), m'. split_and!; [by rewrite Hf|done|by apply Hb'].
Qed.

Lemma disk_simulates :
  @simulates _ _ (DiskStore_Engine rnd) MemStore_Engine (λ now, now <= T) (λ _, req_run c T ow) backs.
Proof.
  split; cbn [eGet ePut eDelete eIncr eCAS eExpire eScan DiskStore_Engine MemStore_Engine].
  - intros now k [s w] m Ht Hb. destruct (backs_live _ _ Hb) as [Hl Hl']. unfold DiskStore_Get. cbn [fst snd] in *.
    rewrite (Get_before T) by done. rewrite (Get_before T now now k m) by done.
    exists (from_option (λ e, Ok (Value e)) (Err ErrNotFound) (data m !! k)), (s, w), m.
    pose proof Hb as (_ & _ & _ & _ & Hd). cbn in Hd. rewrite Hd. split_and!; [by destruct s|done|done].
  - intros now k v sw m Ht Hw Hb. destruct (backs_live _ _ Hb) as [Hl _].
    apply (disk_write_same now _ sw m (λ r, let! _ := r in Ok ())); (done || by rewrite <- (redo_effect now)).
  - intros now k sw m Ht Hw Hb. destruct (backs_live _ _ Hb) as [Hl _].
    apply (disk_write_same now _ sw m (λ r, let! _ := r in Ok ())); (done || by rewrite <- (redo_effect now)).
  - intros now k sw m Ht Hw Hb. destruct (backs_live _ _ Hb) as [Hl _]. rewrite (surjective_pairing (Incr now k m)).
    apply (disk_write_same now _ sw m (λ r, let! v := r in match v with RInt n => Ok n | _ => Ok 0 end)); try done.
    + rewrite (Incr_before T) by done. unfold seq_result. cbn. by destruct (Incr T k _).1.
    + by rewrite <- (redo_effect now).
  - intros now k old new sw m Ht Hw Hb. destruct (backs_live _ _ Hb) as [Hl _]. rewrite (surjective_pairing (CAS now k old new m)).
    apply (disk_write_same now _ sw m (λ r, let! v := r in match v with RBool b => Ok b | _ => Ok false end)); try done.
    + rewrite (CAS_before now) by done. unfold seq_result. cbn. by destruct (CAS T k _ _ _).1.
    + by rewrite <- (redo_effect now).
  - intros now k d sw m Ht Hw Hb. destruct (backs_live _ _ Hb) as [Hl _]. rewrite (surjective_pairing (Expire now k d m)).
    apply (disk_write_same now _ sw m (λ r, let! _ := r in Ok ())); try done.
    + rewrite (Expire_before T) by done. unfold seq_result. cbn. by destruct (Expire T k _ _).1 as [[]|].
    + by rewrite <- (redo_effect now).
  - intros now cursor count pattern [s w] m Ht (_ & _ & _ & _ & Hd). cbn in Hd. unfold DiskStore_Scan, Scan. cbn [fst]. by rewrite Hd.
Qed.

(** ** The life of a server *)

(** A request is served, a background loop of the store ticks, or the process
    is killed and started again: [g] is what the crash leaves of the files, and
    [clk] the clock while the directory is opened. *)
Inductive life : Type :=
| Serve (d now : Z) (r : Request)
| Tick (e : event)
| Restart (g : FS) (clk : nat → Z).

Definition background (e : event) : bool := match e with ESnapshot | EExpire _ => true | _ => false end.

(** The responses of the server over the durable store; [None] when it does not
    come up. *)
Fixpoint live_disk (tr : list life) (sv : Server (DiskStore * World)) : option (list Response) :=
  match tr with
  | [] => Some []
  | Serve d now r :: tr =>
      let '(x, sv) := @Server_Handler _ (DiskStore_Engine rnd) d now r sv in
      x ← x; xs ← live_disk tr sv; Some (x :: xs)
  | Tick e :: tr =>
      match step rnd (engine sv).1 e (engine sv).2 with
      | (Ok (s, _), w) => live_disk tr (set_engine (s, w) sv)
      | _ => None
      end
  | Restart g clk :: tr =>
      match openDiskStore clk dir c (mkWorld g [] []) with
      | (Ok s, w) => live_disk tr (NewServer (s, w))
      | _ => None
      end
  end.

(** The responses of a server over a store in memory, which is never lost. *)
Fixpoint live_mem (tr : list life) (sv : Server MemStore) : option (list Response) :=
  match tr with
  | [] => Some []
  | Serve d now r :: tr =>
      let '(x, sv) := Server_Handler d now r sv in
      x ← x; xs ← live_mem tr sv; Some (x :: xs)
  | Tick _ :: tr => live_mem tr sv
  | Restart _ _ :: tr => live_mem tr (NewServer (engine sv))
  end.

(** What the life has to keep to: times up to [T], writes that fit the log and
    whose deadlines are after [T], and crashes that the disk allows. *)
Fixpoint fits (tr : list life) (sv : Server (DiskStore * World)) : Prop :=
  match tr with
  | [] => True
  | Serve d now r :: tr =>
      allowed (λ now, now <= T) (λ _, req_run c T ow) (rq_Method r) (rq_Path r) now r ∧
      fits tr (@Server_Handler _ (DiskStore_Engine rnd) d now r sv).2
  | Tick e :: tr =>
      background e = true ∧ event_ok c T ow e ∧
      match step rnd (engine sv).1 e (engine sv).2 with
      | (Ok (s, _), w) => fits tr (set_engine (s, w) sv)
      | _ => True
      end
  | Restart g clk :: tr =>
      crash (fs (engine sv).2) g ∧ (∀ j, clk j <= T) ∧
      match openDiskStore clk dir c (mkWorld g [] []) with
      | (Ok s, w) => fits tr (NewServer (s, w))
      | _ => True
      end
  end.

Lemma tick_backs s w m e :
  backs (s, w) m → background e = true → event_ok c T ow e →
  ∃ s' acks w', step rnd s e w = (Ok (s', acks), w') ∧ backs (s', w') m.
Proof.
  intros (Hs & Hc & Hr & Hi & Hd) Hbg He. cbn [fst snd] in *.
  destruct (step_good dir c rnd T Hlaws Hrnd ow s e Hr He w Hs Hc) as ([s' acks] & w' & Hrun & Hs' & (reqs & Hex & Hw & Hr') & _).
  exists s', acks, w'. split; [done|]. cbn [fst snd] in *. destruct Hex as (Hc' & _ & Hdata).
  assert (Hsub : submitted e = []) by (by destruct e). destruct Hi as (Hb & Hq & Ht & Hcl).
  unfold waiting in Hw. rewrite Hsub, Hb, Hq in Hw. cbn in Hw. apply app_eq_nil in Hw as [-> Hw]. apply app_eq_nil in Hw as [Hb' Hq'].
  split_and!; cbn; try done; [|by rewrite Hdata].
  split_and!; try done; [|apply Hr']. destruct e; try done; cbn [step] in Hrun.
  - unfold bind, attempt, ret in Hrun. destruct (compactIfNeeded rnd s w). by injection Hrun as <- _ _.
  - by injection Hrun as <- _ _.
Qed.

Lemma restart_backs s w m g clk :
  backs (s, w) m → crash (fs w) g → (∀ j, clk j <= T) →
  ∃ s' w', openDiskStore clk dir c (mkWorld g [] []) = (Ok s', w') ∧ backs (s', w') m.
Proof.
  intros (Hs & Hc & Hr & Hi & Hd) Hg Hclk. cbn [fst snd] in *.
  destruct (reopen_consistent dir c rnd T Hlaws Hrnd ow s (fs w) g clk [] Hc Hg Hclk) as (s' & w' & Ho & Hs' & Hc' & Hd' & Hb & Hq & Hcl & Ht).
  exists s', w'. split; [done|]. split_and!; cbn; try done; [|congruence].
  destruct Hr as [[_ _ H3] _]. split; [|done]. split; rewrite ?Hb, ?Hq; [by split|done|]. intros Ho2. rewrite Hd'. by apply H3.
Qed.

Lemma lives_alike tr sv sm :
  servers backs sv sm → fits tr sv → live_disk tr sv = live_mem tr sm ∧ is_Some (live_mem tr sm).
Proof.
  revert sv sm. induction tr as [|[d now r|e|g clk] tr IH]; intros sv sm HR Hf; cbn [live_disk live_mem fits] in *; [done|..].
  - destruct Hf as [Ha Hf]. pose proof (Server_Handler_alike _ _ backs disk_simulates d now r sv sm Ha HR) as [Heq HR'].
    assert (Hsome : is_Some (Server_Handler d now r sm).1).
    { unfold Server_Handler, cors. case_decide; [by eexists|]. unfold recoverPanic, logRequests.
      destruct (mux_answers now r sm) as [x Hx]. destruct (mux now r sm) as [y t]. cbn in Hx. subst y. by eexists. }
    destruct (@Server_Handler _ (DiskStore_Engine rnd) d now r sv) as [x1 sv'], (Server_Handler d now r sm) as [x2 sm'].
    cbn in Heq, HR', Hf, Hsome. subst x2. destruct Hsome as [x ->]. cbn. destruct (IH _ _ HR' Hf) as [-> [xs ->]]. cbn. by split; [|eexists].
  - destruct Hf as (Hbg & He & Hf), HR as [HR Hm]. destruct (engine sv) as [s w] eqn:Es. cbn [fst snd] in *.
    destruct (tick_backs s w (engine sm) e HR Hbg He) as (s' & acks & w' & Hrun & Hb). rewrite Hrun in *. by apply IH.
  - destruct Hf as (Hg & Hclk & Hf), HR as [HR _]. destruct (engine sv) as [s w] eqn:Es. cbn [fst snd] in *.
    destruct (restart_backs s w (engine sm) g clk HR Hg Hclk) as (s' & w' & Ho & Hb). rewrite Ho in *. by apply IH.
Qed.
End standalone.

(** C7 (restarts are invisible): a server without peers over the durable store,
    encrypted or not, gives exactly the responses of a server over one store in
    memory, to every sequence of requests, and however often the process is
    killed between two requests, whatever the crash leaves of what was not
    synced, and started again on its directory: it always comes up, and no
    acknowledged write is lost, repeated or reordered.  This needs a disk that
    does not report errors, a log whose name in the directory is durable, clock
    readings up to [T], writes that fit a log record and no deadline up to [T];
    with compactions ([ow]) the writes are those that overwrite, of valid
    UTF-8. *)
Theorem restarts_are_invisible dir c rnd T ow tr sv sm :
  match c with None => True | Some c => AEAD_laws (aead c) end →
  (∀ n, ∃ nonce, rnd n = Some nonce ∧ length nonce = atRestNonceSize) →
  backs dir c T ow (engine sv) (engine sm) → metrics sv = metrics sm → fits dir c rnd T ow tr sv →
  ∃ xs, live_disk dir c rnd tr sv = Some xs ∧ live_mem tr sm = Some xs.
Proof.
  intros Hlaws Hrnd HR Hm Hf. destruct (lives_alike dir c rnd T ow Hlaws Hrnd tr sv sm (conj HR Hm) Hf) as [Heq [xs Hxs]].
  exists xs. by rewrite Heq, Hxs.
Qed.

Definition fixed_nonces : nat → option bytes := λ _, Some (replicate 12 zero).
Definition first_boot : Server (DiskStore * World) :=
  let f := at_rest {["d/wal.log"%string := []]} in
  NewServer (fresh_store "d" None NewMemStore, mkWorld f [] []).
Definition demo_request (m : string) (path : list string) (body : string) : Request :=
  mkRequest m path "" [] (mkBody (bytes_of_string body) false).
Definition life_put : life := Serve 0 1 (demo_request "PUT" ["kv"; "a"]%string "41").
Definition life_incr : life := Serve 0 3 (demo_request "POST" ["kv"; "a"; "incr"]%string "").
Definition life_get : life := Serve 0 5 (demo_request "GET" ["kv"; "a"]%string "").
(** The files after the requests. *)
Fixpoint demo_files (tr : list life) (sv : Server (DiskStore * World)) : FS :=
  match tr with
  | Serve d now r :: tr => demo_files tr (@Server_Handler _ (DiskStore_Engine fixed_nonces) d now r sv).2
  | _ => fs (engine sv).2
  end.
Definition demo_life : list life :=
  let g := demo_files [life_put] first_boot in [life_put; Restart (at_rest (vol g)) (λ _, 2); life_incr; life_get].

Lemma restarts_are_invisible_witness :
  ∃ xs, live_disk "d" None fixed_nonces demo_life first_boot = Some xs ∧ live_mem demo_life (NewServer NewMemStore) = Some xs ∧
    rp_Body <$> last xs = Some (bytes_of_string "42").
Proof.
  destruct (restarts_are_invisible "d" None fixed_nonces 100 false demo_life first_boot (NewServer NewMemStore)) as (xs & H1 & H2).
  - exact I.
  - intros n. exists (replicate 12 zero). split; reflexivity.
  - split; [reflexivity|]. split; [|split; [|split]].
    + exists ∅, [], [], None. split; try done; by left.
    + split; try done.
    + done.
    + done.
  - reflexivity.
  - split; [split; [vm_compute; discriminate|repeat constructor; vm_compute; discriminate || (intros; discriminate)]|].
    split; [apply crash_self; vm_compute; reflexivity|]. split; [intros _; lia|].
    match goal with |- match ?x with _ => _ end => let y := eval vm_compute in x in replace x with y by (vm_compute; reflexivity) end.
    split; [split; [vm_compute; discriminate|repeat constructor; vm_compute; discriminate || (intros; discriminate)]|].
    split; [split; [vm_compute; discriminate|constructor]|exact I].
  - exists xs. split; [exact H1|]. split; [exact H2|]. revert H2. vm_compute. intros [= <-]. reflexivity.
Defined.
