(* ===== verification/Oversize.v ===== *)
(** * Oversize: a request that leaves a log the store cannot read

    The log bounds a field by [maxRecordField], the size to which the API limits
    a request body (wal.go).  A compare-and-swap carries its value in a JSON
    document, and decoding a JSON string replaces every invalid byte by the three
    bytes of U+FFFD: the value that is logged can be three times as long as the
    body.  The write is acknowledged, and the store no longer opens. *)

From S2P Require Import Prelude GoLib Engine MemStore Json Disk Crypto Wal Snapshot DiskStore DiskEngine Durability Api Standalone.

(** A byte that no UTF-8 text contains. *)
Definition xff : ascii := byte_of_Z 0xFF.

(** The document with the field [new] and [n] such bytes. *)
Definition cas_body (n : nat) : bytes :=
  ["{"; dquote; "n"; "e"; "w"; dquote; ":"; dquote]%char ++ replicate n xff ++ [dquote; "}"%char].

(** What they become. *)
Definition fffd (n : nat) : bytes := concat (replicate n replacement).

Lemma rune_size_xff t : rune_size (xff :: t) = None.
Proof. destruct t as [|b1 [|b2 [|b3 t]]]; reflexivity. Qed.

Lemma unquote_xff n f rest : (n < f)%nat → unquote_loop f (replicate n xff ++ dquote :: rest) = Some (fffd n, rest).
Proof.
  revert f. induction n as [|n IH]; intros [|f] Hf; try lia; [reflexivity|].
  cbn [replicate app]. rewrite unquote_high by (vm_compute; discriminate). rewrite rune_size_xff, IH by lia. reflexivity.
Qed.

Lemma length_fffd n : length (fffd n) = (3 * n)%nat.
Proof. unfold fffd. induction n as [|n IH]; [done|]. cbn [replicate concat]. rewrite length_app, IH. change (length replacement) with 3%nat. lia. Qed.

(** An object with one member that is a string. *)
Lemma parse_one_member f kr k vr v :
  unquote_loop (length kr) kr = Some (k, ":"%char :: dquote :: vr) →
  unquote_loop (length vr) vr = Some (v, ["}"%char]) →
  parse_value (S (S (S f))) ("{"%char :: dquote :: kr) = Some (JObj [(string_of_bytes k, JStr (string_of_bytes v))], []).
Proof.
  intros H1 H2. cbn [parse_value parse_members].
  change (skip_ws ("{"%char :: dquote :: kr)) with ("{"%char :: dquote :: kr). cbv iota beta.
  change (bool_decide ("{"%char = "{"%char)) with true. change (expect "}" (dquote :: kr)) with (@None bytes).
  change (expect dquote (dquote :: kr)) with (Some kr). cbn [mbind option_bind]. rewrite H1. cbn [mbind option_bind].
  change (expect ":" (":"%char :: dquote :: vr)) with (Some (dquote :: vr)). cbn [mbind option_bind].
  change (skip_ws (dquote :: vr)) with (dquote :: vr). cbv iota beta.
  change (bool_decide (dquote = "{"%char)) with false. change (bool_decide (dquote = "["%char)) with false.
  change (bool_decide (dquote = dquote)) with true. cbv iota. rewrite H2. cbn [mbind option_bind].
  change (expect "," ["}"%char]) with (@None bytes). change (expect "}" ["}"%char]) with (Some (@nil ascii)). reflexivity.
Qed.

Lemma parse_cas_body n : parse (cas_body n) = Some (JObj [("new"%string, JStr (string_of_bytes (fffd n)))]).
Proof.
  unfold parse. assert (∃ f, (2 * length (cas_body n) = S (S f))%nat) as [f ->].
  { exists (2 * length (cas_body n) - 2)%nat. unfold cas_body. rewrite !length_app. cbn [length]. lia. }
  unfold cas_body. cbn [app]. rewrite (parse_one_member f _ ["n"; "e"; "w"]%char (replicate n xff ++ [dquote; "}"%char]) (fffd n)).
  - reflexivity.
  - set (tl := replicate n xff ++ _). clearbody tl. reflexivity.
  - apply unquote_xff. rewrite length_app, length_replicate. cbn [length]. lia.
Qed.

Lemma unmarshal_cas_body n : unmarshal_cas (cas_body n) = Some (""%string, string_of_bytes (fffd n)).
Proof. unfold unmarshal_cas. rewrite parse_cas_body. reflexivity. Qed.

(** ** The log *)

(** A field beyond the bound is refused. *)
Lemma readString_oversize s rest remaining :
  maxRecordField < slen s < 2 ^ 32 → (readString (put_field s ++ rest) remaining).1 = Err (ErrMsg "wal record field exceeds bound").
Proof.
  intros Hs. unfold readString, put_field. rewrite <- app_assoc, ReadFull_app by apply length_be_encode.
  unfold u32. rewrite Z.mod_small by (unfold maxRecordField in Hs; lia). rewrite be32_roundtrip by (unfold maxRecordField in Hs; lia).
  rewrite (proj2 (Z.ltb_lt _ _)) by lia. reflexivity.
Qed.

Definition cas_record (new : string) : bytes := byte_of_Z opCAS :: put_field "a" ++ put_field "" ++ put_field new.

Lemma replay_oversize clk new m :
  maxRecordField < slen new < 2 ^ 32 →
  ∃ i m', replayPlain clk (cas_record new) (zlen (cas_record new)) m = (Err (ErrMsg "read wal cas new"), i, m').
Proof.
  intros Hn. assert (Hz : zlen (cas_record new) = 14 + slen new).
  { unfold cas_record. rewrite zlen_cons, !zlen_app, !zlen_put_field. change (slen "a") with 1. change (slen "") with 0. lia. }
  assert (0 <= slen new) by (unfold maxRecordField in Hn; lia).
  unfold replayPlain. rewrite Hz. unfold cas_record. cbn [replay_records]. rewrite (proj2 (Z.ltb_lt 0 _)) by lia.
  assert (∃ r' m', applyRecord (clk 0%nat) (byte_of_Z opCAS) (put_field "a" ++ put_field "" ++ put_field new) (14 + slen new - 1) m =
    (Err (ErrMsg "read wal cas new"), r', m')) as (r' & m' & ->).
  { unfold applyRecord. change (Z_of_byte (byte_of_Z opCAS)) with opCAS. cbv zeta.
    change (opCAS =? opPut) with false. change (opCAS =? opDelete) with false. change (opCAS =? opClear) with false.
    change (opCAS =? opIncr) with false. change (opCAS =? opCAS) with true. cbv iota.
    rewrite readString_field by (done || (change (slen "a") with 1; lia)).
    rewrite readString_field by (done || (change (slen "a") with 1; change (slen "") with 0; lia)).
    rewrite <- (app_nil_r (put_field new)). pose proof (readString_oversize new [] (14 + slen new - 1 - (4 + slen "a") - (4 + slen "")) Hn) as Hr.
    destruct (readString (put_field new ++ []) _) as [[x|e] r']; [done|]. by eexists _, _. }
  by eexists _, _.
Qed.

(** ** The server *)

(** A store that holds the key [a] in its snapshot, with an empty log, and the
    server on it. *)
Definition one_key : gmap string entry := {["a"%string := mkEntry "" 0]}.
Definition one_key_files : gmap string bytes :=
  {["d/wal.log"%string := []; "d/snapshot.dat"%string := marshal_snapshot (mkSnap snapshotVersion (Some one_key))]}.
Definition one_key_server : Server (DiskStore * World) :=
  NewServer (fresh_store "d" None (mkMem one_key 0), mkWorld (at_rest one_key_files) [] []).

(** An append to a plain log and its sync, when no call fails. *)
Lemma append_synced path r v f h :
  vol f !! path = Some v →
  ∃ f' h', attempt (append fixed_nonces (mkWAL path None) r ;;; Sync (mkWAL path None)) (mkWorld f [] h) = (Ok (Ok ()), mkWorld f' [] h') ∧
    vol f' = <[path := v ++ r]> (vol f).
Proof.
  intros Hv. unfold attempt, bind, append, Sync, write, fsync, call, on_good. cbn. rewrite Hv. cbn. by eexists _, _.
Qed.

(** A compare-and-swap that matches is logged and acknowledged. *)
Lemma single_cas_logged now new s f h v :
  wal s = mkWAL "d/wal.log" None → data (mem s) !! "a"%string = Some (mkEntry "" 0) → vol f !! "d/wal.log"%string = Some v →
  ∃ s' f' h', writeSingle fixed_nonces now now now s (CAS_req 0 "a" "" new) (mkWorld f [] h) =
      (Ok (s', (CAS_req 0 "a" "" new, Ok (RBool true))), mkWorld f' [] h') ∧ timer s' = timer s ∧
    vol f' = <["d/wal.log"%string := v ++ cas_record new]> (vol f).
Proof.
  intros Hw Ha Hv. unfold writeSingle. cbn [req_op req_key req_old req_value CAS_req].
  change (opCAS =? opIncr) with false. change (opCAS =? opCAS) with true. cbv iota.
  assert (Get now now "a" (mem s) = (Ok ""%string, mem s)) as ->.
  { unfold Get. rewrite Ha. done. }
  cbn [String.eqb negb]. cbv zeta iota beta. cbn [wal set_mem]. rewrite Hw.
  change (AppendCAS fixed_nonces (mkWAL "d/wal.log" None) "a" "" new) with (append fixed_nonces (mkWAL "d/wal.log" None) (cas_record new)).
  destruct (append_synced "d/wal.log" (cas_record new) v f h Hv) as (f' & h' & Hr & Hf). unfold bind at 1. rewrite Hr.
  by eexists _, f', h'.
Qed.

Lemma cas_logged now new :
  ∃ s w, disk_cas fixed_nonces now "a" "" new (engine one_key_server) = (Ok true, (s, w)) ∧
    vol (fs w) = <["d/wal.log"%string := cas_record new]> one_key_files.
Proof.
  unfold disk_cas, disk_call, one_key_server, NewServer, engine.
  set (s0 := fresh_store "d" None (mkMem one_key 0)).
  destruct (single_cas_logged now new (set_batch [] false (set_chan [] s0)) (at_rest one_key_files) [] []) as (s' & f' & h' & Hw & Ht & Hf);
    [reflexivity|reflexivity|reflexivity|].
  assert (Hs : steps fixed_nonces (set_chan [CAS_req 0 "a" "" new] s0) [ERecv now now now; ETimer]
    (mkWorld (at_rest one_key_files) [] []) = (Ok (s', [(CAS_req 0 "a" "" new, Ok (RBool true))]), mkWorld f' [] h')).
  { cbn [steps]. unfold bind at 1. cbn [step batchChan set_chan]. unfold batchLoop_recv.
    change (opIncr <=? req_op (CAS_req 0 "a" "" new)) with true. cbv iota.
    change (set_chan [] (set_chan [CAS_req 0 "a" "" new] s0)) with (set_chan [] s0).
    change (flush fixed_nonces (set_chan [] s0)) with (ret (set_batch [] false (set_chan [] s0), @nil reply)).
    unfold bind at 1, ret at 1. unfold bind at 1. rewrite Hw. unfold ret at 1. cbn [app].
    unfold bind. cbn [step]. unfold batchLoop_timer. rewrite Ht. reflexivity. }
  change (submit (CAS_req 0 "a" "" new) s0) with (@None reply, set_chan [CAS_req 0 "a" "" new] s0).
  cbv iota beta. rewrite Hs. by exists s', (mkWorld f' [] h').
Qed.

(** Opening the directory with that log. *)
Lemma open_oversize clk new f :
  maxRecordField < slen new < 2 ^ 32 → vol f = <["d/wal.log"%string := cas_record new]> one_key_files →
  (openDiskStore clk "d" None (mkWorld f [] [])).1 = Err (ErrMsg "read wal cas new").
Proof.
  intros Hn Hf. assert (Hwal : vol f !! "d/wal.log"%string = Some (cas_record new)) by (rewrite Hf; apply lookup_insert_eq).
  assert (Hsnap : vol f !! "d/snapshot.dat"%string = Some (marshal_snapshot (mkSnap snapshotVersion (Some one_key)))).
  { rewrite Hf, lookup_insert_ne by done. reflexivity. }
  assert (Hdec : decodeSnapshot (marshal_snapshot (mkSnap snapshotVersion (Some one_key))) = Ok one_key) by (vm_compute; reflexivity).
  assert (take (length snapshotMagic) (marshal_snapshot (mkSnap snapshotVersion (Some one_key))) ≠ snapshotMagic) as Hm
    by (vm_compute; discriminate).
  rewrite (open_good "d" None I clk f [] one_key).
  - change (path_join "d" "wal.log") with "d/wal.log"%string. rewrite Hwal.
    destruct (replay_oversize clk new (mkMem one_key 0) Hn) as (i & m & Hr).
    change (default [] (Some (cas_record new))) with (cas_record new). unfold replay. by rewrite Hr.
  - done.
  - change (path_join "d" "snapshot.dat") with "d/snapshot.dat"%string. by rewrite Hsnap.
Qed.

Lemma zlen_cas_body n : zlen (cas_body n) = Z.of_nat n + 10.
Proof. unfold cas_body, zlen. rewrite !length_app, length_replicate. cbn [length]. lia. Qed.

Lemma slen_fffd n : slen (string_of_bytes (fffd n)) = 3 * Z.of_nat n.
Proof. unfold slen. rewrite bytes_of_string_of_bytes. unfold zlen. rewrite length_fffd. lia. Qed.

(** The request of [PUT /kv/a/cas] with that body. *)
Definition cas_request (n : nat) : Request := mkRequest "PUT" ["kv"; "a"; "cas"]%string "" [] (mkBody (cas_body n) false).

(** An accepted compare-and-swap can make the store unreadable: a server
    on a disk store that holds the key [a] gets a compare-and-swap whose JSON body
    carries [n] bytes that are no UTF-8.  The body is within [maxBodyBytes]; the
    decoded value has [3 * n] bytes.  Whenever that is more than [maxRecordField],
    the handler acknowledges the write with status 200, every call of the disk
    having succeeded, and from the files it leaves the store can no longer be
    opened: replay refuses the record as oversized. *)
Theorem accepted_cas_stops_reopening d now clk n :
  zlen (cas_body n) <= maxBodyBytes → maxRecordField < 3 * Z.of_nat n →
  ∃ resp sv, @Server_Handler _ (DiskStore_Engine fixed_nonces) d now (cas_request n) one_key_server = (Some resp, sv) ∧
    rp_Status resp = 200 ∧
    let files := vol (fs (engine sv).2) in
    (openDiskStore clk "d" None (mkWorld (at_rest files) [] [])).1 = Err (ErrMsg "read wal cas new").
Proof.
  intros Hb Hn. rewrite zlen_cas_body in Hb. set (new := string_of_bytes (fffd n)).
  assert (Hnew : maxRecordField < slen new < 2 ^ 32) by (unfold new; rewrite slen_fffd; unfold maxBodyBytes in Hb; lia).
  destruct (cas_logged now new) as (s & w & Hcas & Hvol).
  assert (@handleCAS _ (DiskStore_Engine fixed_nonces) "a" now (cas_request n) one_key_server =
    (Some (writeJSON 200 (json_ok "a")), set_engine (s, w) one_key_server)) as Hh.
  { unfold handleCAS. rewrite (ReadAll_ok (cas_request n) (cas_body n)) by (done || (rewrite zlen_cas_body; lia)).
    rewrite unmarshal_cas_body. fold new. cbn [eCAS DiskStore_Engine]. by rewrite Hcas. }
  eexists _, _. split.
  { eapply Server_Handler_route; [done|done|reflexivity|]. unfold validateKey.
    change (keyPattern_MatchString "a") with true. cbv iota. exact Hh. }
  split; [reflexivity|]. cbv zeta. apply (open_oversize clk new); [done|]. exact Hvol.
Qed.

Lemma accepted_cas_stops_reopening_witness :
  ∃ resp sv, @Server_Handler _ (DiskStore_Engine fixed_nonces) 0 1 (cas_request (Z.to_nat 400000)) one_key_server = (Some resp, sv) ∧
    rp_Status resp = 200 ∧
    let files := vol (fs (engine sv).2) in
    (openDiskStore (λ _, 2) "d" None (mkWorld (at_rest files) [] [])).1 = Err (ErrMsg "read wal cas new").
Proof.
  apply accepted_cas_stops_reopening.
  - rewrite zlen_cas_body, Z2Nat.id by lia. unfold maxBodyBytes. lia.
  - rewrite Z2Nat.id by lia. unfold maxRecordField. lia.
Defined.
