(* ===== verification/Linearizability.v ===== *)
(** * Linearizability: the history checker, pkg/linearizability/checker.go

    [Check] runs over a recorded single-key history and reports violations.  The
    theorem says what passing means: the history can be explained by registers,
    one per reader, that only move forward in time and never hold a version
    before its write began. *)

From S2P Require Import Prelude.

Inductive Kind : Type := Write | Read.

Global Instance Kind_eq_dec : EqDecision Kind.
Proof. solve_decision. Defined.

Record Op : Type := mkOp {
  op_Kind : Kind;
  op_Seq : Z;
  op_Reader : string;
  op_Start : Z;
  op_End : Z
}.

Global Instance Op_eq_dec : EqDecision Op.
Proof. solve_decision. Defined.

(** The two errors of [Check], with what their texts print. *)
Inductive violation : Type :=
| BeforeWrite (reader : string) (seq at_ began : Z)
| RolledBack (reader : string) (seq at_ prev prevAt : Z) (reads : list Op).

(** The [writes] map. *)
Definition writes (ops : list Op) : gmap Z Op :=
  foldl (λ w o, if decide (op_Kind o = Write) then <[op_Seq o := o]> w else w) ∅ ops.

(** The local maps of the second loop. *)
Record Seen : Type := mkSeen {
  errs : list violation;
  maxSeen : gmap string Z;
  maxSeenAt : gmap string Z;
  timeline : gmap string (list Op)
}.

Definition before_write (w : gmap Z Op) (o : Op) : list violation :=
  match w !! op_Seq o with
  | Some x =>
      if (0 <? op_Start x) && (0 <? op_End o) && (op_End o <=? op_Start x)
      then [BeforeWrite (op_Reader o) (op_Seq o) (op_End o) (op_Start x)] else []
  | None => []
  end.

Definition rolled_back (s : Seen) (o : Op) : list violation :=
  match maxSeen s !! op_Reader o with
  | Some prev =>
      if op_Seq o <? prev
      then [RolledBack (op_Reader o) (op_Seq o) (op_End o) prev
              (default 0 (maxSeenAt s !! op_Reader o)) (default [] (timeline s !! op_Reader o))]
      else []
  | None => []
  end.

(** One iteration of the second loop; a map lookup of a missing key is zero. *)
Definition check_op (w : gmap Z Op) (s : Seen) (o : Op) : Seen :=
  if decide (op_Kind o ≠ Read ∨ op_Seq o = 0) then s
  else
    let newer := default 0 (maxSeen s !! op_Reader o) <? op_Seq o in
    mkSeen (errs s ++ before_write w o ++ rolled_back s o)
      (if newer then <[op_Reader o := op_Seq o]> (maxSeen s) else maxSeen s)
      (if newer then <[op_Reader o := op_End o]> (maxSeenAt s) else maxSeenAt s)
      (<[op_Reader o := default [] (timeline s !! op_Reader o) ++ [o]]> (timeline s)).

Definition Check (ops : list Op) : list violation :=
  errs (foldl (check_op (writes ops)) (mkSeen [] ∅ ∅ ∅) ops).

(** ** What the loop computes *)

(** The reads the checker looks at. *)
Definition observed (o : Op) : Prop := op_Kind o = Read ∧ op_Seq o ≠ 0.

Global Instance observed_dec o : Decision (observed o).
Proof. unfold observed. apply _. Defined.

(** The last read before a position never saw less than those before it. *)
Definition no_rollback (pre : list Op) (o : Op) : Prop :=
  ∀ p, p ∈ pre → observed p → op_Reader p = op_Reader o → op_Seq p <= op_Seq o.

(** The largest version each reader has seen so far. *)
Definition max_of (pre : list Op) (s : Seen) : Prop :=
  ∀ r, match maxSeen s !! r with
       | None => ∀ p, p ∈ pre → observed p → op_Reader p ≠ r
       | Some v => (∃ p, p ∈ pre ∧ observed p ∧ op_Reader p = r ∧ op_Seq p = v) ∧
                   ∀ p, p ∈ pre → observed p → op_Reader p = r → op_Seq p <= v
       end.

(** Versions are uint64. *)
Definition versions (ops : list Op) : Prop := Forall (λ o, 0 <= op_Seq o) ops.

Lemma rolled_back_nil pre s o : max_of pre s → (rolled_back s o = [] ↔ no_rollback pre o).
Proof.
  intros Hm. specialize (Hm (op_Reader o)). unfold rolled_back, no_rollback.
  destruct (maxSeen s !! op_Reader o) as [prev|].
  - destruct Hm as [(p & Hp & Ho & Hr & Hv) Hmax]. destruct (Z.ltb_spec (op_Seq o) prev) as [Hlt|Hge].
    + split; [done|]. intros Hn. specialize (Hn p Hp Ho Hr). lia.
    + split; [|done]. intros _ q Hq Hqo Hqr. specialize (Hmax q Hq Hqo Hqr). lia.
  - split; [|done]. intros _ p Hp Ho Hr. by destruct (Hm p Hp Ho).
Qed.

Lemma max_of_skip pre s o : max_of pre s → ¬ observed o → max_of (pre ++ [o]) s.
Proof.
  intros Hm Ho r. specialize (Hm r).
  assert (Hin : ∀ p, p ∈ pre ++ [o] → observed p → p ∈ pre).
  { intros p Hp Hobs. apply elem_of_app in Hp as [?|Hp]; [done|]. apply list_elem_of_singleton in Hp. by subst. }
  destruct (maxSeen s !! r).
  - destruct Hm as [(p & ? & ?) Hmax]. split; [exists p; split; [apply elem_of_app; by left|done]|naive_solver].
  - naive_solver.
Qed.

Lemma max_of_step w pre s o : 0 <= op_Seq o → max_of pre s → observed o → max_of (pre ++ [o]) (check_op w s o).
Proof.
  intros Hpos Hm Hobs r. unfold check_op. rewrite decide_False by (destruct Hobs; naive_solver). cbn [maxSeen].
  assert (Hin : ∀ p, p ∈ pre ++ [o] → p ∈ pre ∨ p = o).
  { intros p Hp. apply elem_of_app in Hp as [?|Hp]; [by left|]. apply list_elem_of_singleton in Hp. by right. }
  assert (Hpre : ∀ p, p ∈ pre → p ∈ pre ++ [o]) by (intros; apply elem_of_app; by left).
  assert (Hlast : o ∈ pre ++ [o]) by (apply elem_of_app; right; by left).
  pose proof (Hm (op_Reader o)) as Hmo. specialize (Hm r).
  destruct (Z.ltb_spec (default 0 (maxSeen s !! op_Reader o)) (op_Seq o)) as [Hlt|Hge].
  - destruct (decide (r = op_Reader o)) as [ ->|Hne].
    + rewrite lookup_insert_eq. split; [by exists o|]. intros p Hp Hpo Hpr. destruct (Hin p Hp) as [Hp'| ->]; [|lia].
      destruct (maxSeen s !! op_Reader o) as [v|]; simpl in Hlt.
      * destruct Hmo as [_ Hmax]. specialize (Hmax p Hp' Hpo Hpr). lia.
      * by destruct (Hmo p Hp' Hpo).
    + rewrite lookup_insert_ne by done. destruct (maxSeen s !! r) as [v|].
      * destruct Hm as [(p & ? & ?) Hmax]. split; [exists p; naive_solver|].
        intros q Hq Hqo Hqr. destruct (Hin q Hq) as [| ->]; [by apply Hmax|congruence].
      * intros q Hq Hqo. destruct (Hin q Hq) as [| ->]; [by apply Hm|done].
  - destruct (maxSeen s !! op_Reader o) as [v|] eqn:E; simpl in Hge; [|destruct Hobs; lia].
    destruct (decide (r = op_Reader o)) as [ ->|Hne].
    + rewrite E in Hm |- *. destruct Hm as [(p & ? & ?) Hmax]. split; [exists p; naive_solver|].
      intros q Hq Hqo Hqr. destruct (Hin q Hq) as [| ->]; [by apply Hmax|done].
    + destruct (maxSeen s !! r) as [u|].
      * destruct Hm as [(p & ? & ?) Hmax]. split; [exists p; naive_solver|].
        intros q Hq Hqo Hqr. destruct (Hin q Hq) as [| ->]; [by apply Hmax|congruence].
      * intros q Hq Hqo. destruct (Hin q Hq) as [| ->]; [by apply Hm|done].
Qed.

Lemma check_loop w post : ∀ pre s,
  versions post → max_of pre s →
  (errs (foldl (check_op w) s post) = [] ↔
   errs s = [] ∧ ∀ i o, post !! i = Some o → observed o →
     before_write w o = [] ∧ no_rollback (pre ++ take i post) o).
Proof.
  induction post as [|o post IH]; intros pre s Hv Hm; cbn [foldl].
  { split; [naive_solver|by intros [-> _]]. }
  apply Forall_cons in Hv as [Hpos Hv]. destruct (decide (observed o)) as [Hobs|Hobs].
  - rewrite (IH (pre ++ [o])) by (done || by apply max_of_step).
    assert (errs (check_op w s o) = errs s ++ before_write w o ++ rolled_back s o) as ->.
    { unfold check_op. rewrite decide_False by (destruct Hobs; naive_solver). done. }
    pose proof (rolled_back_nil pre s o Hm) as Hrb. split.
    + intros [He Hrest]. apply app_eq_nil in He as [He He']. apply app_eq_nil in He' as [Hb Hr]. split; [done|].
      intros [|i] x Hx Hxo; simpl in Hx |- *.
      * injection Hx as <-. rewrite app_nil_r. split; [done|by apply Hrb].
      * destruct (Hrest i x Hx Hxo) as [? Hn]. split; [done|]. by rewrite <- app_assoc in Hn.
    + intros [He Hall]. split.
      * destruct (Hall 0%nat o eq_refl Hobs) as [Hb Hn]. simpl in Hn. rewrite app_nil_r in Hn.
        apply Hrb in Hn. by rewrite He, Hb, Hn.
      * intros i x Hx Hxo. destruct (Hall (S i) x Hx Hxo) as [? Hn]. split; [done|]. by rewrite <- app_assoc.
  - assert (check_op w s o = s) as ->.
    { unfold check_op. rewrite decide_True; [done|]. unfold observed in Hobs.
      destruct (decide (op_Kind o = Read)); [|by left]. right. destruct (decide (op_Seq o = 0)); [done|naive_solver]. }
    rewrite (IH (pre ++ [o])) by (done || by apply max_of_skip). f_equiv. split.
    + intros Hall [|i] x Hx Hxo; simpl in Hx |- *; [naive_solver|].
      destruct (Hall i x Hx Hxo) as [? Hn]. split; [done|]. by rewrite <- app_assoc in Hn.
    + intros Hall i x Hx Hxo. destruct (Hall (S i) x Hx Hxo) as [? Hn]. split; [done|]. by rewrite <- app_assoc.
Qed.

(** ** The [writes] map *)

Lemma writes_lookup ops q w :
  NoDup (op_Seq <$> filter (λ o, op_Kind o = Write) ops) →
  (writes ops !! q = Some w ↔ w ∈ ops ∧ op_Kind w = Write ∧ op_Seq w = q).
Proof.
  induction ops as [|o ops IH] using rev_ind; intros Hnd.
  { unfold writes. simpl. rewrite lookup_empty. split; [done|]. intros (H & _). by apply elem_of_nil in H. }
  unfold writes. rewrite foldl_app. fold (writes ops). cbn [foldl].
  rewrite filter_app, fmap_app in Hnd. apply NoDup_app in Hnd as (Hnd & Hdis & _). specialize (IH Hnd).
  rewrite elem_of_app, list_elem_of_singleton. case_decide as Hk; [|naive_solver].
  assert (op_Seq o ∉ op_Seq <$> filter (λ o, op_Kind o = Write) ops) as Hfresh.
  { intros Hin. apply (Hdis _ Hin). rewrite filter_cons_True by done. simpl. by left. }
  destruct (decide (op_Seq o = q)) as [<-|Hne].
  - rewrite lookup_insert_eq. split; [intros [= <-]; naive_solver|]. intros ([Hin| ->] & Hw & Hs); [|done].
    destruct Hfresh. apply list_elem_of_fmap. exists w. split; [done|]. by apply list_elem_of_filter.
  - rewrite lookup_insert_ne by done. rewrite IH. naive_solver.
Qed.

(** ** What passing means *)

(** An explanation of the history: for every reader the version its register
    holds at each time.  Registers only move forward, every read returns what
    its register held at some time between its start and its end, and no
    register holds a version before the write of that version began. *)
Record explains (val : string → Z → Z) (ops : list Op) : Prop := {
  ex_forward : ∀ r t t', t <= t' → val r t <= val r t';
  ex_read : ∀ o, o ∈ ops → observed o → ∃ t, op_Start o <= t <= op_End o ∧ val (op_Reader o) t = op_Seq o;
  ex_write : ∀ w, w ∈ ops → op_Kind w = Write → op_Seq w ≠ 0 → ∀ r t, val r t = op_Seq w → op_Start w < t
}.

(** A history as a sequential client per reader records it, with times known:
    versions are written once and the reads of a reader do not overlap. *)
Record recorded (ops : list Op) : Prop := {
  rec_versions : versions ops;
  rec_once : NoDup (op_Seq <$> filter (λ o, op_Kind o = Write) ops);
  rec_write : ∀ w, w ∈ ops → op_Kind w = Write → 0 < op_Start w;
  rec_read : ∀ o, o ∈ ops → op_Kind o = Read → 0 < op_Start o < op_End o;
  rec_sequential : ∀ i j a b, (i < j)%nat → ops !! i = Some a → ops !! j = Some b →
    op_Kind a = Read → op_Kind b = Read → op_Reader a = op_Reader b → op_End a <= op_Start b
}.

(** The conditions on the history itself. *)
Definition never_early (ops : list Op) : Prop :=
  ∀ o w, o ∈ ops → observed o → w ∈ ops → op_Kind w = Write → op_Seq w = op_Seq o → op_Start w < op_End o.

Definition never_back (ops : list Op) : Prop :=
  ∀ i j a b, (i < j)%nat → ops !! i = Some a → ops !! j = Some b → observed a → observed b →
    op_Reader a = op_Reader b → op_Seq a <= op_Seq b.

Lemma Check_conditions ops : recorded ops → (Check ops = [] ↔ never_early ops ∧ never_back ops).
Proof.
  intros Hr. unfold Check. rewrite (check_loop _ ops []); cycle 1.
  { apply Hr. }
  { intros r. cbn [maxSeen]. rewrite lookup_empty. intros p Hp. by apply elem_of_nil in Hp. }
  cbn [errs app]. split.
  - intros [_ Hall]. split.
    + intros o w Ho Hobs Hw Hk Hs. apply list_elem_of_lookup in Ho as [i Hi].
      destruct (Hall i o Hi Hobs) as [Hb _]. unfold before_write in Hb.
      assert (writes ops !! op_Seq o = Some w) as Hlk by (apply writes_lookup; [apply Hr|done]). rewrite Hlk in Hb.
      pose proof (rec_write _ Hr w Hw Hk). pose proof (rec_read _ Hr o (list_elem_of_lookup_2 _ _ _ Hi) (proj1 Hobs)).
      destruct (Z.ltb_spec 0 (op_Start w)), (Z.ltb_spec 0 (op_End o)), (Z.leb_spec (op_End o) (op_Start w)); try done; lia.
    + intros i j a b Hij Ha Hb Hao Hbo Hrd. destruct (Hall j b Hb Hbo) as [_ Hn]. apply (Hn a); [|done..].
      apply list_elem_of_lookup. exists i. by rewrite lookup_take_lt.
  - intros [He Hb]. split; [done|]. intros i o Hi Hobs. split.
    + unfold before_write. destruct (writes ops !! op_Seq o) as [w|] eqn:Hlk; [|done].
      apply writes_lookup in Hlk as (Hw & Hk & Hs); [|apply Hr].
      specialize (He o w (list_elem_of_lookup_2 _ _ _ Hi) Hobs Hw Hk Hs).
      destruct (Z.leb_spec (op_End o) (op_Start w)); [lia|]. by rewrite andb_false_r.
    + intros p Hp Hpo Hpr. apply list_elem_of_lookup in Hp as [k Hk].
      assert (k < i)%nat by (apply lookup_lt_Some in Hk; rewrite length_take in Hk; lia).
      rewrite lookup_take_lt in Hk by done. by apply (Hb k i p o).
Qed.

(** The registers that hold the largest version read so far. *)
Definition read_by (r : string) (t : Z) (o : Op) : Prop := observed o ∧ op_Reader o = r ∧ op_End o <= t.

Global Instance read_by_dec r t o : Decision (read_by r t o).
Proof. unfold read_by. apply _. Defined.

Definition latest (ops : list Op) (r : string) (t : Z) : Z :=
  foldr (λ o m, Z.max (op_Seq o) m) 0 (filter (read_by r t) ops).

Lemma foldr_max_ge l o : o ∈ l → op_Seq o <= foldr (λ o m, Z.max (op_Seq o) m) 0 l.
Proof. induction l as [|x l IH]; intros Ho; [by apply elem_of_nil in Ho|]. apply elem_of_cons in Ho as [ ->|Ho]; simpl; [lia|]. specialize (IH Ho). lia. Qed.

Lemma foldr_max_in l : foldr (λ o m, Z.max (op_Seq o) m) 0 l = 0 ∨
  ∃ o, o ∈ l ∧ op_Seq o = foldr (λ o m, Z.max (op_Seq o) m) 0 l.
Proof.
  induction l as [|x l IH]; simpl; [by left|].
  destruct (Z.max_spec (op_Seq x) (foldr (λ o m, Z.max (op_Seq o) m) 0 l)) as [[? ->]|[? ->]].
  - destruct IH as [ ->|(o & ? & ?)]; [by left|]. right. exists o. split; [by right|done].
  - right. exists x. split; [by left|done].
Qed.

Lemma latest_le ops r t v : 0 <= v → (∀ o, o ∈ ops → read_by r t o → op_Seq o <= v) → latest ops r t <= v.
Proof.
  intros Hv Hall. unfold latest. destruct (foldr_max_in (filter (read_by r t) ops)) as [ ->|(o & Ho & <-)]; [done|].
  apply list_elem_of_filter in Ho as [? ?]. by apply Hall.
Qed.

Lemma latest_forward ops r t t' : versions ops → t <= t' → latest ops r t <= latest ops r t'.
Proof.
  intros Hv Ht. apply latest_le.
  - unfold latest. destruct (foldr_max_in (filter (read_by r t') ops)) as [ ->|(o & Ho & <-)]; [done|].
    apply list_elem_of_filter in Ho as [_ Ho]. unfold versions in Hv. rewrite Forall_forall in Hv. by apply Hv.
  - intros o Ho (? & ? & ?). apply foldr_max_ge, list_elem_of_filter. split; [|done]. split_and!; [done..|lia].
Qed.

Lemma latest_at_end ops o : recorded ops → never_back ops → o ∈ ops → observed o →
  latest ops (op_Reader o) (op_End o) = op_Seq o.
Proof.
  intros Hr Hb Ho Hobs. apply Z.le_antisymm.
  - apply latest_le.
    { pose proof (rec_versions _ Hr) as Hv. unfold versions in Hv. rewrite Forall_forall in Hv. by apply Hv. }
    intros p Hp (Hpo & Hpr & Hpe). apply list_elem_of_lookup in Ho as [j Hj]. apply list_elem_of_lookup in Hp as [i Hi].
    destruct (Nat.lt_trichotomy i j) as [Hij|[ ->|Hij]].
    + by apply (Hb i j).
    + by simplify_eq.
    + exfalso. pose proof (rec_sequential _ Hr j i o p Hij Hj Hi (proj1 Hobs) (proj1 Hpo) (eq_sym Hpr)).
      pose proof (rec_read _ Hr p (list_elem_of_lookup_2 _ _ _ Hi) (proj1 Hpo)). lia.
  - apply foldr_max_ge, list_elem_of_filter. split; [|done]. by split_and!.
Qed.

Lemma Check_iff_explains ops :
  recorded ops → (Check ops = [] ↔ ∃ val, explains val ops).
Proof.
  intros Hr. rewrite Check_conditions by done. split.
  - intros [He Hb]. exists (latest ops). split.
    + intros r t t'. apply latest_forward, Hr.
    + intros o Ho Hobs. exists (op_End o). pose proof (rec_read _ Hr o Ho (proj1 Hobs)). split; [lia|].
      by apply latest_at_end.
    + intros w Hw Hk Hne r t Hval. unfold latest in Hval.
      destruct (foldr_max_in (filter (read_by r t) ops)) as [Hz|(o & Ho & Hs)]; [congruence|].
      apply list_elem_of_filter in Ho as [(Hobs & _ & Het) Ho]. specialize (He o w Ho Hobs Hw Hk). lia.
  - intros [val [Hf Hread Hw]]. split.
    + intros o w Ho Hobs Hwin Hk Hs. destruct (Hread o Ho Hobs) as (t & Ht & Hval).
      assert (op_Seq w ≠ 0) as Hne by (rewrite Hs; apply Hobs).
      specialize (Hw w Hwin Hk Hne (op_Reader o) t). rewrite Hs in Hw. specialize (Hw Hval). lia.
    + intros i j a b Hij Ha Hb Hao Hbo Hrd.
      destruct (Hread a (list_elem_of_lookup_2 _ _ _ Ha) Hao) as (ta & Hta & <-).
      destruct (Hread b (list_elem_of_lookup_2 _ _ _ Hb) Hbo) as (tb & Htb & <-). rewrite Hrd. apply Hf.
      pose proof (rec_sequential _ Hr i j a b Hij Ha Hb (proj1 Hao) (proj1 Hbo) Hrd). lia.
Qed.

(** C20 (what the history checker decides): on a history of versions written once
    and of readers that read one after the other, with known times, [Check]
    reports nothing exactly when the history has an explanation by registers,
    one per reader, that only move forward, are read between the start and the
    end of each read, and hold no version before its write began. *)
Theorem Check_explained ops :
  recorded ops → (Check ops = [] ↔ ∃ val, explains val ops).
Proof. apply Check_iff_explains. Qed.

(** A stale read from a follower passes; a version that rolls back does not. *)
Definition stale_history : list Op :=
  [mkOp Write 1 "" 1 2; mkOp Read 1 "a" 3 4; mkOp Write 2 "" 5 6; mkOp Read 2 "a" 7 8; mkOp Read 1 "b" 9 10].

Lemma stale_recorded : recorded stale_history.
Proof.
  split.
  - repeat constructor; simpl; lia.
  - vm_compute. repeat constructor; set_solver.
  - intros w Hw. repeat (apply elem_of_cons in Hw as [ ->|Hw]; [simpl; (done || lia)|]). by apply elem_of_nil in Hw.
  - intros w Hw. repeat (apply elem_of_cons in Hw as [ ->|Hw]; [simpl; (done || lia)|]). by apply elem_of_nil in Hw.
  - intros i j a b Hij Ha Hb.
    do 5 (destruct i as [|i]; [do 5 (destruct j as [|j]; [simplify_eq/=; try (done || lia)|]); simplify_eq/=|]); simplify_eq/=.
Qed.

Lemma Check_explained_witness :
  recorded stale_history ∧ Check stale_history = [] ∧ ∃ val, explains val stale_history.
Proof.
  split; [exact stale_recorded|]. split; [reflexivity|].
  apply (Check_explained stale_history stale_recorded). reflexivity.
Defined.
