(* ===== verification/Transport.v ===== *)
(** * Transport: the raft transports, pkg/raft/transport*.go

    The in-memory transport hands a request to the handler registered for the
    peer; the HTTP transport carries it as JSON to [ServeRaftHTTP] on the other
    side.  [W] is the state of the peers, which the handlers change.  The
    network is a function from URL and body to the status and body of the
    response, or to nothing (a bad URL, a connection error, a timeout). *)

From S2P Require Import Prelude GoLib Engine Json Base64 RaftNode RaftStore.

(** ** JSON of the messages *)

Definition marshal_vote_request (r : VoteRequest) : json :=
  JObj [("Term"%string, jint (vq_Term r)); ("CandidateID"%string, JStr (vq_CandidateID r));
        ("LastLogIndex"%string, jint (vq_LastLogIndex r)); ("LastLogTerm"%string, jint (vq_LastLogTerm r))].

Definition marshal_vote_response (r : VoteResponse) : json :=
  JObj [("Term"%string, jint (vr_Term r)); ("VoteGranted"%string, JBool (vr_VoteGranted r))].

Definition marshal_append_request (r : AppendEntriesRequest) : json :=
  JObj [("Term"%string, jint (aq_Term r)); ("LeaderID"%string, JStr (aq_LeaderID r));
        ("PrevLogIndex"%string, jint (aq_PrevLogIndex r)); ("PrevLogTerm"%string, jint (aq_PrevLogTerm r));
        ("Entries"%string, marshal_log (aq_Entries r)); ("LeaderCommit"%string, jint (aq_LeaderCommit r))].

Definition marshal_append_response (r : AppendEntriesResponse) : json :=
  JObj [("Term"%string, jint (ar_Term r)); ("Success"%string, JBool (ar_Success r))].

(** A nil and an empty [Data] are not distinguished: both come back empty. *)
Definition marshal_install_request (r : InstallSnapshotRequest) : json :=
  JObj [("Term"%string, jint (iq_Term r)); ("LeaderID"%string, JStr (iq_LeaderID r));
        ("LastIncludedIndex"%string, jint (iq_LastIncludedIndex r));
        ("LastIncludedTerm"%string, jint (iq_LastIncludedTerm r));
        ("Data"%string, JStr (string_of_bytes (b64_encode (iq_Data r))))].

Definition marshal_install_response (r : InstallSnapshotResponse) : json :=
  JObj [("Term"%string, jint (ir_Term r)); ("Success"%string, JBool (ir_Success r))].

Definition set_vote_request (key : string) (j : json) (r : VoteRequest) : option VoteRequest :=
  let '(mkVoteReq t c i lt) := r in
  if is_field "Term" key then x ← decode_int t j; Some (mkVoteReq x c i lt)
  else if is_field "CandidateID" key then x ← decode_string c j; Some (mkVoteReq t x i lt)
  else if is_field "LastLogIndex" key then x ← decode_int i j; Some (mkVoteReq t c x lt)
  else if is_field "LastLogTerm" key then x ← decode_int lt j; Some (mkVoteReq t c i x)
  else Some r.

Definition set_vote_response (key : string) (j : json) (r : VoteResponse) : option VoteResponse :=
  let '(mkVoteResp t g) := r in
  if is_field "Term" key then x ← decode_int t j; Some (mkVoteResp x g)
  else if is_field "VoteGranted" key then x ← decode_bool g j; Some (mkVoteResp t x)
  else Some r.

Definition set_append_request (key : string) (j : json) (r : AppendEntriesRequest) : option AppendEntriesRequest :=
  let '(mkAppendReq t l i pt es c) := r in
  if is_field "Term" key then x ← decode_int t j; Some (mkAppendReq x l i pt es c)
  else if is_field "LeaderID" key then x ← decode_string l j; Some (mkAppendReq t x i pt es c)
  else if is_field "PrevLogIndex" key then x ← decode_int i j; Some (mkAppendReq t l x pt es c)
  else if is_field "PrevLogTerm" key then x ← decode_int pt j; Some (mkAppendReq t l i x es c)
  else if is_field "Entries" key then x ← decode_log j; Some (mkAppendReq t l i pt x c)
  else if is_field "LeaderCommit" key then x ← decode_int c j; Some (mkAppendReq t l i pt es x)
  else Some r.

Definition set_append_response (key : string) (j : json) (r : AppendEntriesResponse) : option AppendEntriesResponse :=
  let '(mkAppendResp t s) := r in
  if is_field "Term" key then x ← decode_int t j; Some (mkAppendResp x s)
  else if is_field "Success" key then x ← decode_bool s j; Some (mkAppendResp t x)
  else Some r.

(** A [[]byte]: a base64 string or an array of small numbers. *)
Definition decode_bytes (j : json) : option bytes :=
  match j with
  | JStr s => b64_decode (bytes_of_string s)
  | JNull => Some []
  | JArr l => l ← mapM (decode_uint8 0) l; Some (byte_of_Z <$> l)
  | _ => None
  end.

Definition set_install_request (key : string) (j : json) (r : InstallSnapshotRequest) : option InstallSnapshotRequest :=
  let '(mkInstallReq t l i it d) := r in
  if is_field "Term" key then x ← decode_int t j; Some (mkInstallReq x l i it d)
  else if is_field "LeaderID" key then x ← decode_string l j; Some (mkInstallReq t x i it d)
  else if is_field "LastIncludedIndex" key then x ← decode_int i j; Some (mkInstallReq t l x it d)
  else if is_field "LastIncludedTerm" key then x ← decode_int it j; Some (mkInstallReq t l i x d)
  else if is_field "Data" key then x ← decode_bytes j; Some (mkInstallReq t l i it x)
  else Some r.

Definition set_install_response (key : string) (j : json) (r : InstallSnapshotResponse) :
    option InstallSnapshotResponse :=
  let '(mkInstallResp t s) := r in
  if is_field "Term" key then x ← decode_int t j; Some (mkInstallResp x s)
  else if is_field "Success" key then x ← decode_bool s j; Some (mkInstallResp t x)
  else Some r.

(** [json.NewDecoder(r).Decode]: the first value of the stream. *)
Definition decode_first (s : bytes) : option json := fst <$> parse_value (S (2 * length s)) s.

Definition decode_vote_request (s : bytes) : option VoteRequest :=
  j ← decode_first s; decode_struct set_vote_request (mkVoteReq 0 "" 0 0) j.
Definition decode_append_request (s : bytes) : option AppendEntriesRequest :=
  j ← decode_first s; decode_struct set_append_request (mkAppendReq 0 "" 0 0 [] 0) j.
Definition decode_install_request (s : bytes) : option InstallSnapshotRequest :=
  j ← decode_first s; decode_struct set_install_request (mkInstallReq 0 "" 0 0 []) j.

(** ** The transports *)

Section transport.
Context {W : Type}.

(** The inbound side of the seam. *)
Record RaftHandler : Type := mkHandler {
  h_RequestVote : VoteRequest → W → VoteResponse * W;
  h_AppendEntries : AppendEntriesRequest → W → AppendEntriesResponse * W;
  h_InstallSnapshot : InstallSnapshotRequest → W → InstallSnapshotResponse * W
}.

(** The outbound side: what a call returns. *)
Record Transport : Type := mkTransport {
  t_RequestVote : string → VoteRequest → W → res VoteResponse * W;
  t_AppendEntries : string → AppendEntriesRequest → W → res AppendEntriesResponse * W;
  t_InstallSnapshot : string → InstallSnapshotRequest → W → res InstallSnapshotResponse * W
}.

Definition FakeTransport : Transport := mkTransport
  (λ _ req w, (Ok (mkVoteResp (vq_Term req) true), w))
  (λ _ req w, (Ok (mkAppendResp (aq_Term req) true), w))
  (λ _ req w, (Ok (mkInstallResp (iq_Term req) true), w)).

(** *** transport_mem.go *)

Record MemTransport : Type := mkMemTransport { handlers : gmap string RaftHandler }.

Definition NewMemTransport : MemTransport := mkMemTransport ∅.
Definition Register (id : string) (h : RaftHandler) (m : MemTransport) : MemTransport :=
  mkMemTransport (<[id := h]> (handlers m)).
Definition Unregister (id : string) (m : MemTransport) : MemTransport := mkMemTransport (delete id (handlers m)).

Definition ErrUnknownPeer : go_error := ErrMsg "raft: unknown peer".

Definition handler (m : MemTransport) (peer : string) : res RaftHandler :=
  match handlers m !! peer with None => Err ErrUnknownPeer | Some h => Ok h end.

(** Dispatch to the handler of the peer. *)
Definition dispatch {A B} (m : MemTransport) (f : RaftHandler → A → W → B * W) (peer : string) (req : A) (w : W) :
    res B * W :=
  match handler m peer with
  | Err e => (Err e, w)
  | Ok h => let (resp, w) := f h req w in (Ok resp, w)
  end.

Definition MemTransport_Transport (m : MemTransport) : Transport :=
  mkTransport (dispatch m h_RequestVote) (dispatch m h_AppendEntries) (dispatch m h_InstallSnapshot).

(** *** transport_http.go: the receiving side *)

Definition rpc_newline : bytes := ["010"%char].

Definition writeRPC (v : json) : Z * bytes := (200, print v ++ rpc_newline).
Definition bad_request : Z * bytes := (400, bytes_of_string "bad request" ++ rpc_newline).
Definition not_found : Z * bytes := (404, bytes_of_string "404 page not found" ++ rpc_newline).

Definition ServeRaftHTTP (h : RaftHandler) (path : string) (body : bytes) (w : W) : (Z * bytes) * W :=
  if decide (path = "/raft/vote"%string) then
    match decode_vote_request body with
    | None => (bad_request, w)
    | Some req => let (resp, w) := h_RequestVote h req w in (writeRPC (marshal_vote_response resp), w)
    end
  else if decide (path = "/raft/append"%string) then
    match decode_append_request body with
    | None => (bad_request, w)
    | Some req => let (resp, w) := h_AppendEntries h req w in (writeRPC (marshal_append_response resp), w)
    end
  else if decide (path = "/raft/snapshot"%string) then
    match decode_install_request body with
    | None => (bad_request, w)
    | Some req => let (resp, w) := h_InstallSnapshot h req w in (writeRPC (marshal_install_response resp), w)
    end
  else (not_found, w).

(** *** transport_http.go: the sending side *)

Definition Network : Type := string → bytes → W → option (Z * bytes) * W.

(** [do], with the decoder of the response type. *)
Definition do_rpc {A} (net : Network) (peer path : string) (body : json) (decode : json → option A) (w : W) : res A * W :=
  match net (String.append peer path) (print body) w with
  | (None, w) => (Err (ErrMsg "raft: rpc failed"), w)
  | (Some (status, data), w) =>
      if decide (status ≠ 200) then (Err (ErrMsg "raft: rpc status"), w)
      else
        match j ← decode_first data; decode j with
        | None => (Err (ErrMsg "raft: decode rpc"), w)
        | Some resp => (Ok resp, w)
        end
  end.

Definition HTTPTransport (net : Network) : Transport := mkTransport
  (λ peer req, do_rpc net peer "/raft/vote" (marshal_vote_request req)
     (decode_struct set_vote_response (mkVoteResp 0 false)))
  (λ peer req, do_rpc net peer "/raft/append" (marshal_append_request req)
     (decode_struct set_append_response (mkAppendResp 0 false)))
  (λ peer req, do_rpc net peer "/raft/snapshot" (marshal_install_request req)
     (decode_struct set_install_response (mkInstallResp 0 false))).

Lemma handler_Register id h m : handler (Register id h m) id = Ok h.
Proof. unfold handler, Register. simpl. by rewrite lookup_insert_eq. Qed.

(** An unregistered peer is unreachable and nothing happens. *)
Lemma handler_Unregister id m : handler (Unregister id m) id = Err ErrUnknownPeer.
Proof. unfold handler, Unregister. simpl. by rewrite lookup_delete_eq. Qed.
End transport.
Arguments RaftHandler : clear implicits.
Arguments Transport : clear implicits.
Arguments MemTransport : clear implicits.
Arguments Network : clear implicits.

(** ** Messages survive JSON *)

Definition vote_request_ok (r : VoteRequest) : Prop :=
  in_int64 (vq_Term r) ∧ in_int64 (vq_LastLogIndex r) ∧ in_int64 (vq_LastLogTerm r) ∧
  ValidString (vq_CandidateID r) = true.

Definition append_request_ok (r : AppendEntriesRequest) : Prop :=
  in_int64 (aq_Term r) ∧ in_int64 (aq_PrevLogIndex r) ∧ in_int64 (aq_PrevLogTerm r) ∧ in_int64 (aq_LeaderCommit r) ∧
  ValidString (aq_LeaderID r) = true ∧ Forall (λ e, in_int64 (Term e) ∧ command_ok (Cmd e)) (aq_Entries r).

Definition install_request_ok (r : InstallSnapshotRequest) : Prop :=
  in_int64 (iq_Term r) ∧ in_int64 (iq_LastIncludedIndex r) ∧ in_int64 (iq_LastIncludedTerm r) ∧
  ValidString (iq_LeaderID r) = true.

Lemma decode_first_print j rest : json_wf j → delim rest → decode_first (print j ++ rest) = Some (coerce_json j).
Proof.
  intros Hw Hd. unfold decode_first. pose proof (jsize_print j Hw) as Hs.
  destruct (reads_all (S (2 * length (print j ++ rest)))) as (Hv & _). rewrite length_app in *.
  by rewrite Hv by (done || lia).
Qed.

(** A value without strings to repair. *)
Definition clean (j : json) : Prop := json_wf j ∧ coerce_json j = j.

Lemma clean_jint z : clean (jint z).
Proof. split; [apply FormatInt_wf|done]. Qed.
Lemma clean_str s : ValidString s = true → clean (JStr s).
Proof. intros Hs. split; [done|]. simpl. by rewrite coerce_valid. Qed.
Lemma clean_bool b : clean (JBool b).
Proof. by split. Qed.
Lemma clean_arr l : Forall clean l → clean (JArr l).
Proof.
  intros Hl. induction Hl as [|v l [Hw Hc] _ [IHw IHc]]; [by split|]. cbn [json_wf coerce_json] in *.
  split; [by split|]. injection IHc as IHc. simpl. by rewrite Hc, IHc.
Qed.
Lemma clean_obj l : Forall (λ p, ValidString p.1 = true ∧ clean p.2) l → clean (JObj l).
Proof.
  intros Hl. induction Hl as [|[k v] l [Hk [Hw Hc]] _ [IHw IHc]]; [by split|]. cbn [json_wf coerce_json] in *.
  split; [by split|]. injection IHc as IHc. simpl in *. by rewrite Hc, IHc, coerce_valid.
Qed.

Create HintDb clean.
#[local] Hint Resolve clean_jint clean_str clean_bool : clean.

Ltac clean_obj := apply clean_obj; repeat (apply Forall_cons_2; [split; [reflexivity|cbn [snd]; auto with clean]|]); apply Forall_nil_2.

Lemma clean_command c : command_ok c → clean (marshal_command c).
Proof. intros (_ & _ & ? & ? & ? & _). unfold marshal_command. clean_obj. Qed.
#[local] Hint Resolve clean_command : clean.

Lemma clean_log l : Forall (λ e, in_int64 (Term e) ∧ command_ok (Cmd e)) l → clean (marshal_log l).
Proof.
  intros Hl. destruct l as [|e l]; [by split|]. apply clean_arr, Forall_fmap.
  eapply Forall_impl; [done|]. intros x [_ Hx]. simpl. unfold marshal_log_entry. clean_obj.
Qed.
#[local] Hint Resolve clean_log : clean.

(** ASCII bytes are valid UTF-8. *)
Lemma ascii_valid l : Forall (λ c, Z_of_byte c < 128) l → ValidString (string_of_bytes l) = true.
Proof.
  intros Hl. unfold ValidString. rewrite bytes_of_string_of_bytes, <- length_bytes_of_string, bytes_of_string_of_bytes.
  induction Hl as [|b l Hb _ IH]; [done|]. cbn [length valid_loop]. rewrite (proj2 (Z.ltb_lt _ _)) by done. exact IH.
Qed.

Lemma clean_data d : clean (JStr (string_of_bytes (b64_encode d))).
Proof.
  apply clean_str, ascii_valid. eapply Forall_impl; [apply b64_encode_chars|]. by intros c [_ ?].
Qed.
#[local] Hint Resolve clean_data : clean.

(** Members of a struct one at a time. *)
Lemma decode_struct_cons {S : Type} (set : string → json → S → option S) cur k v l s :
  set k v cur = Some s → decode_struct set cur (JObj ((k, v) :: l)) = decode_struct set s (JObj l).
Proof. intros Hs. cbn [decode_struct foldl fst snd]. by rewrite <- Hs. Qed.

Ltac members :=
  repeat (erewrite decode_struct_cons; [|cbn [mbind option_bind]; simpl; rewrite ?decode_int_jint by done; reflexivity]);
  reflexivity.

Lemma vote_request_roundtrip r rest : vote_request_ok r → delim rest →
  decode_vote_request (print (marshal_vote_request r) ++ rest) = Some r.
Proof.
  intros (Ht & Hi & Hlt & Hs) Hd. assert (clean (marshal_vote_request r)) as [Hw Hc] by clean_obj.
  unfold decode_vote_request. rewrite decode_first_print, Hc by done. destruct r as [t c i lt]. clear Hw Hc. cbn [mbind option_bind].
  unfold marshal_vote_request. cbn [vq_Term vq_CandidateID vq_LastLogIndex vq_LastLogTerm]. members.
Qed.

Lemma append_request_roundtrip r rest : append_request_ok r → delim rest →
  decode_append_request (print (marshal_append_request r) ++ rest) = Some r.
Proof.
  intros (Ht & Hi & Hpt & Hlc & Hs & Hes) Hd. assert (clean (marshal_append_request r)) as [Hw Hc] by clean_obj.
  unfold decode_append_request. rewrite decode_first_print, Hc by done. destruct r as [t l i pt es c].
  clear Hw Hc. cbn [mbind option_bind]. unfold marshal_append_request.
  cbn [aq_Term aq_LeaderID aq_PrevLogIndex aq_PrevLogTerm aq_Entries aq_LeaderCommit].
  pose proof (unmarshal_log es Hes) as Hlog. revert Hlog. generalize (marshal_log es). intros jl Hlog.
  repeat (erewrite decode_struct_cons; [|simpl; rewrite ?decode_int_jint, ?Hlog by done; reflexivity]). reflexivity.
Qed.

Lemma install_request_roundtrip r rest : install_request_ok r → delim rest →
  decode_install_request (print (marshal_install_request r) ++ rest) = Some r.
Proof.
  intros (Ht & Hi & Hit & Hs) Hd. assert (clean (marshal_install_request r)) as [Hw Hc] by clean_obj.
  unfold decode_install_request. rewrite decode_first_print, Hc by done. destruct r as [t l i it d].
  clear Hw Hc. cbn [mbind option_bind]. unfold marshal_install_request.
  cbn [iq_Term iq_LeaderID iq_LastIncludedIndex iq_LastIncludedTerm iq_Data].
  assert (Hdata : decode_bytes (JStr (string_of_bytes (b64_encode d))) = Some d).
  { cbn [decode_bytes]. by rewrite bytes_of_string_of_bytes, b64_roundtrip. }
  revert Hdata. generalize (JStr (string_of_bytes (b64_encode d))). intros jd Hdata.
  repeat (erewrite decode_struct_cons; [|simpl; rewrite ?decode_int_jint, ?Hdata by done; reflexivity]). reflexivity.
Qed.

Lemma vote_response_roundtrip r rest : in_int64 (vr_Term r) → delim rest →
  (j ← decode_first (print (marshal_vote_response r) ++ rest); decode_struct set_vote_response (mkVoteResp 0 false) j) = Some r.
Proof.
  intros Ht Hd. assert (clean (marshal_vote_response r)) as [Hw Hc] by clean_obj.
  rewrite decode_first_print, Hc by done. destruct r as [t g]. cbn [mbind option_bind].
  unfold marshal_vote_response. cbn [vr_Term vr_VoteGranted]. members.
Qed.

Lemma append_response_roundtrip r rest : in_int64 (ar_Term r) → delim rest →
  (j ← decode_first (print (marshal_append_response r) ++ rest); decode_struct set_append_response (mkAppendResp 0 false) j) = Some r.
Proof.
  intros Ht Hd. assert (clean (marshal_append_response r)) as [Hw Hc] by clean_obj.
  rewrite decode_first_print, Hc by done. destruct r as [t g]. cbn [mbind option_bind].
  unfold marshal_append_response. cbn [ar_Term ar_Success]. members.
Qed.

Lemma install_response_roundtrip r rest : in_int64 (ir_Term r) → delim rest →
  (j ← decode_first (print (marshal_install_response r) ++ rest); decode_struct set_install_response (mkInstallResp 0 false) j) = Some r.
Proof.
  intros Ht Hd. assert (clean (marshal_install_response r)) as [Hw Hc] by clean_obj.
  rewrite decode_first_print, Hc by done. destruct r as [t g]. cbn [mbind option_bind].
  unfold marshal_install_response. cbn [ir_Term ir_Success]. members.
Qed.

(** ** The HTTP transport does what the in-memory transport does *)

Section http.
Context {W : Type} (net : Network W) (peer : string) (h : RaftHandler W).

(** The network carries requests for [peer] to [ServeRaftHTTP h]. *)
Definition connected : Prop :=
  ∀ path body w, path ∈ ["/raft/vote"; "/raft/append"; "/raft/snapshot"]%string →
    net (String.append peer path) body w = (let (resp, w') := ServeRaftHTTP h path body w in (Some resp, w')).

(** The terms the peer answers are Go ints. *)
Definition answers_ints : Prop :=
  (∀ req w, in_int64 (vr_Term (h_RequestVote h req w).1)) ∧
  (∀ req w, in_int64 (ar_Term (h_AppendEntries h req w).1)) ∧
  (∀ req w, in_int64 (ir_Term (h_InstallSnapshot h req w).1)).

(** C16 (raft over HTTP): over a network that delivers, and for messages whose
    strings are valid UTF-8, a call of the HTTP transport, through the JSON of
    the request (snapshot data in base64), the router, the handler and the
    JSON of the response, does and returns exactly what a call of the
    in-memory transport with the same handler does. *)
Theorem http_transport_refines_mem m :
  connected → answers_ints →
  let mem := MemTransport_Transport (Register peer h m) in
  (∀ req w, vote_request_ok req → t_RequestVote (HTTPTransport net) peer req w = t_RequestVote mem peer req w) ∧
  (∀ req w, append_request_ok req → t_AppendEntries (HTTPTransport net) peer req w = t_AppendEntries mem peer req w) ∧
  (∀ req w, install_request_ok req → t_InstallSnapshot (HTTPTransport net) peer req w = t_InstallSnapshot mem peer req w).
Proof.
  intros Hnet (Hv & Ha & Hi) mem.
  split_and!; intros req w Hok; unfold mem; cbn [HTTPTransport MemTransport_Transport t_RequestVote t_AppendEntries t_InstallSnapshot];
    unfold do_rpc, dispatch; rewrite handler_Register, Hnet by set_solver; unfold ServeRaftHTTP.
  - rewrite decide_True, <- (app_nil_r (print _)), vote_request_roundtrip by done. specialize (Hv req w).
    destruct (h_RequestVote h req w) as [resp w']. cbn [writeRPC fst snd]. unfold writeRPC.
    rewrite decide_False by lia. by rewrite vote_response_roundtrip.
  - rewrite decide_False, decide_True, <- (app_nil_r (print _)), append_request_roundtrip by done. specialize (Ha req w).
    destruct (h_AppendEntries h req w) as [resp w']. unfold writeRPC.
    rewrite decide_False by lia. by rewrite append_response_roundtrip.
  - rewrite !decide_False, decide_True, <- (app_nil_r (print _)), install_request_roundtrip by done. specialize (Hi req w).
    destruct (h_InstallSnapshot h req w) as [resp w']. unfold writeRPC.
    rewrite decide_False by lia. by rewrite install_response_roundtrip.
Qed.
End http.

(** The example's peer answers the terms it is asked with. *)
Definition echo_handler : RaftHandler nat := mkHandler
  (λ req w, (mkVoteResp 7 true, S w)) (λ req w, (mkAppendResp 7 (0 <? zlen (aq_Entries req)), S w))
  (λ req w, (mkInstallResp 7 (0 <? zlen (iq_Data req)), S w)).

Definition echo_net : Network nat := λ url body w,
  if decide (url = "http://b/raft/vote"%string) then
    let (resp, w') := ServeRaftHTTP echo_handler "/raft/vote" body w in (Some resp, w')
  else if decide (url = "http://b/raft/append"%string) then
    let (resp, w') := ServeRaftHTTP echo_handler "/raft/append" body w in (Some resp, w')
  else if decide (url = "http://b/raft/snapshot"%string) then
    let (resp, w') := ServeRaftHTTP echo_handler "/raft/snapshot" body w in (Some resp, w')
  else (None, w).

Lemma http_transport_refines_mem_witness :
  let req := mkInstallReq 7 "http://a" 3 2 (bytes_of_string "data") in
  install_request_ok req ∧
  t_InstallSnapshot (HTTPTransport echo_net) "http://b" req 0%nat = (Ok (mkInstallResp 7 true), 1%nat).
Proof.
  intros req. assert (Hok : install_request_ok req).
  { unfold install_request_ok, in_int64, minInt64, maxInt64. simpl. split_and!; try lia. reflexivity. }
  split; [exact Hok|].
  destruct (http_transport_refines_mem echo_net "http://b" echo_handler NewMemTransport) as (_ & _ & Hi).
  - intros path body w Hp. repeat (apply elem_of_cons in Hp as [ ->|Hp]; [reflexivity|]). by apply elem_of_nil in Hp.
  - unfold answers_ints, in_int64, minInt64, maxInt64. simpl. split_and!; intros; lia.
  - rewrite (Hi req 0%nat Hok). reflexivity.
Defined.

(** Binary values over HTTP: a command whose value is not valid UTF-8 does
    not reach the peer as it was sent: the byte 0xFF arrives as U+FFFD, so the
    leader and its followers execute different commands for one log entry. *)
Theorem http_append_corrupts_binary :
  let value := string_of_bytes [byte_of_Z 0xFF] in
  let cmd := mkCommand OpPut "k" "" value 0 in
  let req := mkAppendReq 1 "a" 0 0 [mkEntry 1 cmd] 0 in
  ∃ got, decode_append_request (print (marshal_append_request req)) = Some got ∧
    aq_Entries got = [mkEntry 1 (mkCommand OpPut "k" "" (string_of_bytes replacement) 0)] ∧ aq_Entries got ≠ aq_Entries req.
Proof.
  intros value cmd req. eexists. split; [vm_compute; reflexivity|]. split; [reflexivity|]. vm_compute. congruence.
Qed.
