(* ===== verification/ChaosFaults.v ===== *)
(** * ChaosFaults: fault injection, pkg/chaos/faults.go and transport.go

    The shared fault configuration, the decisions it makes for every message,
    the fault-injecting transport and raft store.  Rates and the draws they are
    compared with are rationals (a finite float64 is one, and comparison is
    exact); durations are nanoseconds.  The random generator is a state with its
    two draws. *)

From S2P Require Import Prelude GoLib RaftNode Transport.
From Stdlib Require Import QArith.
Open Scope Z_scope.

(** [a < b] on float64. *)
Definition flt (a b : Q) : bool := negb (Qle_bool b a).

Inductive FaultKind : Type :=
| FaultCrash
| FaultLeaderIsolation
| FaultMinorityPartition
| FaultMajorityPartition
| FaultAsymmetricPartition
| FaultPacketLoss
| FaultDuplication
| FaultReordering
| FaultDelay
| FaultClockSkew
| FaultFsError.

Global Instance FaultKind_eq_dec : EqDecision FaultKind.
Proof. solve_decision. Defined.

Record Fault : Type := mkFault {
  f_Kind : FaultKind;
  f_Target : string;
  f_Peer : string;
  f_At : Z;
  f_For : Z;
  f_Rate : Q;
  f_Delay : Z
}.

(** [math/rand/v2]: a generator and the draws the harness makes. *)
Class Rand (R : Type) : Type := {
  Float64 : R → Q * R;
  IntN : Z → R → Z * R
}.

(** [IntN n] is in [0, n). *)
Class RandLaws (R : Type) `{!Rand R} : Prop := {
  IntN_range n r : 0 < n → 0 <= (IntN n r).1 < n
}.

Section faults.
Context `{Rand R}.

Record FaultConfig : Type := mkFaults {
  rng : R;
  isolated : gmap string bool;
  edgeDrop : gmap (string * string) bool;
  lossRate : Q;
  dupRate : Q;
  reorder : Q;
  delayMin : Z;
  delayMax : Z;
  skew : gmap string Z;
  failFsync : gmap string bool
}.

Definition set_rng (r : R) (c : FaultConfig) : FaultConfig :=
  mkFaults r (isolated c) (edgeDrop c) (lossRate c) (dupRate c) (reorder c) (delayMin c) (delayMax c) (skew c) (failFsync c).
Definition set_edges (e : gmap (string * string) bool) (c : FaultConfig) : FaultConfig :=
  mkFaults (rng c) (isolated c) e (lossRate c) (dupRate c) (reorder c) (delayMin c) (delayMax c) (skew c) (failFsync c).

(** [newFaultConfig], from the seeded generator. *)
Definition newFaultConfig (r : R) : FaultConfig := mkFaults r ∅ ∅ 0%Q 0%Q 0%Q 0 0 ∅ ∅.

(** A lookup in a Go map of bools. *)
Definition on {K} `{Countable K} (m : gmap K bool) (k : K) : bool := default false (m !! k).

(** The two probabilistic parts of [route]: is the message lost, and its
    latency if it is not. *)
Definition lost (c : FaultConfig) : bool * R :=
  if flt 0 (lossRate c) then let (x, r) := Float64 (rng c) in (flt x (lossRate c), r) else (false, rng c).

Definition latency (from : string) (c : FaultConfig) (r : R) : Z * R :=
  let '(base, r) :=
    if delayMin c <? delayMax c then let (x, r) := IntN (delayMax c - delayMin c) r in (delayMin c + x, r)
    else (delayMin c, r) in
  let base := base + default 0 (skew c !! from) in
  if flt 0 (reorder c) then
    let (x, r) := Float64 r in
    if flt x (reorder c) then
      let jitter := 100 * 1000000 in
      let jitter := if jitter <? delayMax c then delayMax c else jitter in
      let (y, r) := IntN jitter r in (base + y, r)
    else (base, r)
  else (base, r).

(** [route]: [None] when the message is dropped. *)
Definition route (from to : string) (c : FaultConfig) : option Z * FaultConfig :=
  if on (isolated c) from || on (isolated c) to then (None, c)
  else if on (edgeDrop c) (from, to) then (None, c)
  else
    let '(l, r) := lost c in
    if l then (None, set_rng r c)
    else let '(lat, r) := latency from c r in (Some lat, set_rng r c).

Definition shouldDuplicate (c : FaultConfig) : bool * FaultConfig :=
  if flt 0 (dupRate c) then let (x, r) := Float64 (rng c) in (flt x (dupRate c), set_rng r c) else (false, c).

Definition fsyncFails (id : string) (c : FaultConfig) : bool := on (failFsync c) "" || on (failFsync c) id.

(** The two nested loops of [setPartition]. *)
Definition cut (subset all : list string) (e : gmap (string * string) bool) : gmap (string * string) bool :=
  foldl (λ e a, foldl (λ e b,
      if bool_decide (bool_decide (a ∈ subset) ≠ bool_decide (b ∈ subset))
      then <[(b, a) := true]> (<[(a, b) := true]> e) else e) e all) e all.

Definition setPartition (subset all : list string) (c : FaultConfig) : FaultConfig :=
  set_edges (cut subset all (edgeDrop c)) c.
Definition clearPartition (c : FaultConfig) : FaultConfig := set_edges ∅ c.
Definition setEdgeDrop (from to : string) (c : FaultConfig) : FaultConfig :=
  set_edges (<[(from, to) := true]> (edgeDrop c)) c.
Definition clearEdgeDrop (from to : string) (c : FaultConfig) : FaultConfig :=
  set_edges (delete (from, to) (edgeDrop c)) c.

Definition setLoss (rate : Q) (c : FaultConfig) : FaultConfig :=
  mkFaults (rng c) (isolated c) (edgeDrop c) rate (dupRate c) (reorder c) (delayMin c) (delayMax c) (skew c) (failFsync c).
Definition setDup (rate : Q) (c : FaultConfig) : FaultConfig :=
  mkFaults (rng c) (isolated c) (edgeDrop c) (lossRate c) rate (reorder c) (delayMin c) (delayMax c) (skew c) (failFsync c).
Definition setReorder (rate : Q) (jitter : Z) (c : FaultConfig) : FaultConfig :=
  mkFaults (rng c) (isolated c) (edgeDrop c) (lossRate c) (dupRate c) rate (delayMin c)
    (if 0 <? jitter then jitter else delayMax c) (skew c) (failFsync c).
Definition setDelay (d : Z) (c : FaultConfig) : FaultConfig :=
  mkFaults (rng c) (isolated c) (edgeDrop c) (lossRate c) (dupRate c) (reorder c) d d (skew c) (failFsync c).
Definition set_skews (m : gmap string Z) (c : FaultConfig) : FaultConfig :=
  mkFaults (rng c) (isolated c) (edgeDrop c) (lossRate c) (dupRate c) (reorder c) (delayMin c) (delayMax c) m (failFsync c).
Definition setSkew (id : string) (d : Z) (c : FaultConfig) : FaultConfig := set_skews (<[id := d]> (skew c)) c.
Definition clearSkew (id : string) (c : FaultConfig) : FaultConfig := set_skews (delete id (skew c)) c.
Definition setFsync (id : string) (on : bool) (c : FaultConfig) : FaultConfig :=
  mkFaults (rng c) (isolated c) (edgeDrop c) (lossRate c) (dupRate c) (reorder c) (delayMin c) (delayMax c) (skew c)
    (if on then <[id := true]> (failFsync c) else delete id (failFsync c)).

(** ** transport.go

    A call through the fault transport of node [id]; the configuration is shared,
    so it is threaded through.  Latency only delays the delivery. *)
Section transport.
Context {W : Type}.

Definition errDropped : go_error := ErrMsg "chaos: message dropped".

Definition faulty {A B} (id : string) (send : string → A → W → res B * W) (peer : string) (req : A)
    (c : FaultConfig) (w : W) : res B * FaultConfig * W :=
  match route id peer c with
  | (None, c) => (Err errDropped, c, w)
  | (Some _, c) =>
      let '(twice, c) := shouldDuplicate c in
      let w := if twice then (send peer req w).2 else w in
      let (r, w) := send peer req w in (r, c, w)
  end.

Definition faultTransport_RequestVote (id : string) (base : Transport W) :=
  faulty id (t_RequestVote base).
Definition faultTransport_AppendEntries (id : string) (base : Transport W) :=
  faulty id (t_AppendEntries base).
Definition faultTransport_InstallSnapshot (id : string) (base : Transport W) :=
  faulty id (t_InstallSnapshot base).
End transport.

(** [faultStore.Save]: an injected failure writes nothing; otherwise the
    outcome is that of the real store. *)
Definition faultStore_Save (id : string) (c : FaultConfig) (o : save_outcome) : save_outcome :=
  if fsyncFails id c then SaveFailed false else o.
End faults.
Arguments FaultConfig : clear implicits.

(** ** Partitions *)

(** On different sides of a partition. *)
Definition apart (subset all : list string) (a b : string) : bool :=
  bool_decide (a ∈ all) && bool_decide (b ∈ all) && xorb (bool_decide (a ∈ subset)) (bool_decide (b ∈ subset)).

Lemma on_insert {K} `{Countable K} (m : gmap K bool) k k' : on (<[k := true]> m) k' = bool_decide (k = k') || on m k'.
Proof.
  unfold on. destruct (decide (k = k')) as [ ->|Hne].
  - by rewrite lookup_insert_eq, bool_decide_true.
  - by rewrite lookup_insert_ne, bool_decide_false.
Qed.

Lemma bool_ne p q : bool_decide (p ≠ q) = xorb p q.
Proof. by destruct p, q. Qed.

(** The edge [(x, y)] is one of the two cut for the pair [(a, b)]. *)
Definition cut_by (subset : list string) (x y a b : string) : bool :=
  xorb (bool_decide (a ∈ subset)) (bool_decide (b ∈ subset)) &&
  (bool_decide ((b, a) = (x, y)) || bool_decide ((a, b) = (x, y))).

Lemma on_inner subset a bs e x y :
  on (foldl (λ e b, if bool_decide (bool_decide (a ∈ subset) ≠ bool_decide (b ∈ subset))
                    then <[(b, a) := true]> (<[(a, b) := true]> e) else e) e bs) (x, y) =
  on e (x, y) || existsb (cut_by subset x y a) bs.
Proof.
  revert e. induction bs as [|b bs IH]; intros e; cbn [foldl existsb]; [by rewrite orb_false_r|].
  rewrite IH, bool_ne. unfold cut_by at 2. destruct (xorb _ _); cbn [andb orb]; [|done].
  rewrite !on_insert. destruct (on e (x, y)); [by rewrite !orb_true_r|]. by rewrite orb_false_r, orb_false_l.
Qed.

Lemma cut_by_exists subset all x y :
  existsb (λ a, existsb (cut_by subset x y a) all) all = apart subset all x y.
Proof.
  apply eq_bool_prop_intro. rewrite !Is_true_true. unfold apart.
  rewrite existsb_exists, !andb_true_iff, !bool_decide_eq_true. setoid_rewrite existsb_exists.
  setoid_rewrite <- list_elem_of_In. unfold cut_by. setoid_rewrite andb_true_iff. setoid_rewrite orb_true_iff.
  setoid_rewrite bool_decide_eq_true. split.
  - intros (a & Ha & b & Hb & Hx & [[= <- <-]|[= <- <-]]); [by rewrite xorb_comm|done].
  - intros [[Hx Hy] Hd]. exists x. split; [done|]. exists y. split_and!; [done..|by right].
Qed.

(** [setPartition] drops exactly the edges between the two sides, in both
    directions, besides those that were dropped before. *)
Lemma on_cut subset all e x y : on (cut subset all e) (x, y) = on e (x, y) || apart subset all x y.
Proof.
  rewrite <- cut_by_exists. unfold cut. generalize all at 2 4. intros l. revert e.
  induction l as [|a l IH]; intros e; cbn [foldl existsb]; [by rewrite orb_false_r|].
  by rewrite IH, on_inner, orb_assoc.
Qed.

(** ** Latency *)

Section latency.
Context `{!Rand R, Hrand : !RandLaws R}.

Lemma latency_bounds from (c : FaultConfig R) r : 0 <= delayMin c →
  let s := default 0 (skew c !! from) in
  delayMin c + s <= (latency from c r).1 ∧
  (latency from c r).1 <= Z.max (delayMin c) (delayMax c - 1) + s +
    (if flt 0 (reorder c) then Z.max (100 * 1000000) (delayMax c) - 1 else 0).
Proof.
  intros Hd s. unfold latency. fold s.
  assert (Hbase : ∀ r, let b := (if delayMin c <? delayMax c then let (x, r) := IntN (delayMax c - delayMin c) r in (delayMin c + x, r)
    else (delayMin c, r)).1 in delayMin c <= b <= Z.max (delayMin c) (delayMax c - 1)).
  { intros r0. destruct (Z.ltb_spec (delayMin c) (delayMax c)); simpl; [|lia].
    pose proof (IntN_range (delayMax c - delayMin c) r0 ltac:(lia)). destruct (IntN _ r0). simpl in *. lia. }
  specialize (Hbase r). destruct (if delayMin c <? delayMax c then _ else _) as [b r1]. cbn [fst] in Hbase.
  destruct (flt 0 (reorder c)); simpl; [|lia]. destruct (Float64 r1) as [x r2]. destruct (flt x (reorder c)); simpl; [|lia].
  set (j := if _ <? delayMax c then _ else _).
  assert (Hj : j = Z.max 100000000 (delayMax c)) by (unfold j; destruct (Z.ltb_spec (100 * 1000000) (delayMax c)); lia).
  pose proof (IntN_range j r2 ltac:(lia)). destruct (IntN j r2). simpl in *. lia.
Qed.

(** The fault model: in a cluster whose nodes are partitioned into [subset] and
    the rest, with no message loss configured, a message is dropped exactly
    when an end of it is isolated, its edge was cut before or its ends are on
    different sides; after [clearPartition] only isolation drops it.  A message
    that is not dropped takes between the configured delay and the sum of the
    maximal delay, the sender's skew and, when reordering is on, the jitter. *)
Theorem route_spec subset all from to (c : FaultConfig R) :
  lossRate c = 0%Q → 0 <= delayMin c →
  let iso := on (isolated c) from || on (isolated c) to in
  ((route from to (setPartition subset all c)).1 = None ↔
     iso = true ∨ on (edgeDrop c) (from, to) = true ∨ apart subset all from to = true) ∧
  ((route from to (clearPartition c)).1 = None ↔ iso = true) ∧
  ∀ l, (route from to c).1 = Some l →
    let s := default 0 (skew c !! from) in
    delayMin c + s <= l <= Z.max (delayMin c) (delayMax c - 1) + s +
      (if flt 0 (reorder c) then Z.max (100 * 1000000) (delayMax c) - 1 else 0).
Proof.
  intros Hloss Hd iso.
  assert (Hnone : ∀ e, (route from to (set_edges e c)).1 = None ↔ iso = true ∨ on e (from, to) = true).
  { intros e. unfold route, lost. cbn [isolated edgeDrop lossRate set_edges rng]. fold iso. rewrite Hloss.
    destruct iso; [naive_solver|]. destruct (on e (from, to)); [naive_solver|]. simpl.
    destruct (latency _ _ _). simpl. naive_solver. }
  split_and!.
  - unfold setPartition. rewrite Hnone, on_cut, orb_true_iff. done.
  - unfold clearPartition. rewrite Hnone. unfold on. rewrite lookup_empty. naive_solver.
  - intros l. unfold route, lost. fold iso. rewrite Hloss. destruct iso; [done|].
    destruct (on (edgeDrop c) (from, to)); [done|]. simpl.
    pose proof (latency_bounds from c (rng c) Hd) as Hb. destruct (latency from c (rng c)) as [lat r]. simpl in *.
    intros [= <-]. lia.
Qed.
End latency.

(** A generator for evaluation: the draws are a fixed list of halves. *)
Global Instance unit_Rand : Rand unit := {| Float64 := λ r, ((1 # 2)%Q, r); IntN := λ n r, (n / 2, r) |}.

Lemma unit_RandLaws : RandLaws unit.
Proof. split. intros n [] Hn. simpl. Z.to_euclidean_division_equations. lia. Qed.

Lemma route_spec_witness :
  let c := newFaultConfig () in
  lossRate c = 0%Q ∧ 0 <= delayMin c ∧
  ((route "n0" "n1" (setPartition ["n0"%string] ["n0"; "n1"; "n2"]%string c)).1 = None ↔
     on (isolated c) "n0" || on (isolated c) "n1" = true ∨ on (edgeDrop c) ("n0", "n1")%string = true ∨
     apart ["n0"%string] ["n0"; "n1"; "n2"]%string "n0" "n1" = true).
Proof.
  intros c. split; [done|]. split; [done|].
  apply (route_spec (Hrand := unit_RandLaws) ["n0"%string] ["n0"; "n1"; "n2"]%string "n0" "n1" c); done.
Defined.
