(* ===== verification/ChaosOracles.v ===== *)
(** * ChaosOracles: the invariant oracles, pkg/chaos/oracles.go

    The oracles look at the started nodes, which Go hands out in an arbitrary
    order: a list of ids and nodes, about whose order nothing is assumed.  The
    cluster runs while an oracle looks: the two calls the election oracle makes
    of a node may see two states of it, and different nodes may be seen at
    different times.  The log oracles are given each node as seen once, although
    they read its log entry by entry.  Each oracle is proved to report a violation
    exactly when there is one in what it has seen, as far as it is so; the two
    that compare logs see nothing once the logs are compacted. *)

From S2P Require Import Prelude GoLib Engine RaftNode RaftLeader RaftApply RaftLog Linearizability.
From Stdlib Require Import DecimalString.

(** The violations, with what their texts print. *)
Inductive oracle_error : Type :=
| TwoLeaders (term : Z) (prev id : string)
| LogDivergence (idx : Z) (a b : string) (ca cb : Command)
| AppliedDifferent (idx : Z) (a b : string) (ca cb : Command)
| Unreadable (value : string) (seq : Z) (id : string) (err : go_error)
| AckedRolledBack (value : string) (seq : Z) (v id : string)
| NotLinearizable (v : violation).

(** ** electionSafetyOracle *)

(** A node as the call of [IsLeader] and as the later call of [Term] see it. *)
Abbreviation seen_twice := (Node * Node)%type.

Fixpoint election_loop (l : list (string * seen_twice)) (leaders : gmap Z string) : list oracle_error :=
  match l with
  | [] => []
  | (id, (n, n')) :: l =>
      if negb (IsLeader n) then election_loop l leaders
      else
        let term := Node_Term n' in
        let err := match leaders !! term with
                   | Some prev => if decide (prev ≠ id) then [TwoLeaders term prev id] else []
                   | None => []
                   end in
        err ++ election_loop l (<[term := id]> leaders)
  end.

Definition electionSafetyOracle_Check (l : list (string * seen_twice)) : list oracle_error := election_loop l ∅.

(** Each node as it was seen first. *)
Definition first_seen (l : list (string * seen_twice)) : list (string * Node) := prod_map id fst <$> l.

(** At most one leader per term, in what was seen. *)
Definition one_leader (l : list (string * seen_twice)) : Prop :=
  ∀ a b na nb, (a, na) ∈ l → (b, nb) ∈ l → n_role na.1 = RoleLeader → n_role nb.1 = RoleLeader →
    n_term na.2 = n_term nb.2 → a = b.

Lemma election_loop_spec l leaders :
  NoDup l.*1 →
  (election_loop l leaders = [] ↔
   one_leader l ∧ ∀ a na, (a, na) ∈ l → n_role na.1 = RoleLeader → ∀ p, leaders !! n_term na.2 = Some p → p = a).
Proof.
  revert leaders. induction l as [|[id [n n']] l IH]; intros leaders Hnd; cbn [election_loop].
  { split; [|done]. intros _. split; [intros a b na nb Ha|intros a na Ha]; by apply elem_of_nil in Ha. }
  cbn in Hnd. apply NoDup_cons in Hnd as [Hfresh Hnd]. unfold one_leader. setoid_rewrite elem_of_cons.
  unfold IsLeader. case_bool_decide as Hr; cbn [negb].
  - unfold Node_Term. rewrite app_nil, IH by done. split.
    + intros (Herr & Hone & Hl). split.
      * intros a b na nb [Ha|Ha] [Hb|Hb] Hra Hrb Ht; simplify_eq; [done|..|by apply (Hone a b na nb)].
        -- specialize (Hl b nb Hb Hrb id). rewrite <- Ht, lookup_insert_eq in Hl. naive_solver.
        -- specialize (Hl a na Ha Hra id). rewrite Ht, lookup_insert_eq in Hl. symmetry. naive_solver.
      * intros a na [Ha|Ha] Hra p Hp; simplify_eq.
        -- cbn [snd] in Hp. rewrite Hp in Herr. destruct (decide (p = id)) as [|Hne]; [done|]. by rewrite decide_True in Herr.
        -- destruct (decide (n_term na.2 = n_term n')) as [Ht|Ht].
           ++ specialize (Hl a na Ha Hra id). rewrite Ht, lookup_insert_eq in Hl. specialize (Hl eq_refl). subst a.
              destruct Hfresh. apply list_elem_of_fmap. by exists (id, na).
           ++ apply (Hl a na Ha Hra). by rewrite lookup_insert_ne.
    + intros [Hone Hl]. split_and!.
      * destruct (leaders !! n_term n') as [p|] eqn:Hp; [|done].
        rewrite decide_False; [done|]. intros Hne. apply Hne. apply (Hl id (n, n')); [by left|done..].
      * intros a b na nb Ha Hb. apply Hone; by right.
      * intros a na Ha Hra p. destruct (decide (n_term na.2 = n_term n')) as [Ht|Ht].
        -- rewrite Ht, lookup_insert_eq. intros [= <-]. apply (Hone id a (n, n') na); [by left|by right|done..].
        -- rewrite lookup_insert_ne by done. apply (Hl a na); [by right|done].
  - rewrite IH by done. split.
    + intros [Hone Hl]. split; [|naive_solver]. intros a b na nb [Ha|Ha] [Hb|Hb]; simplify_eq; try done. by apply Hone.
    + intros [Hone Hl]. split; [intros a b na nb Ha Hb; apply Hone; by right|naive_solver].
Qed.

(** ** logMatchingOracle and stateMachineSafetyOracle *)

(** The loop of [logMatchingOracle] over the indices of two nodes, from [idx];
    the logs end it. *)
Fixpoint log_pair (fuel : nat) (idx : Z) (a b : Node) : option (Z * Entry * Entry) :=
  match fuel with
  | O => None
  | S fuel =>
      match LogEntry a idx, LogEntry b idx with
      | Some ea, Some eb =>
          if decide (Term ea = Term eb ∧ Cmd ea ≠ Cmd eb) then Some (idx, ea, eb) else log_pair fuel (idx + 1) a b
      | _, _ => None
      end
  end.

(** The loop of [stateMachineSafetyOracle], up to [limit]. *)
Fixpoint applied_pair (fuel : nat) (idx : Z) (a b : Node) : option (Z * Entry * Entry) :=
  match fuel with
  | O => None
  | S fuel =>
      match LogEntry a idx, LogEntry b idx with
      | Some ea, Some eb =>
          if decide (Cmd ea ≠ Cmd eb) then Some (idx, ea, eb) else applied_pair fuel (idx + 1) a b
      | _, _ => None
      end
  end.

(** The pairs [i < j] of the ids. *)
Fixpoint pairs {A} (l : list A) : list (A * A) :=
  match l with
  | [] => []
  | x :: l => (pair x <$> l) ++ pairs l
  end.

Definition logMatchingOracle_Check (l : list (string * Node)) : list oracle_error :=
  omap (λ p : (string * Node) * (string * Node),
    '(idx, ea, eb) ← log_pair (S (length (n_log p.1.2))) 1 p.1.2 p.2.2;
    Some (LogDivergence idx p.1.1 p.2.1 (Cmd ea) (Cmd eb))) (pairs l).

Definition stateMachineSafetyOracle_Check (l : list (string * Node)) : list oracle_error :=
  omap (λ p : (string * Node) * (string * Node),
    let limit := ApplyIndex p.1.2 in
    let limit := if ApplyIndex p.2.2 <? limit then ApplyIndex p.2.2 else limit in
    '(idx, ea, eb) ← applied_pair (Z.to_nat limit) 1 p.1.2 p.2.2;
    Some (AppliedDifferent idx p.1.1 p.2.1 (Cmd ea) (Cmd eb))) (pairs l).

(** What the two oracles are after. *)
Definition logs_match (a b : Node) : Prop :=
  ∀ i ea eb, entryAt a i = Some ea → entryAt b i = Some eb → Term ea = Term eb → Cmd ea = Cmd eb.
Definition applied_match (a b : Node) : Prop :=
  ∀ i ea eb, i <= n_lastApplied a → i <= n_lastApplied b → entryAt a i = Some ea → entryAt b i = Some eb → Cmd ea = Cmd eb.

(** Scanning the common indices of two uncompacted logs, whatever is compared. *)
Section scan.
Context (bad : Entry → Entry → Prop) `{!∀ x y, Decision (bad x y)}.

Fixpoint scan_pair (fuel : nat) (idx : Z) (a b : Node) : option (Z * Entry * Entry) :=
  match fuel with
  | O => None
  | S fuel =>
      match LogEntry a idx, LogEntry b idx with
      | Some ea, Some eb => if decide (bad ea eb) then Some (idx, ea, eb) else scan_pair fuel (idx + 1) a b
      | _, _ => None
      end
  end.

Lemma scan_pair_None fuel idx a b :
  n_lastIncludedIndex a = 0 → n_lastIncludedIndex b = 0 → 1 <= idx →
  (scan_pair fuel idx a b = None ↔
   ∀ i ea eb, idx <= i < idx + Z.of_nat fuel → entryAt a i = Some ea → entryAt b i = Some eb → ¬ bad ea eb).
Proof.
  intros Ha Hb. revert idx. induction fuel as [|fuel IH]; intros idx Hi; cbn [scan_pair]; [split; [lia|done]|].
  unfold LogEntry.
  assert (Hpast : ∀ n j, n_lastIncludedIndex n = 0 → entryAt n idx = None → idx <= j → entryAt n j = None).
  { intros n j Hn He Hj. apply entryAt_None. apply entryAt_None in He. lia. }
  destruct (entryAt a idx) as [x|] eqn:Ea, (entryAt b idx) as [y|] eqn:Eb.
  - case_decide as Hbad.
    + split; [done|]. intros Hall. by destruct (Hall idx x y ltac:(lia) Ea Eb).
    + rewrite IH by lia. split.
      * intros Hall i ea eb Hr Hea Heb. destruct (decide (i = idx)) as [ ->|Hne]; [by simplify_eq|].
        apply (Hall i ea eb); [lia|done..].
      * intros Hall i ea eb Hr. apply Hall. lia.
  - split; [|done]. intros _ i ea eb Hr _ Heb. by rewrite (Hpast b i Hb Eb) in Heb by lia.
  - split; [|done]. intros _ i ea eb Hr Hea _. by rewrite (Hpast a i Ha Ea) in Hea by lia.
  - split; [|done]. intros _ i ea eb Hr Hea _. by rewrite (Hpast a i Ha Ea) in Hea by lia.
Qed.
End scan.

Lemma log_pair_scan fuel idx a b :
  log_pair fuel idx a b = scan_pair (λ x y, Term x = Term y ∧ Cmd x ≠ Cmd y) fuel idx a b.
Proof. revert idx. induction fuel as [|fuel IH]; intros idx; [done|]. cbn. repeat case_match; try done. Qed.

Lemma applied_pair_scan fuel idx a b : applied_pair fuel idx a b = scan_pair (λ x y, Cmd x ≠ Cmd y) fuel idx a b.
Proof. revert idx. induction fuel as [|fuel IH]; intros idx; [done|]. cbn. repeat case_match; try done. Qed.

Lemma entry_range n i e : n_lastIncludedIndex n = 0 → entryAt n i = Some e → 1 <= i <= Z.of_nat (length (n_log n)).
Proof. intros Hn He. pose proof (entryAt_Some_range _ _ _ He). unfold lastLogIndex, zlen in *. lia. Qed.

Lemma log_pair_spec a b : n_lastIncludedIndex a = 0 → n_lastIncludedIndex b = 0 →
  (log_pair (S (length (n_log a))) 1 a b = None ↔ logs_match a b).
Proof.
  intros Ha Hb. rewrite log_pair_scan, scan_pair_None by (done || lia). unfold logs_match. split.
  - intros Hall i ea eb Hea Heb Ht. destruct (decide (Cmd ea = Cmd eb)) as [|Hne]; [done|].
    pose proof (entry_range a i ea Ha Hea). by destruct (Hall i ea eb ltac:(lia) Hea Heb).
  - intros Hall i ea eb _ Hea Heb [Ht Hne]. by apply Hne, (Hall i).
Qed.

Lemma applied_pair_spec a b : n_lastIncludedIndex a = 0 → n_lastIncludedIndex b = 0 →
  (applied_pair (Z.to_nat (if n_lastApplied b <? n_lastApplied a then n_lastApplied b else n_lastApplied a)) 1 a b = None ↔
   applied_match a b).
Proof.
  intros Ha Hb. rewrite applied_pair_scan, scan_pair_None by (done || lia). unfold applied_match.
  set (limit := if _ <? _ then _ else _).
  assert (Hl : limit = Z.min (n_lastApplied a) (n_lastApplied b)) by (unfold limit; destruct (Z.ltb_spec (n_lastApplied b) (n_lastApplied a)); lia).
  split.
  - intros Hall i ea eb Hia Hib Hea Heb. destruct (decide (Cmd ea = Cmd eb)) as [|Hne]; [done|].
    pose proof (entry_range a i ea Ha Hea). by destruct (Hall i ea eb ltac:(lia) Hea Heb).
  - intros Hall i ea eb Hr Hea Heb Hne. apply Hne, (Hall i); [lia|lia|done..].
Qed.

(** A check of all pairs is a check of any two elements. *)
Lemma omap_pairs {A B} (f : A * A → option B) (R : A → A → Prop) l :
  (∀ x, R x x) → (∀ x y, R x y → R y x) → (∀ x y, x ∈ l → y ∈ l → (f (x, y) = None ↔ R x y)) →
  (omap f (pairs l) = [] ↔ ∀ x y, x ∈ l → y ∈ l → R x y).
Proof.
  intros Hrefl Hsym. induction l as [|x l IH]; intros Hf; cbn [pairs].
  { split; [|done]. intros _ x y Hx. by apply elem_of_nil in Hx. }
  rewrite omap_app, app_nil, IH by (intros; apply Hf; by right).
  assert (Hhead : omap f (pair x <$> l) = [] ↔ ∀ y, y ∈ l → R x y).
  { assert (Hf' : ∀ y, y ∈ l → (f (x, y) = None ↔ R x y)) by (intros y Hy; apply Hf; [by left|by right]). clear -Hf'.
    induction l as [|y l IH]; [split; [|done]; intros _ y Hy; by apply elem_of_nil in Hy|]. csimpl.
    rewrite <- (Forall_forall (R x)), Forall_cons, <- Hf', Forall_forall, <- IH by (by left || (intros; apply Hf'; by right)).
    destruct (f (x, y)); naive_solver. }
  rewrite Hhead. setoid_rewrite elem_of_cons. split.
  - intros [Hx Hl] a b [ ->|Ha] [ ->|Hb]; [done|by apply Hx|by apply Hsym, Hx|by apply Hl].
  - intros Hall. split; [intros; apply Hall; auto|intros; apply Hall; auto].
Qed.

Definition uncompacted (l : list (string * Node)) : Prop := Forall (λ p, n_lastIncludedIndex p.2 = 0) l.

Lemma log_oracles_spec l :
  uncompacted l →
  (logMatchingOracle_Check l = [] ↔ ∀ p q, p ∈ l → q ∈ l → logs_match p.2 q.2) ∧
  (stateMachineSafetyOracle_Check l = [] ↔ ∀ p q, p ∈ l → q ∈ l → applied_match p.2 q.2).
Proof.
  intros Hu. unfold uncompacted in Hu. rewrite Forall_forall in Hu. split.
  - apply (omap_pairs _ (λ p q, logs_match p.2 q.2)).
    + intros p i ea eb ??. by simplify_eq.
    + intros p q Hm i ea eb ???. symmetry. by eapply Hm.
    + intros [ia a] [ib b] Ha Hb. cbn [fst snd]. rewrite <- (log_pair_spec a b) by (by apply (Hu (ia, a)) || by apply (Hu (ib, b))).
      by destruct (log_pair _ _ a b) as [[[idx ea] eb]|].
  - apply (omap_pairs _ (λ p q, applied_match p.2 q.2)).
    + intros p i ea eb ????. by simplify_eq.
    + intros p q Hm i ea eb ????. symmetry. by eapply Hm.
    + intros [ia a] [ib b] Ha Hb. cbn [fst snd]. rewrite <- (applied_pair_spec a b) by (by apply (Hu (ia, a)) || by apply (Hu (ib, b))).
      unfold ApplyIndex. by destruct (applied_pair _ _ a b) as [[[idx ea] eb]|].
Qed.

(** C40 (what the log oracles decide): on nodes whose logs are not compacted, in
    whatever order they are visited, the log-matching oracle reports nothing
    exactly when any two nodes that hold entries of the same index and term
    hold the same command, and the state-machine oracle exactly when any two
    nodes hold the same command at every index both have applied. *)
Theorem log_oracles_exact l :
  uncompacted l →
  (logMatchingOracle_Check l = [] ↔ ∀ p q, p ∈ l → q ∈ l → logs_match p.2 q.2) ∧
  (stateMachineSafetyOracle_Check l = [] ↔ ∀ p q, p ∈ l → q ∈ l → applied_match p.2 q.2).
Proof. apply log_oracles_spec. Qed.

(** Two nodes for evaluation. *)
Definition demo_node (base : Z) (applied : Z) (log : list Entry) : Node :=
  set_lastApplied applied (set_base base 1 (set_log log (NewNode "n0" ["n1"%string]))).

Definition demo_cmd (v : string) : Command := mkCommand OpPut "k" "" v 0.

Lemma log_oracles_exact_witness :
  let l := [("n0"%string, demo_node 0 1 [mkEntry 1 (demo_cmd "v1"); mkEntry 1 (demo_cmd "v2")]);
            ("n1"%string, demo_node 0 1 [mkEntry 1 (demo_cmd "v1"); mkEntry 2 (demo_cmd "v3")])] in
  uncompacted l ∧ (∀ p q, p ∈ l → q ∈ l → logs_match p.2 q.2) ∧ (∀ p q, p ∈ l → q ∈ l → applied_match p.2 q.2).
Proof.
  intros l. assert (Hu : uncompacted l) by (repeat constructor).
  split; [exact Hu|]. split; apply (log_oracles_exact l Hu); reflexivity.
Defined.

(** The log oracles and compaction: once every node has compacted its log, both
    oracles report nothing whatever the logs hold: they stop at index 1, which
    is gone.  Here two nodes hold different commands at index 2 in the same
    term, and have applied them. *)
Theorem log_oracles_blind :
  (∀ l, Forall (λ p : string * Node, 0 < n_lastIncludedIndex p.2) l →
     logMatchingOracle_Check l = [] ∧ stateMachineSafetyOracle_Check l = []) ∧
  let a := demo_node 1 2 [mkEntry 1 (demo_cmd "v2")] in
  let b := demo_node 1 2 [mkEntry 1 (demo_cmd "v3")] in
  ¬ logs_match a b ∧ ¬ applied_match a b ∧
  logMatchingOracle_Check [("n0"%string, a); ("n1"%string, b)] = [] ∧
  stateMachineSafetyOracle_Check [("n0"%string, a); ("n1"%string, b)] = [].
Proof.
  split.
  - assert (Hnone : ∀ n, 0 < n_lastIncludedIndex n → LogEntry n 1 = None) by (intros n Hn; apply entryAt_None; lia).
    intros l. induction 1 as [|[i a] l Ha Hl [IH1 IH2]]; [done|].
    unfold logMatchingOracle_Check, stateMachineSafetyOracle_Check in *. cbn [pairs]. rewrite !omap_app, IH1, IH2, !app_nil_r.
    clear IH1 IH2 Hl. induction l as [|[j b] l [IH1 IH2]]; [done|]. simpl in Ha. cbn [list_fmap fmap omap list_omap fst snd].
    cbn [fst snd]. cbn [log_pair]. rewrite (Hnone a Ha). cbn [mbind option_bind]. split; [exact IH1|].
    destruct (Z.to_nat _); cbn [applied_pair]; rewrite ?(Hnone a Ha); exact IH2.
  - intros a b. split_and!; [intros H|intros H|reflexivity..].
    + specialize (H 2 (mkEntry 1 (demo_cmd "v2")) (mkEntry 1 (demo_cmd "v3")) eq_refl eq_refl eq_refl). discriminate.
    + specialize (H 2 (mkEntry 1 (demo_cmd "v2")) (mkEntry 1 (demo_cmd "v3"))). simpl in H.
      specialize (H ltac:(lia) ltac:(lia) eq_refl eq_refl). discriminate.
Qed.

(** What the election oracle decides: on nodes with distinct ids, in whatever
    order they are visited, it reports nothing exactly when no two of them were
    seen as leaders with the same term. *)
Lemma election_oracle_spec l : NoDup l.*1 → electionSafetyOracle_Check l = [] ↔ one_leader l.
Proof.
  intros Hnd. unfold electionSafetyOracle_Check. rewrite election_loop_spec by done. setoid_rewrite lookup_empty. naive_solver.
Qed.

(** ** The history (cluster.go) *)

Inductive op_kind : Type := KWrite | KRead.

Record op : Type := mkHistOp {
  o_kind : op_kind;
  o_seq : Z;
  o_key : string;
  o_value : string;
  o_start : Z;
  o_end : Z;
  o_acked : bool;
  o_readOn : string
}.

Definition history : Type := list op.
Definition newHistory : history := [].
Definition history_add (o : op) (h : history) : history := h ++ [o].
Definition history_snapshot (h : history) : list op := h.

(** [fmt.Sscanf(value, "v%d", &seq)] into a uint64, for ASCII values: the letter,
    blanks, then digits; a line break, no digit or more than 64 bits is an error,
    and what follows the digits is ignored. *)
Fixpoint skip_blanks (s : bytes) : option bytes :=
  match s with
  | [] => None
  | b :: s' =>
      let z := Z_of_byte b in
      if z =? 10 then None
      else if (z =? 32) || (z =? 9) || ((11 <=? z) && (z <=? 13)) then skip_blanks s'
      else Some s
  end.

Definition is_digit (b : ascii) : bool := (48 <=? Z_of_byte b) && (Z_of_byte b <=? 57).

Fixpoint scan_digits (acc : Z) (s : bytes) : Z :=
  match s with
  | b :: s => if is_digit b then scan_digits (acc * 10 + (Z_of_byte b - 48)) s else acc
  | [] => acc
  end.

Definition readSeq (value : string) : Z :=
  match bytes_of_string value with
  | "v"%char :: s =>
      match skip_blanks s with
      | Some (b :: s') =>
          if is_digit b then
            let v := scan_digits 0 (b :: s') in
            if v <? 2 ^ 64 then v else 0
          else 0
      | _ => 0
      end
  | _ => 0
  end.

(** The workload writes [fmt.Sprintf("v%d", seq)]. *)
Definition seq_value (seq : Z) : string := String "v" (FormatInt seq).

Lemma scan_digits_acc d acc :
  scan_digits (Z.pos acc) (bytes_of_string (NilEmpty.string_of_uint d)) = Z.pos (Pos.of_uint_acc d acc).
Proof.
  revert acc. induction d; intros acc; [done|..]; cbn [NilEmpty.string_of_uint bytes_of_string String.list_ascii_of_string
    scan_digits Pos.of_uint_acc]; rewrite <- IHd; f_equal;
    (change (is_digit _) with true; cbn [andb]; f_equal; vm_compute (Z_of_byte _ - 48); lia).
Qed.

Lemma scan_digits_uint d : scan_digits 0 (bytes_of_string (NilEmpty.string_of_uint d)) = Z.of_uint d.
Proof.
  induction d as [|d IH|d|d|d|d|d|d|d|d|d]; [done|exact IH|..];
    [exact (scan_digits_acc d 1)|exact (scan_digits_acc d 2)|exact (scan_digits_acc d 3)|exact (scan_digits_acc d 4)
    |exact (scan_digits_acc d 5)|exact (scan_digits_acc d 6)|exact (scan_digits_acc d 7)|exact (scan_digits_acc d 8)
    |exact (scan_digits_acc d 9)].
Qed.

(** A version written is the version read. *)
Lemma readSeq_value seq : 0 <= seq < 2 ^ 64 → readSeq (seq_value seq) = seq.
Proof.
  intros Hs. destruct (FormatInt_nonneg seq) as (d & Hd & Hz & E); [lia|]. unfold readSeq, seq_value. rewrite E.
  replace (NilZero.string_of_uint d) with (NilEmpty.string_of_uint d) by by destruct d.
  pose proof (scan_digits_uint d) as Hscan. rewrite Hz in Hscan.
  change (bytes_of_string (String "v" ?x)) with ("v"%char :: bytes_of_string x).
  assert (Hhead : ∃ b s, bytes_of_string (NilEmpty.string_of_uint d) = b :: s ∧ is_digit b = true ∧ skip_blanks (b :: s) = Some (b :: s)).
  { destruct d; [done|..]; eexists _, _; (split; [reflexivity|done]). }
  destruct Hhead as (b & s & Hb & Hdig & Hskip). rewrite Hb in Hscan |- *.
  rewrite Hskip, Hdig, Hscan. by rewrite (proj2 (Z.ltb_lt _ _)) by lia.
Qed.

(** ** durabilityOracle *)

(** The acked writes, by sequence number. *)
Definition acked_writes (h : list op) : gmap Z string :=
  foldl (λ m o, match o_kind o with KWrite => if o_acked o then <[o_seq o := o_value o]> m else m | KRead => m end) ∅ h.

(** One reading of the nodes: [get] is what [n.Get("k")] returns on each. *)
Definition durability_errors (acked : list (Z * string)) (ids : list string) (get : string → res string) : list oracle_error :=
  '(seq, value) ← acked;
  id ← ids;
  match get id with
  | Err e => [Unreadable value seq id e]
  | Ok v => if readSeq v <? seq then [AckedRolledBack value seq v id] else []
  end.

(** The polling loop over the readings, each with the time after it; [None]
    when the readings end before the loop does. *)
Fixpoint durability_loop (deadline : Z) (acked : list (Z * string)) (ids : list string)
    (polls : list ((string → res string) * Z)) : option (list oracle_error) :=
  match polls with
  | [] => None
  | (get, now) :: polls =>
      match durability_errors acked ids get with
      | [] => Some []
      | errs => if deadline <? now then Some errs else durability_loop deadline acked ids polls
      end
  end.

Definition durabilityOracle_Check (start : Z) (h : list op) (ids : list string) (polls : list ((string → res string) * Z)) :
    option (list oracle_error) :=
  durability_loop (start + 3 * 1000000000) (map_to_list (acked_writes (history_snapshot h))) ids polls.

(** Every acked version, or a newer one, is read on every node. *)
Definition all_readable (acked : list (Z * string)) (ids : list string) (get : string → res string) : Prop :=
  ∀ seq value id, (seq, value) ∈ acked → id ∈ ids → ∃ v, get id = Ok v ∧ seq <= readSeq v.

Lemma list_bind_nil {A B} (f : A → list B) l : (x ← l; f x) = [] ↔ ∀ x, x ∈ l → f x = [].
Proof.
  induction l as [|x l IH]; csimpl; [split; [|done]; intros _ x Hx; by apply elem_of_nil in Hx|].
  rewrite app_nil, IH. setoid_rewrite elem_of_cons. naive_solver.
Qed.

Lemma durability_errors_nil acked ids get : durability_errors acked ids get = [] ↔ all_readable acked ids get.
Proof.
  unfold durability_errors. rewrite list_bind_nil. split.
  - intros Hall seq value id Hs Hi. specialize (Hall (seq, value) Hs). simpl in Hall. rewrite list_bind_nil in Hall.
    specialize (Hall id Hi). destruct (get id) as [v|e]; [|done].
    destruct (Z.ltb_spec (readSeq v) seq); [done|]. by exists v.
  - intros Hall [seq value] Hs. rewrite list_bind_nil. intros id Hi.
    destruct (Hall seq value id Hs Hi) as (v & -> & Hv). by rewrite (proj2 (Z.ltb_ge _ _)).
Qed.

Lemma durability_loop_nil deadline acked ids polls :
  durability_loop deadline acked ids polls = Some [] ↔
  ∃ pre get now post, polls = pre ++ (get, now) :: post ∧ Forall (λ p, p.2 <= deadline) pre ∧ all_readable acked ids get.
Proof.
  induction polls as [|[get now] polls IH]; cbn [durability_loop].
  { split; [done|]. by intros ([|] & ? & ? & ? & ? & _). }
  destruct (durability_errors acked ids get) as [|e es] eqn:E.
  - apply durability_errors_nil in E. split; [|done]. intros _. by exists [], get, now, polls.
  - assert (Hno : ¬ all_readable acked ids get) by (rewrite <- durability_errors_nil, E; done).
    destruct (Z.ltb_spec deadline now) as [Hlt|Hge].
    + split; [done|]. intros (pre & g & t & post & Heq & Hpre & Hr). destruct pre as [|q pre]; simplify_eq/=; [done|].
      apply Forall_cons in Hpre as [Hq _]. simpl in Hq. lia.
    + rewrite IH. split.
      * intros (pre & g & t & post & -> & Hpre & Hr). exists ((get, now) :: pre), g, t, post. split_and!; [done| |done]. by constructor.
      * intros (pre & g & t & post & Heq & Hpre & Hr). destruct pre as [|q pre]; simplify_eq/=; [done|].
        apply Forall_cons in Hpre as [_ Hpre]. by exists pre, g, t, post.
Qed.

(** What the durability oracle decides: the oracle reports nothing exactly when,
    in some reading of the nodes with no earlier one past its three-second
    window, every node returns for every acknowledged write its version or a
    newer one; and a version the workload writes is the version the oracle
    reads back from the value. *)
Theorem durabilityOracle_exact start h ids polls :
  (durabilityOracle_Check start h ids polls = Some [] ↔
   ∃ pre get now post, polls = pre ++ (get, now) :: post ∧ Forall (λ p, p.2 <= start + 3 * 1000000000) pre ∧
     all_readable (map_to_list (acked_writes h)) ids get) ∧
  ∀ seq, 0 <= seq < 2 ^ 64 → readSeq (seq_value seq) = seq.
Proof. split; [apply durability_loop_nil|apply readSeq_value]. Qed.

(** ** linearizabilityOracle *)

Definition linearizability_op (o : op) : option Op :=
  match o_kind o with
  | KWrite => Some (mkOp Write (o_seq o) "" (o_start o) (o_end o))
  | KRead =>
      if decide (o_readOn o = ""%string) then None
      else Some (mkOp Read (o_seq o) (o_readOn o) (o_start o) (o_end o))
  end.

Definition linearizabilityOracle_Check (h : list op) : list oracle_error :=
  NotLinearizable <$> Check (omap linearizability_op (history_snapshot h)).
