(* ===== verification/RaftOracles.v ===== *)
(** * RaftOracles: the oracles of the chaos harness on the cluster

    The chaos harness judges a cluster by its oracles (ChaosOracles); the
    cluster of RaftCluster is what it runs.  In executions that meet none of
    the hazards a node applies nothing it has not committed, and the oracles
    for elections, logs and state machines report nothing, although the cluster
    runs on between their visits of the nodes, as long as no node's term changes
    between the two calls the election oracle makes of it.  When one does, the
    election oracle may report two leaders where there was never more than
    one. *)

From S2P Require Import Prelude GoLib Engine RaftNode RaftLeader RaftApply RaftLog RaftCluster RaftSafety RaftMatching RaftConsensus.
From S2P Require Import Linearizability ChaosOracles.

(** ** What is applied is committed *)

Definition applied_ok (n : Node) : Prop := n_lastApplied n <= n_commitIndex n.

(** The commit index does not fall and nothing is applied. *)
Definition only_commits (n n' : Node) : Prop := n_commitIndex n <= n_commitIndex n' ∧ n_lastApplied n' = n_lastApplied n.

Lemma only_commits_applied n n' : only_commits n n' → applied_ok n → applied_ok n'.
Proof. unfold applied_ok. intros [? ->]. lia. Qed.

Ltac unchanged := repeat case_match; simplify_eq/=; done.

Lemma replState_commits n : only_commits n (replState n).2.
Proof. unfold replState. destruct (n_repl n); done. Qed.

Lemma maybeCommit_commits n : only_commits n (maybeCommit n).
Proof.
  unfold maybeCommit. destruct (negb _); [done|]. pose proof (replState_commits n) as [H1 H2].
  destruct (replState n) as [st m]. simpl in *. destruct (Z.leb_spec (commit_threshold m st) (n_commitIndex m)); [done|].
  destruct (_ && _); [done|]. split; simpl; [lia|done].
Qed.

Lemma election_response_commits resp v n v' n' : election_response resp v n = (v', n') → only_commits n n'.
Proof. unfold election_response. destruct (_ <? _); by intros [= _ <-]. Qed.

Lemma election_end_commits req v q n : only_commits n (election_end req v q n).
Proof. unfold election_end. unchanged. Qed.

Lemma heartbeat_end_commits now acks n : only_commits n (heartbeat_end now acks n).
Proof. unfold heartbeat_end. unchanged. Qed.

Lemma quorum_check_commits now n : only_commits n (quorum_check now n).
Proof. unfold quorum_check. unchanged. Qed.

Lemma vote_locked_commits req n n' resp wait : vote_locked req n = (n', resp, wait) → only_commits n n'.
Proof. unfold vote_locked. intros H. unchanged. Qed.

Lemma replicate_begin_commits p n n' b : replicate_begin p n = (n', b) → only_commits n n'.
Proof.
  unfold replicate_begin. destruct (negb _); [by intros [= <- _]|]. pose proof (replState_commits n) as Hr.
  destruct (replState n) as [st m]. destruct (flying st p); [by intros [= <- _]|]. destruct (_ <? firstIndex m); by intros [= <- _].
Qed.

Lemma set_repl_commits st n n' : only_commits n n' → only_commits n (set_repl st n').
Proof. done. Qed.

Lemma maybeCommit_after n n' : only_commits n n' → only_commits n (maybeCommit n').
Proof. intros [H1 H2]. destruct (maybeCommit_commits n') as [H3 H4]. split; [lia|congruence]. Qed.

Lemma replicate_end_commits p req resp n : only_commits n (replicate_end p req resp n).1.
Proof.
  unfold replicate_end. pose proof (replState_commits n) as Hr. destruct (replState n) as [st m]. simpl in Hr.
  destruct resp as [resp|]; [|done]. destruct (_ <? _); [done|]. destruct (_ <? _); [done|].
  destruct (negb _); [done|]. by apply maybeCommit_after.
Qed.

Lemma install_check_commits p n : only_commits n (install_check p n).1.
Proof.
  unfold install_check. destruct (_ || _); [done|]. pose proof (replState_commits n) as Hr. by destruct (replState n).
Qed.

Lemma install_begin_commits p snap n n' r : install_begin p snap n = (n', r) → only_commits n n'.
Proof.
  unfold install_begin. pose proof (replState_commits n) as Hr. destruct (replState n) as [st m].
  destruct (flying st p); by intros [= <- _].
Qed.

Lemma install_end_commits p snap resp n : only_commits n (install_end p snap resp n).1.
Proof.
  unfold install_end. pose proof (replState_commits n) as Hr. destruct (replState n) as [st m]. simpl in Hr.
  destruct resp as [resp|]; [|done]. destruct (_ <? _); [done|]. destruct (_ || _); [done|]. by apply maybeCommit_after.
Qed.

Lemma persist_local_commits o l ok l' : persist_local o l = (ok, l') → only_commits (l_node l) (l_node l').
Proof.
  unfold persist_local, persist. intros H. repeat case_match; simplify_eq/=; done.
Qed.

Lemma append_refused_commits req n n' resp wait :
  append_locked req n = (n', resp, wait) → ar_Success resp = false → only_commits n n'.
Proof.
  unfold append_locked. destruct (_ <? _); [by intros [= <- _ _]|].
  destruct (follow_frame (aq_Term req) (aq_LeaderID req) n) as (_ & _ & _ & F4 & F5 & _).
  set (m := follow _ _ n) in *. destruct (negb _).
  - intros [= <- _ _] _. split; [lia|done].
  - intros H Hs. repeat case_match; simplify_eq/=; done.
Qed.

(** A base that is adopted is committed and applied. *)
Lemma raise_base_applied i n : applied_ok n → applied_ok (raise_base i n).
Proof.
  unfold applied_ok. intros Hn. destruct (raise_base_frame i n) as (_ & _ & _ & Hc & Ha). lia.
Qed.

Lemma CompactLog_applied i t n : applied_ok n → applied_ok (CompactLog i t n).
Proof.
  intros Hn. unfold CompactLog. destruct (_ <=? _); [done|]. by destruct (_ <=? _); apply raise_base_applied.
Qed.

Lemma install_locked_applied req n n' resp rest : install_locked req n = (n', resp, rest) → applied_ok n → applied_ok n'.
Proof.
  unfold install_locked. destruct (_ <? _); [by intros [= <- _ _]|].
  destruct (follow_frame (iq_Term req) (iq_LeaderID req) n) as (_ & _ & _ & F4 & F5 & _).
  set (m := follow _ _ n) in *. intros [= <- _ _] Hn. assert (Hm : applied_ok m) by (unfold applied_ok in *; lia).
  destruct (_ <? _); [|done]. by apply raise_base_applied.
Qed.

Lemma boot_applied members i d : 0 <= rs_LastIncludedIndex d → applied_ok (l_node (boot members i d)).
Proof.
  intros Hd. unfold applied_ok, boot, SetRaftStore, NewNode. cbn -[Z.ltb Z.le bool_decide].
  destruct (0 <? rs_LastIncludedIndex d) eqn:E; cbn -[Z.ltb Z.le bool_decide]; rewrite E; cbn -[Z.ltb Z.le bool_decide]; lia.
Qed.

Local Abbreviation node c i := (l_node (c_local c i)).

Lemma run_trans members ok c1 c2 c3 : run members ok c1 c2 → run members ok c2 c3 → run members ok c1 c3.
Proof. intros H1. induction 1; [done|]. by eapply run_snoc; [apply IHrun|..]. Qed.

Section oracles.
Context (members : list string).
Hypothesis members_NoDup : NoDup members.
Hypothesis members_two : (2 <= length members)%nat.

Definition all_applied_ok (c : Cluster) : Prop := ∀ i, i ∈ members → applied_ok (node c i).

Lemma applied_update c i l' ms led :
  all_applied_ok c → (applied_ok (l_node (c_local c i)) → applied_ok (l_node l')) → i ∈ members →
  all_applied_ok (mkCluster (c_local (update i l' ms c)) (ms ++ c_net c) led).
Proof.
  intros Hc Hl Hi j Hj. simpl. case_decide as Hji; [|by apply Hc]. apply Hl, Hc, Hi.
Qed.

Lemma applied_step L B S c c' : SInv members L B S c → step members None c c' → all_applied_ok c → all_applied_ok c'.
Proof.
  intros HS Hs Hc. remember None as h eqn:Hh. step_cases Hs.
  - injection Hb as <- <-. by apply applied_update.
  - pose proof (only_commits_applied _ _ (persist_local_commits _ _ _ _ Hp)). destruct ok; by apply applied_update.
  - apply applied_update; try done. by eapply only_commits_applied, election_response_commits.
  - apply applied_update; try done. apply only_commits_applied, election_end_commits.
  - apply applied_update; try done. apply only_commits_applied, election_end_commits.
  - apply applied_update; try done. apply only_commits_applied, heartbeat_end_commits.
  - apply applied_update; try done. apply only_commits_applied, quorum_check_commits.
  - pose proof (only_commits_applied _ _ (vote_locked_commits _ _ _ _ _ Hv)). destruct wait; by apply applied_update.
  - assert (Ho : only_commits (l_node l) n').
    { destruct (ar_Success resp) eqn:Hok; [|by eapply append_refused_commits]. split; [by eapply (appended_commit members)|].
      by destruct (append_locked_fields _ _ _ _ _ Hv) as (_ & ? & _). }
    pose proof (only_commits_applied _ _ Ho). destruct wait; by apply applied_update.
  - pose proof (install_locked_applied _ _ _ _ _ Hv). destruct rest; by apply applied_update.
  - apply applied_update; try done. exact (only_commits_applied _ _ (persist_local_commits _ _ _ _ Hp)).
  - apply applied_update; try done. exact (only_commits_applied _ _ (replicate_begin_commits _ _ _ _ Hb)).
  - apply applied_update; try done. apply only_commits_applied, replicate_end_commits.
  - apply applied_update; try done. apply only_commits_applied, install_check_commits.
  - apply applied_update; try done. exact (only_commits_applied _ _ (install_begin_commits _ _ _ _ _ Hb)).
  - apply applied_update; try done. apply only_commits_applied, install_end_commits.
  - by apply applied_update.
  - apply applied_update; try done. apply CompactLog_applied.
  - apply applied_update; try done. simpl. unfold applied_ok, apply_finish. destruct (_ <? _); simpl; [intros _; exact Hidx|done].
  - apply applied_update; try done. destruct (persist_local o l) as [ok l'] eqn:E. exact (only_commits_applied _ _ (persist_local_commits _ _ _ _ E)).
  - apply applied_update; try done. intros _. apply boot_applied.
    destruct (lm_node _ _ _ _ (si_logs _ _ _ _ _ HS) i Hi) as [[_ Hb] _ _ _]. unfold l. lia.
  - by apply applied_update.
Qed.

Lemma applied_run c : run members no_hazard (init members) c → all_applied_ok c.
Proof.
  intros Hr. remember (init members) as c0 eqn:E. induction Hr as [|c1 c2 c3 h Hr IH Hs Hh]; subst.
  - intros i Hi. by apply boot_applied.
  - destruct h; [done|]. destruct (SInv_reach members members_NoDup members_two c2 Hr) as (L & B & S & HS).
    eapply applied_step; [done|done|]. by apply IH.
Qed.

(** What is seen of one node and, at that time or later, of another. *)
Definition agree (a b : string) (n n' : Node) : Prop :=
  logs_match n n' ∧ applied_match n n' ∧
  (n_role n = RoleLeader → n_role n' = RoleLeader → n_term n = n_term n' → a = b).

Lemma agree_sym a b n n' : agree a b n n' → agree b a n' n.
Proof.
  intros (H1 & H2 & H3). split_and!.
  - intros i ea eb ???. symmetry. by eapply H1.
  - intros i ea eb ????. symmetry. by eapply H2.
  - intros ???. symmetry. by apply H3.
Qed.

Lemma agree_later c1 c2 a b :
  run members no_hazard (init members) c1 → run members no_hazard c1 c2 → a ∈ members → b ∈ members →
  agree a b (node c1 a) (node c2 b).
Proof.
  intros H1 H2 Ha Hb. destruct (SInv_reach members members_NoDup members_two c1 H1) as (L1 & B1 & S1 & HS1).
  destruct (SInv_run members members_NoDup members_two _ _ _ _ _ H2 HS1) as (L & B & S & HS & G).
  destruct (lm_node _ _ _ _ (si_logs _ _ _ _ _ HS1) a Ha) as [[Ba _] (_ & Ca & _) _ _].
  destruct (lm_node _ _ _ _ (si_logs _ _ _ _ _ HS) b Hb) as [[Bb _] (_ & Cb & _) _ _].
  apply (coherent_mono _ _ _ (g_log _ _ G)) in Ca. split_and!.
  - intros i ea eb Ea Eb Ht. by rewrite (coherent_matching members members_two L _ _ Ba Bb Ca Cb i ea eb Ea Eb Ht i ea eb (Z.le_refl i) Ea Eb).
  - intros i ea eb Hia Hib Ea Eb. pose proof (applied_run c1 H1 a Ha) as HA. pose proof (applied_run c2 (run_trans _ _ _ _ _ H1 H2) b Hb) as HB.
    pose proof (entryAt_Some_range _ _ _ Ea). unfold applied_ok in *.
    destruct (committed_same members members_NoDup members_two c1 c2 a b i H1 H2 Ha Hb) as (e & E1 & E2); [lia|lia|].
    congruence.
  - intros Hra Hrb Ht. pose proof (li_lead _ _ _ _ _ (inv_local _ _ (si_elections _ _ _ _ _ HS1) a Ha) Hra) as L1a.
    pose proof (li_lead _ _ _ _ _ (inv_local _ _ (si_elections _ _ _ _ _ HS) b Hb) Hrb) as L2b. rewrite <- Ht in L2b.
    apply (inv_unique _ _ (si_elections _ _ _ _ _ HS) a b (n_term (node c1 a))); [|done]. by apply (g_led _ _ G).
Qed.

Lemma uncompacted_run c a : run members no_hazard (init members) c → a ∈ members → n_lastIncludedIndex (node c a) = 0.
Proof.
  intros Hr Ha. destruct (SInv_reach members members_NoDup members_two c Hr) as (L & B & S & HS).
  by destruct (lm_node _ _ _ _ (si_logs _ _ _ _ _ HS) a Ha) as [[? _] _ _ _].
Qed.

(** The visits of an oracle from [c] on: the cluster runs between them, and
    between the two calls made of a node its term stays. *)
Inductive visits : Cluster → list (string * seen_twice) → Prop :=
| visits_nil c : visits c []
| visits_cons c c1 c2 a l :
    run members no_hazard c c1 → run members no_hazard c1 c2 → a ∈ members →
    n_term (node c1 a) = n_term (node c2 a) → visits c2 l → visits c ((a, (node c1 a, node c2 a)) :: l).

(** A node visited from [c] on. *)
Lemma visits_seen c l p :
  visits c l → p ∈ l → ∃ c1, run members no_hazard c c1 ∧ p.1 ∈ members ∧ p.2.1 = node c1 p.1 ∧ n_term p.2.2 = n_term p.2.1.
Proof.
  induction 1 as [|c c1 c2 a l H1 H2 Ha Ht Hv IH]; intros Hp; [by apply elem_of_nil in Hp|].
  apply elem_of_cons in Hp as [->|Hp]; [by exists c1|]. destruct (IH Hp) as (c' & Hr & ?). exists c'. split; [|done].
  by eapply run_trans, Hr; eapply run_trans, H2.
Qed.

Lemma visits_agree c l p q :
  run members no_hazard (init members) c → visits c l → p ∈ l → q ∈ l → agree p.1 q.1 p.2.1 q.2.1.
Proof.
  intros Hc Hv. revert Hc. induction Hv as [|c c1 c2 a l H1 H2 Ha Ht Hv IH]; intros Hc Hp Hq; [by apply elem_of_nil in Hp|].
  pose proof (run_trans _ _ _ _ _ Hc H1) as Hc1. pose proof (run_trans _ _ _ _ _ Hc1 H2) as Hc2.
  assert (Hlater : ∀ r, r ∈ l → agree a r.1 (node c1 a) r.2.1).
  { intros r Hr. destruct (visits_seen c2 l r Hv Hr) as (c' & Hr' & Hm & -> & _). apply agree_later; try done. by eapply run_trans. }
  apply elem_of_cons in Hp as [->|Hp], Hq as [->|Hq]; [apply agree_later; try done; apply run_refl|by apply Hlater| |by apply IH].
  by apply agree_sym, Hlater.
Qed.
End oracles.

(** C22 (the oracles accept what Raft guarantees): while the cluster runs from the
    empty disks without a hazard, an oracle visits nodes in whatever order, each
    once, the cluster running on between the visits.  When no node's term changes
    between the calls of [IsLeader] and [Term] made of it, the election oracle
    reports nothing.  The log and state machine oracles, given each node as seen
    at its visit, report nothing, and no node has applied an entry it has not
    committed. *)
Theorem oracles_accept_safe_runs members c l :
  NoDup members → (2 <= length members)%nat → run members no_hazard (init members) c → visits members c l → NoDup l.*1 →
  electionSafetyOracle_Check l = [] ∧ logMatchingOracle_Check (first_seen l) = [] ∧
  stateMachineSafetyOracle_Check (first_seen l) = [] ∧
  Forall (λ p, n_lastApplied p.2 <= n_commitIndex p.2) (first_seen l).
Proof.
  intros Hnd H2 Hr Hv Hl.
  assert (Hin : ∀ p, p ∈ first_seen l → ∃ q, q ∈ l ∧ p = (q.1, q.2.1)) by (intros p (q & -> & Hq)%list_elem_of_fmap; by exists q).
  assert (Hseen : ∀ q, q ∈ l → ∃ c1, run members no_hazard (init members) c1 ∧ q.1 ∈ members ∧ q.2.1 = node c1 q.1 ∧ n_term q.2.2 = n_term q.2.1).
  { intros q Hq. destruct (visits_seen members c l q Hv Hq) as (c1 & Hc1 & ?). exists c1. split; [by eapply run_trans|done]. }
  pose proof (visits_agree members Hnd H2 c l) as Hagree.
  assert (Hu : uncompacted (first_seen l)).
  { apply Forall_forall. intros p (q & Hq & ->)%Hin. destruct (Hseen q Hq) as (c1 & Hc1 & Hm & E & _). cbn. rewrite E. by apply (uncompacted_run members Hnd H2). }
  destruct (log_oracles_spec (first_seen l) Hu) as [H3 H4]. split_and!.
  - apply election_oracle_spec; [done|]. intros a b na nb Ha Hb Hra Hrb Ht.
    destruct (Hseen (a, na) Ha) as (? & _ & _ & _ & Ta), (Hseen (b, nb) Hb) as (? & _ & _ & _ & Tb). cbn in Ta, Tb.
    apply (Hagree (a, na) (b, nb)); try done. cbn. congruence.
  - apply H3. intros p q (p' & Hp & ->)%Hin (q' & Hq & ->)%Hin. by apply (Hagree p' q').
  - apply H4. intros p q (p' & Hp & ->)%Hin (q' & Hq & ->)%Hin. by apply (Hagree p' q').
  - apply Forall_forall. intros p (q & Hq & ->)%Hin. destruct (Hseen q Hq) as (c1 & Hc1 & Hm & E & _). cbn. rewrite E.
    by apply (applied_run members Hnd H2).
Qed.

(** A is visited while it leads term 1, and B once it has been elected in term 2. *)
Lemma oracles_accept_safe_runs_witness :
  ∃ c1 c2, run abc no_hazard (init abc) c1 ∧ run abc no_hazard c1 c2 ∧
    let l := [("A"%string, (node c1 "A"%string, node c1 "A"%string)); ("B"%string, (node c2 "B"%string, node c2 "B"%string))] in
    n_commitIndex (node c1 "A"%string) = 1 ∧ electionSafetyOracle_Check l = [] ∧
    logMatchingOracle_Check (first_seen l) = [] ∧ stateMachineSafetyOracle_Check (first_seen l) = [].
Proof.
  destruct handover_runs as (c1 & c2 & Hr1 & Hr2 & HA & _). exists c1, c2. split; [exact Hr1|]. split; [exact Hr2|]. intros l. split; [exact HA|].
  destruct (oracles_accept_safe_runs abc c1 l) as (H0 & H1 & H2 & _).
  - apply (bool_decide_unpack (NoDup abc)). vm_compute. exact I.
  - vm_compute. lia.
  - exact Hr1.
  - apply (visits_cons abc c1 c1 c1); [apply run_refl|apply run_refl|vm_compute; left|reflexivity|].
    apply (visits_cons abc c1 c2 c2); [exact Hr2|apply run_refl|vm_compute; right; left|reflexivity|apply visits_nil].
  - apply (bool_decide_unpack (NoDup ["A"; "B"]%string)). vm_compute. exact I.
  - split; [exact H0|]. split; [exact H1|exact H2].
Defined.

(** ** False alarms *)

(** The election oracle reads role and term in two calls: A leads term 1 when it
    is asked whether it is a leader; B is elected in term 2 and A hears of it, so
    that A's term is 2 when it is asked for it.  The oracle reports two leaders
    in term 2, A and B, in an execution without hazards, in which no term has two
    leaders. *)
Theorem election_oracle_false_alarm :
  ∃ c1 c2, run abc no_hazard (init abc) c1 ∧ run abc no_hazard c1 c2 ∧
    (∀ a b t, (a, t) ∈ c_led c2 → (b, t) ∈ c_led c2 → a = b) ∧
    electionSafetyOracle_Check
      [("A"%string, (node c1 "A"%string, node c2 "A"%string)); ("B"%string, (node c2 "B"%string, node c2 "B"%string))] =
      [TwoLeaders 2 "A" "B"].
Proof.
  assert (H1 : match runs abc no_hazard commit_by_A (init abc) with
    | Some c1 =>
        match runs abc no_hazard (election_of "B" 2 1 1 ["C"%string] ++ beat "B" "A") c1 with
        | Some c2 => electionSafetyOracle_Check
            [("A"%string, (node c1 "A"%string, node c2 "A"%string)); ("B"%string, (node c2 "B"%string, node c2 "B"%string))] =
            [TwoLeaders 2 "A" "B"]
        | None => False end
    | None => False end) by (vm_compute; reflexivity).
  destruct (runs abc no_hazard commit_by_A (init abc)) as [c1|] eqn:E1; [|destruct H1].
  destruct (runs abc no_hazard (election_of "B" 2 1 1 ["C"%string] ++ beat "B" "A") c1) as [c2|] eqn:E2; [|destruct H1].
  pose proof (runs_run abc _ _ _ _ _ E1 (run_refl _ _ _)) as R1. pose proof (runs_run abc _ _ _ _ _ E2 (run_refl _ _ _)) as R2.
  clear E1 E2. exists c1, c2. split; [exact R1|]. split; [exact R2|]. split; [|exact H1].
  assert (Hnd : NoDup abc) by (apply (bool_decide_unpack (NoDup abc)); vm_compute; exact I).
  destruct (SInv_reach abc Hnd ltac:(vm_compute; lia) c2 (run_trans _ _ _ _ _ R1 R2)) as (L & B & S & HS).
  intros a b t. apply (inv_unique _ _ (si_elections _ _ _ _ _ HS)).
Qed.
