(* ===== verification/ChaosCluster.v ===== *)
(** * ChaosCluster: the chaos harness, pkg/chaos/cluster.go

    The cluster under test, the workload that records the history and the fault
    schedule.  A node's storage engine is left out: a node is its raft state, and
    its disk the raft state it reloads when it is started.  Go map iteration
    visits the nodes in an arbitrary order, which is an argument. *)

From S2P Require Import Prelude GoLib RaftNode Linearizability ChaosFaults ChaosOracles.
From Stdlib Require Import QArith.
Open Scope Z_scope.

Global Instance Q_eq_dec : EqDecision Q.
Proof. intros [a b] [c d]. refine (cast_if_and (decide (a = c)) (decide (b = d))); congruence. Defined.
Global Instance Fault_eq_dec : EqDecision Fault.
Proof. solve_decision. Defined.

Section cluster.
Context `{!Rand R}.

Record Cluster : Type := mkChaos {
  ids : list string;
  cfg : FaultConfig R;
  nodes : gmap string Node;
  started : gmap string bool;
  disks : gmap string RaftState;
  hist : history
}.

Definition set_cfg (f : FaultConfig R → FaultConfig R) (c : Cluster) : Cluster :=
  mkChaos (ids c) (f (cfg c)) (nodes c) (started c) (disks c) (hist c).

Definition NewCluster (n : nat) (r : R) : Cluster :=
  mkChaos ((λ i, String "n" (FormatInt (Z.of_nat i))) <$> seq 0 n) (newFaultConfig r) ∅ ∅ ∅ newHistory.

Definition peers (id : string) (c : Cluster) : list string := filter (λ other, other ≠ id) (ids c).

(** [Start]: the node as it comes up from its disk. *)
Definition Start (id : string) (c : Cluster) : Cluster :=
  if on (started c) id then c
  else
    let node := SetRaftStore (default RaftState_zero (disks c !! id)) (NewNode id (peers id c)) in
    let node := SetSnapshotSink (SetSnapshotter node) in
    mkChaos (ids c) (cfg c) (<[id := node]> (nodes c)) (<[id := true]> (started c)) (disks c) (hist c).

Definition stopNode (id : string) (c : Cluster) : Cluster :=
  if on (started c) id
  then mkChaos (ids c) (cfg c) (nodes c) (<[id := false]> (started c)) (disks c) (hist c)
  else c.

Definition Stop (id : string) (c : Cluster) : Cluster := stopNode id c.
Definition Restart (id : string) (c : Cluster) : Cluster := Start id (Stop id c).

(** [StartAll] up to the wait for a leader. *)
Definition StartAll (c : Cluster) : Cluster := foldl (λ c id, Start id c) c (ids c).

(** [leaderID] and [startedNodes], with the order in which the map is visited. *)
Definition leaderID (order : list string) (c : Cluster) : string :=
  default ""%string (head (filter (λ id, on (started c) id = true ∧ from_option IsLeader false (nodes c !! id) = true) order)).

Definition startedNodes (order : list string) (c : Cluster) : list (string * Node) :=
  omap (λ id, if on (started c) id then pair id <$> nodes c !! id else None) order.

(** [Leader], and [waitLeader] with the cluster and the order of each poll until
    the deadline: whether a leader was seen, otherwise the test fails. *)
Definition Leader (order : list string) (c : Cluster) : option Node :=
  let id := leaderID order c in
  if decide (id = ""%string) then None else nodes c !! id.

Fixpoint waitLeader (polls : list (list string * Cluster)) : bool :=
  match polls with
  | [] => false
  | (order, c) :: polls => if Leader order c is Some _ then true else waitLeader polls
  end.

(** [randomStartedNode] for the number [r] that [rand.IntN] returned. *)
Definition randomStartedNode (order : list string) (r : nat) (c : Cluster) : string * option Node :=
  let ids := filter (λ id, on (started c) id = true ∧ is_Some (nodes c !! id)) order in
  match go_sort String.le ids !! r with
  | None => (""%string, None)
  | Some id => (id, nodes c !! id)
  end.

(** [waitMajorityValue]: the readings of the started nodes until the deadline. *)
Fixpoint waitMajorityValue (quorum : Z) (value : string) (polls : list (list (res string))) : bool :=
  match polls with
  | [] => false
  | poll :: polls =>
      if quorum <=? zlen (filter (λ r, r = Ok value) poll) then true else waitMajorityValue quorum value polls
  end.

(** ** Faults *)

Definition applyFault (order : list string) (f : Fault) (c : Cluster) : Cluster :=
  match f_Kind f with
  | FaultCrash => stopNode (f_Target f) c
  | FaultLeaderIsolation =>
      let id := leaderID order c in
      if decide (id = ""%string) then c else set_cfg (setPartition [id] (ids c)) c
  | FaultMinorityPartition => set_cfg (setPartition (take (length (ids c) / 2) (ids c)) (ids c)) c
  | FaultMajorityPartition => set_cfg (setPartition (take ((length (ids c) + 1) / 2) (ids c)) (ids c)) c
  | FaultAsymmetricPartition => set_cfg (setEdgeDrop (f_Target f) (f_Peer f)) c
  | FaultPacketLoss => set_cfg (setLoss (f_Rate f)) c
  | FaultDuplication => set_cfg (setDup (f_Rate f)) c
  | FaultReordering => set_cfg (setReorder (f_Rate f) (f_Delay f)) c
  | FaultDelay => set_cfg (setDelay (f_Delay f)) c
  | FaultClockSkew => set_cfg (setSkew (f_Target f) (f_Delay f)) c
  | FaultFsError => set_cfg (setFsync (f_Target f) true) c
  end.

Definition clearFault (f : Fault) (c : Cluster) : Cluster :=
  match f_Kind f with
  | FaultCrash => Start (f_Target f) c
  | FaultLeaderIsolation | FaultMinorityPartition | FaultMajorityPartition => set_cfg clearPartition c
  | FaultAsymmetricPartition => set_cfg (clearEdgeDrop (f_Target f) (f_Peer f)) c
  | FaultPacketLoss => set_cfg (setLoss 0) c
  | FaultDuplication => set_cfg (setDup 0) c
  | FaultReordering => set_cfg (setReorder 0 0) c
  | FaultDelay => set_cfg (setDelay 0) c
  | FaultClockSkew => set_cfg (clearSkew (f_Target f)) c
  | FaultFsError => set_cfg (setFsync (f_Target f) false) c
  end.

(** ** Oracles together

    An oracle looks at the started nodes (the election oracle twice at each), at
    the history and, polling with a clock, at the values the nodes serve; [None]
    when the polls end before the oracle has decided. *)
Record Oracle : Type := mkOracle {
  Name : string;
  Check_ : list (string * seen_twice) → history → Z → list ((string → res string) * Z) → option (list oracle_error)
}.

Definition electionSafetyOracle : Oracle := mkOracle "election-safety" (λ l _ _ _, Some (electionSafetyOracle_Check l)).
Definition logMatchingOracle : Oracle := mkOracle "log-matching" (λ l _ _ _, Some (logMatchingOracle_Check (first_seen l))).
Definition stateMachineSafetyOracle : Oracle :=
  mkOracle "state-machine-safety" (λ l _ _ _, Some (stateMachineSafetyOracle_Check (first_seen l))).
Definition durabilityOracle : Oracle := mkOracle "durability" (λ l h start polls, durabilityOracle_Check start h l.*1 polls).
Definition linearizabilityOracle : Oracle := mkOracle "linearizability" (λ _ h _ _, Some (linearizabilityOracle_Check h)).

Definition defaultOracles : list Oracle :=
  [electionSafetyOracle; logMatchingOracle; stateMachineSafetyOracle; durabilityOracle; linearizabilityOracle].

(** [later] is each node as the calls of [Term] see it. *)
Definition AssertInvariants (order : list string) (later : string → Node) (start : Z)
    (polls : list ((string → res string) * Z)) (c : Cluster) : option (list oracle_error) :=
  let nodes := (λ p : string * Node, (p.1, (p.2, later p.1))) <$> startedNodes order c in
  (λ errs, concat errs) <$> mapM (λ o, Check_ o nodes (hist c) start polls) defaultOracles.
End cluster.
Arguments Cluster : clear implicits.

(** ** The schedule

    [Run] works through the events in the order of their times, as its readings
    of the clock pass them, and in the end clears what is still applied. *)

Record ev : Type := mkEv { ev_at : Z; ev_f : Fault; ev_apply : bool }.

Definition events (faults : list Fault) : list ev :=
  f ← faults; [mkEv (f_At f) f true; mkEv (f_At f + f_For f) f false].

(** [sort.Slice(events, ...)]. *)
Definition ev_le (a b : ev) : Prop := ev_at a <= ev_at b.

Global Instance ev_le_dec a b : Decision (ev_le a b).
Proof. unfold ev_le. apply _. Defined.

Definition sorted_events (faults : list Fault) : list ev := go_sort ev_le (events faults).

(** What the loop does: applications ([true]) and clearings, in order. *)
Abbreviation act := (bool * Fault)%type.

(** The inner loop: the events due at [elapsed]; the map [applied] as a list. *)
Fixpoint due (elapsed : Z) (evs : list ev) (applied : list Fault) : list act * list ev * list Fault :=
  match evs with
  | e :: evs' =>
      if ev_at e <=? elapsed then
        let applied := if ev_apply e then if decide (ev_f e ∈ applied) then applied else ev_f e :: applied
                       else filter (λ f, f ≠ ev_f e) applied in
        let '(acts, rest, applied) := due elapsed evs' applied in
        ((ev_apply e, ev_f e) :: acts, rest, applied)
      else ([], evs, applied)
  | [] => ([], [], applied)
  end.

(** The outer loop over the clock readings, then the final clearing. *)
Fixpoint run_loop (total : Z) (clock : list Z) (evs : list ev) (applied : list Fault) : list act :=
  match clock with
  | elapsed :: clock =>
      if total <=? elapsed then (pair false) <$> applied
      else let '(acts, evs, applied) := due elapsed evs applied in acts ++ run_loop total clock evs applied
  | [] => (pair false) <$> applied
  end.

Definition Run_acts (faults : list Fault) (total : Z) (clock : list Z) : list act :=
  run_loop total clock (sorted_events faults) [].

(** The cluster after the schedule; each application sees the nodes in some order. *)
Definition do_act {R} `{!Rand R} (order : list string) (a : act) (c : Cluster R) : Cluster R :=
  if a.1 then applyFault order a.2 c else clearFault a.2 c.

(** ** The workload

    One tick of [RunWorkload] with what its calls returned: whether there was a
    leader, the result of the write, whether a majority showed it, the node read
    and its answer, and the five clock readings. *)
Record tick : Type := mkTick {
  k_leader : bool;
  k_put : res unit;
  k_acked : bool;
  k_read : option (string * res string);
  k_start : Z; k_end : Z; k_rs : Z; k_rend : Z
}.

Definition read_value (r : res string) : string := match r with Ok v => v | Err _ => ""%string end.

Definition RunWorkload_tick (k : tick) (sh : Z * history) : Z * history :=
  let '(seq, h) := sh in
  if negb (k_leader k) then (seq, h)
  else
    let seq := u64 (seq + 1) in
    match k_put k with
    | Err _ => (seq, h)
    | Ok _ =>
        let h := history_add (mkHistOp KWrite seq "k" (seq_value seq) (k_start k) (k_end k) (k_acked k) "") h in
        match k_read k with
        | None => (seq, h)
        | Some (id, r) =>
            let v := read_value r in
            (seq, history_add (mkHistOp KRead (readSeq v) "k" v (k_rs k) (k_rend k) (is_ok r) id) h)
        end
    end.

Definition RunWorkload (ks : list tick) : history := (foldl (λ sh k, RunWorkload_tick k sh) (0, newHistory) ks).2.

(** ** Starting and drawing nodes *)

Section nodes.
Context {R} `{!Rand R}.

Lemma Start_on id j (c : Cluster R) :
  on (started (Start id c)) j = on (started c) j || bool_decide (j = id) ∧ ids (Start id c) = ids c.
Proof.
  unfold Start. destruct (on (started c) id) eqn:E; cbn; (split; [|done]).
  - case_bool_decide; [by subst; rewrite E|by rewrite orb_false_r].
  - unfold on. case_bool_decide as Hj; [subst; by rewrite lookup_insert_eq, orb_true_r|].
    by rewrite lookup_insert_ne, orb_false_r by congruence.
Qed.

Lemma Start_node id j (c : Cluster R) :
  (∀ k, on (started c) k = true → is_Some (nodes c !! k)) → on (started (Start id c)) j = true → is_Some (nodes (Start id c) !! j).
Proof.
  intros Hc. unfold Start. destruct (on (started c) id); [apply Hc|]. unfold on. cbn.
  destruct (decide (j = id)) as [->|Hj]; [by rewrite !lookup_insert_eq|]. rewrite !lookup_insert_ne by congruence. apply Hc.
Qed.

Lemma foldl_Start l (c : Cluster R) :
  (∀ k, on (started c) k = true → is_Some (nodes c !! k)) →
  let c' := foldl (λ c id, Start id c) c l in
  (∀ k, on (started c') k = true ↔ on (started c) k = true ∨ k ∈ l) ∧
  (∀ k, on (started c') k = true → is_Some (nodes c' !! k)).
Proof.
  revert c. induction l as [|id l IH]; intros c Hc; cbn [foldl].
  { split; [|done]. intros k. split; [by left|]. intros [?|Hk]; [done|by apply elem_of_nil in Hk]. }
  destruct (IH (Start id c)) as [H1 H2]; [intros k; by apply Start_node|]. split; [|done].
  intros k. rewrite H1, elem_of_cons. destruct (Start_on id k c) as [-> _].
  rewrite orb_true_iff, bool_decide_eq_true. tauto.
Qed.

Definition drawable (order : list string) (c : Cluster R) : list string :=
  filter (λ id, on (started c) id = true ∧ is_Some (nodes c !! id)) order.

(** Which nodes the workload reads: after StartAll on a new cluster exactly its
    nodes are started; the node that is drawn does not depend on the order in
    which the map of nodes is visited, it is a started one, and every started
    node is drawn for some number below their count. *)
Theorem random_node_drawn n (r : R) order order' :
  let c := StartAll (NewCluster n r) in
  order ≡ₚ ids c → order' ≡ₚ ids c →
  (∀ id, on (started c) id = true ↔ id ∈ ids c) ∧
  (∀ k, randomStartedNode order k c = randomStartedNode order' k c) ∧
  (∀ k, (k < length (ids c))%nat → ∃ id node, randomStartedNode order k c = (id, Some node) ∧ id ∈ ids c ∧ nodes c !! id = Some node) ∧
  (∀ id, id ∈ ids c → ∃ k, (k < length (ids c))%nat ∧ (randomStartedNode order k c).1 = id).
Proof.
  intros c Ho Ho'. destruct (foldl_Start (ids (NewCluster n r)) (NewCluster n r)) as [H1 H2]; [by intros k; unfold on; cbn; rewrite lookup_empty|].
  change (foldl _ (NewCluster n r) _) with c in *.
  assert (Hids : ids c = ids (NewCluster n r)).
  { unfold c, StartAll. generalize (ids (NewCluster n r)) at 1. intros l. generalize (NewCluster n r).
    induction l as [|id l IH]; intros c0; [done|]. cbn [foldl]. rewrite IH. apply Start_on; done. }
  assert (Hst : ∀ id, on (started c) id = true ↔ id ∈ ids c).
  { intros id. rewrite H1, Hids. unfold on at 1. cbn. rewrite lookup_empty. naive_solver. }
  assert (Hall : ∀ o, o ≡ₚ ids c → go_sort String.le (drawable o c) ≡ₚ ids c).
  { intros o Hp. rewrite go_sort_Permutation. unfold drawable. rewrite Hp, filter_id; [done|].
    intros id Hid%Hst. split; [done|by apply H2]. }
  assert (Hdraw : ∀ o k, o ≡ₚ ids c → randomStartedNode o k c =
    match go_sort String.le (drawable o c) !! k with None => (""%string, None) | Some id => (id, nodes c !! id) end) by done.
  assert (Hsame : go_sort String.le (drawable order c) = go_sort String.le (drawable order' c)).
  { apply go_sort_unique; try apply _; [apply go_sort_sorted; apply _|]. rewrite go_sort_Permutation. unfold drawable. by rewrite Ho, Ho'. }
  split_and!; [done|..].
  - intros k. by rewrite !Hdraw, Hsame.
  - intros k Hk. rewrite Hdraw by done. pose proof (Hall order Ho) as Hp. rewrite <- Hp in Hk.
    destruct (lookup_lt_is_Some_2 _ _ Hk) as [id Hid]. rewrite Hid. apply list_elem_of_lookup_2 in Hid. rewrite Hp in Hid.
    destruct (H2 id) as [node Hn]; [by apply Hst|]. exists id, node. by rewrite Hn.
  - intros id Hid. pose proof (Hall order Ho) as Hp. rewrite <- Hp in Hid. apply list_elem_of_lookup in Hid as [k Hk].
    exists k. rewrite Hdraw, Hk by done. split; [|done]. rewrite <- Hp. by eapply lookup_lt_Some.
Qed.
End nodes.

(** ** Every fault that is applied is cleared *)

(** After each application in [acts] comes a clearing, in [acts] or for a fault
    that is still applied. *)
Definition cleared_later (acts : list act) (applied : list Fault) : Prop :=
  ∀ i f, acts !! i = Some (true, f) → (∃ j, (i < j)%nat ∧ acts !! j = Some (false, f)) ∨ f ∈ applied.

Lemma due_cleared elapsed evs applied acts rest applied' :
  due elapsed evs applied = (acts, rest, applied') →
  cleared_later acts applied' ∧
  ∀ f, f ∈ applied → (∃ j, acts !! j = Some (false, f)) ∨ f ∈ applied'.
Proof.
  revert applied acts. induction evs as [|e evs IH]; intros applied acts; cbn [due].
  { intros [= <- <- <-]. split; [intros i f; by rewrite lookup_nil|by right]. }
  destruct (ev_at e <=? elapsed).
  - set (ap := if ev_apply e then _ else _). destruct (due elapsed evs ap) as [[acts1 rest1] ap1] eqn:E.
    intros [= <- -> ->]. destruct (IH ap acts1 E) as [Hc Hkeep]. split.
    + intros [|i] f; simpl.
      * intros [= Ha <-]. assert (Hap : ev_f e ∈ ap) by (unfold ap; rewrite Ha; case_decide; [done|by left]).
        destruct (Hkeep (ev_f e) Hap) as [[j Hj]|]; [left; exists (S j); split; [lia|done]|by right].
      * intros Hi. destruct (Hc i f Hi) as [(j & Hj & Hf)|]; [left; exists (S j); split; [lia|done]|by right].
    + intros f Hf. destruct (decide (f = ev_f e ∧ ev_apply e = false)) as [[ -> Ha]|Hne].
      * left. exists 0%nat. simpl. by rewrite Ha.
      * assert (Hap : f ∈ ap).
        { unfold ap. destruct (ev_apply e); [case_decide; [done|by right]|]. apply list_elem_of_filter. naive_solver. }
        destruct (Hkeep f Hap) as [[j Hj]|]; [left; by exists (S j)|by right].
  - intros [= <- <- <-]. split; [intros i f; by rewrite lookup_nil|by right].
Qed.

Lemma lookup_clear_all (applied : list Fault) f : f ∈ applied → ∃ j, (pair false <$> applied) !! j = Some (false, f).
Proof. intros Hf. apply list_elem_of_lookup in Hf as [j Hj]. exists j. by rewrite list_lookup_fmap, Hj. Qed.

Lemma run_loop_cleared total clock evs applied :
  cleared_later (run_loop total clock evs applied) [] ∧
  ∀ f, f ∈ applied → ∃ j, run_loop total clock evs applied !! j = Some (false, f).
Proof.
  assert (Hend : ∀ applied, cleared_later (pair false <$> applied) [] ∧
    ∀ f, f ∈ applied → ∃ j, (pair false <$> applied) !! j = Some (false, f)).
  { intros ap. split; [|intros; by apply lookup_clear_all]. intros i f Hi. rewrite list_lookup_fmap in Hi.
    destruct (ap !! i); by simplify_eq/=. }
  revert evs applied. induction clock as [|t clock IH]; intros evs applied; cbn [run_loop]; [apply Hend|].
  destruct (total <=? t); [apply Hend|]. destruct (due t evs applied) as [[acts evs'] ap] eqn:E.
  destruct (due_cleared _ _ _ _ _ _ E) as [Hc Hkeep]. destruct (IH evs' ap) as [Hrest Hap]. split.
  - intros i f Hi. left. destruct (decide (i < length acts)%nat) as [Hlt|Hge].
    + rewrite lookup_app_l in Hi by done. destruct (Hc i f Hi) as [(j & Hj & Hf)|Hf].
      * exists j. split; [done|]. rewrite lookup_app_l; [done|by eapply lookup_lt_Some].
      * destruct (Hap f Hf) as [j Hj]. exists (length acts + j)%nat. split; [lia|].
        rewrite lookup_app_r by lia. by replace (length acts + j - length acts)%nat with j by lia.
    + rewrite lookup_app_r in Hi by lia. destruct (Hrest _ f Hi) as [(j & Hj & Hf)|Hf]; [|by apply elem_of_nil in Hf].
      exists (length acts + j)%nat. split; [lia|]. rewrite lookup_app_r by lia.
      by replace (length acts + j - length acts)%nat with j by lia.
  - intros f Hf. destruct (Hkeep f Hf) as [[j Hj]|Hf'].
    + exists j. rewrite lookup_app_l; [done|by eapply lookup_lt_Some].
    + destruct (Hap f Hf') as [j Hj]. exists (length acts + j)%nat. rewrite lookup_app_r by lia.
      by replace (length acts + j - length acts)%nat with j by lia.
Qed.

(** ** What clearing restores *)

(** The fault schedule: whatever faults are scheduled and whenever the clock is
    read, every application of a fault is followed by a clearing of it.  On a
    cluster without faults, applying and clearing a message, clock, partition or
    disk fault gives the fault-free configuration back, reordering excepted:
    a reordering fault with a jitter leaves the jitter behind as the maximal
    delay of every later message. *)
Theorem faults_are_cleared {R} `{!Rand R} faults total clock order n (r : R) f :
  let c := NewCluster n r in
  let c' := clearFault f (applyFault order f c) in
  (∀ i g, Run_acts faults total clock !! i = Some (true, g) →
     ∃ j, (i < j)%nat ∧ Run_acts faults total clock !! j = Some (false, g)) ∧
  (f_Kind f ≠ FaultCrash → f_Kind f ≠ FaultReordering → c' = c) ∧
  (f_Kind f = FaultReordering → 0 < f_Delay f →
     delayMin (cfg c') = 0 ∧ delayMax (cfg c') = f_Delay f ∧ reorder (cfg c') = 0%Q).
Proof.
  intros c c'. split_and!.
  - intros i g Hi. destruct (run_loop_cleared total clock (sorted_events faults) []) as [Hc _].
    destruct (Hc i g Hi) as [?|Hin]; [done|by apply elem_of_nil in Hin].
  - intros Hk1 Hk2. unfold c', clearFault, applyFault, c. destruct (f_Kind f); try done.
    + by destruct (decide _).
    + unfold set_cfg, clearEdgeDrop, setEdgeDrop, NewCluster, newFaultConfig, set_edges. simpl. by rewrite delete_insert_id.
    + unfold set_cfg, clearSkew, setSkew, NewCluster, newFaultConfig, set_skews. simpl. by rewrite delete_insert_id.
    + unfold set_cfg, setFsync, NewCluster, newFaultConfig. simpl. by rewrite delete_insert_id.
  - intros Hk Hd. unfold c', clearFault, applyFault. rewrite Hk. simpl. by rewrite (proj2 (Z.ltb_lt _ _) Hd).
Qed.

(** ** The recorded history *)

Lemma scan_digits_nonneg acc s : 0 <= acc → 0 <= scan_digits acc s.
Proof.
  revert acc. induction s as [|b s IH]; intros acc Ha; [done|]. cbn [scan_digits]. unfold is_digit.
  destruct (Z.leb_spec 48 (Z_of_byte b)); simpl; [|done]. case_match; [apply IH; lia|done].
Qed.

Lemma readSeq_nonneg v : 0 <= readSeq v.
Proof. unfold readSeq. repeat case_match; try done. apply scan_digits_nonneg. done. Qed.

Lemma recorded_nil : recorded [].
Proof. split; [constructor|constructor|intros ? H; by apply elem_of_nil in H..|intros i j a b _ H; by rewrite lookup_nil in H]. Qed.

Lemma recorded_snoc ops o :
  recorded ops → 0 <= op_Seq o →
  (op_Kind o = Write → (∀ w, w ∈ ops → op_Kind w = Write → op_Seq w ≠ op_Seq o) ∧ 0 < op_Start o) →
  (op_Kind o = Read → 0 < op_Start o < op_End o ∧ ∀ p, p ∈ ops → op_Kind p = Read → op_End p <= op_Start o) →
  recorded (ops ++ [o]).
Proof.
  intros [Hv Hn Hw Hr Hs] Hpos Hwr Hrd.
  assert (Hin : ∀ x, x ∈ ops ++ [o] → x ∈ ops ∨ x = o).
  { intros x Hx. apply elem_of_app in Hx as [?|Hx]; [by left|]. apply list_elem_of_singleton in Hx. by right. }
  split.
  - apply Forall_app. split; [done|by constructor].
  - rewrite filter_app, fmap_app. apply NoDup_app. split_and!; [done| |].
    + intros q Hq. apply list_elem_of_fmap in Hq as (w & -> & Hw'). apply list_elem_of_filter in Hw' as [Hk Hw'].
      destruct (decide (op_Kind o = Write)) as [Ho|Ho].
      * rewrite filter_cons_True by done. simpl. rewrite list_elem_of_singleton. by apply (proj1 (Hwr Ho)).
      * rewrite filter_cons_False by done. apply not_elem_of_nil.
    + rewrite filter_cons. case_decide; simpl; [apply NoDup_singleton|apply NoDup_nil_2].
  - intros w Hx Hk. destruct (Hin w Hx) as [?| ->]; [by apply Hw|by apply Hwr].
  - intros x Hx Hk. destruct (Hin x Hx) as [?| ->]; [by apply Hr|by apply Hrd].
  - intros i j a b Hij Ha Hb Hka Hkb Hab.
    assert (Hj : (j < length (ops ++ [o]))%nat) by by eapply lookup_lt_Some. rewrite length_app in Hj. simpl in Hj.
    rewrite lookup_app_l in Ha by lia. destruct (decide (j < length ops)%nat) as [Hlt|Hge].
    + rewrite lookup_app_l in Hb by done. by apply (Hs i j).
    + rewrite lookup_app_r in Hb by lia. replace (j - length ops)%nat with 0%nat in Hb by lia. simplify_eq/=.
      apply (proj2 (Hrd Hkb)); [by eapply list_elem_of_lookup_2|done].
Qed.

(** The clock of the workload moves on between its readings. *)
Fixpoint timed (t : Z) (ks : list tick) : Prop :=
  match ks with
  | [] => True
  | k :: ks => t <= k_start k <= k_end k ∧ k_end k <= k_rs k < k_rend k ∧ timed (k_rend k) ks
  end.

Definition ops_of (h : history) : list Op := omap linearizability_op h.

(** What a run of the workload maintains of the history at time [t]. *)
Record workload_ok (t seq : Z) (h : history) : Prop := {
  wk_rec : recorded (ops_of h);
  wk_write : ∀ o, o ∈ ops_of h → op_Kind o = Write → op_Seq o <= seq;
  wk_read : ∀ o, o ∈ ops_of h → op_Kind o = Read → op_End o <= t
}.

Lemma workload_ok_mono t t' seq seq' h : t <= t' → seq <= seq' → workload_ok t seq h → workload_ok t' seq' h.
Proof.
  intros Ht Hs [H1 H2 H3]. split; [done|intros o Ho Hk; specialize (H2 o Ho Hk); lia|
    intros o Ho Hk; specialize (H3 o Ho Hk); lia].
Qed.

Lemma workload_ok_add t t' seq seq' h o :
  workload_ok t seq h → t <= t' → seq <= seq' →
  (∀ x, linearizability_op o = Some x → 0 <= op_Seq x ∧
     (op_Kind x = Write → seq < op_Seq x <= seq' ∧ 0 < op_Start x) ∧
     (op_Kind x = Read → 0 < op_Start x < op_End x ∧ t <= op_Start x ∧ op_End x <= t')) →
  workload_ok t' seq' (history_add o h).
Proof.
  intros Hok Ht Hs Ho. unfold history_add. destruct (linearizability_op o) as [x|] eqn:E.
  - destruct (Ho x eq_refl) as (Hpos & Hw & Hr). assert (Hops : ops_of (h ++ [o]) = ops_of h ++ [x]).
    { unfold ops_of. rewrite omap_app. simpl. by rewrite E. }
    split; rewrite Hops.
    + apply recorded_snoc; [apply Hok|done|..].
      * intros Hk. destruct (Hw Hk) as [Hseq Hst]. split; [|done]. intros w Hin Hkw. pose proof (wk_write _ _ _ Hok w Hin Hkw). lia.
      * intros Hk. destruct (Hr Hk) as (? & ? & ?). split; [done|]. intros p Hp Hkp. pose proof (wk_read _ _ _ Hok p Hp Hkp). lia.
    + intros y Hy Hk. apply elem_of_app in Hy as [Hy|Hy]; [pose proof (wk_write _ _ _ Hok y Hy Hk); lia|].
      apply list_elem_of_singleton in Hy as ->. destruct (Hw Hk). lia.
    + intros y Hy Hk. apply elem_of_app in Hy as [Hy|Hy]; [pose proof (wk_read _ _ _ Hok y Hy Hk); lia|].
      apply list_elem_of_singleton in Hy as ->. destruct (Hr Hk). lia.
  - assert (Hops : ops_of (h ++ [o]) = ops_of h).
    { unfold ops_of. rewrite omap_app. simpl. rewrite E. by rewrite app_nil_r. }
    destruct (workload_ok_mono t t' seq seq' h Ht Hs Hok). split; by rewrite Hops.
Qed.

Lemma RunWorkload_tick_ok k t seq h :
  workload_ok t seq h → 0 < t → 0 <= seq → seq + 1 < 2 ^ 64 →
  t <= k_start k <= k_end k → k_end k <= k_rs k < k_rend k →
  let '(seq', h') := RunWorkload_tick k (seq, h) in
  seq <= seq' <= seq + 1 ∧ workload_ok (k_rend k) seq' h'.
Proof.
  intros Hok Ht Hs Hlt Hst Hrs. unfold RunWorkload_tick.
  destruct (negb (k_leader k)); [split; [lia|]; eapply workload_ok_mono; [..|exact Hok]; lia|].
  assert (Hu : u64 (seq + 1) = seq + 1) by (unfold u64; apply Z.mod_small; lia). rewrite Hu.
  destruct (k_put k) as [[]|e]; [|split; [lia|]; eapply workload_ok_mono; [..|exact Hok]; lia].
  set (w := mkHistOp KWrite _ _ _ _ _ _ _).
  assert (Hw : workload_ok (k_rs k) (seq + 1) (history_add w h)).
  { eapply workload_ok_add; [exact Hok|lia|lia|]. intros x [= <-]. simpl. split_and!; try done; try lia; intros; lia. }
  destruct (k_read k) as [[id r]|]; [|split; [lia|]; eapply workload_ok_mono; [..|exact Hw]; lia].
  split; [lia|]. eapply workload_ok_add; [exact Hw|lia|lia|]. intros x. unfold linearizability_op. simpl. case_decide; [done|].
  intros [= <-]. simpl. split_and!; [apply readSeq_nonneg|done|]. intros _. lia.
Qed.

(** The workload records what the checker needs: with a clock that moves on
    between its readings and fewer than 2^64 ticks, the history the workload
    records has unique versions and readers that read one after the other, so
    the linearizability oracle passes exactly when the history is explained by
    registers that only move forward. *)
Theorem workload_history_recorded ks t :
  0 < t → timed t ks → zlen ks < 2 ^ 64 →
  recorded (ops_of (RunWorkload ks)) ∧
  (linearizabilityOracle_Check (RunWorkload ks) = [] ↔ ∃ val, explains val (ops_of (RunWorkload ks))).
Proof.
  intros Ht Htimed Hlen.
  assert (Hgen : ∀ ks t seq h, timed t ks → 0 < t → 0 <= seq → seq + zlen ks < 2 ^ 64 → workload_ok t seq h →
    recorded (ops_of (foldl (λ sh k, RunWorkload_tick k sh) (seq, h) ks).2)).
  { clear. induction ks as [|k ks IH]; intros t seq h Htm Ht Hs Hl Hok; [apply Hok|].
    destruct Htm as (H1 & H2 & H3). rewrite zlen_cons in Hl. pose proof (zlen_nonneg ks). cbn [foldl].
    pose proof (RunWorkload_tick_ok k t seq h Hok Ht Hs ltac:(lia) H1 H2) as Hk.
    destruct (RunWorkload_tick k (seq, h)) as [seq' h']. destruct Hk as [Hsq Hok'].
    apply (IH (k_rend k)); [done|lia..|done]. }
  assert (Hrec : recorded (ops_of (RunWorkload ks))).
  { apply (Hgen ks t 0 newHistory); [done..|lia|]. split; [apply recorded_nil|intros o Ho; by apply elem_of_nil in Ho..]. }
  split; [done|]. unfold linearizabilityOracle_Check. rewrite <- Check_iff_explains by done. unfold ops_of, history_snapshot.
  destruct (Check _); done.
Qed.

(** Two rounds, with a stale read of the first version in the second. *)
Definition two_ticks : list tick :=
  [mkTick true (Ok tt) true (Some ("a", Ok "v1")) 1 2 3 4;
   mkTick true (Ok tt) true (Some ("b", Ok "v1")) 5 6 7 8]%string.

Lemma workload_history_recorded_witness :
  timed 1 two_ticks ∧ recorded (ops_of (RunWorkload two_ticks)) ∧
  ops_of (RunWorkload two_ticks) ≠ [] ∧ linearizabilityOracle_Check (RunWorkload two_ticks) = [].
Proof.
  assert (Ht : timed 1 two_ticks) by (simpl; lia). split; [done|].
  destruct (workload_history_recorded two_ticks 1 ltac:(lia) Ht ltac:(reflexivity)) as [Hr _].
  split; [exact Hr|]. split; [vm_compute; discriminate|reflexivity].
Defined.
