(* ===== verification/ServerMain.v ===== *)
(** * ServerMain: the server process, cmd/server

    main.go and snapshot_bridge.go: the environment and the encryption key, the
    wiring of the durable store, the raft node and the raft state file, the
    health probes and the raft routes in front of the API, the bridge that
    takes and restores snapshots, and a tick of the compactor.  What a restart
    does to the state machine is proved here, since it is the wiring that
    decides which entries are executed again. *)

From S2P Require Import Prelude GoLib Engine MemStore Json Disk Crypto Wal Snapshot DiskStore DiskEngine.
From S2P Require Import RaftNode RaftLeader RaftApply RaftLog RaftApplied RaftStore Api Transport.

(** ** The environment *)

(** [os.Getenv]: an unset variable reads as the empty string. *)
Definition Env : Type := string → string.

Definition envOr (env : Env) (key fallback : string) : string :=
  if decide (env key = ""%string) then fallback else env key.

(** *** strings.TrimSpace

    The white space of [unicode.IsSpace], as the bytes of its UTF-8 form: one
    byte, two or three. *)
Definition space1 (a : ascii) : bool := between 9 13 a || between 32 32 a.
Definition space2 (a b : ascii) : bool := between 0xC2 0xC2 a && (between 0x85 0x85 b || between 0xA0 0xA0 b).
Definition space3 (a b c : ascii) : bool :=
  between 0xE1 0xE1 a && between 0x9A 0x9A b && between 0x80 0x80 c ||
  between 0xE2 0xE2 a && between 0x80 0x80 b && (between 0x80 0x8A c || between 0xA8 0xA9 c || between 0xAF 0xAF c) ||
  between 0xE2 0xE2 a && between 0x81 0x81 b && between 0x9F 0x9F c ||
  between 0xE3 0xE3 a && between 0x80 0x80 b && between 0x80 0x80 c.

Fixpoint trim_left (s : bytes) : bytes :=
  match s with
  | [] => []
  | a :: s1 =>
      if space1 a then trim_left s1
      else
        match s1 with
        | [] => s
        | b :: s2 =>
            if space2 a b then trim_left s2
            else match s2 with [] => s | c :: s3 => if space3 a b c then trim_left s3 else s end
        end
  end.

(** The same from the end, on the reversed bytes. *)
Fixpoint trim_rev (s : bytes) : bytes :=
  match s with
  | [] => []
  | a :: s1 =>
      if space1 a then trim_rev s1
      else
        match s1 with
        | [] => s
        | b :: s2 =>
            if space2 b a then trim_rev s2
            else match s2 with [] => s | c :: s3 => if space3 c b a then trim_rev s3 else s end
        end
  end.

Definition TrimSpace (s : bytes) : bytes := rev (trim_rev (rev (trim_left s))).

(** *** encoding/hex *)

Fixpoint hex_DecodeString (s : bytes) : option bytes :=
  match s with
  | [] => Some []
  | [_] => None
  | a :: b :: s =>
      match unhex a, unhex b, hex_DecodeString s with
      | Some x, Some y, Some l => Some (byte_of_Z (x * 16 + y) :: l)
      | _, _, _ => None
      end
  end.

Definition hex_EncodeToString (l : bytes) : bytes :=
  concat ((λ b, [hex (Z_of_byte b / 16); hex (Z_of_byte b mod 16)]) <$> l).

(** *** The key *)

Definition err_key_size : go_error := ErrMsg "encryption key must be 32 bytes (64 hex chars or raw)".

Definition decodeEncryptionKey (s : bytes) : res bytes :=
  match hex_DecodeString s with
  | Some b => if zlen b =? AtRestKeySize then Ok b
              else if zlen s =? AtRestKeySize then Ok s else Err err_key_size
  | None => if zlen s =? AtRestKeySize then Ok s else Err err_key_size
  end.

(** [resolveEncryptionKey]: [None] is the nil key. *)
Definition resolveEncryptionKey (env : Env) : IO (option bytes) :=
  if decide (env "KEY_FILE"%string ≠ ""%string) then
    data <- read_file (env "KEY_FILE"%string) ;;
    match data with
    | None => throw (ErrMsg "read KEY_FILE")
    | Some data => key <- lift (decodeEncryptionKey (TrimSpace data)) ;; ret (Some key)
    end
  else if decide (env "ENCRYPTION_KEY"%string ≠ ""%string) then
    key <- lift (decodeEncryptionKey (TrimSpace (bytes_of_string (env "ENCRYPTION_KEY"%string)))) ;; ret (Some key)
  else ret None.

(** *** What the key functions do *)

Lemma unhex_hex d : 0 <= d < 16 → unhex (hex d) = Some d.
Proof.
  intros Hd. assert (Hc : d ∈ [0;1;2;3;4;5;6;7;8;9;10;11;12;13;14;15]).
  { repeat rewrite elem_of_cons. lia. }
  repeat (apply elem_of_cons in Hc as [ ->|Hc]; [reflexivity|]). by apply elem_of_nil in Hc.
Qed.

Lemma hex_space d : 0 <= d < 16 → space1 (hex d) = false ∧ Z_of_byte (hex d) < 128.
Proof.
  intros Hd. assert (Hc : d ∈ [0;1;2;3;4;5;6;7;8;9;10;11;12;13;14;15]).
  { repeat rewrite elem_of_cons. lia. }
  repeat (apply elem_of_cons in Hc as [ ->|Hc]; [by split|]). by apply elem_of_nil in Hc.
Qed.

Lemma hex_roundtrip l : hex_DecodeString (hex_EncodeToString l) = Some l.
Proof.
  induction l as [|b l IH]; [done|]. pose proof (Z_of_byte_range b) as Hb.
  change (hex_EncodeToString (b :: l)) with (hex (Z_of_byte b / 16) :: hex (Z_of_byte b mod 16) :: hex_EncodeToString l).
  cbn [hex_DecodeString]. rewrite !unhex_hex by (split; [apply Z.div_pos || apply Z.mod_pos_bound|apply Z.div_lt_upper_bound || apply Z.mod_pos_bound]; lia).
  rewrite IH. do 2 f_equal. rewrite <- (byte_of_Z_of_byte b) at 3. f_equal. pose proof (Z.div_mod (Z_of_byte b) 16). lia.
Qed.

(** Two bytes at a time. *)
Lemma pairs_ind (P : bytes → Prop) :
  P [] → (∀ a, P [a]) → (∀ a b s, P s → P (a :: b :: s)) → ∀ s, P s.
Proof.
  intros H0 H1 H2 s. assert (P s ∧ ∀ a, P (a :: s)) as [? _]; [|done].
  induction s as [|b s [IH1 IH2]]; [by split|]. split; [done|]. intros a. by apply H2.
Qed.

Lemma hex_length s l : hex_DecodeString s = Some l → zlen s = 2 * zlen l.
Proof.
  revert l. induction s as [|a|a b s IH] using pairs_ind; intros l; [by intros [= <-]|done|].
  cbn [hex_DecodeString]. destruct (unhex a), (unhex b), (hex_DecodeString s) as [l'|]; try done.
  intros [= <-]. rewrite !zlen_cons, (IH l') by done. lia.
Qed.

(** Trimming does not lengthen, and keeps the length only if it keeps all. *)
Lemma trim_left_length s : trim_left s = s ∨ (length (trim_left s) < length s)%nat.
Proof.
  induction (well_founded_ltof bytes length s) as [s _ IH]. unfold ltof in IH.
  assert (Hrec : ∀ t, (length t < length s)%nat → (length (trim_left t) < length s)%nat).
  { intros t Ht. destruct (IH t Ht) as [ ->|]; lia. }
  destruct s as [|a s1]; [by left|]. cbn [trim_left]. simpl length in *.
  destruct (space1 a); [right; apply Hrec; lia|]. destruct s1 as [|b s2]; [by left|]. simpl length in *.
  destruct (space2 a b); [right; apply Hrec; lia|]. destruct s2 as [|c s3]; [by left|]. simpl length in *.
  destruct (space3 a b c); [right; apply Hrec; lia|by left].
Qed.

Lemma trim_rev_length s : trim_rev s = s ∨ (length (trim_rev s) < length s)%nat.
Proof.
  induction (well_founded_ltof bytes length s) as [s _ IH]. unfold ltof in IH.
  assert (Hrec : ∀ t, (length t < length s)%nat → (length (trim_rev t) < length s)%nat).
  { intros t Ht. destruct (IH t Ht) as [ ->|]; lia. }
  destruct s as [|a s1]; [by left|]. cbn [trim_rev]. simpl length in *.
  destruct (space1 a); [right; apply Hrec; lia|]. destruct s1 as [|b s2]; [by left|]. simpl length in *.
  destruct (space2 b a); [right; apply Hrec; lia|]. destruct s2 as [|c s3]; [by left|]. simpl length in *.
  destruct (space3 c b a); [right; apply Hrec; lia|by left].
Qed.

Lemma TrimSpace_length s : TrimSpace s = s ∨ (length (TrimSpace s) < length s)%nat.
Proof.
  unfold TrimSpace. rewrite length_rev. destruct (trim_left_length s) as [ ->|Hl].
  - destruct (trim_rev_length (rev s)) as [ ->|Hr]; [left; apply rev_involutive|]. rewrite length_rev in Hr. by right.
  - right. destruct (trim_rev_length (rev (trim_left s))) as [ ->|Hr]; rewrite length_rev in *; lia.
Qed.

(** Printable ASCII is not white space, and no part of a longer one. *)
Definition solid (b : ascii) : Prop := space1 b = false ∧ Z_of_byte b < 128.

Lemma solid_multi a b c : solid a → space2 a b = false ∧ space3 a b c = false.
Proof.
  intros [_ Ha]. unfold space2, space3, between.
  destruct (Z.leb_spec 0xC2 (Z_of_byte a)), (Z.leb_spec 0xE1 (Z_of_byte a)), (Z.leb_spec 0xE2 (Z_of_byte a)),
    (Z.leb_spec 0xE3 (Z_of_byte a)); (lia || done).
Qed.

Lemma solid_multi_rev a b c : solid a → space2 b a = false ∧ space3 c b a = false.
Proof.
  intros [_ Ha]. unfold space2, space3, between.
  destruct (Z.leb_spec 0x80 (Z_of_byte a)), (Z.leb_spec 0x85 (Z_of_byte a)), (Z.leb_spec 0xA0 (Z_of_byte a)),
    (Z.leb_spec 0x9F (Z_of_byte a)), (Z.leb_spec 0xA8 (Z_of_byte a)), (Z.leb_spec 0xAF (Z_of_byte a)); try (exfalso; lia).
  simpl. by rewrite !andb_false_r.
Qed.

Lemma trim_left_solid a s : solid a → trim_left (a :: s) = a :: s.
Proof.
  intros Ha. cbn [trim_left]. rewrite (proj1 Ha). destruct s as [|b s]; [done|]. rewrite (proj1 (solid_multi a b b Ha)).
  destruct s as [|c s]; [done|]. by rewrite (proj2 (solid_multi a b c Ha)).
Qed.

Lemma trim_rev_solid a s : solid a → trim_rev (a :: s) = a :: s.
Proof.
  intros Ha. cbn [trim_rev]. rewrite (proj1 Ha). destruct s as [|b s]; [done|]. rewrite (proj1 (solid_multi_rev a b b Ha)).
  destruct s as [|c s]; [done|]. by rewrite (proj2 (solid_multi_rev a b c Ha)).
Qed.

Lemma trim_left_blank ws s : forallb space1 ws = true → trim_left (ws ++ s) = trim_left s.
Proof. induction ws as [|a ws IH]; [done|]. simpl. intros [ -> H]%andb_prop. by apply IH. Qed.

Lemma trim_rev_blank ws s : forallb space1 ws = true → trim_rev (ws ++ s) = trim_rev s.
Proof. induction ws as [|a ws IH]; [done|]. simpl. intros [ -> H]%andb_prop. by apply IH. Qed.

Lemma forallb_rev {A} (f : A → bool) l : forallb f (rev l) = forallb f l.
Proof. induction l as [|x l IH]; [done|]. simpl. rewrite forallb_app, IH. simpl. by destruct (f x), (forallb f l). Qed.

(** White space around solid text is what [TrimSpace] takes away. *)
Lemma TrimSpace_solid ws1 s ws2 :
  forallb space1 ws1 = true → forallb space1 ws2 = true → s ≠ [] → Forall solid s →
  TrimSpace (ws1 ++ s ++ ws2) = s.
Proof.
  intros H1 H2 Hs Hsol. unfold TrimSpace. rewrite trim_left_blank by done.
  destruct s as [|a s]; [done|]. inversion_clear Hsol as [|? ? Ha Hrest].
  change ((a :: s) ++ ws2) with (a :: (s ++ ws2)). rewrite trim_left_solid by done.
  change (a :: s ++ ws2) with ((a :: s) ++ ws2). rewrite rev_app_distr, trim_rev_blank by by rewrite forallb_rev.
  assert (∃ b l, rev (a :: s) = b :: l ∧ solid b) as (b & l & E & Hb).
  { destruct (rev (a :: s)) as [|b l] eqn:E; [apply (f_equal length) in E; by rewrite length_rev in E|].
    exists b, l. split; [done|]. assert (Hin : b ∈ rev (a :: s)) by (rewrite E; by left).
    apply list_elem_of_In, in_rev, list_elem_of_In in Hin. apply elem_of_cons in Hin as [ ->|Hin]; [done|].
    by eapply Forall_forall in Hrest. }
  rewrite E, trim_rev_solid, <- E by done. apply rev_involutive.
Qed.

Lemma hex_encode_solid l : Forall solid (hex_EncodeToString l).
Proof.
  induction l as [|b l IH]; [constructor|]. pose proof (Z_of_byte_range b) as Hb.
  change (hex_EncodeToString (b :: l)) with (hex (Z_of_byte b / 16) :: hex (Z_of_byte b mod 16) :: hex_EncodeToString l).
  repeat constructor; try apply IH; apply hex_space.
  all: split; [apply Z.div_pos || apply Z.mod_pos_bound|apply Z.div_lt_upper_bound || apply Z.mod_pos_bound]; lia.
Qed.

(** Whatever is decoded has the size of a key. *)
Lemma decodeEncryptionKey_size s k : decodeEncryptionKey s = Ok k → zlen k = AtRestKeySize.
Proof.
  unfold decodeEncryptionKey. intros Hk. destruct (hex_DecodeString s) as [b|].
  - destruct (Z.eqb_spec (zlen b) AtRestKeySize); [by simplify_eq|]. destruct (Z.eqb_spec (zlen s) AtRestKeySize); by simplify_eq.
  - destruct (Z.eqb_spec (zlen s) AtRestKeySize); by simplify_eq.
Qed.

(** The encryption key: a key of 32 bytes written as hex, with white space
    around it, is read back; written raw it is read back exactly when it
    neither begins nor ends in white space, and is refused otherwise; and every
    key that is accepted makes a cipher. *)
Theorem encryption_key_accepted k :
  zlen k = AtRestKeySize →
  (∀ ws1 ws2, forallb space1 ws1 = true → forallb space1 ws2 = true →
     decodeEncryptionKey (TrimSpace (ws1 ++ hex_EncodeToString k ++ ws2)) = Ok k) ∧
  decodeEncryptionKey (TrimSpace k) = (if decide (TrimSpace k = k) then Ok k else Err err_key_size) ∧
  (∀ gcm s key, decodeEncryptionKey s = Ok key → newAtRestCipher gcm key = Ok (mkCipher (gcm key))).
Proof.
  intros Hk. unfold AtRestKeySize in Hk. split_and!.
  - intros ws1 ws2 H1 H2. rewrite TrimSpace_solid; [|done|done| |apply hex_encode_solid].
    + unfold decodeEncryptionKey. by rewrite hex_roundtrip, Hk.
    + pose proof (hex_length _ _ (hex_roundtrip k)) as Hl. intros E. rewrite E, zlen_nil in Hl. lia.
  - unfold decodeEncryptionKey. case_decide as E.
    + rewrite E. destruct (hex_DecodeString k) as [b|] eqn:Eb; [|by rewrite Hk].
      apply hex_length in Eb. destruct (Z.eqb_spec (zlen b) AtRestKeySize) as [Hb|]; [unfold AtRestKeySize in Hb; lia|]. by rewrite Hk.
    + destruct (TrimSpace_length k) as [|Hl]; [done|]. assert (zlen (TrimSpace k) < 32) by (unfold zlen in *; lia).
      rewrite (proj2 (Z.eqb_neq (zlen (TrimSpace k)) AtRestKeySize)) by (unfold AtRestKeySize; lia).
      destruct (hex_DecodeString (TrimSpace k)) as [b|] eqn:Eb; [|done]. apply hex_length in Eb.
      pose proof (zlen_nonneg b). by rewrite (proj2 (Z.eqb_neq (zlen b) AtRestKeySize)) by (unfold AtRestKeySize; lia).
  - intros gcm s key Hkey%decodeEncryptionKey_size. unfold newAtRestCipher. by rewrite Hkey.
Qed.

(** A raw key that ends in a newline byte. *)
Definition newline_key : bytes := replicate 31 "k"%char ++ ["010"%char].

Lemma encryption_key_accepted_witness :
  zlen newline_key = AtRestKeySize ∧ decodeEncryptionKey (TrimSpace newline_key) = Err err_key_size ∧
  decodeEncryptionKey (TrimSpace (hex_EncodeToString newline_key ++ ["010"%char])) = Ok newline_key.
Proof.
  assert (H : zlen newline_key = AtRestKeySize) by reflexivity. split; [exact H|].
  destruct (encryption_key_accepted newline_key H) as (H1 & H2 & _). split.
  - rewrite H2. reflexivity.
  - apply (H1 [] ["010"%char]); reflexivity.
Defined.

Section server.
Context (rnd : nat → option bytes).

(** ** snapshot_bridge.go *)

Record SnapshotData : Type := mkSnapshotData { sd_LastIncludedIndex : Z; sd_LastIncludedTerm : Z; sd_Data : bytes }.

(** [Snapshot]: its three calls lock one after the other, so each has a state
    of its own. *)
Definition Snapshot (n1 n2 : Node) (s : DiskStore) : SnapshotData :=
  let idx := ApplyIndex n1 in
  mkSnapshotData idx (LogTerm n2 idx) (SerializeSnapshot s).

Definition ApplySnapshot (data : bytes) (sw : DiskStore * World) : res unit * (DiskStore * World) :=
  match RestoreSnapshot rnd data sw.1 sw.2 with
  | (Ok (r, s), w) => (r, (s, w))
  | (Err e, w) => (Err e, (sw.1, w))
  end.

(** The request [installSnapshot] makes of a snapshot. *)
Definition install_request (term : Z) (leader : string) (sd : SnapshotData) : InstallSnapshotRequest :=
  mkInstallReq term leader (sd_LastIncludedIndex sd) (sd_LastIncludedTerm sd) (sd_Data sd).

Definition snapshotCompactThreshold : Z := 1000.

Definition compactor_threshold (threshold : Z) : Z :=
  if threshold <=? 0 then snapshotCompactThreshold else threshold.

(** A tick of the compactor up to [Compact]: the index and the term it is going
    to compact at, if it is due. *)
Definition compactor_due (threshold : Z) (n : Node) : option (Z * Z) :=
  if ApplyIndex n - SnapshotBase n <? threshold then None
  else let idx := ApplyIndex n in Some (idx, LogTerm n idx).

(** The rest of the tick, on the node as it is once [Compact] returned. *)
Definition compactor_trim (o : save_outcome) (compacted : res unit) (it : Z * Z) (n : Node) (d : RaftState) :
    Node * RaftState :=
  match compacted with
  | Err _ => (n, d)
  | Ok _ => let '(_, n, d) := Flush o (CompactLog it.1 it.2 n) d in (n, d)
  end.

(** The whole tick; [others] is what the other goroutines do to the node while
    the store is compacted. *)
Definition compactor_tick (threshold : Z) (o : save_outcome) (others : Node → Node) (s : DiskStore) (w : World)
    (n : Node) (d : RaftState) : Node * RaftState * World :=
  match compactor_due (compactor_threshold threshold) n with
  | None => (n, d, w)
  | Some it =>
      let (r, w) := Compact rnd s w in
      let (n, d) := compactor_trim o r it (others n) d in
      (n, d, w)
  end.
End server.

(** ** The health probes and the raft routes *)

Section handlers.
Context {W : Type}.

Definition http_handler : Type := Z → Request → W → option Response * W.

Definition text_plain (status : Z) (body : string) : Response :=
  mkResponse status "text/plain; charset=utf-8" "" (bytes_of_string body ++ newline).

(** A pattern [GET /name] also matches [HEAD]. *)
Definition get_route (name : string) (r : Request) : bool :=
  bool_decide (rq_Path r = [name]) && (String.eqb (rq_Method r) "GET" || String.eqb (rq_Method r) "HEAD").

(** [withHealth]; [node] reads [HasLeader] of the node, if there is one. *)
Definition withHealth (api : http_handler) (node : option (W → bool)) : http_handler := λ now r w,
  if get_route "healthz" r then (Some (text_plain 200 "ok"), w)
  else if get_route "readyz" r then
    if match node with Some hasLeader => negb (hasLeader w) | None => false end
    then (Some (text_plain 503 "no leader"), w)
    else (Some (text_plain 200 "ready"), w)
  else api now r w.

(** The routes main mounts in front of the API in cluster mode. *)
Definition raft_path (r : Request) : option string :=
  if String.eqb (rq_Method r) "POST" then
    match rq_Path r with
    | ["raft"; "vote"] => Some "/raft/vote"
    | ["raft"; "append"] => Some "/raft/append"
    | ["raft"; "snapshot"] => Some "/raft/snapshot"
    | _ => None
    end%string
  else None.

Definition raft_mux (h : RaftHandler W) (api : http_handler) : http_handler := λ now r w,
  match raft_path r with
  | None => api now r w
  | Some path =>
      let '((status, body), w) := ServeRaftHTTP h path (b_data (rq_Body r)) w in
      (Some (mkResponse status (if status =? 200 then "application/json" else "text/plain; charset=utf-8") "" body), w)
  end.

(** The handler main serves; [None]: standalone mode. *)
Definition main_handler (api : http_handler) (node : option (RaftHandler W * (W → bool))) : http_handler :=
  match node with
  | Some (h, hasLeader) => withHealth (raft_mux h api) (Some hasLeader)
  | None => withHealth api None
  end.
End handlers.
Arguments http_handler : clear implicits.

(** ** main *)

(** [strings.Split(s, ",")]. *)
Fixpoint split_commas (s : string) : list string :=
  match s with
  | EmptyString => [""%string]
  | String c s' =>
      match split_commas s' with
      | x :: l => if decide (c = ","%char) then ""%string :: x :: l else String c x :: l
      | [] => []
      end
  end.

(** What main has wired when it starts to listen. *)
Record App : Type := mkApp {
  a_store : DiskStore;
  a_node : option Node;
  a_raft : option RaftStore;
  a_port : string;
  a_tls : bool
}.

(** [SetRaftStore] of a store whose [Load] returned [r]: on an error only the
    store is kept, and main logs the error and goes on. *)
Definition SetRaftStore_load (r : res RaftState) (n : Node) : Node :=
  match r with
  | Ok st => SetRaftStore st n
  | Err _ => set_wiring true (n_hasSnapshotter n) (n_hasSink n) n
  end.

(** The raft state file, sealed when there is a key. *)
Definition raft_store (gcm : bytes → AEAD) (dataDir : string) (encKey : option bytes) : IO RaftStore :=
  let path := path_join dataDir "raft-state.json" in
  match encKey with
  | Some k => c <- lift (newAtRestCipher gcm k) ;; ret (SealedStore (NewEncryptedFileRaftStore path c))
  | None => ret (PlainStore (NewFileRaftStore path))
  end.

(** The certificate settings: whether TLS is on. *)
Definition tls_settings (env : Env) : res bool :=
  let certFile := env "TLS_CERT"%string in
  let keyFile := env "TLS_KEY"%string in
  if negb (Bool.eqb (String.eqb certFile "") (String.eqb keyFile "")) then
    Err (ErrMsg "TLS_CERT and TLS_KEY must be set together")
  else Ok (negb (String.eqb certFile "")).

(** [main] up to [ListenAndServe]; an error stands for an exit. *)
Definition main_start (gcm : bytes → AEAD) (clk : nat → Z) (env : Env) : IO App :=
  let port := envOr env "PORT" "8081" in
  let dataDir := envOr env "DATA_DIR" "./data" in
  encKey <- resolveEncryptionKey env ;;
  store <- match encKey with
           | Some k => OpenDiskStoreWithKey gcm clk dataDir k
           | None => OpenDiskStore clk dataDir
           end ;;
  '(node, rs) <-
    (if decide (env "PEERS"%string = ""%string) then ret (None, None)
     else
       let n := NewNode (envOr env "NODE_ID" (String.append "http://127.0.0.1:" port)) (split_commas (env "PEERS"%string)) in
       rs <- raft_store gcm dataDir encKey ;;
       loaded <- attempt (Load rs) ;;
       ret (Some (SetSnapshotSink (SetSnapshotter (SetRaftStore_load loaded n))), Some rs)) ;;
  tls <- lift (tls_settings env) ;;
  ret (mkApp store node rs port tls).

(** ** What a restart does *)

(** A snapshot that decodes replaces the data, even if saving it fails. *)
Lemma RestoreSnapshot_ok rnd bs s w d :
  decodeSnapshot bs = Ok d →
  ∃ r w', RestoreSnapshot rnd bs s w = (Ok (r, set_mem (set_data d (mem s)) s), w').
Proof.
  intros Hd. unfold RestoreSnapshot. rewrite Hd. cbn zeta. set (s' := set_mem _ s). unfold bind at 1, attempt.
  match goal with |- context [?m w] => destruct (m w) as [r w1] end. by exists r, w1.
Qed.

(** C24 (snapshots through the bridge): a snapshot the bridge takes of a leader
    whose apply loop is at rest, installed on a follower that has a snapshot sink,
    a term no higher than the leader's and has applied less, gives the follower
    the leader's applied index and, in memory, the leader's data as a snapshot
    keeps it, whatever its disk does: exactly the leader's data when its keys and
    values are valid UTF-8, and otherwise with what is no UTF-8 replaced by
    U+FFFD ([snapshot_data]).  The deadlines of the leader's store are
    [int64]. *)
Theorem bridge_resync rnd leader store o n d s w resp n' d' sw' :
  exps_int64 (data (mem store)) →
  0 <= n_lastIncludedIndex n <= n_lastApplied n → n_lastApplied n < ApplyIndex leader →
  n_term n <= n_term leader → n_hasSink n = true →
  let req := install_request (n_term leader) (n_id leader) (Snapshot leader leader store) in
  HandleInstallSnapshot (ApplySnapshot rnd) o req n d (s, w) = (resp, n', d', sw') →
  resp = mkInstallResp (n_term leader) true ∧
  ApplyIndex n' = ApplyIndex leader ∧ SnapshotBase n' = ApplyIndex leader ∧
  n_lastIncludedTerm n' = LogTerm leader (ApplyIndex leader) ∧
  data (mem sw'.1) = snapshot_data (data (mem store)) ∧
  (Snapshot.store_ok (data (mem store)) → data (mem sw'.1) = data (mem store)).
Proof.
  intros Hexp Hwf Hlt Ht Hsink req Hh.
  destruct (HandleInstallSnapshot_cases (ApplySnapshot rnd) o req n d (s, w) resp n' d' sw' Hwf Hh) as [_ Hnew].
  destruct (Hnew Ht) as (Hr & _ & _ & _ & _ & Hinst). destruct (Hinst Hlt) as (H1 & H2 & _ & _ & H3 & H4).
  split; [exact Hr|]. split; [exact H3|]. split; [exact H1|]. split; [exact H2|].
  rewrite H4, Hsink. unfold ApplySnapshot. cbn [fst snd].
  destruct (RestoreSnapshot_ok rnd (SerializeSnapshot store) s w _ (snapshot_decodes _ Hexp)) as (r & w1 & E).
  change (iq_Data req) with (SerializeSnapshot store). rewrite E. split; [done|apply snapshot_data_valid].
Qed.

(** A leader at index 2 and a follower that has nothing. *)
Definition lead_log : list Entry := [mkEntry 1 (Incr_cmd "n"); mkEntry 1 (Incr_cmd "n")].
Definition lead_node : Node :=
  set_lastApplied 2 (set_commitIndex 2 (set_log lead_log (set_vote RoleLeader 1 (Some "a"%string) (Some "a"%string) false
    (NewNode "a" ["b"%string])))).
Definition lag_node : Node := SetSnapshotSink (NewNode "b" ["a"%string]).
Definition store_of (m : gmap string entry) : DiskStore :=
  mkDisk (mkMem m 0) (mkWAL "d/wal.log" None) None "d/snapshot.dat" "d/wal.log" [] [] false false.
Definition empty_world : World := mkWorld (at_rest ∅) [] [].
Definition no_rnd : nat → option bytes := λ _, None.

Lemma bridge_resync_witness :
  let req := install_request 1 "a" (Snapshot lead_node lead_node (store_of {["n"%string := MemStore.mkEntry "2" 0]})) in
  let '(resp, n', _, sw') := HandleInstallSnapshot (ApplySnapshot no_rnd) Saved req lag_node RaftState_zero (store_of ∅, empty_world) in
  resp = mkInstallResp 1 true ∧ ApplyIndex n' = 2 ∧ data (mem sw'.1) = {["n"%string := MemStore.mkEntry "2" 0]}.
Proof.
  intros req. destruct (HandleInstallSnapshot _ _ _ _ _ _) as [[[resp n'] d'] sw'] eqn:E.
  destruct (bridge_resync no_rnd lead_node (store_of {["n"%string := MemStore.mkEntry "2" 0]}) Saved lag_node RaftState_zero
    (store_of ∅) empty_world resp n' d' sw') as (H1 & H2 & _ & _ & _ & H3).
  - apply map_Forall_to_list. repeat constructor; vm_compute; discriminate.
  - vm_compute. split; discriminate.
  - reflexivity.
  - vm_compute. discriminate.
  - reflexivity.
  - exact E.
  - split; [exact H1|]. split; [exact H2|]. apply H3. apply map_Forall_to_list. repeat constructor; vm_compute; discriminate.
Defined.

(** The bridge reads the index first: when the apply loop executes an entry
    between the calls of [ApplyIndex] and [SerializeSnapshot], the snapshot
    holds an entry beyond the index it carries; the follower that installs it
    executes that entry again and its counter is ahead of the leader's. *)
Theorem snapshot_race_doubles_incr :
  let n1 := set_lastApplied 1 lead_node in
  let '(n2, m2, _) := apply_iter 5 n1 (mkMem {["n"%string := MemStore.mkEntry "1" 0]} 0) newApplyTracker in
  let sd := Snapshot n1 n2 (store_of (data m2)) in
  let '(resp, f1, d1, (s1, w1)) := HandleInstallSnapshot (ApplySnapshot no_rnd) Saved (install_request 1 "a" sd)
       lag_node RaftState_zero (store_of ∅, empty_world) in
  let req := mkAppendReq 1 "a" 1 1 [mkEntry 1 (Incr_cmd "n")] 2 in
  let '(resp2, f2, _) := HandleAppendEntries Saved req f1 d1 in
  let '(f3, (s3, _), _) := @applyLoop _ (DiskStore_Engine no_rnd) [6] f2 (s1, w1) newApplyTracker in
  data m2 = {["n"%string := MemStore.mkEntry "2" 0]} ∧ sd_LastIncludedIndex sd = 1 ∧ ar_Success resp2 = true ∧
  ApplyIndex f3 = ApplyIndex n2 ∧ data (mem s3) = {["n"%string := MemStore.mkEntry "3" 0]}.
Proof. vm_compute. split_and!; reflexivity. Qed.

(** *** Entries executed again *)

Section replay.
Context `{EngineLaws SM}.

(** Commands whose effect does not depend on what is there. *)
Definition overwriting (e : Entry) : Prop :=
  match cmd_Op (Cmd e) with OpPut | OpDelete | OpClear => True | _ => False end.

(** Their effect on the map a reader sees. *)
Definition overwrite (m : gmap string string) (e : Entry) : gmap string string :=
  match cmd_Op (Cmd e) with
  | OpPut => <[cmd_Key (Cmd e) := cmd_Value (Cmd e)]> m
  | OpDelete => delete (cmd_Key (Cmd e)) m
  | _ => ∅
  end.

Lemma run_overwriting clock es (s : SM) τ :
  Forall overwriting es → (length es <= length clock)%nat →
  view τ (run_entries clock es s).2 = foldl overwrite (view τ s) es.
Proof.
  intros Hes. revert clock s. induction Hes as [|e es He Hes IH]; intros clock s Hl; [by destruct clock|].
  destruct clock as [|now clock]; [simpl in Hl; lia|]. simpl in Hl. cbn [run_entries foldl].
  assert (Hone : view τ (applyCmd now (Cmd e) s).2 = overwrite (view τ s) e).
  { unfold overwriting in He. unfold applyCmd, overwrite. destruct (cmd_Op (Cmd e)); try done.
    - rewrite <- (ePut_view now). by destruct (ePut now _ _ s).
    - rewrite <- (eDelete_view now). by destruct (eDelete now _ s).
    - rewrite <- (eClear_view now s τ). by destruct (eClear now s). }
  destruct (applyCmd now (Cmd e) s) as [r s1]. specialize (IH clock s1 ltac:(lia)).
  destruct (run_entries clock es s1) as [rs s2]. cbn [snd] in *. by rewrite IH, Hone.
Qed.

(** What a list of commands leaves at a key: [None] when it touches it not. *)
Definition touch (k : string) (acc : option (option string)) (e : Entry) : option (option string) :=
  match cmd_Op (Cmd e) with
  | OpPut => if decide (cmd_Key (Cmd e) = k) then Some (Some (cmd_Value (Cmd e))) else acc
  | OpDelete => if decide (cmd_Key (Cmd e) = k) then Some None else acc
  | _ => Some None
  end.

Lemma foldl_overwrite k es m acc :
  m !! k = default (m !! k) acc →
  foldl overwrite m es !! k = default (m !! k) (foldl (touch k) acc es) ∧
  (acc ≠ None → foldl (touch k) acc es ≠ None).
Proof.
  revert m acc. induction es as [|e es IH]; intros m acc Hm; [done|]. cbn [foldl].
  assert (Hone : overwrite m e !! k = default (m !! k) (touch k acc e) ∧ (acc ≠ None → touch k acc e ≠ None) ∧
    (touch k acc e = None → overwrite m e !! k = m !! k)).
  { unfold overwrite, touch. destruct (cmd_Op (Cmd e)); try (by rewrite lookup_empty).
    - rewrite lookup_insert. case_decide; [done|]. by rewrite <- Hm.
    - rewrite lookup_delete. case_decide; [done|]. by rewrite <- Hm. }
  destruct Hone as (H1 & H2 & H3). destruct (IH (overwrite m e) (touch k acc e)) as [H4 H5].
  { rewrite H1. by destruct (touch k acc e). }
  split; [|auto]. rewrite H4. destruct (foldl (touch k) (touch k acc e) es) as [v|] eqn:E; [done|]. simpl.
  apply H3. destruct (touch k acc e); [by destruct (H5 ltac:(done))|done].
Qed.

Lemma touch_app k es1 es2 : foldl (touch k) None (es1 ++ es2) = None → foldl (touch k) None es1 = None.
Proof.
  rewrite foldl_app. destruct (foldl (touch k) None es1) as [v|]; [|done]. intros Hn.
  destruct (foldl_overwrite k es2 (from_option (λ x, {[k := x]}) ∅ v) (Some v)) as [_ Hne]; [|by destruct (Hne ltac:(done))].
  by destruct v as [x|]; simpl; rewrite ?lookup_singleton_eq, ?lookup_empty.
Qed.

(** Executing a list of them after a prefix of it is executing the list. *)
Lemma overwrite_again es1 es2 m :
  foldl overwrite (foldl overwrite m es1) (es1 ++ es2) = foldl overwrite m (es1 ++ es2).
Proof.
  apply map_eq. intros k. destruct (foldl_overwrite k (es1 ++ es2) (foldl overwrite m es1) None eq_refl) as [-> _].
  destruct (foldl_overwrite k (es1 ++ es2) m None eq_refl) as [-> _].
  destruct (foldl (touch k) None (es1 ++ es2)) as [v|] eqn:E; [done|]. simpl.
  destruct (foldl_overwrite k es1 m None eq_refl) as [-> _]. by rewrite (touch_app _ _ _ E).
Qed.

Lemma SetRaftStore_restart st id peers :
  0 <= rs_LastIncludedIndex st →
  let n := SetRaftStore st (NewNode id peers) in
  n_lastApplied n = rs_LastIncludedIndex st ∧ n_commitIndex n = rs_LastIncludedIndex st ∧
  n_lastIncludedIndex n = rs_LastIncludedIndex st ∧ n_log n = rs_Log st.
Proof.
  intros Hb. assert (Hz : rs_LastIncludedIndex st = 0 ∨ 0 < rs_LastIncludedIndex st) by lia.
  unfold SetRaftStore, NewNode. destruct (bool_decide (peers = [])), Hz as [Hz|Hz]; simpl;
    rewrite ?Hz; simpl; rewrite ?(proj2 (Z.ltb_lt _ _) Hz); simpl; rewrite ?(proj2 (Z.ltb_lt _ _) Hz); by rewrite ?Hz.
Qed.

(** C25 (a restart of a log that overwrites): a node restored from its raft state
    starts at the compaction base and so executes again the entries [es1] its
    durable store already holds.  When the entries are puts, deletes and
    clears, once the commit index is known again the state machine is what
    executing the log once gives. *)
Theorem restart_replay_converges st id peers es1 es2 rest clock1 clock2 clock3 (s0 : SM) tr n' s' tr' :
  0 <= rs_LastIncludedIndex st → rs_Log st = es1 ++ es2 ++ rest → Forall overwriting (es1 ++ es2) →
  (length es1 <= length clock1)%nat → (length (es1 ++ es2) <= length clock2)%nat →
  (length (es1 ++ es2) <= length clock3)%nat →
  let c := rs_LastIncludedIndex st + zlen (es1 ++ es2) in
  let held := (run_entries clock1 es1 s0).2 in
  applyLoop clock2 (set_commitIndex c (SetRaftStore st (NewNode id peers))) held tr = (n', s', tr') →
  ApplyIndex n' = c ∧ ∀ τ, view τ s' = view τ (run_entries clock3 (es1 ++ es2) s0).2.
Proof.
  intros Hb Hlog Hov H1 H2 H3 c held Hloop. destruct (SetRaftStore_restart st id peers Hb) as (N1 & N2 & N3 & N4).
  set (n := SetRaftStore st (NewNode id peers)) in *. clearbody n.
  destruct (applyLoop_run (es1 ++ es2) clock2 (set_commitIndex c n) held tr n' s' tr') as (E1 & E2 & _).
  - simpl. rewrite N1. unfold c. lia.
  - done.
  - intros k e Hk. simpl. rewrite N1, entryAt_lookup. simpl. rewrite N3, N4, Hlog, decide_True by lia.
    rewrite app_assoc. rewrite lookup_app_l by (apply lookup_lt_Some in Hk; lia). rewrite <- Hk. f_equal. lia.
  - exact Hloop.
  - split; [by rewrite E1|]. intros τ. rewrite E2, !run_overwriting by done. unfold held.
    rewrite run_overwriting; [apply overwrite_again| |done]. by apply Forall_app in Hov as [? _].
Qed.
End replay.

(** A put, a delete of another key and a put again, of which two were executed. *)
Definition restart_log : list Entry :=
  [mkEntry 1 (Put_cmd "a" "1"); mkEntry 1 (Delete_cmd "b"); mkEntry 1 (Put_cmd "a" "2")].

Lemma restart_replay_converges_witness :
  let st := mkRaftState 1 None restart_log 0 0 in
  let n := set_commitIndex 3 (SetRaftStore st (NewNode "a" ["b"%string])) in
  let s0 := mkMem {["b"%string := MemStore.mkEntry "x" 0]} 0 in
  let held := (run_entries [1; 2] (take 2 restart_log) s0).2 in
  let '(n', s', _) := applyLoop [5; 6; 7] n held newApplyTracker in
  ApplyIndex n' = 3 ∧ view 9 s' = view 9 (run_entries [1; 2; 3] restart_log s0).2.
Proof.
  intros st n s0 held. destruct (applyLoop _ _ _ _) as [[n' s'] tr'] eqn:E.
  destruct (restart_replay_converges st "a" ["b"%string] (take 2 restart_log) (drop 2 restart_log) [] [1; 2] [5; 6; 7] [1; 2; 3]
    s0 newApplyTracker n' s' tr') as [H1 H2].
  - vm_compute. discriminate.
  - reflexivity.
  - repeat constructor.
  - simpl. lia.
  - simpl. lia.
  - simpl. lia.
  - exact E.
  - split; [exact H1|exact (H2 9)].
Defined.

(** *** Restarts of the whole process *)

Definition env_of (l : list (string * string)) : Env := λ key,
  from_option snd ""%string (list_find (λ p, p.1 = key) l ≫= λ p, Some p.2).

(** Run a node's handler for an AppendEntries and save what it persisted. *)
Definition serve_append (rs : RaftStore) (req : AppendEntriesRequest) (n : Node) : IO Node :=
  let '(_, n, d) := HandleAppendEntries Saved req n (durable n) in
  Save rs None d ;;; ret n.

(** Execute what is committed; [times] is the clock. *)
Definition serve_apply (times : list Z) (n : Node) (s : DiskStore) : IO DiskStore := λ w,
  let '(_, (s, w), _) := @applyLoop _ (DiskStore_Engine no_rnd) times n (s, w) newApplyTracker in (Ok s, w).

(** A process of the cluster serves one AppendEntries, executes what it
    committed, and is shut down cleanly: what its store held. *)
Definition session (env : Env) (req : AppendEntriesRequest) (times : list Z) : IO (gmap string entry) :=
  app <- main_start (λ _, toy_aead) (λ _, 0) env ;;
  match a_node app, a_raft app with
  | Some n, Some rs =>
      n <- serve_append rs req n ;;
      s <- serve_apply times n (a_store app) ;;
      '(s, _, _) <- Close no_rnd 9 9 9 s ;;
      ret (data (mem s))
  | _, _ => throw (ErrMsg "no node")
  end.

(** A restart repeats increments: a follower that executed an increment,
    was shut down cleanly and started again executes it once more at the
    first heartbeat, since the durable store already holds it while the node
    starts again at its compaction base: the counter is 2 after one
    increment. *)
Theorem restart_doubles_incr :
  let env := env_of [("PEERS", "http://b"); ("DATA_DIR", "d")]%string in
  let first := mkAppendReq 1 "http://b" 0 0 [mkEntry 1 (Incr_cmd "n")] 1 in
  let heartbeat := mkAppendReq 1 "http://b" 1 1 [] 1 in
  let (r1, w1) := session env first [5] empty_world in
  let (r2, w2) := session env heartbeat [6] w1 in
  r1 = Ok {["n"%string := MemStore.mkEntry "1" 0]} ∧ r2 = Ok {["n"%string := MemStore.mkEntry "2" 0]}.
Proof. vm_compute. split; reflexivity. Qed.

(** A raft state that cannot be read: main logs the error of
    [SetRaftStore] and goes on, with the store attached to a node that has
    forgotten its term and its vote.  Here a node that voted for c in term 5 is
    restarted with an encryption key: it grants a second vote in term 5, to b,
    and that state replaces the unread one on disk. *)
Theorem unreadable_state_votes_again :
  let st := mkRaftState 5 (Some "http://c"%string) [] 0 0 in
  let env := env_of [("PEERS", "http://b,http://c"); ("DATA_DIR", "d"); ("ENCRYPTION_KEY", "0123456789abcdef0123456789abcdef")]%string in
  let files : gmap string bytes := {["d/raft-state.json"%string := marshal_state st]} in
  let (started, w) := main_start (λ _, toy_aead) (λ _, 0) env (mkWorld (at_rest files) [] []) in
  stored (PlainStore (mkFileStore "d/raft-state.json")) (fs w) = Ok st ∧
  match started with
  | Ok (mkApp _ (Some n) (Some rs) _ _) =>
      let '(resp, n', d') := HandleRequestVote Saved (mkVoteReq 5 "http://b" 0 0) n (durable n) in
      let (saved, w') := Save rs (Some (replicate 12 "n"%char)) d' w in
      resp = mkVoteResp 5 true ∧ saved = Ok () ∧
      stored rs (fs w') = Ok (mkRaftState 5 (Some "http://b"%string) [] 0 0)
  | _ => False
  end.
Proof. vm_compute. split_and!; reflexivity. Qed.

(** *** The cluster of docker-compose.yml *)

Definition compose_peers : string := "http://kv2:8081,http://kv3:8081,http://kv4:8081,http://kv5:8081".

(** The node of service [id]: kv2 to kv5 inherit the environment of kv1 and
    replace its [NODE_ID] only. *)
Definition compose_node (id : string) : Node := SetRaftStore RaftState_zero (NewNode id (split_commas compose_peers)).

(** [id] campaigns and the answers of itself, as its own peer, and of [voter]
    arrive first. *)
Definition compose_campaign (id voter : string) : Node :=
  let '(cand, req) := election_begin (compose_node id) in
  let '(_, cand, d) := persist Saved cand RaftState_zero in
  let '(own, cand, d) := HandleRequestVote Saved req cand d in
  let '(other, _, _) := HandleRequestVote Saved req (compose_node voter) RaftState_zero in
  (election_tally Saved req (majority (n_peers cand)) 1 [own; other] cand d).1.

(** A node that is its own peer: in the cluster of docker-compose.yml the
    nodes kv2 to kv5 have themselves among their peers, answer their own
    vote request and count their vote twice.  Two of five nodes then make a
    majority: kv2 with kv3 and kv4 with kv5 elect two leaders of term 1. *)
Theorem compose_elects_two_leaders :
  let a := compose_campaign "http://kv2:8081" "http://kv3:8081" in
  let b := compose_campaign "http://kv4:8081" "http://kv5:8081" in
  n_role a = RoleLeader ∧ n_role b = RoleLeader ∧ n_term a = 1 ∧ n_term b = 1 ∧ n_id a ≠ n_id b.
Proof. vm_compute. split_and!; congruence. Qed.

(** ** The handler main serves *)

(** A request for a probe. *)
Definition probe (r : Request) : bool := get_route "healthz" r || get_route "readyz" r.

(** Probes and raft routes: the liveness probe always answers 200; the
    readiness probe answers 503 exactly when the process runs a node that knows
    no leader; neither changes anything.  A raft request that is well formed
    runs the node's handler once and carries its answer; every other request is
    answered by the API, as if nothing stood in front of it. *)
Theorem main_handler_routes {W : Type} (api : http_handler W) node now r w :
  (get_route "healthz" r = true → main_handler api node now r w = (Some (text_plain 200 "ok"), w)) ∧
  (get_route "readyz" r = true →
     main_handler api node now r w =
       (Some (if match node with Some (_, hasLeader) => hasLeader w | None => true end
              then text_plain 200 "ready" else text_plain 503 "no leader"), w)) ∧
  (∀ h hasLeader req, node = Some (h, hasLeader) → raft_path r = Some "/raft/vote"%string →
     vote_request_ok req → b_data (rq_Body r) = print (marshal_vote_request req) →
     main_handler api node now r w =
       (Some (mkResponse 200 "application/json" "" (print (marshal_vote_response (h_RequestVote h req w).1) ++ newline)),
        (h_RequestVote h req w).2)) ∧
  (probe r = false → (raft_path r = None ∨ node = None) → main_handler api node now r w = api now r w).
Proof.
  assert (Hexcl : get_route "readyz" r = true → get_route "healthz" r = false).
  { unfold get_route. intros [Hp _]%andb_prop. apply bool_decide_eq_true in Hp. rewrite Hp. reflexivity. }
  split_and!.
  - intros Hh. unfold main_handler, withHealth. destruct node as [[h hl]|]; by rewrite Hh.
  - intros Hr. unfold main_handler, withHealth. destruct node as [[h hl]|]; rewrite (Hexcl Hr), Hr; [by destruct (hl w)|done].
  - intros h hl req -> Hp Hok Hb. cbn [main_handler]. unfold withHealth.
    assert (Hpath : rq_Path r = ["raft"; "vote"]%string).
    { unfold raft_path in Hp. destruct (String.eqb _ _); [|done]. by repeat case_match; simplify_eq. }
    unfold get_route. rewrite Hpath. rewrite !bool_decide_eq_false_2 by done. cbn [andb].
    unfold raft_mux. rewrite Hp. unfold ServeRaftHTTP. rewrite decide_True by done.
    rewrite Hb, <- (app_nil_r (print _)), vote_request_roundtrip by done.
    by destruct (h_RequestVote h req w) as [resp w'].
  - intros [Hh Hr]%orb_false_iff Hraft. unfold main_handler, withHealth. destruct node as [[h hl]|].
    + rewrite Hh, Hr. destruct Hraft as [Hraft|]; [|done]. unfold raft_mux. by rewrite Hraft.
    + by rewrite Hh, Hr.
Qed.

(** ** The compactor *)

(** The compactor: a tick does nothing before the threshold, and leaves
    raft alone when the store cannot be compacted.  Otherwise, whatever the
    node applied meanwhile, as long as it still has the entry at the index that
    was read, the log is cut there: that index and the term of its entry become
    the base, every later entry stays, the commit and the applied index do not
    move, and after a successful flush the disk holds exactly this state. *)
Theorem compactor_tick_spec rnd threshold others s w n d n' d' w' :
  compactor_tick rnd threshold Saved others s w n d = (n', d', w') →
  let idx := ApplyIndex n in
  (idx - SnapshotBase n < compactor_threshold threshold → n' = n ∧ d' = d ∧ w' = w) ∧
  (compactor_threshold threshold <= idx - SnapshotBase n →
     w' = (Compact rnd s w).2 ∧
     (∀ e, (Compact rnd s w).1 = Err e → n' = others n ∧ d' = d) ∧
     ((Compact rnd s w).1 = Ok () →
      0 <= SnapshotBase (others n) < idx → idx <= ApplyIndex (others n) <= n_commitIndex (others n) →
      idx <= lastLogIndex (others n) → LogTerm (others n) idx = LogTerm n idx → n_hasStore (others n) = true →
      SnapshotBase n' = idx ∧ n_lastIncludedTerm n' = LogTerm n idx ∧
      (∀ j, idx < j → LogEntry n' j = LogEntry (others n) j) ∧
      ApplyIndex n' = ApplyIndex (others n) ∧ n_commitIndex n' = n_commitIndex (others n) ∧
      d' = durable n')).
Proof.
  intros Ht idx. unfold compactor_tick, compactor_due in Ht. fold idx in Ht.
  destruct (Z.ltb_spec (idx - SnapshotBase n) (compactor_threshold threshold)) as [Hlt|Hge].
  { injection Ht as <- <- <-. split; [done|lia]. }
  split; [lia|]. intros _. cbn zeta in Ht. destruct (Compact rnd s w) as [r w1]. cbn [fst snd].
  unfold compactor_trim in Ht. destruct r as [[]|e]; [|injection Ht as <- <- <-; split_and!; [done|by intros ? [= ->]|done]].
  unfold Flush in Ht. cbn [fst snd] in Ht. set (m := CompactLog idx (LogTerm n idx) (others n)) in *.
  destruct (persist Saved m d) as [[ok n1] d1] eqn:E. injection Ht as -> -> <-.
  split; [done|]. split; [done|]. intros _ Hb Ha Hl Hterm Hstore.
  destruct (CompactLog_spec idx (LogTerm n idx) (others n)) as [_ Hc]; [unfold SnapshotBase in Hb; lia|].
  unfold SnapshotBase, ApplyIndex, LogTerm, LogEntry in *. fold m in Hc.
  destruct Hc as (C1 & C2 & C3 & C4 & _ & _ & C5 & C6); [lia|lia|done|].
  assert (Hms : n_hasStore m = true).
  { unfold m. rewrite CompactLog_eq by lia. unfold raise_base. repeat case_match; exact Hstore. }
  assert (Hmt : n_lastIncludedTerm m = logTermAt n idx).
  { rewrite <- Hterm, <- C4 by lia. unfold logTermAt at 1. rewrite (proj2 (Z.eqb_neq idx 0)) by lia.
    by rewrite C1, Z.eqb_refl. }
  unfold persist in E. rewrite Hms, C2 in E. cbn in E. injection E as _ <- <-.
  split_and!; simpl; [done|done| |lia|lia|done].
  intros j Hj. rewrite <- C3 by done. by apply entryAt_ext.
Qed.

Definition wal_world : World := let files := {["d/wal.log"%string := []]} in mkWorld (at_rest files) [] [].

(** A tick at threshold 1 while one more entry is executed. *)
Lemma compactor_tick_spec_witness :
  let n := set_wiring true false false (set_lastApplied 1 lead_node) in
  let others := set_lastApplied 2 in
  let '(n', d', _) := compactor_tick no_rnd 1 Saved others (store_of ∅) wal_world n RaftState_zero in
  SnapshotBase n' = 1 ∧ ApplyIndex n' = 2 ∧ LogEntry n' 2 = Some (mkEntry 1 (Incr_cmd "n")) ∧ d' = durable n'.
Proof.
  intros n others. destruct (compactor_tick _ _ _ _ _ _ _ _) as [[n' d'] w'] eqn:E.
  destruct (compactor_tick_spec no_rnd 1 others (store_of ∅) wal_world n RaftState_zero n' d' w' E) as [_ H].
  destruct H as (_ & _ & H); [vm_compute; discriminate|].
  destruct H as (H1 & _ & H2 & H3 & _ & H4); 
    [vm_compute; reflexivity|split; [vm_compute; discriminate|reflexivity]|split; vm_compute; discriminate|vm_compute; discriminate
    |reflexivity|reflexivity|].
  split; [exact H1|]. split; [exact H3|]. split; [exact (H2 2 eq_refl)|exact H4].
Defined.
