(* ===== verification/Client.v ===== *)
(** * Client: the redirect-following client, pkg/client

    client.go on top of what [net/http]'s client does with redirects: a request
    is sent again to the [Location] of a 301, 302, 303, 307 or 308 answer, with
    its method and body for 307 and 308, and no more than ten requests are
    made.  The network is a map from addresses to API servers, so that the
    client is proved against the REST layer of Api. *)

From S2P Require Import Prelude GoLib Engine MemStore Json RaftNode RaftEngine Api.

(** ** client.go *)

Record Client : Type := mkClient { base : string }.

(** [strings.TrimRight(s, "/")]. *)
Fixpoint drop_slashes (s : bytes) : bytes :=
  match s with
  | b :: s' => if decide (b = "/"%char) then drop_slashes s' else s
  | [] => []
  end.
Definition TrimRight (s : string) : string := string_of_bytes (rev (drop_slashes (rev (bytes_of_string s)))).

Definition New (b : string) : Client := mkClient (TrimRight b).

Definition url (c : Client) (path : string) : string := String.append (base c) path.

(** A request as the client builds it: [cr_rewind] tells whether its body can be
    sent again, because it has [GetBody] or no body at all. *)
Record ClientRequest : Type := mkClientReq {
  cr_Method : string;
  cr_URL : string;
  cr_Body : bytes;
  cr_rewind : bool
}.

Definition err_redirects : go_error := ErrMsg "stopped after 10 redirects".
Definition err_network : go_error := ErrMsg "network error".

(** [redirectBehavior]: the method and whether the body goes along. *)
Definition redirectBehavior (method : string) (status : Z) : option (string * bool) :=
  if bool_decide (status ∈ [301; 302; 303]) then
    Some (if bool_decide (method ∈ ["GET"; "HEAD"]%string) then method else "GET"%string, false)
  else if bool_decide (status ∈ [307; 308]) then Some (method, true)
  else None.

(** The request that follows an answer, if it is followed. *)
Definition follow_redirect (req : ClientRequest) (resp : Response) : option ClientRequest :=
  match redirectBehavior (cr_Method req) (rp_Status resp) with
  | None => None
  | Some (method, includeBody) =>
      if decide (rp_Location resp = ""%string) then None
      else if includeBody then
        if cr_rewind req then Some (mkClientReq method (rp_Location resp) (cr_Body req) true) else None
      else Some (mkClientReq method (rp_Location resp) [] true)
  end.

Section client.
Context {W : Type}.

(** A network carries a request to an address; [None]: it failed. *)
Context (net : ClientRequest → W → option Response * W).

(** [http.Client.Do]: [fuel] requests may still be made. *)
Fixpoint do_loop (fuel : nat) (req : ClientRequest) (w : W) : res Response * W :=
  match fuel with
  | O => (Err err_redirects, w)
  | S fuel =>
      match net req w with
      | (None, w) => (Err err_network, w)
      | (Some resp, w) =>
          match follow_redirect req resp with
          | None => (Ok resp, w)
          | Some req => do_loop fuel req w
          end
      end
  end.

Definition Do (req : ClientRequest) (w : W) : res Response * W := do_loop 10 req w.

Definition Client_Put (c : Client) (key value : string) : W → res Response * W :=
  Do (mkClientReq "PUT" (url c (String.append "/kv/" key)) (bytes_of_string value) true).

Definition Client_Get (c : Client) (key : string) : W → res Response * W :=
  Do (mkClientReq "GET" (url c (String.append "/kv/" key)) [] true).

Definition Client_Delete (c : Client) (key : string) : W → res Response * W :=
  Do (mkClientReq "DELETE" (url c (String.append "/kv/" key)) [] true).
End client.

(** ** The network *)

(** *** net/url, as far as it takes: URLs without user information *)

Definition http_scheme : bytes := bytes_of_string "http://".
Definition https_scheme : bytes := bytes_of_string "https://".

Definition host_char (b : ascii) : bool := negb (bool_decide (b ∈ ["/"; "?"; "#"]%char)).

Fixpoint span (f : ascii → bool) (s : bytes) : bytes * bytes :=
  match s with
  | b :: s' => if f b then let (x, y) := span f s' in (b :: x, y) else ([], s)
  | [] => ([], [])
  end.

(** The address, scheme included, and what follows it. *)
Definition split_at (scheme u : bytes) : option (bytes * bytes) :=
  if decide (take (length scheme) u = scheme) then
    let (auth, rest) := span host_char (drop (length scheme) u) in Some (scheme ++ auth, rest)
  else None.
Definition split_url (u : bytes) : option (bytes * bytes) :=
  match split_at http_scheme u with Some x => Some x | None => split_at https_scheme u end.

(** Percent-decoding. *)
Fixpoint unescape_path (s : bytes) : option bytes :=
  match s with
  | [] => Some []
  | "%"%char :: a :: b :: s =>
      match unhex a, unhex b, unescape_path s with
      | Some x, Some y, Some l => Some (byte_of_Z (x * 16 + y) :: l)
      | _, _, _ => None
      end
  | b :: s => if decide (b = "%"%char) then None else cons b <$> unescape_path s
  end.

Fixpoint segments (s : bytes) : list bytes :=
  match s with
  | [] => [[]]
  | b :: s =>
      match segments s with
      | x :: l => if decide (b = "/"%char) then [] :: x :: l else (b :: x) :: l
      | [] => []
      end
  end.

(** The request a server sees for what follows its address: the fragment is cut
    off, and the query is what follows the first question mark (its parameters
    are not read by the handlers the client reaches).  A path the router would
    rewrite, with an empty segment or a dot segment, is left out. *)
Definition server_request (method : string) (rest body : bytes) : option Request :=
  let uri := (span (λ b, negb (bool_decide (b = "#"%char))) rest).1 in
  let path := (span (λ b, negb (bool_decide (b = "?"%char))) uri).1 in
  match path with
  | "/"%char :: path =>
      segs ← unescape_path path ≫= λ p, Some (segments p);
      if existsb (λ x, bool_decide (x ∈ [[]; ["."%char]; ["."%char; "."%char]])) segs then None
      else Some (mkRequest method (string_of_bytes <$> segs) (string_of_bytes uri) [] (mkBody body false))
  | _ => None
  end.

Section network.
Context `{Engine SM} (d now : Z).

(** Servers by their address, all asked at time [now]. *)
Abbreviation Servers := (gmap string (Server SM)).

Definition network (req : ClientRequest) (w : Servers) : option Response * Servers :=
  match split_url (bytes_of_string (cr_URL req)) with
  | None => (None, w)
  | Some (addr, rest) =>
      match w !! string_of_bytes addr, server_request (cr_Method req) rest (cr_Body req) with
      | Some s, Some r => let (resp, s) := Server_Handler d now r s in (resp, <[string_of_bytes addr := s]> w)
      | _, _ => (None, w)
      end
  end.
End network.

(** ** URLs of valid keys *)

(** An address: http or https and a nonempty authority. *)
Definition address (a : string) : Prop :=
  ∃ scheme auth, scheme ∈ [http_scheme; https_scheme] ∧ bytes_of_string a = scheme ++ auth ∧
    auth ≠ [] ∧ forallb host_char auth = true.

Lemma span_app f x y : forallb f x = true → match y with [] => True | b :: _ => f b = false end → span f (x ++ y) = (x, y).
Proof.
  intros Hx Hy. induction x as [|b x IH]; simpl in *.
  - destruct y as [|b y]; [done|]. simpl. by rewrite Hy.
  - apply andb_prop in Hx as [-> Hx]. by rewrite IH.
Qed.

Lemma span_all f x : forallb f x = true → span f x = (x, []).
Proof. intros Hx. rewrite <- (app_nil_r x) at 1. by apply span_app. Qed.

Lemma bytes_append a b : bytes_of_string (String.append a b) = bytes_of_string a ++ bytes_of_string b.
Proof. induction a as [|c a IH]; [done|]. simpl. by rewrite <- IH. Qed.

Lemma key_chars key b : keyPattern_MatchString key = true → b ∈ bytes_of_string key → key_char b = true.
Proof.
  intros [_ Hk]%andb_prop Hb. rewrite forallb_forall in Hk. apply Hk. by apply list_elem_of_In.
Qed.

(** A key character is none of those a URL gives a meaning to. *)
Lemma key_char_plain b : key_char b = true → b ∉ ["/"; "?"; "#"; "%"; "."]%char.
Proof.
  intros Hb Hin. repeat (apply elem_of_cons in Hin as [ ->|Hin]; [done|]). by apply elem_of_nil in Hin.
Qed.

Definition kv_uri (key : string) : bytes := bytes_of_string (String.append "/kv/" key).

Lemma split_key_url a key : address a →
  split_url (bytes_of_string (String.append a (String.append "/kv/" key))) = Some (bytes_of_string a, kv_uri key).
Proof.
  intros (scheme & auth & Hs & Ha & _ & Hauth). rewrite bytes_append, Ha. fold (kv_uri key). rewrite <- app_assoc.
  assert (split_at scheme (scheme ++ auth ++ kv_uri key) = Some (scheme ++ auth, kv_uri key)) as Hat.
  { unfold split_at. rewrite take_app_length, drop_app_length, decide_True by done. by rewrite span_app. }
  unfold split_url. apply elem_of_cons in Hs as [->|Hs%list_elem_of_singleton]; [by rewrite Hat|]. subst scheme.
  unfold split_at at 1. by rewrite decide_False.
Qed.

Lemma forallb_plain (f : ascii → bool) (l : bytes) : (∀ b, b ∈ l → f b = true) → forallb f l = true.
Proof. intros Hl. apply forallb_forall. intros b Hb. by apply Hl, list_elem_of_In. Qed.

Lemma unescape_plain l : (∀ b, b ∈ l → b ≠ "%"%char) → unescape_path l = Some l.
Proof.
  induction l as [|b l IH]; intros Hl; [done|]. specialize (IH ltac:(intros x Hx; apply Hl; by right)).
  pose proof (Hl b ltac:(by left)) as Hb. cbn [unescape_path]. rewrite IH.
  destruct b as [[] [] [] [] [] [] [] []]; by try (by destruct (Hb eq_refl)).
Qed.

Lemma segments_plain l : (∀ b, b ∈ l → b ≠ "/"%char) → segments l = [l].
Proof.
  induction l as [|b l IH]; intros Hl; [done|]. cbn [segments]. rewrite IH by (intros x Hx; apply Hl; by right).
  by rewrite decide_False by (apply Hl; by left).
Qed.

(** The server's view of a request for a valid key. *)
Definition kv_request (method key : string) (body : bytes) : Request :=
  mkRequest method ["kv"; key]%string (String.append "/kv/" key) [] (mkBody body false).

Lemma server_key_request method key body : keyPattern_MatchString key = true →
  server_request method (kv_uri key) body = Some (kv_request method key body).
Proof.
  intros Hk. pose proof (λ b Hb, key_char_plain b (key_chars key b Hk Hb)) as Hplain.
  assert (Hu : kv_uri key = bytes_of_string "/kv/" ++ bytes_of_string key) by apply bytes_append.
  assert (Hf : ∀ c, c ∈ ["?"; "#"]%char → forallb (λ b, negb (bool_decide (b = c))) (kv_uri key) = true).
  { intros c Hc. rewrite Hu. apply forallb_plain. intros b Hb. apply elem_of_app in Hb as [Hb|Hb].
    - rewrite bool_decide_eq_false_2; [done|]. intros ->. set_solver.
    - rewrite bool_decide_eq_false_2; [done|]. intros ->. destruct (Hplain c Hb). set_solver. }
  unfold server_request. rewrite (span_all _ _ (Hf "#"%char ltac:(set_solver))). cbn [fst].
  rewrite (span_all _ _ (Hf "?"%char ltac:(set_solver))). cbn [fst].
  assert (Hs : segments (bytes_of_string "kv/" ++ bytes_of_string key) = [bytes_of_string "kv"; bytes_of_string key]).
  { cbn [bytes_of_string String.list_ascii_of_string app segments]. rewrite segments_plain; [reflexivity|].
    intros b Hb ->. destruct (Hplain _ Hb). set_solver. }
  rewrite Hu. change (bytes_of_string "/kv/" ++ bytes_of_string key)
    with ("/"%char :: (bytes_of_string "kv/" ++ bytes_of_string key)). cbn match.
  set (p := bytes_of_string "kv/" ++ bytes_of_string key) in *.
  assert (Hp : unescape_path p = Some p).
  { apply unescape_plain. unfold p. intros b Hb ->. apply elem_of_app in Hb as [Hb|Hb]; [vm_compute in Hb; set_solver|]. destruct (Hplain _ Hb). set_solver. }
  assert (Hp' : "/"%char :: p = bytes_of_string "/kv/" ++ bytes_of_string key) by done.
  clearbody p. rewrite Hp. cbn [mbind option_bind]. rewrite Hs. cbn [existsb]. rewrite bool_decide_eq_false_2 by set_solver. cbn [orb].
  assert (Hne : bool_decide (bytes_of_string key ∈ [[]; ["."%char]; ["."%char; "."%char]]) = false).
  { apply bool_decide_eq_false. intros Hin. destruct (bytes_of_string key) as [|b l] eqn:E.
    - apply andb_prop in Hk as [Hk _]. by destruct key.
    - pose proof (Hplain b ltac:(by left)). set_solver. }
  rewrite Hne. cbn [orb]. unfold kv_request. f_equal. f_equal.
  - cbn [fmap list_fmap]. by rewrite !string_of_bytes_of_string.
  - by rewrite Hp', <- bytes_append, string_of_bytes_of_string.
Qed.

(** ** Following the leader *)

Section follow.
Context `{Engine SM} (d now : Z).
Abbreviation net := (network (SM := SM) d now).

Lemma TrimRight_address a (k : nat) : address a →
  TrimRight (String.append a (string_of_bytes (replicate k "/"%char))) = a.
Proof.
  intros (scheme & auth & _ & Ha & Hne & Hauth). unfold TrimRight. rewrite bytes_append, bytes_of_string_of_bytes, rev_app_distr.
  assert (Hrep : rev (replicate k "/"%char) = replicate k "/"%char).
  { clear. induction k as [|k IH]; [done|]. simpl. rewrite IH. by rewrite <- replicate_cons_app. }
  rewrite Hrep. assert (Hdrop : ∀ l, drop_slashes (replicate k "/"%char ++ l) = drop_slashes l).
  { clear. induction k as [|k IH]; intros l; [done|]. simpl. apply IH. }
  rewrite Hdrop. assert (Hkeep : drop_slashes (rev (bytes_of_string a)) = rev (bytes_of_string a)).
  { rewrite Ha, rev_app_distr. destruct (rev auth) as [|b l] eqn:E.
    - apply (f_equal length) in E. rewrite length_rev in E. by destruct auth.
    - simpl. rewrite decide_False; [done|]. intros ->. rewrite forallb_forall in Hauth.
      assert (Hin : In "/"%char auth) by (apply in_rev; rewrite E; by left). by specialize (Hauth _ Hin). }
  by rewrite Hkeep, rev_involutive, string_of_bytes_of_string.
Qed.

(** One request for a valid key at a known address. *)
Lemma network_key a method key body rewind w s :
  address a → keyPattern_MatchString key = true → w !! a = Some s →
  net (mkClientReq method (String.append a (String.append "/kv/" key)) body rewind) w =
    (let (resp, s') := Server_Handler d now (kv_request method key body) s in (resp, <[a := s']> w)).
Proof.
  intros Ha Hk Hs. unfold network. cbn [cr_URL cr_Method cr_Body].
  by rewrite split_key_url, string_of_bytes_of_string, Hs, server_key_request.
Qed.

(** An answer that is final. *)
Definition final (x : Response) : Prop := rp_Status x ∉ [301; 302; 303; 307; 308].

Lemma final_not_followed req x : final x → follow_redirect req x = None.
Proof.
  intros Hx. unfold follow_redirect, redirectBehavior.
  rewrite !bool_decide_eq_false_2; [done|unfold final in Hx; set_solver..].
Qed.

(** A write the first node redirects: what the client gets, and what happens,
    is the answer and the effect of the second node. *)
Lemma redirected_once f l method key body w sf sl sf' x sl' :
  address f → address l → f ≠ l → keyPattern_MatchString key = true → w !! f = Some sf → w !! l = Some sl →
  Server_Handler d now (kv_request method key body) sf = (Some (redirected (kv_request method key body) l), sf') →
  Server_Handler d now (kv_request method key body) sl = (Some x, sl') → final x →
  Do net (mkClientReq method (String.append f (String.append "/kv/" key)) body true) w = (Ok x, <[l := sl']> (<[f := sf']> w)).
Proof.
  intros Hf Hl Hne Hk Hsf Hsl Hrf Hrl Hx. unfold Do. cbn [do_loop].
  rewrite (network_key f method key body true w sf), Hrf by done.
  assert (Hl0 : l ≠ ""%string) by (intros ->; destruct Hl as (scheme & [|] & _ & Ha & ? & _); [done|by destruct scheme]).
  assert (Hred : redirected (kv_request method key body) l =
    mkResponse 307 "" (String.append l (String.append "/kv/" key)) []) by (unfold redirected; by rewrite decide_False).
  assert (Hloc : String.append l (String.append "/kv/" key) ≠ ""%string) by by destruct l.
  rewrite Hred. unfold follow_redirect at 1. cbn [redirectBehavior rp_Status rp_Location cr_Method cr_Body cr_rewind].
  change (redirectBehavior method 307) with (Some (method, true)). cbn match. rewrite decide_False by done.
  assert (Hsl' : <[f := sf']> w !! l = Some sl) by (rewrite lookup_insert_ne; done).
  rewrite (network_key l method key body true (<[f := sf']> w) sl), Hrl by done.
  by rewrite final_not_followed.
Qed.

(** C21 (the client follows the leader): a DELETE, or a PUT of a value no longer
    than [maxBodyBytes], of a valid key, sent to a node that refuses it naming
    another node as leader, reaches that node with the same key and body, both
    having http or https addresses and being reached in time.  When its answer
    is no redirect, the client gets it, that node's state is what serving the
    request once leaves, the first node has only refused the request, and no
    other node has changed.  A GET is answered by the node it is sent to, when
    the answer is no redirect. *)
Theorem client_follows_leader f slashes l key value w sf sl :
  address f → address l → f ≠ l → keyPattern_MatchString key = true → w !! f = Some sf → w !! l = Some sl →
  let c := New (String.append f (string_of_bytes (replicate slashes "/"%char))) in
  let put := kv_request "PUT" key (bytes_of_string value) in
  let del := kv_request "DELETE" key [] in
  (∀ x sl', slen value <= maxBodyBytes →
     (ePut now key value (eGet now key (engine sf)).2).1 = Err (NotLeaderError l) →
     Server_Handler d now put sl = (Some x, sl') → final x →
     Client_Put net c key value w = (Ok x, <[l := sl']> (<[f := (Server_Handler d now put sf).2]> w))) ∧
  (∀ x sl', (eDelete now key (eGet now key (engine sf)).2).1 = Err (NotLeaderError l) →
     Server_Handler d now del sl = (Some x, sl') → final x →
     Client_Delete net c key w = (Ok x, <[l := sl']> (<[f := (Server_Handler d now del sf).2]> w))) ∧
  (∀ x sf', Server_Handler d now (kv_request "GET" key []) sf = (Some x, sf') → final x →
     Client_Get net c key w = (Ok x, <[f := sf']> w)).
Proof.
  intros Hf Hl Hne Hk Hsf Hsl c put del.
  assert (Hc : base c = f) by (unfold c, New; simpl; by apply TrimRight_address).
  destruct key as [|ch key]; [discriminate Hk|]. set (k := String ch key) in *.
  split_and!.
  - intros x sl' Hv He Hx Hfin. unfold Client_Put, url. rewrite Hc.
    destruct (Server_Handler_mux d now put sf ltac:(done)) as (y & s1 & Hy & Hrun). rewrite Hrun.
    rewrite (mux_route now put sf (validateKey handlePut k) eq_refl) in Hy. unfold validateKey in Hy. rewrite Hk in Hy.
    assert (y = redirected put l) as ->.
    { eapply (handlePut_redirects k now put sf (bytes_of_string value)); [done|done|exact Hv|].
      by rewrite string_of_bytes_of_string. }
    by eapply redirected_once.
  - intros x sl' He Hx Hfin. unfold Client_Delete, url. rewrite Hc.
    destruct (Server_Handler_mux d now del sf ltac:(done)) as (y & s1 & Hy & Hrun). rewrite Hrun.
    rewrite (mux_route now del sf (validateKey handleDelete k) eq_refl) in Hy. unfold validateKey in Hy. rewrite Hk in Hy.
    assert (y = redirected del l) as -> by by eapply (handleDelete_redirects k now del sf).
    by eapply redirected_once.
  - intros x sf' Hx Hfin. unfold Client_Get, url, Do. rewrite Hc. cbn [do_loop].
    rewrite (network_key f "GET" k [] true w sf), Hx by done. by rewrite final_not_followed.
Qed.
End follow.

(** ** Witness: a follower and a leader, each a raft node over [MemStore] *)

Definition raft_server (n : Node) : Server (RaftEngine MemStore) :=
  NewServer (mkRaftEngine n RaftState_zero NewMemStore None).

Definition follower_node : Node :=
  set_vote RoleFollower 1 None (Some "http://l:1"%string) false (NewNode "http://f:1" ["http://l:1"%string]).

Definition two_servers : gmap string (Server (RaftEngine MemStore)) :=
  {["http://f:1"%string := raft_server follower_node; "http://l:1"%string := raft_server (NewNode "http://l:1" [])]}.

Lemma address_f : address "http://f:1".
Proof. exists http_scheme, (bytes_of_string "f:1"). split; [by left|]. split; [reflexivity|]. split; [discriminate|reflexivity]. Qed.
Lemma address_l : address "http://l:1".
Proof. exists http_scheme, (bytes_of_string "l:1"). split; [by left|]. split; [reflexivity|]. split; [discriminate|reflexivity]. Qed.

Lemma client_follows_leader_witness :
  ∃ x w', Client_Put (network 0 5) (New "http://f:1/") "k" "v" two_servers = (Ok x, w') ∧ rp_Status x = 200 ∧
    match w' !! "http://l:1"%string with
    | Some s => (eGet 6 "k"%string (engine s)).1 = Ok "v"%string
    | None => False
    end.
Proof.
  destruct (client_follows_leader 0 5 "http://f:1" 1 "http://l:1" "k" "v" two_servers (raft_server follower_node)
    (raft_server (NewNode "http://l:1" [])) address_f address_l) as (Hput & _ & _).
  - discriminate.
  - reflexivity.
  - reflexivity.
  - reflexivity.
  - eexists _, _. split; [apply Hput|].
    + vm_compute. discriminate.
    + reflexivity.
    + vm_compute. reflexivity.
    + unfold final. cbn [rp_Status]. set_solver.
    + split; [reflexivity|]. vm_compute. reflexivity.
Defined.

(** ** Redirects that do not end *)

(** Requests made before the client stops. *)
Definition counting {W : Type} (net : ClientRequest → W → option Response * W) :
    ClientRequest → W * nat → option Response * (W * nat) :=
  λ req wc, let (resp, w) := net req wc.1 in (resp, (w, S wc.2)).

(** Redirects end: whatever the servers answer, a call of the client makes
    at least one and at most ten requests, and if every answer redirects it
    returns an error after exactly ten. *)
Theorem client_stops {W : Type} (net : ClientRequest → W → option Response * W) req w :
  let '(r, (_, made)) := Do (counting net) req (w, 0%nat) in
  (1 <= made <= 10)%nat ∧
  ((∀ q v, ∃ resp v', net q v = (Some resp, v') ∧ is_Some (follow_redirect q resp)) → r = Err err_redirects ∧ made = 10%nat).
Proof.
  assert (Hgen : ∀ fuel req w c, let '(r, (_, made)) := do_loop (counting net) fuel req (w, c) in
    (c + Nat.min 1 fuel <= made <= c + fuel)%nat ∧
    ((∀ q v, ∃ resp v', net q v = (Some resp, v') ∧ is_Some (follow_redirect q resp)) →
       r = Err err_redirects ∧ made = (c + fuel)%nat)).
  { clear. induction fuel as [|fuel IH]; intros req w c; cbn [do_loop]; [split; [lia|]; intros _; split; [done|lia]|].
    unfold counting at 1. cbn [fst snd]. destruct (net req w) as [[resp|] w1] eqn:E.
    - destruct (follow_redirect req resp) as [req'|] eqn:Ef.
      + specialize (IH req' w1 (S c)). destruct (do_loop _ fuel req' (w1, S c)) as [r [w2 made]].
        destruct IH as [H1 H2]. split; [lia|]. intros Hall. destruct (H2 Hall). split; [done|lia].
      + split; [lia|]. intros Hall. destruct (Hall req w) as (? & ? & Hn & [? Hs]). rewrite E in Hn. injection Hn as <- <-. congruence.
    - split; [lia|]. intros Hall. destruct (Hall req w) as (? & ? & Hn & _). rewrite E in Hn. discriminate. }
  specialize (Hgen 10%nat req w 0%nat). unfold Do. destruct (do_loop _ _ _ _) as [r [w' made]]. exact Hgen.
Qed.

(** Keys are not escaped: the client puts the key into the URL as it is, so
    a key with a question mark or a hash is cut there: storing under "a?b"
    answers 200 and overwrites the value of "a". *)
Theorem client_key_is_cut :
  let w := {["http://l:1"%string := NewServer (MemStore.Put "a" "old" NewMemStore)]} in
  let (r, w') := Client_Put (network 0 5) (New "http://l:1") "a?b" "new" w in
  match r with Ok x => rp_Status x = 200 | Err _ => False end ∧
  match w' !! "http://l:1"%string with
  | Some s => (eGet 6 "a"%string (engine s)).1 = Ok "new"%string
  | None => False
  end.
Proof. vm_compute. split; reflexivity. Qed.
