(* ===== verification/Logger.v ===== *)
(** * Logger: structured logging, pkg/util/logger.go

    A call writes one JSON object per line.  Values are what [json.Marshal] is
    given; [None] stands for one it refuses, in which case the line is dropped.
    The time, already formatted, is an argument. *)

From S2P Require Import Prelude GoLib Json Snapshot.

(** The logger and what its writer received. *)
Record Logger : Type := mkLogger { out : bytes }.

Definition NewLoggerTo (written : bytes) : Logger := mkLogger written.
(** Standard error, as the process starts. *)
Definition NewLogger : Logger := NewLoggerTo [].

Abbreviation Fields := (gmap string (option json)).

(** The map [logf] builds: the fields are written last. *)
Definition log_entry (level msg ts : string) (fields : Fields) : Fields :=
  fields ∪ <["ts"%string := Some (JStr ts)]> (<["msg"%string := Some (JStr msg)]> {["level"%string := Some (JStr level)]}).

(** The members of a marshalled map, in the order of the keys. *)
Fixpoint members (l : list (string * option json)) : option (list (string * json)) :=
  match l with
  | [] => Some []
  | (k, v) :: l =>
      match v, members l with
      | Some j, Some rest => Some ((k, j) :: rest)
      | _, _ => None
      end
  end.

Definition logf (level msg ts : string) (fields : Fields) (l : Logger) : Logger :=
  match members (sorted_entries (log_entry level msg ts fields)) with
  | None => l
  | Some ms => mkLogger (out l ++ print (JObj ms) ++ ["010"%char])
  end.

Definition Info (msg ts : string) (fields : Fields) (l : Logger) : Logger := logf "info" msg ts fields l.
Definition Error_ (msg ts : string) (fields : Fields) (l : Logger) : Logger := logf "error" msg ts fields l.

(** ** A printed value is one line *)

Definition one_line (l : bytes) : Prop := "010"%char ∉ l.

Global Instance one_line_dec l : Decision (one_line l).
Proof. unfold one_line. apply _. Defined.

(** For concrete bytes. *)
Ltac by_eval := match goal with |- ?P => apply (bool_decide_unpack P); vm_compute; exact I end.

Lemma one_line_app x y : one_line x → one_line y → one_line (x ++ y).
Proof. unfold one_line. rewrite elem_of_app. tauto. Qed.

Lemma one_line_cons b x : b ≠ "010"%char → one_line x → one_line (b :: x).
Proof. unfold one_line. rewrite elem_of_cons. intros Hb Hx [H|H]; [by apply Hb|done]. Qed.

Lemma one_line_high l : Forall (λ b, 0x80 <= Z_of_byte b) l → one_line l.
Proof. intros Hl Hin. rewrite Forall_forall in Hl. specialize (Hl _ Hin). vm_compute in Hl. by destruct Hl. Qed.

Lemma between_high lo hi b : 0x80 <= lo → between lo hi b = true → 0x80 <= Z_of_byte b.
Proof. unfold between. intros Hlo [H _]%andb_prop. lia. Qed.

Lemma rune_high s n : rune_size s = Some n → Forall (λ b, 0x80 <= Z_of_byte b) (take n s).
Proof.
  unfold rune_size, cont. intros Hr.
  repeat match goal with
  | H : (match ?x with _ => _ end) = Some _ |- _ => destruct x eqn:?; try discriminate H
  | H : Some _ = Some _ |- _ => injection H as <-
  end; simpl; bool_prop; repeat constructor; eapply between_high; try eassumption; try case_match; lia.
Qed.

Lemma escape_one_line b : one_line (escape b).
Proof. destruct b as [[] [] [] [] [] [] [] []]; by_eval. Qed.

Lemma quote_loop_one_line fuel s : one_line (quote_loop fuel s).
Proof.
  revert s. induction fuel as [|fuel IH]; intros [|b s]; try apply not_elem_of_nil. cbn [quote_loop].
  destruct (Z_of_byte b <? 0x80); [apply one_line_app; [apply escape_one_line|apply IH]|].
  destruct (rune_size (b :: s)) as [n|] eqn:E.
  - apply one_line_app; [|apply IH]. repeat case_bool_decide; try by_eval. by apply one_line_high, rune_high.
  - apply (one_line_app ([backslash] ++ bytes_of_string "ufffd")); [by_eval|apply IH].
Qed.

Lemma quote_one_line s : one_line (quote s).
Proof. apply one_line_cons; [done|]. apply one_line_app; [apply quote_loop_one_line|by_eval]. Qed.

Lemma sep_concat_one_line l : Forall one_line l → one_line (sep_concat l).
Proof.
  induction 1 as [|x l Hx Hl IH]; [apply not_elem_of_nil|]. destruct l as [|y l]; [done|].
  change (sep_concat (x :: y :: l)) with (x ++ [","%char] ++ sep_concat (y :: l)).
  apply one_line_app; [done|]. by apply one_line_cons.
Qed.

Lemma print_one_line j : json_wf j → one_line (print j).
Proof.
  induction j as [|[]|lit|s|l IH|l IH] using json_nested_ind; intros Hw; [by_eval|by_eval|by_eval|..].
  - destruct Hw as [_ Hn]. intros Hin. rewrite forallb_forall in Hn. apply list_elem_of_In in Hin. by specialize (Hn _ Hin).
  - apply quote_one_line.
  - apply one_line_cons; [done|]. apply one_line_app; [|by_eval]. apply sep_concat_one_line.
    change (elems_wf l) in Hw. induction IH as [|v l Hv _ IHl]; [constructor|]. destruct Hw. constructor; auto.
  - rewrite print_obj. apply one_line_cons; [done|]. apply one_line_app; [|by_eval].
    apply sep_concat_one_line. change (members_wf l) in Hw. induction IH as [|[k v] l Hv _ IHl]; [constructor|].
    destruct Hw. constructor; [|auto]. apply one_line_app; [apply quote_one_line|]. by apply one_line_cons; [|apply Hv].
Qed.

(** ** The line of a call *)

Lemma members_spec l ms : members l = Some ms → l = (λ p, (p.1, Some p.2)) <$> ms.
Proof.
  revert ms. induction l as [|[k [j|]] l IH]; intros ms; [by intros [= <-]| |done]. simpl.
  destruct (members l) as [rest|]; [|done]. intros [= <-]. simpl. by rewrite <- IH.
Qed.

Lemma members_None l : members l = None ↔ ∃ k, (k, None) ∈ l.
Proof.
  induction l as [|[k [j|]] l IH]; simpl.
  - split; [done|]. intros [k Hk]. by apply elem_of_nil in Hk.
  - transitivity (members l = None); [by destruct (members l)|]. rewrite IH.
    split; intros [k' Hk]; exists k'; [by right|]. by apply elem_of_cons in Hk as [|].
  - split; [|done]. intros _. exists k. by left.
Qed.

Lemma log_entry_fixed level msg ts fields k :
  log_entry level msg ts fields !! k =
    match fields !! k with
    | Some v => Some v
    | None => if decide (k = "level"%string) then Some (Some (JStr level))
              else if decide (k = "msg"%string) then Some (Some (JStr msg))
              else if decide (k = "ts"%string) then Some (Some (JStr ts)) else None
    end.
Proof.
  unfold log_entry. destruct (fields !! k) as [v|] eqn:E; [by apply lookup_union_Some_l|].
  rewrite lookup_union_r by done. rewrite !lookup_insert, lookup_singleton. repeat case_decide; naive_solver.
Qed.

(** One call, one line: a call whose fields can all be marshalled appends
    exactly one line, with no newline inside whatever the message and the
    fields contain, and the line is a JSON object that parses back to the
    message, the level, the time and the fields (a field of one of these
    names takes its place).  A field that cannot be marshalled drops the call
    and writes nothing. *)
Theorem logf_one_line level msg ts fields l :
  (∀ k j, fields !! k = Some (Some j) → json_wf j) →
  let entry := log_entry level msg ts fields in
  ((∃ k, fields !! k = Some None) → logf level msg ts fields l = l) ∧
  ((∀ k, fields !! k ≠ Some None) →
   ∃ line ms, out (logf level msg ts fields l) = out l ++ line ++ ["010"%char] ∧ one_line line ∧
     parse line = Some (coerce_json (JObj ms)) ∧ ∀ k j, (k, j) ∈ ms ↔ entry !! k = Some (Some j)).
Proof.
  intros Hwf entry. unfold logf. fold entry.
  assert (Hin : ∀ k v, (k, v) ∈ sorted_entries entry ↔ entry !! k = Some v).
  { intros k v. by rewrite sorted_entries_perm, elem_of_map_to_list. }
  split.
  - intros [k Hk]. rewrite (proj2 (members_None _)); [done|]. exists k. apply Hin. unfold entry.
    by rewrite log_entry_fixed, Hk.
  - intros Hall. destruct (members (sorted_entries entry)) as [ms|] eqn:E.
    + exists (print (JObj ms)), ms.
      assert (Hms : ∀ k j, (k, j) ∈ ms ↔ entry !! k = Some (Some j)).
      { intros k j. rewrite <- Hin, (members_spec _ _ E), list_elem_of_fmap. split.
        - intros Hk. by exists (k, j).
        - intros ([k' j'] & [= -> ->] & Hk). done. }
      assert (Hw : json_wf (JObj ms)).
      { assert (Hj : ∀ k j, (k, j) ∈ ms → json_wf j).
        { intros k j Hk%Hms. unfold entry in Hk. rewrite log_entry_fixed in Hk.
          destruct (fields !! k) as [v|] eqn:Ef; [simplify_eq; by eapply Hwf|].
          repeat case_decide; by simplify_eq. }
        clear -Hj. change (members_wf ms). induction ms as [|[k j] ms IH]; [done|].
        split; [apply (Hj k); by left|]. apply IH. intros k' j' Hk. apply (Hj k'). by right. }
      split; [done|]. split; [by apply print_one_line|]. split; [|done].
      rewrite <- (app_nil_r (print _)). by apply parse_print.
    + apply members_None in E as [k Hk%Hin]. unfold entry in Hk. rewrite log_entry_fixed in Hk.
      destruct (fields !! k) as [v|] eqn:Ef; [simplify_eq; by destruct (Hall k)|]. repeat case_decide; by simplify_eq.
Qed.

(** A message that tries to start a line of its own. *)
Lemma logf_one_line_witness :
  let msg := string_of_bytes (bytes_of_string "x" ++ ["010"%char] ++ bytes_of_string "{}") in
  let fields : Fields := {["status"%string := Some (JNum "200")]} in
  ∃ line ms, out (logf "info" msg "t" fields NewLogger) = line ++ ["010"%char] ∧ one_line line ∧
    parse line = Some (coerce_json (JObj ms)).
Proof.
  intros msg fields. destruct (logf_one_line "info" msg "t" fields NewLogger) as [_ H].
  - intros k j Hk. apply lookup_singleton_Some in Hk as [_ Hj]. injection Hj as <-. split; reflexivity.
  - destruct H as (line & ms & H1 & H2 & H3 & _).
    + intros k Hk. apply lookup_singleton_Some in Hk as [_ Hj]. discriminate.
    + exists line, ms. split; [exact H1|]. split; [exact H2|exact H3].
Defined.
