(* ===== verification/Shutdown.v ===== *)
(** * Shutdown: the server process from listening to its exit (cmd/server/main.go)

    The last part of [main]: it logs its settings and serves until the HTTP
    server fails or a signal arrives; then it shuts the HTTP server down, stops
    the raft node and closes the store.  What [net/http] does is an argument:
    the error [ListenAndServe] returned and the error of [Shutdown]. *)

From S2P Require Import Prelude GoLib Engine MemStore Json Disk Crypto Wal Snapshot DiskStore DiskEngine Batching StoreLife Durability.
From S2P Require Import RaftNode RaftLeader RaftApply RaftCluster RaftLoop Api Standalone ServerMain Logger.

(** What [main] has running when it serves: the store and, in a cluster, the
    loop of the node and the tracker of its apply loop. *)
Record Serving : Type := mkServing { sv_store : DiskStore; sv_loop : option Loop; sv_apply : option ApplyTracker }.

(** [go node.Loop(ctx)] and [node.StartApply(ctx)], at time [now]. *)
Definition main_go (now r : Z) (a : App) : Serving :=
  match a_node a with
  | None => mkServing (a_store a) None None
  | Some _ => mkServing (a_store a) (Some (Loop_enter now r)) (Some StartApply)
  end.

(** What the [select] of [main] received: the error of the server goroutine, or
    the signal. *)
Inductive cause : Type := ServeReturned (err : option go_error) | Signalled.

(** [http.ErrServerClosed]. *)
Definition ErrServerClosed : go_error := ErrMsg "http: Server closed".

(** [map[string]any{"error": err.Error()}]. *)
Definition error_field (err : go_error) : Fields := {["error"%string := Some (JStr (Error err))]}.

(** The fields of the line [main] logs before it serves. *)
Definition starting_fields (env : Env) (encrypted : bool) : Fields :=
  list_to_map [("port", Some (JStr (envOr env "PORT" "8081"))); ("data_dir", Some (JStr (envOr env "DATA_DIR" "./data")));
    ("peers", Some (JStr (env "PEERS"))); ("node_id", Some (JStr (envOr env "NODE_ID" "")));
    ("tls", Some (JBool (negb (String.eqb (env "TLS_CERT") "")))); ("encrypted", Some (JBool encrypted))]%string.

(** How the process ends: [log.Fatal] prints the error and exits with status 1,
    or [main] returns. *)
Inductive exit : Type :=
| Fatal (err : go_error) (l : Logger)
| MainReturns (s : DiskStore) (acks : list reply) (lp : option Loop) (l : Logger).

(** [cancel()]: the context of [Loop] is done. *)
Definition cancel (lp : Loop) : Loop := mkLoop (lp_election lp) (lp_heartbeat lp) (lp_phase lp) true (lp_stop lp).

(** [main] after [select]: [None] is a panic of [Stop].  [ts] are the times of
    the log lines, [t1], [t2], [t3] the clock readings of a write that [Close]
    still executes. *)
Definition main_stop (rnd : nat → option bytes) (t1 t2 t3 : Z) (ts : nat → string) (c : cause) (shutdown : option go_error)
    (v : Serving) (l : Logger) : IO (option exit) :=
  match match c with
        | ServeReturned (Some err) =>
            if decide (err = ErrServerClosed) then inr l else inl (Fatal err (Error_ "server failed" (ts 0%nat) (error_field err) l))
        | ServeReturned None => inr l
        | Signalled => inr (Info "shutdown signal received" (ts 0%nat) ∅ l)
        end with
  | inl x => ret (Some x)
  | inr l =>
      let l := from_option (λ err, Error_ "graceful shutdown failed" (ts 1%nat) (error_field err) l) l shutdown in
      let l := Info "stopping raft node" (ts 2%nat) ∅ l in
      match match sv_loop v with
            | None => Some None
            | Some lp => Some <$> Stop (cancel lp)
            end with
      | None => ret None
      | Some lp =>
          let l := Info "closing storage engine" (ts 3%nat) ∅ l in
          '(s, acks, r) <- DiskStore.Close rnd t1 t2 t3 (sv_store v) ;;
          let l := match r with Err err => Error_ "engine close failed" (ts 4%nat) (error_field err) l | Ok _ => l end in
          ret (Some (MainReturns s acks lp (Info "server stopped" (ts 5%nat) ∅ l)))
      end
  end.

(** A loop that returns at its next [select], whatever else is ready. *)
Definition leaving (lp : Loop) : Prop := lp_done lp = true ∧ lp_stop lp = true.

Lemma Stop_cancel lp : ∃ lp', Stop (cancel lp) = Some lp' ∧ leaving lp'.
Proof.
  unfold Stop, Stop_rest, close_stop, cancel, leaving. cbn. destruct (lp_stop lp) eqn:E; eexists; (split; [done|]); done.
Qed.

(** C38 (ending on a signal): when the process ends on a signal and no system call
    fails, whether or not the HTTP server could be drained in time, the loop of
    the raft node is told to return, every request the store still held is
    executed and answered, and a process started on the same directory finds the
    data as the snapshot keeps it: exactly the data the store had when its keys
    and values are valid UTF-8, and otherwise with what is no UTF-8 replaced by
    U+FFFD ([snapshot_data]).  The directory holds the memory ([consistent]), the
    held requests fit a log record, and clock readings are at most [T] and
    deadlines after [T] ([held]).  When serving fails the process exits at once,
    and the files are as they were. *)
Theorem signal_keeps_data dir c rnd T t1 t2 t3 ow ts shutdown v l w (s := sv_store v) :
  match c with None => True | Some c => AEAD_laws (aead c) end →
  (∀ n, ∃ nonce, rnd n = Some nonce ∧ length nonce = atRestNonceSize) →
  script w = [] → consistent dir c T ow s (fs w) → held c T ow s → t1 <= T → t3 <= T →
  (∃ s' acks lp' l' w',
    main_stop rnd t1 t2 t3 ts Signalled shutdown v l w = (Ok (Some (MainReturns s' acks lp' l')), w') ∧
    (lp' = None ↔ sv_loop v = None) ∧ (∀ x, lp' = Some x → leaving x) ∧
    acks = seq_replies T (data (mem s)) (Durability.waiting s) ∧
    data (mem s') = redo_data T (req_record <$> Durability.waiting s) (data (mem s)) ∧
    ∀ clk h, (∀ j, clk j <= T) →
      ∃ s2, (openDiskStore clk dir c (mkWorld (fs w') [] h)).1 = Ok s2 ∧
        data (mem s2) = snapshot_data (data (mem s')) ∧ (store_ok (data (mem s')) → data (mem s2) = data (mem s'))) ∧
  (∀ err, err ≠ ErrServerClosed →
    ∃ l', main_stop rnd t1 t2 t3 ts (ServeReturned (Some err)) shutdown v l w = (Ok (Some (Fatal err l')), w)).
Proof.
  intros Hlaws Hrnd Hs Hc Hh H1 H3. split.
  - destruct (close_keeps_holds dir c rnd T Hlaws Hrnd t1 t2 t3 ow s w Hs Hc Hh H1 H3) as (s' & acks & w' & Hcl & Ha & Hd & Hopen).
    assert (∃ lp', match sv_loop v with None => Some None | Some lp => Some <$> Stop (cancel lp) end = Some lp' ∧
      (lp' = None ↔ sv_loop v = None) ∧ ∀ x, lp' = Some x → leaving x) as (lp' & Hlp & Hn & Hx).
    { destruct (sv_loop v) as [lp|]; [|by exists None]. destruct (Stop_cancel lp) as (lp' & -> & Hl). exists (Some lp'). split_and!; [done|done|].
      by intros x [= <-]. }
    eexists s', acks, lp', _, w'. split; [|done]. unfold main_stop. rewrite Hlp. unfold bind. fold s. rewrite Hcl. done.
  - intros err Hne. unfold main_stop. rewrite decide_False by done. by eexists.
Qed.

(** A node of a cluster with two writes in flight. *)
Lemma signal_keeps_data_witness :
  let s := set_chan [Put_req 1 "a" "41"; Incr_req 2 "a"] (fresh_store "d" None NewMemStore) in
  let w := mkWorld (at_rest {["d/wal.log"%string := []]}) [] [] in
  let v := main_go 0 0 (mkApp s (Some (NewNode "A" ["B"%string])) None "8081" false) in
  ∃ s' acks lp' l' w',
    main_stop fixed_nonces 5 5 5 (λ _, ""%string) Signalled None v NewLogger w =
      (Ok (Some (MainReturns s' acks lp' l')), w') ∧ Value <$> data (mem s') !! "a"%string = Some "42"%string.
Proof.
  intros s w v.
  destruct (signal_keeps_data "d" None fixed_nonces 100 5 5 5 false (λ _, ""%string) None v NewLogger w)
    as [(s' & acks & lp' & l' & w' & H1 & _ & _ & _ & H2 & _) _].
  - exact I.
  - intros n. exists (replicate 12 zero). split; reflexivity.
  - reflexivity.
  - exists ∅, [], [], None. split; try done; by left.
  - split; try done. repeat constructor; vm_compute; discriminate || (intros; discriminate).
  - lia.
  - lia.
  - exists s', acks, lp', l', w'. split; [exact H1|]. rewrite H2. vm_compute. reflexivity.
Defined.
