(* ===== verification/Metrics.v ===== *)
(** * Metrics: the metrics page, pkg/api/metrics.go

    The counters are in Api, where the middleware updates them; here are the
    page itself, with the floating-point conversion of the latency, the route
    of [GET /metrics], the types of the responses of the whole handler, and what
    the counters mean after any sequence of requests. *)

From Stdlib Require Import Floats.SpecFloat.
From S2P Require Import Prelude GoLib Engine MemStore Json RaftNode RaftEngine Api ApiTypes.

(** ** time.Duration.Seconds and the verb %f

    binary64 with rounding to nearest even. *)

Definition float64 : Type := spec_float.
Definition float_of_int (z : Z) : float64 := binary_normalize 53 1024 z 0 false.

Definition second : Z := 1000000000.

(** [float64(sec) + float64(nsec)/1e9]. *)
Definition Seconds (d : Z) : float64 :=
  let sec := Z.quot d second in
  let nsec := Z.rem d second in
  SFadd 53 1024 (float_of_int sec) (SFdiv 53 1024 (float_of_int nsec) (float_of_int second)).

(** The conversion [int64(f)] of a finite float: towards zero. *)
Definition int64_of_float (f : float64) : Z :=
  match f with
  | S754_finite s m e =>
      let v := if 0 <=? e then Zpos m * 2 ^ e else Zpos m / 2 ^ (- e) in
      if s then - v else v
  | _ => 0
  end.

(** The nearest integer to [num / den], ties to even. *)
Definition round_even (num den : Z) : Z :=
  let q := num / den in
  let r := num mod den in
  if 2 * r <? den then q else if den <? 2 * r then q + 1 else if Z.even q then q else q + 1.

Fixpoint zeros (n : nat) : bytes := match n with O => [] | S n => "0"%char :: zeros n end.

(** Six digits after the point, of the exact value of the float. *)
Definition format_micros (neg : bool) (micros : Z) : bytes :=
  let frac := bytes_of_string (FormatInt (micros mod 1000000)) in
  (if neg then ["-"%char] else []) ++ bytes_of_string (FormatInt (micros / 1000000)) ++ ["."%char] ++
  zeros (6 - length frac) ++ frac.

Definition format_f (f : float64) : bytes :=
  match f with
  | S754_finite s m e =>
      format_micros s (if 0 <=? e then Zpos m * 2 ^ e * 1000000 else round_even (Zpos m * 1000000) (2 ^ (- e)))
  | S754_zero s => format_micros s 0
  | S754_infinity s => bytes_of_string (if s then "-Inf" else "+Inf")
  | S754_nan => bytes_of_string "NaN"
  end.

(** ** The page *)

(** [fmt.Fprintln] and [fmt.Fprintf] of a line. *)
Definition line (l : bytes) : bytes := l ++ newline.
Definition text (s : string) : bytes := line (bytes_of_string s).
Definition counter (name : string) (v : Z) : bytes :=
  line (bytes_of_string name ++ [" "%char] ++ bytes_of_string (FormatInt v)).

Definition codes (m : Metrics) : list Z := go_sort Z.le (map_to_list (statuses m)).*1.

Definition status_line (m : Metrics) (code : Z) : bytes :=
  line (bytes_of_string "kvstore_status_total{code=" ++ [dquote] ++ bytes_of_string (FormatInt code) ++ [dquote] ++
        bytes_of_string "} " ++ bytes_of_string (FormatInt (default 0 (statuses m !! code)))).

(** [render]; [uptime] is [time.Since(m.startedAt)]. *)
Definition render (m : Metrics) (keyCount expiredCount uptime : Z) : bytes :=
  text "# HELP kvstore_requests_total Total number of HTTP requests." ++
  text "# TYPE kvstore_requests_total counter" ++
  counter "kvstore_requests_total" (totalReq m) ++
  text "# HELP kvstore_status_total HTTP status code counts." ++
  text "# TYPE kvstore_status_total counter" ++
  concat (status_line m <$> codes m) ++
  text "# HELP kvstore_latency_seconds_total Cumulative request latency." ++
  text "# TYPE kvstore_latency_seconds_total counter" ++
  line (bytes_of_string "kvstore_latency_seconds_total " ++ format_f (Seconds (i64_of_u64 (latencySumNs m)))) ++
  text "# TYPE kvstore_latency_seconds_count counter" ++
  counter "kvstore_latency_seconds_count" (latencyCount m) ++
  text "# HELP kvstore_keys_total Number of keys in the store." ++
  text "# TYPE kvstore_keys_total gauge" ++
  counter "kvstore_keys_total" keyCount ++
  text "# HELP kvstore_expired_keys_total Number of keys dropped by expiry." ++
  text "# TYPE kvstore_expired_keys_total counter" ++
  counter "kvstore_expired_keys_total" expiredCount ++
  text "# HELP kvstore_uptime_seconds Server uptime." ++
  text "# TYPE kvstore_uptime_seconds gauge" ++
  counter "kvstore_uptime_seconds" (int64_of_float (Seconds uptime)).

Section metrics.
Context `{Engine SM}.

(** The optional methods an engine may have, found by a type assertion. *)
Context (engine_Size : option (Z → SM → Z)) (engine_ExpiredCount : option (SM → Z)).

Definition keyCount (now : Z) (s : Server SM) : Z :=
  match engine_Size with Some size => size now (engine s) | None => TotalKeys (metrics s) end.

Definition expiredCount (s : Server SM) : Z :=
  match engine_ExpiredCount with Some count => count (engine s) | None => 0 end.

Definition handleMetrics (uptime : Z) : Handler SM := λ now r s,
  (Some (mkResponse 200 "text/plain; version=0.0.4; charset=utf-8" ""
           (render (metrics s) (keyCount now s) (expiredCount s) uptime)), s).

(** The router with its last route, and the whole handler. *)
Definition full_mux (uptime : Z) : Handler SM := λ now r s,
  if decide (rq_Path r = ["metrics"%string]) then
    match find_route (rq_Method r) [("GET"%string, handleMetrics uptime)] with
    | Some h => h now r s
    | None => (Some (http_Error "Method Not Allowed" 405), s)
    end
  else mux now r s.

Definition Full_Handler (uptime d : Z) : Handler SM := cors (recoverPanic (logRequests d (full_mux uptime))).

(** Every other path is served as Api describes. *)
Lemma Full_Handler_api uptime d now r s :
  rq_Path r ≠ ["metrics"%string] → Full_Handler uptime d now r s = Server_Handler d now r s.
Proof.
  intros Hp. unfold Full_Handler, Server_Handler, cors, recoverPanic, logRequests, full_mux.
  by rewrite (decide_False (P := rq_Path r = ["metrics"%string])).
Qed.

(** C19 (types of the REST API): over any engine whose counters are [int64] (the
    type of its Incr), every request gets a response whose status is one of
    eleven; a JSON body is read back by a JSON parser as an object with exactly
    the members of its route (a key and "ok", a key and an [int64] in decimal, a
    cursor and items of key and value) when the status is 200, and as an error
    text otherwise; a success that is not JSON comes only from the routes that
    promise none; and only redirections carry a location. *)
Theorem api_responses_typed uptime d now r s :
  int64_counters SM →
  ∃ x, (Full_Handler uptime d now r s).1 = Some x ∧
    well_typed (if decide (rq_Method r = "OPTIONS"%string) then None else success_type (rq_Method r) (rq_Path r)) x.
Proof.
  intros Hint. destruct (decide (rq_Path r = ["metrics"%string])) as [Hp|Hp].
  2: { rewrite Full_Handler_api by done. by apply Server_Handler_typed. }
  unfold Full_Handler, cors. destruct (decide (rq_Method r = "OPTIONS"%string)) as [Hm|Hm].
  { exists (mkResponse 204 "" "" []). by split; [|apply empty_typed]. }
  unfold recoverPanic, logRequests, full_mux. rewrite decide_True, Hp by done. cbn [find_route].
  case_decide; cbn; eexists; (split; [done|]); [by apply text_typed|by apply http_Error_typed; [apply (bool_decide_unpack _)|]].
Qed.
End metrics.

(** An increment over the store in memory. *)
Lemma api_responses_typed_witness :
  let s := NewServer (Put "k" "41" NewMemStore) in
  let r := mkRequest "POST" ["kv"; "k"; "incr"]%string "/kv/k/incr" [] (mkBody [] false) in
  ∃ x, (Full_Handler None None 7 0 5 r s).1 = Some x ∧ well_typed (Some incr_type) x.
Proof.
  intros s r. apply (api_responses_typed (SM := MemStore) None None 7 0 5 r s). apply lawful_counters.
Defined.

Example Seconds_ex : format_f (Seconds 1500000) = bytes_of_string "0.001500" ∧
  format_f (Seconds 3723000000001) = bytes_of_string "3723.000000" ∧ int64_of_float (Seconds 90999999999) = 90 ∧
  format_f (Seconds (-1500000000)) = bytes_of_string "-1.500000" ∧ format_f (Seconds 0) = bytes_of_string "0.000000".
Proof. vm_compute. split_and!; reflexivity. Qed.

(** ** What the counters mean *)

(** A request, the time it is served at and how long that takes. *)
Record arrival : Type := mkArrival { ar_request : Request; ar_now : Z; ar_took : Z }.

Definition preflight (a : arrival) : bool := String.eqb (rq_Method (ar_request a)) "OPTIONS".

Definition occurrences (c : Z) (l : list Z) : Z := zlen (filter (.= c) l).

Lemma occurrences_app c l x : occurrences c (l ++ [x]) = occurrences c l + (if decide (x = c) then 1 else 0).
Proof.
  unfold occurrences. rewrite filter_app, zlen_app, filter_cons. by case_decide; simpl.
Qed.

Lemma occurrences_bound c l : 0 <= occurrences c l <= zlen l.
Proof.
  unfold occurrences, zlen. assert (Hl : (length (filter (.= c) l) <= length l)%nat).
  { induction l as [|x l IH]; [done|]. rewrite filter_cons. case_decide; simpl; lia. }
  lia.
Qed.

Lemma occurrences_in c l : c ∈ l ↔ 0 < occurrences c l.
Proof.
  unfold occurrences. split.
  - intros Hc. assert (Hin : c ∈ filter (.= c) l) by by apply list_elem_of_filter.
    destruct (filter (.= c) l); [by apply elem_of_nil in Hin|]. rewrite zlen_cons. pose proof (zlen_nonneg l0). lia.
  - intros Hlt. destruct (filter (.= c) l) as [|x l'] eqn:E; [by apply Z.lt_irrefl in Hlt|].
    assert (Hin : x ∈ filter (.= c) l) by (rewrite E; by left). by apply list_elem_of_filter in Hin as [ -> ?].
Qed.

Definition zsum (l : list Z) : Z := foldr Z.add 0 l.

Lemma zsum_cons x l : zsum (x :: l) = x + zsum l.
Proof. done. Qed.

Lemma zsum_indicator (x : Z) (cs : list Z) : NoDup cs → x ∈ cs → zsum ((λ c, if decide (x = c) then 1 else 0) <$> cs) = 1.
Proof.
  set (f := λ c, if decide (x = c) then 1 else 0).
  assert (Hf : ∀ c, f c = if decide (x = c) then 1 else 0) by done. clearbody f.
  assert (Hnone : ∀ cs, x ∉ cs → zsum (f <$> cs) = 0).
  { clear cs. induction cs as [|c cs IH]; [done|]. intros Hx. rewrite fmap_cons, zsum_cons, Hf, decide_False by set_solver.
    by rewrite IH by set_solver. }
  induction 1 as [|c cs Hc Hnd IH]; [by intros ?%elem_of_nil|]. intros Hx. rewrite fmap_cons, zsum_cons, Hf. case_decide as E.
  - subst c. by rewrite Hnone.
  - by rewrite IH by set_solver.
Qed.

Lemma zsum_plus (f g : Z → Z) cs : zsum ((λ c, f c + g c) <$> cs) = zsum (f <$> cs) + zsum (g <$> cs).
Proof. induction cs as [|c cs IH]; [done|]. rewrite !fmap_cons, !zsum_cons, IH. lia. Qed.

(** Summing the occurrences over all values counts every element once. *)
Lemma zsum_occurrences cs l : NoDup cs → (∀ x, x ∈ l → x ∈ cs) → zsum ((λ c, occurrences c l) <$> cs) = zlen l.
Proof.
  intros Hnd. induction l as [|x l IH] using rev_ind; intros Hl.
  - clear. induction cs as [|c cs IH]; [done|]. by rewrite fmap_cons, zsum_cons, IH.
  - rewrite (list_fmap_ext _ (λ c, occurrences c l + (if decide (x = c) then 1 else 0)) cs)
      by (intros; apply occurrences_app).
    rewrite zsum_plus, zsum_indicator, IH, zlen_app by set_solver. done.
Qed.

Section counting.
Context `{Engine SM} (engine_Size : option (Z → SM → Z)) (engine_ExpiredCount : option (SM → Z)) (uptime : Z).

Definition serve_one (s : Server SM) (a : arrival) : option Response * Server SM :=
  Full_Handler engine_Size engine_ExpiredCount uptime (ar_took a) (ar_now a) (ar_request a) s.

(** The statuses of the answers, preflight requests apart, and the server. *)
Fixpoint serve_all (l : list arrival) (s : Server SM) : list Z * Server SM :=
  match l with
  | [] => ([], s)
  | a :: l =>
      let (resp, s) := serve_one s a in
      let (sts, s) := serve_all l s in
      (if preflight a then sts else from_option rp_Status 0 resp :: sts, s)
  end.

(** The counters after answers of these statuses. *)
Record counted (l : list Z) (m : Metrics) : Prop := {
  cn_total : totalReq m = zlen l;
  cn_latency : latencyCount m = zlen l;
  cn_status : ∀ c, statuses m !! c = (if decide (c ∈ l) then Some (occurrences c l) else None)
}.

Lemma counted_counters l m m' : counters m' = counters m → counted l m → counted l m'.
Proof. intros [= H1 _ H3 H4] [C1 C2 C3]. split; [congruence..|]. intros c. by rewrite H4. Qed.

Lemma counted_record l m st d : zlen l + 1 < 2 ^ 64 → counted l m → counted (l ++ [st]) (Record_ st d m).
Proof.
  intros Hl [C1 C2 C3]. pose proof (zlen_nonneg l).
  assert (Hu : ∀ z, 0 <= z <= zlen l → u64 (z + 1) = z + 1) by (intros z Hz; unfold u64; apply Z.mod_small; lia).
  split; cbn [Record_ totalReq latencyCount statuses]; rewrite ?C1, ?C2, ?Hu, ?zlen_app by lia; [done..|].
  intros c. rewrite lookup_insert, occurrences_app. case_decide as E.
  - subst c. rewrite (decide_True (P := st ∈ l ++ [st])) by set_solver. f_equal. rewrite C3.
    pose proof (occurrences_bound st l). pose proof (occurrences_in st l) as Hin. case_decide as Hc; simpl.
    + by rewrite Hu by lia.
    + assert (occurrences st l = 0) as -> by (destruct (decide (0 < occurrences st l)); [tauto|lia]).
      by rewrite (Hu 0) by lia.
  - rewrite C3, Z.add_0_r. destruct (decide (c ∈ l)); [rewrite decide_True by set_solver|rewrite decide_False by set_solver]; done.
Qed.

Lemma full_mux_spec now r s :
  ∃ x s', full_mux engine_Size engine_ExpiredCount uptime now r s = (Some x, s') ∧ counters (metrics s') = counters (metrics s).
Proof.
  unfold full_mux. case_decide.
  - destruct (find_route _ _) as [h|] eqn:E; [|by eexists _, _]. cbn [find_route] in E. case_decide; [|done].
    injection E as <-. by eexists _, _.
  - destruct (mux_answers now r s) as [x Hx]. pose proof (mux_uncounted now r s) as Hu.
    destruct (mux now r s) as [resp s']. simpl in *. subst resp. by exists x, s'.
Qed.

Lemma serve_one_counted l s a resp s' :
  zlen l + 1 < 2 ^ 64 → counted l (metrics s) → serve_one s a = (resp, s') →
  counted (if preflight a then l else l ++ [from_option rp_Status 0 resp]) (metrics s').
Proof.
  intros Hl Hc. unfold serve_one, Full_Handler, cors, preflight.
  destruct (String.eqb_spec (rq_Method (ar_request a)) "OPTIONS") as [E|E].
  - rewrite decide_True by done. by intros [= <- <-].
  - rewrite decide_False by done. unfold recoverPanic, logRequests.
    destruct (full_mux_spec (ar_now a) (ar_request a) s) as (x & s1 & -> & Hk). intros [= <- <-]. simpl.
    apply counted_record; [done|]. by eapply counted_counters.
Qed.

Lemma serve_all_counted as_ l s sts s' :
  zlen l + zlen as_ < 2 ^ 64 → counted l (metrics s) → serve_all as_ s = (sts, s') → counted (l ++ sts) (metrics s').
Proof.
  revert l s sts. induction as_ as [|a as_ IH]; intros l s sts Hl Hc; cbn [serve_all].
  { intros [= <- <-]. by rewrite app_nil_r. }
  rewrite zlen_cons in Hl. pose proof (zlen_nonneg as_). destruct (serve_one s a) as [resp s1] eqn:E.
  pose proof (serve_one_counted l s a resp s1 ltac:(lia) Hc E) as Hc1. destruct (serve_all as_ s1) as [sts1 s2] eqn:E2.
  intros [= <- <-]. destruct (preflight a).
  - by eapply IH; [|exact Hc1|]; [lia|].
  - rewrite (cons_middle _ l sts1), app_assoc. eapply IH; [|exact Hc1|done]. rewrite zlen_app, zlen_cons, zlen_nil. lia.
Qed.

(** C39 (the metrics add up): after any sequence of fewer than 2^64 requests the
    request counter and the latency counter are the number of requests that
    are not preflights, the counter of each status is the number of answers
    with that status, the page lists every status that occurred once and in
    ascending order, and the listed counters sum up to the request counter. *)
Theorem metrics_add_up as_ e sts s :
  zlen as_ < 2 ^ 64 → serve_all as_ (NewServer e) = (sts, s) →
  let m := metrics s in
  zlen sts = zlen (filter (λ a, preflight a = false) as_) ∧
  totalReq m = zlen sts ∧ latencyCount m = zlen sts ∧
  (∀ c, default 0 (statuses m !! c) = occurrences c sts) ∧
  StronglySorted Z.lt (codes m) ∧ (∀ c, c ∈ codes m ↔ c ∈ sts) ∧
  zsum ((λ c, default 0 (statuses m !! c)) <$> codes m) = totalReq m.
Proof.
  intros Hl Hs m.
  assert (Hc : counted sts m).
  { apply (serve_all_counted as_ [] (NewServer e) sts s); [done| |done]. split; [done|done|]. intros c. simpl.
    by rewrite lookup_empty. }
  assert (Hlen : zlen sts = zlen (filter (λ a, preflight a = false) as_)).
  { clear -Hs. revert Hs. generalize (NewServer e). revert sts. induction as_ as [|a as_ IH]; intros sts s0; cbn [serve_all].
    - by intros [= <- _].
    - destruct (serve_one s0 a) as [resp s1]. destruct (serve_all as_ s1) as [sts1 s2] eqn:E. intros [= <- <-].
      specialize (IH sts1 s1 E). rewrite filter_cons. destruct (preflight a); [by rewrite decide_False|].
      rewrite decide_True by done. by rewrite !zlen_cons, IH. }
  destruct Hc as [C1 C2 C3].
  assert (Hval : ∀ c, default 0 (statuses m !! c) = occurrences c sts).
  { intros c. rewrite C3. case_decide as Hin; [done|]. pose proof (occurrences_in c sts). pose proof (occurrences_bound c sts).
    simpl. destruct (decide (0 < occurrences c sts)); [tauto|lia]. }
  assert (Hin : ∀ c, c ∈ codes m ↔ c ∈ sts).
  { intros c. unfold codes. rewrite go_sort_Permutation, list_elem_of_fmap. split.
    - intros ([c' v] & -> & Hm%elem_of_map_to_list). rewrite C3 in Hm. simpl in *. by case_decide.
    - intros Hc. exists (c, occurrences c sts). split; [done|]. apply elem_of_map_to_list. by rewrite C3, decide_True. }
  assert (Hnd : NoDup (codes m)).
  { unfold codes. rewrite go_sort_Permutation. apply NoDup_fst_map_to_list. }
  split_and!; try done.
  - assert (Hsort : StronglySorted Z.le (codes m)) by (unfold codes; apply go_sort_sorted; apply _).
    clear -Hsort Hnd. induction Hsort as [|c l Hl IH Hall]; [constructor|]. apply NoDup_cons in Hnd as [Hc Hnd].
    constructor; [by apply IH|]. rewrite Forall_forall in Hall |- *. intros x Hx. specialize (Hall x Hx).
    assert (x ≠ c) by (intros ->; done). lia.
  - rewrite (list_fmap_ext _ (λ c, occurrences c sts) (codes m)) by (intros; apply Hval).
    rewrite zsum_occurrences; [by rewrite C1|done|]. intros x. by rewrite Hin.
Qed.
End counting.

(** A put, a read of a missing key, a preflight and the page itself. *)
Definition four_requests : list arrival :=
  [mkArrival (mkRequest "PUT" ["kv"; "a"]%string "/kv/a" [] (mkBody [] false)) 1 10;
   mkArrival (mkRequest "GET" ["kv"; "b"]%string "/kv/b" [] (mkBody [] false)) 2 10;
   mkArrival (mkRequest "OPTIONS" ["kv"; "b"]%string "/kv/b" [] (mkBody [] false)) 3 10;
   mkArrival (mkRequest "GET" ["metrics"]%string "/metrics" [] (mkBody [] false)) 4 10].

Lemma metrics_add_up_witness :
  let '(sts, s) := serve_all (Some Size) (Some ExpiredCount) 0 four_requests (NewServer NewMemStore) in
  sts = [200; 404; 200] ∧ totalReq (metrics s) = 3 ∧ codes (metrics s) = [200; 404] ∧
  zsum ((λ c, default 0 (statuses (metrics s) !! c)) <$> codes (metrics s)) = 3.
Proof.
  destruct (serve_all _ _ _ _ _) as [sts s] eqn:E.
  destruct (metrics_add_up (Some Size) (Some ExpiredCount) 0 four_requests NewMemStore sts s eq_refl E)
    as (Hlen & Htot & _ & _ & _ & _ & Hsum).
  assert (Hs : sts = [200; 404; 200] ∧ codes (metrics s) = [200; 404]).
  { replace sts with (serve_all (Some Size) (Some ExpiredCount) 0 four_requests (NewServer NewMemStore)).1 by by rewrite E.
    replace s with (serve_all (Some Size) (Some ExpiredCount) 0 four_requests (NewServer NewMemStore)).2 by by rewrite E.
    vm_compute. split; reflexivity. }
  destruct Hs as [Hs Hc]. split; [exact Hs|]. split; [rewrite Htot, Hs; reflexivity|]. split; [exact Hc|].
  rewrite Hsum, Htot, Hs. reflexivity.
Defined.

(** The key gauge of a follower: a raft node has no [Size], so the page
    shows the counter the handlers keep, and [handlePut] raises it before the
    engine decides: a follower that redirects the same put twice reports two
    keys while it stores none. *)
Theorem key_gauge_counts_refused_puts :
  let n := set_vote RoleFollower 1 None (Some "http://l"%string) false (NewNode "http://f" ["http://l"%string]) in
  let s0 := NewServer (mkRaftEngine n RaftState_zero NewMemStore None) in
  let put := mkArrival (mkRequest "PUT" ["kv"; "a"]%string "/kv/a" [] (mkBody [] false)) 1 10 in
  let (sts, s) := serve_all None None 0 [put; put] s0 in
  sts = [307; 307] ∧ keyCount None 2 s = 2 ∧ data (re_store (engine s)) = ∅.
Proof. vm_compute. split_and!; reflexivity. Qed.
